(* ===== verification/_CoqProject ===== *)
-Q . S2P
Prelude.v
Vector.v
FrameCodec.v
Lifecycle.v
Config.v
ConfigLoader.v
ConfigValidator.v
IdleTimeout.v
Metrics.v
Logging.v
Os.v
DecoderBenchmark.v
Socket.v
Connection.v
SocketIO.v
Poller.v
Acceptor.v
Dispatcher.v
WorkerPool.v
PoolWakeups.v
EchoServer.v
Footprint.v
EchoWorld.v
EchoInvariant.v
EchoLoop.v
GracefulServer.v
EchoPeer.v
EchoClient.v
Net.v
NetTurn.v
EchoCount.v
NetClient.v
EchoSystem.v
EchoAlive.v
EchoServed.v
EchoTally.v
EchoBenchmark.v
UnitTests.v
