(* ===== verification/Prelude.v ===== *)
(** * A verification of the TCP server core

    The repository is the core of a TCP server in C++23 (src/, include/): a
    length-prefixed frame codec, non-blocking sockets and connections, a poller,
    an acceptor, a worker pool, a shutdown lifecycle, configuration, idle
    timeouts, metrics and logging. No server is assembled in src/main.cpp; the
    one that puts the parts together is the echo server of
    benchmarks/e2e_echo_benchmark.cpp, with its clients. The definitions here are
    translations of that code, function by function and under its names; the
    theorems say what makes each part, and the echo server, correct.

    ** The parts and their files

    - Prelude.v: [expected] (std::expected), [outcome] (a call returns, fails an
      [assert], throws, or is undefined), machine integers as [Z] with [wrap],
      bytes, the iteration order of an unordered_map ([MapOrder]), [reachable]
      and its induction principle, shared lemmas and tactics ([len_lia]).
    - Vector.v: std::vector<std::byte>, contents and capacity.
    - FrameCodec.v: protocol/frame_decoder.cpp, protocol/frame_encoder.cpp.
      The decoder equals [decode_ref], a reading of the wire format; it reports
      a frame exactly when one is there, encoding and decoding are inverse, and
      reading a stream in pieces is equivalent to reading it at once.
    - DecoderBenchmark.v: benchmarks/decoder_benchmark.cpp and
      fuzz/decoder_fuzz.cpp, whole streams of frames.
    - Lifecycle.v: core/lifecycle.cpp. Calls of any number of threads interleave
      between their accesses to the atomic phase. The phase is monotonic, each
      transition is made once; a call makes four accesses at most, and two more
      for each spurious failure of its exchange; and which asserts can fail when.
    - Config.v, ConfigLoader.v, ConfigValidator.v: config.hpp,
      config/config_loader.cpp, config/config_validator.cpp. What is loaded is the
      last value of each key, and no number wraps on the way from its text; the
      error reported is the first; printing and loading are inverse; a validated
      limit is safe for the decoder.
    - IdleTimeout.v: net/idle_timeout_manager.cpp, refined by one automaton per
      socket.
    - Metrics.v, Logging.v: infra/metrics.cpp, infra/logging.cpp. Reads return
      what was written, where the flag is not switched at the same time; a logged
      line can be read back.
    - Os.v: the system calls. They are no part of the program: [Kernel] is the
      interface to them, [KernelLaws] the documented behaviour theorems rely on,
      [FiniteWorld] what termination rests on (peers send and connect finitely
      often, the clock passes deadlines, descriptors are fewer than FD_SETSIZE),
      and [Sim] a small kernel that satisfies all of it and runs programs. [prog]
      is the monad of code that makes calls, [wp] what a run establishes.
    - Socket.v: net/socket.cpp. Objects own descriptors: through any sequence of
      constructions, moves, closes and destructions each has at most one owner.
    - Connection.v: net/connection.cpp, the buffers as FIFOs.
    - SocketIO.v: net/recv.cpp, net/send.cpp. No byte is lost or repeated,
      signals cannot keep a call from returning, and each result is given in its
      case: [recv_answer] is the answer of the first call of recv(2) that was not
      interrupted.
    - Poller.v: net/event_loop.hpp as the classes [Poller] and [PollerLaws],
      net/select_poller.cpp as an instance of both.
    - Acceptor.v: net/acceptor.cpp, net/accept_ops.cpp, against any [Poller] with
      its laws; no path leaks a descriptor.
    - Dispatcher.v: app/dispatcher.cpp, the class [RequestDispatcher].
    - WorkerPool.v, PoolWakeups.v: runtime/worker_pool.cpp, for any dispatcher.
      [perform] is one step of one thread between two accesses to what is shared;
      reachable states are those of all interleavings, spurious wake-ups included.
      Capacities, asserts and exclusion; where each task and result is, down to
      what calls of try_pop_result return ([returned]); which notifications cannot
      be lost, when [shutdown] completes ([stopping]), and that it can hang.
    - EchoServer.v: the echo server, [run_server] with all it calls.
      Footprint.v: relations between kernel states that every call keeps to.
      EchoWorld.v: [GoodWorld], the environments in which nothing fails.
      EchoInvariant.v: [server_ok], the invariant of its event loop, and the
      handler of readable connections. EchoLoop.v: the other handlers, the loop
      and the server.
    - GracefulServer.v: run_server of tests/integration/graceful_shutdown_tests.cpp,
      which drains on shutdown. The handlers are those of EchoServer.v; the loop
      shares a [coordinator], the state of Lifecycle.v, with threads that request
      the shutdown at any moment ([to_come]). It ends drained or at its deadline;
      in the turns that begin when the phase is no longer Running it accepts
      nothing; and it stops in the turn that leaves no connection. A connection
      can still be accepted after a request, when the loop loaded the phase before
      it. That the loop does not abort is shown for requests whose accesses are
      not separated by accesses of the loop; otherwise the assert of
      request_shutdown can fail ([request_shutdown_assert_races]).
    - EchoPeer.v, EchoClient.v: the clients of the echo server, and what they rely
      on: that bytes come back as they were sent, which is what the theorems on
      the servers promise. With such a peer a client gets back what it sent.
    - Net.v: a network in memory, on which the server and its clients meet: a
      kernel for the server ([GoodWorld]), where what is sent can be late, calls
      of recv(2) and send(2) be cut short or, the server's, interrupted
      ([hiccup]), and the clock is any that passes every deadline ([Clock]).
      select(2) and accept(2) may miss what is there but do not fail: the server
      aborts on any failure of theirs but blocking, on EINTR too. NetClient.v: the same network as the clients see it.
      NetTurn.v: what a turn of the event loop does for the clients: one that
      finds something to do gets something done ([serve_turn_net]).
    - EchoSystem.v: server and clients as one [system]: the thread of the server,
      which is [run_server] cut into turns ([thread_runs_server]), and a client
      whose calls are made between turns, among whatever other clients do in the
      meantime ([plan]). EchoAlive.v: the system is an [EchoPeer]. EchoServed.v:
      so the client is served, and the server stops when it is told to.
    - EchoCount.v: the counter of completed replies is exact, turn by turn, when
      one reply at a time is waited for. EchoTally.v: which is so in [system] for
      one client after the other ([lone_peer]). EchoBenchmark.v: the fixture of the
      end-to-end benchmark and EchoSinglePipelined, from the start of the server to
      its end.
    - UnitTests.v: the cases of tests/unit/, evaluated on the definitions: a check
      of the translations by the examples the repository itself holds them to.

    The files are layered as the code is: the server calls connections, codec,
    dispatcher, acceptor and poller; connections call sockets; sockets call the
    kernel. Interfaces are type classes, and clients are proved against the laws
    ([PollerLaws], [KernelLaws], [RequestDispatcher]); the instances discharge
    them.

    ** The echo server, as a whole

    [server_ok]: on every connection what was received is whole frames followed
    by what the read buffer holds, which is no whole frame; what was sent,
    followed by the write buffer, is the same frames; the poller is registered for
    writability exactly where the write buffer is not empty; the open descriptors
    are the listener's, one per slot, and those open before. Every handler keeps
    it ([process_connection_read_echoes], [handle_event_keeps_invariant]); the
    server ends with everything closed ([run_server_ends]). The code aborts the
    process on errors it does not expect; the theorems say that it does so only
    where the world is not good ([GoodWorld]): where a call on an open descriptor
    fails otherwise than by blocking or, recv(2) and send(2) only, by a signal,
    or a peer sends what is no stream of frames within the limit.

    The two sides are closed over each other in [system]. The server's turns
    interleave with the calls of its clients: a turn is taken as a whole, and
    before each call of the client that is looked at any number of turns and of
    calls of other clients happen, as planned. Where the client has to wait, the
    server takes turns until it need not. [client_is_served]: the client returns
    with all it sent read back, for every plan, hiccups and clock that leave room
    for it ([provided]: descriptors, turns before the deadline, memory, fuel).
    A step of this model is a whole turn of the server or a whole call of a client;
    the stop flag is read and written between turns. What the benchmark's waiting
    loop is there for happens inside a turn, between the last reply and its being
    counted; EchoBenchmark.v therefore stops the server there for any number of
    yields ([bn_stopped]). [benchmark_completes]: the benchmark starts the server,
    makes its round trips, waits for them to be counted, stops the server and joins
    it; it reports them exactly when the server went on within the yields the
    waiting loop makes in each iteration.

    ** Fuel

    Loops that the code does not bound take fuel and stop with [Fuel] without it.
    No theorem excuses a run that ran out: retry loops need more fuel than there
    are signals ([signals]), the loops of the server more than the bytes buffered
    and still to come and the looks at the clock before the deadline ([work],
    [looks_left]), those of the client more than its buffer is long; with that
    they end. A client of [system] waits for no more turns than the clock leaves
    before the deadline ([turns_left]), and it is proved that it needs no more; nor
    does [join]. The worker pool and the lifecycle are step relations, where
    termination is that every run of them is finite.

    ** What is not modelled

    The Windows branches; main.cpp and runtime.cpp, which are empty; the tests
    of the worker pool, the stress tests and the round-trip test; the benchmark
    EchoConcurrent, which runs several of the clients at once, and the measuring of
    time in all of them. The draining server is modelled as it is built with
    asserts, since they carry calls.
    Atomics are read as sequentially consistent. The vectors that grow with
    what is sent or received throw past max_size() ([checked_reserve],
    [checked_insert], [checked_zeros]); allocation does not fail otherwise. *)

From Stdlib Require Export ZArith Lia.
From Stdlib Require Export Strings.Byte.
From stdpp Require Export base tactics numbers list gmap strings.

#[global] Open Scope Z_scope.

(** ** Results of calls *)

(** [std::expected<T, E>]. *)
Inductive expected (T E : Type) : Type :=
| Val (t : T)
| Unexpected (e : E).
Arguments Val {T E} _.
Arguments Unexpected {T E} _.

#[export] Instance expected_eq_dec `{EqDecision T, EqDecision E} :
  EqDecision (expected T E).
Proof. solve_decision. Defined.

Definition has_value {T E} (x : expected T E) : bool :=
  match x with Val _ => true | Unexpected _ => false end.

(** What running a piece of C++ can lead to: a returned value, a failed
    [assert] (an abort in a Debug build), an exception that leaves the
    function, or undefined behaviour. *)
Inductive outcome (A : Type) : Type :=
| Ret (a : A)
| AssertFails
| Throws
| UB.
Arguments Ret {A} _.
Arguments AssertFails {A}.
Arguments Throws {A}.
Arguments UB {A}.

#[export] Instance outcome_eq_dec `{EqDecision A} : EqDecision (outcome A).
Proof. solve_decision. Defined.
#[export] Instance outcome_ret : MRet outcome := @Ret.
#[export] Instance outcome_bind : MBind outcome := λ A B f x,
  match x with
  | Ret a => f a
  | AssertFails => AssertFails
  | Throws => Throws
  | UB => UB
  end.
#[export] Instance outcome_fmap : FMap outcome := λ A B f x, x ≫= λ a, Ret (f a).

(** The asserts of the source guard a continuation; [Ret] needs them to hold. *)
Definition assert_ (b : bool) : outcome unit := if b then Ret () else AssertFails.

Notation "'assert!' b ; k" := (assert_ b ≫= λ _, k)
  (at level 100, b at level 99, k at level 200, right associativity).

Lemma outcome_ret_bind {A B} (a : A) (f : A → outcome B) : (Ret a ≫= f) = f a.
Proof. reflexivity. Qed.

Lemma outcome_bind_Ret_inv {A B} (x : outcome A) (f : A → outcome B) b :
  (x ≫= f) = Ret b → ∃ a, x = Ret a ∧ f a = Ret b.
Proof. destruct x; try discriminate. by eauto. Qed.

Lemma assert_true (b : bool) {A} (k : outcome A) :
  b = true → (assert! b; k) = k.
Proof. by intros ->. Qed.

(** ** Machine integers

    An unsigned [w]-bit integer is a [Z] in [0 .. 2^w); arithmetic that can
    leave the range is written with [wrap]. *)
Definition wrap (w z : Z) : Z := z `mod` 2 ^ w.
Definition in_u (w z : Z) : Prop := 0 ≤ z < 2 ^ w.
Definition in_s (w z : Z) : Prop := - 2 ^ (w - 1) ≤ z < 2 ^ (w - 1).

#[export] Instance in_u_dec w z : Decision (in_u w z).
Proof. unfold in_u. apply _. Defined.
#[export] Instance in_s_dec w z : Decision (in_s w z).
Proof. unfold in_s. apply _. Defined.

Lemma wrap_in_u w z : 0 ≤ w → in_u w (wrap w z).
Proof. intros. apply Z.mod_pos_bound. lia. Qed.

Lemma wrap_small w z : in_u w z → wrap w z = z.
Proof. apply Z.mod_small. Qed.

Lemma wrap_add_wrap_l w a b : wrap w (wrap w a + b) = wrap w (a + b).
Proof. unfold wrap. by rewrite Zplus_mod_idemp_l. Qed.

(** ** Bytes ([std::byte]) *)

#[export] Instance byte_eq_dec : EqDecision byte := Byte.byte_eq_dec.

Definition byte_to_Z (b : byte) : Z := Z.of_N (Byte.to_N b).
Definition byte_of_Z (z : Z) : byte :=
  default x00 (Byte.of_N (Z.to_N (z `mod` 256))).

Lemma byte_to_Z_range b : 0 ≤ byte_to_Z b < 256.
Proof. unfold byte_to_Z. pose proof (Byte.to_N_bounded b). lia. Qed.

Lemma byte_to_of z : byte_to_Z (byte_of_Z z) = z `mod` 256.
Proof.
  unfold byte_to_Z, byte_of_Z.
  pose proof (Z.mod_pos_bound z 256 ltac:(lia)).
  destruct (Byte.of_N _) as [b|] eqn:E; simpl.
  - apply Byte.to_of_N in E. rewrite E. lia.
  - apply Byte.of_N_None_iff in E. lia.
Qed.

Lemma byte_of_to b : byte_of_Z (byte_to_Z b) = b.
Proof.
  unfold byte_of_Z.
  rewrite Z.mod_small by apply byte_to_Z_range.
  unfold byte_to_Z. by rewrite N2Z.id, Byte.of_to_N.
Qed.

#[export] Instance byte_to_Z_inj : Inj (=) (=) byte_to_Z.
Proof. intros b c E. by rewrite <- (byte_of_to b), <- (byte_of_to c), E. Qed.

Definition byte_val (b : byte) : {z : Z | 0 ≤ z < 256} :=
  byte_to_Z b ↾ byte_to_Z_range b.

(** Big- and little-endian values of byte strings. *)
Definition be_value (bs : list byte) : Z :=
  foldl (λ acc b, acc * 256 + byte_to_Z b) 0 bs.
Fixpoint le_value (bs : list byte) : Z :=
  match bs with
  | [] => 0
  | b :: bs => byte_to_Z b + 256 * le_value bs
  end.

Lemma le_value_range bs : 0 ≤ le_value bs < 256 ^ Z.of_nat (length bs).
Proof.
  induction bs as [|b bs IH]; cbn [le_value length]; [lia|].
  pose proof (byte_to_Z_range b).
  rewrite Nat2Z.inj_succ, Z.pow_succ_r by lia. lia.
Qed.

(** ** Sizes *)

Abbreviation len l := (Z.of_nat (length l)).

Lemma len_app {A} (l k : list A) : len (l ++ k) = len l + len k.
Proof. rewrite length_app. lia. Qed.
Lemma len_cons {A} (x : A) l : len (x :: l) = 1 + len l.
Proof. simpl length. lia. Qed.
Lemma len_nil {A} : len (@nil A) = 0.
Proof. reflexivity. Qed.
Lemma len_take {A} (l : list A) n : len (take n l) = Z.min (Z.of_nat n) (len l).
Proof. rewrite length_take. lia. Qed.
Lemma len_drop {A} (l : list A) n : len (drop n l) = Z.max 0 (len l - Z.of_nat n).
Proof. rewrite length_drop. lia. Qed.

Create Rewrite HintDb len.
#[export] Hint Rewrite @len_app @len_cons @len_nil @len_take @len_drop : len.

(** Arithmetic on sizes of lists. *)
Ltac len_lia := autorewrite with len in *; lia.

(** ** std::unordered_map

    A map from handles is a [gmap]. The order its iterators visit the entries
    in is not specified, only that each entry is visited once: it is an
    instance of this class, and results that could depend on the order are
    stated for every instance. *)
Class MapOrder (V : Type) := {
  map_order : gmap Z V → list (Z * V);
  map_order_perm m : map_order m ≡ₚ map_to_list m;
}.

(** One order an implementation may have. *)
Definition listing_order (V : Type) : MapOrder V :=
  {| map_order := map_to_list; map_order_perm m := reflexivity _ |}.

Lemma elem_of_map_order {V} `{!MapOrder V} (m : gmap Z V) k v :
  (k, v) ∈ map_order m ↔ m !! k = Some v.
Proof. by rewrite map_order_perm, elem_of_map_to_list. Qed.

Lemma NoDup_map_order {V} `{!MapOrder V} (m : gmap Z V) : NoDup (map_order m).*1.
Proof. rewrite map_order_perm. apply NoDup_fst_map_to_list. Qed.

(** ** Transition systems *)

Section transitions.
Context {St : Type} (init : St → Prop) (step : relation St).

Definition reachable (s : St) : Prop := ∃ s0, init s0 ∧ rtc step s0 s.

Lemma reachable_init s : init s → reachable s.
Proof. intros; exists s; split; [done | apply rtc_refl]. Qed.

Lemma reachable_step s s' : reachable s → step s s' → reachable s'.
Proof. intros (s0 & Hi & Hs) ?. exists s0. split; [done|]. by eapply rtc_r. Qed.

(** A preserved property also holds after any run from where it holds. *)
Lemma rtc_invariant (Inv : St → Prop) :
  (∀ s s', Inv s → step s s' → Inv s') →
  ∀ s s', rtc step s s' → Inv s → Inv s'.
Proof. intros Hstep s s' Hrtc. induction Hrtc; eauto. Qed.

Lemma reachable_invariant (Inv : St → Prop) :
  (∀ s, init s → Inv s) →
  (∀ s s', Inv s → step s s' → Inv s') →
  ∀ s, reachable s → Inv s.
Proof.
  intros Hinit Hstep s (s0 & Hi & Hrtc).
  eapply rtc_invariant; eauto.
Qed.
End transitions.

#[export] Hint Resolve reachable_init reachable_step : core.

(** ** Counting the elements of a list that satisfy a predicate *)

Definition countb {A} (f : A → bool) (l : list A) : nat := length (filter (λ x, f x = true) l).

Lemma countb_nil {A} (f : A → bool) : countb f [] = 0%nat.
Proof. reflexivity. Qed.

Lemma countb_cons {A} (f : A → bool) x l : countb f (x :: l) = (Nat.b2n (f x) + countb f l)%nat.
Proof. unfold countb. rewrite filter_cons. by destruct (f x). Qed.

Lemma countb_app {A} (f : A → bool) l k : countb f (l ++ k) = (countb f l + countb f k)%nat.
Proof. unfold countb. by rewrite filter_app, length_app. Qed.

Lemma countb_insert {A} (f : A → bool) l i x y :
  l !! i = Some x →
  (countb f (<[i := y]> l) + Nat.b2n (f x) = countb f l + Nat.b2n (f y))%nat.
Proof.
  revert i. induction l as [|z l IH]; intros [|i] Hi; simplify_eq/=.
  - rewrite !countb_cons. lia.
  - rewrite !countb_cons. specialize (IH i Hi). lia.
Qed.

Lemma countb_pos {A} (f : A → bool) l x : x ∈ l → f x = true → (0 < countb f l)%nat.
Proof.
  intros Hx Hf. unfold countb. 
  assert (x ∈ filter (λ x, f x = true) l) as H by by apply list_elem_of_filter.
  destruct (filter _ l); [by apply not_elem_of_nil in H | simpl; lia].
Qed.

Lemma countb_pos_inv {A} (f : A → bool) l :
  (0 < countb f l)%nat → ∃ i x, l !! i = Some x ∧ f x = true.
Proof.
  induction l as [|x l IH]; [rewrite countb_nil; lia|]. rewrite countb_cons.
  destruct (f x) eqn:E; [by exists 0%nat, x|]. simpl. intros (i & y & ? & ?)%IH. by exists (S i), y.
Qed.

Lemma countb_two {A} (f : A → bool) l i j x y :
  l !! i = Some x → l !! j = Some y → i ≠ j → f x = true → f y = true → (2 ≤ countb f l)%nat.
Proof.
  revert i j. induction l as [|z l IH]; intros [|i] [|j] Hi Hj Hij Hx Hy; simplify_eq/=;
    rewrite countb_cons.
  - rewrite Hx. assert (0 < countb f l)%nat; [|simpl; lia].
    eapply countb_pos; [by eapply list_elem_of_lookup_2|done].
  - rewrite Hy. assert (0 < countb f l)%nat; [|simpl; lia].
    eapply countb_pos; [by eapply list_elem_of_lookup_2|done].
  - assert (2 ≤ countb f l)%nat; [|lia]. eapply (IH i j); auto.
Qed.

Lemma countb_fmap_eq {A} (f : A → bool) l k : f <$> l = f <$> k → countb f l = countb f k.
Proof.
  revert k. induction l as [|x l IH]; intros [|y k] E; simplify_eq/=; [done|].
  rewrite !countb_cons. congruence || (rewrite (IH k) by done; congruence).
Qed.

Lemma countb_lookup {A} (f : A → bool) l i x :
  l !! i = Some x → (Nat.b2n (f x) ≤ countb f l)%nat.
Proof.
  intros Hi. destruct (f x) eqn:Hf; simpl; [|lia].
  eapply countb_pos; [by eapply list_elem_of_lookup_2|done].
Qed.

(** Replacing an element in the concatenation of what the elements hold. *)
Lemma mjoin_insert {A B} (f : A → list B) l i x y :
  l !! i = Some x →
  mjoin (f <$> <[i := y]> l) ++ f x ≡ₚ mjoin (f <$> l) ++ f y.
Proof.
  revert i. induction l as [|z l IH]; intros [|i] Hi; simplify_eq/=; [solve_Permutation|].
  rewrite <- !app_assoc. f_equiv. by apply IH.
Qed.

Lemma Forall_insert_lookup {A} (P : A → Prop) l i x : Forall P l → P x → Forall P (<[i := x]> l).
Proof. intros. by apply Forall_insert. Qed.

Lemma NoDup_fmap_filter {A B} (g : A → B) (P : A → Prop) `{∀ x, Decision (P x)} l :
  NoDup (g <$> l) → NoDup (g <$> filter P l).
Proof.
  induction l as [|x l IH]; [done|]. rewrite fmap_cons, NoDup_cons. intros [Hx Hl].
  rewrite filter_cons. case_decide; [|by apply IH].
  rewrite fmap_cons, NoDup_cons. split; [|by apply IH].
  intros (y & Ey & Hy)%list_elem_of_fmap. apply Hx, list_elem_of_fmap.
  exists y. split; [done|]. by apply list_elem_of_filter in Hy as [_ ?].
Qed.

Lemma NoDup_take {A} (l : list A) n : NoDup l → NoDup (take n l).
Proof. rewrite <- (take_drop n l) at 1. by intros (? & _ & _)%NoDup_app. Qed.

Lemma sublist_fmap {A B} (f : A → B) l k : l `sublist_of` k → f <$> l `sublist_of` f <$> k.
Proof. induction 1; simpl; by constructor. Qed.

Lemma elem_of_take_1 {A} (x : A) n l : x ∈ take n l → x ∈ l.
Proof. intros (i & Hi & _)%elem_of_take. by eapply list_elem_of_lookup_2. Qed.

(** Destructs the innermost [if] and [match] of a hypothesis or of the goal. *)
Ltac case_all :=
  repeat (case_match; simplify_eq/=; try done).

(** ** Sums over lists *)

Lemma sum_list_cons {A} (f : A → nat) x l : sum_list (f <$> x :: l) = (f x + sum_list (f <$> l))%nat.
Proof. reflexivity. Qed.

Lemma sum_list_lookup {A} (f : A → nat) l i x :
  l !! i = Some x → (f x ≤ sum_list (f <$> l))%nat.
Proof.
  revert i. induction l as [|y l IH]; intros [|i] Hi; simplify_eq/=; [lia|].
  specialize (IH i Hi). lia.
Qed.

Lemma sum_list_insert {A} (f : A → nat) l i x y :
  l !! i = Some x → (sum_list (f <$> <[i := y]> l) + f x = sum_list (f <$> l) + f y)%nat.
Proof.
  revert i. induction l as [|z l IH]; intros [|i] Hi; simplify_eq/=; [lia|].
  specialize (IH i Hi). lia.
Qed.
