(* ===== verification/Vector.v ===== *)
(** * std::vector<std::byte>

    The byte vectors the buffers of the program are made of, with their
    capacity.  Capacity is not observable through the contents, so vectors are
    compared with [≡], equality of contents, and every operation respects it;
    the capacity is kept because [append_encoded_frame] promises to reserve
    up-front.  Growth on insertion follows the amortised rule of the standard
    library (at least doubling). *)

From S2P Require Import Prelude.

Record vec := mkVec { vdata : list byte; vcap : Z }.

#[export] Instance vec_eq_dec : EqDecision vec.
Proof. solve_decision. Defined.

Module Vec.

Definition size (v : vec) : Z := len (vdata v).
Definition empty : vec := mkVec [] 0.
Definition is_empty (v : vec) : bool := bool_decide (vdata v = []).

Definition wf (v : vec) : Prop := size v ≤ vcap v.

(** [reserve(n)]: capacity at least [n], contents kept. *)
Definition reserve (n : Z) (v : vec) : vec :=
  mkVec (vdata v) (Z.max (vcap v) n).

(** Capacity after inserting [k] more elements. *)
Definition grown_cap (v : vec) (k : Z) : Z :=
  if vcap v <? size v + k then size v + Z.max (size v) k else vcap v.

Definition insert_end (bs : list byte) (v : vec) : vec :=
  mkVec (vdata v ++ bs) (grown_cap v (len bs)).
Definition clear (v : vec) : vec := mkVec [] (vcap v).
(** [erase(begin(), begin() + n)]. *)
Definition erase_prefix (n : Z) (v : vec) : vec :=
  mkVec (drop (Z.to_nat n) (vdata v)) (vcap v).

(** Vectors with the same contents. *)
#[export] Instance vec_equiv : Equiv vec := λ v w, vdata v = vdata w.
#[export] Instance vec_equivalence : Equivalence (≡@{vec}).
Proof.
  split; unfold equiv, vec_equiv; red; [done|done|].
  intros x y z Hxy Hyz. by rewrite Hxy.
Qed.

#[export] Instance vdata_proper : Proper ((≡) ==> (=)) vdata.
Proof. by intros v w E. Qed.
#[export] Instance size_proper : Proper ((≡) ==> (=)) size.
Proof. intros v w E. unfold size. by rewrite E. Qed.
#[export] Instance is_empty_proper : Proper ((≡) ==> (=)) is_empty.
Proof. intros v w E. unfold is_empty. by rewrite E. Qed.
#[export] Instance reserve_proper n : Proper ((≡) ==> (≡)) (reserve n).
Proof. by intros v w E. Qed.
#[export] Instance insert_end_proper bs : Proper ((≡) ==> (≡)) (insert_end bs).
Proof. intros v w E. unfold equiv, vec_equiv. simpl. by rewrite E. Qed.
#[export] Instance clear_proper : Proper ((≡) ==> (≡)) clear.
Proof. by intros v w E. Qed.
#[export] Instance erase_prefix_proper n : Proper ((≡) ==> (≡)) (erase_prefix n).
Proof. intros v w E. unfold equiv, vec_equiv. simpl. by rewrite E. Qed.

Lemma reserve_equiv n v : reserve n v ≡ v.
Proof. reflexivity. Qed.

Lemma size_nonneg v : 0 ≤ size v.
Proof. unfold size. lia. Qed.

Lemma size_insert_end bs v : size (insert_end bs v) = size v + len bs.
Proof. unfold size, insert_end. simpl. len_lia. Qed.

Lemma is_empty_size v : is_empty v = true ↔ size v = 0.
Proof.
  unfold is_empty, size. rewrite bool_decide_eq_true.
  destruct (vdata v); [done|]. split; [done|]. len_lia.
Qed.

(** With room left, an insertion does not reallocate. *)
Lemma insert_end_room bs v :
  size v + len bs ≤ vcap v → vcap (insert_end bs v) = vcap v.
Proof. intros. simpl. unfold grown_cap. case_match; lia. Qed.

Lemma insert_end_wf bs v : wf v → wf (insert_end bs v).
Proof.
  unfold wf. rewrite size_insert_end. unfold insert_end, grown_cap. simpl.
  pose proof (size_nonneg v). case_match; lia.
Qed.

Lemma erase_prefix_wf n v : wf v → wf (erase_prefix n v).
Proof. unfold wf, size. simpl. len_lia. Qed.

Lemma clear_wf v : wf v → wf (clear v).
Proof. unfold wf, size. simpl. lia. Qed.

End Vec.
Export (hints) Vec.

#[export] Hint Resolve Vec.insert_end_wf Vec.erase_prefix_wf Vec.clear_wf : core.
#[export] Hint Rewrite Vec.size_insert_end : len.
