(* ===== verification/FrameCodec.v ===== *)
(** * Frame codec (src/protocol)

    The length-prefixed framing of frame_decoder.cpp and frame_encoder.cpp:
    a big-endian 32-bit payload length, then the payload. *)

From S2P Require Import Prelude Vector.

(** ** The target the code is compiled for

    [std::endian::native] and the width of [std::size_t]. *)
Inductive endian := little | big.
Record target := Target { size_bits : Z; native : endian }.
Definition lp64 : target := Target 64 little.
Definition ilp32 : target := Target 32 little.

#[export] Instance endian_eq_dec : EqDecision endian.
Proof. solve_decision. Defined.

(** [static_cast<std::size_t>] and [std::size_t] arithmetic. *)
Definition to_size (t : target) (z : Z) : Z := wrap (size_bits t) z.
(** [std::vector<std::byte>::max_size()] is [PTRDIFF_MAX]. *)
Definition max_size (t : target) : Z := 2 ^ (size_bits t - 1) - 1.

Definition k_frame_length_field_bytes : Z := 4.

(** [std::numeric_limits<std::uint32_t>::max()]. *)
Definition uint32_max : Z := 4294967295.

(** ** Decoder *)

Inductive Status := Incomplete | Complete | OversizedLength.

Record FrameDecodeResult := mkResult {
  status : Status;
  consumed_bytes : Z;
  payload : list byte;
}.

#[export] Instance Status_eq_dec : EqDecision Status.
Proof. solve_decision. Defined.
#[export] Instance FrameDecodeResult_eq_dec : EqDecision FrameDecodeResult.
Proof. solve_decision. Defined.

(** [std::byteswap] of a 32-bit value. *)
Definition byteswap32 (x : Z) : Z :=
  be_value [byte_of_Z x; byte_of_Z (x / 256); byte_of_Z (x / 256 / 256);
            byte_of_Z (x / 256 / 256 / 256)].

(** [std::memcpy(&x, p, 4)]: the native reading of four bytes. *)
Definition memcpy_u32 (t : target) (p : list byte) : outcome Z :=
  match p with
  | b0 :: b1 :: b2 :: b3 :: _ =>
      Ret match native t with
          | little => le_value [b0; b1; b2; b3]
          | big => be_value [b0; b1; b2; b3]
          end
  | _ => UB
  end.

Definition read_u32_be (t : target) (p : list byte) : outcome Z :=
  x ← memcpy_u32 t p;
  if decide (native t = little) then Ret (byteswap32 x) else Ret x.

(** [effective_max_payload], the same in the decoder and in the encoder. *)
Definition effective_max_payload (max_payload_bytes : Z) : Z :=
  Z.min max_payload_bytes uint32_max.

(** Growing a vector past [max_size()] throws [std::length_error]. *)
Definition checked_reserve (t : target) (n : Z) (v : vec) : outcome vec :=
  if max_size t <? n then Throws else Ret (Vec.reserve n v).
Definition checked_insert (t : target) (bs : list byte) (v : vec) : outcome vec :=
  if max_size t <? Vec.size v + len bs then Throws else Ret (Vec.insert_end bs v).
Definition checked_push_back (t : target) (b : byte) (v : vec) : outcome vec :=
  checked_insert t [b] v.

(** A vector of [n] zero bytes, constructed or resized to. *)
Definition checked_zeros (t : target) (n : Z) : outcome (list byte) :=
  if max_size t <? n then Throws else Ret (replicate (Z.to_nat n) x00).

(** [out.payload.resize(n)] followed by [std::copy_n(src, n, ...)]: an
    exception when [n] exceeds [max_size()], and reading past the buffer is
    undefined. *)
Definition resize_and_copy (t : target) (n : Z) (src : list byte) : outcome (list byte) :=
  if max_size t <? n then Throws
  else if len src <? n then UB
  else Ret (take (Z.to_nat n) src).

Definition try_decode_frame (t : target) (buffer : list byte) (max_payload_bytes : Z)
    : outcome FrameDecodeResult :=
  if len buffer <? k_frame_length_field_bytes then Ret (mkResult Incomplete 0 [])
  else
    payload_len ← read_u32_be t buffer;
    let cap := effective_max_payload max_payload_bytes in
    if cap <? payload_len then Ret (mkResult OversizedLength 0 [])
    else
      let total := to_size t (k_frame_length_field_bytes + to_size t payload_len) in
      if len buffer <? total then Ret (mkResult Incomplete 0 [])
      else
        p ← (if 0 <? payload_len
             then resize_and_copy t (to_size t payload_len)
                    (drop (Z.to_nat k_frame_length_field_bytes) buffer)
             else Ret []);
        let out := mkResult Complete total p in
        assert! bool_decide (status out = Complete);
        assert! consumed_bytes out =? total;
        assert! consumed_bytes out =?
                  to_size t (k_frame_length_field_bytes + len (payload out));
        Ret out.

(** ** Encoder *)

Inductive EncodeErrorCode := PayloadTooLarge.
Record FrameEncodeError := mkEncodeError { encode_code : EncodeErrorCode; encode_message : string }.

Definition payload_too_large : FrameEncodeError :=
  mkEncodeError PayloadTooLarge "payload exceeds configured max message size".

Definition push_be32 (t : target) (out : vec) (v : Z) : outcome vec :=
  out ← checked_push_back t (byte_of_Z (Z.land (Z.shiftr v 24) 255)) out;
  out ← checked_push_back t (byte_of_Z (Z.land (Z.shiftr v 16) 255)) out;
  out ← checked_push_back t (byte_of_Z (Z.land (Z.shiftr v 8) 255)) out;
  checked_push_back t (byte_of_Z (Z.land v 255)) out.

(** The result and the vector [out] afterwards. *)
Definition append_encoded_frame (t : target) (out : vec) (payload : list byte)
    (max_payload_bytes : Z) : outcome (expected unit FrameEncodeError * vec) :=
  let cap := effective_max_payload max_payload_bytes in
  if cap <? len payload then Ret (Unexpected payload_too_large, out)
  else
    let len32 := wrap 32 (len payload) in
    let extra := to_size t (k_frame_length_field_bytes + len payload) in
    out ← (if vcap out <? to_size t (Vec.size out + extra)
           then checked_reserve t (to_size t (Vec.size out + extra)) out
           else Ret out);
    let before := Vec.size out in
    out ← push_be32 t out len32;
    out ← checked_insert t payload out;
    assert! Vec.size out =?
              to_size t (before + k_frame_length_field_bytes + len payload);
    Ret (Val (), out).

(** ** The wire format, as a reference *)

Definition be32 (v : Z) : list byte :=
  [byte_of_Z (v / 2 ^ 24); byte_of_Z (v / 2 ^ 16); byte_of_Z (v / 2 ^ 8); byte_of_Z v].

(** One frame on the wire. *)
Definition frame (p : list byte) : list byte := be32 (len p) ++ p.

(** The decoder read as a function of the wire format alone, without machine
    widths and byte orders. *)
Definition decode_ref (buffer : list byte) (max_payload_bytes : Z) : FrameDecodeResult :=
  match buffer with
  | b0 :: b1 :: b2 :: b3 :: rest =>
      let n := be_value [b0; b1; b2; b3] in
      if effective_max_payload max_payload_bytes <? n then mkResult OversizedLength 0 []
      else if len rest <? n then mkResult Incomplete 0 []
      else mkResult Complete (4 + n) (take (Z.to_nat n) rest)
  | _ => mkResult Incomplete 0 []
  end.

(** Every payload within the limit fits a vector of the target, and so its
    frame length does not wrap a [size_t]. *)
Definition fits (t : target) (m : Z) : Prop :=
  3 ≤ size_bits t ∧ effective_max_payload m ≤ max_size t.

#[export] Instance fits_dec t m : Decision (fits t m).
Proof. unfold fits. apply _. Defined.

(** *** Big-endian values *)

Ltac be_unfold := unfold be32, be_value in *; cbn [foldl] in *.

Lemma be_value_be32 v : in_u 32 v → be_value (be32 v) = v.
Proof.
  intros [??]. be_unfold. rewrite !byte_to_of.
  change (2 ^ 24) with 16777216. change (2 ^ 16) with 65536. change (2 ^ 8) with 256.
  change (2 ^ 32) with 4294967296 in *.
  Z.to_euclidean_division_equations; lia.
Qed.

Lemma be_value4_range b0 b1 b2 b3 : in_u 32 (be_value [b0; b1; b2; b3]).
Proof.
  be_unfold. unfold in_u. change (2 ^ 32) with 4294967296.
  pose proof (byte_to_Z_range b0). pose proof (byte_to_Z_range b1).
  pose proof (byte_to_Z_range b2). pose proof (byte_to_Z_range b3). lia.
Qed.

Lemma be_value4_inj b0 b1 b2 b3 c0 c1 c2 c3 :
  be_value [b0; b1; b2; b3] = be_value [c0; c1; c2; c3] →
  [b0; b1; b2; b3] = [c0; c1; c2; c3].
Proof.
  be_unfold. intros E.
  pose proof (byte_to_Z_range b0). pose proof (byte_to_Z_range b1).
  pose proof (byte_to_Z_range b2). pose proof (byte_to_Z_range b3).
  pose proof (byte_to_Z_range c0). pose proof (byte_to_Z_range c1).
  pose proof (byte_to_Z_range c2). pose proof (byte_to_Z_range c3).
  repeat f_equal; apply (inj byte_to_Z); lia.
Qed.

Lemma be32_be_value b0 b1 b2 b3 : be32 (be_value [b0; b1; b2; b3]) = [b0; b1; b2; b3].
Proof.
  pose proof (be_value_be32 _ (be_value4_range b0 b1 b2 b3)) as E.
  unfold be32 at 1 in E. by apply be_value4_inj in E.
Qed.

Lemma length_be32 v : length (be32 v) = 4%nat.
Proof. reflexivity. Qed.
#[export] Hint Rewrite length_be32 : len.

Lemma byteswap32_le b0 b1 b2 b3 :
  byteswap32 (le_value [b0; b1; b2; b3]) = be_value [b0; b1; b2; b3].
Proof.
  unfold byteswap32. cbn [le_value].
  pose proof (byte_to_Z_range b0). pose proof (byte_to_Z_range b1).
  pose proof (byte_to_Z_range b2). pose proof (byte_to_Z_range b3).
  do 2 f_equal; [|f_equal; [|f_equal; [|f_equal]]];
    apply (inj byte_to_Z); rewrite byte_to_of;
    Z.to_euclidean_division_equations; lia.
Qed.

(** Reading the prefix gives the big-endian value on either byte order. *)
Lemma read_u32_be_value t b0 b1 b2 b3 rest :
  read_u32_be t (b0 :: b1 :: b2 :: b3 :: rest) = Ret (be_value [b0; b1; b2; b3]).
Proof.
  rewrite <- byteswap32_le. unfold read_u32_be, memcpy_u32.
  destruct (native t); [reflexivity|]. by rewrite byteswap32_le.
Qed.

Lemma read_u32_be_be32 t n rest : in_u 32 n → read_u32_be t (be32 n ++ rest) = Ret n.
Proof.
  intros Hn. rewrite <- (be_value_be32 n Hn) at 2. unfold be32. apply read_u32_be_value.
Qed.

(** *** The prefix written by the encoder *)

Lemma land_255 v : Z.land v 255 = v `mod` 256.
Proof. change 255 with (Z.ones 8). by rewrite Z.land_ones. Qed.

Lemma size_appended (v w : vec) bs : vdata w = vdata v ++ bs → Vec.size w = Vec.size v + len bs.
Proof. intros E. unfold Vec.size. rewrite E. len_lia. Qed.

(** An insertion that fits does what the unchecked one does, in place when
    there is room. *)
Lemma checked_insert_fits t bs v :
  Vec.size v + len bs ≤ max_size t →
  ∃ w, checked_insert t bs v = Ret w ∧ vdata w = vdata v ++ bs ∧
    (Vec.size v + len bs ≤ vcap v → vcap w = vcap v).
Proof.
  intros Hs. exists (Vec.insert_end bs v). unfold checked_insert.
  rewrite (proj2 (Z.ltb_ge _ _)) by done. split; [done|]. split; [done|].
  apply Vec.insert_end_room.
Qed.

Lemma checked_insert_throws t bs v :
  max_size t < Vec.size v + len bs → checked_insert t bs v = Throws.
Proof. intros. unfold checked_insert. by rewrite (proj2 (Z.ltb_lt _ _)). Qed.

(** The four bytes the encoder pushes. *)
Lemma pushed_bytes v :
  [byte_of_Z (Z.land (Z.shiftr v 24) 255); byte_of_Z (Z.land (Z.shiftr v 16) 255);
   byte_of_Z (Z.land (Z.shiftr v 8) 255); byte_of_Z (Z.land v 255)] = be32 v.
Proof.
  unfold be32. rewrite !land_255, !Z.shiftr_div_pow2 by lia.
  assert (∀ x, byte_of_Z (x `mod` 256) = byte_of_Z x) as E
    by (intros x; unfold byte_of_Z; by rewrite Z.mod_mod).
  by rewrite !E.
Qed.

Fixpoint checked_pushes (t : target) (bs : list byte) (v : vec) : outcome vec :=
  match bs with
  | [] => Ret v
  | b :: bs => v ← checked_push_back t b v; checked_pushes t bs v
  end.

Lemma push_be32_pushes t out v : push_be32 t out v = checked_pushes t (be32 v) out.
Proof.
  rewrite <- pushed_bytes. unfold push_be32. cbn [checked_pushes].
  repeat (destruct (checked_push_back t _ _); [rewrite !outcome_ret_bind|done..]). done.
Qed.

Lemma checked_pushes_fit t bs v :
  Vec.size v + len bs ≤ max_size t →
  ∃ w, checked_pushes t bs v = Ret w ∧ vdata w = vdata v ++ bs ∧
    (Vec.size v + len bs ≤ vcap v → vcap w = vcap v).
Proof.
  revert v. induction bs as [|b bs IH]; intros v Hs.
  { exists v. by rewrite app_nil_r. }
  destruct (checked_insert_fits t [b] v) as (w & E & Hd & Hc); [len_lia|].
  pose proof (size_appended _ _ _ Hd) as Hw.
  destruct (IH w) as (u & Eu & Hdu & Hcu); [len_lia|].
  exists u. cbn [checked_pushes]. unfold checked_push_back. rewrite E, outcome_ret_bind.
  split; [done|]. split; [by rewrite Hdu, Hd, <- app_assoc|].
  intros. rewrite Hcu, Hc; [done|len_lia|rewrite Hc; len_lia].
Qed.

Lemma checked_pushes_throw t bs v :
  Vec.size v ≤ max_size t → max_size t < Vec.size v + len bs → checked_pushes t bs v = Throws.
Proof.
  revert v. induction bs as [|b bs IH]; intros v Hv Hs; [simpl in Hs; lia|].
  cbn [checked_pushes]. unfold checked_push_back.
  destruct (Z.le_gt_cases (Vec.size v + len [b]) (max_size t)) as [H1|H1];
    [|by rewrite checked_insert_throws by lia].
  destruct (checked_insert_fits t [b] v H1) as (w & E & Hd & _).
  pose proof (size_appended _ _ _ Hd) as Hw.
  rewrite E, outcome_ret_bind. simpl in H1. apply IH; len_lia.
Qed.

(** *** Streams of frames *)

Definition frames (ps : list (list byte)) : list byte := mjoin (frame <$> ps).

Lemma frames_snoc ps p : frames (ps ++ [p]) = frames ps ++ frame p.
Proof. unfold frames. rewrite fmap_app, join_app. simpl. by rewrite app_nil_r. Qed.

Lemma frame_length p : length (frame p) = (4 + length p)%nat.
Proof. reflexivity. Qed.

(** *** The decoder against the reference *)

Lemma to_size_small t m z :
  fits t m → 0 ≤ z ≤ 4 + effective_max_payload m → to_size t z = z.
Proof.
  intros [Hb Hf] Hz. apply wrap_small. split; [lia|].
  unfold max_size in Hf.
  pose proof (Z.pow_le_mono_r 2 2 (size_bits t - 1) ltac:(lia) ltac:(lia)).
  assert (2 ^ size_bits t = 2 * 2 ^ (size_bits t - 1)) as E.
  { rewrite <- Z.pow_succ_r by lia. f_equal. lia. }
  lia.
Qed.

(** A 64-bit [size_t] (indeed a 33-bit one) fits every limit. *)
Lemma wide_fits t m : 33 ≤ size_bits t → fits t m.
Proof.
  intros Hw. split; [lia|]. unfold effective_max_payload, max_size, uint32_max.
  pose proof (Z.pow_le_mono_r 2 32 (size_bits t - 1) ltac:(lia) ltac:(lia)). lia.
Qed.

(** When the limit fits the target the decoder is the reference function: no [assert]
    fails, no exception is thrown, nothing is read past the buffer. *)
Lemma try_decode_frame_is_ref t buffer max_payload_bytes :
  fits t max_payload_bytes →
  try_decode_frame t buffer max_payload_bytes = Ret (decode_ref buffer max_payload_bytes).
Proof.
  intros Hw. unfold try_decode_frame, decode_ref, k_frame_length_field_bytes.
  destruct buffer as [|b0 [|b1 [|b2 [|b3 rest]]]]; [reflexivity..|].
  rewrite (proj2 (Z.ltb_ge _ _)) by len_lia.
  rewrite read_u32_be_value, outcome_ret_bind. cbv zeta.
  destruct (be_value4_range b0 b1 b2 b3) as [? Hn].
  set (n := be_value _) in *. change (2 ^ 32) with 4294967296 in Hn.
  case_match; [done|].
  assert (∀ z, 0 ≤ z ≤ 4 + n → to_size t z = z) as Hsz
    by (intros; eapply to_size_small; [exact Hw|lia]).
  destruct Hw as [_ Hmax].
  rewrite !(Hsz n), (Hsz (4 + n)) by lia.
  replace (len (b0 :: b1 :: b2 :: b3 :: rest) <? 4 + n) with (len rest <? n)
    by (apply eq_true_iff_eq; rewrite !Z.ltb_lt; len_lia).
  case_match; [done|].
  destruct (Z.ltb_spec 0 n).
  - unfold resize_and_copy.
    change (drop (Z.to_nat 4) (b0 :: b1 :: b2 :: b3 :: rest)) with rest.
    rewrite (proj2 (Z.ltb_ge (max_size t) n)) by lia.
    rewrite (proj2 (Z.ltb_ge (len rest) n)) by lia.
    rewrite outcome_ret_bind. rewrite assert_true by done.
    simpl consumed_bytes. simpl payload.
    replace (len (take (Z.to_nat n) rest)) with n by (rewrite len_take; lia).
    rewrite (Hsz (4 + n)) by lia.
    by rewrite !assert_true by apply Z.eqb_refl.
  - replace n with 0 by lia. rewrite outcome_ret_bind.
    rewrite assert_true by done. simpl consumed_bytes. simpl payload.
    change (4 + len (@nil byte)) with (4 + 0).
    rewrite (Hsz (4 + 0)) by lia. reflexivity.
Qed.

Lemma in_u32_len (p : list byte) m : len p ≤ effective_max_payload m → in_u 32 (len p).
Proof. unfold effective_max_payload, uint32_max, in_u. lia. Qed.

Lemma decode_ref_frame p rest m :
  len p ≤ effective_max_payload m →
  decode_ref (frame p ++ rest) m = mkResult Complete (4 + len p) p.
Proof.
  intros Hp. pose proof (be_value_be32 _ (in_u32_len p m Hp)) as E.
  unfold frame, be32 in *. simpl app. cbn [decode_ref]. rewrite E.
  rewrite (proj2 (Z.ltb_ge _ _)), (proj2 (Z.ltb_ge _ _)) by len_lia.
  by rewrite Nat2Z.id, take_app_length.
Qed.

Lemma decode_ref_cases buffer m :
  (∃ p rest, buffer = frame p ++ rest ∧ len p ≤ effective_max_payload m ∧
     decode_ref buffer m = mkResult Complete (4 + len p) p) ∨
  (∃ n rest, buffer = be32 n ++ rest ∧ in_u 32 n ∧ effective_max_payload m < n ∧
     decode_ref buffer m = mkResult OversizedLength 0 []) ∨
  (len buffer < 4 ∧ decode_ref buffer m = mkResult Incomplete 0 []) ∨
  (∃ n rest, buffer = be32 n ++ rest ∧ in_u 32 n ∧ len rest < n ≤ effective_max_payload m ∧
     decode_ref buffer m = mkResult Incomplete 0 []).
Proof.
  destruct buffer as [|b0 [|b1 [|b2 [|b3 rest]]]];
    [right; right; left; split; [simpl; lia|done]..|].
  pose proof (be32_be_value b0 b1 b2 b3) as E.
  pose proof (be_value4_range b0 b1 b2 b3) as Hn.
  cbn [decode_ref]. set (n := be_value _) in *. clearbody n.
  change (b0 :: b1 :: b2 :: b3 :: rest) with ([b0; b1; b2; b3] ++ rest).
  rewrite <- E. unfold in_u in *.
  destruct (Z.ltb_spec (effective_max_payload m) n); [right; left; eauto 10|].
  destruct (Z.ltb_spec (len rest) n); [right; right; right; eauto 10|].
  left. exists (take (Z.to_nat n) rest), (drop (Z.to_nat n) rest).
  assert (len (take (Z.to_nat n) rest) = n) as Hl by (rewrite len_take; lia).
  unfold frame. rewrite Hl, <- app_assoc, take_drop. auto.
Qed.

Lemma frame_app_inj p q r s : in_u 32 (len p) → in_u 32 (len q) →
  frame p ++ r = frame q ++ s → p = q ∧ r = s.
Proof.
  intros Hp Hq. unfold frame. rewrite <- !app_assoc. intros E.
  apply app_inj_1 in E as [E1 E2]; [|done].
  assert (len p = len q) as El
    by (by rewrite <- (be_value_be32 _ Hp), <- (be_value_be32 _ Hq), E1).
  apply app_inj_1 in E2; [done|lia].
Qed.

Lemma be32_frame_head n rest p rest' :
  in_u 32 n → in_u 32 (len p) → be32 n ++ rest = frame p ++ rest' →
  n = len p ∧ rest = p ++ rest'.
Proof.
  intros Hn Hp. unfold frame. rewrite <- app_assoc. intros E.
  apply app_inj_1 in E as [E1 E2]; [|done]. split; [|done].
  by rewrite <- (be_value_be32 _ Hn), <- (be_value_be32 _ Hp), E1.
Qed.

Lemma decode_ref_complete_iff buffer m c p :
  decode_ref buffer m = mkResult Complete c p ↔
  c = 4 + len p ∧ len p ≤ effective_max_payload m ∧ ∃ rest, buffer = frame p ++ rest.
Proof.
  split.
  - intros E. destruct (decode_ref_cases buffer m)
      as [(q & rest & ? & ? & E')|[(?&?&?&?&?&E')|[[? E']|(?&?&?&?&?&E')]]];
      rewrite E' in E; simplify_eq; eauto.
  - intros (-> & Hp & rest & ->). by apply decode_ref_frame.
Qed.

Lemma decode_ref_oversized n rest m :
  in_u 32 n → effective_max_payload m < n →
  decode_ref (be32 n ++ rest) m = mkResult OversizedLength 0 [].
Proof.
  intros Hn ?. pose proof (be_value_be32 _ Hn) as E.
  unfold be32 in *. simpl app. cbn [decode_ref]. rewrite E.
  by rewrite (proj2 (Z.ltb_lt _ _)) by lia.
Qed.

Lemma decode_ref_partial n rest m :
  in_u 32 n → len rest < n ≤ effective_max_payload m →
  decode_ref (be32 n ++ rest) m = mkResult Incomplete 0 [].
Proof.
  intros Hn ?. pose proof (be_value_be32 _ Hn) as E.
  unfold be32 in *. simpl app. cbn [decode_ref]. rewrite E.
  by rewrite (proj2 (Z.ltb_ge _ _)), (proj2 (Z.ltb_lt _ _)) by lia.
Qed.

Lemma decode_ref_short buffer m :
  len buffer < 4 → decode_ref buffer m = mkResult Incomplete 0 [].
Proof. destruct buffer as [|? [|? [|? [|? ?]]]]; [done..|]. simpl. lia. Qed.

Lemma decode_ref_oversized_iff buffer m :
  decode_ref buffer m = mkResult OversizedLength 0 [] ↔
  ∃ n rest, buffer = be32 n ++ rest ∧ in_u 32 n ∧ effective_max_payload m < n.
Proof.
  split.
  - intros E. destruct (decode_ref_cases buffer m)
      as [(?&?&?&?&E')|[(?&?&?&?&?&E')|[[? E']|(?&?&?&?&?&E')]]];
      rewrite E' in E; simplify_eq; eauto.
  - intros (n & rest & -> & ? & ?). by apply decode_ref_oversized.
Qed.

Lemma decode_ref_incomplete_iff buffer m :
  decode_ref buffer m = mkResult Incomplete 0 [] ↔
  len buffer < 4 ∨
  ∃ n rest, buffer = be32 n ++ rest ∧ in_u 32 n ∧ len rest < n ≤ effective_max_payload m.
Proof.
  split.
  - intros E. destruct (decode_ref_cases buffer m)
      as [(?&?&?&?&E')|[(?&?&?&?&?&E')|[[? E']|(?&?&?&?&?&E')]]];
      rewrite E' in E; simplify_eq; eauto 10.
  - intros [?|(n & rest & -> & ? & ?)];
      [by apply decode_ref_short | by apply decode_ref_partial].
Qed.

(** A decided answer is not changed by more input. *)
Lemma decode_ref_more_input buffer more m :
  status (decode_ref buffer m) ≠ Incomplete →
  decode_ref (buffer ++ more) m = decode_ref buffer m.
Proof.
  destruct (decode_ref_cases buffer m)
    as [(?&?&->&?&E)|[(?&?&->&?&?&E)|[[? E]|(?&?&?&?&?&E)]]];
    rewrite E; intros; try done; rewrite <- app_assoc.
  - by apply decode_ref_frame.
  - by apply decode_ref_oversized.
Qed.

(** *** Reading a stream in pieces

    What every reader of the program does with what it has received: decode,
    keep the payload, drop what was consumed, until no whole frame is left. *)
Fixpoint extract (fuel : nat) (t : target) (m : Z) (buffer : list byte)
    : outcome (list (list byte) * list byte * Status) :=
  match fuel with
  | O => UB
  | S fuel =>
      r ← try_decode_frame t buffer m;
      match status r with
      | Complete =>
          '(ps, rest, st) ← extract fuel t m (drop (Z.to_nat (consumed_bytes r)) buffer);
          Ret (payload r :: ps, rest, st)
      | st => Ret ([], buffer, st)
      end
  end.

(** Every frame takes bytes, so this is fuel enough. *)
Definition extract_all (t : target) (m : Z) (buffer : list byte) :=
  extract (S (length buffer)) t m buffer.

(** The stream arrives in pieces; a reader stops at an oversized frame. *)
Fixpoint extract_pieces (t : target) (m : Z) (buffer : list byte) (pieces : list (list byte))
    : outcome (list (list byte) * list byte * Status) :=
  match pieces with
  | [] => Ret ([], buffer, Incomplete)
  | piece :: pieces =>
      '(ps, rest, st) ← extract_all t m (buffer ++ piece);
      match st with
      | OversizedLength => Ret (ps, rest ++ mjoin pieces, OversizedLength)
      | _ => '(qs, rest, st) ← extract_pieces t m rest pieces; Ret (ps ++ qs, rest, st)
      end
  end.

(** A step of [extract]: a whole frame, or the end. *)
Lemma extract_frame fuel t m p rest :
  fits t m → len p ≤ effective_max_payload m →
  extract (S fuel) t m (frame p ++ rest) =
    ('(ps, rest, st) ← extract fuel t m rest; Ret (p :: ps, rest, st)).
Proof.
  intros Hf Hp. cbn [extract]. rewrite try_decode_frame_is_ref, decode_ref_frame by done.
  rewrite outcome_ret_bind. cbn [status consumed_bytes payload].
  replace (Z.to_nat (4 + len p)) with (length (frame p)); [by rewrite drop_app_length|].
  pose proof (frame_length p). lia.
Qed.

Lemma extract_end fuel t m buffer :
  fits t m → status (decode_ref buffer m) ≠ Complete →
  extract (S fuel) t m buffer = Ret ([], buffer, status (decode_ref buffer m)).
Proof.
  intros Hf Hs. cbn [extract]. rewrite try_decode_frame_is_ref by done. rewrite outcome_ret_bind.
  by destruct (status _).
Qed.

Lemma decode_ref_frame_cases buffer m :
  (∃ p rest, buffer = frame p ++ rest ∧ len p ≤ effective_max_payload m) ∨
  status (decode_ref buffer m) ≠ Complete.
Proof.
  destruct (decode_ref_cases buffer m)
    as [(p&rest&?&?&_)|[(?&?&_&_&_&E)|[[_ E]|(?&?&_&_&_&E)]]]; [by left; eauto|right..]; by rewrite E.
Qed.

(** The fuel does not matter. *)
Lemma extract_fuel n t m buffer f1 f2 :
  fits t m → (length buffer < n)%nat → (length buffer < f1)%nat → (length buffer < f2)%nat →
  extract f1 t m buffer = extract f2 t m buffer.
Proof.
  intros Hf. revert buffer f1 f2.
  induction n as [|n IH]; intros buffer [|f1] [|f2] Hn H1 H2; try lia.
  destruct (decode_ref_frame_cases buffer m) as [(p & rest & -> & Hp)|Hs]; [|by rewrite !extract_end].
  pose proof (frame_length p). rewrite length_app in *.
  rewrite !extract_frame by done. by rewrite (IH rest f1 f2) by lia.
Qed.

(** What comes later is read from the rest. *)
Lemma extract_app fuel fuel' t m buffer more :
  fits t m → (length buffer < fuel)%nat → (length (buffer ++ more) < fuel')%nat →
  ∃ ps rest st, extract fuel t m buffer = Ret (ps, rest, st) ∧
    ((status (decode_ref rest m) = Incomplete ∧ st = Incomplete) ∨
     (status (decode_ref rest m) = OversizedLength ∧ st = OversizedLength)) ∧
    extract fuel' t m (buffer ++ more) =
      match st with
      | OversizedLength => Ret (ps, rest ++ more, OversizedLength)
      | _ => '(qs, rest', st') ← extract_all t m (rest ++ more); Ret (ps ++ qs, rest', st')
      end.
Proof.
  intros Hf. revert fuel fuel' buffer.
  induction fuel as [|fuel IH]; intros fuel' buffer H1 H2; [lia|].
  destruct fuel' as [|fuel']; [lia|].
  destruct (decode_ref_frame_cases buffer m) as [(p & rest & -> & Hp)|Hs].
  - pose proof (frame_length p). rewrite <- app_assoc in *. rewrite !length_app in *.
    destruct (IH fuel' rest) as (ps & r & st & E & Hst & E'); [lia|rewrite length_app; lia|].
    exists (p :: ps), r, st. rewrite !extract_frame by done. rewrite E, E'. rewrite outcome_ret_bind.
    split; [done|]. split; [done|].
    destruct Hst as [[_ ->]|[_ ->]]; [|done]. by destruct (extract_all t m (r ++ more)) as [[[? ?] ?]| | |].
  - exists [], buffer, (status (decode_ref buffer m)). rewrite extract_end by done.
    split; [done|]. destruct (status (decode_ref buffer m)) eqn:E; [|done|].
    + split; [by left|]. rewrite (extract_fuel (S (length (buffer ++ more))) _ _ _ _ (S (length (buffer ++ more)))) by (done || lia).
      unfold extract_all. by destruct (extract _ t m _) as [[[? ?] ?]| | |].
    + split; [by right|].
      assert (status (decode_ref (buffer ++ more) m) = OversizedLength) as E'
        by (rewrite decode_ref_more_input; by rewrite E).
      rewrite extract_end, E' by by rewrite ?E'. done.
Qed.

Lemma extract_pieces_from t m buffer pieces :
  fits t m → status (decode_ref buffer m) = Incomplete →
  extract_pieces t m buffer pieces = extract_all t m (buffer ++ mjoin pieces).
Proof.
  intros Hf. revert buffer. induction pieces as [|piece pieces IH]; intros buffer Hb.
  - simpl. rewrite app_nil_r. unfold extract_all. rewrite extract_end by (done || by rewrite Hb).
    by rewrite Hb.
  - cbn [extract_pieces]. change (mjoin (piece :: pieces)) with (piece ++ mjoin pieces). rewrite app_assoc.
    destruct (extract_app (S (length (buffer ++ piece)))
      (S (length ((buffer ++ piece) ++ mjoin pieces))) t m (buffer ++ piece) (mjoin pieces))
      as (ps & rest & st & E & Hst & E'); [done|lia..|].
    unfold extract_all at 1. rewrite E, outcome_ret_bind. unfold extract_all. rewrite E'.
    destruct Hst as [[Hst ->]|[_ ->]]; [by rewrite IH|done].
Qed.

(** *** The encoder in closed form *)

Lemma max_size_lt t n : 0 ≤ n ≤ max_size t → n < 2 ^ size_bits t.
Proof.
  unfold max_size. intros Hn. destruct (Z.le_gt_cases (size_bits t) 0).
  - rewrite (Z.pow_neg_r 2 (size_bits t - 1)) in Hn by lia. lia.
  - pose proof (Z.pow_le_mono_r 2 (size_bits t - 1) (size_bits t) ltac:(lia) ltac:(lia)). lia.
Qed.

Lemma append_encoded_frame_eq t out p m :
  Vec.size out + 4 + len p ≤ max_size t →
  append_encoded_frame t out p m =
    Ret (if effective_max_payload m <? len p
         then (Unexpected payload_too_large, out)
         else (Val (), mkVec (vdata out ++ frame p)
                 (Z.max (vcap out) (Vec.size out + 4 + len p)))).
Proof.
  intros Hsize. unfold append_encoded_frame, k_frame_length_field_bytes. cbv zeta.
  destruct (Z.ltb_spec (effective_max_payload m) (len p)); [done|].
  pose proof (Vec.size_nonneg out).
  assert (∀ z, 0 ≤ z ≤ Vec.size out + 4 + len p → to_size t z = z) as Hsz
    by (intros; apply wrap_small; split; [lia|apply max_size_lt; lia]).
  rewrite (wrap_small 32 (len p)) by (eapply in_u32_len; done).
  rewrite !(Hsz (4 + len p)), !(Hsz (Vec.size out + (4 + len p))) by lia.
  set (out1 := if vcap out <? _ then _ else _).
  assert (out1 = Ret (mkVec (vdata out) (Z.max (vcap out) (Vec.size out + 4 + len p)))) as ->.
  { unfold out1, checked_reserve. rewrite (proj2 (Z.ltb_ge (max_size t) _)) by lia.
    destruct (Z.ltb_spec (vcap out) (Vec.size out + (4 + len p))).
    - unfold Vec.reserve. do 2 f_equal. lia.
    - rewrite Z.max_l by lia. by destruct out. }
  rewrite outcome_ret_bind, push_be32_pushes.
  set (c := Z.max _ _). set (v := mkVec (vdata out) c).
  assert (Vec.size v = Vec.size out) as Hv by done.
  assert (len (be32 (len p)) = 4) as H4 by done.
  destruct (checked_pushes_fit t (be32 (len p)) v) as (w & -> & Hd & Hc); [lia|].
  pose proof (size_appended _ _ _ Hd) as Hw. rewrite Hv in Hw.
  rewrite outcome_ret_bind.
  destruct (checked_insert_fits t p w) as (u & -> & Hdu & Hcu); [lia|].
  rewrite outcome_ret_bind.
  pose proof (size_appended _ _ _ Hdu) as Hu.
  rewrite Hu, Hw, Hv, Hsz, assert_true by (rewrite ?H4; lia).
  rewrite H4 in Hc. assert (vcap v = c) as Hvc by done. unfold c in *.
  rewrite Hc in Hcu by lia. do 3 f_equal. destruct u as [ud uc]. simpl in *. f_equal.
  - rewrite Hdu, Hd. unfold v, frame. simpl vdata. by rewrite <- app_assoc.
  - rewrite Hcu; lia.
Qed.

(** A frame that does not fit throws, whatever the capacity and however the
    [size_t] sums wrap: the vector cannot grow past [max_size()]. *)
Lemma append_encoded_frame_throws t out p m :
  Vec.size out ≤ max_size t → max_size t < Vec.size out + 4 + len p →
  len p ≤ effective_max_payload m → append_encoded_frame t out p m = Throws.
Proof.
  intros Ho Hsize Hp. unfold append_encoded_frame. cbv zeta.
  rewrite (proj2 (Z.ltb_ge _ _)) by done. set (out1 := if vcap out <? _ then _ else _).
  assert (out1 = Throws ∨ ∃ c, out1 = Ret (mkVec (vdata out) c)) as [->|[c ->]]; [|done|].
  { unfold out1, checked_reserve. repeat case_match; [by left|right; by eexists|right].
    exists (vcap out). by destruct out. }
  rewrite outcome_ret_bind, push_be32_pushes. set (v := mkVec (vdata out) c).
  assert (Vec.size v = Vec.size out) as Hv by done.
  assert (len (be32 (wrap 32 (len p))) = 4) as H4 by done.
  destruct (Z.le_gt_cases (Vec.size v + 4) (max_size t)) as [Hm|Hm];
    [|by rewrite checked_pushes_throw by (rewrite ?H4, ?Hv; lia)].
  destruct (checked_pushes_fit t (be32 (wrap 32 (len p))) v) as (w & -> & Hd & _); [lia|].
  pose proof (size_appended _ _ _ Hd) as Hw. rewrite Hv in Hw.
  by rewrite outcome_ret_bind, checked_insert_throws by lia.
Qed.

(** ** Properties *)

(** C14. Encode then decode: a payload within the limit is appended to any
    buffer as one frame, and decoding from where it was written gives the
    payload back whatever follows it, consuming exactly the bytes written. The
    one way this fails is that the buffer would grow past [max_size()]: then,
    and only then, the call throws. *)
Theorem encode_decode_roundtrip t out p m rest :
  fits t m → Vec.size out ≤ max_size t → len p ≤ effective_max_payload m →
  if Vec.size out + 4 + len p <=? max_size t then
    ∃ out', append_encoded_frame t out p m = Ret (Val (), out') ∧
      take (length (vdata out)) (vdata out') = vdata out ∧
      Vec.size out' = Vec.size out + 4 + len p ∧
      try_decode_frame t (drop (length (vdata out)) (vdata out') ++ rest) m
        = Ret (mkResult Complete (4 + len p) p)
  else append_encoded_frame t out p m = Throws.
Proof.
  intros Hw Ho Hp. destruct (Z.leb_spec (Vec.size out + 4 + len p) (max_size t));
    [|by apply append_encoded_frame_throws].
  eexists. rewrite append_encoded_frame_eq by done.
  rewrite (proj2 (Z.ltb_ge _ _)) by done. split; [reflexivity|].
  simpl vdata. rewrite take_app_length, drop_app_length. split; [done|].
  rewrite try_decode_frame_is_ref, decode_ref_frame by done.
  split; [|done]. unfold Vec.size, frame. simpl vdata. len_lia.
Qed.

Lemma encode_decode_roundtrip_witness :
  ∃ out', append_encoded_frame lp64 (mkVec [x2a] 1) [x01; x02] 16 = Ret (Val (), out') ∧
    take 1 (vdata out') = [x2a] ∧
    Vec.size out' = 7 ∧
    try_decode_frame lp64 (drop 1 (vdata out') ++ [xff]) 16
      = Ret (mkResult Complete 6 [x01; x02]).
Proof.
  apply (encode_decode_roundtrip lp64 (mkVec [x2a] 1) [x01; x02] 16 [xff]);
    [by apply wide_fits|done|done].
Defined.

(** C15. The decoder reports [Complete] exactly when the buffer starts with the
    frame of a payload within the limit; then it returns that payload and
    consumes 4 + its size. *)
Theorem try_decode_frame_complete_iff t buffer m c p :
  fits t m →
  try_decode_frame t buffer m = Ret (mkResult Complete c p) ↔
  c = 4 + len p ∧ len p ≤ effective_max_payload m ∧ ∃ rest, buffer = frame p ++ rest.
Proof.
  intros Hw. rewrite try_decode_frame_is_ref, <- decode_ref_complete_iff by done.
  split; [by intros [= ?]|by intros ->].
Qed.

Lemma try_decode_frame_complete_iff_witness :
  try_decode_frame lp64 [x00; x00; x00; x01; x07; x09] 8
    = Ret (mkResult Complete 5 [x07]).
Proof.
  apply (try_decode_frame_complete_iff lp64); [by apply wide_fits|].
  split; [reflexivity|]. split; [vm_compute; congruence|]. by exists [x09].
Defined.

(** On the other answers nothing is consumed: [OversizedLength] exactly
    when a whole prefix announces more than the limit, [Incomplete] exactly
    when fewer than four bytes are there or an acceptable announced payload
    has not arrived in full. *)
Theorem try_decode_frame_rejects t buffer m :
  fits t m →
  (try_decode_frame t buffer m = Ret (mkResult OversizedLength 0 []) ↔
     ∃ n rest, buffer = be32 n ++ rest ∧ in_u 32 n ∧ effective_max_payload m < n) ∧
  (try_decode_frame t buffer m = Ret (mkResult Incomplete 0 []) ↔
     len buffer < 4 ∨
     ∃ n rest, buffer = be32 n ++ rest ∧ in_u 32 n ∧
       len rest < n ≤ effective_max_payload m).
Proof.
  intros Hw. rewrite try_decode_frame_is_ref by done. split; split.
  - intros [= E]. by apply decode_ref_oversized_iff.
  - intros H. by rewrite (proj2 (decode_ref_oversized_iff _ _) H).
  - intros [= E]. by apply decode_ref_incomplete_iff.
  - intros H. by rewrite (proj2 (decode_ref_incomplete_iff _ _) H).
Qed.

Lemma try_decode_frame_rejects_witness :
  try_decode_frame lp64 [x00; x00; x00; x09; x01] 8 = Ret (mkResult OversizedLength 0 []) ∧
  try_decode_frame lp64 [x00; x00; x00] 8 = Ret (mkResult Incomplete 0 []).
Proof.
  split.
  - apply (try_decode_frame_rejects lp64); [by apply wide_fits|].
    exists 9, [x01]. repeat split; vm_compute; congruence.
  - apply (try_decode_frame_rejects lp64); [by apply wide_fits|]. left. by vm_compute.
Defined.

(** The encoder on both branches: a payload over the limit is refused and
    the buffer is left alone; otherwise exactly one frame is appended, the
    [assert] holds, and the capacity grows at most once, to the size the frame
    needs. *)
Theorem append_encoded_frame_spec t out p m :
  Vec.size out + 4 + len p ≤ max_size t →
  append_encoded_frame t out p m =
    Ret (if effective_max_payload m <? len p
         then (Unexpected payload_too_large, out)
         else (Val (), mkVec (vdata out ++ be32 (len p) ++ p)
                 (Z.max (vcap out) (Vec.size out + 4 + len p)))).
Proof. apply append_encoded_frame_eq. Qed.

Lemma append_encoded_frame_spec_witness :
  append_encoded_frame lp64 Vec.empty [x61; x62] 2
    = Ret (Val (), mkVec [x00; x00; x00; x02; x61; x62] 6) ∧
  append_encoded_frame lp64 Vec.empty [x61; x62; x63] 2
    = Ret (Unexpected payload_too_large, Vec.empty).
Proof.
  split.
  - apply (append_encoded_frame_spec lp64 Vec.empty [x61; x62] 2); done.
  - apply (append_encoded_frame_spec lp64 Vec.empty [x61; x62; x63] 2); done.
Defined.

(** C37. How a stream is cut into pieces does not matter: a reader that decodes
    after each piece what it can gets, for every stream and every way of cutting
    it, the same payloads in the same order, the same rest and the same verdict
    as one that decodes the whole stream at once. *)
Theorem extract_pieces_equivalent t m pieces :
  fits t m → extract_pieces t m [] pieces = extract_all t m (mjoin pieces).
Proof.
  intros Hf. apply (extract_pieces_from t m [] pieces Hf). done.
Qed.

Lemma extract_pieces_equivalent_witness :
  extract_pieces lp64 8 [] [[x00; x00; x00]; [x01]; []; [x07; x00; x00; x00; x00; x00]] =
    Ret ([[x07]; []], [x00], Incomplete).
Proof.
  rewrite (extract_pieces_equivalent lp64 8); [reflexivity|by apply wide_fits].
Defined.

Lemma prefix_near_max m n : 4294967292 ≤ n ≤ effective_max_payload m → in_u 32 n.
Proof. unfold effective_max_payload, uint32_max, in_u. lia. Qed.

Lemma ilp32_total n : in_u 32 n → 4294967292 ≤ n → to_size ilp32 (4 + n) = n - 4294967292.
Proof.
  intros Hu Hn. unfold to_size, wrap. simpl size_bits. unfold in_u in Hu.
  change (2 ^ 32) with 4294967296 in *. Z.to_euclidean_division_equations; lia.
Qed.

(** C40. On a target with a 32-bit [size_t] the total length of a frame wraps:
    when the limit admits a prefix of at least 2^32 - 4, a peer that announces
    so many bytes is never answered [Incomplete], whatever it has sent after
    the prefix: the total wraps to at most 3, the decoder goes on to resize the
    payload and an exception leaves it. With a 64-bit [size_t] the same bytes
    wait for the rest of the payload. *)
Theorem ilp32_total_wraps m n rest :
  4294967292 ≤ n ≤ effective_max_payload m →
  try_decode_frame ilp32 (be32 n ++ rest) m = Throws ∧
  (len rest < n → try_decode_frame lp64 (be32 n ++ rest) m = Ret (mkResult Incomplete 0 [])).
Proof.
  intros Hn. pose proof (prefix_near_max m n Hn) as Hu. split.
  - unfold try_decode_frame, k_frame_length_field_bytes.
    rewrite (proj2 (Z.ltb_ge _ _)) by len_lia.
    rewrite read_u32_be_be32, outcome_ret_bind by done. cbv zeta.
    rewrite (proj2 (Z.ltb_ge _ _)) by lia.
    rewrite (wrap_small 32 n Hu : to_size ilp32 n = n), ilp32_total by (done || lia).
    pose proof (proj2 Hu : n < 4294967296) as Hlt. clear Hu.
    rewrite (proj2 (Z.ltb_ge _ _)) by len_lia.
    rewrite (proj2 (Z.ltb_lt 0 n)) by lia. unfold resize_and_copy.
    by rewrite (proj2 (Z.ltb_lt 2147483647 n) ltac:(lia) : (max_size ilp32 <? n) = true).
  - intros Hr. rewrite try_decode_frame_is_ref by by apply wide_fits. f_equal.
    apply decode_ref_incomplete_iff. right. exists n, rest. split; [done|]. split; [done|lia].
Qed.

Lemma ilp32_total_wraps_witness :
  try_decode_frame ilp32 ([xff; xff; xff; xff] ++ [x01]) uint32_max = Throws ∧
  (1 < 4294967295 →
   try_decode_frame lp64 ([xff; xff; xff; xff] ++ [x01]) uint32_max = Ret (mkResult Incomplete 0 [])).
Proof. apply (ilp32_total_wraps uint32_max 4294967295 [x01]). by vm_compute. Defined.
