(* ===== verification/Lifecycle.v ===== *)
(** * Shutdown lifecycle (src/core/lifecycle.cpp)

    [ShutdownCoordinator]: the atomic [phase_] and the operations on it.  The
    operations are called from several threads, so each is a little program
    whose atomic accesses (the loads, the compare-exchanges and the loads
    inside [assert]) are separate steps, and the system interleaves any number
    of calls. [phase_] is a single atomic object, so its accesses are totally
    ordered. *)

From S2P Require Import Prelude.

Inductive ShutdownPhase := Running | Draining | Stopped.

#[export] Instance ShutdownPhase_eq_dec : EqDecision ShutdownPhase.
Proof. solve_decision. Defined.

(** The underlying value of the enumerator. *)
Definition phase_rank (p : ShutdownPhase) : Z :=
  match p with Running => 0 | Draining => 1 | Stopped => 2 end.

(** ** Queries *)

Definition should_accept_new_connections (phase : ShutdownPhase) : bool :=
  bool_decide (phase = Running).
Definition should_poll_network (phase : ShutdownPhase) : bool :=
  bool_decide (phase ≠ Stopped).

(** ** Calls in progress *)

(** Arguments of [try_advance_to_stopped_if_drained]. *)
Record drain_args := DrainArgs {
  listener_stopped : bool;
  active_connection_count : Z;
  any_connection_has_pending_writes : bool;
}.

(** The call is let past the guard. *)
Definition drained (a : drain_args) : bool :=
  negb (negb (listener_stopped a) || (0 <? active_connection_count a)
        || any_connection_has_pending_writes a).

(** The asserts on the arguments after the guard. *)
Definition args_asserts (a : drain_args) : bool :=
  listener_stopped a && (active_connection_count a =? 0)
  && negb (any_connection_has_pending_writes a).

Inductive op := Request | Advance (a : drain_args).

(** Where a call is: about to do the first load, the asserts before the
    exchange, the exchange, the assert after it; or finished. *)
Inductive pc := AtLoad | AtAsserts | AtCas | AtFinalAssert | Returned | Aborted.

(** [won]: the compare-exchange of this call succeeded. *)
Record call := Call { prog : op; at_pc : pc; won : bool }.

#[export] Instance drain_args_eq_dec : EqDecision drain_args.
Proof. solve_decision. Defined.
#[export] Instance op_eq_dec : EqDecision op.
Proof. solve_decision. Defined.
#[export] Instance pc_eq_dec : EqDecision pc.
Proof. solve_decision. Defined.
#[export] Instance call_eq_dec : EqDecision call.
Proof. solve_decision. Defined.

Definition finished (t : call) : Prop := at_pc t = Returned ∨ at_pc t = Aborted.
#[export] Instance finished_dec t : Decision (finished t).
Proof. unfold finished. apply _. Defined.

Definition is_advance (o : op) : bool := match o with Advance _ => true | Request => false end.

(** [active_connection_count] is a [size_t]. *)
Definition op_wf (o : op) : Prop :=
  match o with Request => True | Advance a => 0 ≤ active_connection_count a end.

Section with_build.
(** [NDEBUG]: asserts are compiled out. *)
Context (ndebug : bool).

Definition goto (t : call) (p : pc) : call := Call (prog t) p (won t).
Definition checked (b : bool) (next : pc) : pc := if ndebug || b then next else Aborted.

(** One atomic access of [request_shutdown]; [spurious] is the licence of
    [compare_exchange_weak] to fail for no reason. *)
Definition request_step (spurious : bool) (phase : ShutdownPhase) (t : call)
    : option (ShutdownPhase * call) :=
  match at_pc t with
  | AtLoad =>
      if bool_decide (phase ≠ Running) then Some (phase, goto t Returned)
      else Some (phase, goto t AtCas)
  | AtCas =>
      if spurious then Some (phase, goto t AtLoad)
      else if bool_decide (phase = Running)
           then Some (Draining, Call (prog t) AtFinalAssert true)
           else Some (phase, goto t AtLoad)
  | AtFinalAssert =>
      Some (phase, goto t (checked (bool_decide (phase = Draining)) Returned))
  | _ => None
  end.

(** One atomic access of [try_advance_to_stopped_if_drained]. *)
Definition advance_step (a : drain_args) (phase : ShutdownPhase) (t : call)
    : option (ShutdownPhase * call) :=
  match at_pc t with
  | AtLoad =>
      if bool_decide (phase ≠ Draining) then Some (phase, goto t Returned)
      else if negb (drained a) then Some (phase, goto t Returned)
      else Some (phase, goto t AtAsserts)
  | AtAsserts =>
      Some (phase, goto t (checked (bool_decide (phase = Draining) && args_asserts a) AtCas))
  | AtCas =>
      if bool_decide (phase = Draining)
      then Some (Stopped, Call (prog t) AtFinalAssert true)
      else Some (phase, goto t AtFinalAssert)
  | AtFinalAssert =>
      Some (phase, goto t (checked (bool_decide (phase = Stopped)) Returned))
  | _ => None
  end.

Definition call_step (spurious : bool) (phase : ShutdownPhase) (t : call)
    : option (ShutdownPhase * call) :=
  match prog t with
  | Request => request_step spurious phase t
  | Advance a => advance_step a phase t
  end.

(** A call run with no other access in between. *)
Fixpoint run_alone (fuel : nat) (phase : ShutdownPhase) (t : call) : ShutdownPhase * call :=
  match fuel with
  | O => (phase, t)
  | S fuel =>
      match call_step false phase t with
      | Some (phase', t') => run_alone fuel phase' t'
      | None => (phase, t)
      end
  end.

(** ** The system *)

Record sys := Sys { phase_ : ShutdownPhase; calls : list call }.

Definition start (o : op) : call := Call o AtLoad false.
Definition init_sys (s : sys) : Prop := s = Sys Running [].

(** Which calls may start in a state: the discipline of the callers. *)
Context (may_call : sys → op → Prop).

Inductive sys_step : relation sys :=
| step_call s o :
    op_wf o → may_call s o → sys_step s (Sys (phase_ s) (calls s ++ [start o]))
| step_access s i t sp phase' t' :
    calls s !! i = Some t → call_step sp (phase_ s) t = Some (phase', t') →
    sys_step s (Sys phase' (<[i := t']> (calls s))).
End with_build.

(** Every thread calls whatever it wants. *)
Definition any_caller : sys → op → Prop := λ _ _, True.

(** Only one thread (the event loop) calls [try_advance_to_stopped_if_drained],
    so such a call starts when earlier ones have finished. *)
Definition one_io_thread : sys → op → Prop := λ s o,
  is_advance o = true →
  Forall (λ t, is_advance (prog t) = true → finished t) (calls s).

#[export] Instance any_caller_dec s o : Decision (any_caller s o).
Proof. apply _. Defined.
#[export] Instance one_io_thread_dec s o : Decision (one_io_thread s o).
Proof. unfold one_io_thread. apply _. Defined.
#[export] Instance op_wf_dec o : Decision (op_wf o).
Proof. destruct o; simpl; apply _. Defined.

(** A schedule: the calls that start and the order of the accesses. *)
Inductive action := StartCall (o : op) | Access (i : nat) (spurious : bool).

Section schedule.
Context (ndebug : bool) (may_call : sys → op → Prop)
  `{∀ s o, Decision (may_call s o)}.

Definition perform (s : sys) (a : action) : option sys :=
  match a with
  | StartCall o =>
      if decide (op_wf o ∧ may_call s o)
      then Some (Sys (phase_ s) (calls s ++ [start o])) else None
  | Access i sp =>
      t ← calls s !! i;
      r ← call_step ndebug sp (phase_ s) t;
      Some (Sys r.1 (<[i := r.2]> (calls s)))
  end.

Fixpoint run_schedule (s : sys) (sched : list action) : option sys :=
  match sched with
  | [] => Some s
  | a :: sched => s' ← perform s a; run_schedule s' sched
  end.

Lemma perform_step s a s' : perform s a = Some s' → sys_step ndebug may_call s s'.
Proof.
  destruct a as [o|i sp]; simpl; intros E.
  - case_decide as Hd; simplify_eq. destruct Hd. by constructor.
  - destruct (calls s !! i) as [t|] eqn:Hi; simplify_eq/=.
    destruct (call_step _ _ _ _) as [[ph t']|] eqn:Hs; simplify_eq/=.
    by econstructor.
Qed.

Lemma run_schedule_rtc s sched s' :
  run_schedule s sched = Some s' → rtc (sys_step ndebug may_call) s s'.
Proof.
  revert s. induction sched as [|a sched IH]; intros s E; simplify_eq/=; [apply rtc_refl|].
  destruct (perform s a) as [s1|] eqn:Hp; simplify_eq/=.
  eapply rtc_l; [by eapply perform_step|]. by apply IH.
Qed.

(** The state a schedule leads to. *)
Definition after (sched : list action) : sys :=
  default (Sys Running []) (run_schedule (Sys Running []) sched).

Lemma after_reachable sched : reachable init_sys (sys_step ndebug may_call) (after sched).
Proof.
  exists (Sys Running []). split; [done|]. unfold after.
  destruct (run_schedule _ _) as [s|] eqn:E; [by eapply run_schedule_rtc|apply rtc_refl].
Qed.

Lemma after_eq_reachable sched s :
  after sched = s → reachable init_sys (sys_step ndebug may_call) s.
Proof. intros <-. apply after_reachable. Qed.
End schedule.

(** ** What every step does *)

(** What holds of a call in progress when the phase is [ph]. *)
Definition call_ok (ph : ShutdownPhase) (t : call) : Prop :=
  match prog t with
  | Request =>
      match at_pc t with
      | AtLoad | AtCas => won t = false
      | AtFinalAssert => won t = true ∧ ph ≠ Running
      | AtAsserts => False
      | Returned => ph ≠ Running
      | Aborted => won t = true ∧ ph = Stopped
      end
  | Advance a =>
      match at_pc t with
      | AtLoad => won t = false
      | AtAsserts | AtCas => won t = false ∧ drained a = true ∧ ph ≠ Running
      | AtFinalAssert => drained a = true ∧ ph = Stopped
      | Returned => won t = true → drained a = true ∧ ph = Stopped
      | Aborted => won t = false ∧ ph = Stopped
      end
  end.

Definition won_request (t : call) : bool := negb (is_advance (prog t)) && won t.
Definition won_advance (t : call) : bool := is_advance (prog t) && won t.

(** A step of a call: the phase stays, or the call is the winner of one of the
    two transitions. *)
Inductive step_effect (ph : ShutdownPhase) (t : call) (ph' : ShutdownPhase) (t' : call) : Prop :=
| effect_none :
    ph' = ph → won t' = won t → step_effect ph t ph' t'
| effect_draining :
    prog t = Request → won t = false → won t' = true → ph = Running → ph' = Draining →
    step_effect ph t ph' t'
| effect_stopped a :
    prog t = Advance a → won t = false → won t' = true → ph = Draining → ph' = Stopped →
    step_effect ph t ph' t'.

Lemma drained_asserts a : 0 ≤ active_connection_count a → drained a = args_asserts a.
Proof.
  intros. unfold drained, args_asserts.
  destruct (listener_stopped a), (any_connection_has_pending_writes a);
    destruct (Z.ltb_spec 0 (active_connection_count a)),
      (Z.eqb_spec (active_connection_count a) 0); simpl; lia || done.
Qed.

Lemma call_step_inv ndebug sp ph t ph' t' :
  call_ok ph t → op_wf (prog t) → call_step ndebug sp ph t = Some (ph', t') →
  step_effect ph t ph' t' ∧ prog t' = prog t ∧ call_ok ph' t'.
Proof.
  destruct t as [[|a] [] w], ph; unfold call_step, request_step, advance_step, call_ok, checked;
    simpl; intros Hok Hwf E; try done.
  all: try (apply drained_asserts in Hwf).
  all: repeat (case_match; simplify_eq/=; try done).
  all: rewrite ?orb_true_r, ?orb_false_r in *.
  all: repeat match goal with H : _ ∧ _ |- _ => destruct H end.
  all: simplify_eq; try congruence.
  all: split; [solve [eauto using step_effect]|]; simpl; repeat split; intros; try congruence.
  - by apply negb_false_iff.
  - by rewrite <- Hwf, H1, orb_true_r in H.
Qed.

(** ** Invariants of the system *)

Definition phase_step (ph ph' : ShutdownPhase) : Prop :=
  ph' = ph ∨ (ph = Running ∧ ph' = Draining) ∨ (ph = Draining ∧ ph' = Stopped).

Lemma step_effect_phase ph t ph' t' : step_effect ph t ph' t' → phase_step ph ph'.
Proof. unfold phase_step. destruct 1; auto. Qed.

Lemma call_ok_mono ph ph' t : phase_step ph ph' → call_ok ph t → call_ok ph' t.
Proof.
  destruct t as [[|a] [] w]; unfold phase_step, call_ok; simpl;
    intros [->|[[-> ->]|[-> ->]]]; intuition congruence.
Qed.

Record sys_inv (s : sys) : Prop := {
  inv_calls : Forall (call_ok (phase_ s)) (calls s);
  inv_ops : Forall (λ t, op_wf (prog t)) (calls s);
  inv_requests : countb won_request (calls s)
                 = if bool_decide (phase_ s = Running) then 0%nat else 1%nat;
  inv_advances : countb won_advance (calls s)
                 = if bool_decide (phase_ s = Stopped) then 1%nat else 0%nat;
}.

Section system.
Context (ndebug : bool) (may_call : sys → op → Prop).
Abbreviation sys_step := (sys_step ndebug may_call).

Lemma sys_inv_init s : init_sys s → sys_inv s.
Proof. intros ->. by constructor; simpl. Qed.

Lemma sys_inv_access s i t sp ph' t' :
  sys_inv s → calls s !! i = Some t →
  call_step ndebug sp (phase_ s) t = Some (ph', t') →
  step_effect (phase_ s) t ph' t' ∧ prog t' = prog t ∧ call_ok ph' t'.
Proof.
  intros [Hc Ho _ _] Hi Hs. eapply call_step_inv; [..|exact Hs].
  - by eapply Forall_lookup_1 in Hc.
  - by eapply Forall_lookup_1 in Ho.
Qed.

Lemma sys_inv_step s s' : sys_inv s → sys_step s s' → sys_inv s'.
Proof.
  intros Hinv Hstep. revert Hinv.
  destruct Hstep as [s o Ho _|s i t sp ph' t' Hi Hs]; intros Hinv.
  - destruct Hinv as [Hc Hw Hr Ha]. constructor; simpl.
    + apply Forall_app_2; [done|]. apply Forall_singleton. by destruct o.
    + apply Forall_app_2; [done|]. by apply Forall_singleton.
    + rewrite countb_app, Hr. destruct o; unfold countb; simpl; lia.
    + rewrite countb_app, Ha. destruct o; unfold countb; simpl; lia.
  - pose proof (sys_inv_access _ _ _ _ _ _ Hinv Hi Hs) as (He & Hp & Hok).
    destruct Hinv as [Hc Hw Hr Ha].
    pose proof (step_effect_phase _ _ _ _ He) as Hph.
    constructor; simpl.
    + apply Forall_insert_lookup; [|done].
      eapply Forall_impl; [exact Hc|]. intros. by eapply call_ok_mono.
    + apply Forall_insert_lookup; [done|]. rewrite Hp.
      by eapply Forall_lookup_1 in Hw.
    + pose proof (countb_insert won_request _ _ _ t' Hi) as Hn.
      unfold won_request in *. rewrite Hp in Hn.
      destruct He as [E1 E2|E1 E2 E3 E4 E5|a E1 E2 E3 E4 E5];
        rewrite ?E1, ?E2, ?E3, ?E4, ?E5 in *; simpl in *; lia.
    + pose proof (countb_insert won_advance _ _ _ t' Hi) as Hn.
      unfold won_advance in *. rewrite Hp in Hn.
      destruct He as [E1 E2|E1 E2 E3 E4 E5|a E1 E2 E3 E4 E5];
        rewrite ?E1, ?E2, ?E3, ?E4, ?E5 in *; simpl in *; lia.
Qed.

Lemma sys_inv_reachable s : reachable init_sys sys_step s → sys_inv s.
Proof. apply reachable_invariant; [apply sys_inv_init|apply sys_inv_step]. Qed.

Lemma sys_step_phase s s' : sys_inv s → sys_step s s' → phase_step (phase_ s) (phase_ s').
Proof.
  intros Hinv Hstep. revert Hinv.
  destruct Hstep as [s o Ho _|s i t sp ph' t' Hi Hs]; intros Hinv; [by left|].
  eapply step_effect_phase. by eapply sys_inv_access in Hs as [? _].
Qed.
End system.

(** ** Termination of the calls

    An access of a call in progress where no compare-exchange fails
    spuriously. *)
Inductive quiet_step (ndebug : bool) : relation sys :=
| quiet_access s i t phase' t' :
    calls s !! i = Some t → call_step ndebug false (phase_ s) t = Some (phase', t') →
    quiet_step ndebug s (Sys phase' (<[i := t']> (calls s))).

(** How many accesses a call can still make. *)
Definition call_measure (ph : ShutdownPhase) (t : call) : nat :=
  match prog t, at_pc t with
  | Request, AtLoad => if bool_decide (ph = Running) then 3 else 1
  | Request, AtCas => 2
  | Advance _, AtLoad => 4
  | Advance _, AtAsserts => 3
  | Advance _, AtCas => 2
  | _, AtFinalAssert => 1
  | _, _ => 0
  end.

Definition sys_measure (s : sys) : nat := sum_list (call_measure (phase_ s) <$> calls s).

(** Whether an access is a failure of the weak exchange for no reason. *)
Definition fails_spuriously (sp : bool) (t : call) : nat :=
  if sp && bool_decide (prog t = Request ∧ at_pc t = AtCas) then 1 else 0.

Lemma call_step_measure ndebug sp ph t ph' t' :
  call_step ndebug sp ph t = Some (ph', t') →
  phase_step ph ph' ∧ (call_measure ph' t' < call_measure ph t + 2 * fails_spuriously sp t)%nat.
Proof.
  destruct t as [[|a] [] w], ph, sp; unfold call_step, request_step, advance_step, checked,
    call_measure, phase_step, fails_spuriously; simpl; intros E; try done;
    repeat (case_match; simplify_eq/=; try done); split; auto; lia.
Qed.

Lemma call_measure_mono ph ph' t :
  phase_step ph ph' → (call_measure ph' t ≤ call_measure ph t)%nat.
Proof.
  destruct t as [[|a] [] w]; unfold phase_step, call_measure; simpl;
    intros [->|[[-> ->]|[-> ->]]]; simpl; lia.
Qed.

Lemma sum_measure_cons ph t l :
  sum_list (call_measure ph <$> t :: l)
  = (call_measure ph t + sum_list (call_measure ph <$> l))%nat.
Proof. reflexivity. Qed.

Lemma sum_measure_mono ph ph' l :
  phase_step ph ph' →
  (sum_list (call_measure ph' <$> l) ≤ sum_list (call_measure ph <$> l))%nat.
Proof.
  intros Hph. induction l as [|u l IH]; [done|]. rewrite !sum_measure_cons.
  pose proof (call_measure_mono ph ph' u Hph). lia.
Qed.

Lemma sum_measure_insert d ph ph' (l : list call) i t t' :
  phase_step ph ph' → l !! i = Some t → (call_measure ph' t' < call_measure ph t + d)%nat →
  (sum_list (call_measure ph' <$> <[i := t']> l) < sum_list (call_measure ph <$> l) + d)%nat.
Proof.
  intros Hph. revert i. induction l as [|u l IH]; intros [|i] Hi Hm; [done|done| |].
  - injection Hi as ->. change (<[0%nat := t']> (t :: l)) with (t' :: l).
    rewrite !sum_measure_cons. pose proof (sum_measure_mono ph ph' l Hph). lia.
  - change (<[S i := t']> (u :: l)) with (u :: <[i := t']> l).
    rewrite !sum_measure_cons.
    pose proof (call_measure_mono ph ph' u Hph). specialize (IH i Hi Hm). lia.
Qed.

Lemma quiet_step_measure ndebug s s' :
  quiet_step ndebug s s' → (sys_measure s' < sys_measure s)%nat.
Proof.
  intros [s0 i t ph' t' Hi Hs]. apply call_step_measure in Hs as [Hph Hm].
  pose proof (sum_measure_insert _ _ _ _ _ _ _ Hph Hi Hm). unfold sys_measure. simpl in *. lia.
Qed.

(** A run with [f] spurious failures, [c] new calls and [n] accesses. *)
Inductive counted_run (ndebug : bool) (may_call : sys → op → Prop) : nat → nat → nat → relation sys :=
| run_nothing s : counted_run ndebug may_call 0 0 0 s s
| run_call f c n s o s' :
    op_wf o → may_call s o →
    counted_run ndebug may_call f c n (Sys (phase_ s) (calls s ++ [start o])) s' →
    counted_run ndebug may_call f (S c) n s s'
| run_access f c n s i t sp phase' t' s' :
    calls s !! i = Some t → call_step ndebug sp (phase_ s) t = Some (phase', t') →
    counted_run ndebug may_call f c n (Sys phase' (<[i := t']> (calls s))) s' →
    counted_run ndebug may_call (fails_spuriously sp t + f) c (S n) s s'.

Lemma sys_measure_call s o :
  (sys_measure (Sys (phase_ s) (calls s ++ [start o])) ≤ sys_measure s + 4)%nat.
Proof.
  unfold sys_measure. simpl. rewrite fmap_app.
  induction (call_measure (phase_ s) <$> calls s) as [|x l IH]; simpl in *; [|lia].
  destruct o; unfold call_measure; simpl; [case_match|]; lia.
Qed.

Lemma counted_run_measure ndebug may_call f c n s s' :
  counted_run ndebug may_call f c n s s' → (n + sys_measure s' ≤ sys_measure s + 4 * c + 2 * f)%nat.
Proof.
  induction 1 as [s|f c n s o s' _ _ _ IH|f c n s i t sp ph' t' s' Hi Hs _ IH]; [lia| |].
  - pose proof (sys_measure_call s o). lia.
  - apply call_step_measure in Hs as [Hph Hm].
    pose proof (sum_measure_insert _ _ _ _ _ _ _ Hph Hi Hm). unfold sys_measure in *. simpl in *. lia.
Qed.

Lemma sys_measure_bound s : (sys_measure s ≤ 4 * length (calls s))%nat.
Proof.
  unfold sys_measure. generalize (phase_ s) as ph; intros ph.
  induction (calls s) as [|t l IH]; [simpl; lia|].
  rewrite sum_measure_cons. cbn [length].
  enough (call_measure ph t ≤ 4)%nat by lia.
  unfold call_measure. repeat case_match; lia.
Qed.

(** A call in progress is never blocked. [AtAsserts] is not a point of
    [request_shutdown], so calls are taken to be well-formed. *)
Lemma call_step_progress ndebug sp ph t :
  call_ok ph t → ¬ finished t → is_Some (call_step ndebug sp ph t).
Proof.
  destruct t as [[|a] [] w]; unfold call_ok, finished, call_step, request_step,
    advance_step; simpl; intros Hok Hf; try done;
    try (exfalso; apply Hf; by auto); repeat case_match; eauto.
Qed.

Lemma quiet_step_sys_step ndebug may_call s s' :
  quiet_step ndebug s s' → sys_step ndebug may_call s s'.
Proof. intros [s0 i t ph' t' Hi Hs]. by econstructor. Qed.

Lemma all_calls_finish ndebug n s :
  sys_inv s → sys_measure s = n →
  ∃ s', rtc (quiet_step ndebug) s s' ∧ Forall finished (calls s').
Proof.
  revert s. induction n as [n IH] using lt_wf_ind. intros s Hinv Hn.
  destruct (decide (Forall finished (calls s))) as [|Hnf]; [by exists s; split; [apply rtc_refl|]|].
  apply not_Forall_Exists, Exists_exists in Hnf as (t & Ht & Hf); [|apply _].
  apply list_elem_of_lookup in Ht as [i Hi].
  destruct (call_step_progress ndebug false (phase_ s) t) as [[ph' t'] Hs]; [|done|].
  { by eapply Forall_lookup_1 in Hi; [|apply inv_calls]. }
  assert (quiet_step ndebug s (Sys ph' (<[i:=t']> (calls s)))) as Hq by by econstructor.
  pose proof (quiet_step_measure _ _ _ Hq).
  edestruct (IH (sys_measure (Sys ph' (<[i:=t']> (calls s))))) as (s' & Hr & Hf');
    [lia| |done|].
  - eapply (sys_inv_step ndebug any_caller); [done|]. by apply quiet_step_sys_step.
  - exists s'. split; [by eapply rtc_l|done].
Qed.

Lemma quiet_counted ndebug may_call s s' :
  rtc (quiet_step ndebug) s s' → ∃ n, counted_run ndebug may_call 0 0 n s s'.
Proof.
  induction 1 as [s|s s1 s' [s0 i t ph' t' Hi Hs] _ [n IH]]; [by exists O; constructor|].
  exists (S n). by eapply (run_access _ _ 0 0 n _ i t false).
Qed.

(** ** One event-loop thread *)

Definition advancing (t : call) : Prop := is_advance (prog t) = true ∧ ¬ finished t.

Record io_inv (s : sys) : Prop := {
  io_sys : sys_inv s;
  io_unique : ∀ i j t u, calls s !! i = Some t → calls s !! j = Some u →
    advancing t → advancing u → i = j;
  io_draining : ∀ t, t ∈ calls s → is_advance (prog t) = true →
    at_pc t = AtAsserts ∨ at_pc t = AtCas → phase_ s = Draining;
  io_no_abort : ∀ t, t ∈ calls s → is_advance (prog t) = true → at_pc t ≠ Aborted;
}.

Lemma advance_step_io ndebug sp a ph t ph' t' :
  prog t = Advance a → call_ok ph t → op_wf (prog t) →
  (at_pc t = AtAsserts ∨ at_pc t = AtCas → ph = Draining) →
  call_step ndebug sp ph t = Some (ph', t') →
  at_pc t' ≠ Aborted ∧ (at_pc t' = AtAsserts ∨ at_pc t' = AtCas → ph' = Draining) ∧
  ¬ finished t.
Proof.
  destruct t as [o p w]; simpl. intros -> Hok Hwf Hd.
  unfold call_step, advance_step, checked, finished; simpl.
  unfold call_ok in Hok; simpl in *. apply drained_asserts in Hwf.
  destruct p; try done; intros E.
  - destruct ph; simplify_eq/=; [intuition congruence| |intuition congruence].
    case_match; simplify_eq/=; intuition congruence.
  - destruct Hok as (? & Hdr & ?). rewrite Hd, <- Hwf, Hdr, orb_true_r in E by auto.
    simplify_eq/=. intuition congruence.
  - rewrite Hd in E by auto. simplify_eq/=. intuition congruence.
  - destruct Hok as [? ->]. simplify_eq/=. rewrite orb_true_r. intuition congruence.
Qed.

Section io_thread.
Context (ndebug : bool).
Abbreviation io_step := (sys_step ndebug one_io_thread).

Lemma io_inv_call s o :
  io_inv s → op_wf o → one_io_thread s o → io_inv (Sys (phase_ s) (calls s ++ [start o])).
Proof.
  intros [Hs Hu Hd Ha] Ho Hone.
  assert (∀ t, t ∈ calls s ++ [start o] → t ∈ calls s ∨ t = start o) as Hin
    by (intros t; rewrite elem_of_app, list_elem_of_singleton; tauto).
  constructor; simpl.
  - eapply (sys_inv_step ndebug one_io_thread); [done|]. by constructor.
  - intros i j t u Hi Hj [Ht Hft] [Hut Hfu].
    apply lookup_app_Some in Hi as [Hi|[Hi1 Hi2]], Hj as [|[Hj1 Hj2]]; try eauto.
    + by eapply Hu.
    + apply list_lookup_singleton_Some in Hj2 as [? <-].
      destruct Hft. eapply (proj1 (Forall_forall _ _) (Hone Hut));
        [by eapply list_elem_of_lookup_2|done].
    + apply list_lookup_singleton_Some in Hi2 as [? <-].
      destruct Hfu. eapply (proj1 (Forall_forall _ _) (Hone Ht));
        [by eapply list_elem_of_lookup_2|done].
    + apply lookup_lt_Some in Hi2, Hj2. simpl in *. lia.
  - intros t [?| ->]%Hin; [by eauto|]. simpl. intuition congruence.
  - intros t [?| ->]%Hin; [by eauto|done].
Qed.

Lemma io_inv_access s i t sp ph' t' :
  io_inv s → calls s !! i = Some t → call_step ndebug sp (phase_ s) t = Some (ph', t') →
  io_inv (Sys ph' (<[i := t']> (calls s))).
Proof.
  intros [Hs Hu Hd Ha] Hi Hstep.
  destruct (sys_inv_access ndebug _ _ _ _ _ _ Hs Hi Hstep) as (He & Hp & _).
  pose proof (list_elem_of_lookup_2 _ _ _ Hi) as Hin.
  assert (is_advance (prog t) = true → at_pc t' ≠ Aborted ∧
    (at_pc t' = AtAsserts ∨ at_pc t' = AtCas → ph' = Draining) ∧ ¬ finished t) as Hio.
  { intros Hadv. destruct (prog t) as [|a] eqn:Epr; [done|].
    destruct Hs as [Hc Hw _ _].
    eapply Forall_lookup_1 in Hc; [|exact Hi]. eapply Forall_lookup_1 in Hw; [|exact Hi].
    eapply advance_step_io; try done. rewrite <- Epr in Hadv. eauto. }
  constructor; simpl.
  - eapply (sys_inv_step ndebug one_io_thread); [done|]. by econstructor.
  - intros j k u v Hj Hk Hau Hav.
    assert (∀ m x, <[i := t']> (calls s) !! m = Some x → advancing x →
              ∃ y, calls s !! m = Some y ∧ advancing y) as Hback.
    { intros m x Hm Hx. apply list_lookup_insert_Some in Hm as [(<- & <- & _)|[_ Hm]];
        [|by eauto]. exists t. split; [done|]. destruct Hx as [Hx _]. rewrite Hp in Hx.
      split; [done|]. by apply Hio. }
    destruct (Hback _ _ Hj Hau) as (? & ? & ?), (Hback _ _ Hk Hav) as (? & ? & ?).
    by eapply Hu.
  - intros u [j Hj]%list_elem_of_lookup Hadv Hat.
    apply list_lookup_insert_Some in Hj as [(<- & <- & _)|[Hne Hj]].
    { rewrite Hp in Hadv. by apply Hio. }
    assert (phase_ s = Draining) as Hdr 
      by (apply (Hd u); [by eapply list_elem_of_lookup_2|done|done]).
    destruct He as [->|? ? ? Hr ?|a Hpa ? ? _ ->]; [done|congruence|].
    destruct Hne. eapply Hu; [done|done|..].
    + split; [by rewrite Hpa|]. apply Hio. by rewrite Hpa.
    + split; [done|]. unfold finished. intuition congruence.
  - intros u [j Hj]%list_elem_of_lookup Hadv.
    apply list_lookup_insert_Some in Hj as [(<- & <- & _)|[Hne Hj]];
      [rewrite Hp in Hadv; by apply Hio|]. eauto using list_elem_of_lookup_2.
Qed.

Lemma io_inv_reachable s : reachable init_sys io_step s → io_inv s.
Proof.
  apply reachable_invariant.
  - intros ? ->. constructor; simpl; [by apply sys_inv_init|done|..];
      intros t Ht; inversion Ht.
  - intros s1 s2 Hinv Hst. revert Hinv.
    destruct Hst as [s1 o Ho Hm|s1 i t sp ph' t' Hi Hs]; intros Hinv.
    + apply io_inv_call; assumption.
    + eapply io_inv_access; eassumption.
Qed.
End io_thread.

(** ** Properties *)

(** The server, called from anywhere; and with one event-loop thread. *)
Definition server_step (ndebug : bool) : relation sys := sys_step ndebug any_caller.
Definition server_reachable (ndebug : bool) : sys → Prop := reachable init_sys (server_step ndebug).
Definition io_reachable (ndebug : bool) : sys → Prop :=
  reachable init_sys (sys_step ndebug one_io_thread).

(** C23. The lifecycle is monotonic under any interleaving of any number of
    calls from any threads: a step leaves the phase alone or moves it from
    [Running] to [Draining] or from [Draining] to [Stopped], never back and
    never past [Draining]. *)
Theorem lifecycle_monotonic ndebug s s' :
  server_reachable ndebug s → server_step ndebug s s' →
  phase_ s' = phase_ s ∨ (phase_ s = Running ∧ phase_ s' = Draining) ∨
  (phase_ s = Draining ∧ phase_ s' = Stopped).
Proof. intros Hr. by eapply sys_step_phase, sys_inv_reachable. Qed.

Lemma lifecycle_monotonic_witness :
  ∃ s s', server_reachable false s ∧ phase_ s = Running ∧ phase_ s' = Draining ∧
    (phase_ s' = phase_ s ∨ (phase_ s = Running ∧ phase_ s' = Draining) ∨
     (phase_ s = Draining ∧ phase_ s' = Stopped)).
Proof.
  exists (Sys Running [Call Request AtCas false]), (Sys Draining [Call Request AtFinalAssert true]).
  assert (server_reachable false (Sys Running [Call Request AtCas false])) as Hr
    by by apply (after_eq_reachable false any_caller [StartCall Request; Access 0 false]).
  split; [done|]. split; [done|]. split; [done|].
  apply (lifecycle_monotonic false); [done|].
  by apply (perform_step false any_caller _ (Access 0 false)).
Defined.

(** C24. Each transition is made by exactly one call, however many race: while
    [Running] no compare-exchange has succeeded, from [Draining] on exactly one
    [request_shutdown] has, in [Stopped] exactly one
    [try_advance_to_stopped_if_drained] has, and that one was told that the
    listener is stopped, no connection is active and no write is pending. *)
Theorem transitions_won_once ndebug s :
  server_reachable ndebug s →
  countb won_request (calls s) = (if bool_decide (phase_ s = Running) then 0%nat else 1%nat) ∧
  countb won_advance (calls s) = (if bool_decide (phase_ s = Stopped) then 1%nat else 0%nat) ∧
  ∀ t a, t ∈ calls s → prog t = Advance a → won t = true →
    listener_stopped a = true ∧ active_connection_count a = 0 ∧
    any_connection_has_pending_writes a = false.
Proof.
  intros Hr%sys_inv_reachable. split; [apply Hr|]. split; [apply Hr|].
  intros t a Ht Hp Hw. destruct Hr as [Hc Ho _ _].
  eapply Forall_forall in Hc, Ho; [|exact Ht..]. rewrite Hp in Ho.
  assert (drained a = true) as Hd.
  { unfold call_ok in Hc. rewrite Hp in Hc. destruct (at_pc t); intuition congruence. }
  rewrite drained_asserts in Hd by done. unfold args_asserts in Hd.
  apply andb_prop in Hd as [[? Hz]%andb_prop Hn].
  rewrite Z.eqb_eq in Hz. by rewrite negb_true_iff in Hn.
Qed.

(** Two shutdown requests race, then the event loop finishes. *)
Definition racing_shutdown : list action :=
  [StartCall Request; StartCall Request; Access 0 false; Access 1 false; Access 0 true;
   Access 1 false; Access 0 false; Access 1 false;
   StartCall (Advance (DrainArgs true 0 false));
   Access 2 false; Access 2 false; Access 2 false; Access 2 false].

Lemma transitions_won_once_witness :
  ∃ s, phase_ s = Stopped ∧ length (calls s) = 3%nat ∧
    countb won_request (calls s) = 1%nat ∧ countb won_advance (calls s) = 1%nat.
Proof.
  pose proof (after_reachable false any_caller racing_shutdown) as Hr.
  destruct (transitions_won_once false _ Hr) as (H1 & H2 & _).
  exists (after false any_caller racing_shutdown).
  split; [reflexivity|]. split; [reflexivity|]. split; [exact H1|exact H2].
Defined.

(** C34. Once some [request_shutdown] has returned, no later state of the
    server accepts new connections. *)
Theorem request_shutdown_stops_accepting ndebug s s' t :
  server_reachable ndebug s → t ∈ calls s → prog t = Request → at_pc t = Returned →
  rtc (server_step ndebug) s s' →
  should_accept_new_connections (phase_ s') = false.
Proof.
  intros Hr%sys_inv_reachable Ht Hp Hat Hrtc.
  assert (phase_ s ≠ Running) as Hph.
  { pose proof (inv_calls _ Hr) as Hc. eapply Forall_forall in Hc; [|exact Ht].
    unfold call_ok in Hc. by rewrite Hp, Hat in Hc. }
  assert (sys_inv s' ∧ phase_ s' ≠ Running) as [_ Hph'].
  { eapply (rtc_invariant (server_step ndebug) (λ s, sys_inv s ∧ phase_ s ≠ Running));
      [|exact Hrtc|done].
    intros s1 s2 [Hi Hn] Hst. split; [by eapply sys_inv_step|].
    apply sys_step_phase in Hst; [|done].
    unfold phase_step in Hst. intuition congruence. }
  unfold should_accept_new_connections. by rewrite bool_decide_eq_false_2.
Qed.

Lemma request_shutdown_stops_accepting_witness :
  should_accept_new_connections Draining = false.
Proof.
  set (s := Sys Draining [Call Request Returned true]).
  apply (request_shutdown_stops_accepting false s s (Call Request Returned true)).
  - by apply (after_eq_reachable false any_caller
      [StartCall Request; Access 0 false; Access 0 false; Access 0 false]).
  - by apply list_elem_of_singleton.
  - done.
  - done.
  - apply rtc_refl.
Defined.

(** C35. With a single event-loop thread calling
    [try_advance_to_stopped_if_drained], none of its asserts ever fails,
    whatever [request_shutdown] calls run concurrently. *)
Theorem io_thread_asserts_hold ndebug s t a :
  io_reachable ndebug s → t ∈ calls s → prog t = Advance a → at_pc t ≠ Aborted.
Proof.
  intros Hr%io_inv_reachable Ht Hp. eapply io_no_abort; [done|done|]. by rewrite Hp.
Qed.

Lemma io_thread_asserts_hold_witness :
  at_pc (Call (Advance (DrainArgs true 0 false)) Returned true) ≠ Aborted.
Proof.
  eapply (io_thread_asserts_hold false).
  - apply (after_reachable false one_io_thread racing_shutdown).
  - apply list_elem_of_lookup. by exists 2%nat.
  - reflexivity.
Defined.

(** C36. The assert after the exchange in [request_shutdown] can fail in a Debug
    build: between its compare-exchange and the load in the assert, the event
    loop can advance the phase to [Stopped]. One requester and one event-loop
    thread are enough. *)
Theorem request_shutdown_assert_races :
  ∃ s t, io_reachable false s ∧ t ∈ calls s ∧ prog t = Request ∧ at_pc t = Aborted.
Proof.
  set (sched := [StartCall Request; Access 0 false; Access 0 false;
     StartCall (Advance (DrainArgs true 0 false));
     Access 1 false; Access 1 false; Access 1 false; Access 0 false]).
  exists (after false one_io_thread sched), (Call Request Aborted true).
  split; [apply after_reachable|]. split; [by left|done].
Qed.

(** When two threads call [try_advance_to_stopped_if_drained], the first
    assert after the guard can fail in a Debug build: the peer may have won
    the exchange between the guard and the assert. *)
Theorem concurrent_advance_assert_races :
  ∃ s t a, server_reachable false s ∧ t ∈ calls s ∧ prog t = Advance a ∧ at_pc t = Aborted.
Proof.
  set (sched := [StartCall Request; Access 0 false; Access 0 false; Access 0 false;
     StartCall (Advance (DrainArgs true 0 false));
     StartCall (Advance (DrainArgs true 0 false));
     Access 1 false; Access 2 false; Access 2 false; Access 2 false; Access 1 false]).
  exists (after false any_caller sched),
    (Call (Advance (DrainArgs true 0 false)) Aborted false), (DrainArgs true 0 false).
  split; [apply after_reachable|]. split; [by right; left|done].
Qed.

(** C33. The calls terminate as far as [compare_exchange_weak] lets them, and
    never block each other. In any run, whatever the interleaving, the number of
    accesses is at most four for each call, those that start on the way
    included, and two for each failure of the weak exchange for no reason: the
    loop of [request_shutdown] goes round again only for such a failure or when
    another thread has moved the phase. A call that has not ended can always make
    its next access, so a run that cannot go on has ended all its calls; and from
    any reachable state all calls in progress can be run to their end. *)
Theorem lifecycle_calls_terminate ndebug may_call s :
  server_reachable ndebug s →
  (∀ f c n s', counted_run ndebug may_call f c n s s' →
     (n ≤ 4 * (length (calls s) + c) + 2 * f)%nat) ∧
  (∀ t, t ∈ calls s → ¬ finished t → ∀ sp, is_Some (call_step ndebug sp (phase_ s) t)) ∧
  ∃ n s', counted_run ndebug may_call 0 0 n s s' ∧ Forall finished (calls s').
Proof.
  intros Hr%sys_inv_reachable. split; [|split].
  - intros f c n s' Hn%counted_run_measure. pose proof (sys_measure_bound s). lia.
  - intros t Ht Hf sp. eapply call_step_progress; [|done]. eapply Forall_forall; [apply inv_calls, Hr|done].
  - destruct (all_calls_finish ndebug _ s Hr eq_refl) as (s' & Hs' & Hf).
    apply (quiet_counted _ may_call) in Hs' as [n Hs']. by exists n, s'.
Qed.

(** The weak exchange fails once: two accesses more than the three of a call
    that is alone. *)
Definition one_request : sys := Sys Running [start Request].

Lemma one_failure :
  counted_run false any_caller 1 0 5 one_request (Sys Draining [Call Request Returned true]).
Proof.
  eapply (run_access _ _ 1 0 4 _ 0 (start Request) false); [done..|].
  eapply (run_access _ _ 0 0 3 _ 0 (Call Request AtCas false) true); [done..|].
  eapply (run_access _ _ 0 0 2 _ 0 (start Request) false); [done..|].
  eapply (run_access _ _ 0 0 1 _ 0 (Call Request AtCas false) false); [done..|].
  eapply (run_access _ _ 0 0 0 _ 0 (Call Request AtFinalAssert true) false); [done..|]. constructor.
Qed.

Lemma lifecycle_calls_terminate_witness :
  (5 ≤ 4 * (1 + 0) + 2 * 1)%nat ∧
  ∃ n s', counted_run false any_caller 0 0 n one_request s' ∧ Forall finished (calls s').
Proof.
  assert (server_reachable false one_request) as Hr
    by by apply (after_eq_reachable false any_caller [StartCall Request]).
  destruct (lifecycle_calls_terminate false any_caller _ Hr) as (Hbound & _ & Hend).
  split; [exact (Hbound _ _ _ _ one_failure)|exact Hend].
Defined.

(** What each operation does when nothing interferes, in either build:
    [request_shutdown] moves [Running] to [Draining] and is a no-op later;
    [try_advance_to_stopped_if_drained] moves [Draining] to [Stopped] exactly
    when the server is drained. Both return. *)
Theorem lifecycle_calls_alone ndebug phase a :
  op_wf (Advance a) →
  let r := run_alone ndebug 4 phase (start Request) in
  let d := run_alone ndebug 4 phase (start (Advance a)) in
  r.1 = (if bool_decide (phase = Running) then Draining else phase) ∧
  at_pc r.2 = Returned ∧
  d.1 = (if bool_decide (phase = Draining) && listener_stopped a
            && (active_connection_count a =? 0)
            && negb (any_connection_has_pending_writes a)
         then Stopped else phase) ∧
  at_pc d.2 = Returned.
Proof.
  intros Hwf. destruct a as [[] [|n|n] []]; simpl in Hwf; try lia;
    by destruct ndebug, phase.
Qed.

Lemma lifecycle_calls_alone_witness :
  (run_alone false 4 Draining (start (Advance (DrainArgs true 0 false)))).1 = Stopped ∧
  (run_alone false 4 Draining (start (Advance (DrainArgs true 2 false)))).1 = Draining.
Proof.
  split.
  - apply (lifecycle_calls_alone false Draining (DrainArgs true 0 false)). simpl. lia.
  - apply (lifecycle_calls_alone false Draining (DrainArgs true 2 false)). simpl. lia.
Defined.
