(* ===== verification/Config.v ===== *)
(** * Configuration data (include/tcp_server/config.hpp)

    The configuration snapshot, its machine-width invariant, and the view of
    it as a total function from the supported keys to values, which is what
    the loader promises to fill in. *)

From S2P Require Import Prelude.

Inductive LogLevel := Trace | Debug | Info | Warn | Error.

Record ListenConfig := mkListen { host : string; port : Z }.
Record LimitsConfig := mkLimits { max_connections : Z; max_message_bytes : Z }.
Record TimeoutsConfig := mkTimeouts { idle_ms : Z }.
Record RuntimeConfig := mkRuntime { worker_threads : Z }.
Record LoggingConfig := mkLogging { level : LogLevel }.
Record MetricsConfig := mkMetrics { metrics_enabled : bool }.

Record ServerConfig := mkConfig {
  listen : ListenConfig;
  limits : LimitsConfig;
  timeouts : TimeoutsConfig;
  runtime : RuntimeConfig;
  logging : LoggingConfig;
  metrics : MetricsConfig;
}.

#[export] Instance LogLevel_eq_dec : EqDecision LogLevel.
Proof. solve_decision. Defined.
#[export] Instance ListenConfig_eq_dec : EqDecision ListenConfig.
Proof. solve_decision. Defined.
#[export] Instance LimitsConfig_eq_dec : EqDecision LimitsConfig.
Proof. solve_decision. Defined.
#[export] Instance TimeoutsConfig_eq_dec : EqDecision TimeoutsConfig.
Proof. solve_decision. Defined.
#[export] Instance RuntimeConfig_eq_dec : EqDecision RuntimeConfig.
Proof. solve_decision. Defined.
#[export] Instance LoggingConfig_eq_dec : EqDecision LoggingConfig.
Proof. solve_decision. Defined.
#[export] Instance MetricsConfig_eq_dec : EqDecision MetricsConfig.
Proof. solve_decision. Defined.
#[export] Instance ServerConfig_eq_dec : EqDecision ServerConfig.
Proof. solve_decision. Defined.

(** [static_cast<unsigned>(level)]. *)
Definition level_rank (l : LogLevel) : Z :=
  match l with Trace => 0 | Debug => 1 | Info => 2 | Warn => 3 | Error => 4 end.

(** [ServerConfig cfg{}]: the member initialisers. *)
Definition default_config : ServerConfig :=
  mkConfig (mkListen "" 0) (mkLimits 0 0) (mkTimeouts 0) (mkRuntime 0)
    (mkLogging Info) (mkMetrics false).

(** Every number of the configuration is in the range of its type. *)
Record config_wf (cfg : ServerConfig) : Prop := {
  wf_port : in_u 16 (port (listen cfg));
  wf_max_connections : in_u 32 (max_connections (limits cfg));
  wf_max_message_bytes : in_u 64 (max_message_bytes (limits cfg));
  wf_idle_ms : in_u 32 (idle_ms (timeouts cfg));
  wf_worker_threads : in_u 32 (worker_threads (runtime cfg));
}.

(** ** Member assignments *)

Definition set_host (s : string) (c : ServerConfig) : ServerConfig :=
  mkConfig (mkListen s (port (listen c))) (limits c) (timeouts c) (runtime c)
    (logging c) (metrics c).
Definition set_port (n : Z) (c : ServerConfig) : ServerConfig :=
  mkConfig (mkListen (host (listen c)) n) (limits c) (timeouts c) (runtime c)
    (logging c) (metrics c).
Definition set_max_connections (n : Z) (c : ServerConfig) : ServerConfig :=
  mkConfig (listen c) (mkLimits n (max_message_bytes (limits c))) (timeouts c)
    (runtime c) (logging c) (metrics c).
Definition set_max_message_bytes (n : Z) (c : ServerConfig) : ServerConfig :=
  mkConfig (listen c) (mkLimits (max_connections (limits c)) n) (timeouts c)
    (runtime c) (logging c) (metrics c).
Definition set_idle_ms (n : Z) (c : ServerConfig) : ServerConfig :=
  mkConfig (listen c) (limits c) (mkTimeouts n) (runtime c) (logging c) (metrics c).
Definition set_worker_threads (n : Z) (c : ServerConfig) : ServerConfig :=
  mkConfig (listen c) (limits c) (timeouts c) (mkRuntime n) (logging c) (metrics c).
Definition set_level (l : LogLevel) (c : ServerConfig) : ServerConfig :=
  mkConfig (listen c) (limits c) (timeouts c) (runtime c) (mkLogging l) (metrics c).
Definition set_metrics_enabled (b : bool) (c : ServerConfig) : ServerConfig :=
  mkConfig (listen c) (limits c) (timeouts c) (runtime c) (logging c) (mkMetrics b).

(** ** The configuration as a map from keys to values *)

Inductive config_key :=
| ListenHost | ListenPort | LimitsMaxConnections | LimitsMaxMessageBytes
| TimeoutsIdleMs | RuntimeWorkerThreads | LoggingLevel | MetricsEnabled.

#[export] Instance config_key_eq_dec : EqDecision config_key.
Proof. solve_decision. Defined.

Inductive config_value :=
| VString (s : string) | VNumber (n : Z) | VLevel (l : LogLevel) | VBool (b : bool).

Definition field_of (k : config_key) (c : ServerConfig) : config_value :=
  match k with
  | ListenHost => VString (host (listen c))
  | ListenPort => VNumber (port (listen c))
  | LimitsMaxConnections => VNumber (max_connections (limits c))
  | LimitsMaxMessageBytes => VNumber (max_message_bytes (limits c))
  | TimeoutsIdleMs => VNumber (idle_ms (timeouts c))
  | RuntimeWorkerThreads => VNumber (worker_threads (runtime c))
  | LoggingLevel => VLevel (level (logging c))
  | MetricsEnabled => VBool (metrics_enabled (metrics c))
  end.

(** The view determines the configuration. *)
Lemma field_of_ext c d : (∀ k, field_of k c = field_of k d) → c = d.
Proof.
  intros H. destruct c as [[] [] [] [] [] []], d as [[] [] [] [] [] []].
  pose proof (H ListenHost). pose proof (H ListenPort).
  pose proof (H LimitsMaxConnections). pose proof (H LimitsMaxMessageBytes).
  pose proof (H TimeoutsIdleMs). pose proof (H RuntimeWorkerThreads).
  pose proof (H LoggingLevel). pose proof (H MetricsEnabled).
  by simplify_eq/=.
Qed.
