(* ===== verification/ConfigLoader.v ===== *)
(** * Configuration loader (src/config/config_loader.cpp)

    Parsing of [key=value] text and the environment overrides.  The file
    system and the environment are outside of the program: the contents of
    files and the variables are arguments of the definitions. *)

From S2P Require Import Prelude Config.
From Stdlib Require Import Ascii.

Abbreviation chars := (list ascii).

Definition to_chars (s : string) : chars := String.list_ascii_of_string s.
Definition of_chars (l : chars) : string := String.string_of_list_ascii l.

Lemma of_to_chars s : of_chars (to_chars s) = s.
Proof. apply String.string_of_list_ascii_of_string. Qed.
Lemma to_of_chars l : to_chars (of_chars l) = l.
Proof. apply String.list_ascii_of_string_of_list_ascii. Qed.

Definition ch_tab : ascii := "009".
Definition ch_newline : ascii := "010".
Definition ch_cr : ascii := "013".

Inductive ConfigErrorCode := FileOpenFailed | InvalidLine | UnknownKey | InvalidValue.
Record ConfigLoadError := mkLoadError {
  load_code : ConfigErrorCode;
  load_message : string;
  load_line : Z;
}.

#[export] Instance ConfigErrorCode_eq_dec : EqDecision ConfigErrorCode.
Proof. solve_decision. Defined.
#[export] Instance ConfigLoadError_eq_dec : EqDecision ConfigLoadError.
Proof. solve_decision. Defined.

(** ** Lexing *)

Definition is_blank (c : ascii) : bool :=
  bool_decide (c = " "%char) || bool_decide (c = ch_tab) || bool_decide (c = ch_cr).

(** The loop of [remove_prefix(1)]. *)
Fixpoint drop_blanks (s : chars) : chars :=
  match s with
  | [] => []
  | c :: s' => if is_blank c then drop_blanks s' else s
  end.

(** [trim]: the prefix loop, then the suffix loop. *)
Definition trim (s : chars) : chars := reverse (drop_blanks (reverse (drop_blanks s))).

(** [s.find(c)] with what is before and after the first occurrence. *)
Fixpoint split_at (c : ascii) (s : chars) : option (chars * chars) :=
  match s with
  | [] => None
  | d :: s' =>
      if bool_decide (d = c) then Some ([], s')
      else r ← split_at c s'; Some (d :: r.1, r.2)
  end.

Definition parse_kv (line : chars) : option (chars * chars) :=
  match split_at "="%char line with
  | None => None
  | Some (before, after) =>
      let key := trim before in
      let value := trim after in
      if bool_decide (key = []) then None else Some (key, value)
  end.

(** ** Values *)

Inductive errc := ec_ok | ec_invalid_argument | ec_result_out_of_range.

#[export] Instance errc_eq_dec : EqDecision errc.
Proof. solve_decision. Defined.

Definition is_digit (c : ascii) : bool :=
  (48 <=? Z.of_nat (nat_of_ascii c)) && (Z.of_nat (nat_of_ascii c) <=? 57).
Definition digit_value (c : ascii) : Z := Z.of_nat (nat_of_ascii c) - 48.

(** The longest prefix of digits, and the rest. *)
Fixpoint span_digits (s : chars) : chars * chars :=
  match s with
  | [] => ([], [])
  | c :: s' => if is_digit c then (c :: (span_digits s').1, (span_digits s').2) else ([], s)
  end.

Definition digits_value (ds : chars) : Z := foldl (λ acc c, acc * 10 + digit_value c) 0 ds.

(** [std::from_chars] into an unsigned [w]-bit integer that holds 0: the value,
    what is left of the input, and the error. *)
Definition from_chars (w : Z) (s : chars) : Z * chars * errc :=
  let '(ds, rest) := span_digits s in
  if bool_decide (ds = []) then (0, s, ec_invalid_argument)
  else if digits_value ds <? 2 ^ w then (digits_value ds, rest, ec_ok)
  else (0, rest, ec_result_out_of_range).

Definition parse_uint (w : Z) (s : chars) : option Z :=
  let '(out, rest, ec) := from_chars w s in
  if negb (bool_decide (ec = ec_ok)) || negb (bool_decide (rest = [])) then None
  else Some out.

(** Equality with a literal. *)
Definition is_str (s : chars) (lit : string) : bool := bool_decide (of_chars s = lit).

Definition parse_bool (s : chars) : option bool :=
  if is_str s "1" || is_str s "true" || is_str s "TRUE" || is_str s "True" then Some true
  else if is_str s "0" || is_str s "false" || is_str s "FALSE" || is_str s "False" then Some false
  else None.

Definition parse_log_level (s : chars) : option LogLevel :=
  if is_str s "trace" || is_str s "TRACE" || is_str s "Trace" then Some Trace
  else if is_str s "debug" || is_str s "DEBUG" || is_str s "Debug" then Some Debug
  else if is_str s "info" || is_str s "INFO" || is_str s "Info" then Some Info
  else if is_str s "warn" || is_str s "WARN" || is_str s "Warn" || is_str s "warning"
          || is_str s "WARNING" || is_str s "Warning" then Some Warn
  else if is_str s "error" || is_str s "ERROR" || is_str s "Error" then Some Error
  else None.

Definition invalid_value (msg : string) : ConfigLoadError := mkLoadError InvalidValue msg 0.

(** The error if any, and the configuration afterwards. *)
Definition apply_key_value (cfg : ServerConfig) (key value : chars)
    : option ConfigLoadError * ServerConfig :=
  if is_str key "listen.host" then (None, set_host (of_chars value) cfg)
  else if is_str key "listen.port" then
    match parse_uint 32 value with
    | None => (Some (invalid_value "listen.port must be 0..65535"), cfg)
    | Some n =>
        if 65535 <? n then (Some (invalid_value "listen.port must be 0..65535"), cfg)
        else (None, set_port (wrap 16 n) cfg)
    end
  else if is_str key "limits.max_connections" then
    match parse_uint 32 value with
    | None => (Some (invalid_value "limits.max_connections must be an integer"), cfg)
    | Some n => (None, set_max_connections n cfg)
    end
  else if is_str key "limits.max_message_bytes" then
    match parse_uint 64 value with
    | None => (Some (invalid_value "limits.max_message_bytes must be an integer"), cfg)
    | Some n => (None, set_max_message_bytes n cfg)
    end
  else if is_str key "timeouts.idle_ms" then
    match parse_uint 32 value with
    | None => (Some (invalid_value "timeouts.idle_ms must be an integer"), cfg)
    | Some n => (None, set_idle_ms n cfg)
    end
  else if is_str key "runtime.worker_threads" then
    match parse_uint 32 value with
    | None => (Some (invalid_value "runtime.worker_threads must be an integer"), cfg)
    | Some n => (None, set_worker_threads n cfg)
    end
  else if is_str key "logging.level" then
    match parse_log_level value with
    | None => (Some (invalid_value "logging.level is not recognized"), cfg)
    | Some l => (None, set_level l cfg)
    end
  else if is_str key "metrics.enabled" then
    match parse_bool value with
    | None => (Some (invalid_value "metrics.enabled must be true/false"), cfg)
    | Some b => (None, set_metrics_enabled b cfg)
    end
  else (Some (mkLoadError UnknownKey ("unknown key: " +:+ of_chars key) 0), cfg).

(** ** The loader *)

(** The lines [std::getline] returns in turn: a last line without newline
    counts, an empty rest after a newline does not. [cur] is what has been
    extracted of the current line. *)
Fixpoint getlines (cur : chars) (text : chars) : list chars :=
  match text with
  | [] => if bool_decide (cur = []) then [] else [reverse cur]
  | c :: text' =>
      if bool_decide (c = ch_newline) then reverse cur :: getlines [] text'
      else getlines (c :: cur) text'
  end.

(** The body of the [while (std::getline(in, line))] loop. *)
Definition load_line_step (cfg : ServerConfig) (line_no : Z) (line : chars)
    : expected ServerConfig ConfigLoadError :=
  let sv := trim line in
  match sv with
  | [] => Val cfg
  | front :: _ =>
      if bool_decide (front = "#"%char) || bool_decide (front = ";"%char) then Val cfg
      else
        match parse_kv sv with
        | None => Unexpected (mkLoadError InvalidLine "invalid line (expected key=value)" line_no)
        | Some (key, value) =>
            match apply_key_value cfg key value with
            | (Some err, _) => Unexpected (mkLoadError (load_code err) (load_message err) line_no)
            | (None, cfg') => Val cfg'
            end
        end
  end.

Fixpoint load_lines (cfg : ServerConfig) (line_no : Z) (lines : list chars)
    : expected ServerConfig ConfigLoadError :=
  match lines with
  | [] => Val cfg
  | line :: lines' =>
      let line_no := line_no + 1 in
      match load_line_step cfg line_no line with
      | Val cfg' => load_lines cfg' line_no lines'
      | Unexpected e => Unexpected e
      end
  end.

Definition env_keys : list (string * string) :=
  [("TCP_SERVER__listen__host", "listen.host");
   ("TCP_SERVER__listen__port", "listen.port");
   ("TCP_SERVER__limits__max_connections", "limits.max_connections");
   ("TCP_SERVER__limits__max_message_bytes", "limits.max_message_bytes");
   ("TCP_SERVER__timeouts__idle_ms", "timeouts.idle_ms");
   ("TCP_SERVER__runtime__worker_threads", "runtime.worker_threads");
   ("TCP_SERVER__logging__level", "logging.level");
   ("TCP_SERVER__metrics__enabled", "metrics.enabled")].

(** The loop over [env_keys]; [getenv] is the process environment. *)
Fixpoint load_env (getenv : string → option string) (cfg : ServerConfig)
    (keys : list (string * string)) : expected ServerConfig ConfigLoadError :=
  match keys with
  | [] => Val cfg
  | (env, key) :: keys' =>
      match getenv env with
      | None => load_env getenv cfg keys'
      | Some v =>
          match apply_key_value cfg (to_chars key) (to_chars v) with
          | (Some err, _) =>
              Unexpected (mkLoadError (load_code err)
                ("env " +:+ env +:+ ": " +:+ load_message err) 0)
          | (None, cfg') => load_env getenv cfg' keys'
          end
      end
  end.

(** [open_file path] is what the file at [path] contains, if it opens. *)
Definition load_config_from_file (open_file : string → option string)
    (getenv : string → option string) (path : string)
    : expected ServerConfig ConfigLoadError :=
  match open_file path with
  | None =>
      Unexpected (mkLoadError FileOpenFailed ("failed to open config file: " +:+ path) 0)
  | Some text =>
      match load_lines default_config 0 (getlines [] (to_chars text)) with
      | Unexpected e => Unexpected e
      | Val cfg => load_env getenv cfg env_keys
      end
  end.

(** ** Keys and values, as a reference *)

Definition key_name (k : config_key) : string :=
  match k with
  | ListenHost => "listen.host"
  | ListenPort => "listen.port"
  | LimitsMaxConnections => "limits.max_connections"
  | LimitsMaxMessageBytes => "limits.max_message_bytes"
  | TimeoutsIdleMs => "timeouts.idle_ms"
  | RuntimeWorkerThreads => "runtime.worker_threads"
  | LoggingLevel => "logging.level"
  | MetricsEnabled => "metrics.enabled"
  end.

Definition all_keys : list config_key :=
  [ListenHost; ListenPort; LimitsMaxConnections; LimitsMaxMessageBytes;
   TimeoutsIdleMs; RuntimeWorkerThreads; LoggingLevel; MetricsEnabled].

(** The values a key accepts, and what they denote. *)
Definition parse_value (k : config_key) (s : chars) : option config_value :=
  match k with
  | ListenHost => Some (VString (of_chars s))
  | ListenPort => n ← parse_uint 32 s; if 65535 <? n then None else Some (VNumber n)
  | LimitsMaxMessageBytes => VNumber <$> parse_uint 64 s
  | LimitsMaxConnections | TimeoutsIdleMs | RuntimeWorkerThreads => VNumber <$> parse_uint 32 s
  | LoggingLevel => VLevel <$> parse_log_level s
  | MetricsEnabled => VBool <$> parse_bool s
  end.

(** [cfg'] is [cfg] with the field of [k] replaced by [v]. *)
Definition updates (k : config_key) (v : config_value) (cfg cfg' : ServerConfig) : Prop :=
  field_of k cfg' = v ∧ ∀ k', k' ≠ k → field_of k' cfg' = field_of k' cfg.

Lemma elem_all_keys k : k ∈ all_keys.
Proof. apply (bool_decide_unpack _). by destruct k. Qed.

#[export] Instance key_name_inj : Inj (=) (=) key_name.
Proof. by intros [] [] E. Qed.

(** *** Numbers *)

Lemma span_digits_app s : (span_digits s).1 ++ (span_digits s).2 = s.
Proof. induction s as [|c s IH]; simpl; [done|]. case_match; simpl; [by f_equal|done]. Qed.

Lemma span_digits_Forall s : Forall (λ c, is_digit c = true) (span_digits s).1.
Proof. induction s as [|c s IH]; simpl; [done|]. case_match; simpl; by constructor. Qed.

Lemma span_digits_all s : Forall (λ c, is_digit c = true) s → span_digits s = (s, []).
Proof. induction 1 as [|c s Hc _ IH]; simpl; [done|]. by rewrite Hc, IH. Qed.

Lemma digit_value_range c : is_digit c = true → 0 ≤ digit_value c ≤ 9.
Proof.
  unfold is_digit, digit_value. intros [??]%andb_prop. lia.
Qed.

Lemma digits_value_nonneg s : Forall (λ c, is_digit c = true) s → 0 ≤ digits_value s.
Proof.
  unfold digits_value. intros Hs.
  assert (∀ acc, 0 ≤ acc → 0 ≤ foldl (λ acc c, acc * 10 + digit_value c) acc s) as H.
  { induction Hs as [|c s Hc _ IH]; simpl; intros acc Ha; [done|].
    apply digit_value_range in Hc. apply IH. lia. }
  by apply H.
Qed.

Lemma parse_uint_iff w s n :
  parse_uint w s = Some n ↔
  s ≠ [] ∧ Forall (λ c, is_digit c = true) s ∧ digits_value s = n ∧ n < 2 ^ w.
Proof.
  unfold parse_uint, from_chars. split.
  - pose proof (span_digits_app s) as Ha. pose proof (span_digits_Forall s) as Hf.
    destruct (span_digits s) as [ds rest]; simpl in *.
    case_bool_decide; [done|]. destruct (digits_value ds <? 2 ^ w) eqn:E; [|done]. simpl.
    case_bool_decide; [|done]. intros [= <-]. subst rest.
    rewrite app_nil_r in Ha. subst ds. by apply Z.ltb_lt in E.
  - intros (Hs & Hf & <- & Hn). rewrite span_digits_all by done.
    rewrite bool_decide_eq_false_2 by done. by rewrite (proj2 (Z.ltb_lt _ _)).
Qed.

Lemma parse_uint_range w s n : parse_uint w s = Some n → in_u w n.
Proof. intros (_ & Hf & <- & ?)%parse_uint_iff. split; [by apply digits_value_nonneg|done]. Qed.

(** *** One assignment *)

Lemma is_str_key k s : is_str (to_chars (key_name k)) s = bool_decide (key_name k = s).
Proof. unfold is_str. by rewrite of_to_chars. Qed.

Ltac known_key :=
  unfold apply_key_value; rewrite ?is_str_key;
  repeat (rewrite bool_decide_eq_false_2 by done);
  rewrite bool_decide_eq_true_2 by done.

(** A supported key with an acceptable value updates exactly its field. *)
Lemma apply_key_value_ok cfg k v x :
  parse_value k v = Some x →
  ∃ cfg', apply_key_value cfg (to_chars (key_name k)) v = (None, cfg') ∧
    updates k x cfg cfg'.
Proof.
  intros Hp. destruct k; known_key; simpl in Hp.
  - simplify_eq. eexists. split; [done|]. split; [done|]. by intros [].
  - destruct (parse_uint 32 v) as [n|] eqn:E; simplify_eq/=.
    destruct (65535 <? n) eqn:En; simplify_eq/=.
    eexists. split; [done|]. split; [|by intros []].
    simpl. rewrite wrap_small; [done|]. apply parse_uint_range in E.
    apply Z.ltb_ge in En. split; [apply E|lia].
  - destruct (parse_uint 32 v) as [n|] eqn:E; simplify_eq/=.
    eexists. split; [done|]. split; [done|]. by intros [].
  - destruct (parse_uint 64 v) as [n|] eqn:E; simplify_eq/=.
    eexists. split; [done|]. split; [done|]. by intros [].
  - destruct (parse_uint 32 v) as [n|] eqn:E; simplify_eq/=.
    eexists. split; [done|]. split; [done|]. by intros [].
  - destruct (parse_uint 32 v) as [n|] eqn:E; simplify_eq/=.
    eexists. split; [done|]. split; [done|]. by intros [].
  - destruct (parse_log_level v) as [n|] eqn:E; simplify_eq/=.
    eexists. split; [done|]. split; [done|]. by intros [].
  - destruct (parse_bool v) as [n|] eqn:E; simplify_eq/=.
    eexists. split; [done|]. split; [done|]. by intros [].
Qed.

(** A supported key with another value is an error that changes nothing. *)
Lemma apply_key_value_invalid cfg k v :
  parse_value k v = None →
  ∃ msg, apply_key_value cfg (to_chars (key_name k)) v = (Some (invalid_value msg), cfg).
Proof.
  intros Hp. destruct k; [done|..]; known_key; simpl in Hp.
  - destruct (parse_uint 32 v) as [n|] eqn:E; [|by eexists].
    simpl in Hp. case_match; [by eexists|done].
  - destruct (parse_uint 32 v); [done|by eexists].
  - destruct (parse_uint 64 v); [done|by eexists].
  - destruct (parse_uint 32 v); [done|by eexists].
  - destruct (parse_uint 32 v); [done|by eexists].
  - destruct (parse_log_level v); [done|by eexists].
  - destruct (parse_bool v); [done|by eexists].
Qed.

Lemma apply_key_value_unknown cfg key v :
  (∀ k, of_chars key ≠ key_name k) →
  apply_key_value cfg key v
    = (Some (mkLoadError UnknownKey ("unknown key: " +:+ of_chars key) 0), cfg).
Proof.
  intros Hk. unfold apply_key_value, is_str.
  pose proof (Hk ListenHost). pose proof (Hk ListenPort). pose proof (Hk LimitsMaxConnections).
  pose proof (Hk LimitsMaxMessageBytes). pose proof (Hk TimeoutsIdleMs).
  pose proof (Hk RuntimeWorkerThreads). pose proof (Hk LoggingLevel).
  pose proof (Hk MetricsEnabled). simpl in *.
  by rewrite !bool_decide_eq_false_2 by done.
Qed.

(** The supported key a string names. *)
Definition key_of (key : chars) : option config_key :=
  head (filter (λ k, of_chars key = key_name k) all_keys).

Lemma key_of_Some key k : key_of key = Some k ↔ key = to_chars (key_name k).
Proof.
  unfold key_of. split.
  - intros Hh. assert (k ∈ filter (λ k, of_chars key = key_name k) all_keys) as Hin.
    { destruct (filter _ _); simplify_eq/=. by left. }
    apply list_elem_of_filter in Hin as [Hin _]. by rewrite <- Hin, to_of_chars.
  - intros ->. rewrite of_to_chars. by destruct k.
Qed.

Lemma key_of_None key : key_of key = None → ∀ k, of_chars key ≠ key_name k.
Proof.
  intros H k E.
  assert (key_of key = Some k) as H' by (apply key_of_Some; by rewrite <- E, to_of_chars).
  congruence.
Qed.

Lemma apply_key_value_inv cfg key v cfg' :
  apply_key_value cfg key v = (None, cfg') →
  ∃ k x, key = to_chars (key_name k) ∧ parse_value k v = Some x ∧ updates k x cfg cfg'.
Proof.
  intros E. destruct (key_of key) as [k|] eqn:Hk.
  - apply key_of_Some in Hk as ->. destruct (parse_value k v) as [x|] eqn:Hp.
    + destruct (apply_key_value_ok cfg k v x Hp) as (c & E' & Hu).
      rewrite E' in E. simplify_eq. eauto.
    + destruct (apply_key_value_invalid cfg k v Hp) as (m & E'). rewrite E' in E. done.
  - rewrite apply_key_value_unknown in E; [done|by apply key_of_None].
Qed.

Lemma apply_key_value_err cfg key v e cfg' :
  apply_key_value cfg key v = (Some e, cfg') →
  cfg' = cfg ∧
  ((∃ k, key = to_chars (key_name k) ∧ parse_value k v = None ∧ load_code e = InvalidValue) ∨
   ((∀ k, key ≠ to_chars (key_name k)) ∧ load_code e = UnknownKey)).
Proof.
  intros E. destruct (key_of key) as [k|] eqn:Hk.
  - apply key_of_Some in Hk as ->. destruct (parse_value k v) as [x|] eqn:Hp.
    + destruct (apply_key_value_ok cfg k v x Hp) as (c & E' & Hu). by rewrite E' in E.
    + destruct (apply_key_value_invalid cfg k v Hp) as (m & E'). rewrite E' in E.
      simplify_eq. eauto 10.
  - pose proof (key_of_None _ Hk) as Hn. rewrite apply_key_value_unknown in E by done.
    simplify_eq. split; [done|]. right. split; [|done].
    intros k ->. by apply (Hn k), of_to_chars.
Qed.

(** *** Sequences of assignments *)

(** What a line of the file assigns, if it is not blank nor a comment. *)
Definition line_assignment (line : chars) : option (chars * chars) :=
  match trim line with
  | [] => None
  | front :: _ =>
      if bool_decide (front = "#"%char) || bool_decide (front = ";"%char) then None
      else parse_kv (trim line)
  end.

Definition env_assignment (getenv : string → option string) (ek : string * string)
    : option (chars * chars) :=
  v ← getenv ek.1; Some (to_chars ek.2, to_chars v).

(** All assignments of a load, in the order they are made. *)
Definition assignments (text : string) (getenv : string → option string) : list (chars * chars) :=
  omap line_assignment (getlines [] (to_chars text)) ++ omap (env_assignment getenv) env_keys.

(** The last value assigned to a key. *)
Definition last_value (k : config_key) (asg : list (chars * chars)) : option chars :=
  snd <$> last (filter (λ kv, kv.1 = to_chars (key_name k)) asg).

(** All assignments succeed, one after the other. *)
Inductive assigned : ServerConfig → list (chars * chars) → ServerConfig → Prop :=
| assigned_nil c : assigned c [] c
| assigned_cons c key v c1 l c' :
    apply_key_value c key v = (None, c1) → assigned c1 l c' → assigned c ((key, v) :: l) c'.

Lemma assigned_app c l c1 m c' : assigned c l c1 → assigned c1 m c' → assigned c (l ++ m) c'.
Proof. induction 1; simpl; [done|]. intros. econstructor; eauto. Qed.

Lemma load_lines_assigned cfg n lines cfg' :
  load_lines cfg n lines = Val cfg' → assigned cfg (omap line_assignment lines) cfg'.
Proof.
  revert cfg n. induction lines as [|line lines IH]; intros cfg n E; simpl in E.
  { simplify_eq. constructor. }
  destruct (load_line_step cfg (n + 1) line) as [c1|] eqn:Es; [|done].
  apply IH in E. cbn [omap list_omap]. unfold load_line_step in Es. unfold line_assignment.
  destruct (trim line) as [|front s]; [by simplify_eq|].
  destruct (_ || _); [by simplify_eq|].
  destruct (parse_kv _) as [[key v]|]; [|done].
  destruct (apply_key_value cfg key v) as [[e|] c2] eqn:Ea; [done|].
  simplify_eq. by econstructor.
Qed.

Lemma load_env_assigned getenv cfg keys cfg' :
  load_env getenv cfg keys = Val cfg' → assigned cfg (omap (env_assignment getenv) keys) cfg'.
Proof.
  revert cfg. induction keys as [|[env key] keys IH]; intros cfg E; simpl in E.
  { simplify_eq. constructor. }
  cbn [omap list_omap]. unfold env_assignment. simpl.
  destruct (getenv env) as [v|]; simpl; [|by apply IH].
  destruct (apply_key_value _ _ _) as [[e|] c2] eqn:Ea; [done|].
  econstructor; [done|]. by apply IH.
Qed.

Lemma load_assigned open_file getenv path text cfg :
  open_file path = Some text →
  load_config_from_file open_file getenv path = Val cfg →
  assigned default_config (assignments text getenv) cfg.
Proof.
  intros Ho. unfold load_config_from_file. rewrite Ho.
  destruct (load_lines _ _ _) as [c|] eqn:El; [|done]. intros Ee.
  eapply assigned_app; [by eapply load_lines_assigned|by apply load_env_assigned].
Qed.

Lemma assigned_field c l c' k :
  assigned c l c' →
  Some (field_of k c') = match last_value k l with
                         | Some v => parse_value k v
                         | None => Some (field_of k c)
                         end.
Proof.
  unfold last_value. induction 1 as [c|c key v c1 l c' Ha _ IH]; [done|].
  apply apply_key_value_inv in Ha as (k1 & x & -> & Hp & Hx & Hother).
  rewrite filter_cons. simpl. case_decide as Hk.
  - assert (k1 = k) as ->.
    { apply (inj key_name). rewrite <- (of_to_chars (key_name k1)), Hk. apply of_to_chars. }
    rewrite last_cons. rewrite IH.
    destruct (last _) as [[??]|]; simpl; [done|]. by rewrite Hp, Hx.
  - rewrite IH. destruct (last _) as [[??]|]; simpl; [done|].
    f_equal. apply Hother. by intros ->.
Qed.

(** *** Ranges *)

Definition value_wf (k : config_key) (v : config_value) : Prop :=
  match k, v with
  | ListenPort, VNumber n => in_u 16 n
  | LimitsMaxMessageBytes, VNumber n => in_u 64 n
  | (LimitsMaxConnections | TimeoutsIdleMs | RuntimeWorkerThreads), VNumber n => in_u 32 n
  | _, _ => True
  end.

Lemma parse_value_wf k s v : parse_value k s = Some v → value_wf k v.
Proof.
  destruct k; simpl; intros E; try (apply fmap_Some in E as (n & E & ->)); simpl; try done;
    try (by eapply parse_uint_range).
  apply bind_Some in E as (n & E & E'). apply parse_uint_range in E.
  destruct (65535 <? n) eqn:En; simplify_eq/=. apply Z.ltb_ge in En.
  unfold in_u in *. lia.
Qed.

(** The width of a number's field. *)
Definition number_width (k : config_key) : option Z :=
  match k with
  | ListenPort => Some 16
  | LimitsMaxMessageBytes => Some 64
  | LimitsMaxConnections | TimeoutsIdleMs | RuntimeWorkerThreads => Some 32
  | ListenHost | LoggingLevel | MetricsEnabled => None
  end.

(** A text that denotes a number of [w] bits, in decimal. *)
Definition denotes (w : Z) (v : chars) : Prop :=
  v ≠ [] ∧ Forall (λ c, is_digit c = true) v ∧ digits_value v < 2 ^ w.

Lemma parse_number k w v x :
  number_width k = Some w → parse_value k v = Some x → denotes w v ∧ x = VNumber (digits_value v).
Proof.
  intros Hw Hp. assert (∀ w' n, parse_uint w' v = Some n → n < 2 ^ w → denotes w v ∧ n = digits_value v) as Hn
    by (intros w' n (? & ? & <- & ?)%parse_uint_iff ?; by repeat split).
  destruct k; simplify_eq/=; try (apply fmap_Some in Hp as (n & Hp & ->); pose proof (parse_uint_range _ _ _ Hp) as [_ Hr];
    by destruct (Hn _ _ Hp Hr) as [? ->]).
  apply bind_Some in Hp as (n & Hp & E). destruct (Z.ltb_spec 65535 n); simplify_eq.
  by destruct (Hn _ _ Hp ltac:(lia)) as [? ->].
Qed.

(** Every assignment on the way was accepted. *)
Lemma assigned_accepted c l c' k v :
  assigned c l c' → (to_chars (key_name k), v) ∈ l → is_Some (parse_value k v).
Proof.
  induction 1 as [|c key v1 c1 l c' Ha _ IH]; intros Hin; [by apply elem_of_nil in Hin|].
  apply elem_of_cons in Hin as [[= <- ->]|Hin]; [|by apply IH].
  apply apply_key_value_inv in Ha as (k1 & x & E & Hp & _).
  apply (f_equal of_chars) in E. rewrite !of_to_chars in E. apply (inj key_name) in E as <-. by eexists.
Qed.

Lemma config_wf_fields cfg : config_wf cfg ↔ ∀ k, value_wf k (field_of k cfg).
Proof.
  split.
  - intros [] []; simpl; done.
  - intros H. constructor; [apply (H ListenPort)|apply (H LimitsMaxConnections)|
      apply (H LimitsMaxMessageBytes)|apply (H TimeoutsIdleMs)|apply (H RuntimeWorkerThreads)].
Qed.

Lemma default_config_wf : config_wf default_config.
Proof. by constructor. Qed.

Lemma assigned_wf c l c' : assigned c l c' → config_wf c → config_wf c'.
Proof.
  rewrite !config_wf_fields. intros Ha Hc k. pose proof (assigned_field _ _ _ k Ha) as E.
  destruct (last_value k l) as [v|]; [by eapply parse_value_wf|].
  injection E as ->. apply Hc.
Qed.

(** *** Where an error is reported *)

Lemma load_line_step_err cfg n line e :
  load_line_step cfg n line = Unexpected e → load_line e = n.
Proof.
  unfold load_line_step. intros E. repeat (case_match; simplify_eq/=; try done).
Qed.

Lemma load_lines_err cfg n lines e :
  load_lines cfg n lines = Unexpected e →
  ∃ i line c, lines !! i = Some line ∧ load_lines cfg n (take i lines) = Val c ∧
    load_line_step c (n + Z.of_nat i + 1) line = Unexpected e.
Proof.
  revert cfg n. induction lines as [|line lines IH]; intros cfg n E; simpl in E; [done|].
  destruct (load_line_step cfg (n + 1) line) as [c|e'] eqn:Es.
  - apply IH in E as (i & l & c' & Hi & Ht & He). exists (S i), l, c'.
    split; [done|]. split; [by simpl; rewrite Es|].
    by replace (n + Z.of_nat (S i) + 1) with (n + 1 + Z.of_nat i + 1) by lia.
  - simplify_eq. exists 0%nat, line, cfg. split; [done|]. split; [done|].
    by replace (n + Z.of_nat 0 + 1) with (n + 1) by lia.
Qed.

Lemma env_keys_known env key : (env, key) ∈ env_keys → ∃ k, key = key_name k.
Proof.
  intros Hin. assert (key ∈ key_name <$> all_keys) as H.
  { change (key_name <$> all_keys) with (snd <$> env_keys).
    apply list_elem_of_fmap. by exists (env, key). }
  apply list_elem_of_fmap in H as (k & -> & _). by exists k.
Qed.

(** The loop over the environment ends at the first variable that is not
    accepted. *)
Lemma load_env_err getenv cfg keys e :
  keys ⊆ env_keys → load_env getenv cfg keys = Unexpected e →
  ∃ i env k v c err, keys !! i = Some (env, key_name k) ∧
    load_env getenv cfg (take i keys) = Val c ∧ getenv env = Some v ∧
    parse_value k (to_chars v) = None ∧
    apply_key_value c (to_chars (key_name k)) (to_chars v) = (Some err, c) ∧
    e = mkLoadError InvalidValue ("env " +:+ env +:+ ": " +:+ load_message err) 0.
Proof.
  revert cfg. induction keys as [|[env key] keys IH]; intros cfg Hsub E; simpl in E; [done|].
  assert (keys ⊆ env_keys) as Hsub' by (intros x Hx; apply Hsub; by right).
  destruct (getenv env) as [v|] eqn:Hv.
  - destruct (apply_key_value _ _ _) as [[err|] c] eqn:Ea.
    + pose proof Ea as Ea'. apply apply_key_value_err in Ea as [-> [(k & Hk & Hp & Hc)|[Hn _]]].
      * apply (f_equal of_chars) in Hk. rewrite !of_to_chars in Hk. subst key.
        exists O, env, k, v, cfg, err. rewrite Hc in E. by injection E as <-.
      * destruct (env_keys_known env key) as [k ->]; [apply Hsub; by left|]. by destruct (Hn k).
    + apply IH in E as (i & E); [|done]. exists (S i). simpl. by rewrite Hv, Ea.
  - apply IH in E as (i & E); [|done]. exists (S i). simpl. by rewrite Hv.
Qed.

(** *** Printing a configuration *)

Definition digit_char (d : Z) : ascii := ascii_of_nat (Z.to_nat (48 + d)).

Fixpoint show_digits (fuel : nat) (n : Z) (acc : chars) : chars :=
  match fuel with
  | O => acc
  | S fuel =>
      let acc := digit_char (n `mod` 10) :: acc in
      if n `div` 10 =? 0 then acc else show_digits fuel (n `div` 10) acc
  end.

(** Decimal; 20 digits are enough for 64 bits. *)
Definition show_uint (n : Z) : chars := show_digits 20 n [].

Definition show_level (l : LogLevel) : chars :=
  to_chars match l with
           | Trace => "trace" | Debug => "debug" | Info => "info"
           | Warn => "warn" | Error => "error"
           end.

Definition show_value (v : config_value) : chars :=
  match v with
  | VString s => to_chars s
  | VNumber n => show_uint n
  | VLevel l => show_level l
  | VBool b => to_chars (if b then "true" else "false")
  end.

Definition config_line (cfg : ServerConfig) (k : config_key) : chars :=
  to_chars (key_name k) ++ "="%char :: show_value (field_of k cfg).

(** A configuration file that says what [cfg] is. *)
Definition print_config (cfg : ServerConfig) : string :=
  of_chars (mjoin ((λ k, config_line cfg k ++ [ch_newline]) <$> all_keys)).

Lemma digit_char_value d : 0 ≤ d < 10 → digit_value (digit_char d) = d ∧ is_digit (digit_char d) = true.
Proof.
  intros Hd. assert (d = 0 ∨ d = 1 ∨ d = 2 ∨ d = 3 ∨ d = 4 ∨ d = 5 ∨ d = 6 ∨ d = 7 ∨ d = 8 ∨ d = 9)
    as H by lia.
  by repeat destruct H as [->|H]; [..|subst].
Qed.

Lemma digits_value_cons c ds :
  digits_value (c :: ds) = digit_value c * 10 ^ len ds + digits_value ds.
Proof.
  unfold digits_value. simpl foldl.
  assert (∀ acc, foldl (λ acc c, acc * 10 + digit_value c) acc ds
    = acc * 10 ^ len ds + foldl (λ acc c, acc * 10 + digit_value c) 0 ds) as H.
  { induction ds as [|d ds IH]; intros acc; [simpl; lia|].
    rewrite len_cons. cbn [foldl]. rewrite (IH (acc * 10 + _)), (IH (0 * 10 + _)).
    rewrite Z.pow_add_r by lia. lia. }
  rewrite H. lia.
Qed.

Lemma show_digits_spec fuel n acc :
  0 ≤ n < 10 ^ Z.of_nat fuel → (0 < fuel)%nat →
  Forall (λ c, is_digit c = true) acc →
  Forall (λ c, is_digit c = true) (show_digits fuel n acc) ∧
  show_digits fuel n acc ≠ [] ∧
  digits_value (show_digits fuel n acc) = n * 10 ^ len acc + digits_value acc.
Proof.
  revert n acc. induction fuel as [|fuel IH]; intros n acc Hn Hf Hacc; [lia|].
  cbn [show_digits].
  pose proof (Z.mod_pos_bound n 10 ltac:(lia)) as Hm.
  pose proof (Z.div_mod n 10 ltac:(lia)) as Hdm.
  destruct (digit_char_value (n `mod` 10) Hm) as [Hv Hd].
  destruct (Z.eqb_spec (n `div` 10) 0) as [E|E].
  - split; [by constructor|]. split; [done|].
    rewrite digits_value_cons, Hv. f_equal. f_equal. lia.
  - rewrite Nat2Z.inj_succ, Z.pow_succ_r in Hn by lia.
    assert (0 < n `div` 10) by (pose proof (Z.div_pos n 10); lia).
    assert (n `div` 10 < 10 ^ Z.of_nat fuel) by (apply Z.div_lt_upper_bound; lia).
    destruct (IH (n `div` 10) (digit_char (n `mod` 10) :: acc)) as (? & ? & Hval).
    { lia. }
    { destruct fuel; [simpl in *; lia|lia]. }
    { by constructor. }
    split; [done|]. split; [done|].
    rewrite Hval, digits_value_cons, Hv, len_cons, Z.pow_add_r by lia.
    rewrite Hdm at 3. ring.
Qed.

Lemma parse_show_uint w n : in_u w n → w ≤ 64 → parse_uint w (show_uint n) = Some n.
Proof.
  intros [Hn Hw] H64. apply parse_uint_iff.
  pose proof (Z.pow_le_mono_r 2 w 64 ltac:(lia) H64).
  destruct (show_digits_spec 20 n []) as (? & ? & Hv);
    [split; [lia|]; change (10 ^ Z.of_nat 20) with 100000000000000000000; lia|lia|done|].
  split; [done|]. split; [done|]. split; [|done].
  unfold show_uint. rewrite Hv. unfold digits_value. simpl. lia.
Qed.

Lemma parse_show_value k cfg :
  config_wf cfg → parse_value k (show_value (field_of k cfg)) = Some (field_of k cfg).
Proof.
  intros []. destruct k; simpl.
  - by rewrite of_to_chars.
  - rewrite parse_show_uint; [|unfold in_u in *; lia|lia]. simpl.
    rewrite (proj2 (Z.ltb_ge _ _)); [done|]. unfold in_u in *. lia.
  - by rewrite parse_show_uint.
  - by rewrite parse_show_uint.
  - by rewrite parse_show_uint.
  - by rewrite parse_show_uint.
  - by destruct (level (logging cfg)).
  - by destruct (metrics_enabled (metrics cfg)).
Qed.

(** *** Blanks, lines and keys of a printed configuration *)

Lemma drop_blanks_length s : (length (drop_blanks s) ≤ length s)%nat.
Proof. induction s as [|c s IH]; simpl; [lia|]. case_match; simpl; lia. Qed.

Lemma drop_blanks_same_length s : length (drop_blanks s) = length s → drop_blanks s = s.
Proof.
  destruct s as [|c s]; simpl; [done|]. case_match; [|done].
  pose proof (drop_blanks_length s). simpl. lia.
Qed.

Lemma trim_fixed s : trim s = s → drop_blanks s = s ∧ drop_blanks (reverse s) = reverse s.
Proof.
  unfold trim. intros E. apply (f_equal length) in E as El.
  rewrite length_reverse in El.
  pose proof (drop_blanks_length s). pose proof (drop_blanks_length (reverse (drop_blanks s))) as Hr.
  rewrite length_reverse in Hr.
  assert (drop_blanks s = s) as Hs by (apply drop_blanks_same_length; lia).
  rewrite Hs in *. split; [done|]. apply drop_blanks_same_length. rewrite length_reverse. lia.
Qed.

Lemma drop_blanks_app s t : drop_blanks s = s → s ≠ [] → drop_blanks (s ++ t) = s ++ t.
Proof.
  destruct s as [|c s]; [done|]. simpl. destruct (is_blank c) eqn:E; [|done].
  intros H. pose proof (drop_blanks_length s) as Hl. rewrite H in Hl. simpl in Hl. lia.
Qed.

Lemma trim_key_line key v :
  key ≠ [] → trim key = key → trim v = v →
  trim (key ++ "="%char :: v) = key ++ "="%char :: v.
Proof.
  intros Hk [Hk1 _]%trim_fixed [_ Hv]%trim_fixed. unfold trim.
  rewrite drop_blanks_app by done. rewrite reverse_app, reverse_cons, <- app_assoc.
  assert (drop_blanks (reverse v ++ ["="%char] ++ reverse key)
          = reverse v ++ ["="%char] ++ reverse key) as ->.
  { destruct (decide (reverse v = [])) as [->|]; [done|]. by apply drop_blanks_app. }
  rewrite app_assoc, reverse_app, reverse_involutive, reverse_app, reverse_involutive.
  reflexivity.
Qed.

Lemma split_at_first c s t : c ∉ s → split_at c (s ++ c :: t) = Some (s, t).
Proof.
  induction s as [|d s IH]; simpl; intros Hc.
  - by rewrite bool_decide_eq_true_2.
  - rewrite elem_of_cons in Hc. rewrite bool_decide_eq_false_2 by naive_solver.
    by rewrite IH by naive_solver.
Qed.

Lemma getlines_line cur s t :
  ch_newline ∉ s → getlines cur (s ++ ch_newline :: t) = (reverse cur ++ s) :: getlines [] t.
Proof.
  revert cur. induction s as [|d s IH]; intros cur Hs; cbn [app getlines].
  - by rewrite bool_decide_eq_true_2, app_nil_r.
  - rewrite elem_of_cons in Hs. rewrite bool_decide_eq_false_2 by (intros ->; tauto).
    rewrite IH by tauto. by rewrite reverse_cons, <- app_assoc.
Qed.

Lemma getlines_lines lines :
  Forall (λ l, ch_newline ∉ l) lines →
  getlines [] (mjoin ((λ l, l ++ [ch_newline]) <$> lines)) = lines.
Proof.
  induction 1 as [|l lines Hl _ IH]; [done|].
  rewrite fmap_cons. cbn [mjoin list_join]. rewrite <- app_assoc. simpl app.
  rewrite getlines_line by done. simpl. f_equal. exact IH.
Qed.

Lemma digits_chars s :
  Forall (λ c, is_digit c = true) s → (ch_newline ∉ s) ∧ trim s = s.
Proof.
  intros Hs. assert (∀ c, is_digit c = true → is_blank c = false) as Hb.
  { intros c Hc. unfold is_blank. rewrite !bool_decide_eq_false_2; [done|..];
      intros ->; done. }
  split.
  - intros Hin. eapply Forall_forall in Hs; [|exact Hin]. done.
  - assert (∀ t, Forall (λ c, is_digit c = true) t → drop_blanks t = t) as Hd.
    { intros t [|c t' Hc _]; simpl; [done|]. by rewrite Hb. }
    unfold trim. rewrite (Hd s) by done. rewrite Hd by by apply Forall_reverse.
    apply reverse_involutive.
Qed.

(** What a file can say of a host name. *)
Definition host_printable (cfg : ServerConfig) : Prop :=
  trim (to_chars (host (listen cfg))) = to_chars (host (listen cfg)) ∧
  ch_newline ∉ to_chars (host (listen cfg)).

Lemma show_value_chars cfg k :
  config_wf cfg → host_printable cfg →
  trim (show_value (field_of k cfg)) = show_value (field_of k cfg) ∧
  ch_newline ∉ show_value (field_of k cfg).
Proof.
  intros Hwf [Ht Hn].
  assert (∀ n, 0 ≤ n < 2 ^ 64 → trim (show_uint n) = show_uint n ∧ ch_newline ∉ show_uint n) as Hu.
  { intros n Hb. destruct (show_digits_spec 20 n []) as (Hd & _);
      [change (10 ^ Z.of_nat 20) with 100000000000000000000; lia|lia|done|].
    by apply digits_chars in Hd as [??]. }
  destruct Hwf as [H1 H2 H3 H4 H5]; unfold in_u in *.
  destruct k; simpl; try (apply Hu; lia); try done.
  - destruct (level (logging cfg)); (split; [reflexivity|]);
      apply (bool_decide_unpack _); by vm_compute.
  - destruct (metrics_enabled (metrics cfg)); (split; [reflexivity|]);
      apply (bool_decide_unpack _); by vm_compute.
Qed.

Lemma key_name_chars k :
  to_chars (key_name k) ≠ [] ∧ trim (to_chars (key_name k)) = to_chars (key_name k) ∧
  ("="%char ∉ to_chars (key_name k)) ∧ (ch_newline ∉ to_chars (key_name k)) ∧
  head (to_chars (key_name k)) ≠ Some "#"%char ∧ head (to_chars (key_name k)) ≠ Some ";"%char.
Proof.
  repeat split; destruct k; try done;
    match goal with |- _ ∉ _ => apply (bool_decide_unpack _); by vm_compute end.
Qed.

Lemma config_line_no_newline cfg k :
  config_wf cfg → host_printable cfg → ch_newline ∉ config_line cfg k.
Proof.
  intros Hwf Hh. destruct (show_value_chars cfg k Hwf Hh) as [_ Hn].
  destruct (key_name_chars k) as (_ & _ & _ & Hk & _).
  unfold config_line. rewrite elem_of_app, elem_of_cons. intros [?|[?|?]]; done.
Qed.

Lemma load_config_line cfg c n k :
  config_wf cfg → host_printable cfg →
  ∃ c', load_line_step c n (config_line cfg k) = Val c' ∧ updates k (field_of k cfg) c c'.
Proof.
  intros Hwf Hh. destruct (show_value_chars cfg k Hwf Hh) as [Hv _].
  destruct (key_name_chars k) as (Hne & Ht & Heq & _ & Hc1 & Hc2).
  destruct (apply_key_value_ok c k _ _ (parse_show_value k cfg Hwf)) as (c' & Ha & Hu).
  exists c'. split; [|done]. unfold load_line_step, config_line.
  rewrite trim_key_line by done. unfold parse_kv. rewrite split_at_first by done.
  rewrite Ht, Hv, bool_decide_eq_false_2 by done. rewrite Ha.
  destruct (to_chars (key_name k)) as [|x s]; [done|]. simpl in *.
  rewrite !bool_decide_eq_false_2 by congruence. done.
Qed.

Lemma load_config_lines cfg ks c n :
  config_wf cfg → host_printable cfg →
  ∃ c', load_lines c n (config_line cfg <$> ks) = Val c' ∧
    ∀ k, field_of k c' = if decide (k ∈ ks) then field_of k cfg else field_of k c.
Proof.
  intros Hwf Hh. revert c n. induction ks as [|k ks IH]; intros c n.
  { exists c. split; [done|]. intros k. rewrite decide_False; [done|apply not_elem_of_nil]. }
  destruct (load_config_line cfg c (n + 1) k Hwf Hh) as (c1 & E & Hk & Ho).
  destruct (IH c1 (n + 1)) as (c' & E' & Hf).
  exists c'. split; [by rewrite fmap_cons; simpl; rewrite E|].
  intros j. rewrite Hf. destruct (decide (j ∈ ks)).
  - rewrite decide_True; [done|by right].
  - destruct (decide (j = k)) as [->|].
    + rewrite decide_True; [done|by left].
    + rewrite decide_False; [by apply Ho|]. by rewrite elem_of_cons; intros [|].
Qed.

Lemma load_env_empty getenv cfg keys :
  (∀ v, getenv v = None) → load_env getenv cfg keys = Val cfg.
Proof. intros H. induction keys as [|[e k] keys IH]; simpl; [done|]. by rewrite H. Qed.

(** ** Properties *)

(** C26. A load is a function of the last value assigned to each key: when it
    succeeds, every field is what the last assignment to its key denotes, the
    lines of the file coming first and the environment overriding them, and
    keys never assigned keep the default. *)
Theorem load_last_assignment_wins open_file getenv path text cfg k :
  open_file path = Some text →
  load_config_from_file open_file getenv path = Val cfg →
  Some (field_of k cfg) =
    match last_value k (assignments text getenv) with
    | Some v => parse_value k v
    | None => Some (field_of k default_config)
    end.
Proof. intros Ho Hl. by eapply assigned_field, load_assigned. Qed.

Definition one_line (line : string) : string := of_chars (to_chars line ++ [ch_newline]).

(** A small file, and an environment with one override. *)
Definition sample_text : string :=
  one_line "# sample" +:+ one_line " listen.port = 80" +:+ one_line "listen.port=8080"
  +:+ one_line "timeouts.idle_ms=5".
Definition sample_env (name : string) : option string :=
  if decide (name = "TCP_SERVER__timeouts__idle_ms") then Some "9" else None.

Lemma load_last_assignment_wins_witness :
  ∃ cfg, load_config_from_file (λ _, Some sample_text) sample_env "server.conf" = Val cfg ∧
    Some (field_of ListenPort cfg) = Some (VNumber 8080) ∧
    Some (field_of TimeoutsIdleMs cfg) = Some (VNumber 9).
Proof.
  eexists. split; [vm_compute; reflexivity|]. split.
  - rewrite (load_last_assignment_wins (λ _, Some sample_text) sample_env "server.conf"
      sample_text _ ListenPort); [by vm_compute|done|by vm_compute].
  - rewrite (load_last_assignment_wins (λ _, Some sample_text) sample_env "server.conf"
      sample_text _ TimeoutsIdleMs); [by vm_compute|done|by vm_compute].
Defined.

(** C27. Nothing wraps on the way from text to field: a load succeeds only when
    every number assigned, by a line of the file or by the environment, is a
    text of decimal digits whose value is in the range of its field, and the
    field then holds exactly the value of the text assigned last. So every
    number of a loaded configuration is in the range of the field's type. *)
Theorem load_config_wf open_file getenv path cfg :
  load_config_from_file open_file getenv path = Val cfg →
  config_wf cfg ∧
  ∃ text, open_file path = Some text ∧
    ∀ k w v, number_width k = Some w → (to_chars (key_name k), v) ∈ assignments text getenv →
      denotes w v ∧
      (last_value k (assignments text getenv) = Some v → field_of k cfg = VNumber (digits_value v)).
Proof.
  intros Hl. destruct (open_file path) as [text|] eqn:Ho.
  - pose proof (load_assigned _ _ _ _ _ Ho Hl) as Ha.
    split; [by eapply assigned_wf, default_config_wf|]. exists text. split; [done|]. intros k w v Hw Hin.
    destruct (assigned_accepted _ _ _ _ _ Ha Hin) as [x Hp].
    destruct (parse_number _ _ _ _ Hw Hp) as [Hd ->]. split; [done|].
    intros Hlast. pose proof (assigned_field _ _ _ k Ha) as E. rewrite Hlast, Hp in E. by injection E.
  - unfold load_config_from_file in Hl. by rewrite Ho in Hl.
Qed.

Lemma load_config_wf_witness :
  ∃ cfg, load_config_from_file (λ _, Some sample_text) sample_env "server.conf" = Val cfg ∧
    config_wf cfg ∧
    ∃ text, Some sample_text = Some text ∧
      ∀ k w v, number_width k = Some w → (to_chars (key_name k), v) ∈ assignments text sample_env →
        denotes w v ∧
        (last_value k (assignments text sample_env) = Some v → field_of k cfg = VNumber (digits_value v)).
Proof.
  eexists. split; [vm_compute; reflexivity|].
  apply (load_config_wf (λ _, Some sample_text) sample_env "server.conf"). by vm_compute.
Defined.

(** A port beyond 65535 is not cut down to 16 bits. *)
Example port_does_not_wrap :
  load_config_from_file (λ _, Some (one_line "listen.port = 65616")) sample_env "server.conf"
  = Unexpected (mkLoadError InvalidValue "listen.port must be 0..65535" 1).
Proof. by vm_compute. Qed.

(** C28. Errors point at their cause: a failed load of a file that opens either
    reports the 1-based number of the first line that is not accepted, all
    earlier lines having been applied; or, the whole file having been accepted,
    it reports line 0, names the first variable of the environment, in the order
    of [env_keys], whose value its key does not accept, and gives the reason of
    that refusal, all earlier variables having been applied. *)
Theorem load_error_located open_file getenv path text e :
  open_file path = Some text →
  load_config_from_file open_file getenv path = Unexpected e →
  let lines := getlines [] (to_chars text) in
  (∃ i line c, lines !! i = Some line ∧ load_line e = Z.of_nat i + 1 ∧
     load_lines default_config 0 (take i lines) = Val c ∧
     load_line_step c (load_line e) line = Unexpected e) ∨
  (∃ cf, load_lines default_config 0 lines = Val cf ∧
     ∃ i env k v c err, env_keys !! i = Some (env, key_name k) ∧
       load_env getenv cf (take i env_keys) = Val c ∧ getenv env = Some v ∧
       parse_value k (to_chars v) = None ∧
       apply_key_value c (to_chars (key_name k)) (to_chars v) = (Some err, c) ∧
       e = mkLoadError InvalidValue ("env " +:+ env +:+ ": " +:+ load_message err) 0).
Proof.
  intros Ho. unfold load_config_from_file. rewrite Ho. cbv zeta.
  destruct (load_lines _ _ _) as [c|e'] eqn:El.
  - intros He. right. exists c. split; [done|]. by apply load_env_err in He.
  - intros [= ->]. left. apply load_lines_err in El as (i & line & c & Hi & Ht & Hs).
    pose proof (load_line_step_err _ _ _ _ Hs) as Hn.
    exists i, line, c. split; [done|]. split; [lia|]. split; [done|]. by rewrite Hn.
Qed.

(** Two variables that are not accepted, the one of [listen.port] first. *)
Definition bad_env (name : string) : option string :=
  if decide (name = "TCP_SERVER__listen__port") then Some "65536"
  else if decide (name = "TCP_SERVER__metrics__enabled") then Some "maybe" else None.

Lemma load_error_located_witness :
  ∃ e i k, load_config_from_file (λ _, Some sample_text) bad_env "f" = Unexpected e ∧
    env_keys !! i = Some ("TCP_SERVER__listen__port", key_name k) ∧
    e = mkLoadError InvalidValue "env TCP_SERVER__listen__port: listen.port must be 0..65535" 0.
Proof.
  exists (mkLoadError InvalidValue "env TCP_SERVER__listen__port: listen.port must be 0..65535" 0), 1%nat, ListenPort.
  split; [by vm_compute|]. split; [done|].
  destruct (load_error_located (λ _, Some sample_text) bad_env "f" sample_text
    (mkLoadError InvalidValue "env TCP_SERVER__listen__port: listen.port must be 0..65535" 0))
    as [(i & line & c & Hi & Hl & _)|(cf & _ & _)]; [done|by vm_compute|exfalso; simpl in Hl; lia|done].
Defined.

(** C25. Print then load: a file that spells out a well-typed configuration,
    whose host has no blanks around it and no newline, loads back to exactly
    that configuration when the environment overrides nothing. *)
Theorem print_load_roundtrip cfg getenv path :
  config_wf cfg → host_printable cfg → (∀ name, getenv name = None) →
  load_config_from_file (λ _, Some (print_config cfg)) getenv path = Val cfg.
Proof.
  intros Hwf Hh Henv. unfold load_config_from_file, print_config. rewrite to_of_chars.
  replace ((λ k, config_line cfg k ++ [ch_newline]) <$> all_keys)
    with ((λ l, l ++ [ch_newline]) <$> (config_line cfg <$> all_keys)) by done.
  rewrite getlines_lines.
  - destruct (load_config_lines cfg all_keys default_config 0 Hwf Hh) as (c & -> & Hf).
    rewrite load_env_empty by done. f_equal. apply field_of_ext. intros k. rewrite Hf.
    by rewrite decide_True by apply elem_all_keys.
  - apply Forall_fmap, Forall_forall. intros k _. by apply config_line_no_newline.
Qed.

Definition sample_config : ServerConfig :=
  mkConfig (mkListen "127.0.0.1" 8080) (mkLimits 64 65536) (mkTimeouts 30000) (mkRuntime 4)
    (mkLogging Warn) (mkMetrics true).

Lemma print_load_roundtrip_witness :
  load_config_from_file (λ _, Some (print_config sample_config)) (λ _, None) "f"
    = Val sample_config.
Proof.
  apply (print_load_roundtrip sample_config (λ _, None) "f").
  - by constructor.
  - split; [reflexivity|]. apply (bool_decide_unpack _). by vm_compute.
  - done.
Defined.

(** Numbers: [parse_uint] accepts exactly the non-empty strings of decimal
    digits whose value fits the width, and returns that value; signs, blanks,
    other characters and overflowing values are refused. *)
Theorem parse_uint_accepts w s n :
  parse_uint w s = Some n ↔
  s ≠ [] ∧ Forall (λ c, is_digit c = true) s ∧ digits_value s = n ∧ n < 2 ^ w.
Proof. apply parse_uint_iff. Qed.

(** One assignment: a supported key with an acceptable value replaces
    exactly the field of that key; a supported key with another value is an
    [InvalidValue] and an unsupported key an [UnknownKey], and both leave the
    configuration alone. *)
Theorem apply_key_value_spec cfg key v :
  match key_of key with
  | Some k =>
      match parse_value k v with
      | Some x => ∃ cfg', apply_key_value cfg key v = (None, cfg') ∧ updates k x cfg cfg'
      | None => ∃ msg, apply_key_value cfg key v = (Some (mkLoadError InvalidValue msg 0), cfg)
      end
  | None => apply_key_value cfg key v
              = (Some (mkLoadError UnknownKey ("unknown key: " +:+ of_chars key) 0), cfg)
  end.
Proof.
  destruct (key_of key) as [k|] eqn:Hk.
  - apply key_of_Some in Hk as ->. destruct (parse_value k v) as [x|] eqn:Hp.
    + by apply apply_key_value_ok.
    + by apply apply_key_value_invalid.
  - by apply apply_key_value_unknown, key_of_None.
Qed.
