(* ===== verification/ConfigValidator.v ===== *)
(** * Configuration validator (src/config/config_validator.cpp)

    The checks on a loaded configuration, and what they give the frame codec. *)

From S2P Require Import Prelude Vector FrameCodec Config ConfigLoader.

Inductive ValidateErrorCode := MissingRequiredValue | OutOfRange | InvalidCombination.
Record ConfigValidateError := mkValidateError {
  validate_code : ValidateErrorCode;
  validate_message : string;
}.

#[export] Instance ValidateErrorCode_eq_dec : EqDecision ValidateErrorCode.
Proof. solve_decision. Defined.
#[export] Instance ConfigValidateError_eq_dec : EqDecision ConfigValidateError.
Proof. solve_decision. Defined.

Definition missing (msg : string) : ConfigValidateError :=
  mkValidateError MissingRequiredValue msg.
Definition out_of_range (msg : string) : ConfigValidateError :=
  mkValidateError OutOfRange msg.

Definition k_max_reasonable_message_bytes : Z := 1024 * 1024 * 1024.

Definition validate_config (cfg : ServerConfig) : option ConfigValidateError :=
  if port (listen cfg) =? 0 then Some (missing "listen.port is required and must be > 0")
  else if max_connections (limits cfg) =? 0 then
    Some (missing "limits.max_connections is required and must be > 0")
  else if max_message_bytes (limits cfg) =? 0 then
    Some (missing "limits.max_message_bytes is required and must be > 0")
  else if idle_ms (timeouts cfg) =? 0 then
    Some (missing "timeouts.idle_ms is required and must be > 0")
  else if worker_threads (runtime cfg) =? 0 then
    Some (missing "runtime.worker_threads is required and must be > 0")
  else if k_max_reasonable_message_bytes <? max_message_bytes (limits cfg) then
    Some (out_of_range "limits.max_message_bytes is unreasonably large (> 1 GiB)")
  else None.

Lemma validate_config_None cfg :
  validate_config cfg = None ↔
  port (listen cfg) ≠ 0 ∧ max_connections (limits cfg) ≠ 0 ∧
  max_message_bytes (limits cfg) ≠ 0 ∧ idle_ms (timeouts cfg) ≠ 0 ∧
  worker_threads (runtime cfg) ≠ 0 ∧ max_message_bytes (limits cfg) ≤ 2 ^ 30.
Proof.
  unfold validate_config, k_max_reasonable_message_bytes.
  change (1024 * 1024 * 1024) with (2 ^ 30).
  repeat (case_match; [split; [done|lia]|]). split; [lia|done].
Qed.

(** ** Properties *)

(** A configuration that loads and validates is usable: a TCP port, at
    least one connection, one worker and one millisecond, and a message limit
    between 1 byte and 1 GiB; and conversely every well-typed configuration in
    these ranges validates. *)
Theorem validate_config_accepts cfg :
  config_wf cfg →
  validate_config cfg = None ↔
  1 ≤ port (listen cfg) ≤ 65535 ∧ 1 ≤ max_connections (limits cfg) ≤ 4294967295 ∧
  1 ≤ max_message_bytes (limits cfg) ≤ 1073741824 ∧
  1 ≤ idle_ms (timeouts cfg) ≤ 4294967295 ∧
  1 ≤ worker_threads (runtime cfg) ≤ 4294967295.
Proof. intros []. rewrite validate_config_None. unfold in_u in *. lia. Qed.

Lemma validate_config_accepts_witness : validate_config sample_config = None.
Proof. apply (validate_config_accepts sample_config); [by constructor|by simpl]. Defined.

(** C29. With the limit of a validated configuration the decoder is safe on
    targets with a 32-bit [size_t] too: it returns, and completes exactly the
    frames within the limit. *)
Theorem validated_limit_decodes t cfg buffer :
  32 ≤ size_bits t → validate_config cfg = None →
  ∃ r, try_decode_frame t buffer (max_message_bytes (limits cfg)) = Ret r ∧
    ∀ p, r = mkResult Complete (4 + len p) p ↔
      len p ≤ max_message_bytes (limits cfg) ∧ ∃ rest, buffer = frame p ++ rest.
Proof.
  intros Ht (_ & _ & _ & _ & _ & Hm)%validate_config_None.
  assert (effective_max_payload (max_message_bytes (limits cfg))
          = max_message_bytes (limits cfg)) as Hcap
    by (unfold effective_max_payload, uint32_max; lia).
  assert (fits t (max_message_bytes (limits cfg))) as Hf.
  { split; [lia|]. rewrite Hcap. unfold max_size.
    pose proof (Z.pow_le_mono_r 2 31 (size_bits t - 1) ltac:(lia) ltac:(lia)). lia. }
  eexists. split; [by apply try_decode_frame_is_ref|].
  intros p. rewrite decode_ref_complete_iff, Hcap.
  split; [by intros (_ & ? & ?)|by intros (? & ?)].
Qed.

Lemma validated_limit_decodes_witness :
  ∃ r, try_decode_frame ilp32 [xff; xff; xff; xff] (max_message_bytes (limits sample_config))
         = Ret r.
Proof.
  destruct (validated_limit_decodes ilp32 sample_config [xff; xff; xff; xff])
    as (r & Hr & _); [done|by vm_compute|]. by exists r.
Defined.
