(* ===== verification/IdleTimeout.v ===== *)
(** * Idle timeouts (src/net/idle_timeout_manager.cpp)

    [IdleTimeoutManager]: the last activity per socket, and the selection of
    idle ones.  Time points are nanosecond counts of the steady clock in a
    signed 64-bit representation, whose overflow is undefined. *)

From S2P Require Import Prelude.

Record IdleTimeoutManager := mkIdle {
  idle_after : Z;              (* milliseconds *)
  last_activity : gmap Z Z;    (* socket to time point *)
}.

(** [IdleTimeoutManager(idle_after)]. *)
Definition idle_manager (ms : Z) : IdleTimeoutManager := mkIdle ms ∅.

Definition register_connection (socket now : Z) (m : IdleTimeoutManager) : IdleTimeoutManager :=
  mkIdle (idle_after m) (<[socket := now]> (last_activity m)).

Definition unregister_connection (socket : Z) (m : IdleTimeoutManager) : IdleTimeoutManager :=
  mkIdle (idle_after m) (delete socket (last_activity m)).

Definition touch_activity (socket now : Z) (m : IdleTimeoutManager) : IdleTimeoutManager :=
  match last_activity m !! socket with
  | Some _ => mkIdle (idle_after m) (<[socket := now]> (last_activity m))
  | None => m
  end.

(** A signed 64-bit result, undefined when it does not fit. *)
Definition int64 (z : Z) : outcome Z := if decide (in_s 64 z) then Ret z else UB.

(** [now - last >= idle_after]: the difference in nanoseconds against the
    milliseconds converted to nanoseconds. *)
Definition idle_for (now last idle : Z) : outcome bool :=
  elapsed ← int64 (now - last);
  limit ← int64 (idle * 1000000);
  Ret (limit <=? elapsed).

Section poll.
Context `{!MapOrder Z}.

(** The loop over the iterator: an expired entry is erased and its handle
    pushed to [expired]. *)
Fixpoint poll_loop (now idle : Z) (entries : list (Z * Z)) (expired : list Z)
    (m : gmap Z Z) : outcome (list Z * gmap Z Z) :=
  match entries with
  | [] => Ret (expired, m)
  | (socket, last) :: entries' =>
      b ← idle_for now last idle;
      if (b : bool) then poll_loop now idle entries' (expired ++ [socket]) (delete socket m)
      else poll_loop now idle entries' expired m
  end.

Definition poll_expired (now : Z) (m : IdleTimeoutManager)
    : outcome (list Z * IdleTimeoutManager) :=
  if idle_after m =? 0 then Ret ([], m)
  else
    r ← poll_loop now (idle_after m) (map_order (last_activity m)) [] (last_activity m);
    Ret (r.1, mkIdle (idle_after m) r.2).

(** ** A run of the event loop *)

Inductive idle_op :=
| OpRegister (socket : Z) | OpUnregister (socket : Z) | OpTouch (socket : Z) | OpPoll.

(** One call at time [now]: what it returns and the manager afterwards. *)
Definition idle_call (now : Z) (o : idle_op) (m : IdleTimeoutManager)
    : outcome (list Z * IdleTimeoutManager) :=
  match o with
  | OpRegister s => Ret ([], register_connection s now m)
  | OpUnregister s => Ret ([], unregister_connection s m)
  | OpTouch s => Ret ([], touch_activity s now m)
  | OpPoll => poll_expired now m
  end.

Fixpoint idle_run (calls : list (Z * idle_op)) (m : IdleTimeoutManager)
    : outcome (list (list Z) * IdleTimeoutManager) :=
  match calls with
  | [] => Ret ([], m)
  | (now, o) :: calls' =>
      r ← idle_call now o m;
      rs ← idle_run calls' r.2;
      Ret (r.1 :: rs.1, rs.2)
  end.
End poll.

(** ** The loop in closed form *)

(** Tracked times are not after [now], and the limit is that of a
    configuration ([timeouts.idle_ms] is a [uint32_t]). *)
Definition clock_ok (now : Z) (m : IdleTimeoutManager) : Prop :=
  0 ≤ now < 2 ^ 63 ∧ in_u 32 (idle_after m) ∧
  map_Forall (λ _ t, 0 ≤ t ≤ now) (last_activity m).

Definition is_idle (now idle : Z) (kv : Z * Z) : bool := idle * 1000000 <=? now - kv.2.

Lemma idle_for_ok now last idle :
  0 ≤ last ≤ now → now < 2 ^ 63 → in_u 32 idle →
  idle_for now last idle = Ret (is_idle now idle (0, last)).
Proof.
  intros ?? [??]. unfold idle_for, int64.
  rewrite !decide_True; [done|unfold in_s; simpl; lia..].
Qed.

Lemma poll_loop_eq now idle entries expired (m : gmap Z Z) :
  now < 2 ^ 63 → in_u 32 idle → Forall (λ kv, 0 ≤ kv.2 ≤ now) entries →
  poll_loop now idle entries expired m =
    Ret (expired ++ (filter (λ kv, is_idle now idle kv = true) entries).*1,
         foldl (λ (m : gmap Z Z) kv, delete kv.1 m) m (filter (λ kv, is_idle now idle kv = true) entries)).
Proof.
  intros Hnow Hidle Hf. revert expired m.
  induction Hf as [|[s t] entries Ht _ IH]; intros expired m; simpl.
  { by rewrite app_nil_r. }
  rewrite idle_for_ok by done. rewrite outcome_ret_bind, filter_cons.
  change (is_idle now idle (0, t)) with (is_idle now idle (s, t)).
  destruct (is_idle now idle (s, t)); simpl; rewrite IH; [|done].
  by rewrite <- app_assoc.
Qed.

Lemma foldl_delete_lookup (l : list (Z * Z)) (m : gmap Z Z) k :
  foldl (λ (m : gmap Z Z) kv, delete kv.1 m) m l !! k = if decide (k ∈ l.*1) then None else m !! k.
Proof.
  revert m. induction l as [|[s t] l IH]; intros m.
  { rewrite decide_False; [done|apply not_elem_of_nil]. }
  rewrite fmap_cons. cbn [foldl fst]. rewrite IH. destruct (decide (k ∈ l.*1)) as [Hin|Hin].
  - rewrite decide_True; [done|by right].
  - destruct (decide (k = s)) as [->|Hne].
    + rewrite decide_True by by left. apply lookup_delete_eq.
    + rewrite decide_False by (by rewrite elem_of_cons; intros [|]).
      by apply lookup_delete_ne.
Qed.

Section poll_spec.
Context `{!MapOrder Z}.

Lemma poll_expired_closed now m :
  clock_ok now m → idle_after m ≠ 0 →
  poll_expired now m =
    Ret ((filter (λ kv, is_idle now (idle_after m) kv = true) (map_order (last_activity m))).*1,
         mkIdle (idle_after m)
           (filter (λ kv, is_idle now (idle_after m) kv = false) (last_activity m))).
Proof.
  intros (Hn & Hi & Hm) H0. unfold poll_expired.
  rewrite (proj2 (Z.eqb_neq _ _)) by done.
  rewrite poll_loop_eq; [|lia|done|].
  - simpl. do 3 f_equal. apply map_eq. intros k. rewrite foldl_delete_lookup.
    case_decide as Hk.
    + symmetry. apply map_lookup_filter_None. right. intros t Ht.
      apply list_elem_of_fmap in Hk as ([k' t'] & -> & Hf).
      apply list_elem_of_filter in Hf as [Hf Hin%elem_of_map_order].
      simplify_eq/=. by rewrite Hf.
    + destruct (last_activity m !! k) as [t|] eqn:Ht.
      * symmetry. apply map_lookup_filter_Some. split; [done|].
        apply not_true_is_false. intros Hi'. apply Hk.
        apply list_elem_of_fmap. exists (k, t). split; [done|].
        apply list_elem_of_filter. by rewrite elem_of_map_order.
      * symmetry. apply map_lookup_filter_None. by left.
  - apply Forall_forall. intros [k t] Hin%elem_of_map_order. by eapply Hm in Hin.
Qed.
End poll_spec.

Section poll_props.
Context `{!MapOrder Z}.

Lemma poll_expired_lookup now m :
  clock_ok now m → idle_after m ≠ 0 →
  ∃ expired m', poll_expired now m = Ret (expired, m') ∧
    idle_after m' = idle_after m ∧ NoDup expired ∧
    (∀ s, s ∈ expired ↔ ∃ t, last_activity m !! s = Some t ∧
            idle_after m * 1000000 ≤ now - t) ∧
    (∀ s, last_activity m' !! s = if decide (s ∈ expired) then None else last_activity m !! s).
Proof.
  intros Hc H0. rewrite poll_expired_closed by done.
  set (expired := (filter _ (map_order _)).*1).
  assert (∀ s, s ∈ expired ↔ ∃ t, last_activity m !! s = Some t ∧
            idle_after m * 1000000 ≤ now - t) as Hin.
  { intros s. unfold expired. rewrite list_elem_of_fmap. split.
    - intros ([k t] & -> & [Hi Hm%elem_of_map_order]%list_elem_of_filter).
      exists t. split; [done|]. by apply Z.leb_le in Hi.
    - intros (t & Ht & Hi). exists (s, t). split; [done|].
      apply list_elem_of_filter. split; [by apply Z.leb_le|by apply elem_of_map_order]. }
  eexists _, _. split; [done|]. split; [done|]. split.
  { unfold expired. apply NoDup_fmap_filter, NoDup_map_order. }
  split; [done|]. intros s. simpl. case_decide as Hs.
  - apply Hin in Hs as (t & Ht & Hi). apply map_lookup_filter_None. right.
    intros t' ?. simplify_eq. apply not_false_iff_true. by apply Z.leb_le.
  - destruct (last_activity m !! s) as [t|] eqn:Ht.
    + apply map_lookup_filter_Some. split; [done|]. apply Z.leb_gt.
      destruct (Z.le_gt_cases (idle_after m * 1000000) (now - t)); [|simpl; lia].
      destruct Hs. apply Hin. eauto.
    + apply map_lookup_filter_None. by left.
Qed.

(** *** One socket at a time *)

(** The life of socket [s] under the calls: whether each call evicts it, and
    its last activity in the end. *)
Fixpoint socket_run (s idle : Z) (st : option Z) (calls : list (Z * idle_op))
    : list bool * option Z :=
  match calls with
  | [] => ([], st)
  | (now, o) :: calls' =>
      let '(evicted, st') :=
        match o with
        | OpRegister s' => (false, if decide (s' = s) then Some now else st)
        | OpUnregister s' => (false, if decide (s' = s) then None else st)
        | OpTouch s' => (false, if decide (s' = s) then (λ _, now) <$> st else st)
        | OpPoll =>
            match st with
            | Some t =>
                if negb (idle =? 0) && (idle * 1000000 <=? now - t) then (true, None)
                else (false, st)
            | None => (false, st)
            end
        end in
      let '(evs, final) := socket_run s idle st' calls' in
      (evicted :: evs, final)
  end.

(** Calls at times of a steady clock that started at [from]. *)
Fixpoint steady (from : Z) (calls : list (Z * idle_op)) : Prop :=
  match calls with
  | [] => True
  | (now, _) :: calls' => from ≤ now < 2 ^ 63 ∧ steady now calls'
  end.

Lemma idle_call_ok now o m :
  clock_ok now m →
  ∃ r m', idle_call now o m = Ret (r, m') ∧ clock_ok now m' ∧
    idle_after m' = idle_after m ∧
    ∀ s calls, socket_run s (idle_after m) (last_activity m !! s) ((now, o) :: calls) =
      let '(evs, final) := socket_run s (idle_after m) (last_activity m' !! s) calls in
      (bool_decide (s ∈ r) :: evs, final).
Proof.
  intros Hc. pose proof Hc as (Hn & Hi & Hm). destruct o as [s'|s'|s'|]; simpl.
  - eexists _, _. split; [done|]. split; [|split; [done|]].
    + split; [done|]. split; [done|]. apply map_Forall_insert_2; [lia|done].
    + intros s calls. rewrite bool_decide_eq_false_2 by apply not_elem_of_nil.
      cbn. rewrite lookup_insert. done.
  - eexists _, _. split; [done|]. split; [|split; [done|]].
    + split; [done|]. split; [done|]. by apply map_Forall_delete.
    + intros s calls. rewrite bool_decide_eq_false_2 by apply not_elem_of_nil.
      cbn. rewrite lookup_delete. done.
  - eexists _, _. split; [done|]. unfold touch_activity.
    destruct (last_activity m !! s') as [t|] eqn:Ht; (split; [|split; [done|]]).
    + split; [done|]. split; [done|]. apply map_Forall_insert_2; [lia|done].
    + intros s calls. rewrite bool_decide_eq_false_2 by apply not_elem_of_nil.
      cbn. rewrite lookup_insert.
      case_decide; [subst; by rewrite Ht|done].
    + done.
    + intros s calls. rewrite bool_decide_eq_false_2 by apply not_elem_of_nil.
      case_decide; [subst; by rewrite Ht|done].
  - destruct (Z.eqb_spec (idle_after m) 0) as [E|E].
    + exists [], m. unfold poll_expired. rewrite E. simpl. split; [done|].
      split; [done|]. split; [done|]. intros s calls.
      by destruct (last_activity m !! s).
    + destruct (poll_expired_lookup now m Hc E) as (r & m' & Hp & Ha & _ & Hr & Hl).
      exists r, m'. split; [done|]. split; [|split; [done|]].
      * split; [done|]. rewrite Ha. split; [done|]. intros s t Hs.
        rewrite Hl in Hs. case_decide; [done|]. by eapply Hm.
      * intros s calls. rewrite Hl. pose proof (Hr s) as Hrs. simpl.
        destruct (last_activity m !! s) as [t|] eqn:Ht.
        -- destruct (Z.leb_spec (idle_after m * 1000000) (now - t)); simpl.
           ++ assert (s ∈ r) by (apply Hrs; eauto).
              by rewrite decide_True, bool_decide_eq_true_2 by done.
           ++ assert (s ∉ r) by (rewrite Hrs; intros (? & ? & ?); simplify_eq; lia).
              by rewrite decide_False, bool_decide_eq_false_2 by done.
        -- assert (s ∉ r) by (rewrite Hrs; intros (? & ? & ?); done).
           by rewrite decide_False, bool_decide_eq_false_2 by done.
Qed.

Lemma clock_ok_mono now now' m :
  clock_ok now m → now ≤ now' < 2 ^ 63 → clock_ok now' m.
Proof.
  intros (Hn & Hi & Hm) ?. split; [lia|]. split; [done|].
  eapply map_Forall_impl; [exact Hm|]. simpl. lia.
Qed.

Lemma idle_run_ok from calls m :
  clock_ok from m → steady from calls →
  ∃ rs m', idle_run calls m = Ret (rs, m') ∧
    ∀ s, socket_run s (idle_after m) (last_activity m !! s) calls =
         ((λ r, bool_decide (s ∈ r)) <$> rs, last_activity m' !! s).
Proof.
  revert from m. induction calls as [|[now o] calls IH]; intros from m Hc Hs.
  { exists [], m. done. }
  destruct Hs as [Hn Hs].
  destruct (idle_call_ok now o m) as (r & m1 & E & Hc1 & Ha & Hr);
    [by eapply clock_ok_mono|].
  destruct (IH now m1 Hc1 Hs) as (rs & m' & E' & Hrs). rewrite Ha in Hrs.
  exists (r :: rs), m'. split.
  - simpl. rewrite E, outcome_ret_bind. simpl. by rewrite E', outcome_ret_bind.
  - intros s. by rewrite Hr, Hrs.
Qed.

(** ** Properties *)

(** C31. What [poll_expired] selects, whatever the iteration order: exactly
    the tracked sockets idle for at least the limit, each once; they are
    dropped from the registry and the others stay. Nothing overflows. *)
Theorem poll_expired_spec now m :
  clock_ok now m → idle_after m ≠ 0 →
  ∃ expired m', poll_expired now m = Ret (expired, m') ∧
    idle_after m' = idle_after m ∧ NoDup expired ∧
    (∀ s, s ∈ expired ↔ ∃ t, last_activity m !! s = Some t ∧
            idle_after m * 1000000 ≤ now - t) ∧
    (∀ s, last_activity m' !! s = if decide (s ∈ expired) then None else last_activity m !! s).
Proof. apply poll_expired_lookup. Qed.

(** C30. Over a whole run of the event loop on a steady clock, the manager is
    the product of independent per-socket automata: no call is undefined, a
    poll returns a socket exactly when that socket's own registrations,
    touches and removals leave it idle for the limit, and a limit of zero
    never evicts. *)
Theorem idle_run_refines from calls ms :
  0 ≤ from < 2 ^ 63 → in_u 32 ms → steady from calls →
  ∃ rs m', idle_run calls (idle_manager ms) = Ret (rs, m') ∧
    ∀ s, socket_run s ms None calls =
         ((λ r, bool_decide (s ∈ r)) <$> rs, last_activity m' !! s).
Proof.
  intros Hf Hms Hs. destruct (idle_run_ok from calls (idle_manager ms)) as (rs & m' & E & Hr).
  - split; [done|]. split; [done|]. apply map_Forall_empty.
  - done.
  - exists rs, m'. split; [done|]. intros s. rewrite <- Hr. simpl. by rewrite lookup_empty.
Qed.
End poll_props.

Lemma poll_expired_spec_witness :
  ∃ expired m', @poll_expired (listing_order Z) 7000000
                  (mkIdle 5 (<[3 := 1000000]> (<[4 := 6000000]> ∅))) = Ret (expired, m') ∧
    (3 ∈ expired) ∧ (4 ∉ expired).
Proof.
  destruct (@poll_expired_spec (listing_order Z) 7000000
    (mkIdle 5 (<[3 := 1000000]> (<[4 := 6000000]> ∅)))) as (ex & m' & E & _ & _ & Hin & _).
  - split; [done|]. split; [done|].
    by apply map_Forall_insert_2; [|apply map_Forall_insert_2; [|apply map_Forall_empty]].
  - done.
  - exists ex, m'. split; [exact E|]. rewrite !Hin. split.
    + by exists 1000000.
    + intros (t & Ht & Hi). vm_compute in Ht. simplify_eq. simpl in Hi. lia.
Defined.

Lemma idle_run_refines_witness :
  ∃ rs m', @idle_run (listing_order Z)
      [(10, OpRegister 3); (4000000, OpTouch 3); (7000000, OpPoll); (9000010, OpPoll)]
      (idle_manager 5) = Ret (rs, m') ∧
    ((λ r, bool_decide (3 ∈ r)) <$> rs) = [false; false; false; true].
Proof.
  destruct (@idle_run_refines (listing_order Z) 0
    [(10, OpRegister 3); (4000000, OpTouch 3); (7000000, OpPoll); (9000010, OpPoll)] 5)
    as (rs & m' & E & Hr); [done|done|by simpl|].
  exists rs, m'. split; [exact E|]. specialize (Hr 3). vm_compute in Hr. by simplify_eq.
Defined.
