(* ===== verification/Metrics.v ===== *)
(** * Metrics (src/infra/metrics.cpp)

    The process-wide flag, counters and gauges.  Each function takes the lock
    for what it does to the registries.  [counter_add] and [gauge_set] read the
    flag before they take it, so a call is one step only where [configure] is
    not called at the same time: as long as it is not, a concurrent execution is
    a sequence of whole calls that interleaves those of the threads. *)

From S2P Require Import Prelude Config.

Record Metrics := mkMetricsState {
  enabled_flag : bool;
  counters : gmap string Z;    (* uint64_t *)
  gauges : gmap string Z;      (* int64_t *)
}.

(** The static initialisers. *)
Definition initial_metrics : Metrics := mkMetricsState false ∅ ∅.

Definition configure (cfg : MetricsConfig) (m : Metrics) : Metrics :=
  mkMetricsState (metrics_enabled cfg) (counters m) (gauges m).

Definition enabled (m : Metrics) : bool := enabled_flag m.

(** [counters_ref()[to_key(name)] += delta]: the entry is created at 0. *)
Definition counter_add (name : string) (delta : Z) (m : Metrics) : Metrics :=
  if negb (enabled m) then m
  else mkMetricsState (enabled_flag m)
         (<[name := wrap 64 (default 0 (counters m !! name) + delta)]> (counters m)) (gauges m).

Definition gauge_set (name : string) (value : Z) (m : Metrics) : Metrics :=
  if negb (enabled m) then m
  else mkMetricsState (enabled_flag m) (counters m) (<[name := value]> (gauges m)).

Definition counter_get (name : string) (m : Metrics) : Z :=
  match counters m !! name with None => 0 | Some n => n end.

Definition gauge_get (name : string) (m : Metrics) : Z :=
  match gauges m !! name with None => 0 | Some n => n end.

(** ** Sequences of calls *)

Inductive metrics_op :=
| Configure (cfg : MetricsConfig)
| CounterAdd (name : string) (delta : Z)
| GaugeSet (name : string) (value : Z).

Definition metrics_call (m : Metrics) (o : metrics_op) : Metrics :=
  match o with
  | Configure cfg => configure cfg m
  | CounterAdd name delta => counter_add name delta m
  | GaugeSet name value => gauge_set name value m
  end.

Definition metrics_run (ops : list metrics_op) (m : Metrics) : Metrics :=
  foldl metrics_call m ops.

(** What a name should read, from the calls alone: the sum of the additions
    and the last value set while the facade was enabled. *)
Fixpoint counted (name : string) (on : bool) (ops : list metrics_op) : Z :=
  match ops with
  | [] => 0
  | Configure cfg :: ops' => counted name (metrics_enabled cfg) ops'
  | CounterAdd n d :: ops' =>
      (if on && bool_decide (n = name) then d else 0) + counted name on ops'
  | GaugeSet _ _ :: ops' => counted name on ops'
  end.

Fixpoint gauged (name : string) (on : bool) (cur : Z) (ops : list metrics_op) : Z :=
  match ops with
  | [] => cur
  | Configure cfg :: ops' => gauged name (metrics_enabled cfg) cur ops'
  | CounterAdd _ _ :: ops' => gauged name on cur ops'
  | GaugeSet n v :: ops' =>
      gauged name on (if on && bool_decide (n = name) then v else cur) ops'
  end.

Lemma counter_get_add name n d m :
  counter_get name (counter_add n d m) =
    if enabled m && bool_decide (n = name) then wrap 64 (counter_get name m + d)
    else counter_get name m.
Proof.
  unfold counter_get, counter_add, enabled. destruct (enabled_flag m); [|done]. simpl.
  rewrite lookup_insert. by case_decide; case_bool_decide; subst.
Qed.

Lemma gauge_get_set name n v m :
  gauge_get name (gauge_set n v m) =
    if enabled m && bool_decide (n = name) then v else gauge_get name m.
Proof.
  unfold gauge_get, gauge_set, enabled. destruct (enabled_flag m); [|done]. simpl.
  rewrite lookup_insert. by case_decide; case_bool_decide; subst.
Qed.

Lemma counter_get_gauge_set name n v m :
  counter_get name (gauge_set n v m) = counter_get name m.
Proof. unfold counter_get, gauge_set. by destruct (negb _). Qed.

Lemma gauge_get_counter_add name n d m :
  gauge_get name (counter_add n d m) = gauge_get name m.
Proof. unfold gauge_get, counter_add. by destruct (negb _). Qed.

Lemma enabled_call m o :
  enabled (metrics_call m o) = match o with Configure cfg => metrics_enabled cfg | _ => enabled m end.
Proof.
  destruct o; simpl; unfold counter_add, gauge_set; [done|by destruct (negb _)..].
Qed.

Lemma metrics_run_get name ops m :
  wrap 64 (counter_get name (metrics_run ops m))
    = wrap 64 (counter_get name m + counted name (enabled m) ops) ∧
  gauge_get name (metrics_run ops m) = gauged name (enabled m) (gauge_get name m) ops.
Proof.
  revert m. induction ops as [|o ops IH]; intros m; simpl; [by rewrite Z.add_0_r|].
  destruct (IH (metrics_call m o)) as [Hc Hg].
  unfold metrics_run in *. rewrite Hc, Hg, enabled_call. clear.
  destruct o as [cfg|n d|n v]; simpl; [done|..].
  - rewrite counter_get_add, gauge_get_counter_add. split; [|done].
    destruct (_ && _); [|f_equal; lia]. rewrite wrap_add_wrap_l. f_equal. lia.
  - by rewrite counter_get_gauge_set, gauge_get_set.
Qed.

(** Stored counters are 64-bit values. *)
Definition metrics_wf (m : Metrics) : Prop := map_Forall (λ _ n, in_u 64 n) (counters m).

Lemma metrics_call_wf m o : metrics_wf m → metrics_wf (metrics_call m o).
Proof.
  intros Hm. destruct o; simpl; unfold counter_add, gauge_set; try case_match; try done.
  apply map_Forall_insert_2; [|done]. by apply wrap_in_u.
Qed.

Lemma metrics_run_wf ops m : metrics_wf m → metrics_wf (metrics_run ops m).
Proof.
  unfold metrics_run. revert m.
  induction ops as [|o ops IH]; intros m Hm; simpl; [done|]. by apply IH, metrics_call_wf.
Qed.

Lemma counter_get_range name m : metrics_wf m → in_u 64 (counter_get name m).
Proof.
  intros Hm. unfold counter_get. destruct (counters m !! name) eqn:E; [by eapply Hm|done].
Qed.

Lemma counter_add_comm n1 d1 n2 d2 m :
  counter_add n1 d1 (counter_add n2 d2 m) = counter_add n2 d2 (counter_add n1 d1 m).
Proof.
  unfold counter_add, enabled. destruct (enabled_flag m) eqn:E; simpl; rewrite ?E; [|done].
  f_equal. destruct (decide (n1 = n2)) as [->|Hne].
  - rewrite !lookup_insert_eq, !insert_insert_eq. simpl. rewrite !wrap_add_wrap_l.
    do 2 f_equal. lia.
  - rewrite !lookup_insert_ne by done. by rewrite insert_insert_ne.
Qed.

(** ** Properties *)

(** What is read after any sequence of calls, from start-up: a counter is
    the sum modulo 2^64 of what was added to its name while metrics were
    enabled, a gauge is the last value set to its name while they were, and
    other names and disabled calls do not matter. *)
Theorem metrics_read_what_was_written name ops :
  counter_get name (metrics_run ops initial_metrics) = counted name false ops `mod` 2 ^ 64 ∧
  gauge_get name (metrics_run ops initial_metrics) = gauged name false 0 ops.
Proof.
  destruct (metrics_run_get name ops initial_metrics) as [Hc Hg]. split; [|done].
  rewrite wrap_small in Hc; [done|]. apply counter_get_range, metrics_run_wf.
  apply map_Forall_empty.
Qed.

(** Counting is independent of how threads interleave: any reordering of
    additions gives the same state. *)
Theorem counter_adds_commute (adds adds' : list (string * Z)) m :
  adds ≡ₚ adds' →
  metrics_run ((λ a, CounterAdd a.1 a.2) <$> adds) m
  = metrics_run ((λ a, CounterAdd a.1 a.2) <$> adds') m.
Proof.
  intros Hp. revert m. unfold metrics_run.
  induction Hp as [|a l l' _ IH|a b l|l1 l2 l3 _ IH1 _ IH2]; intros m; simpl; [done|..].
  - apply IH.
  - by rewrite counter_add_comm.
  - by rewrite IH1.
Qed.

Lemma counter_adds_commute_witness :
  counter_get "a" (metrics_run [CounterAdd "a" 1; CounterAdd "b" 2; CounterAdd "a" 3]
    (mkMetricsState true ∅ ∅)) = 4.
Proof.
  change [CounterAdd "a" 1; CounterAdd "b" 2; CounterAdd "a" 3]
    with ((λ a : string * Z, CounterAdd a.1 a.2) <$> [("a", 1); ("b", 2); ("a", 3)]).
  rewrite (counter_adds_commute [("a", 1); ("b", 2); ("a", 3)]
             [("b", 2); ("a", 1); ("a", 3)]); [by vm_compute|].
  apply perm_swap.
Defined.
