(* ===== verification/Logging.v ===== *)
(** * Logging (src/infra/logging.cpp)

    The level gate and the text of a log line. What a call writes to the sink
    is a list of characters; the sink mutex makes the writes of a call one
    piece of the output. *)

From S2P Require Import Prelude Config ConfigLoader.
From Stdlib Require Import Ascii.

Record LogField := mkField { field_key : chars; field_value : chars }.

#[export] Instance LogField_eq_dec : EqDecision LogField.
Proof. solve_decision. Defined.

Definition quote : ascii := "034".
Definition backslash : ascii := "092".
Definition space : ascii := "032".

(** [level_name]; the [return "unknown"] after the switch is not reached by
    an enumerator. *)
Definition level_name (l : LogLevel) : chars :=
  to_chars match l with
           | Trace => "trace" | Debug => "debug" | Info => "info"
           | Warn => "warn" | Error => "error"
           end.

Definition needs_quotes (s : chars) : bool :=
  existsb (λ ch, bool_decide (ch = space) || bool_decide (ch = ch_tab)
                 || bool_decide (ch = quote) || bool_decide (ch = "="%char)) s.

(** The writers append to the output. *)
Fixpoint write_escaped (out : chars) (s : chars) : chars :=
  match s with
  | [] => out
  | ch :: s' =>
      let out := if bool_decide (ch = quote) || bool_decide (ch = backslash)
                 then out ++ [backslash] else out in
      write_escaped (out ++ [ch]) s'
  end.

Definition write_kv (out : chars) (field : LogField) : chars :=
  let out := out ++ [space] in
  let out := out ++ field_key field in
  let out := out ++ ["="%char] in
  if needs_quotes (field_value field) then
    let out := out ++ [quote] in
    let out := write_escaped out (field_value field) in
    out ++ [quote]
  else out ++ field_value field.

(** The static [level_ref()]. *)
Definition initial_level : LogLevel := Info.

Definition configure (cfg : LoggingConfig) (threshold : LogLevel) : LogLevel := level cfg.

Definition enabled (threshold lvl : LogLevel) : bool := level_rank threshold <=? level_rank lvl.

Fixpoint write_fields (out : chars) (fields : list LogField) : chars :=
  match fields with
  | [] => out
  | f :: fields' =>
      if bool_decide (field_key f = []) then write_fields out fields'
      else write_fields (write_kv out f) fields'
  end.

(** What [log] appends to [stderr]. *)
Definition log (threshold : LogLevel) (out : chars) (lvl : LogLevel) (message : chars)
    (fields : list LogField) : chars :=
  if negb (enabled threshold lvl) then out
  else
    let out := out ++ to_chars "level=" in
    let out := out ++ level_name lvl in
    let out := out ++ to_chars " msg=" ++ [quote] in
    let out := write_escaped out message in
    let out := out ++ [quote] in
    let out := write_fields out fields in
    out ++ [ch_newline].

(** ** The line in closed form *)

Definition escape_char (ch : ascii) : chars :=
  if bool_decide (ch = quote) || bool_decide (ch = backslash) then [backslash; ch] else [ch].
Definition escaped (s : chars) : chars := s ≫= escape_char.

Definition value_text (v : chars) : chars :=
  if needs_quotes v then quote :: escaped v ++ [quote] else v.
Definition field_text (f : LogField) : chars :=
  space :: field_key f ++ "="%char :: value_text (field_value f).

(** Fields with an empty key are skipped. *)
Definition kept (fields : list LogField) : list LogField :=
  filter (λ f, field_key f ≠ []) fields.

Definition line_text (lvl : LogLevel) (message : chars) (fields : list LogField) : chars :=
  to_chars "level=" ++ level_name lvl ++ to_chars " msg=" ++ quote :: escaped message
  ++ quote :: (kept fields ≫= field_text) ++ [ch_newline].

Lemma write_escaped_eq out s : write_escaped out s = out ++ escaped s.
Proof.
  revert out. induction s as [|ch s IH]; intros out; [by rewrite app_nil_r|].
  cbn [write_escaped]. rewrite IH.
  change (escaped (ch :: s)) with (escape_char ch ++ escaped s).
  unfold escape_char. destruct (_ || _); by rewrite <- !app_assoc.
Qed.

Lemma write_kv_eq out f : write_kv out f = out ++ field_text f.
Proof.
  unfold write_kv, field_text, value_text. rewrite write_escaped_eq.
  destruct (needs_quotes _); rewrite <- !app_assoc; simpl; by rewrite <- ?app_assoc.
Qed.

Lemma write_fields_eq out fields : write_fields out fields = out ++ (kept fields ≫= field_text).
Proof.
  revert out. induction fields as [|f fields IH]; intros out; [by rewrite app_nil_r|].
  cbn [write_fields].
  unfold kept. rewrite filter_cons. case_bool_decide as Hk.
  - rewrite decide_False by tauto. apply IH.
  - rewrite decide_True by done. rewrite IH, write_kv_eq, bind_cons. by rewrite <- app_assoc.
Qed.

Lemma log_eq threshold out lvl message fields :
  log threshold out lvl message fields =
    if enabled threshold lvl then out ++ line_text lvl message fields else out.
Proof.
  unfold log, line_text. destruct (enabled threshold lvl); [|done]. simpl negb. cbv iota zeta.
  rewrite write_fields_eq, write_escaped_eq. by rewrite <- !app_assoc.
Qed.

(** ** Reading a line back *)

(** Up to the closing quote, undoing the escapes. *)
Fixpoint read_quoted (s : chars) : option (chars * chars) :=
  match s with
  | [] => None
  | ch :: s' =>
      if decide (ch = quote) then Some ([], s')
      else if decide (ch = backslash) then
        match s' with
        | [] => None
        | c :: s'' => r ← read_quoted s''; Some (c :: r.1, r.2)
        end
      else r ← read_quoted s'; Some (ch :: r.1, r.2)
  end.

(** Up to the next field or the newline that ends the line. *)
Fixpoint read_plain (s : chars) : chars * chars :=
  match s with
  | [] => ([], [])
  | ch :: s' =>
      if decide (s = [ch_newline]) then ([], s)
      else if decide (ch = space) then ([], s)
      else (ch :: (read_plain s').1, (read_plain s').2)
  end.

Definition read_value (s : chars) : option (chars * chars) :=
  match s with
  | ch :: s' => if decide (ch = quote) then read_quoted s' else Some (read_plain s)
  | [] => None
  end.

Fixpoint read_fields (fuel : nat) (s : chars) : option (list LogField) :=
  match fuel with
  | O => None
  | S fuel =>
      if decide (s = [ch_newline]) then Some []
      else
        match s with
        | ch :: s' =>
            if decide (ch = space) then
              kv ← split_at "="%char s';
              v ← read_value kv.2;
              fs ← read_fields fuel v.2;
              Some (mkField kv.1 v.1 :: fs)
            else None
        | [] => None
        end
  end.

(** The text after [pre], if [s] starts with it. *)
Fixpoint after_prefix (pre s : chars) : option chars :=
  match pre, s with
  | [], _ => Some s
  | c :: pre', d :: s' => if decide (c = d) then after_prefix pre' s' else None
  | _ :: _, [] => None
  end.

Definition all_levels : list LogLevel := [Trace; Debug; Info; Warn; Error].

Definition read_level (s : chars) : option (LogLevel * chars) :=
  head (omap (λ l, pair l <$> after_prefix (level_name l ++ to_chars " msg=" ++ [quote]) s) all_levels).

Definition read_line (s : chars) : option (LogLevel * chars * list LogField) :=
  s1 ← after_prefix (to_chars "level=") s;
  l ← read_level s1;
  m ← read_quoted l.2;
  fs ← read_fields (length m.2) m.2;
  Some (l.1, m.1, fs).

Lemma read_quoted_escaped s rest : read_quoted (escaped s ++ quote :: rest) = Some (s, rest).
Proof.
  induction s as [|ch s IH]; [done|].
  change (escaped (ch :: s)) with (escape_char ch ++ escaped s). unfold escape_char.
  destruct (decide (ch = quote)) as [->|Hq].
  { simpl. by rewrite IH. }
  destruct (decide (ch = backslash)) as [->|Hb].
  { simpl. by rewrite IH. }
  rewrite !bool_decide_eq_false_2 by done. simpl.
  by rewrite !decide_False, IH by done.
Qed.

(** What can follow a value: the next field or the end of the line. *)
Definition ends_value (rest : chars) : Prop :=
  rest = [ch_newline] ∨ ∃ r, rest = space :: r.

Lemma read_plain_end rest : ends_value rest → read_plain rest = ([], rest).
Proof.
  intros [->|[r ->]]; [done|]. cbn [read_plain].
  rewrite decide_False by done. by rewrite decide_True.
Qed.

Lemma read_plain_value v rest :
  needs_quotes v = false → ends_value rest → read_plain (v ++ rest) = (v, rest).
Proof.
  intros Hv Hr. induction v as [|ch v IH]; [by apply read_plain_end|].
  unfold needs_quotes in Hv. simpl in Hv. apply orb_false_iff in Hv as [Hc Hv].
  rewrite !orb_false_iff, !bool_decide_eq_false in Hc. destruct Hc as [[[? ?] ?] ?].
  cbn [app read_plain]. rewrite decide_False.
  - rewrite decide_False by done. by rewrite IH.
  - intros E. injection E as _ E. apply app_eq_nil in E as [_ ->].
    destruct Hr as [?|[r ?]]; done.
Qed.

Lemma read_value_text v rest :
  ends_value rest → read_value (value_text v ++ rest) = Some (v, rest).
Proof.
  intros Hr. unfold value_text. destruct (needs_quotes v) eqn:Hv.
  - simpl. rewrite <- app_assoc. simpl. apply read_quoted_escaped.
  - pose proof (read_plain_value v rest Hv Hr) as Hp.
    destruct v as [|ch v]; simpl app in *.
    + destruct Hr as [->|[r ->]]; [done|]. unfold read_value.
      rewrite decide_False by done. by rewrite Hp.
    + unfold read_value. rewrite decide_False; [by rewrite Hp|]. by intros ->.
Qed.

Lemma fields_end fields : ends_value ((fields ≫= field_text) ++ [ch_newline]).
Proof. destruct fields as [|f fields]; [by left|]. right. by eexists. Qed.

(** Keys a reader can tell from their values. *)
Definition key_ok (f : LogField) : Prop := "="%char ∉ field_key f.

Lemma read_fields_text fuel fields :
  (length fields < fuel)%nat → Forall key_ok fields →
  read_fields fuel ((fields ≫= field_text) ++ [ch_newline]) = Some fields.
Proof.
  intros Hf Hk. revert fuel Hf.
  induction Hk as [|f fields Hk _ IH]; intros [|fuel] Hf; simpl in Hf; try lia; [done|].
  rewrite bind_cons, <- app_assoc. unfold field_text at 1. cbn [app read_fields].
  rewrite decide_False by done. rewrite decide_True by done.
  rewrite <- app_assoc. cbn [app]. rewrite split_at_first by done. simpl.
  rewrite read_value_text by apply fields_end. simpl.
  rewrite IH by lia. by destruct f.
Qed.

Lemma fields_text_length fields :
  (length fields ≤ length (fields ≫= field_text))%nat.
Proof.
  induction fields as [|f fields IH]; [done|].
  rewrite bind_cons, length_app. simpl. lia.
Qed.

Lemma read_level_name l rest :
  read_level (level_name l ++ to_chars " msg=" ++ quote :: rest) = Some (l, rest).
Proof. by destruct l. Qed.

Lemma option_Some_bind {A B} (x : A) (f : A → option B) : (Some x ≫= f) = f x.
Proof. reflexivity. Qed.

Lemma read_line_text lvl message fields :
  Forall key_ok fields →
  read_line (line_text lvl message fields) = Some (lvl, message, kept fields).
Proof.
  intros Hk. unfold read_line, line_text.
  set (rest := level_name lvl ++ _).
  change (after_prefix (to_chars "level=") (to_chars "level=" ++ rest)) with (Some rest).
  rewrite option_Some_bind. unfold rest. rewrite read_level_name, option_Some_bind. simpl snd.
  rewrite read_quoted_escaped, option_Some_bind. simpl fst. simpl snd.
  rewrite read_fields_text; [done| |].
  2: { rewrite Forall_forall in *. intros f [_ ?]%list_elem_of_filter. auto. }
  rewrite length_app. pose proof (fields_text_length (kept fields)). simpl. lia.
Qed.

(** Newlines in a text. *)
Definition newlines (s : chars) : nat := countb (λ c, bool_decide (c = ch_newline)) s.

Lemma newlines_app s t : newlines (s ++ t) = (newlines s + newlines t)%nat.
Proof. apply countb_app. Qed.

Lemma newlines_escaped s : newlines (escaped s) = newlines s.
Proof.
  induction s as [|ch s IH]; [done|].
  change (escaped (ch :: s)) with (escape_char ch ++ escaped s).
  change (ch :: s) with ([ch] ++ s). rewrite !newlines_app, IH. f_equal.
  unfold escape_char. destruct (_ || _); [|done].
  change [backslash; ch] with ([backslash] ++ [ch]). by rewrite newlines_app.
Qed.

Lemma newlines_field f :
  newlines (field_text f) = (newlines (field_key f) + newlines (field_value f))%nat.
Proof.
  unfold field_text, value_text.
  change (space :: field_key f ++ "="%char :: ?s) with
    ([space] ++ field_key f ++ ["="%char] ++ s).
  destruct (needs_quotes _).
  - change (quote :: ?s ++ [quote]) with ([quote] ++ s ++ [quote]).
    rewrite !newlines_app, newlines_escaped.
    change (newlines [space]) with 0%nat. change (newlines ["="%char]) with 0%nat.
    change (newlines [quote]) with 0%nat. lia.
  - rewrite !newlines_app.
    change (newlines [space]) with 0%nat. change (newlines ["="%char]) with 0%nat. lia.
Qed.

Lemma newlines_fields fields :
  newlines (fields ≫= field_text)
  = sum_list ((λ f, newlines (field_key f) + newlines (field_value f))%nat <$> fields).
Proof.
  induction fields as [|f fields IH]; [done|].
  rewrite bind_cons, newlines_app, newlines_field, IH. reflexivity.
Qed.

Lemma newlines_line lvl message fields :
  newlines (line_text lvl message fields) =
    S (newlines message +
       sum_list ((λ f, newlines (field_key f) + newlines (field_value f))%nat <$> kept fields)).
Proof.
  unfold line_text.
  change (quote :: escaped message ++ quote :: ?s)
    with ([quote] ++ escaped message ++ [quote] ++ s).
  rewrite !newlines_app, newlines_escaped, newlines_fields.
  change (newlines (to_chars "level=")) with 0%nat. change (newlines [quote]) with 0%nat.
  change (newlines (to_chars " msg=")) with 0%nat. change (newlines [ch_newline]) with 1%nat.
  assert (newlines (level_name lvl) = 0%nat) as -> by by destruct lvl. lia.
Qed.

(** ** Properties *)

(** C39. A line can be read back: what [log] appends for an enabled level
    determines the level, the message and every field with a non-empty key,
    whatever quotes, backslashes, blanks or newlines the message and the
    values contain, provided keys contain no equals sign. *)
Theorem log_line_roundtrip threshold out lvl message fields :
  enabled threshold lvl = true → Forall (λ f, "="%char ∉ field_key f) fields →
  ∃ text, log threshold out lvl message fields = out ++ text ∧
    read_line text = Some (lvl, message, filter (λ f, field_key f ≠ []) fields).
Proof.
  intros He Hk. rewrite log_eq, He. eexists. split; [done|]. by apply read_line_text.
Qed.

Definition sample_fields : list LogField :=
  [mkField (to_chars "peer") (to_chars "10.0.0.1"); mkField [] (to_chars "x");
   mkField (to_chars "path") (to_chars "a b" ++ [quote] ++ to_chars "=")].

Lemma log_line_roundtrip_witness :
  ∃ text, log Info [] Warn (to_chars "say " ++ [quote]) sample_fields = [] ++ text ∧
    read_line text = Some (Warn, to_chars "say " ++ [quote],
      [mkField (to_chars "peer") (to_chars "10.0.0.1");
       mkField (to_chars "path") (to_chars "a b" ++ [quote] ++ to_chars "=")]).
Proof.
  destruct (log_line_roundtrip Info [] Warn (to_chars "say " ++ [quote]) sample_fields)
    as (text & E & R); [done| |].
  - apply (bool_decide_unpack _). by vm_compute.
  - exists text. split; [exact E|]. rewrite R. reflexivity.
Defined.

(** The gate: a call below the configured level writes nothing, and the
    severities that pass a threshold also pass every lower one. *)
Theorem log_gate threshold cfg out lvl message fields :
  (log (configure cfg threshold) out lvl message fields = out ↔
     level_rank lvl < level_rank (level cfg)) ∧
  (∀ lower, level_rank lower ≤ level_rank threshold →
     enabled threshold lvl = true → enabled lower lvl = true).
Proof.
  split.
  - rewrite log_eq. unfold enabled, configure.
    destruct (Z.leb_spec (level_rank (level cfg)) (level_rank lvl)); split; intros E; try done; [|lia].
    exfalso. apply (f_equal length) in E. rewrite length_app in E.
    unfold line_text in E. simpl in E. lia.
  - intros lower Hl. unfold enabled. rewrite !Z.leb_le. lia.
Qed.

(** How many lines of output a call makes: one, plus the newlines of the
    message and of the fields, which are written as they are. A message with a
    newline is not a single line. *)
Theorem log_newlines threshold lvl message fields :
  enabled threshold lvl = true →
  newlines (log threshold [] lvl message fields) =
    S (newlines message +
       sum_list ((λ f, newlines (field_key f) + newlines (field_value f))%nat
                   <$> filter (λ f, field_key f ≠ []) fields)).
Proof. intros He. rewrite log_eq, He. apply newlines_line. Qed.

Lemma log_newlines_witness :
  newlines (log Info [] Info (to_chars "a" ++ [ch_newline] ++ to_chars "b") []) = 2%nat.
Proof. by apply (log_newlines Info Info (to_chars "a" ++ [ch_newline] ++ to_chars "b") []). Defined.

