(* ===== verification/Os.v ===== *)
(** * The operating system

    The system calls of the network code, as an interface: a kernel state and
    what each call returns and does to it.  The calls themselves are not part
    of the program.  [Kernel] is what the code can call; [KernelLaws] is the
    documented behaviour of Linux sockets that theorems rely on; [Sim] is a
    small kernel that has this behaviour, on which programs can be run.

    The code is modelled as it is compiled on Linux: the branches under
    [#if defined(_WIN32)] are not. *)

From S2P Require Import Prelude.

(** ** Running a program against a kernel

    A run returns a value or stops: the process is ended ([std::abort], a
    failed [assert], an exception nobody catches), it is still looping when the
    fuel of the model is used up, or the code does something the language
    leaves undefined. *)
Inductive stop := Killed | Fuel | Undefined.

#[export] Instance stop_eq_dec : EqDecision stop.
Proof. solve_decision. Defined.

Inductive run (K A : Type) : Type :=
| Done (a : A) (k : K)
| Stop (s : stop).
Arguments Done {K A} _ _.
Arguments Stop {K A} _.

Definition prog (K A : Type) : Type := K → run K A.

#[export] Instance prog_ret {K} : MRet (prog K) := λ A a k, Done a k.
#[export] Instance prog_bind {K} : MBind (prog K) := λ A B f p k,
  match p k with
  | Done a k' => f a k'
  | Stop s => Stop s
  end.

Definition halt {K A} (s : stop) : prog K A := λ _, Stop s.
(** A system call: it always comes back. *)
Definition call_os {K A} (f : K → A * K) : prog K A := λ k, Done (f k).1 (f k).2.
(** Reading something off the kernel state, as [errno]. *)
Definition read_os {K A} (f : K → A) : prog K A := λ k, Done (f k) k.
(** Code that makes no system call. *)
Definition pure_code {K A} (o : outcome A) : prog K A :=
  match o with
  | Ret a => mret a
  | AssertFails | Throws => halt Killed
  | UB => halt Undefined
  end.

Lemma prog_bind_Done {K A B} (p : prog K A) (f : A → prog K B) k a k' :
  p k = Done a k' → (p ≫= f) k = f a k'.
Proof. unfold mbind, prog_bind. by intros ->. Qed.

Lemma prog_bind_Done_inv {K A B} (p : prog K A) (f : A → prog K B) k b k' :
  (p ≫= f) k = Done b k' → ∃ a k1, p k = Done a k1 ∧ f a k1 = Done b k'.
Proof. unfold mbind, prog_bind. destruct (p k); [by eauto|done]. Qed.

(** *** What a run establishes

    [wp ok p k Q]: run from [k], the program returns with [Q], or stops in a
    way that [ok] allows. *)
Definition wp {K A} (ok : stop → Prop) (p : prog K A) (k : K) (Q : A → K → Prop) : Prop :=
  match p k with Done a k' => Q a k' | Stop s => ok s end.

(** It returns. *)
Definition total : stop → Prop := λ _, False.
(** It returns, or the process gives up. *)
Definition may_abort : stop → Prop := λ s, s = Killed.
(** It returns, or the process ends or loops, within the defined behaviour. *)
Definition defined : stop → Prop := λ s, s ≠ Undefined.

Section wp.
Context {K A B : Type} (ok : stop → Prop).
Implicit Types k : K.

Lemma wp_ret (a : A) k Q : Q a k → wp ok (mret a : prog K A) k Q.
Proof. done. Qed.

Lemma wp_bind (p : prog K A) (f : A → prog K B) k Q :
  wp ok p k (λ a k', wp ok (f a) k' Q) → wp ok (p ≫= f) k Q.
Proof. unfold wp, mbind, prog_bind. by destruct (p k). Qed.

Lemma wp_mono (p : prog K A) k Q Q' :
  wp ok p k Q → (∀ a k', Q a k' → Q' a k') → wp ok p k Q'.
Proof. unfold wp. destruct (p k); auto. Qed.

Lemma wp_run (p : prog K A) k Q Q' :
  wp ok p k Q → (∀ a k', p k = Done a k' → Q a k' → Q' a k') → wp ok p k Q'.
Proof. unfold wp. destruct (p k); auto. Qed.

Lemma wp_call (f : K → A * K) k Q : Q (f k).1 (f k).2 → wp ok (call_os f) k Q.
Proof. done. Qed.

Lemma wp_read (f : K → A) k Q : Q (f k) k → wp ok (read_os f) k Q.
Proof. done. Qed.

Lemma wp_halt s k (Q : A → K → Prop) : ok s → wp ok (halt s) k Q.
Proof. done. Qed.

Lemma wp_pure (o : outcome A) a k Q : o = Ret a → Q a k → wp ok (pure_code o) k Q.
Proof. by intros ->. Qed.

Lemma wp_Done (p : prog K A) k Q a k' : wp ok p k Q → p k = Done a k' → Q a k'.
Proof. unfold wp. intros H E. by rewrite E in H. Qed.
End wp.

Lemma wp_weaken {K A} (ok ok' : stop → Prop) (p : prog K A) k Q :
  wp ok p k Q → (∀ s, ok s → ok' s) → wp ok' p k Q.
Proof. unfold wp. destruct (p k); auto. Qed.

Lemma wp_total {K A} (p : prog K A) k Q :
  wp total p k Q ↔ ∃ a k', p k = Done a k' ∧ Q a k'.
Proof.
  unfold wp, total. split; [destruct (p k); [eauto|done]|].
  by intros (a & k' & -> & ?).
Qed.

(** Steps through straight-line code; leaves the pure conditions. *)
Ltac wp_step :=
  first [ apply wp_bind | apply wp_ret | apply wp_call | apply wp_read ].
Ltac wp_steps := repeat wp_step.

(** ** System calls *)

Definition EINTR : Z := 4.
Definition EAGAIN : Z := 11.
Definition EWOULDBLOCK : Z := 11.
Definition O_NONBLOCK : Z := 2048.
Definition MSG_NOSIGNAL : Z := 16384.
Definition AF_INET : Z := 2.
Definition SOCK_STREAM : Z := 1.
Definition IPPROTO_TCP : Z := 6.
Definition AI_PASSIVE : Z := 1.

(** The members of [addrinfo] the code reads. *)
Record addrinfo := mkAddrinfo {
  ai_family : Z; ai_socktype : Z; ai_protocol : Z; ai_addr : list byte }.

Record timeval := mkTimeval { tv_sec : Z; tv_usec : Z }.

(** The three sets [select] reads and overwrites. *)
Record fd_sets := mkSets { readfds : gset Z; writefds : gset Z; exceptfds : gset Z }.

Class Kernel (K : Type) := {
  errno : K → Z;
  sys_socket : Z → Z → Z → K → Z * K;
  sys_close : Z → K → Z * K;
  sys_fcntl_getfl : Z → K → Z * K;
  sys_fcntl_setfl : Z → Z → K → Z * K;
  sys_accept : Z → K → Z * K;
  sys_getsockname : Z → K → (Z * Z) * K;           (* result and sin_port *)
  sys_recv : Z → Z → K → (Z * list byte) * K;      (* result and bytes written *)
  sys_send : Z → list byte → Z → K → Z * K;
  sys_select : Z → fd_sets → option timeval → K → (Z * fd_sets) * K;
  sys_getaddrinfo : option string → string → addrinfo → Z → K → (Z * list addrinfo) * K;
  gai_strerror : Z → string;
  sys_setsockopt_reuseaddr : Z → K → Z * K;
  sys_bind : Z → list byte → K → Z * K;
  sys_listen : Z → Z → K → Z * K;
  sys_connect : Z → Z → K → Z * K;                 (* loopback, at a port *)
  sys_now : K → Z * K;                             (* steady clock, in ms *)
}.

(** ** Documented behaviour

    [open_fds] are the descriptors open in the process, [fd_flags] the file
    status flags of each, [received] and [sent] the byte streams that have
    crossed each since it was opened, [signals] the signals that will still
    interrupt a call. *)
Class Observe (K : Type) := {
  open_fds : K → gset Z;
  fd_flags : K → Z → Z;
  received : K → Z → list byte;
  sent : K → Z → list byte;
  signals : K → nat;
}.

Section observe.
Context {K : Type} `{!Observe K}.
Implicit Types k : K.

(** The streams are left alone. *)
Definition same_streams (k k' : K) : Prop :=
  ∀ s, received k' s = received k s ∧ sent k' s = sent k s.

(** Descriptors and streams are left alone. *)
Definition keeps (k k' : K) : Prop :=
  open_fds k' = open_fds k ∧ same_streams k k'.

(** A new descriptor is the non-negative result, fresh, with empty streams. *)
Definition opens (r : Z) (k k' : K) : Prop :=
  (r < 0 → keeps k k') ∧
  (0 ≤ r → r ∉ open_fds k) ∧
  (0 ≤ r → open_fds k' = {[r]} ∪ open_fds k ∧ received k' r = [] ∧ sent k' r = []) ∧
  (∀ s, s ≠ r → received k' s = received k s ∧ sent k' s = sent k s).

#[export] Instance same_streams_preorder : PreOrder same_streams.
Proof.
  split; [by split|]. intros x y z H1 H2 s.
  destruct (H2 s) as [-> ->]. apply H1.
Qed.

#[export] Instance keeps_preorder : PreOrder keeps.
Proof.
  split; [by split|]. intros x y z [E1 H1] [E2 H2].
  split; [by rewrite E2|by transitivity y].
Qed.
End observe.

Class KernelLaws (K : Type) `{!Kernel K, !Observe K} := {
  socket_law f t p k : opens (sys_socket f t p k).1 k (sys_socket f t p k).2;
  accept_law s k : opens (sys_accept s k).1 k (sys_accept s k).2;
  (** close(2): the descriptor is released whatever is returned. *)
  close_law s k :
    open_fds (sys_close s k).2 = open_fds k ∖ {[s]} ∧
    same_streams k (sys_close s k).2;
  getfl_law s k :
    keeps k (sys_fcntl_getfl s k).2 ∧
    fd_flags (sys_fcntl_getfl s k).2 = fd_flags k ∧
    (0 ≤ (sys_fcntl_getfl s k).1 → (sys_fcntl_getfl s k).1 = fd_flags k s);
  (** fcntl(2): flags that differ from the current ones in [O_NONBLOCK] at most
      become the current ones. *)
  setfl_law s flags k :
    keeps k (sys_fcntl_setfl s flags k).2 ∧
    ((sys_fcntl_setfl s flags k).1 = 0 →
     (∀ i, i ≠ 11 → Z.testbit flags i = Z.testbit (fd_flags k s) i) →
     fd_flags (sys_fcntl_setfl s flags k).2 s = flags);
  getsockname_law s k : keeps k (sys_getsockname s k).2;
  (** select(2): on success each set is replaced by the part of it that is
      ready. *)
  select_law n sets tv k :
    let r := sys_select n sets tv k in
    keeps k r.2 ∧
    (0 ≤ r.1.1 → readfds r.1.2 ⊆ readfds sets ∧ writefds r.1.2 ⊆ writefds sets ∧
      exceptfds r.1.2 ⊆ exceptfds sets);
  getaddrinfo_law h p hints flags k : keeps k (sys_getaddrinfo h p hints flags k).2;
  setsockopt_law s k : keeps k (sys_setsockopt_reuseaddr s k).2;
  bind_law s a k : keeps k (sys_bind s a k).2;
  listen_law s b k : keeps k (sys_listen s b k).2;
  connect_law s p k : keeps k (sys_connect s p k).2;
  now_law k : keeps k (sys_now k).2;

  (** recv(2): at most the size of the buffer; what is written to it is the
      next part of the stream. *)
  recv_law s n k :
    let r := sys_recv s n k in
    r.1.1 ≤ Z.max 0 n ∧ len r.1.2 = Z.max 0 r.1.1 ∧
    open_fds r.2 = open_fds k ∧
    received r.2 s = received k s ++ r.1.2 ∧
    (∀ s', s' ≠ s → received r.2 s' = received k s') ∧
    (∀ s', sent r.2 s' = sent k s');
  (** send(2): a prefix of the data is taken. *)
  send_law s data flags k :
    let r := sys_send s data flags k in
    r.1 ≤ len data ∧
    open_fds r.2 = open_fds k ∧
    sent r.2 s = sent k s ++ take (Z.to_nat r.1) data ∧
    (∀ s', s' ≠ s → sent r.2 s' = sent k s') ∧
    (∀ s', received r.2 s' = received k s');
  (** Only finitely many signals interrupt. *)
  recv_interrupted s n k :
    let r := sys_recv s n k in
    (signals r.2 ≤ signals k)%nat ∧
    (r.1.1 < 0 → errno r.2 = EINTR → (signals r.2 < signals k)%nat);
  send_interrupted s data flags k :
    let r := sys_send s data flags k in
    (signals r.2 ≤ signals k)%nat ∧
    (r.1 < 0 → errno r.2 = EINTR → (signals r.2 < signals k)%nat);
}.

(** ** A finite world

    What termination of the servers rests on: the peers connect finitely often
    and send finitely much ([traffic] is what is still to come), the clock
    passes every deadline after finitely many looks, and the process is limited
    to fewer descriptors than an [fd_set] has bits. *)
Class World (K : Type) := {
  traffic : K → nat;
  looks_left : Z → K → nat;      (* looks at the clock before it shows this time *)
}.

(** Nothing new is coming. *)
Definition calm {K} `{!Observe K, !World K} (k k' : K) : Prop :=
  (traffic k' ≤ traffic k)%nat ∧ (∀ d, looks_left d k' ≤ looks_left d k)%nat ∧
  (signals k' ≤ signals k)%nat.

#[export] Instance calm_preorder {K} `{!Observe K, !World K} : PreOrder (calm (K := K)).
Proof.
  split; [done|]. intros x y z (H1 & H2 & H3) (H1' & H2' & H3').
  split; [lia|]. split; [|lia]. intros d. specialize (H2 d). specialize (H2' d). lia.
Qed.

Class FiniteWorld (K : Type) `{!Kernel K, !Observe K, !World K} := {
  recv_finite s n k :
    calm k (sys_recv s n k).2 ∧
    (traffic (sys_recv s n k).2 + length (sys_recv s n k).1.2 ≤ traffic k)%nat;
  accept_finite s k :
    calm k (sys_accept s k).2 ∧
    (0 ≤ (sys_accept s k).1 → (traffic (sys_accept s k).2 < traffic k)%nat) ∧
    (sys_accept s k).1 < 1024;
  now_finite k :
    calm k (sys_now k).2 ∧
    ∀ d, (sys_now k).1 < d → (looks_left d (sys_now k).2 < looks_left d k)%nat;
  socket_finite f t p k : calm k (sys_socket f t p k).2 ∧ (sys_socket f t p k).1 < 1024;
  send_finite s data flags k : calm k (sys_send s data flags k).2;
  close_finite s k : calm k (sys_close s k).2;
  getfl_finite s k : calm k (sys_fcntl_getfl s k).2;
  setfl_finite s flags k : calm k (sys_fcntl_setfl s flags k).2;
  getsockname_finite s k : calm k (sys_getsockname s k).2;
  select_finite n sets tv k : calm k (sys_select n sets tv k).2;
  getaddrinfo_finite h p hints flags k : calm k (sys_getaddrinfo h p hints flags k).2;
  setsockopt_finite s k : calm k (sys_setsockopt_reuseaddr s k).2;
  bind_finite s a k : calm k (sys_bind s a k).2;
  listen_finite s b k : calm k (sys_listen s b k).2;
}.

(** ** A kernel to run programs on

    Each call takes the next answer of a script; what does not suit the call,
    or a script that is over, gives the default: success with nothing to
    report, [EAGAIN] where there is nothing to hand out. *)
Inductive answer :=
| Give (z : Z)              (* this many bytes, this port *)
| Data (bs : list byte)     (* bytes received *)
| Fail (e : Z)              (* failure with this errno *)
| Ready (r w x : list Z)    (* descriptors ready *)
| Addrs (l : list addrinfo)
| Block.                    (* a call that could block would *)

Record sim := mkSim {
  script : list answer;
  sim_errno : Z;
  sim_clock : Z;
  sim_open : gset Z;
  sim_flags : gmap Z Z;
  sim_received : gmap Z (list byte);
  sim_sent : gmap Z (list byte);
}.

Module Sim.

Definition boot (l : list answer) : sim := mkSim l 0 0 ∅ ∅ ∅ ∅.

Definition at_ (m : gmap Z (list byte)) (s : Z) : list byte := default [] (m !! s).

Definition set_script (l : list answer) (k : sim) : sim :=
  mkSim l (sim_errno k) (sim_clock k) (sim_open k) (sim_flags k) (sim_received k) (sim_sent k).
Definition set_errno (e : Z) (k : sim) : sim :=
  mkSim (script k) e (sim_clock k) (sim_open k) (sim_flags k) (sim_received k) (sim_sent k).
Definition set_clock (c : Z) (k : sim) : sim :=
  mkSim (script k) (sim_errno k) c (sim_open k) (sim_flags k) (sim_received k) (sim_sent k).
Definition set_open (o : gset Z) (k : sim) : sim :=
  mkSim (script k) (sim_errno k) (sim_clock k) o (sim_flags k) (sim_received k) (sim_sent k).
Definition set_flags (f : gmap Z Z) (k : sim) : sim :=
  mkSim (script k) (sim_errno k) (sim_clock k) (sim_open k) f (sim_received k) (sim_sent k).
Definition set_received (m : gmap Z (list byte)) (k : sim) : sim :=
  mkSim (script k) (sim_errno k) (sim_clock k) (sim_open k) (sim_flags k) m (sim_sent k).
Definition set_sent (m : gmap Z (list byte)) (k : sim) : sim :=
  mkSim (script k) (sim_errno k) (sim_clock k) (sim_open k) (sim_flags k) (sim_received k) m.

(** The next answer, taken off the script. *)
Definition next (k : sim) : option answer * sim :=
  match script k with
  | [] => (None, k)
  | a :: l => (Some a, set_script l k)
  end.

(** A descriptor above all open ones, below the limit of the process. *)
Definition fresh_fd (k : sim) : Z := 3 + foldr Z.max 0 (elements (sim_open k)).

Definition EMFILE : Z := 24.
Definition RLIMIT_NOFILE : Z := 1024.

Definition open_fd (k : sim) : Z * sim :=
  let r := fresh_fd k in
  if RLIMIT_NOFILE <=? r then (-1, set_errno EMFILE k)
  else (r, set_open ({[r]} ∪ sim_open k) (set_flags (<[r := 2]> (sim_flags k))
             (set_received (delete r (sim_received k)) (set_sent (delete r (sim_sent k)) k)))).

Definition socket (k : sim) : Z * sim :=
  let (a, k) := next k in
  match a with Some (Fail e) => (-1, set_errno e k) | _ => open_fd k end.

(** With no answer left nobody is connecting. *)
Definition accept (k : sim) : Z * sim :=
  let (a, k) := next k in
  match a with
  | Some (Fail e) => (-1, set_errno e k)
  | Some Block | None => (-1, set_errno EAGAIN k)
  | _ => open_fd k
  end.

(** A call that only succeeds or fails. *)
Definition status_call (k : sim) : Z * sim :=
  let (a, k) := next k in
  match a with Some (Fail e) => (-1, set_errno e k) | _ => (0, k) end.

Definition close (s : Z) (k : sim) : Z * sim :=
  let (r, k) := status_call k in (r, set_open (sim_open k ∖ {[s]}) k).

Definition getfl (s : Z) (k : sim) : Z * sim :=
  let (r, k) := status_call k in (if r <? 0 then r else default 0 (sim_flags k !! s), k).

Definition EINVAL : Z := 22.

(** Negative flags are refused. *)
Definition setfl (s flags : Z) (k : sim) : Z * sim :=
  let (r, k) := status_call k in
  if flags <? 0 then (-1, set_errno EINVAL k)
  else if r <? 0 then (r, k) else (r, set_flags (<[s := flags]> (sim_flags k)) k).

Definition getsockname (k : sim) : Z * Z * sim :=
  let (a, k) := next k in
  match a with
  | Some (Fail e) => (-1, 0, set_errno e k)
  | Some (Give z) => (0, z, k)
  | _ => (0, 0, k)
  end.

Definition recv (s n : Z) (k : sim) : Z * list byte * sim :=
  let (a, k) := next k in
  match a with
  | Some (Fail e) => (-1, [], set_errno e k)
  | Some (Data bs) =>
      let bs := take (Z.to_nat n) bs in
      (len bs, bs, set_received (<[s := at_ (sim_received k) s ++ bs]> (sim_received k)) k)
  | _ => (-1, [], set_errno EAGAIN k)
  end.

Definition send (s : Z) (data : list byte) (k : sim) : Z * sim :=
  let (a, k) := next k in
  match a with
  | Some (Fail e) => (-1, set_errno e k)
  | Some Block => (-1, set_errno EAGAIN k)
  | _ =>
      let data := match a with Some (Give z) => take (Z.to_nat z) data | _ => data end in
      (len data, set_sent (<[s := at_ (sim_sent k) s ++ data]> (sim_sent k)) k)
  end.

Definition select (sets : fd_sets) (k : sim) : Z * fd_sets * sim :=
  let (a, k) := next k in
  match a with
  | Some (Fail e) => (-1, sets, set_errno e k)
  | Some (Ready r w x) =>
      let r := readfds sets ∩ list_to_set r in
      let w := writefds sets ∩ list_to_set w in
      let x := exceptfds sets ∩ list_to_set x in
      (Z.of_nat (size r + size w + size x), mkSets r w x, k)
  | _ => (0, mkSets ∅ ∅ ∅, k)
  end.

Definition getaddrinfo (k : sim) : Z * list addrinfo * sim :=
  let (a, k) := next k in
  match a with
  | Some (Fail e) => (e, [], k)
  | Some (Addrs l) => (0, l, k)
  | _ => (0, [], k)
  end.

(** Every look at the clock is a millisecond later. *)
Definition now (k : sim) : Z * sim := (sim_clock k + 1, set_clock (sim_clock k + 1) k).

Definition interruptions (k : sim) : nat :=
  countb (λ a, match a with Fail e => e =? EINTR | _ => false end) (script k).

End Sim.

#[export] Instance sim_kernel : Kernel sim := {|
  errno := sim_errno;
  sys_socket _ _ _ := Sim.socket;
  sys_close := Sim.close;
  sys_fcntl_getfl := Sim.getfl;
  sys_fcntl_setfl := Sim.setfl;
  sys_accept _ := Sim.accept;
  sys_getsockname _ := Sim.getsockname;
  sys_recv := Sim.recv;
  sys_send s data _ := Sim.send s data;
  sys_select _ sets _ := Sim.select sets;
  sys_getaddrinfo _ _ _ _ := Sim.getaddrinfo;
  gai_strerror _ := "name or service not known";
  sys_setsockopt_reuseaddr _ := Sim.status_call;
  sys_bind _ _ := Sim.status_call;
  sys_listen _ _ := Sim.status_call;
  sys_connect _ _ := Sim.status_call;
  sys_now := Sim.now;
|}.

Lemma fresh_fd_above k s : s ∈ sim_open k → s < Sim.fresh_fd k.
Proof.
  unfold Sim.fresh_fd. rewrite <- elem_of_elements.
  induction (elements (sim_open k)) as [|x l IH]; simpl; [by intros ?%not_elem_of_nil|].
  intros [->|Hs]%elem_of_cons; [lia|]. apply IH in Hs. lia.
Qed.

Lemma fresh_fd_nonneg k : 0 ≤ Sim.fresh_fd k.
Proof.
  unfold Sim.fresh_fd. induction (elements (sim_open k)); simpl; lia.
Qed.

#[export] Instance sim_observe : Observe sim := {|
  open_fds := sim_open;
  fd_flags k s := default 0 (sim_flags k !! s);
  received k := Sim.at_ (sim_received k);
  sent k := Sim.at_ (sim_sent k);
  signals := Sim.interruptions;
|}.

Lemma at_insert m s bs s' :
  Sim.at_ (<[s := bs]> m) s' = if decide (s = s') then bs else Sim.at_ m s'.
Proof. unfold Sim.at_. rewrite lookup_insert. by case_decide. Qed.

Lemma at_delete m s s' : Sim.at_ (delete s m) s' = if decide (s = s') then [] else Sim.at_ m s'.
Proof. unfold Sim.at_. rewrite lookup_delete. by case_decide. Qed.

(** Taking an answer changes nothing but the script. *)
Lemma next_keeps k : keeps k (Sim.next k).2.
Proof. unfold Sim.next. by destruct (script k). Qed.

Lemma next_flags k : fd_flags (Sim.next k).2 = fd_flags k.
Proof. unfold Sim.next. by destruct (script k). Qed.

Lemma next_signals k :
  (signals (Sim.next k).2 ≤ signals k)%nat ∧
  ((Sim.next k).1 = Some (Fail EINTR) → (signals (Sim.next k).2 < signals k)%nat).
Proof.
  destruct k as [[|a l] e t o f r s]; simpl; [by split|].
  unfold Sim.interruptions. simpl. rewrite countb_cons.
  split; [lia|]. intros [= ->]. simpl. lia.
Qed.


Lemma opens_after r k k1 k' : keeps k k1 → opens r k1 k' → opens r k k'.
Proof.
  intros [E Hs] (H1 & H2 & H3 & H4). unfold opens. rewrite <- E.
  split; [intros; transitivity k1; [done|by apply H1]|].
  split; [done|]. split; [done|].
  intros s Hr. destruct (Hs s) as [<- <-]. by apply H4.
Qed.

(** A call that failed opened nothing. *)
Lemma keeps_opens {K} `{!Observe K} (k k' : K) : keeps k k' → opens (-1) k k'.
Proof. intros Hk. split; [done|]. split; [lia|]. split; [lia|]. intros. apply Hk. Qed.

Lemma open_fd_opens k : opens (Sim.open_fd k).1 k (Sim.open_fd k).2.
Proof.
  pose proof (fresh_fd_nonneg k). unfold Sim.open_fd.
  destruct (Sim.RLIMIT_NOFILE <=? Sim.fresh_fd k); [by apply keeps_opens|].
  unfold opens. simpl. split; [lia|]. split; [by intros _ ?%fresh_fd_above; lia|].
  split; intros; rewrite ?at_delete, ?decide_True, ?decide_False by done; done.
Qed.

(** The laws, call by call. *)
Ltac sim_answer k :=
  pose proof (next_keeps k); pose proof (next_flags k); pose proof (next_signals k);
  destruct (Sim.next k) as [a k1]; simpl in *.

Lemma sim_socket_law k : opens (Sim.socket k).1 k (Sim.socket k).2.
Proof.
  unfold Sim.socket. sim_answer k. eapply opens_after; [done|].
  destruct a as [[]|]; try apply open_fd_opens. by apply keeps_opens.
Qed.

Lemma sim_accept_law k : opens (Sim.accept k).1 k (Sim.accept k).2.
Proof.
  unfold Sim.accept. sim_answer k. eapply opens_after; [done|].
  destruct a as [[]|]; try apply open_fd_opens; by apply keeps_opens.
Qed.

(** A call that succeeds or fails and does nothing else. *)
Lemma status_call_keeps k :
  keeps k (Sim.status_call k).2 ∧ fd_flags (Sim.status_call k).2 = fd_flags k ∧
  (Sim.status_call k).1 ≤ 0.
Proof.
  unfold Sim.status_call. sim_answer k. by destruct a as [[]|].
Qed.

Lemma sim_close_law s k :
  open_fds (Sim.close s k).2 = open_fds k ∖ {[s]} ∧ same_streams k (Sim.close s k).2.
Proof.
  unfold Sim.close. pose proof (status_call_keeps k) as ([E Hs] & _).
  destruct (Sim.status_call k) as [r k1]. simpl in *. by rewrite E.
Qed.

Lemma sim_getfl_law s k :
  keeps k (Sim.getfl s k).2 ∧ fd_flags (Sim.getfl s k).2 = fd_flags k ∧
  (0 ≤ (Sim.getfl s k).1 → (Sim.getfl s k).1 = fd_flags k s).
Proof.
  unfold Sim.getfl. pose proof (status_call_keeps k) as (Hk & Hf & ?).
  destruct (Sim.status_call k) as [r k1]. simpl in *. split; [done|]. split; [done|].
  destruct (Z.ltb_spec r 0); [lia|]. intros _.
  exact (f_equal (λ f, f s) Hf).
Qed.

Lemma sim_setfl_law s flags k :
  keeps k (Sim.setfl s flags k).2 ∧
  ((Sim.setfl s flags k).1 = 0 →
   (∀ i, i ≠ 11 → Z.testbit flags i = Z.testbit (fd_flags k s) i) →
   fd_flags (Sim.setfl s flags k).2 s = flags).
Proof.
  unfold Sim.setfl. pose proof (status_call_keeps k) as (Hk & Hf & ?).
  destruct (Sim.status_call k) as [r k1]. simpl in *.
  destruct (flags <? 0); [by split|].
  destruct (Z.ltb_spec r 0); simpl; [split; [done|lia]|]. split; [done|].
  intros _ _. by rewrite lookup_insert_eq.
Qed.

Lemma sim_select_law sets k :
  keeps k (Sim.select sets k).2 ∧
  (0 ≤ (Sim.select sets k).1.1 →
    readfds (Sim.select sets k).1.2 ⊆ readfds sets ∧
    writefds (Sim.select sets k).1.2 ⊆ writefds sets ∧
    exceptfds (Sim.select sets k).1.2 ⊆ exceptfds sets).
Proof.
  unfold Sim.select. sim_answer k.
  destruct a as [[]|]; simpl; (split; [done|]); intros; try lia;
    repeat split; first [apply intersection_subseteq_l | apply empty_subseteq | done].
Qed.

Lemma sim_recv_law s n k :
  let r := Sim.recv s n k in
  r.1.1 ≤ Z.max 0 n ∧ len r.1.2 = Z.max 0 r.1.1 ∧
  open_fds r.2 = open_fds k ∧
  received r.2 s = received k s ++ r.1.2 ∧
  (∀ s', s' ≠ s → received r.2 s' = received k s') ∧
  (∀ s', sent r.2 s' = sent k s').
Proof.
  unfold Sim.recv. pose proof (next_keeps k) as [E Hs].
  destruct (Sim.next k) as [[[|bs| | | | ]|] k1]; simpl in *;
    try (repeat split; intros; try lia; try done; rewrite ?app_nil_r; apply Hs).
  repeat split; intros; try done.
  - len_lia.
  - len_lia.
  - rewrite at_insert, decide_True by done. f_equal. apply Hs.
  - rewrite at_insert, decide_False by done. apply Hs.
  - apply Hs.
Qed.

Lemma sim_send_law s data k :
  let r := Sim.send s data k in
  r.1 ≤ len data ∧
  open_fds r.2 = open_fds k ∧
  sent r.2 s = sent k s ++ take (Z.to_nat r.1) data ∧
  (∀ s', s' ≠ s → sent r.2 s' = sent k s') ∧
  (∀ s', received r.2 s' = received k s').
Proof.
  unfold Sim.send. pose proof (next_keeps k) as [E Hs].
  assert (∀ d : list byte, (∃ n, d = take n data) →
    len d ≤ len data ∧ take (length d) data = d) as Hd.
  { intros d [n ->]. split; [len_lia|]. rewrite length_take.
    destruct (decide (n ≤ length data)%nat); [by rewrite Nat.min_l|].
    rewrite Nat.min_r, !take_ge by lia. done. }
  assert (∃ n, data = take n data) as Hall by (exists (length data); by rewrite firstn_all).
  destruct (Sim.next k) as [[[z| | | | | ]|] k1]; simpl in *;
    rewrite ?Nat2Z.id, ?at_insert, ?decide_True by done;
    repeat split; intros; try done; try lia;
    rewrite ?at_insert, ?decide_False, ?app_nil_r by done; try apply Hs;
    try (f_equal; [apply Hs|symmetry]); try (apply Hd; by eauto).
Qed.

Lemma sim_query_keeps k :
  keeps k (Sim.getsockname k).2 ∧ keeps k (Sim.getaddrinfo k).2 ∧ keeps k (Sim.now k).2.
Proof.
  unfold Sim.getsockname, Sim.getaddrinfo, Sim.now. sim_answer k. by destruct a as [[]|].
Qed.

Lemma sim_recv_interrupted s n k :
  (signals (Sim.recv s n k).2 ≤ signals k)%nat ∧
  ((Sim.recv s n k).1.1 < 0 → errno (Sim.recv s n k).2 = EINTR →
   (signals (Sim.recv s n k).2 < signals k)%nat).
Proof.
  unfold Sim.recv. pose proof (next_signals k) as [H1 H2].
  destruct (Sim.next k) as [[[| |e| | | ]|] k1]; simpl in *; split; try done; intros; try lia.
  subst. by apply H2.
Qed.

Lemma sim_send_interrupted s data k :
  (signals (Sim.send s data k).2 ≤ signals k)%nat ∧
  ((Sim.send s data k).1 < 0 → errno (Sim.send s data k).2 = EINTR →
   (signals (Sim.send s data k).2 < signals k)%nat).
Proof.
  unfold Sim.send. pose proof (next_signals k) as [H1 H2].
  destruct (Sim.next k) as [[[| |e| | | ]|] k1]; simpl in *; split; try done; intros; try lia.
  subst. by apply H2.
Qed.

#[export] Instance sim_laws : KernelLaws sim.
Proof.
  constructor; intros; cbn [sys_socket sys_accept sys_close sys_fcntl_getfl sys_fcntl_setfl
    sys_getsockname sys_recv sys_send sys_select sys_getaddrinfo sys_setsockopt_reuseaddr
    sys_bind sys_listen sys_connect sys_now sim_kernel].
  - apply sim_socket_law.
  - apply sim_accept_law.
  - apply sim_close_law.
  - apply sim_getfl_law.
  - apply sim_setfl_law.
  - apply sim_query_keeps.
  - apply sim_select_law.
  - apply sim_query_keeps.
  - apply status_call_keeps.
  - apply status_call_keeps.
  - apply status_call_keeps.
  - apply status_call_keeps.
  - apply sim_query_keeps.
  - apply sim_recv_law.
  - apply sim_send_law.
  - apply sim_recv_interrupted.
  - apply sim_send_interrupted.
Qed.

(** *** The world of [Sim] is finite *)

Definition answer_size (a : answer) : nat :=
  match a with Data bs => S (length bs) | _ => 1 end.

Definition script_size (l : list answer) : nat := foldr (λ a n, (answer_size a + n)%nat) 0%nat l.

#[export] Instance sim_world : World sim := {|
  traffic k := script_size (script k);
  looks_left d k := Z.to_nat (d - sim_clock k);
|}.

Lemma sim_calm k k' :
  script k' = script (Sim.next k).2 → sim_clock k' = sim_clock k → calm k k'.
Proof.
  intros Es Ec. pose proof (next_signals k) as [Hsig _]. unfold calm. simpl in *.
  unfold Sim.interruptions in *. rewrite Es, Ec. split; [|split; [done|exact Hsig]].
  unfold Sim.next. destruct (script k) as [|a l] eqn:E; simpl; [|lia]. by rewrite E.
Qed.

(** All calls but the clock take one answer. *)
Lemma next_clock k : sim_clock (Sim.next k).2 = sim_clock k.
Proof. unfold Sim.next. by destruct (script k). Qed.

Ltac sim_takes k :=
  pose proof (next_clock k); apply sim_calm;
  destruct (Sim.next k) as [? ?]; simpl in *;
  repeat (case_match; simplify_eq/=; try done).

Lemma next_traffic k a :
  (Sim.next k).1 = Some a →
  (traffic (Sim.next k).2 + answer_size a = traffic k)%nat.
Proof.
  simpl. unfold Sim.next. destruct (script k) as [|b l] eqn:E; simpl; [done|].
  intros [= ->]. lia.
Qed.

#[export] Instance sim_finite : FiniteWorld sim.
Proof.
  constructor; intros; simpl.
  - split; [unfold Sim.recv; sim_takes k|].
    unfold Sim.recv. pose proof (next_traffic k) as Ht.
    pose proof (sim_calm k (Sim.next k).2 eq_refl (next_clock k)) as (Hc & _).
    destruct (Sim.next k) as [[[|bs| | | | ]|] k1]; simpl in *; try lia.
    specialize (Ht _ eq_refl). simpl in Ht. rewrite length_take. lia.
  - split; [unfold Sim.accept, Sim.open_fd; sim_takes k|].
    unfold Sim.accept, Sim.open_fd. pose proof (next_traffic k) as Ht.
    assert (∀ a, (1 ≤ answer_size a)%nat) as Hp by (intros []; simpl; lia).
    destruct (Sim.next k) as [[a|] k1]; simpl in *; [|split; [lia|done]].
    specialize (Ht _ eq_refl). specialize (Hp a).
    destruct (Z.leb_spec Sim.RLIMIT_NOFILE (Sim.fresh_fd k1)); unfold Sim.RLIMIT_NOFILE in *;
      destruct a; simpl in *; (split; [intros; lia|lia]).
  - split; [|intros; lia]. split; [done|]. split; [|done]. intros d. simpl. lia.
  - split; [unfold Sim.socket, Sim.open_fd; sim_takes k|].
    unfold Sim.socket, Sim.open_fd. destruct (Sim.next k) as [a k1].
    destruct (Z.leb_spec Sim.RLIMIT_NOFILE (Sim.fresh_fd k1)); unfold Sim.RLIMIT_NOFILE in *;
      destruct a as [[]|]; simpl; lia.
  - unfold Sim.send. sim_takes k.
  - unfold Sim.close, Sim.status_call. sim_takes k.
  - unfold Sim.getfl, Sim.status_call. sim_takes k.
  - unfold Sim.setfl, Sim.status_call. sim_takes k.
  - unfold Sim.getsockname. sim_takes k.
  - unfold Sim.select. sim_takes k.
  - unfold Sim.getaddrinfo. sim_takes k.
  - unfold Sim.status_call. sim_takes k.
  - unfold Sim.status_call. sim_takes k.
  - unfold Sim.status_call. sim_takes k.
Qed.
