(* ===== verification/DecoderBenchmark.v ===== *)
(** * The harnesses of the decoder (benchmarks/decoder_benchmark.cpp, fuzz/decoder_fuzz.cpp)

    The streams of frames the benchmark builds, the loop that takes them apart
    and the entry of the fuzzer.  One iteration of each benchmark is modelled;
    what the benchmark library does with it is not. *)

From S2P Require Import Prelude Vector FrameCodec Os.

Definition k_max_payload_bytes : Z := Z.shiftl 1 20.
Definition k_fuzz_max_payload_bytes : Z := 65536.

(** A payload with byte [f i] at [i]. *)
Definition fill (payload_bytes : Z) (f : Z → Z) : list byte :=
  (λ i, byte_of_Z (Z.land (f (Z.of_nat i)) 255)) <$> seq 0 (Z.to_nat payload_bytes).

Definition make_wire (t : target) (payload_bytes : Z) : outcome (list byte) :=
  let payload := fill payload_bytes (λ i, i) in
  wire ← checked_reserve t (to_size t (k_frame_length_field_bytes + payload_bytes)) Vec.empty;
  ok ← append_encoded_frame t wire payload k_max_payload_bytes;
  match ok.1 with
  | Unexpected _ => Ret []
  | Val _ => Ret (vdata ok.2)
  end.

(** [for (int f = ...; f < frame_count; ++f)], [n] turns from [f] on. *)
Fixpoint stream_loop (n : nat) (t : target) (f : Z) (payload : list byte) (wire : vec)
    : outcome (list byte) :=
  match n with
  | O => Ret (vdata wire)
  | S n =>
      let payload := if 0 <? len payload then <[0%nat := byte_of_Z (Z.land f 255)]> payload else payload in
      r ← append_encoded_frame t wire payload k_max_payload_bytes;
      match r.1 with
      | Unexpected _ => Ret []
      | Val _ => stream_loop n t (f + 1) payload r.2
      end
  end.

Definition make_stream (t : target) (payload_bytes frame_count : Z) : outcome (list byte) :=
  let payload := fill payload_bytes (λ i, Z.lxor i 90) in
  wire ← checked_reserve t
           (to_size t (to_size t frame_count * to_size t (k_frame_length_field_bytes + payload_bytes)))
           Vec.empty;
  stream_loop (Z.to_nat frame_count) t 0 payload wire.

Section benchmark.
Context {K : Type}.

Definition decode_single_frame (t : target) (payload_bytes : Z) : prog K (expected unit string) :=
  wire ← pure_code (make_wire t payload_bytes);
  if len wire <? k_frame_length_field_bytes then mret (Unexpected "encode failed"%string)
  else
    r ← pure_code (try_decode_frame t wire k_max_payload_bytes);
    if decide (status r ≠ Complete) then mret (Unexpected "decode not complete"%string)
    else mret (Val ()).

(** [while (off < wire.size())] *)
Fixpoint decode_stream_loop (fuel : nat) (t : target) (wire : list byte) (off decoded : Z)
    : prog K (expected Z string) :=
  match fuel with
  | O => halt Fuel
  | S fuel =>
      if off <? len wire then
        r ← pure_code (try_decode_frame t (drop (Z.to_nat off) wire) k_max_payload_bytes);
        if decide (status r ≠ Complete) then mret (Unexpected "decode stream incomplete"%string)
        else decode_stream_loop fuel t wire (off + consumed_bytes r) (decoded + 1)
      else mret (Val decoded)
  end.

Definition decode_stream (fuel : nat) (t : target) (payload_bytes frame_count : Z)
    : prog K (expected Z string) :=
  wire ← pure_code (make_stream t payload_bytes frame_count);
  if bool_decide (wire = []) && (0 <? frame_count) then mret (Unexpected "encode stream failed"%string)
  else
    r ← decode_stream_loop fuel t wire 0 0;
    match r with
    | Unexpected e => mret (Unexpected e)
    | Val decoded =>
        if decoded =? frame_count then mret (Val decoded)
        else mret (Unexpected "decode stream frame count mismatch"%string)
    end.
End benchmark.

(** The body of the fuzzer: the result is dropped. *)
Definition run_decode (t : target) (buffer : list byte) : outcome unit :=
  _ ← try_decode_frame t buffer k_fuzz_max_payload_bytes; Ret ().

(** [read_all_binary]: the characters of the stream, as bytes; a [char] is
    signed. *)
Definition read_all_binary (chunk : list Z) : list byte :=
  (λ c, byte_of_Z (wrap 8 c)) <$> chunk.

Definition endl : string := String.String (Ascii.ascii_of_nat 10) EmptyString.

(** [main], without the sanitizer's entry point: what it writes to [std::cerr]
    and its result. [open] is [std::ifstream], [None] where it fails. *)
Definition fuzz_main (t : target) (open : string → option (list Z)) (stdin : list Z)
    (argv : list string) : outcome (string * Z) :=
  match argv with
  | [argv0; arg] =>
      match (if bool_decide (arg = "-") then Some stdin else open arg) with
      | None => Ret ("failed to open: " +:+ arg +:+ endl, 2)
      | Some chunk => _ ← run_decode t (read_all_binary chunk); Ret (EmptyString, 0)
      end
  | argv0 :: _ => Ret ("usage: " +:+ argv0 +:+ " <file|- (stdin)>" +:+ endl, 1)
  | [] => UB
  end%string.

(** ** The streams *)

Lemma fill_length n f : len (fill n f) = Z.max 0 n.
Proof. unfold fill. rewrite length_fmap, length_seq. lia. Qed.

Lemma checked_reserve_empty t n : n ≤ max_size t → ∃ v, checked_reserve t n Vec.empty = Ret v ∧ vdata v = [].
Proof.
  intros. unfold checked_reserve. rewrite (proj2 (Z.ltb_ge _ _)) by done.
  eexists. split; [done|]. done.
Qed.

Lemma stream_loop_spec n t f p wire :
  len p ≤ effective_max_payload k_max_payload_bytes →
  Vec.size wire + Z.of_nat n * (4 + len p) ≤ max_size t →
  ∃ ps, stream_loop n t f p wire = Ret (vdata wire ++ frames ps) ∧ length ps = n ∧
    Forall (λ q, len q = len p) ps.
Proof.
  intros Hp. revert f p wire Hp.
  induction n as [|n IH]; intros f p wire Hp Hsz; cbn [stream_loop].
  { exists []. by rewrite app_nil_r. }
  set (q := if 0 <? len p then _ else _).
  assert (len q = len p) as Hq by (unfold q; case_match; rewrite ?length_insert; done).
  rewrite append_encoded_frame_eq by lia.
  rewrite (proj2 (Z.ltb_ge _ _)) by lia. simpl.
  destruct (IH (f + 1) q (mkVec (vdata wire ++ frame q)
    (Z.max (vcap wire) (Vec.size wire + 4 + len q)))) as (ps & E & Hn & Hall); [lia| |].
  { unfold Vec.size in *. simpl. rewrite length_app, frame_length. lia. }
  exists (q :: ps). rewrite E. simpl. split; [by rewrite <- app_assoc|].
  split; [by rewrite Hn|]. constructor; [done|]. by rewrite <- Hq.
Qed.

Lemma decode_stream_loop_spec {K} fuel t pre ps decoded (k : K) :
  fits t k_max_payload_bytes → (length ps < fuel)%nat →
  Forall (λ q, len q ≤ effective_max_payload k_max_payload_bytes) ps →
  decode_stream_loop fuel t (pre ++ frames ps) (len pre) decoded k
    = Done (Val (decoded + len ps)) k.
Proof.
  intros Hfits Hf Hall. revert fuel pre decoded Hf.
  induction Hall as [|q ps Hq Hall IH]; intros [|fuel] pre decoded Hf; simpl in Hf; [lia| |lia|];
    cbn [decode_stream_loop].
  { rewrite (proj2 (Z.ltb_ge _ _)) by (unfold frames; simpl; rewrite app_nil_r; lia).
    do 2 f_equal. simpl. lia. }
  change (frames (q :: ps)) with (frame q ++ frames ps).
  rewrite (proj2 (Z.ltb_lt _ _)) by (rewrite !length_app, frame_length; lia).
  rewrite Nat2Z.id, drop_app_length, try_decode_frame_is_ref, decode_ref_frame by done.
  rewrite (prog_bind_Done _ _ _ (mkResult Complete (4 + len q) q) k) by done.
  rewrite decide_False by (simpl; tauto). cbn [consumed_bytes]. rewrite app_assoc. replace (len pre + (4 + len q)) with (len (pre ++ frame q))
    by (rewrite length_app, frame_length; lia).
  rewrite IH by lia. cbn [length]. do 2 f_equal. lia.
Qed.

(** ** Properties *)

(** C38. The benchmark takes apart every stream it builds: it decodes exactly
    the number of frames it encoded, whatever their number and their size
    within the limit, and never reports an error. *)
Theorem decode_stream_succeeds {K} fuel t payload_bytes frame_count (k : K) :
  fits t k_max_payload_bytes →
  0 ≤ payload_bytes ≤ effective_max_payload k_max_payload_bytes → 0 ≤ frame_count →
  frame_count * (4 + payload_bytes) ≤ max_size t → (Z.to_nat frame_count < fuel)%nat →
  decode_stream fuel t payload_bytes frame_count k = Done (Val frame_count) k.
Proof.
  intros Hfits Hp Hn Hsz Hf.
  unfold decode_stream, make_stream, k_frame_length_field_bytes.
  pose proof (fill_length payload_bytes (λ i, Z.lxor i 90)) as Hlen.
  set (p := fill _ _) in *.
  destruct (decide (frame_count = 0)) as [->|Hpos].
  { assert (to_size t 0 = 0) as H0 by (unfold to_size, wrap; by rewrite Zmod_0_l).
    rewrite H0, Z.mul_0_l, H0. destruct (checked_reserve_empty t 0) as (v & -> & Hv); [done|].
    simpl. rewrite Hv. destruct fuel; [lia|]. done. }
  assert (∀ z, 0 ≤ z ≤ max_size t → to_size t z = z) as Hto
    by (intros; apply wrap_small; split; [lia|by apply max_size_lt]).
  rewrite (Hto frame_count), (Hto (4 + payload_bytes)), (Hto (frame_count * _)) by nia.
  destruct (checked_reserve_empty t (frame_count * (4 + payload_bytes))) as (v & -> & Hv); [done|].
  destruct (stream_loop_spec (Z.to_nat frame_count) t 0 p v) as (ps & E & Hl & Hall);
    [lia|unfold Vec.size; rewrite Hv, Hlen; simpl; nia|].
  rewrite Hv in E. simpl in E.
  rewrite (prog_bind_Done _ _ _ (frames ps) k) by (simpl; by rewrite E).
  destruct ps as [|q ps]; [simpl in Hl; lia|]. simpl.
  rewrite (prog_bind_Done _ _ _ _ _ (decode_stream_loop_spec fuel t [] (q :: ps) 0 k Hfits ltac:(lia)
    ltac:(eapply Forall_impl; [exact Hall|]; simpl; intros; lia))).
  rewrite (proj2 (Z.eqb_eq _ _)) by lia. unfold mret, prog_ret. do 2 f_equal. lia.
Qed.

(** No input makes the decoder fail under the fuzzer: no assertion, no
    exception, no read out of bounds. *)
Theorem fuzz_never_fails t buffer :
  fits t k_fuzz_max_payload_bytes → run_decode t buffer = Ret ().
Proof. intros. unfold run_decode. by rewrite try_decode_frame_is_ref. Qed.

Lemma decode_stream_succeeds_witness :
  decode_stream (K := unit) 5 lp64 3 4 () = Done (Val 4) ().
Proof.
  apply (decode_stream_succeeds 5 lp64 3 4 ()); [by apply wide_fits|done|done|done|lia].
Defined.

Lemma fuzz_never_fails_witness : run_decode ilp32 [x00; x00; x00; x02; x41] = Ret ().
Proof. apply (fuzz_never_fails ilp32). by vm_compute. Defined.

(** Whatever the arguments and the files, the fuzzer's [main] returns, and with
    0 exactly when it has decoded an input. *)
Lemma fuzz_main_returns t open stdin argv0 args :
  fits t k_fuzz_max_payload_bytes →
  ∃ err code, fuzz_main t open stdin (argv0 :: args) = Ret (err, code) ∧
    (code = 0 ↔ ∃ arg, args = [arg] ∧ (arg = "-"%string ∨ is_Some (open arg))).
Proof.
  intros Hf. destruct args as [|arg [|]]; simpl.
  - eexists _, 1. split; [done|]. split; [done|]. by intros (? & ? & _).
  - case_bool_decide as Harg.
    + unfold run_decode. rewrite try_decode_frame_is_ref by done. eexists _, 0. split; [done|].
      split; [|done]. intros _. exists arg. auto.
    + destruct (open arg) as [chunk|] eqn:E.
      * unfold run_decode. rewrite try_decode_frame_is_ref by done. eexists _, 0. split; [done|].
        split; [|done]. intros _. exists arg. rewrite E. eauto.
      * eexists _, 2. split; [done|]. split; [done|].
        intros (arg' & [= <-] & [?|[? ?]]); [done|congruence].
  - eexists _, 1. split; [done|]. split; [done|]. by intros (? & ? & _).
Qed.
