(* ===== verification/Socket.v ===== *)
(** * Sockets (src/net/socket.cpp)

    [Socket], the RAII owner of a descriptor, with its special member
    functions, and who owns what when many [Socket] objects live, move, are
    closed and die. [NetworkSession] is the no-op it is on POSIX. *)

From S2P Require Import Prelude Os.

Module SocketErrorCode.
Inductive Code := NotInitialized | CreateFailed | CloseFailed | NonBlockingFailed.
End SocketErrorCode.
Record SocketError := mkSocketError {
  socket_code : SocketErrorCode.Code; socket_message : string; socket_native_error : Z }.

(** [NetworkSession], after construction. *)
Record NetworkSession := mkSession { ok_ : bool; last_error_ : Z }.
Definition network_session : NetworkSession := mkSession true 0.

(** [k_invalid_socket]; [NativeSocket] is [int]. *)
Definition k_invalid_socket : Z := -1.

Record Socket := mkSocket { socket_ : Z }.

#[export] Instance Socket_eq_dec : EqDecision Socket.
Proof. solve_decision. Defined.

Definition valid (s : Socket) : bool := bool_decide (socket_ s ≠ k_invalid_socket).
Definition native_handle (s : Socket) : Z := socket_ s.

(** [Socket()]. *)
Definition no_socket : Socket := mkSocket k_invalid_socket.

(** [Socket(Socket&& other)]: the new object, and [other] afterwards. *)
Definition move_socket (other : Socket) : Socket * Socket :=
  (mkSocket (socket_ other), mkSocket k_invalid_socket).

(** [release()]. *)
Definition release (s : Socket) : Z * Socket := (socket_ s, mkSocket k_invalid_socket).

Section with_kernel.
Context {K : Type} `{!Kernel K}.

Definition create_tcp_v4 : prog K (expected Socket SocketError) :=
  s ← call_os (sys_socket AF_INET SOCK_STREAM 0);
  if s <? 0 then
    e ← read_os errno;
    mret (Unexpected (mkSocketError SocketErrorCode.CreateFailed "socket() failed" e))
  else mret (Val (mkSocket s)).

Definition set_nonblocking (enable : bool) (sock : Socket)
    : prog K (expected unit SocketError) :=
  if negb (valid sock) then
    mret (Unexpected (mkSocketError SocketErrorCode.NotInitialized "socket is invalid" 0))
  else
    flags ← call_os (sys_fcntl_getfl (socket_ sock));
    if flags <? 0 then
      e ← read_os errno;
      mret (Unexpected (mkSocketError SocketErrorCode.NonBlockingFailed "fcntl(F_GETFL) failed" e))
    else
      let new_flags := if enable then Z.lor flags O_NONBLOCK
                       else Z.land flags (Z.lnot O_NONBLOCK) in
      rc ← call_os (sys_fcntl_setfl (socket_ sock) new_flags);
      if negb (rc =? 0) then
        e ← read_os errno;
        mret (Unexpected (mkSocketError SocketErrorCode.NonBlockingFailed "fcntl(F_SETFL) failed" e))
      else mret (Val ()).

(** [close()]: the result, and the object afterwards. *)
Definition close (sock : Socket) : prog K (expected unit SocketError * Socket) :=
  if decide (socket_ sock = k_invalid_socket) then mret (Val (), sock)
  else
    let s := socket_ sock in
    let sock := mkSocket k_invalid_socket in
    rc ← call_os (sys_close s);
    if negb (rc =? 0) then
      e ← read_os errno;
      mret (Unexpected (mkSocketError SocketErrorCode.CloseFailed "close() failed" e), sock)
    else mret (Val (), sock).

(** [~Socket()]. *)
Definition destroy (sock : Socket) : prog K unit := _ ← close sock; mret ().

(** [reset(s)]. *)
Definition reset (s : Z) (sock : Socket) : prog K Socket :=
  _ ← close sock; mret (mkSocket s).

(** [operator=(Socket&& other)]; [same] is [this == &other]. Both objects
    afterwards. *)
Definition move_assign (same : bool) (this other : Socket) : prog K (Socket * Socket) :=
  if same then mret (this, other)
  else
    _ ← close this;
    mret (mkSocket (socket_ other), mkSocket k_invalid_socket).

(** ** Many objects

    The [Socket] objects alive, by address, and what can be done to them. *)
Abbreviation store := (gmap Z Socket).

Inductive sock_op :=
| Default (a : Z)             (* Socket a; *)
| FromHandle (a s : Z)        (* Socket a{s}; *)
| CreateTcp (a : Z)           (* auto a = Socket::create_tcp_v4(); *)
| MoveNew (a b : Z)           (* Socket a{std::move(b)}; *)
| MoveAssign (a b : Z)        (* a = std::move(b); *)
| SetNonblocking (a : Z) (enable : bool)
| Close (a : Z)
| Release (a : Z)
| Reset (a s : Z)
| Destroy (a : Z).

Definition object (st : store) (a : Z) : Socket := default no_socket (st !! a).

(** Runs an operation; a handle that leaves the objects is returned. *)
Definition exec (o : sock_op) (st : store) : prog K (store * option Z) :=
  match o with
  | Default a => mret (<[a := no_socket]> st, None)
  | FromHandle a s => mret (<[a := mkSocket s]> st, None)
  | CreateTcp a =>
      r ← create_tcp_v4;
      mret (match r with Val s => <[a := s]> st | Unexpected _ => st end, None)
  | MoveNew a b =>
      let (x, y) := move_socket (object st b) in mret (<[a := x]> (<[b := y]> st), None)
  | MoveAssign a b =>
      r ← move_assign (bool_decide (a = b)) (object st a) (object st b);
      mret (<[a := r.1]> (<[b := r.2]> st), None)
  | SetNonblocking a enable => _ ← set_nonblocking enable (object st a); mret (st, None)
  | Close a => r ← close (object st a); mret (<[a := r.2]> st, None)
  | Release a => let (s, x) := release (object st a) in mret (<[a := x]> st, Some s)
  | Reset a s => x ← reset s (object st a); mret (<[a := x]> st, None)
  | Destroy a => _ ← destroy (object st a); mret (delete a st, None)
  end.

(** What the language and the callers provide: objects are constructed at free
    addresses and used while alive, and a handle given to an object is one
    nobody owns. [loose] are the open descriptors no object owns. *)
Definition allowed (o : sock_op) (st : store) (loose : gset Z) : Prop :=
  match o with
  | Default a | CreateTcp a => st !! a = None
  | FromHandle a s => st !! a = None ∧ (s = k_invalid_socket ∨ s ∈ loose)
  | MoveNew a b => st !! a = None ∧ is_Some (st !! b)
  | MoveAssign a b => is_Some (st !! a) ∧ is_Some (st !! b)
  | SetNonblocking a _ | Close a | Release a | Destroy a => is_Some (st !! a)
  | Reset a s => is_Some (st !! a) ∧ (s = k_invalid_socket ∨ s ∈ loose)
  end.

(** Handles taken from and given back to the loose ones. *)
Definition taken (o : sock_op) : gset Z :=
  match o with FromHandle _ s | Reset _ s => {[s]} | _ => ∅ end.
Definition given (out : option Z) : gset Z :=
  match out with
  | Some s => if decide (s = k_invalid_socket) then ∅ else {[s]}
  | None => ∅
  end.

Context `{!Observe K}.

Definition objects : Type := store * gset Z * K.

Inductive sock_step : relation objects :=
| sock_exec o st loose k st' out k' :
    allowed o st loose → exec o st k = Done (st', out) k' →
    sock_step (st, loose, k) (st', (loose ∖ taken o) ∪ given out, k')
| sock_elsewhere st loose k r k' :            (* other code opens a descriptor *)
    0 ≤ r → opens r k k' → sock_step (st, loose, k) (st, {[r]} ∪ loose, k').

Definition start_objects (s : objects) : Prop := s.1.1 = ∅ ∧ s.1.2 = open_fds s.2 ∧ ∀ x, x ∈ open_fds s.2 → 0 ≤ x.

(** The object at [a] owns descriptor [x]. *)
Definition owns (st : store) (a x : Z) : Prop :=
  x ≠ k_invalid_socket ∧ socket_ (object st a) = x.

(** Every open descriptor has one owner: an object, or the callers. *)
Record accounted (st : store) (loose : gset Z) (k : K) : Prop := {
  acc_open x : x ∈ open_fds k ↔ (∃ a, owns st a x) ∨ x ∈ loose;
  acc_one a b x : owns st a x → owns st b x → a = b;
  acc_apart a x : owns st a x → x ∉ loose;
  acc_natural x : x ∈ open_fds k → 0 ≤ x;
}.

(** ** The operations in closed form *)

Context `{!KernelLaws K}.

Lemma close_spec sock k :
  ∃ r k', close sock k = Done (r, no_socket) k' ∧
    open_fds k' = (if valid sock then open_fds k ∖ {[socket_ sock]} else open_fds k) ∧
    same_streams k k'.
Proof.
  unfold close, valid. destruct sock as [h]. simpl.
  case_decide as Hh.
  - subst h. exists (Val ()), k. rewrite bool_decide_false by auto. by repeat split.
  - rewrite bool_decide_true by done.
    pose proof (close_law h k) as [E Hs].
    unfold mbind, prog_bind, call_os. destruct (sys_close h k) as [rc k1]. simpl in *.
    by destruct (rc =? 0); simpl; eauto 6.
Qed.

Lemma create_spec k :
  ∃ r k', create_tcp_v4 k = Done r k' ∧
    match r with
    | Val s => 0 ≤ socket_ s ∧ opens (socket_ s) k k'
    | Unexpected e => keeps k k' ∧ socket_code e = SocketErrorCode.CreateFailed
    end.
Proof.
  unfold create_tcp_v4, mbind, prog_bind, call_os.
  pose proof (socket_law AF_INET SOCK_STREAM 0 k) as Ho.
  destruct (sys_socket _ _ _ k) as [s k1]. simpl in *.
  destruct (Z.ltb_spec s 0); simpl; eexists _, _; (split; [reflexivity|]); [|done].
  by split; [apply Ho|].
Qed.

(** *** The flag *)

Lemma new_flags_bit (enable : bool) flags i :
  Z.testbit (if enable then Z.lor flags O_NONBLOCK else Z.land flags (Z.lnot O_NONBLOCK)) i
  = if decide (i = 11) then enable else Z.testbit flags i.
Proof.
  change O_NONBLOCK with (2 ^ 11).
  destruct (decide (i < 0)) as [|Hi].
  { rewrite !(Z.testbit_neg_r _ i) by lia. by rewrite decide_False by lia. }
  destruct enable.
  - rewrite Z.lor_spec, Z.pow2_bits_eqb by lia.
    destruct (Z.eqb_spec 11 i); case_decide; subst; try done;
      by rewrite ?orb_true_r, ?orb_false_r.
  - rewrite Z.land_spec, Z.lnot_spec, Z.pow2_bits_eqb by lia.
    destruct (Z.eqb_spec 11 i); case_decide; subst; try done;
      by rewrite ?andb_false_r, ?andb_true_r.
Qed.

Lemma set_nonblocking_run enable sock k :
  ∃ r k', set_nonblocking enable sock k = Done r k' ∧ keeps k k' ∧
    match r with
    | Val _ => valid sock = true ∧
        ∀ i, Z.testbit (fd_flags k' (socket_ sock)) i
             = if decide (i = 11) then enable else Z.testbit (fd_flags k (socket_ sock)) i
    | Unexpected e =>
        if valid sock
        then socket_code e = SocketErrorCode.NonBlockingFailed ∧ socket_native_error e = errno k'
        else socket_code e = SocketErrorCode.NotInitialized ∧ k' = k
    end.
Proof.
  unfold set_nonblocking, mbind, prog_bind, call_os, read_os.
  destruct (valid sock) eqn:Hv; simpl; [|by eexists _, _].
  pose proof (getfl_law (socket_ sock) k) as (Hk1 & Hf1 & Hv1).
  destruct (sys_fcntl_getfl (socket_ sock) k) as [flags k1]. simpl in *.
  destruct (Z.ltb_spec flags 0); [by eexists _, _|]. simpl.
  set (nf := if enable then _ else _).
  pose proof (setfl_law (socket_ sock) nf k1) as (Hk2 & Hf2).
  destruct (sys_fcntl_setfl (socket_ sock) nf k1) as [rc k2]. simpl in *.
  assert (keeps k k2) by (by transitivity k1).
  destruct (Z.eqb_spec rc 0); simpl; [|by eexists _, _].
  eexists _, _. split; [reflexivity|]. split; [done|]. split; [done|].
  rewrite Hf1, <- Hv1 in Hf2 by done. intros i. rewrite <- Hv1 by done.
  rewrite Hf2; [apply new_flags_bit|done|].
  intros j Hj. etransitivity; [apply new_flags_bit|]. by rewrite decide_False.
Qed.

(** ** Moves of ownership *)

Lemma object_insert st a x b : object (<[a := x]> st) b = if decide (a = b) then x else object st b.
Proof. unfold object. rewrite lookup_insert. by case_decide. Qed.

Lemma object_delete st a b : object (delete a st) b = if decide (a = b) then no_socket else object st b.
Proof. unfold object. rewrite lookup_delete. by case_decide. Qed.

Lemma object_free st a : st !! a = None → object st a = no_socket.
Proof. unfold object. by intros ->. Qed.

(** Only the objects' handles matter. *)
Lemma accounted_ext st st' loose k :
  (∀ a, object st' a = object st a) → accounted st loose k → accounted st' loose k.
Proof.
  intros E [H1 H2 H3 H4].
  assert (∀ a x, owns st' a x ↔ owns st a x) as Eo by (intros; unfold owns; by rewrite E).
  constructor.
  - intros x. rewrite H1. by setoid_rewrite Eo.
  - intros a b x. rewrite !Eo. apply H2.
  - intros a x. rewrite Eo. apply H3.
  - done.
Qed.

Lemma accounted_keeps st loose k k' :
  open_fds k' = open_fds k → accounted st loose k → accounted st loose k'.
Proof. intros E [H1 H2 H3 H4]. by constructor; rewrite ?E. Qed.

(** The owner at [a] lets go of its descriptor. *)
Lemma accounted_let_go st loose k a :
  accounted st loose k →
  accounted (<[a := no_socket]> st)
    (loose ∪ (if valid (object st a) then {[socket_ (object st a)]} else ∅)) k.
Proof.
  intros [H1 H2 H3 H4]. set (h := object st a).
  assert (∀ b x, owns (<[a := no_socket]> st) b x ↔ owns st b x ∧ a ≠ b) as Eo.
  { intros b x. unfold owns. rewrite object_insert. case_decide; simpl; [|tauto].
    split; [by intros [? <-]|tauto]. }
  assert (∀ x, x ∈ (if valid h then {[socket_ h]} else ∅ : gset Z) ↔ owns st a x) as Eh.
  { intros x. unfold owns, valid. fold h. case_bool_decide; rewrite ?elem_of_singleton.
    - split; [by intros ->|by intros [_ ->]].
    - rewrite elem_of_empty. split; [done|]. by intros [? <-]. }
  constructor.
  - intros x. rewrite elem_of_union, Eh, H1. setoid_rewrite Eo. split.
    + intros [[b Hb]|Hx]; [|by auto]. destruct (decide (a = b)) as [->|]; [by auto|].
      left. by exists b.
    + intros [[b [Hb _]]|[Hx|Hx]]; eauto.
  - intros b c x. rewrite !Eo. intros [? _] [? _]. by eapply H2.
  - intros b x [Hb Hab]%Eo. rewrite elem_of_union, Eh. intros [Hx|Hx].
    + by eapply H3.
    + by apply Hab, (H2 _ _ x).
  - done.
Qed.

(** A loose descriptor gets an owner. *)
Lemma accounted_adopt st loose k a x :
  object st a = no_socket → x ∈ loose →
  accounted st loose k → accounted (<[a := mkSocket x]> st) (loose ∖ {[x]}) k.
Proof.
  intros Ha Hx [H1 H2 H3 H4].
  assert (0 ≤ x) as Hpos by (apply H4, H1; by right).
  assert (∀ b y, owns (<[a := mkSocket x]> st) b y ↔ (a = b ∧ x = y) ∨ (a ≠ b ∧ owns st b y)) as Eo.
  { intros b y. unfold owns. rewrite object_insert. case_decide; simpl; [|tauto].
    split; [by intros [_ ->]; auto|]. intros [[_ ->]|[? _]]; [|done].
    split; [unfold k_invalid_socket; lia|done]. }
  assert (∀ y, ¬ owns st a y) as Hno.
  { intros y [Hy E]. rewrite Ha in E. by subst y. }
  constructor.
  - intros y. rewrite elem_of_difference, elem_of_singleton, H1. setoid_rewrite Eo.
    destruct (decide (y = x)) as [->|Hne]; split.
    + intros _. left. exists a. by left.
    + intros _. by right.
    + intros [[b Hb]|Hy]; [|by auto]. left. exists b. right. split; [|done].
      intros ->. by eapply Hno.
    + intros [[b [[_ ->]|[_ Hb]]]|[Hy _]]; [done|by eauto|by auto].
  - intros b c y. rewrite !Eo. intros [[-> ->]|[Hb Ob]] [[-> Ey]|[Hc Oc]]; try done.
    + by destruct (H3 _ _ Oc).
    + subst y. by destruct (H3 _ _ Ob).
    + by eapply H2.
  - intros b y Hb%Eo. rewrite elem_of_difference, elem_of_singleton.
    destruct Hb as [[_ ->]|[_ Hb]]; intros [Hy Hne]; [done|by eapply H3].
  - done.
Qed.

(** A new descriptor is loose. *)
Lemma accounted_opened st loose k k' r :
  0 ≤ r → opens r k k' → accounted st loose k → accounted st ({[r]} ∪ loose) k'.
Proof.
  intros Hr (_ & Hf & Ho & _) [H1 H2 H3 H4].
  specialize (Hf Hr). destruct (Ho Hr) as [E _].
  constructor.
  - intros x. rewrite E, !elem_of_union, H1, elem_of_singleton. tauto.
  - done.
  - intros a x Hx. rewrite elem_of_union, elem_of_singleton. intros [->|Hl].
    + apply Hf, H1. by eauto.
    + by eapply H3.
  - intros x. rewrite E, elem_of_union, elem_of_singleton. intros [->|Hx]; [done|by apply H4].
Qed.

(** A loose descriptor is closed. *)
Lemma accounted_closed st loose k k' (X : gset Z) :
  open_fds k' = open_fds k ∖ X → X ⊆ loose →
  accounted st loose k → accounted st (loose ∖ X) k'.
Proof.
  intros E HX [H1 H2 H3 H4]. constructor.
  - intros x. rewrite E, !elem_of_difference, H1. split; [tauto|].
    intros [[a Ha]|[? ?]]; [|tauto]. split; [by eauto|].
    intros Hx%HX. by eapply H3.
  - done.
  - intros a x Ha. rewrite elem_of_difference. intros [? _]. by eapply H3.
  - intros x. rewrite E, elem_of_difference. intros [? _]. by apply H4.
Qed.

Lemma accounted_loose st loose loose' k :
  (∀ x, x ∈ loose' ↔ x ∈ loose) → accounted st loose k → accounted st loose' k.
Proof. intros E. by replace loose' with loose by (apply set_eq; intros; by rewrite E). Qed.

(** [close()] on the object at [a]. *)
Lemma accounted_close st loose k a :
  accounted st loose k →
  ∃ r k', close (object st a) k = Done (r, no_socket) k' ∧
    accounted (<[a := no_socket]> st) loose k'.
Proof.
  intros Hacc. destruct (close_spec (object st a) k) as (r & k' & E & Eo & _).
  exists r, k'. split; [done|]. pose proof (accounted_let_go st loose k a Hacc) as Hl.
  destruct (valid (object st a)) eqn:Hv.
  - eapply accounted_closed in Hl; [|exact Eo|apply union_subseteq_r].
    eapply accounted_loose; [|exact Hl]. intros x.
    rewrite elem_of_difference, elem_of_union, elem_of_singleton.
    split; [|tauto]. intros Hx. split; [by left|]. intros ->.
    apply bool_decide_eq_true in Hv. destruct Hacc as [_ _ Ha _].
    by eapply (Ha a).
  - eapply accounted_keeps; [exact Eo|]. eapply accounted_loose; [|exact Hl].
    intros x. rewrite elem_of_union, elem_of_empty. tauto.
Qed.

(** Moving from [b] to an object that holds nothing. *)
Lemma accounted_move st loose k a b :
  object st a = no_socket → a ≠ b → accounted st loose k →
  accounted (<[a := object st b]> (<[b := no_socket]> st)) loose k.
Proof.
  intros Ha Hab Hacc. pose proof (accounted_let_go st loose k b Hacc) as Hl.
  destruct (valid (object st b)) eqn:Hv; destruct (object st b) as [h] eqn:Hb; simpl in *.
  - eapply (accounted_adopt _ _ _ a h) in Hl.
    + eapply accounted_loose; [|exact Hl]. intros x.
      rewrite elem_of_difference, elem_of_union, elem_of_singleton. split; [|tauto].
      intros Hx. split; [by left|]. intros ->. apply bool_decide_eq_true in Hv.
      destruct Hacc as [_ _ Hap _]. eapply (Hap b); [|done]. split; [done|by rewrite Hb].
    + by rewrite object_insert, decide_False by done.
    + rewrite elem_of_union, elem_of_singleton. by right.
  - apply bool_decide_eq_false, dec_stable in Hv. simpl in Hv. subst h.
    eapply accounted_ext; [|eapply accounted_loose; [|exact Hl]].
    + intros c. rewrite !object_insert. repeat case_decide; subst; try done.
    + intros x. rewrite elem_of_union, elem_of_empty. tauto.
Qed.

(** Giving a handle to an object that holds nothing. *)
Lemma accounted_give st loose k a s :
  object st a = no_socket → s = k_invalid_socket ∨ s ∈ loose → accounted st loose k →
  accounted (<[a := mkSocket s]> st) (loose ∖ {[s]}) k.
Proof.
  intros Ha Hs Hacc. destruct (decide (s = k_invalid_socket)) as [->|Hne].
  - eapply accounted_ext; [|eapply accounted_loose; [|exact Hacc]].
    + intros b. rewrite object_insert. case_decide; [by subst|done].
    + intros x. rewrite elem_of_difference, elem_of_singleton. split; [tauto|].
      intros Hx. split; [done|]. intros ->. destruct Hacc as [Ho _ _ Hp].
      assert (k_invalid_socket ∈ open_fds k) as Hn by (apply Ho; by right).
      apply Hp in Hn. by vm_compute in Hn.
  - destruct Hs; [done|]. by apply accounted_adopt.
Qed.

Lemma accounted_same_object st loose k a x :
  object st a = x → accounted st loose k → accounted (<[a := x]> st) loose k.
Proof.
  intros Ha. apply accounted_ext. intros b. rewrite object_insert. by case_decide; subst.
Qed.

Lemma accounted_union_empty st loose k :
  accounted st loose k → accounted st (loose ∖ ∅ ∪ ∅) k.
Proof.
  apply accounted_loose. intros x. rewrite elem_of_union, elem_of_difference, elem_of_empty. tauto.
Qed.

(** Every operation returns and keeps the accounts. *)
Lemma exec_accounted o st loose k :
  allowed o st loose → accounted st loose k →
  ∃ st' out k', exec o st k = Done (st', out) k' ∧
    accounted st' ((loose ∖ taken o) ∪ given out) k'.
Proof.
  destruct o as [a|a s|a|a b|a b|a enable|a|a|a s|a]; intros Hall Hacc; simpl in Hall.
  - eexists _, _, _. split; [reflexivity|]. apply accounted_union_empty.
    apply accounted_same_object; [by apply object_free|done].
  - destruct Hall as [Hfree Hs]. eexists _, _, _. split; [reflexivity|]. simpl.
    rewrite union_empty_r_L. apply accounted_give; [by apply object_free|done..].
  - destruct (create_spec k) as (r & k' & E & Hr).
    eexists _, _, k'. simpl. unfold mbind, prog_bind. rewrite E. split; [reflexivity|].
    apply accounted_union_empty. destruct r as [[s]|e].
    + destruct Hr as [Hs Ho]. simpl in *.
      pose proof (accounted_opened _ _ _ _ _ Hs Ho Hacc) as Hl.
      eapply (accounted_adopt _ _ _ a s) in Hl; [|by apply object_free|].
      * eapply accounted_loose; [|exact Hl]. intros x.
        rewrite elem_of_difference, elem_of_union, elem_of_singleton. split; [|tauto].
        intros Hx. split; [by right|]. intros ->. destruct Ho as (_ & Hf & _).
        apply (Hf Hs). destruct Hacc as [Hop _ _ _]. apply Hop. by right.
      * rewrite elem_of_union, elem_of_singleton. by left.
    + destruct Hr as [[Hk _] _]. by eapply accounted_keeps.
  - destruct Hall as [Hfree [y Hy]]. eexists _, _, _. split; [reflexivity|].
    apply accounted_union_empty. simpl. destruct (object st b) as [h] eqn:Hb. simpl. rewrite <- Hb.
    apply accounted_move; [by apply object_free|congruence|done].
  - destruct Hall as [[x Hx] [y Hy]]. simpl. unfold move_assign.
    destruct (bool_decide (a = b)) eqn:Hab; [apply bool_decide_eq_true in Hab as <-|apply bool_decide_eq_false in Hab].
    + eexists _, _, _. split; [reflexivity|]. apply accounted_union_empty. simpl.
      apply accounted_same_object; [by rewrite object_insert, decide_True by done|].
      by apply accounted_same_object.
    + destruct (accounted_close st loose k a Hacc) as (r & k' & E & Hc).
      unfold mbind, prog_bind. rewrite E. eexists _, _, _. split; [reflexivity|].
      apply accounted_union_empty. simpl.
      eapply (accounted_move _ _ _ a b) in Hc; [|by rewrite object_insert, decide_True by done|done].
      eapply accounted_ext; [|exact Hc]. intros c.
      rewrite !object_insert. destruct (object st b) as [h] eqn:Hb. by repeat case_decide.
  - destruct (set_nonblocking_run enable (object st a) k) as (r & k' & E & Hk & _).
    simpl. unfold mbind, prog_bind. rewrite E. eexists _, _, _. split; [reflexivity|].
    apply accounted_union_empty. eapply accounted_keeps; [apply Hk|done].
  - destruct (accounted_close st loose k a Hacc) as (r & k' & E & Hc).
    simpl. unfold mbind, prog_bind. rewrite E. eexists _, _, _. split; [reflexivity|].
    by apply accounted_union_empty.
  - eexists _, _, _. split; [reflexivity|]. simpl.
    eapply accounted_loose; [|by apply (accounted_let_go st loose k a)]. intros x.
    rewrite !elem_of_union, elem_of_difference, elem_of_empty. unfold valid, given.
    case_bool_decide; case_decide; rewrite ?elem_of_singleton, ?elem_of_empty; tauto.
  - destruct Hall as [[x Hx] Hs].
    destruct (accounted_close st loose k a Hacc) as (r & k' & E & Hc).
    simpl. unfold reset, mbind, prog_bind. rewrite E. eexists _, _, _. split; [reflexivity|].
    simpl. rewrite union_empty_r_L. eapply accounted_ext;
      [|eapply (accounted_give _ _ _ a s); [by rewrite object_insert, decide_True by done|done|exact Hc]].
    intros c. rewrite !object_insert. by repeat case_decide.
  - destruct (accounted_close st loose k a Hacc) as (r & k' & E & Hc).
    simpl. unfold destroy, mbind, prog_bind. rewrite E. eexists _, _, _. split; [reflexivity|].
    apply accounted_union_empty. eapply accounted_ext; [|exact Hc]. intros c.
    rewrite object_delete, object_insert. by case_decide.
Qed.

Lemma sock_step_accounted s s' :
  accounted s.1.1 s.1.2 s.2 → sock_step s s' → accounted s'.1.1 s'.1.2 s'.2.
Proof.
  intros Hacc Hstep. revert Hacc.
  destruct Hstep as [o st loose k st' out k' Ho E|st loose k r k' Hr Ho]; simpl; intros Hacc.
  - destruct (exec_accounted o st loose k Ho Hacc) as (? & ? & ? & E' & H).
    rewrite E' in E. by simplify_eq.
  - by eapply accounted_opened.
Qed.

Lemma start_accounted s : start_objects s → accounted s.1.1 s.1.2 s.2.
Proof.
  destruct s as [[st loose] k]. unfold start_objects. simpl. intros (-> & -> & Hpos).
  assert (∀ a x, ¬ owns ∅ a x) as Hno by (intros a x [? <-]; done).
  constructor; [|by intros a b x ?%Hno|by intros a x ?%Hno|done].
  intros x. split; [by right|]. by intros [[a ?%Hno]|?].
Qed.

(** ** Properties *)

(** C16. Whatever is done to a set of [Socket] objects, by construction,
    moves, closes, releases, resets and destruction in any order, a descriptor
    has at most one owner, every owned descriptor is open and every open one is
    accounted for; so nothing is closed twice, and once all objects are gone
    only what was released or never owned is still open. *)
Theorem socket_ownership st loose k :
  reachable start_objects sock_step (st, loose, k) →
  (∀ a b x, owns st a x → owns st b x → a = b) ∧
  (∀ a x, owns st a x → x ∈ open_fds k ∧ (x ∉ loose)) ∧
  (∀ x, x ∈ open_fds k ↔ (∃ a, owns st a x) ∨ x ∈ loose) ∧
  (st = ∅ → open_fds k = loose) ∧
  (∀ o, allowed o st loose → ∃ st' out k', exec o st k = Done (st', out) k').
Proof.
  intros Hr.
  assert (accounted st loose k) as Hacc.
  { apply (reachable_invariant start_objects sock_step
      (λ s, accounted s.1.1 s.1.2 s.2)) in Hr;
      [done|apply start_accounted|apply sock_step_accounted]. }
  pose proof Hacc as [H1 H2 H3 H4]. split; [done|].
  split; [intros a x Hx; split; [apply H1; by eauto|by eapply H3]|]. split; [done|]. split.
  - intros ->. apply set_eq. intros x. rewrite H1.
    split; [intros [[a [? <-]]|?]; done|by right].
  - intros o Ho. destruct (exec_accounted o st loose k Ho Hacc) as (?&?&?&?&?). eauto.
Qed.

(** [set_nonblocking] on every branch: an invalid socket is refused
    without a system call; a failing [fcntl] is reported with its [errno]; on
    success exactly the [O_NONBLOCK] bit of the file status flags is set or
    cleared. No descriptor is opened or closed. *)
Theorem set_nonblocking_spec enable sock k :
  match set_nonblocking enable sock k with
  | Done (Val _) k' =>
      valid sock = true ∧ keeps k k' ∧
      ∀ i, Z.testbit (fd_flags k' (socket_ sock)) i
           = if decide (i = 11) then enable else Z.testbit (fd_flags k (socket_ sock)) i
  | Done (Unexpected e) k' =>
      keeps k k' ∧
      if valid sock
      then socket_code e = SocketErrorCode.NonBlockingFailed ∧ socket_native_error e = errno k'
      else socket_code e = SocketErrorCode.NotInitialized ∧ k' = k
  | Stop _ => False
  end.
Proof.
  destruct (set_nonblocking_run enable sock k) as ([[]|e] & k' & -> & Hk & H); [|done].
  by destruct H.
Qed.
End with_kernel.

#[export] Instance allowed_dec o st loose : Decision (allowed o st loose).
Proof. destruct o; simpl; apply _. Defined.

(** Operations performed one after the other; a state that is not allowed
    stops them. *)
Fixpoint perform_all {K} `{!Kernel K} (ops : list sock_op) (s : objects) : objects :=
  match ops with
  | [] => s
  | o :: ops =>
      let '(st, loose, k) := s in
      if decide (allowed o st loose) then
        match exec o st k with
        | Done (st', out) k' => perform_all ops (st', (loose ∖ taken o) ∪ given out, k')
        | Stop _ => s
        end
      else s
  end.

Lemma perform_all_rtc {K} `{!Kernel K, !Observe K} ops (s : objects) :
  rtc sock_step s (perform_all ops s).
Proof.
  revert s. induction ops as [|o ops IH]; intros [[st loose] k]; [apply rtc_refl|]. simpl.
  case_decide; [|apply rtc_refl].
  destruct (exec o st k) as [[st' out] k'|] eqn:E; [|apply rtc_refl].
  eapply rtc_l; [by eapply sock_exec|apply IH].
Qed.

Lemma perform_all_reachable {K} `{!Kernel K, !Observe K} ops (s : objects) :
  start_objects s →
  reachable start_objects sock_step
    ((perform_all ops s).1.1, (perform_all ops s).1.2, (perform_all ops s).2).
Proof.
  intros. exists s. split; [done|]. rewrite <- !surjective_pairing. apply perform_all_rtc.
Qed.

(** A socket is created, moved into another object and that one released; a
    second one is created in its place. *)
Definition demo : @objects sim :=
  perform_all [CreateTcp 1; MoveNew 2 1; CreateTcp 3; MoveAssign 1 3; Release 2; Destroy 3]
    (∅, ∅, Sim.boot []).

Lemma socket_ownership_witness :
  owns demo.1.1 1 6 ∧ demo.1.2 = {[3]} ∧ (6 ∈ open_fds demo.2 ∧ 6 ∉ demo.1.2).
Proof.
  assert (owns demo.1.1 1 6) as Ho by (by vm_compute).
  split; [done|]. split; [by apply (bool_decide_unpack _); vm_compute|].
  apply (socket_ownership demo.1.1 demo.1.2 demo.2) with (a := 1); [|exact Ho].
  apply perform_all_reachable. split; [done|]. split; [done|]. intros x Hx. by apply elem_of_empty in Hx.
Defined.

Lemma set_nonblocking_spec_witness :
  let k := (Sim.open_fd (Sim.boot [])).2 in
  match set_nonblocking true (mkSocket 3) k with
  | Done (Val _) k' =>
      valid (mkSocket 3) = true ∧ keeps k k' ∧
      ∀ i, Z.testbit (fd_flags k' 3) i
           = if decide (i = 11) then true else Z.testbit (fd_flags k 3) i
  | Done (Unexpected e) k' =>
      keeps k k' ∧
      if valid (mkSocket 3)
      then socket_code e = SocketErrorCode.NonBlockingFailed ∧ socket_native_error e = errno k'
      else socket_code e = SocketErrorCode.NotInitialized ∧ k' = k
  | Stop _ => False
  end.
Proof. apply (set_nonblocking_spec true (mkSocket 3) (Sim.open_fd (Sim.boot [])).2). Defined.
