(* ===== verification/Connection.v ===== *)
(** * Connections (src/net/connection.cpp)

    [Connection]: a socket, the state of the request cycle, and the two logical
    buffers. *)

From S2P Require Import Prelude Vector FrameCodec Os Socket.

(** [NDEBUG]: asserts are compiled out. *)
Class Build := { ndebug : bool }.
Definition Debug : Build := {| ndebug := false |}.
Definition Release : Build := {| ndebug := true |}.

Definition debug_assert `{Build} (b : bool) : outcome unit := assert_ (ndebug || b).

(** [enum class ConnectionState : std::uint8_t]: an object of this type can
    hold any 8-bit value. *)
Module ConnectionState.
Definition Closed : Z := 0.
Definition Reading : Z := 1.
Definition Parsing : Z := 2.
Definition Handling : Z := 3.
Definition Writing : Z := 4.
Definition Closing : Z := 5.
End ConnectionState.

Definition is_valid_connection_state (s : Z) : bool := s <=? ConnectionState.Closing.

Record Connection := mkConn {
  conn_socket : Socket;
  state_ : Z;
  read_buf_ : vec;
  write_buf_ : vec;
}.

#[export] Instance Connection_eq_dec : EqDecision Connection.
Proof. solve_decision. Defined.

Definition conn_handle (c : Connection) : Z := native_handle (conn_socket c).

(** [Connection(Socket&& socket)]: the connection, and [socket] afterwards. *)
Definition connection (socket : Socket) : Connection * Socket :=
  let (mine, theirs) := move_socket socket in
  (mkConn mine ConnectionState.Reading Vec.empty Vec.empty, theirs).

Definition with_read (c : Connection) (v : vec) : Connection :=
  mkConn (conn_socket c) (state_ c) v (write_buf_ c).
Definition with_write (c : Connection) (v : vec) : Connection :=
  mkConn (conn_socket c) (state_ c) (read_buf_ c) v.

(** Both throw [std::length_error] when the buffer would grow past
    [max_size()]. *)
Definition append_read (t : target) (data : list byte) (c : Connection) : outcome Connection :=
  buf ← checked_insert t data (read_buf_ c); Ret (with_read c buf).
Definition append_write (t : target) (data : list byte) (c : Connection) : outcome Connection :=
  buf ← checked_insert t data (write_buf_ c); Ret (with_write c buf).
Definition clear_write (c : Connection) : Connection :=
  with_write c (Vec.clear (write_buf_ c)).

(** What [append_read] leaves when it returns. *)
Definition grown_read (data : list byte) (c : Connection) : Connection :=
  with_read c (Vec.insert_end data (read_buf_ c)).

Lemma append_read_eq t data c :
  append_read t data c =
    if max_size t <? Vec.size (read_buf_ c) + len data then Throws else Ret (grown_read data c).
Proof. unfold append_read, checked_insert. by case_match. Qed.

(** [Connection(Connection&&)], and the source afterwards. *)
Definition move_connection (other : Connection) : Connection * Connection :=
  let (mine, theirs) := move_socket (conn_socket other) in
  (mkConn mine (state_ other) (read_buf_ other) (write_buf_ other),
   mkConn theirs (state_ other) Vec.empty Vec.empty).

Section build.
Context `{Build}.

Definition set_state (state : Z) (c : Connection) : outcome Connection :=
  _ ← debug_assert (is_valid_connection_state state);
  Ret (mkConn (conn_socket c) state (read_buf_ c) (write_buf_ c)).

(** The body shared by [consume_read] and [consume_write]. *)
Definition consume (byte_count : Z) (buf : vec) : outcome vec :=
  _ ← debug_assert (byte_count <=? Vec.size buf);
  if Vec.size buf <=? byte_count then Ret (Vec.clear buf)
  else Ret (Vec.erase_prefix byte_count buf).

Definition consume_read (byte_count : Z) (c : Connection) : outcome Connection :=
  buf ← consume byte_count (read_buf_ c); Ret (with_read c buf).
Definition consume_write (byte_count : Z) (c : Connection) : outcome Connection :=
  buf ← consume byte_count (write_buf_ c); Ret (with_write c buf).

(** [append_encoded_frame(conn, payload, max)] of the encoder. *)
Definition append_encoded_frame_conn (t : target) (c : Connection) (payload : list byte)
    (max_payload_bytes : Z) : outcome (expected unit FrameEncodeError * Connection) :=
  r ← append_encoded_frame t (write_buf_ c) payload max_payload_bytes;
  Ret (r.1, with_write c r.2).

(** What [consume] leaves, whatever the build, when it returns. *)
Lemma consume_drop n buf :
  0 ≤ n → (ndebug = true ∨ n ≤ Vec.size buf) →
  consume n buf = Ret (mkVec (drop (Z.to_nat n) (vdata buf)) (vcap buf)).
Proof.
  intros Hn Hb. unfold consume, debug_assert.
  replace (ndebug || (n <=? Vec.size buf)) with true
    by (destruct Hb as [->|Hle]; [done|]; by rewrite (proj2 (Z.leb_le _ _) Hle), orb_true_r).
  simpl. destruct (Z.leb_spec (Vec.size buf) n) as [Hs|Hs]; [|done].
  rewrite drop_ge; [done|]. unfold Vec.size in Hs. lia.
Qed.
End build.

(** [operator=(Connection&&)], the source being another object: closes the
    socket that is replaced. *)
Definition move_assign_connection {K} `{!Kernel K} (this other : Connection)
    : prog K (Connection * Connection) :=
  r ← move_assign false (conn_socket this) (conn_socket other);
  mret (mkConn r.1 (state_ other) (read_buf_ other) (write_buf_ other),
        mkConn r.2 (state_ other) Vec.empty Vec.empty).

(** [~Connection()]. *)
Definition destroy_connection {K} `{!Kernel K} (c : Connection) : prog K unit :=
  destroy (conn_socket c).

(** ** The buffers as a stream *)

(** Bytes are appended at the back and consumed from the front. *)
Inductive buffer_op := Append (data : list byte) | Consume (n : Z).

Definition buffer_step `{Build} (t : target) (o : buffer_op) (c : Connection) : outcome Connection :=
  match o with
  | Append data => append_write t data c
  | Consume n => consume_write n c
  end.

Fixpoint buffer_run `{Build} (t : target) (ops : list buffer_op) (c : Connection) : outcome Connection :=
  match ops with
  | [] => Ret c
  | o :: ops => c ← buffer_step t o c; buffer_run t ops c
  end.

(** All that was appended, and how much was consumed. *)
Fixpoint appended (ops : list buffer_op) : list byte :=
  match ops with
  | [] => []
  | Append d :: ops => d ++ appended ops
  | Consume _ :: ops => appended ops
  end.
Fixpoint consumed (ops : list buffer_op) : Z :=
  match ops with
  | [] => 0
  | Append _ :: ops => consumed ops
  | Consume n :: ops => n + consumed ops
  end.

(** [byte_count] is a [size_t]. *)
Definition counts_bytes (o : buffer_op) : Prop :=
  match o with Consume n => 0 ≤ n | Append _ => True end.

Lemma consumed_nonneg ops : Forall counts_bytes ops → 0 ≤ consumed ops.
Proof.
  induction 1 as [|o ops Ho _ IH]; [done|].
  destruct o; simpl in *; lia.
Qed.

Lemma buffer_step_frame `{Build} t o c c' :
  buffer_step t o c = Ret c' →
  conn_socket c' = conn_socket c ∧ read_buf_ c' = read_buf_ c ∧ state_ c' = state_ c.
Proof.
  destruct o; simpl; [unfold append_write, checked_insert; case_match; [done|by intros [= <-]]|].
  unfold consume_write, consume.
  destruct (debug_assert _); try done. simpl. by case_match; intros [= <-].
Qed.

Lemma buffer_step_debug `{Build} t o c c' :
  ndebug = false → buffer_step t o c = Ret c' →
  match o with
  | Append d => vdata (write_buf_ c') = vdata (write_buf_ c) ++ d
  | Consume n => n ≤ Vec.size (write_buf_ c) ∧
      (0 ≤ n → vdata (write_buf_ c') = drop (Z.to_nat n) (vdata (write_buf_ c)))
  end.
Proof.
  intros Hd. destruct o as [d|n]; simpl;
    [unfold append_write, checked_insert; case_match; [done|by intros [= <-]]|]. unfold consume_write.
  destruct (Z.leb_spec n (Vec.size (write_buf_ c))) as [Hn|Hn].
  - intros E. split; [done|]. intros Hn0. rewrite consume_drop in E by auto.
    simpl in E. by simplify_eq.
  - unfold consume, debug_assert. rewrite Hd.
    by rewrite (proj2 (Z.leb_gt n (Vec.size (write_buf_ c)))).
Qed.

(** The write buffer is a FIFO of bytes: as long as no more is consumed
    than is there, what is left is what was appended without its first
    [consumed] bytes, in order; in a Debug build consuming more fails the
    [assert]. The read buffer and the socket are not touched. *)
Theorem write_buffer_fifo `{Build} t ops c c' :
  Forall counts_bytes ops →
  buffer_run t ops c = Ret c' →
  conn_socket c' = conn_socket c ∧ read_buf_ c' = read_buf_ c ∧ state_ c' = state_ c ∧
  (ndebug = false →
     consumed ops ≤ Vec.size (write_buf_ c) + len (appended ops) ∧
     vdata (write_buf_ c') = drop (Z.to_nat (consumed ops)) (vdata (write_buf_ c) ++ appended ops)).
Proof.
  intros Hpos. revert c.
  induction Hpos as [|o ops Ho Hops IH]; intros c E; simpl in E.
  - simplify_eq. repeat split; unfold Vec.size; simpl; [lia|].
    by rewrite app_nil_r.
  - apply outcome_bind_Ret_inv in E as (c1 & E1 & E2).
    pose proof (buffer_step_frame _ _ _ _ E1) as (Hs & Hr & Ht).
    destruct (IH _ E2) as (Hs' & Hr' & Ht' & Hd). rewrite Hs', Hr', Ht'.
    split; [done|]. split; [done|]. split; [done|]. intros Hn.
    destruct (Hd Hn) as [Hc ->]. pose proof (buffer_step_debug _ _ _ _ Hn E1) as Hb.
    unfold Vec.size in *. destruct o as [d|n]; cbn [appended consumed] in *.
    + rewrite Hb in *. rewrite app_assoc. split; [len_lia|done].
    + simpl in Ho. destruct Hb as [Hle Hb]. rewrite Hb in * by done.
      pose proof (consumed_nonneg ops Hops). split; [len_lia|].
      rewrite Z2Nat.inj_add, <- drop_drop by lia. f_equal.
      rewrite drop_app_le by lia. done.
Qed.

Lemma write_buffer_fifo_witness :
  let c := (connection (mkSocket 7)).1 in
  buffer_run (H := Debug) lp64 [Append [x01; x02]; Consume 1; Append [x03]] c
    = Ret (with_write c (mkVec [x02; x03] 2)) ∧
  [x02; x03] = drop 1 [x01; x02; x03].
Proof.
  split; [reflexivity|].
  apply (write_buffer_fifo (H := Debug) lp64 [Append [x01; x02]; Consume 1; Append [x03]]
    (connection (mkSocket 7)).1
    (with_write (connection (mkSocket 7)).1 (mkVec [x02; x03] 2))); [|reflexivity..].
  repeat constructor; done.
Defined.

