(* ===== verification/SocketIO.v ===== *)
(** * Non-blocking reads and writes (src/net/recv.cpp, src/net/send.cpp) *)

From S2P Require Import Prelude Vector FrameCodec Os Socket Connection.

Module RecvErrorCode.
Inductive Code := WouldBlock | Closed | IoError | InvalidArgument.
End RecvErrorCode.
Record RecvError := mkRecvError {
  recv_code : RecvErrorCode.Code; recv_message : string; recv_native_error : Z }.

Module SendErrorCode.
Inductive Code := WouldBlock | IoError.
End SendErrorCode.
Record SendError := mkSendError {
  send_code : SendErrorCode.Code; send_message : string; send_native_error : Z }.

#[export] Instance RecvCode_eq_dec : EqDecision RecvErrorCode.Code.
Proof. solve_decision. Defined.
#[export] Instance SendCode_eq_dec : EqDecision SendErrorCode.Code.
Proof. solve_decision. Defined.

Section io.
Context {K : Type} `{!Kernel K} `{!Build}.

(** [do received = ::recv(s, buf, n, 0); while (received < 0 && errno == EINTR);] *)
Fixpoint recv_retry (fuel : nat) (s n : Z) : prog K (Z * list byte) :=
  match fuel with
  | O => halt Fuel
  | S fuel =>
      r ← call_os (sys_recv s n);
      e ← read_os errno;
      if (r.1 <? 0) && (e =? EINTR) then recv_retry fuel s n else mret r
  end.

(** The result, the connection and the scratch buffer afterwards. *)
Definition receive_nonblocking (t : target) (fuel : nat) (conn : Connection) (scratch : list byte)
    : prog K (expected Z RecvError * Connection * list byte) :=
  if decide (scratch = []) then
    mret (Unexpected (mkRecvError RecvErrorCode.InvalidArgument "scratch buffer is empty" 0),
          conn, scratch)
  else if negb (valid (conn_socket conn)) then
    mret (Unexpected (mkRecvError RecvErrorCode.IoError "connection socket is invalid" 0),
          conn, scratch)
  else
    r ← recv_retry fuel (conn_handle conn) (len scratch);
    let received := r.1 in
    let scratch := r.2 ++ drop (length r.2) scratch in
    if received <? 0 then
      e ← read_os errno;
      if (e =? EAGAIN) || (e =? EWOULDBLOCK) then
        mret (Unexpected (mkRecvError RecvErrorCode.WouldBlock "recv would block" e), conn, scratch)
      else
        mret (Unexpected (mkRecvError RecvErrorCode.IoError "recv failed" e), conn, scratch)
    else if received =? 0 then
      mret (Unexpected (mkRecvError RecvErrorCode.Closed "peer closed connection" 0), conn, scratch)
    else
      let chunk := take (Z.to_nat received) scratch in
      conn ← pure_code (append_read t chunk conn);
      mret (Val (len chunk), conn, scratch).

(** [do sent = ::send(s, data, n, flags); while (sent < 0 && errno == EINTR);] *)
Fixpoint send_retry (fuel : nat) (s : Z) (data : list byte) (flags : Z) : prog K Z :=
  match fuel with
  | O => halt Fuel
  | S fuel =>
      sent ← call_os (sys_send s data flags);
      e ← read_os errno;
      if (sent <? 0) && (e =? EINTR) then send_retry fuel s data flags else mret sent
  end.

(** The result and the connection afterwards. *)
Definition flush_write_nonblocking (fuel : nat) (conn : Connection)
    : prog K (expected Z SendError * Connection) :=
  let wb := write_buf_ conn in
  if Vec.is_empty wb then mret (Val 0, conn)
  else if negb (valid (conn_socket conn)) then
    mret (Unexpected (mkSendError SendErrorCode.IoError "connection socket is invalid" 0), conn)
  else
    sent ← send_retry fuel (conn_handle conn) (vdata wb) MSG_NOSIGNAL;
    if sent <? 0 then
      e ← read_os errno;
      if (e =? EAGAIN) || (e =? EWOULDBLOCK) then
        mret (Unexpected (mkSendError SendErrorCode.WouldBlock "send would block" e), conn)
      else
        mret (Unexpected (mkSendError SendErrorCode.IoError "send failed" e), conn)
    else if sent =? 0 then
      mret (Unexpected (mkSendError SendErrorCode.IoError "send returned 0" 0), conn)
    else
      conn ← pure_code (consume_write sent conn);
      mret (Val sent, conn).

(** ** What the retry loops deliver *)

Context `{!Observe K, !KernelLaws K}.

(** What one call did to descriptor [s] and to the rest. *)
Record received_on (s : Z) (bs : list byte) (k k' : K) : Prop := {
  ro_open : open_fds k' = open_fds k;
  ro_here : received k' s = received k s ++ bs;
  ro_other s' : s' ≠ s → received k' s' = received k s';
  ro_sent s' : sent k' s' = sent k s';
  ro_signals : (signals k' ≤ signals k)%nat;
}.
Record sent_on (s : Z) (bs : list byte) (k k' : K) : Prop := {
  so_open : open_fds k' = open_fds k;
  so_here : sent k' s = sent k s ++ bs;
  so_other s' : s' ≠ s → sent k' s' = sent k s';
  so_received s' : received k' s' = received k s';
  so_signals : (signals k' ≤ signals k)%nat;
}.

Lemma received_on_trans s b1 b2 k1 k2 k3 :
  received_on s b1 k1 k2 → received_on s b2 k2 k3 → received_on s (b1 ++ b2) k1 k3.
Proof.
  intros [H1 H2 H3 H4 H5] [H1' H2' H3' H4' H5']. constructor; intros.
  - by rewrite H1'.
  - by rewrite H2', H2, app_assoc.
  - by rewrite H3', H3.
  - by rewrite H4'.
  - lia.
Qed.

Lemma sent_on_trans s b1 b2 k1 k2 k3 :
  sent_on s b1 k1 k2 → sent_on s b2 k2 k3 → sent_on s (b1 ++ b2) k1 k3.
Proof.
  intros [H1 H2 H3 H4 H5] [H1' H2' H3' H4' H5']. constructor; intros.
  - by rewrite H1'.
  - by rewrite H2', H2, app_assoc.
  - by rewrite H3', H3.
  - by rewrite H4'.
  - lia.
Qed.

Lemma recv_once s n k :
  received_on s (sys_recv s n k).1.2 k (sys_recv s n k).2.
Proof.
  pose proof (recv_law s n k) as (_ & _ & H1 & H2 & H3 & H4).
  pose proof (recv_interrupted s n k) as [H5 _]. by constructor.
Qed.

Lemma send_once s data flags k :
  sent_on s (take (Z.to_nat (sys_send s data flags k).1) data) k (sys_send s data flags k).2.
Proof.
  pose proof (send_law s data flags k) as (_ & H1 & H2 & H3 & H4).
  pose proof (send_interrupted s data flags k) as [H5 _]. by constructor.
Qed.

(** The first answer of [recv] that is not an interruption: [r], with the bytes
    [bs] that arrived, leaving the kernel in [k']. *)
Inductive recv_answer (s n : Z) : K → Z → list byte → K → Prop :=
| recv_answers k r bs k' :
    sys_recv s n k = (r, bs, k') → (r < 0 → errno k' ≠ EINTR) → recv_answer s n k r bs k'
| recv_interrupts k r0 b0 k1 r bs k' :
    sys_recv s n k = (r0, b0, k1) → r0 < 0 → errno k1 = EINTR →
    recv_answer s n k1 r bs k' → recv_answer s n k r bs k'.

(** With more fuel than there are signals left, the loop ends with that
    answer; nothing is lost on the way. *)
Lemma recv_retry_spec fuel s n k :
  (signals k < fuel)%nat → 0 ≤ n →
  ∃ r bs k', recv_retry fuel s n k = Done (r, bs) k' ∧ recv_answer s n k r bs k' ∧
    r ≤ n ∧ len bs = Z.max 0 r ∧ received_on s bs k k' ∧ (r < 0 → errno k' ≠ EINTR).
Proof.
  revert k. induction fuel as [|fuel IH]; intros k Hf Hn; [lia|].
  pose proof (recv_once s n k) as Hon.
  pose proof (recv_law s n k) as (Hle & Hlen & _).
  pose proof (recv_interrupted s n k) as [_ Hint].
  cbn [recv_retry]. unfold mbind, prog_bind, call_os, read_os.
  destruct (sys_recv s n k) as [[r bs] k1] eqn:Er. simpl in *.
  destruct (Z.ltb_spec r 0) as [Hr|Hr]; [destruct (Z.eqb_spec (errno k1) EINTR) as [He|He]|]; simpl.
  - specialize (Hint Hr He). destruct (IH k1) as (r' & bs' & k' & E & Ha & ? & ? & Hon' & ?); [lia|done|].
    exists r', bs', k'. split; [done|]. split; [by eapply recv_interrupts|].
    split; [done|]. split; [done|]. split; [|done].
    assert (bs = []) as -> by (destruct bs; [done|]; exfalso; len_lia).
    exact (received_on_trans _ [] _ _ _ _ Hon Hon').
  - exists r, bs, k1. split; [done|]. split; [by apply recv_answers|]. split; [lia|]. auto.
  - exists r, bs, k1. split; [done|]. split; [apply recv_answers; [done|lia]|].
    split; [lia|]. split; [done|]. split; [done|lia].
Qed.

Lemma send_retry_spec fuel s data flags k :
  (signals k < fuel)%nat →
  ∃ r k', send_retry fuel s data flags k = Done r k' ∧
    r ≤ len data ∧ sent_on s (take (Z.to_nat r) data) k k' ∧ (r < 0 → errno k' ≠ EINTR).
Proof.
  revert k. induction fuel as [|fuel IH]; intros k Hf; [lia|].
  pose proof (send_once s data flags k) as Hon.
  pose proof (send_law s data flags k) as (Hle & _).
  pose proof (send_interrupted s data flags k) as [_ Hint].
  cbn [send_retry]. unfold mbind, prog_bind, call_os, read_os.
  destruct (sys_send s data flags k) as [r k1]. simpl in *.
  destruct (Z.ltb_spec r 0) as [Hr|Hr]; [destruct (Z.eqb_spec (errno k1) EINTR) as [He|He]|]; simpl.
  - specialize (Hint Hr He). destruct (IH k1) as (r' & k' & E & ? & Hon' & ?); [lia|].
    exists r', k'. split; [done|]. split; [done|]. split; [|done].
    replace (Z.to_nat r) with 0%nat in Hon by lia.
    exact (sent_on_trans _ [] _ _ _ _ Hon Hon').
  - exists r, k1. auto.
  - exists r, k1. split; [done|]. split; [done|]. split; [done|lia].
Qed.

Lemma received_on_nothing s k : received_on s [] k k.
Proof. constructor; intros; rewrite ?app_nil_r; done. Qed.

Lemma sent_on_nothing s k : sent_on s [] k k.
Proof. constructor; intros; rewrite ?app_nil_r; done. Qed.

(** The result that an answer [r] of [recv], with [err] in [errno], gives. *)
Definition recv_gives (r err : Z) (res : expected Z RecvError) : Prop :=
  if 0 <? r then res = Val r
  else ∃ e, res = Unexpected e ∧
    if r =? 0 then recv_code e = RecvErrorCode.Closed ∧ recv_native_error e = 0
    else recv_native_error e = err ∧
      recv_code e = (if bool_decide (err = EAGAIN ∨ err = EWOULDBLOCK)
                     then RecvErrorCode.WouldBlock else RecvErrorCode.IoError).

(** What a result of [receive_nonblocking] means: each of the ways out of the
    function, in its case. [bs] are the bytes that arrived. *)
Definition receive_answer (conn : Connection) (scratch : list byte) (k : K)
    (res : expected Z RecvError) (bs : list byte) (k' : K) : Prop :=
  if bool_decide (scratch = []) then
    bs = [] ∧ k' = k ∧ ∃ e, res = Unexpected e ∧ recv_code e = RecvErrorCode.InvalidArgument ∧
      recv_native_error e = 0
  else if negb (valid (conn_socket conn)) then
    bs = [] ∧ k' = k ∧ ∃ e, res = Unexpected e ∧ recv_code e = RecvErrorCode.IoError ∧
      recv_native_error e = 0
  else
    ∃ r, recv_answer (conn_handle conn) (len scratch) k r bs k' ∧
      (r < 0 → errno k' ≠ EINTR) ∧ r ≤ len scratch ∧ len bs = Z.max 0 r ∧
      recv_gives r (errno k') res.

Lemma receive_error_nothing conn scratch k e bs k' :
  receive_answer conn scratch k (Unexpected e) bs k' → bs = [].
Proof.
  unfold receive_answer. do 2 (case_match; [by intros [-> _]|]).
  intros (r & _ & _ & _ & Hlen & Hc). unfold recv_gives in Hc. destruct (Z.ltb_spec 0 r); [done|].
  destruct bs; [done|]. exfalso. len_lia.
Qed.

Lemma receive_count conn scratch k n bs k' :
  receive_answer conn scratch k (Val n) bs k' → 0 < n ∧ n = len bs.
Proof.
  unfold receive_answer. do 2 (case_match; [by intros (_ & _ & ? & ? & _)|]).
  intros (r & _ & _ & _ & Hlen & Hc). unfold recv_gives in Hc.
  destruct (Z.ltb_spec 0 r); [injection Hc as ->; lia|by destruct Hc as (? & ? & _)].
Qed.

(** Nothing more to read: [recv] failed for want of bytes. *)
Definition recv_drained (s n : Z) (k k' : K) : Prop :=
  ∃ r, recv_answer s n k r [] k' ∧ r < 0 ∧ (errno k' = EAGAIN ∨ errno k' = EWOULDBLOCK).

Lemma receive_would_block conn scratch k e bs k' :
  receive_answer conn scratch k (Unexpected e) bs k' → recv_code e = RecvErrorCode.WouldBlock →
  recv_drained (conn_handle conn) (len scratch) k k'.
Proof.
  intros Ha Hc. pose proof (receive_error_nothing _ _ _ _ _ _ Ha) as ->. unfold receive_answer in Ha.
  case_match; [destruct Ha as (_ & _ & ? & [= <-] & ? & _); congruence|].
  case_match; [destruct Ha as (_ & _ & ? & [= <-] & ? & _); congruence|].
  destruct Ha as (r & Hans & _ & _ & _ & Hg). exists r. split; [done|]. unfold recv_gives in Hg.
  destruct (Z.ltb_spec 0 r); [done|]. destruct Hg as (e' & [= <-] & Hg).
  destruct (Z.eqb_spec r 0); [destruct Hg; congruence|]. split; [lia|].
  destruct Hg as [_ Hg]. case_bool_decide; [done|congruence].
Qed.

Lemma receive_closed conn scratch k e bs k' :
  receive_answer conn scratch k (Unexpected e) bs k' → recv_code e = RecvErrorCode.Closed →
  recv_answer (conn_handle conn) (len scratch) k 0 [] k'.
Proof.
  intros Ha Hc. pose proof (receive_error_nothing _ _ _ _ _ _ Ha) as ->. unfold receive_answer in Ha.
  case_match; [destruct Ha as (_ & _ & ? & [= <-] & ? & _); congruence|].
  case_match; [destruct Ha as (_ & _ & ? & [= <-] & ? & _); congruence|].
  destruct Ha as (r & Hans & _ & _ & _ & Hg). unfold recv_gives in Hg.
  destruct (Z.ltb_spec 0 r); [done|]. destruct Hg as (e' & [= <-] & Hg).
  destruct (Z.eqb_spec r 0) as [->|]; [done|].
  destruct Hg as [_ Hg]. case_bool_decide; congruence.
Qed.

(** The way out in which the bytes do not fit the read buffer. *)
Definition overflows (t : target) (conn : Connection) (res : expected Z RecvError) (bs : list byte) : bool :=
  match res with
  | Val _ => max_size t <? Vec.size (read_buf_ conn) + len bs
  | Unexpected _ => false
  end.

Lemma receive_run t fuel conn scratch k :
  (signals k < fuel)%nat →
  ∃ res bs scratch' k',
    receive_nonblocking t fuel conn scratch k =
      (if overflows t conn res bs then Stop Killed
       else Done (res, (match res with Val _ => grown_read bs conn | Unexpected _ => conn end), scratch') k') ∧
    length scratch' = length scratch ∧
    received_on (conn_handle conn) bs k k' ∧
    receive_answer conn scratch k res bs k'.
Proof.
  intros Hf. unfold receive_nonblocking, receive_answer.
  case_decide as Hs.
  { eexists (Unexpected _), [], _, _. split; [reflexivity|]. split; [done|].
    split; [apply received_on_nothing|]. rewrite bool_decide_true by done.
    split; [done|]. split; [done|]. by eexists. }
  rewrite bool_decide_false by done.
  destruct (valid (conn_socket conn)) eqn:Hv; simpl.
  2: { eexists (Unexpected _), [], _, _. split; [reflexivity|]. split; [done|].
       split; [apply received_on_nothing|]. split; [done|]. split; [done|]. by eexists. }
  destruct (recv_retry_spec fuel (conn_handle conn) (len scratch) k Hf) as
    (r & bs & k' & E & Hans & Hr & Hlen & Hon & He); [lia|].
  unfold mbind, prog_bind at 1. rewrite E. clear E. simpl.
  assert (length (bs ++ drop (length bs) scratch) = length scratch) as Hsc.
  { rewrite length_app, length_drop. lia. }
  destruct (Z.ltb_spec r 0) as [Hneg|Hpos].
  - assert (bs = []) as -> by (destruct bs; [done|]; exfalso; len_lia).
    unfold prog_bind, read_os. simpl.
    assert (∀ e, recv_native_error e = errno k' →
      recv_code e = (if bool_decide (errno k' = EAGAIN ∨ errno k' = EWOULDBLOCK)
                     then RecvErrorCode.WouldBlock else RecvErrorCode.IoError) →
      recv_gives r (errno k') (Unexpected e)) as Hfail.
    { intros e H1 H2. unfold recv_gives. rewrite (proj2 (Z.ltb_ge 0 r)) by lia.
      exists e. rewrite (proj2 (Z.eqb_neq r 0)) by lia. done. }
    destruct (_ || _) eqn:Hb; eexists (Unexpected _), [], _, _; (split; [reflexivity|]);
      (split; [done|]); (split; [done|]); exists r; (do 4 (split; [done|])); apply Hfail; try done; simpl.
    + apply orb_true_iff in Hb. rewrite !Z.eqb_eq in Hb. by rewrite bool_decide_true.
    + apply orb_false_iff in Hb. rewrite !Z.eqb_neq in Hb. rewrite bool_decide_false by tauto. done.
  - destruct (Z.eqb_spec r 0) as [->|Hne].
    + assert (bs = []) as -> by (destruct bs; [done|]; exfalso; len_lia).
      eexists (Unexpected _), [], _, _. split; [reflexivity|]. split; [done|]. split; [done|].
      exists 0. do 4 (split; [done|]). by eexists.
    + assert (take (Z.to_nat r) (bs ++ drop (length bs) scratch) = bs) as ->.
      { rewrite take_app_le by lia. apply take_ge. lia. }
      eexists (Val (len bs)), bs, _, _. split.
      { rewrite append_read_eq. simpl. by case_match. }
      split; [done|]. split; [done|]. exists r. do 4 (split; [done|]).
      unfold recv_gives. rewrite (proj2 (Z.ltb_lt 0 r)) by lia. f_equal. lia.
Qed.

(** What an answer of [flush_write_nonblocking] means. *)
Definition flush_answer (conn : Connection) (k : K) (res : expected Z SendError) (k' : K) : Prop :=
  match res with
  | Val n =>
      n ≤ Vec.size (write_buf_ conn) ∧
      if Vec.is_empty (write_buf_ conn) then n = 0 ∧ k' = k
      else 0 < n ∧ valid (conn_socket conn) = true
  | Unexpected e =>
      Vec.is_empty (write_buf_ conn) = false ∧
      match send_code e with
      | SendErrorCode.WouldBlock => errno k' = EAGAIN ∧ send_native_error e = EAGAIN
      | SendErrorCode.IoError =>
          (valid (conn_socket conn) = false ∧ k' = k) ∨ send_native_error e = 0 ∨
          (send_native_error e = errno k' ∧ errno k' ≠ EAGAIN ∧ errno k' ≠ EINTR)
      end
  end.

Definition flushed (res : expected Z SendError) : nat :=
  match res with Val n => Z.to_nat n | Unexpected _ => 0%nat end.

Lemma flush_run fuel conn k :
  (signals k < fuel)%nat →
  ∃ res k',
    flush_write_nonblocking fuel conn k =
      Done (res, with_write conn (mkVec (drop (flushed res) (vdata (write_buf_ conn)))
                                   (vcap (write_buf_ conn)))) k' ∧
    sent_on (conn_handle conn) (take (flushed res) (vdata (write_buf_ conn))) k k' ∧
    flush_answer conn k res k'.
Proof.
  intros Hf. unfold flush_write_nonblocking.
  assert (∀ (r : expected Z SendError) (k' : K), Done (r, conn) k' = Done (r, with_write conn
      (mkVec (drop 0 (vdata (write_buf_ conn))) (vcap (write_buf_ conn)))) k')
    as same_result by (by destruct conn as [? ? ? []]).
  destruct (Vec.is_empty (write_buf_ conn)) eqn:Hemp.
  { exists (Val 0), k. split; [by apply same_result|].
    split; [apply sent_on_nothing|]. unfold flush_answer. rewrite Hemp.
    pose proof (Vec.size_nonneg (write_buf_ conn)). auto. }
  destruct (valid (conn_socket conn)) eqn:Hv; simpl.
  2: { eexists (Unexpected _), k. split; [by apply same_result|].
       split; [apply sent_on_nothing|]. split; [done|]. simpl. by left. }
  destruct (send_retry_spec fuel (conn_handle conn) (vdata (write_buf_ conn)) MSG_NOSIGNAL k Hf)
    as (r & k' & E & Hr & Hon & He).
  unfold mbind, prog_bind at 1. rewrite E. clear E. simpl.
  destruct (Z.ltb_spec r 0) as [Hneg|Hpos].
  - replace (Z.to_nat r) with 0%nat in Hon by lia.
    unfold prog_bind, read_os. simpl.
    destruct (Z.eqb_spec (errno k') EAGAIN) as [Ha|Ha]; simpl;
      [|destruct (Z.eqb_spec (errno k') EWOULDBLOCK); [done|]; simpl];
      eexists (Unexpected _), k'; (split; [by apply same_result|]); (split; [done|]);
      (split; [done|]); simpl; [done|]. right. right. auto.
  - destruct (Z.eqb_spec r 0) as [->|Hne].
    + eexists (Unexpected _), k'. split; [by apply same_result|].
      split; [done|]. split; [done|]. simpl. auto.
    + exists (Val r), k'. unfold consume_write. rewrite consume_drop; [|lia|by right].
      split; [reflexivity|]. split; [done|]. unfold flush_answer. rewrite Hemp.
      split; [done|]. split; [lia|done].
Qed.

(** ** Properties *)

(** C18. [receive_nonblocking] comes back, however many signals interrupt it
    (the retry loop ends with them), with what the first call of [recv] that
    was not interrupted answered, and each way out is taken exactly in its case:
    a count for a positive answer, [Closed] for 0, [WouldBlock] for a failure
    with [EAGAIN] or [EWOULDBLOCK], [IoError] with the [errno] for any other;
    without a call, [InvalidArgument] for an empty scratch buffer and [IoError]
    for an invalid socket. Nothing is lost: the bytes that arrived on the
    descriptor during the call are exactly those appended to the read buffer,
    and an error means none arrived and the connection is as it was. Only when
    those bytes would take the read buffer past [max_size()] does it throw. *)
Theorem receive_nonblocking_spec t fuel conn scratch k :
  (signals k < fuel)%nat →
  ∃ res bs conn' scratch' k',
    receive_nonblocking t fuel conn scratch k =
      (if overflows t conn res bs then Stop Killed else Done (res, conn', scratch') k') ∧
    receive_answer conn scratch k res bs k' ∧
    received_on (conn_handle conn) bs k k' ∧
    vdata (read_buf_ conn') = vdata (read_buf_ conn) ++ bs ∧
    conn_socket conn' = conn_socket conn ∧ write_buf_ conn' = write_buf_ conn ∧
    (match res with Val _ => True | Unexpected _ => bs = [] ∧ conn' = conn end).
Proof.
  intros Hf. destruct (receive_run t fuel conn scratch k Hf) as (res & bs & sc & k' & E & _ & Hon & Ha).
  eexists res, bs, _, sc, k'. split; [exact E|]. split; [done|]. split; [done|].
  destruct res as [n|e]; [done|]. assert (bs = []) as ->; [|by rewrite app_nil_r].
  by apply receive_error_nothing in Ha.
Qed.

(** C17. [flush_write_nonblocking] returns, however many signals interrupt it,
    and neither drops nor repeats a byte: what was handed to the kernel
    followed by what is left in the write buffer is what was in the write
    buffer. An error means nothing was taken; a count is the number of bytes
    taken, zero only for an empty buffer. *)
Theorem flush_write_nonblocking_spec fuel conn k :
  (signals k < fuel)%nat →
  ∃ res bs conn' k',
    flush_write_nonblocking fuel conn k = Done (res, conn') k' ∧
    flush_answer conn k res k' ∧
    sent_on (conn_handle conn) bs k k' ∧
    bs ++ vdata (write_buf_ conn') = vdata (write_buf_ conn) ∧
    (match res with Val n => len bs = n | Unexpected _ => bs = [] end) ∧
    conn_socket conn' = conn_socket conn ∧ read_buf_ conn' = read_buf_ conn.
Proof.
  intros Hf. destruct (flush_run fuel conn k Hf) as (res & k' & E & Hon & Ha).
  eexists res, _, _, k'. split; [exact E|]. split; [done|]. split; [done|].
  split; [apply take_drop|]. split; [|done].
  destruct res as [n|e]; [|done]. simpl. destruct Ha as [Hn Ha]. unfold Vec.size in Hn.
  destruct (Vec.is_empty _); len_lia.
Qed.
End io.

Definition demo_conn : Connection :=
  with_write (connection (mkSocket 7)).1 (mkVec [x0a; x0b; x0c] 3).

Lemma receive_nonblocking_spec_witness :
  let k := Sim.boot [Fail EINTR; Fail EINTR; Data [x01; x02; x03]] in
  ∃ res bs conn' scratch' k',
    receive_nonblocking lp64 3 demo_conn [x00; x00] k =
      (if overflows lp64 demo_conn res bs then Stop Killed else Done (res, conn', scratch') k') ∧
    receive_answer demo_conn [x00; x00] k res bs k' ∧
    received_on 7 bs k k' ∧
    vdata (read_buf_ conn') = [] ++ bs ∧
    conn_socket conn' = mkSocket 7 ∧ write_buf_ conn' = write_buf_ demo_conn ∧
    (match res with Val _ => True | Unexpected _ => bs = [] ∧ conn' = demo_conn end).
Proof.
  apply (receive_nonblocking_spec lp64 3 demo_conn [x00; x00]
    (Sim.boot [Fail EINTR; Fail EINTR; Data [x01; x02; x03]])).
  vm_compute. lia.
Defined.

(** The four ways a call on a valid socket goes. *)
Example receive_ways_out :
  let ways := (λ a, match receive_nonblocking lp64 2 demo_conn [x00; x00] (Sim.boot [Fail EINTR; a]) with
                    | Done (res, _, _) _ => Some (match res with Val n => inl n | Unexpected e => inr (recv_code e) end)
                    | Stop _ => None
                    end) <$> [Data [x01]; Data []; Fail EAGAIN; Fail 104] in
  ways = [Some (inl 1); Some (inr RecvErrorCode.Closed); Some (inr RecvErrorCode.WouldBlock);
          Some (inr RecvErrorCode.IoError)].
Proof. reflexivity. Qed.

Lemma flush_write_nonblocking_spec_witness :
  let k := Sim.boot [Fail EINTR; Give 2] in
  ∃ res bs conn' k',
    flush_write_nonblocking (H := Debug) 2 demo_conn k = Done (res, conn') k' ∧
    flush_answer demo_conn k res k' ∧
    sent_on 7 bs k k' ∧
    bs ++ vdata (write_buf_ conn') = [x0a; x0b; x0c] ∧
    (match res with Val n => len bs = n | Unexpected _ => bs = [] end) ∧
    conn_socket conn' = mkSocket 7 ∧ read_buf_ conn' = Vec.empty.
Proof.
  apply (flush_write_nonblocking_spec (H := Debug) 2 demo_conn (Sim.boot [Fail EINTR; Give 2])).
  vm_compute. lia.
Defined.
