(* ===== verification/Poller.v ===== *)
(** * Polling (src/net/select_poller.cpp, include/tcp_server/net/event_loop.hpp)

    [Poller] is the interface of event_loop.hpp as a class: what its clients,
    the acceptor and the servers, can call, and in [PollerLaws] what they rely
    on. [SelectPoller] implements it with select(2). *)

From S2P Require Import Prelude Os Socket.

Record PollError := mkPollError { poll_message : string; poll_native_error : Z }.

(** [EventMask] is a [std::uint8_t]. *)
Module EventMask.
Definition None : Z := 0.
Definition Read : Z := 1.
Definition Write : Z := 2.
Definition Error : Z := 4.
End EventMask.

(** [operator|] and [operator&]. *)
Definition mask_or (a b : Z) : Z := Z.lor a b.
Definition mask_and (a b : Z) : Z := Z.land a b.

Record Event := mkEvent { ev_socket : Z; ev_mask : Z }.

#[export] Instance Event_eq_dec : EqDecision Event.
Proof. solve_decision. Defined.
#[export] Instance PollError_eq_dec : EqDecision PollError.
Proof. solve_decision. Defined.

(** ** The interface *)

Class Poller (P K : Type) := {
  upsert : Z → Z → P → expected unit PollError * P;
  erase : Z → P → expected unit PollError * P;
  (** [wait(out_events, timeout_ms)]: the number of events written and
      [out_events] afterwards. *)
  wait : list Event → Z → P → prog K (expected Z PollError * list Event);
}.

(** What clients rely on: [registered] is the interest of each socket; a call
    that fails changes nothing; the events written are about registered
    sockets. *)
Class PollerLaws (P K : Type) `{!Poller P K} := {
  registered : P → gmap Z Z;
  upsert_law s m p :
    registered (upsert s m p).2 =
      if has_value (upsert s m p).1 then <[s := m]> (registered p) else registered p;
  erase_law s p :
    registered (erase s p).2 =
      if has_value (erase s p).1 then delete s (registered p) else registered p;
  wait_law out t p k n out' k' :
    wait out t p k = Done (Val n, out') k' →
    0 ≤ n ≤ len out ∧ length out' = length out ∧
    Forall (λ ev, is_Some (registered p !! ev_socket ev)) (take (Z.to_nat n) out');
}.

(** ** select(2) *)

Definition has (mask bit : Z) : bool := negb (mask_and mask bit =? EventMask.None).

Record SelectPoller := mkPoller { interest_ : gmap Z Z }.

Definition select_poller : SelectPoller := mkPoller ∅.

Definition FD_SETSIZE : Z := 1024.

(** [FD_SET] and [FD_ISSET] index a bit array of [FD_SETSIZE] bits. *)
Definition FD_SET (fd : Z) (s : gset Z) : outcome (gset Z) :=
  if (0 <=? fd) && (fd <? FD_SETSIZE) then Ret ({[fd]} ∪ s) else UB.
Definition FD_ISSET (fd : Z) (s : gset Z) : outcome bool :=
  if (0 <=? fd) && (fd <? FD_SETSIZE) then Ret (bool_decide (fd ∈ s)) else UB.

Definition select_upsert (socket interest : Z) (p : SelectPoller)
    : expected unit PollError * SelectPoller :=
  if decide (socket = k_invalid_socket) then (Unexpected (mkPollError "invalid socket" 0), p)
  else (Val (), mkPoller (<[socket := interest]> (interest_ p))).

Definition select_erase (socket : Z) (p : SelectPoller)
    : expected unit PollError * SelectPoller :=
  (Val (), mkPoller (delete socket (interest_ p))).

(** One turn of the loop that fills the sets. *)
Definition add_interest (entry : Z * Z) (acc : fd_sets * Z) : outcome (fd_sets * Z) :=
  let '(sock, mask) := entry in
  let '(sets, max_fd) := acc in
  r ← (if has mask EventMask.Read then FD_SET sock (readfds sets) else Ret (readfds sets));
  w ← (if has mask EventMask.Write then FD_SET sock (writefds sets) else Ret (writefds sets));
  x ← (if has mask EventMask.Error then FD_SET sock (exceptfds sets) else Ret (exceptfds sets));
  Ret (mkSets r w x, if max_fd <? sock then sock else max_fd).

Fixpoint add_interests (entries : list (Z * Z)) (acc : fd_sets * Z) : outcome (fd_sets * Z) :=
  match entries with
  | [] => Ret acc
  | e :: entries => acc ← add_interest e acc; add_interests entries acc
  end.

(** The loop that writes the events. *)
Fixpoint report (entries : list (Z * Z)) (sets : fd_sets) (written : nat) (out_events : list Event)
    : outcome (nat * list Event) :=
  match entries with
  | [] => Ret (written, out_events)
  | (sock, _) :: entries =>
      if bool_decide (length out_events ≤ written)%nat then Ret (written, out_events)
      else
        let fired := EventMask.None in
        r ← FD_ISSET sock (readfds sets);
        let fired := if (r : bool) then mask_or fired EventMask.Read else fired in
        w ← FD_ISSET sock (writefds sets);
        let fired := if (w : bool) then mask_or fired EventMask.Write else fired in
        x ← FD_ISSET sock (exceptfds sets);
        let fired := if (x : bool) then mask_or fired EventMask.Error else fired in
        if negb (fired =? EventMask.None)
        then report entries sets (S written) (<[written := mkEvent sock fired]> out_events)
        else report entries sets written out_events
  end.

Definition select_timeout (timeout_ms : Z) : option timeval :=
  if 0 <=? timeout_ms
  then Some (mkTimeval (Z.quot timeout_ms 1000) (Z.rem timeout_ms 1000 * 1000))
  else None.

(** [static_cast<int>(max_fd + 1)]: the sum is an [int]. *)
Definition next_int (n : Z) : outcome Z := if n + 1 <? 2 ^ 31 then Ret (n + 1) else UB.

Section select.
Context {K : Type} `{!Kernel K, !MapOrder Z}.

Definition select_wait (out_events : list Event) (timeout_ms : Z) (p : SelectPoller)
    : prog K (expected Z PollError * list Event) :=
  if decide (out_events = []) then
    mret (Unexpected (mkPollError "out_events must not be empty" 0), out_events)
  else
    acc ← pure_code (add_interests (map_order (interest_ p)) (mkSets ∅ ∅ ∅, 0));
    let tvp := select_timeout timeout_ms in
    nfds ← pure_code (next_int acc.2);
    rc ← call_os (sys_select nfds acc.1 tvp);
    if rc.1 <? 0 then
      e ← read_os errno;
      mret (Unexpected (mkPollError "select() failed" e), out_events)
    else if rc.1 =? 0 then mret (Val 0, out_events)
    else
      r ← pure_code (report (map_order (interest_ p)) rc.2 0 out_events);
      mret (Val (Z.of_nat r.1), r.2).

#[export] Instance select_poller_ops : Poller SelectPoller K :=
  {| upsert := select_upsert; erase := select_erase; wait := select_wait |}.
End select.

(** ** Filling the sets *)

Definition in_fd_range (fd : Z) : Prop := 0 ≤ fd < FD_SETSIZE.

Lemma fd_range_test fd : in_fd_range fd ↔ (0 <=? fd) && (fd <? FD_SETSIZE) = true.
Proof. unfold in_fd_range. rewrite andb_true_iff, Z.leb_le, Z.ltb_lt. done. Qed.

Lemma FD_ISSET_in fd s : in_fd_range fd → FD_ISSET fd s = Ret (bool_decide (fd ∈ s)).
Proof. unfold FD_ISSET. by intros ->%fd_range_test. Qed.

Lemma FD_SET_if (b : bool) fd s :
  (b = true → in_fd_range fd) →
  ∃ s', (if b then FD_SET fd s else Ret s) = Ret s' ∧
    ∀ x, x ∈ s' ↔ x ∈ s ∨ (b = true ∧ x = fd).
Proof.
  intros Hb. destruct b.
  - exists ({[fd]} ∪ s). unfold FD_SET. rewrite (proj1 (fd_range_test fd) (Hb eq_refl)).
    split; [done|]. intros x. rewrite elem_of_union, elem_of_singleton. tauto.
  - exists s. split; [done|]. intros x. split; [by left|]. by intros [?|[? _]].
Qed.

(** [sock] is to be in the set of [bit]. *)
Definition asked (bit : Z) (entries : list (Z * Z)) (sock : Z) : Prop :=
  ∃ mask, (sock, mask) ∈ entries ∧ has mask bit = true.

(** What the loop makes of its accumulator. *)
Record filled (entries : list (Z * Z)) (acc acc' : fd_sets * Z) : Prop := {
  fill_read s : s ∈ readfds acc'.1 ↔ s ∈ readfds acc.1 ∨ asked EventMask.Read entries s;
  fill_write s : s ∈ writefds acc'.1 ↔ s ∈ writefds acc.1 ∨ asked EventMask.Write entries s;
  fill_error s : s ∈ exceptfds acc'.1 ↔ s ∈ exceptfds acc.1 ∨ asked EventMask.Error entries s;
  fill_max : acc.2 ≤ acc'.2 ∧ Forall (λ e, e.1 ≤ acc'.2) entries ∧
    (acc'.2 = acc.2 ∨ acc'.2 ∈ entries.*1);
}.

Lemma asked_cons bit sock mask entries s :
  asked bit ((sock, mask) :: entries) s ↔
  (has mask bit = true ∧ s = sock) ∨ asked bit entries s.
Proof.
  unfold asked. setoid_rewrite elem_of_cons. split.
  - intros (m & [[= -> ->]|Hin] & Hm); [by left|right; by exists m].
  - intros [[Hm ->]|(m & Hin & Hm)]; [exists mask|exists m]; auto.
Qed.

Lemma asked_nil bit s : ¬ asked bit [] s.
Proof. by intros (m & ?%elem_of_nil & _). Qed.

Lemma add_interest_spec sock mask acc :
  in_fd_range sock →
  ∃ acc', add_interest (sock, mask) acc = Ret acc' ∧
    (∀ s, s ∈ readfds acc'.1 ↔ s ∈ readfds acc.1 ∨ (has mask EventMask.Read = true ∧ s = sock)) ∧
    (∀ s, s ∈ writefds acc'.1 ↔ s ∈ writefds acc.1 ∨ (has mask EventMask.Write = true ∧ s = sock)) ∧
    (∀ s, s ∈ exceptfds acc'.1 ↔ s ∈ exceptfds acc.1 ∨ (has mask EventMask.Error = true ∧ s = sock)) ∧
    acc'.2 = Z.max acc.2 sock.
Proof.
  intros Hs. destruct acc as [sets m]. unfold add_interest.
  destruct (FD_SET_if (has mask EventMask.Read) sock (readfds sets)) as (r & -> & Hr); [done|].
  destruct (FD_SET_if (has mask EventMask.Write) sock (writefds sets)) as (w & -> & Hw); [done|].
  destruct (FD_SET_if (has mask EventMask.Error) sock (exceptfds sets)) as (x & -> & Hx); [done|].
  eexists. split; [reflexivity|]. simpl. do 3 (split; [done|]).
  destruct (Z.ltb_spec m sock); lia.
Qed.

Lemma add_interests_spec entries acc :
  Forall (λ e, in_fd_range e.1) entries →
  ∃ acc', add_interests entries acc = Ret acc' ∧ filled entries acc acc'.
Proof.
  intros Hf. revert acc. induction Hf as [|[sock mask] entries Hs _ IH]; intros acc.
  { exists acc. split; [done|]. constructor; [intros s; split; [by left|by intros [?|?%asked_nil]]..|].
    split; [done|]. split; [done|by left]. }
  simpl in Hs. destruct (add_interest_spec sock mask acc Hs) as (a1 & E1 & Hr & Hw & Hx & Hm).
  destruct (IH a1) as (acc' & E & [Hr' Hw' Hx' (Hm1 & Hm2 & Hm3)]).
  exists acc'. cbn [add_interests]. rewrite E1, outcome_ret_bind. split; [done|]. constructor.
  - intros s. rewrite Hr', Hr, asked_cons. tauto.
  - intros s. rewrite Hw', Hw, asked_cons. tauto.
  - intros s. rewrite Hx', Hx, asked_cons. tauto.
  - split; [lia|]. split; [constructor; [simpl; lia|done]|].
    rewrite fmap_cons, elem_of_cons. simpl.
    destruct Hm3 as [->|?]; [|by auto].
    rewrite Hm. destruct (Z.max_spec acc.2 sock) as [[_ ->]|[_ ->]]; auto.
Qed.

(** One descriptor out of range is enough. *)
Lemma add_interests_UB entries acc sock mask :
  (sock, mask) ∈ entries → ¬ in_fd_range sock →
  has mask EventMask.Read || has mask EventMask.Write || has mask EventMask.Error = true →
  add_interests entries acc = UB.
Proof.
  intros Hin Hs Hm. rewrite fd_range_test in Hs. apply not_true_is_false in Hs.
  assert (∀ e (a : fd_sets * Z), add_interest e a = UB ∨ ∃ a', add_interest e a = Ret a') as Hret.
  { intros [s m] [sets mx]. unfold add_interest, FD_SET.
    destruct (has m EventMask.Read), (has m EventMask.Write), (has m EventMask.Error),
      ((0 <=? s) && (s <? FD_SETSIZE)); simpl; eauto. }
  assert (∀ a, add_interest (sock, mask) a = UB) as Hub.
  { intros [sets mx]. unfold add_interest, FD_SET. rewrite Hs.
    by destruct (has mask EventMask.Read), (has mask EventMask.Write), (has mask EventMask.Error). }
  revert acc. induction entries as [|e entries IH]; intros acc; [by apply elem_of_nil in Hin|].
  cbn [add_interests]. apply elem_of_cons in Hin as [<-|Hin]; [by rewrite Hub|].
  destruct (Hret e acc) as [->|[a' ->]]; [done|]. rewrite outcome_ret_bind. by apply IH.
Qed.

(** ** Writing the events *)

(** The bits [select] reported for a socket. *)
Definition fired (sets : fd_sets) (sock : Z) : Z :=
  (if decide (sock ∈ readfds sets) then 1 else 0) +
  (if decide (sock ∈ writefds sets) then 2 else 0) +
  (if decide (sock ∈ exceptfds sets) then 4 else 0).

(** The events there are to report, in iteration order. *)
Definition ready_events (entries : list (Z * Z)) (sets : fd_sets) : list Event :=
  omap (λ e, if decide (fired sets e.1 = 0) then None else Some (mkEvent e.1 (fired sets e.1))) entries.

Lemma ready_events_cons e entries sets :
  ready_events (e :: entries) sets =
    if decide (fired sets e.1 = 0) then ready_events entries sets
    else mkEvent e.1 (fired sets e.1) :: ready_events entries sets.
Proof. unfold ready_events. simpl. by case_decide. Qed.

Lemma report_eq entries sets written out :
  Forall (λ e, in_fd_range e.1) entries → (written ≤ length out)%nat →
  let evs := take (length out - written) (ready_events entries sets) in
  report entries sets written out =
    Ret ((written + length evs)%nat,
         take written out ++ evs ++ drop (written + length evs) out).
Proof.
  intros Hf. revert written out.
  induction Hf as [|[sock mask] entries Hs _ IH]; intros written out Hw; cbn zeta.
  { change (ready_events [] sets) with (@nil Event). rewrite take_nil. simpl.
    by rewrite Nat.add_0_r, take_drop. }
  cbn [report]. case_bool_decide as Hfull.
  { replace (length out - written)%nat with 0%nat by lia. simpl.
    by rewrite Nat.add_0_r, take_drop. }
  rewrite !FD_ISSET_in by done. rewrite !outcome_ret_bind.
  assert ((let fired := EventMask.None in
     let fired := if bool_decide (sock ∈ readfds sets) then mask_or fired EventMask.Read else fired in
     let fired := if bool_decide (sock ∈ writefds sets) then mask_or fired EventMask.Write else fired in
     if bool_decide (sock ∈ exceptfds sets) then mask_or fired EventMask.Error else fired)
     = fired sets sock) as Hfd.
  { unfold fired, bool_decide. by repeat case_decide. }
  cbn zeta in Hfd |- *. rewrite Hfd, ready_events_cons. cbn [fst].
  destruct (Z.eqb_spec (fired sets sock) EventMask.None) as [Hz|Hz]; simpl negb; cbn iota.
  - rewrite IH by done. by rewrite decide_True by done.
  - rewrite IH by (rewrite length_insert; lia). rewrite decide_False by done.
    rewrite length_insert. cbn zeta.
    replace (length out - written)%nat with (S (length out - S written)) by lia.
    rewrite firstn_cons. set (evs := take _ (ready_events entries sets)). cbn [length].
    f_equal. f_equal; [lia|].
    rewrite (take_S_r _ _ (mkEvent sock (fired sets sock))) by (apply list_lookup_insert_eq; lia).
    rewrite take_insert_ge by lia. rewrite (drop_insert_lt out) by lia.
    rewrite <- app_assoc. simpl. do 4 f_equal. lia.
Qed.

(** Whatever the descriptors, when the loop ends it has written events about
    its entries. *)
Lemma report_returns (P : Event → Prop) entries sets written out n out' :
  (∀ e mask, e ∈ entries → P (mkEvent e.1 mask)) →
  (written ≤ length out)%nat → Forall P (take written out) →
  report entries sets written out = Ret (n, out') →
  (n ≤ length out)%nat ∧ length out' = length out ∧ Forall P (take n out').
Proof.
  revert written out. induction entries as [|[sock m] entries IH]; intros written out HP Hw Hall E.
  { cbn [report] in E. by simplify_eq. }
  cbn [report] in E. case_bool_decide as Hfull; [by simplify_eq|].
  apply outcome_bind_Ret_inv in E as (r & _ & E).
  apply outcome_bind_Ret_inv in E as (w & _ & E).
  apply outcome_bind_Ret_inv in E as (x & _ & E).
  assert (∀ e mask, e ∈ entries → P (mkEvent e.1 mask)) as HP'
    by (intros; apply HP, elem_of_cons; by right).
  revert E. set (f := if x then _ else _). destruct (negb (f =? EventMask.None)); intros E.
  - apply IH in E as (H1 & H2 & H3);
      [by rewrite length_insert in H1, H2|done|rewrite length_insert; lia|].
    rewrite (take_S_r _ _ (mkEvent sock f)) by (apply list_lookup_insert_eq; lia).
    rewrite take_insert_ge by lia. apply Forall_app_2; [done|]. apply Forall_singleton.
    apply (HP (sock, m)), elem_of_cons. by left.
  - by apply IH in E.
Qed.

(** *** Bits of a mask *)

Lemma has_bit mask n : 0 ≤ n → has mask (2 ^ n) = Z.testbit mask n.
Proof.
  intros Hn. unfold has, mask_and, EventMask.None.
  assert (∀ i, Z.testbit (Z.land mask (2 ^ n)) i = Z.testbit mask n && (i =? n)) as Hb.
  { intros i. rewrite Z.land_spec, Z.pow2_bits_eqb, Z.eqb_sym by done.
    destruct (Z.eqb_spec i n) as [->|]; by rewrite ?andb_true_r, ?andb_false_r. }
  destruct (Z.eqb_spec (Z.land mask (2 ^ n)) 0) as [E|E]; simpl.
  - specialize (Hb n). rewrite E, Z.bits_0, Z.eqb_refl, andb_true_r in Hb. done.
  - symmetry. apply not_false_is_true. intros Hf. apply E, Z.bits_inj'. intros i _.
    by rewrite Hb, Hf, Z.bits_0.
Qed.

(** Only what was asked for is reported. *)
Lemma fired_within sets sock mask :
  (sock ∈ readfds sets → has mask EventMask.Read = true) →
  (sock ∈ writefds sets → has mask EventMask.Write = true) →
  (sock ∈ exceptfds sets → has mask EventMask.Error = true) →
  mask_and (fired sets sock) mask = fired sets sock.
Proof.
  change EventMask.Read with (2 ^ 0). change EventMask.Write with (2 ^ 1).
  change EventMask.Error with (2 ^ 2). rewrite !has_bit by done. intros Hr Hw Hx.
  assert (∀ i, Z.testbit (fired sets sock) i = true → Z.testbit mask i = true) as Hbits.
  { intros i Hi. assert (i = 0 ∨ i = 1 ∨ i = 2) as Hcases.
    { destruct (decide (i < 0)); [by rewrite Z.testbit_neg_r in Hi|].
      destruct (decide (i < 3)); [lia|].
      rewrite (Z.bits_above_log2 _ i) in Hi; [done|..]; unfold fired;
        repeat case_decide; simpl; lia. }
    revert Hi. unfold fired. destruct Hcases as [->|[->| ->]]; repeat case_decide; auto; done. }
  unfold mask_and. apply Z.bits_inj'. intros i _. rewrite Z.land_spec.
  destruct (Z.testbit (fired sets sock) i) eqn:E; [|done]. by rewrite (Hbits i E).
Qed.

Lemma elem_of_ready entries sets ev :
  ev ∈ ready_events entries sets ↔
  ev_socket ev ∈ entries.*1 ∧ ev_mask ev = fired sets (ev_socket ev) ∧ ev_mask ev ≠ EventMask.None.
Proof.
  induction entries as [|e entries IH].
  - split; [by intros ?%elem_of_nil|by intros [?%elem_of_nil _]].
  - rewrite ready_events_cons, fmap_cons, elem_of_cons. case_decide as Hz.
    + rewrite IH. split; [tauto|]. intros [[Es|?] [Em Hm]]; [|done].
      rewrite Em, Es in Hm. done.
    + rewrite elem_of_cons, IH. destruct ev as [s m]. simpl. split.
      * intros [[= -> ->]|?]; [auto|tauto].
      * intros [[->|?] [-> ?]]; auto.
Qed.

Lemma ready_socket_order entries sets :
  NoDup entries.*1 → NoDup (ev_socket <$> ready_events entries sets).
Proof.
  induction entries as [|e entries IH]; [done|]. rewrite fmap_cons, NoDup_cons.
  intros [Hn Hd]. rewrite ready_events_cons. case_decide; [by apply IH|].
  rewrite fmap_cons, NoDup_cons. split; [|by apply IH].
  intros (ev & Es & Hev)%list_elem_of_fmap. apply elem_of_ready in Hev as (Hin & _).
  simpl in Es. by rewrite <- Es in Hin.
Qed.

(** ** [wait] in closed form *)

Definition pollable (p : SelectPoller) : Prop :=
  ∀ s, is_Some (interest_ p !! s) → in_fd_range s.

(** The sets handed to select(2) ask for the registered interest. *)
Definition asks (p : SelectPoller) (bit : Z) (set : gset Z) : Prop :=
  ∀ s, s ∈ set ↔ ∃ mask, interest_ p !! s = Some mask ∧ has mask bit = true.

Section select_spec.
Context {K : Type} `{!Kernel K, !Observe K, !KernelLaws K, !MapOrder Z}.
Implicit Types (k : K) (p : SelectPoller).

Lemma pollable_entries p : pollable p → Forall (λ e, in_fd_range e.1) (map_order (interest_ p)).
Proof.
  intros Hp. apply Forall_forall. intros [s m] Hin%elem_of_map_order.
  apply Hp. simpl. by exists m.
Qed.

Lemma asked_entries p bit s :
  asked bit (map_order (interest_ p)) s ↔
  ∃ mask, interest_ p !! s = Some mask ∧ has mask bit = true.
Proof. unfold asked. by setoid_rewrite elem_of_map_order. Qed.

Lemma elem_of_registered p s : s ∈ (map_order (interest_ p)).*1 ↔ is_Some (interest_ p !! s).
Proof.
  rewrite list_elem_of_fmap. split.
  - intros ([s' m] & -> & Hin%elem_of_map_order). by exists m.
  - intros [m Hm]. exists (s, m). split; [done|]. by apply elem_of_map_order.
Qed.

Lemma select_wait_run p out timeout_ms k :
  pollable p → out ≠ [] →
  ∃ nfds sets,
    asks p EventMask.Read (readfds sets) ∧ asks p EventMask.Write (writefds sets) ∧
    asks p EventMask.Error (exceptfds sets) ∧
    (∀ s, is_Some (interest_ p !! s) → s < nfds ≤ FD_SETSIZE) ∧
    let r := sys_select nfds sets (select_timeout timeout_ms) k in
    select_wait out timeout_ms p k =
      Done (if r.1.1 <? 0 then (Unexpected (mkPollError "select() failed" (errno r.2)), out)
            else if r.1.1 =? 0 then (Val 0, out)
            else let evs := take (length out) (ready_events (map_order (interest_ p)) r.1.2) in
                 (Val (len evs), evs ++ drop (length evs) out)) r.2.
Proof.
  intros Hp Hout. pose proof (pollable_entries p Hp) as He.
  destruct (add_interests_spec _ (mkSets ∅ ∅ ∅, 0) He) as ([sets mx] & Ea & [Hr Hw Hx (H0 & Hall & Hin)]).
  simpl in *.
  assert (0 ≤ mx < FD_SETSIZE) as Hmx.
  { split; [done|]. destruct Hin as [->|Hin]; [done|].
    apply list_elem_of_fmap in Hin as (e & -> & Hin).
    rewrite Forall_forall in He. apply He, Hin. }
  exists (mx + 1), sets. split; [|split; [|split; [|split]]].
  - intros s. rewrite Hr, asked_entries. split; [by intros [?%elem_of_empty|?]|by right].
  - intros s. rewrite Hw, asked_entries. split; [by intros [?%elem_of_empty|?]|by right].
  - intros s. rewrite Hx, asked_entries. split; [by intros [?%elem_of_empty|?]|by right].
  - intros s [m Hs%elem_of_map_order]. rewrite Forall_forall in Hall.
    specialize (Hall _ Hs). simpl in Hall. lia.
  - unfold select_wait. rewrite decide_False by done.
    unfold mbind, prog_bind, call_os, read_os. rewrite Ea. simpl.
    unfold next_int. rewrite (proj2 (Z.ltb_lt (mx + 1) (2 ^ 31))) by (unfold FD_SETSIZE in *; lia).
    simpl. destruct (sys_select (mx + 1) sets (select_timeout timeout_ms) k) as [[rc sets'] k'].
    simpl. destruct (rc <? 0); [done|]. destruct (rc =? 0); [done|].
    rewrite report_eq by (done || lia). cbn zeta. rewrite Nat.sub_0_r. done.
Qed.

(** ** Properties *)

(** C19. [SelectPoller::wait], for descriptors select(2) can handle: it makes
    one call, for exactly the registered interest and with the timeout it was
    given (none when negative), and never runs into undefined behaviour. On
    success the events written are about distinct registered sockets, carry
    the bits the call reported and only bits that were asked for, fill
    [out_events] from the front and leave the rest of it alone; none is missing
    unless [out_events] is full. *)
Theorem select_wait_spec p out timeout_ms k :
  pollable p → out ≠ [] →
  ∃ nfds sets tv res out' k',
    asks p EventMask.Read (readfds sets) ∧ asks p EventMask.Write (writefds sets) ∧
    asks p EventMask.Error (exceptfds sets) ∧
    (∀ s, is_Some (interest_ p !! s) → s < nfds) ∧
    (match tv with
     | Some tv => 0 ≤ tv_usec tv < 1000000 ∧
         tv_sec tv * 1000000 + tv_usec tv = timeout_ms * 1000
     | None => timeout_ms < 0
     end) ∧
    let r := sys_select nfds sets tv k in
    select_wait out timeout_ms p k = Done (res, out') k' ∧ k' = r.2 ∧
    match res with
    | Unexpected e => r.1.1 < 0 ∧ poll_native_error e = errno k' ∧ out' = out
    | Val n =>
        0 ≤ r.1.1 ∧ ∃ evs, n = len evs ∧ n ≤ len out ∧ out' = evs ++ drop (length evs) out ∧
          NoDup (ev_socket <$> evs) ∧
          (∀ ev, ev ∈ evs → ev_mask ev = fired r.1.2 (ev_socket ev) ∧ ev_mask ev ≠ EventMask.None ∧
             ∃ mask, interest_ p !! ev_socket ev = Some mask ∧
               mask_and (ev_mask ev) mask = ev_mask ev) ∧
          (r.1.1 ≠ 0 → n < len out → ∀ s, is_Some (interest_ p !! s) →
             fired r.1.2 s ≠ EventMask.None → mkEvent s (fired r.1.2 s) ∈ evs)
    end.
Proof.
  intros Hp Hout.
  destruct (select_wait_run p out timeout_ms k Hp Hout) as (nfds & sets & Hr & Hw & Hx & Hn & E).
  pose proof (select_law nfds sets (select_timeout timeout_ms) k) as [_ Hsub].
  cbn zeta in E, Hsub.
  destruct (sys_select nfds sets (select_timeout timeout_ms) k) as [[rc sets'] k'] eqn:Er.
  simpl in E, Hsub. set (answer := if rc <? 0 then _ else _) in E.
  exists nfds, sets, (select_timeout timeout_ms), answer.1, answer.2, k'.
  split; [done|]. split; [done|]. split; [done|]. split; [by intros s [? _]%Hn|].
  split. { unfold select_timeout. destruct (Z.leb_spec 0 timeout_ms); [simpl|done].
    pose proof (Z.quot_rem' timeout_ms 1000). pose proof (Z.rem_bound_pos timeout_ms 1000). lia. }
  cbn zeta. rewrite E, Er. clear E Er. rewrite <- surjective_pairing.
  split; [done|]. split; [done|]. subst answer. simpl.
  destruct (Z.ltb_spec rc 0) as [Hneg|Hpos]; [done|].
  destruct (Hsub Hpos) as (Sr & Sw & Sx).
  destruct (Z.eqb_spec rc 0) as [Hz|Hz]; simpl.
  { split; [done|]. exists [].
    split; [done|]. split; [lia|]. split; [done|]. split; [constructor|].
    split; [by intros ev ?%elem_of_nil|done]. }
  split; [done|].
  set (ready := ready_events (map_order (interest_ p)) sets').
  exists (take (length out) ready). split; [done|]. split; [len_lia|]. split; [done|].
  split; [rewrite fmap_take; apply NoDup_take, ready_socket_order, NoDup_map_order|]. split.
  - intros ev Hev%elem_of_take_1. unfold ready in Hev.
    apply elem_of_ready in Hev as (Hreg & Em & Hne). split; [done|]. split; [done|].
    apply elem_of_registered in Hreg as [mask Hmask]. exists mask. split; [done|].
    rewrite Em. apply fired_within; intros Hin.
    + apply Sr, Hr in Hin as (? & ? & ?). by simplify_eq.
    + apply Sw, Hw in Hin as (? & ? & ?). by simplify_eq.
    + apply Sx, Hx in Hin as (? & ? & ?). by simplify_eq.
  - intros _ Hlt s Hs Hf. rewrite take_ge by len_lia. unfold ready.
    apply elem_of_ready. simpl. split; [by apply elem_of_registered|done].
Qed.

(** A descriptor of [FD_SETSIZE] or more is accepted by [upsert], like any
    but the invalid handle, and the next [wait] then indexes past the end of an
    [fd_set], whatever else is registered. *)
Theorem select_upsert_out_of_range p s mask out timeout_ms k :
  FD_SETSIZE ≤ s → has mask EventMask.Read = true → out ≠ [] →
  (upsert (K := K) s mask p).1 = Val () ∧
  wait out timeout_ms (upsert (K := K) s mask p).2 k = Stop Undefined.
Proof.
  intros Hs Hm Hout. unfold upsert, wait. simpl. unfold select_upsert.
  rewrite decide_False by (unfold k_invalid_socket, FD_SETSIZE in *; lia).
  split; [done|]. unfold select_wait. rewrite decide_False by done.
  unfold mbind, prog_bind. simpl interest_.
  rewrite (add_interests_UB _ _ s mask); [done|..].
  - apply elem_of_map_order. by rewrite lookup_insert_eq.
  - intros [_ ?]. lia.
  - by rewrite Hm.
Qed.

#[export] Instance select_poller_laws : PollerLaws SelectPoller K.
Proof.
  refine {| registered := interest_ |}.
  - intros s m p. simpl. unfold select_upsert. by case_decide.
  - done.
  - intros out t p k n out' k'. simpl. unfold select_wait.
    case_decide as Hout; [done|]. unfold mbind, prog_bind.
    destruct (add_interests _ _) as [[sets mx]| | |]; try done. simpl.
    destruct (next_int mx) as [nfds| | |]; try done. simpl. unfold call_os.
    destruct (sys_select nfds sets (select_timeout t) k) as [[rc sets'] k1]. simpl.
    destruct (rc <? 0); [done|]. destruct (rc =? 0).
    { intros [= <- <- <-]. split; [lia|]. split; [done|]. constructor. }
    destruct (report _ _ _ _) as [[w o]| | |] eqn:E; try done. simpl. intros [= <- <- <-].
    apply (report_returns (λ ev, is_Some (interest_ p !! ev_socket ev))) in E;
      [|intros e mask He; apply elem_of_registered, list_elem_of_fmap; by exists e|lia|constructor].
    rewrite Nat2Z.id. split; [lia|]. tauto.
Defined.
End select_spec.

(** Three sockets, one of them readable and writable. *)
Definition demo_poller : SelectPoller :=
  (select_upsert 9 5 (select_upsert 4 3 (select_upsert 5 1 select_poller).2).2).2.

Lemma select_wait_spec_witness :
  let H := listing_order Z in
  let out := [mkEvent 0 0; mkEvent 0 0] in
  let k := Sim.boot [Ready [4; 5] [4] [7]] in
  ∃ nfds sets tv res out' k',
    asks demo_poller EventMask.Read (readfds sets) ∧
    asks demo_poller EventMask.Write (writefds sets) ∧
    asks demo_poller EventMask.Error (exceptfds sets) ∧
    (∀ s, is_Some (interest_ demo_poller !! s) → s < nfds) ∧
    (match tv with
     | Some tv => 0 ≤ tv_usec tv < 1000000 ∧ tv_sec tv * 1000000 + tv_usec tv = 2500 * 1000
     | None => 2500 < 0
     end) ∧
    let r := sys_select nfds sets tv k in
    select_wait out 2500 demo_poller k = Done (res, out') k' ∧ k' = r.2 ∧
    match res with
    | Unexpected e => r.1.1 < 0 ∧ poll_native_error e = errno k' ∧ out' = out
    | Val n =>
        0 ≤ r.1.1 ∧ ∃ evs, n = len evs ∧ n ≤ len out ∧ out' = evs ++ drop (length evs) out ∧
          NoDup (ev_socket <$> evs) ∧
          (∀ ev, ev ∈ evs → ev_mask ev = fired r.1.2 (ev_socket ev) ∧ ev_mask ev ≠ EventMask.None ∧
             ∃ mask, interest_ demo_poller !! ev_socket ev = Some mask ∧
               mask_and (ev_mask ev) mask = ev_mask ev) ∧
          (r.1.1 ≠ 0 → n < len out → ∀ s, is_Some (interest_ demo_poller !! s) →
             fired r.1.2 s ≠ EventMask.None → mkEvent s (fired r.1.2 s) ∈ evs)
    end.
Proof.
  apply (@select_wait_spec _ _ _ _ (listing_order Z) demo_poller
    [mkEvent 0 0; mkEvent 0 0] 2500 (Sim.boot [Ready [4; 5] [4] [7]])); [|done].
  intros s. change (interest_ demo_poller) with (<[9:=5]> (<[4:=3]> (<[5:=1]> (∅ : gmap Z Z)))).
  rewrite !lookup_insert, lookup_empty. unfold in_fd_range, FD_SETSIZE.
  repeat case_decide; try lia. by intros [? ?].
Defined.

Lemma select_upsert_out_of_range_witness :
  let H := listing_order Z in
  (upsert (K := sim) 1024 EventMask.Read demo_poller).1 = Val () ∧
  wait [mkEvent 0 0] 50 (upsert (K := sim) 1024 EventMask.Read demo_poller).2 (Sim.boot [])
    = Stop Undefined.
Proof.
  apply (@select_upsert_out_of_range _ _ (listing_order Z) demo_poller 1024 EventMask.Read
    [mkEvent 0 0] 50 (Sim.boot [])); done.
Defined.
