(* ===== verification/Acceptor.v ===== *)
(** * Listening and accepting (src/net/acceptor.cpp, src/net/accept_ops.cpp)

    [Listener::bind_and_listen], [accept_one], [local_port_v4] and [Acceptor].
    The acceptor is written against the interface [Poller]. Destructors of
    sockets that have been moved from do nothing and are not written out; all
    others are. *)

From stdpp Require Import pretty.
From S2P Require Import Prelude Vector FrameCodec Os Socket Connection Poller.

Record AcceptError := mkAcceptError { accept_message : string; accept_native_error : Z }.

Module ListenerErrorCode.
Inductive Code := ResolveFailed | CreateFailed | SetSockOptFailed | BindFailed | ListenFailed.
End ListenerErrorCode.
Record ListenerError := mkListenerError {
  listener_code : ListenerErrorCode.Code; listener_message : string; listener_native_error : Z }.

Record Listener := mkListener { listener_sock : Socket }.
Record Acceptor := mkAcceptor { listener_ : Listener }.

Definition listener_valid (l : Listener) : bool := valid (listener_sock l).
Definition listener_handle (a : Acceptor) : Z := native_handle (listener_sock (listener_ a)).

(** [ntohs]. *)
Definition ntohs (t : target) (v : Z) : Z :=
  match native t with
  | little => byte_to_Z (byte_of_Z v) * 256 + byte_to_Z (byte_of_Z (v / 256))
  | big => wrap 16 v
  end.

(** [std::to_string] of a port. *)
Definition to_string (port : Z) : string := pretty (Z.to_N port).

Section with_kernel.
Context {K : Type} `{!Kernel K}.

Definition accept_one (listener : Socket) : prog K (expected Socket AcceptError) :=
  if negb (valid listener) then
    mret (Unexpected (mkAcceptError "listener socket is invalid" 0))
  else
    s ← call_os (sys_accept (native_handle listener));
    if s <? 0 then
      e ← read_os errno;
      mret (Unexpected (mkAcceptError "accept() failed" e))
    else mret (Val (mkSocket s)).

Definition local_port_v4 (t : target) (listener : Socket) : prog K (expected Z AcceptError) :=
  if negb (valid listener) then
    mret (Unexpected (mkAcceptError "listener socket is invalid" 0))
  else
    r ← call_os (sys_getsockname (native_handle listener));
    if negb (r.1 =? 0) then
      e ← read_os errno;
      mret (Unexpected (mkAcceptError "getsockname() failed" e))
    else mret (Val (ntohs t r.2)).

(** The loop over the resolved addresses. *)
Fixpoint bind_loop (ais : list addrinfo) (backlog : Z) : prog K (expected Listener ListenerError) :=
  match ais with
  | [] =>
      e ← read_os errno;
      mret (Unexpected (mkListenerError ListenerErrorCode.BindFailed
                          "bind() failed for all resolved addresses" e))
  | ai :: ais =>
      s ← call_os (sys_socket (ai_family ai) (ai_socktype ai) (ai_protocol ai));
      if s <? 0 then bind_loop ais backlog
      else
        let sock := mkSocket s in
        rc ← call_os (sys_setsockopt_reuseaddr s);
        if negb (rc =? 0) then
          err ← read_os errno;
          _ ← destroy sock;
          mret (Unexpected (mkListenerError ListenerErrorCode.SetSockOptFailed
                              "setsockopt(SO_REUSEADDR) failed" err))
        else
          rc ← call_os (sys_bind s (ai_addr ai));
          if negb (rc =? 0) then
            r ← close sock;
            _ ← destroy r.2;
            bind_loop ais backlog
          else
            rc ← call_os (sys_listen s backlog);
            if negb (rc =? 0) then
              err ← read_os errno;
              _ ← destroy sock;
              mret (Unexpected (mkListenerError ListenerErrorCode.ListenFailed "listen() failed" err))
            else mret (Val (mkListener (move_socket sock).1))
  end.

Definition hints : addrinfo := mkAddrinfo AF_INET SOCK_STREAM IPPROTO_TCP [].

Definition bind_and_listen (host : string) (port backlog : Z)
    : prog K (expected Listener ListenerError) :=
  if backlog <=? 0 then
    mret (Unexpected (mkListenerError ListenerErrorCode.ListenFailed "backlog must be > 0" 0))
  else
    r ← call_os (sys_getaddrinfo (if decide (host = "") then None else Some host)
                   (to_string port) hints AI_PASSIVE);
    let gai_rc := r.1 in
    if negb (gai_rc =? 0) then
      mret (Unexpected (mkListenerError ListenerErrorCode.ResolveFailed (gai_strerror gai_rc) gai_rc))
    else bind_loop r.2 backlog.

Section acceptor.
Context {P : Type} `{!Poller P K}.

Definition register_listener (a : Acceptor) (poller : P) : expected unit PollError * P :=
  upsert (listener_handle a) EventMask.Read poller.

Definition unregister_listener (a : Acceptor) (poller : P) : expected unit PollError * P :=
  erase (listener_handle a) poller.

Definition accept_and_register (a : Acceptor) (poller : P)
    : prog K (expected Connection AcceptError * P) :=
  accepted ← accept_one (listener_sock (listener_ a));
  match accepted with
  | Unexpected e => mret (Unexpected e, poller)
  | Val sock =>
      let conn := (connection sock).1 in
      nb ← set_nonblocking true (conn_socket conn);
      match nb with
      | Unexpected e =>
          _ ← destroy_connection conn;
          mret (Unexpected (mkAcceptError
                  ("failed to set non-blocking mode on accepted socket: " +:+ socket_message e)
                  (socket_native_error e)), poller)
      | Val _ =>
          let (reg, poller) := upsert (conn_handle conn) EventMask.Read poller in
          match reg with
          | Unexpected e =>
              _ ← destroy_connection conn;
              mret (Unexpected (mkAcceptError
                      ("failed to register accepted socket: " +:+ poll_message e)
                      (poll_native_error e)), poller)
          | Val _ => mret (Val conn, poller)
          end
      end
  end.
End acceptor.

(** ** No descriptor is lost *)

Context `{!Observe K, !KernelLaws K}.
Implicit Types k : K.

(** The streams of the descriptors that were open are as they were. *)
Definition streams_kept (k k' : K) : Prop :=
  ∀ s, s ∈ open_fds k → received k' s = received k s ∧ sent k' s = sent k s.

(** Nothing is open that was not before. *)
Definition no_change (k k' : K) : Prop := open_fds k' = open_fds k ∧ streams_kept k k'.

(** One new descriptor is open, with nothing on its streams yet. *)
Definition opened_one (fd : Z) (k k' : K) : Prop :=
  0 ≤ fd ∧ (fd ∉ open_fds k) ∧ open_fds k' = {[fd]} ∪ open_fds k ∧
  received k' fd = [] ∧ sent k' fd = [] ∧ streams_kept k k'.

#[export] Instance no_change_preorder : PreOrder no_change.
Proof.
  split; [by split|]. intros x y z [E1 H1] [E2 H2]. split; [by rewrite E2|].
  intros s Hs. destruct (H1 s Hs) as [<- <-]. apply H2. by rewrite E1.
Qed.

Lemma keeps_no_change k k' : keeps k k' → no_change k k'.
Proof. intros [E H]. split; [done|]. intros s _. apply H. Qed.

Lemma opened_one_opens r k k' : 0 ≤ r → opens r k k' → opened_one r k k'.
Proof.
  intros Hr (_ & Hf & Ho & Hs). specialize (Hf Hr). destruct (Ho Hr) as (? & ? & ?).
  split; [done|]. split; [done|]. split; [done|]. split; [done|]. split; [done|].
  intros s Hin. apply Hs. by intros ->.
Qed.

Lemma opened_one_then fd k k1 k' : opened_one fd k k1 → keeps k1 k' → opened_one fd k k'.
Proof.
  intros (H1 & H2 & H3 & H4 & H5 & H6) [E H]. destruct (H fd) as [Er Es].
  split; [done|]. split; [done|]. rewrite E, Er, Es. split; [done|]. split; [done|].
  split; [done|]. intros s Hs. destruct (H s) as [-> ->]. by apply H6.
Qed.

(** Opening a descriptor and closing it again. *)
Lemma opened_one_closed fd k k1 :
  opened_one fd k k1 →
  ∃ r k', close (mkSocket fd) k1 = Done (r, no_socket) k' ∧ no_change k k'.
Proof.
  intros (H1 & H2 & H3 & H4 & H5 & H6).
  destruct (close_spec (mkSocket fd) k1) as (r & k' & E & Ho & Hs).
  exists r, k'. split; [done|]. split.
  - rewrite Ho, H3. unfold valid. simpl. rewrite bool_decide_true by (unfold k_invalid_socket; lia).
    apply set_eq. intros x. rewrite elem_of_difference, elem_of_union, elem_of_singleton.
    split; [tauto|]. intros Hx. split; [by right|]. by intros ->.
  - intros s Hin. destruct (Hs s) as [-> ->]. by apply H6.
Qed.

Lemma destroy_closed fd k k1 :
  opened_one fd k k1 → ∃ k', destroy (mkSocket fd) k1 = Done () k' ∧ no_change k k'.
Proof.
  intros (r & k' & E & H)%opened_one_closed. exists k'. split; [|done].
  unfold destroy, mbind, prog_bind. by rewrite E.
Qed.

(** What [bind_loop] leaves behind. *)
Definition bound (res : expected Listener ListenerError) (k k' : K) : Prop :=
  match res with
  | Val l => opened_one (socket_ (listener_sock l)) k k'
  | Unexpected e => no_change k k' ∧ listener_code e ≠ ListenerErrorCode.CreateFailed
  end.

Lemma bound_after res k k1 k' : no_change k k1 → bound res k1 k' → bound res k k'.
Proof.
  intros [E H]. destruct res as [l|e]; simpl.
  - intros (H1 & H2 & H3 & H4 & H5 & H6). rewrite E in H2, H3.
    split; [done|]. split; [done|]. split; [done|]. split; [done|]. split; [done|].
    intros s Hs. destruct (H s Hs) as [<- <-]. apply H6. by rewrite E.
  - intros [H' ?]. split; [|done]. by transitivity k1.
Qed.

Lemma bind_loop_spec ais backlog k :
  ∃ res k', bind_loop ais backlog k = Done res k' ∧ bound res k k'.
Proof.
  revert k. induction ais as [|ai ais IH]; intros k; cbn [bind_loop];
    unfold mbind, prog_bind, call_os, read_os.
  { eexists _, k. split; [reflexivity|]. by split. }
  pose proof (socket_law (ai_family ai) (ai_socktype ai) (ai_protocol ai) k) as Ho.
  destruct (sys_socket _ _ _ k) as [s k1]. simpl in *.
  destruct (Z.ltb_spec s 0) as [Hs|Hs].
  { destruct (IH k1) as (res & k' & -> & Hb). exists res, k'. split; [done|].
    eapply bound_after; [|done]. apply keeps_no_change. by apply Ho. }
  apply opened_one_opens in Ho; [|done].
  pose proof (setsockopt_law s k1) as Hk1.
  destruct (sys_setsockopt_reuseaddr s k1) as [rc1 k2]. simpl in *.
  eapply opened_one_then in Ho; [|exact Hk1].
  destruct (negb (rc1 =? 0)).
  { destruct (destroy_closed s k k2 Ho) as (k' & -> & Hn). eexists _, k'.
    split; [reflexivity|]. by split. }
  pose proof (bind_law s (ai_addr ai) k2) as Hk2.
  destruct (sys_bind s (ai_addr ai) k2) as [rc2 k3]. simpl in *.
  eapply opened_one_then in Ho; [|exact Hk2].
  destruct (negb (rc2 =? 0)).
  { destruct (opened_one_closed s k k3 Ho) as (r & k4 & -> & Hn). simpl.
    destruct (IH k4) as (res & k' & -> & Hb). exists res, k'. split; [done|].
    by eapply bound_after. }
  pose proof (listen_law s backlog k3) as Hk3.
  destruct (sys_listen s backlog k3) as [rc3 k4]. simpl in *.
  eapply opened_one_then in Ho; [|exact Hk3].
  destruct (negb (rc3 =? 0)).
  { destruct (destroy_closed s k k4 Ho) as (k' & -> & Hn). eexists _, k'.
    split; [reflexivity|]. by split. }
  eexists _, _. split; [reflexivity|]. done.
Qed.

(** [accept_one] of a valid listener. *)
Lemma accept_one_run listener k :
  ∃ res k', accept_one listener k = Done res k' ∧
    match res with
    | Val s => valid listener = true ∧ opened_one (socket_ s) k k'
    | Unexpected e =>
        keeps k k' ∧ (valid listener = true → accept_native_error e = errno k')
    end.
Proof.
  unfold accept_one, mbind, prog_bind, call_os, read_os.
  destruct (valid listener); simpl; [|eexists _, _; split; [reflexivity|by split]].
  pose proof (accept_law (native_handle listener) k) as Ho.
  destruct (sys_accept (native_handle listener) k) as [s k1]. simpl in *.
  destruct (Z.ltb_spec s 0).
  - eexists _, _. split; [reflexivity|]. split; [by apply Ho|done].
  - eexists _, _. split; [reflexivity|]. split; [done|]. by apply opened_one_opens.
Qed.

Lemma accept_and_register_run {P} `{!Poller P K, !PollerLaws P K} (a : Acceptor) (poller : P) k :
  ∃ res poller' k', accept_and_register a poller k = Done (res, poller') k' ∧
    match res with
    | Val conn =>
        let fd := conn_handle conn in
        conn = (connection (mkSocket fd)).1 ∧ opened_one fd k k' ∧
        Z.testbit (fd_flags k' fd) 11 = true ∧
        registered poller' = <[fd := EventMask.Read]> (registered poller)
    | Unexpected e => no_change k k' ∧ registered poller' = registered poller
    end.
Proof.
  unfold accept_and_register.
  destruct (accept_one_run (listener_sock (listener_ a)) k) as (res & k1 & E & Hr).
  unfold mbind, prog_bind. rewrite E. clear E.
  destruct res as [[fd]|e].
  2: { eexists _, _, _. split; [reflexivity|]. split; [|done]. apply keeps_no_change, Hr. }
  destruct Hr as [_ Ho]. simpl in *.
  destruct (set_nonblocking_run true (mkSocket fd) k1) as (nb & k2 & -> & Hk & Hnb).
  eapply opened_one_then in Ho; [|exact Hk]. simpl in *.
  destruct nb as [[]|e].
  2: { unfold destroy_connection. simpl. destruct (destroy_closed fd k k2 Ho) as (k' & -> & Hn).
       eexists _, _, _. split; [reflexivity|]. by split. }
  pose proof (upsert_law (conn_handle (connection (mkSocket fd)).1) EventMask.Read poller) as Hu.
  unfold conn_handle, native_handle in *. simpl in *.
  destruct (upsert fd EventMask.Read poller) as [[[]|e] poller']; simpl in *.
  - eexists _, _, _. split; [reflexivity|]. simpl. split; [done|]. split; [done|]. split; [|done]. exact (proj2 Hnb 11).
  - unfold destroy_connection. simpl. destruct (destroy_closed fd k k2 Ho) as (k' & -> & Hn).
    eexists _, _, _. split; [reflexivity|]. by split.
Qed.

(** ** Properties *)

(** C20. [bind_and_listen] always comes back, having tried the resolved
    addresses in turn, and loses no descriptor: when it returns a listener
    exactly the listener's descriptor is open that was not before, and on every
    error path all the sockets it created are closed again. It never reports
    [CreateFailed]. *)
Theorem bind_and_listen_leaks_nothing host port backlog k :
  ∃ res k', bind_and_listen host port backlog k = Done res k' ∧
    match res with
    | Val l => 0 < backlog ∧ opened_one (socket_ (listener_sock l)) k k' ∧ listener_valid l = true
    | Unexpected e =>
        no_change k k' ∧ listener_code e ≠ ListenerErrorCode.CreateFailed ∧
        (backlog ≤ 0 → k' = k ∧ listener_code e = ListenerErrorCode.ListenFailed)
    end.
Proof.
  unfold bind_and_listen. destruct (Z.leb_spec backlog 0) as [Hb|Hb].
  { eexists _, _. split; [reflexivity|]. by split. }
  unfold mbind, prog_bind, call_os.
  set (h := if decide (host = "") then None else Some host).
  pose proof (getaddrinfo_law h (to_string port) hints AI_PASSIVE k) as Hk.
  destruct (sys_getaddrinfo h (to_string port) hints AI_PASSIVE k) as [[rc ais] k1]. simpl in *.
  apply keeps_no_change in Hk.
  destruct (negb (rc =? 0)).
  { eexists _, _. split; [reflexivity|]. split; [done|]. split; [done|]. lia. }
  destruct (bind_loop_spec ais backlog k1) as (res & k' & E & Hr).
  exists res, k'. split; [done|]. eapply bound_after in Hr; [|exact Hk].
  destruct res as [l|e]; simpl in *.
  - split; [done|]. split; [done|]. destruct Hr as [Hpos _]. unfold listener_valid, valid.
    rewrite bool_decide_true; [done|]. unfold k_invalid_socket. lia.
  - destruct Hr as [? ?]. split; [done|]. split; [done|]. lia.
Qed.

(** C21. [accept_and_register], against any poller: either the new connection
    owns exactly one new descriptor, which is non-blocking and registered for
    reading, with empty buffers; or an error is returned, nothing is
    registered and every descriptor it opened is closed. *)
Theorem accept_and_register_spec {P} `{!Poller P K, !PollerLaws P K} (a : Acceptor) (poller : P) k :
  ∃ res poller' k', accept_and_register a poller k = Done (res, poller') k' ∧
    match res with
    | Val conn =>
        let fd := conn_handle conn in
        opened_one fd k k' ∧ Z.testbit (fd_flags k' fd) 11 = true ∧
        registered poller' = <[fd := EventMask.Read]> (registered poller) ∧
        read_buf_ conn = Vec.empty ∧ write_buf_ conn = Vec.empty ∧
        state_ conn = ConnectionState.Reading
    | Unexpected e =>
        open_fds k' = open_fds k ∧ streams_kept k k' ∧ registered poller' = registered poller
    end.
Proof.
  destruct (accept_and_register_run a poller k) as (res & p' & k' & E & H).
  exists res, p', k'. split; [done|]. destruct res as [conn|e].
  - destruct H as (Hc & ? & ? & ?). cbn zeta. do 3 (split; [done|]). by rewrite Hc.
  - by destruct H as [[? ?] ?].
Qed.
End with_kernel.

(** Two addresses: the first cannot be bound. *)
Definition demo_addr : addrinfo := mkAddrinfo AF_INET SOCK_STREAM IPPROTO_TCP [].
Definition demo_kernel : sim :=
  Sim.boot [Addrs [demo_addr; demo_addr]; Give 0; Give 0; Fail 98; Give 0; Give 0; Give 0; Give 0].

Lemma bind_and_listen_leaks_nothing_witness :
  ∃ res k', bind_and_listen "127.0.0.1" 8080 16 demo_kernel = Done res k' ∧
    match res with
    | Val l => 0 < 16 ∧ opened_one (socket_ (listener_sock l)) demo_kernel k' ∧ listener_valid l = true
    | Unexpected e =>
        no_change demo_kernel k' ∧ listener_code e ≠ ListenerErrorCode.CreateFailed ∧
        (16 ≤ 0 → k' = demo_kernel ∧ listener_code e = ListenerErrorCode.ListenFailed)
    end.
Proof. apply (bind_and_listen_leaks_nothing "127.0.0.1" 8080 16 demo_kernel). Defined.

Definition demo_acceptor : Acceptor := mkAcceptor (mkListener (mkSocket 3)).

Lemma accept_and_register_spec_witness :
  let order := listing_order Z in
  let k := Sim.boot [Give 0] in
  ∃ res poller' k', accept_and_register demo_acceptor select_poller k = Done (res, poller') k' ∧
    match res with
    | Val conn =>
        let fd := conn_handle conn in
        opened_one fd k k' ∧ Z.testbit (fd_flags k' fd) 11 = true ∧
        interest_ poller' = <[fd := EventMask.Read]> (interest_ select_poller) ∧
        read_buf_ conn = Vec.empty ∧ write_buf_ conn = Vec.empty ∧
        state_ conn = ConnectionState.Reading
    | Unexpected e =>
        open_fds k' = open_fds k ∧ streams_kept k k' ∧ interest_ poller' = interest_ select_poller
    end.
Proof.
  intros order.
  apply (@accept_and_register_spec sim _ _ _ SelectPoller _ (@select_poller_laws sim _ order)
    demo_acceptor select_poller (Sim.boot [Give 0])).
Defined.

(** Both outcomes occur. *)
Example demo_listener :
  ∃ l k', bind_and_listen "127.0.0.1" 8080 16 demo_kernel = Done (Val l) k' ∧
    elements (open_fds k') = [socket_ (listener_sock l)].
Proof. eexists _, _. split; vm_compute; reflexivity. Qed.
