(* ===== verification/Dispatcher.v ===== *)
(** * Request dispatch (src/app/dispatcher.cpp)

    [RequestDispatcher] maps one request payload to a response payload. It is
    the interface between the worker pool, which calls it, and the handlers. A
    handler may keep state, so the interface is a relation: the ways a call on
    a payload can end. [EchoDispatcher] is the one implementation. *)

From S2P Require Import Prelude.

Inductive DispatchErrorCode := Internal.
Record DispatchError := mkDispatchError {
  dispatch_code : DispatchErrorCode; dispatch_message : string }.

#[export] Instance DispatchErrorCode_eq_dec : EqDecision DispatchErrorCode.
Proof. solve_decision. Defined.
#[export] Instance DispatchError_eq_dec : EqDecision DispatchError.
Proof. solve_decision. Defined.

(** How a call of [dispatch] ends: it returns, or an exception leaves it, one
    derived from [std::exception] with its [what()], or any other. *)
Inductive dispatched :=
| Returns (r : expected (list byte) DispatchError)
| ThrowsException (what : string)
| ThrowsOther.

#[export] Instance dispatched_eq_dec : EqDecision dispatched.
Proof. solve_decision. Defined.

Class RequestDispatcher := { dispatches : list byte → dispatched → Prop }.

(** [EchoDispatcher::dispatch]. *)
Definition echo_dispatch (request_payload : list byte) : expected (list byte) DispatchError :=
  Val request_payload.

Definition EchoDispatcher : RequestDispatcher :=
  {| dispatches request d := d = Returns (echo_dispatch request) |}.

#[export] Instance echo_dispatches_dec request d :
  Decision (dispatches (RequestDispatcher := EchoDispatcher) request d).
Proof. simpl. apply _. Defined.
