(* ===== verification/WorkerPool.v ===== *)
(** * The worker pool (src/runtime/worker_pool.cpp)

    Threads interleave between their accesses to what they share: the two
    mutexes, the two condition variables and the atomic [stop_].  A critical
    section is entered when its mutex is free and may be overtaken by other
    threads only at accesses that do not need the mutex: [shutdown] writes
    [stop_] and notifies without holding one.  Waiting on a condition variable
    releases the mutex and blocks in one step; a notification wakes threads
    that are blocked at that moment and is otherwise lost; a blocked thread may
    also wake for no reason.  What a thread does is a function of its program
    point and the shared state ([worker_step], [client_step]). *)

From S2P Require Import Prelude Dispatcher.

Inductive TaskQueueOverflowPolicy := RejectNewTask | DropOldestPendingTask.
Inductive ResultQueueOverflowPolicy := BlockWorkerUntilPopped | DropOldestCompletedResult.

#[export] Instance TaskQueueOverflowPolicy_eq_dec : EqDecision TaskQueueOverflowPolicy.
Proof. solve_decision. Defined.
#[export] Instance ResultQueueOverflowPolicy_eq_dec : EqDecision ResultQueueOverflowPolicy.
Proof. solve_decision. Defined.

Record WorkerPoolOptions := mkOptions {
  task_queue_overflow : TaskQueueOverflowPolicy;
  result_queue_overflow : ResultQueueOverflowPolicy;
  result_queue_capacity_override : Z;
}.
Definition default_options : WorkerPoolOptions :=
  mkOptions RejectNewTask BlockWorkerUntilPopped 0.

Record HandlerTask := mkTask { task_id : Z; task_payload : list byte }.
Record HandlerResult := mkHandlerResult {
  result_id : Z; result_outcome : expected (list byte) DispatchError }.

#[export] Instance HandlerTask_eq_dec : EqDecision HandlerTask.
Proof. solve_decision. Defined.
#[export] Instance HandlerResult_eq_dec : EqDecision HandlerResult.
Proof. solve_decision. Defined.

(** The constant members. *)
Record pool_config := mkConfig {
  options_ : WorkerPoolOptions;
  task_capacity_ : Z;
  result_capacity_ : Z;
}.

(** ** Shared state

    Below the queues, the mutexes and the flag is a record of what happened,
    which the code does not have: the tasks accepted, in order; those that left
    the queue, in order, and whether a worker took them; the results pushed,
    with the tasks they answer; those that left, in order, and whether a client
    got them; the tasks whose results a worker gave up when stopping. *)
Record shared := mkShared {
  tasks_ : list HandlerTask;
  results_ : list HandlerResult;
  stop_ : bool;
  task_mutex_ : bool;
  result_mutex_ : bool;
  accepted : list HandlerTask;
  left_queue : list (HandlerTask * bool);
  pushed : list (HandlerTask * HandlerResult);
  left_results : list (HandlerResult * bool);
  given_up : list HandlerTask;
}.

Definition lock_tasks (s : shared) : shared :=
  mkShared (tasks_ s) (results_ s) (stop_ s) true (result_mutex_ s)
    (accepted s) (left_queue s) (pushed s) (left_results s) (given_up s).
Definition unlock_tasks (s : shared) : shared :=
  mkShared (tasks_ s) (results_ s) (stop_ s) false (result_mutex_ s)
    (accepted s) (left_queue s) (pushed s) (left_results s) (given_up s).
Definition lock_results (s : shared) : shared :=
  mkShared (tasks_ s) (results_ s) (stop_ s) (task_mutex_ s) true
    (accepted s) (left_queue s) (pushed s) (left_results s) (given_up s).
Definition unlock_results (s : shared) : shared :=
  mkShared (tasks_ s) (results_ s) (stop_ s) (task_mutex_ s) false
    (accepted s) (left_queue s) (pushed s) (left_results s) (given_up s).

(** [tasks_.push_back(task)] and [tasks_.pop_front()]. *)
Definition push_task (t : HandlerTask) (s : shared) : shared :=
  mkShared (tasks_ s ++ [t]) (results_ s) (stop_ s) (task_mutex_ s) (result_mutex_ s)
    (accepted s ++ [t]) (left_queue s) (pushed s) (left_results s) (given_up s).
Definition pop_task (by_worker : bool) (s : shared) : shared :=
  match tasks_ s with
  | [] => s
  | t :: ts =>
      mkShared ts (results_ s) (stop_ s) (task_mutex_ s) (result_mutex_ s)
        (accepted s) (left_queue s ++ [(t, by_worker)]) (pushed s) (left_results s) (given_up s)
  end.

(** [results_.push_back(done)] and [results_.pop_front()]. *)
Definition push_result (t : HandlerTask) (r : HandlerResult) (s : shared) : shared :=
  mkShared (tasks_ s) (results_ s ++ [r]) (stop_ s) (task_mutex_ s) (result_mutex_ s)
    (accepted s) (left_queue s) (pushed s ++ [(t, r)]) (left_results s) (given_up s).
Definition pop_result (by_client : bool) (s : shared) : shared :=
  match results_ s with
  | [] => s
  | r :: rs =>
      mkShared (tasks_ s) rs (stop_ s) (task_mutex_ s) (result_mutex_ s)
        (accepted s) (left_queue s) (pushed s) (left_results s ++ [(r, by_client)]) (given_up s)
  end.

Definition set_stop (s : shared) : shared :=
  mkShared (tasks_ s) (results_ s) true (task_mutex_ s) (result_mutex_ s)
    (accepted s) (left_queue s) (pushed s) (left_results s) (given_up s).
Definition abandon (t : HandlerTask) (s : shared) : shared :=
  mkShared (tasks_ s) (results_ s) (stop_ s) (task_mutex_ s) (result_mutex_ s)
    (accepted s) (left_queue s) (pushed s) (left_results s) (given_up s ++ [t]).

(** ** Program points *)

(** Of [worker_loop]. *)
Inductive worker_pc :=
| WLock                                            (* acquiring [task_mutex_] *)
| WPred                                            (* the predicate of the wait *)
| WBlock                                           (* it was false: about to block *)
| WAsleep                                          (* blocked on [task_cv_] *)
| WTake                                            (* after the wait *)
| WNotify (t : HandlerTask)                        (* [task_cv_.notify_all()] *)
| WDispatch (t : HandlerTask)                      (* calling the dispatcher *)
| WRLock (t : HandlerTask) (r : HandlerResult)     (* acquiring [result_mutex_] *)
| WRDrop (t : HandlerTask) (r : HandlerResult)     (* making room, then pushing *)
| WRPred (t : HandlerTask) (r : HandlerResult)     (* the predicate of the wait *)
| WRBlock (t : HandlerTask) (r : HandlerResult)    (* about to block *)
| WRAsleep (t : HandlerTask) (r : HandlerResult)   (* blocked on [result_cv_] *)
| WRPush (t : HandlerTask) (r : HandlerResult)     (* after the wait *)
| WRNotify                                         (* [result_cv_.notify_one()] *)
| WReturned
| WAborted.

(** Of [try_submit], [try_pop_result] and [shutdown]. *)
Inductive client_pc :=
| SubLock (t : HandlerTask) | SubCheck (t : HandlerTask) | SubPush (t : HandlerTask)
| SubNotify | SubReturned (b : bool)
| PopLock | PopBody | PopNotify (r : HandlerResult) | PopReturned (r : option HandlerResult)
| ShutExchange | ShutNotifyTasks | ShutNotifyResults | ShutJoin | ShutReturned
| CAborted.

#[export] Instance worker_pc_eq_dec : EqDecision worker_pc.
Proof. solve_decision. Defined.
#[export] Instance client_pc_eq_dec : EqDecision client_pc.
Proof. solve_decision. Defined.

Inductive client_op := Submit (t : HandlerTask) | Pop | Shutdown.

Definition client_start (o : client_op) : client_pc :=
  match o with Submit t => SubLock t | Pop => PopLock | Shutdown => ShutExchange end.

(** A notification. *)
Inductive wake := NoWake | AllTasks | OneTask | AllResults | OneResult.

(** What a step leaves to chance: how a dispatch ends, who is woken. *)
Inductive choice := NoChoice | Outcome (d : dispatched) | Woken (i : nat).

(** The result of a call of the dispatcher, exceptions caught. *)
Definition caught (d : dispatched) : expected (list byte) DispatchError :=
  match d with
  | Returns r => r
  | ThrowsException what => Unexpected (mkDispatchError Internal what)
  | ThrowsOther => Unexpected (mkDispatchError Internal "unknown exception in dispatcher")
  end.

(** [while (results_.size() >= result_capacity_ && !results_.empty())
    results_.pop_front();] *)
Fixpoint make_room (fuel : nat) (cap : Z) (s : shared) : shared :=
  match fuel with
  | O => s
  | S fuel =>
      if (cap <=? len (results_ s)) && negb (bool_decide (results_ s = []))
      then make_room fuel cap (pop_result false s) else s
  end.

Section pool.
Context `{RequestDispatcher} `{∀ p d, Decision (dispatches p d)}.
Context (cfg : pool_config).

(** Where a worker goes when an [assert] holds. *)
Definition w_checked (b : bool) (pc : worker_pc) : worker_pc := if b then pc else WAborted.
Definition c_checked (b : bool) (pc : client_pc) : client_pc := if b then pc else CAborted.

(** The next step of a worker. *)
Definition worker_step (c : choice) (s : shared) (pc : worker_pc)
    : option (shared * worker_pc * wake) :=
  match pc with
  | WLock => if task_mutex_ s then None else Some (lock_tasks s, WPred, NoWake)
  | WPred =>
      if stop_ s || negb (bool_decide (tasks_ s = [])) then Some (s, WTake, NoWake)
      else Some (s, WBlock, NoWake)
  | WBlock => Some (unlock_tasks s, WAsleep, NoWake)
  | WAsleep => None
  | WTake =>
      match tasks_ s with
      | [] => Some (unlock_tasks s, if stop_ s then WReturned else WLock, NoWake)
      | t :: _ =>
          let s := pop_task true s in
          Some (unlock_tasks s, w_checked (len (tasks_ s) <=? task_capacity_ cfg) (WNotify t), NoWake)
      end
  | WNotify t => Some (s, WDispatch t, AllTasks)
  | WDispatch t =>
      match c with
      | Outcome d =>
          if decide (dispatches (task_payload t) d)
          then Some (s, WRLock t (mkHandlerResult (task_id t) (caught d)), NoWake) else None
      | _ => None
      end
  | WRLock t r =>
      if result_mutex_ s then None
      else Some (lock_results s,
             match result_queue_overflow (options_ cfg) with
             | DropOldestCompletedResult => WRDrop t r
             | BlockWorkerUntilPopped => WRPred t r
             end, NoWake)
  | WRDrop t r =>
      let s := make_room (length (results_ s)) (result_capacity_ cfg) s in
      if negb (len (results_ s) <? result_capacity_ cfg) then Some (s, WAborted, NoWake)
      else if stop_ s then Some (unlock_results (abandon t s), WReturned, NoWake)
      else
        let s := push_result t r s in
        Some (unlock_results s, w_checked (len (results_ s) <=? result_capacity_ cfg) WRNotify, NoWake)
  | WRPred t r =>
      if stop_ s || (len (results_ s) <? result_capacity_ cfg) then Some (s, WRPush t r, NoWake)
      else Some (s, WRBlock t r, NoWake)
  | WRBlock t r => Some (unlock_results s, WRAsleep t r, NoWake)
  | WRAsleep _ _ => None
  | WRPush t r =>
      if stop_ s then Some (unlock_results (abandon t s), WReturned, NoWake)
      else if negb (len (results_ s) <? result_capacity_ cfg) then Some (s, WAborted, NoWake)
      else
        let s := push_result t r s in
        Some (unlock_results s, w_checked (len (results_ s) <=? result_capacity_ cfg) WRNotify, NoWake)
  | WRNotify => Some (s, WLock, OneResult)
  | WReturned | WAborted => None
  end.

(** The next step of a client; [joined]: every worker has returned. *)
Definition client_step (joined : bool) (s : shared) (pc : client_pc)
    : option (shared * client_pc * wake) :=
  match pc with
  | SubLock t => if task_mutex_ s then None else Some (lock_tasks s, SubCheck t, NoWake)
  | SubCheck t =>
      if stop_ s then Some (unlock_tasks s, SubReturned false, NoWake)
      else Some (s, SubPush t, NoWake)
  | SubPush t =>
      if task_capacity_ cfg <=? len (tasks_ s) then
        match task_queue_overflow (options_ cfg) with
        | DropOldestPendingTask =>
            let s := if negb (bool_decide (tasks_ s = [])) then pop_task false s else s in
            let s := push_task t s in
            Some (unlock_tasks s, c_checked (len (tasks_ s) <=? task_capacity_ cfg) SubNotify, NoWake)
        | RejectNewTask => Some (unlock_tasks s, SubReturned false, NoWake)
        end
      else
        let s := push_task t s in
        Some (unlock_tasks s, c_checked (len (tasks_ s) <=? task_capacity_ cfg) SubNotify, NoWake)
  | SubNotify => Some (s, SubReturned true, OneTask)
  | PopLock => if result_mutex_ s then None else Some (lock_results s, PopBody, NoWake)
  | PopBody =>
      match results_ s with
      | [] => Some (unlock_results s, PopReturned None, NoWake)
      | r :: _ =>
          let s := pop_result true s in
          Some (unlock_results s, c_checked (len (results_ s) <? result_capacity_ cfg) (PopNotify r), NoWake)
      end
  | PopNotify r => Some (s, PopReturned (Some r), AllResults)
  | ShutExchange =>
      if stop_ s then Some (s, ShutReturned, NoWake) else Some (set_stop s, ShutNotifyTasks, NoWake)
  | ShutNotifyTasks => Some (s, ShutNotifyResults, AllTasks)
  | ShutNotifyResults => Some (s, ShutJoin, AllResults)
  | ShutJoin => if joined then Some (s, ShutReturned, NoWake) else None
  | SubReturned _ | PopReturned _ | ShutReturned | CAborted => None
  end.
End pool.

(** ** Notifications *)

Definition asleep_tasks (pc : worker_pc) : bool :=
  match pc with WAsleep => true | _ => false end.
Definition asleep_results (pc : worker_pc) : bool :=
  match pc with WRAsleep _ _ => true | _ => false end.

(** A thread that wakes reacquires the mutex and tests the predicate again. *)
Definition woken (pc : worker_pc) : worker_pc :=
  match pc with WAsleep => WLock | WRAsleep t r => WRLock t r | _ => pc end.

Definition wake_all (f : worker_pc → bool) (ws : list worker_pc) : list worker_pc :=
  (λ pc, if f pc then woken pc else pc) <$> ws.

(** [notify_one] wakes one of the blocked threads if there is one. *)
Definition wake_one (f : worker_pc → bool) (c : choice) (ws : list worker_pc)
    : option (list worker_pc) :=
  if existsb f ws then
    match c with
    | Woken i =>
        match ws !! i with
        | Some pc => if f pc then Some (<[i := woken pc]> ws) else None
        | None => None
        end
    | _ => None
    end
  else Some ws.

Definition notify (w : wake) (c : choice) (ws : list worker_pc) : option (list worker_pc) :=
  match w with
  | NoWake => Some ws
  | AllTasks => Some (wake_all asleep_tasks ws)
  | OneTask => wake_one asleep_tasks c ws
  | AllResults => Some (wake_all asleep_results ws)
  | OneResult => wake_one asleep_results c ws
  end.

(** ** The pool and its threads *)

Record pool := mkPool { sh : shared; workers_ : list worker_pc; clients : list client_pc }.

#[export] Instance shared_eq_dec : EqDecision shared.
Proof. solve_decision. Defined.
#[export] Instance pool_eq_dec : EqDecision pool.
Proof. solve_decision. Defined.

(** The constructor: it throws, or starts the workers. *)
Definition worker_pool (num_workers queue_capacity : Z) (options : WorkerPoolOptions)
    : outcome (pool_config * pool) :=
  let result_capacity :=
    if negb (result_queue_capacity_override options =? 0)
    then result_queue_capacity_override options else queue_capacity in
  if num_workers =? 0 then Throws
  else if queue_capacity =? 0 then Throws
  else if result_capacity =? 0 then Throws
  else Ret (mkConfig options queue_capacity result_capacity,
            mkPool (mkShared [] [] false false false [] [] [] [] [])
              (replicate (Z.to_nat num_workers) WLock) []).

Definition all_returned (ws : list worker_pc) : bool :=
  forallb (λ pc, bool_decide (pc = WReturned)) ws.

(** Who does something next. *)
Inductive action :=
| Worker (i : nat) (c : choice)
| Client (j : nat) (c : choice)
| Spurious (i : nat)
| StartCall (o : client_op).

Section system.
Context `{RequestDispatcher} `{∀ p d, Decision (dispatches p d)}.
Context (cfg : pool_config).

Definition perform (p : pool) (a : action) : option pool :=
  match a with
  | Worker i c =>
      pc ← workers_ p !! i;
      r ← worker_step cfg c (sh p) pc;
      ws ← notify r.2 c (<[i := r.1.2]> (workers_ p));
      Some (mkPool r.1.1 ws (clients p))
  | Client j c =>
      pc ← clients p !! j;
      r ← client_step cfg (all_returned (workers_ p)) (sh p) pc;
      ws ← notify r.2 c (workers_ p);
      Some (mkPool r.1.1 ws (<[j := r.1.2]> (clients p)))
  | Spurious i =>
      pc ← workers_ p !! i;
      if asleep_tasks pc || asleep_results pc
      then Some (mkPool (sh p) (<[i := woken pc]> (workers_ p)) (clients p)) else None
  | StartCall o => Some (mkPool (sh p) (workers_ p) (clients p ++ [client_start o]))
  end.

Definition pool_step (p p' : pool) : Prop := ∃ a, perform p a = Some p'.

(** A step of a thread that is running: no call is made, nobody wakes without
    being notified. *)
Definition is_running (a : action) : Prop :=
  match a with Worker _ _ | Client _ _ => True | _ => False end.
Definition running_step (p p' : pool) : Prop := ∃ a, is_running a ∧ perform p a = Some p'.

Fixpoint run_actions (p : pool) (l : list action) : option pool :=
  match l with
  | [] => Some p
  | a :: l => p' ← perform p a; run_actions p' l
  end.

Lemma run_actions_rtc p l p' : run_actions p l = Some p' → rtc pool_step p p'.
Proof.
  revert p. induction l as [|a l IH]; intros p E; simplify_eq/=; [apply rtc_refl|].
  destruct (perform p a) as [p1|] eqn:E1; simplify_eq/=.
  eapply rtc_l; [by exists a|]. by apply IH.
Qed.
End system.

(** ** Invariants *)

Definition holds_tasks (pc : worker_pc) : bool :=
  match pc with WPred | WBlock | WTake => true | _ => false end.
Definition holds_results (pc : worker_pc) : bool :=
  match pc with WRDrop _ _ | WRPred _ _ | WRBlock _ _ | WRPush _ _ => true | _ => false end.
Definition client_holds_tasks (pc : client_pc) : bool :=
  match pc with SubCheck _ | SubPush _ => true | _ => false end.
Definition client_holds_results (pc : client_pc) : bool :=
  match pc with PopBody => true | _ => false end.

(** The task a worker is busy with. *)
Definition in_hand (pc : worker_pc) : list HandlerTask :=
  match pc with
  | WNotify t | WDispatch t => [t]
  | WRLock t _ | WRDrop t _ | WRPred t _ | WRBlock t _ | WRAsleep t _ | WRPush t _ => [t]
  | _ => []
  end.

Definition taken (s : shared) : list HandlerTask := (filter (λ x, x.2 = true) (left_queue s)).*1.

(** The results clients took off the queue, in order. *)
Definition delivered (s : shared) : list HandlerResult :=
  (filter (λ x, x.2 = true) (left_results s)).*1.

(** What a call of [try_pop_result] has moved into its [out]. *)
Definition popped (pc : client_pc) : list HandlerResult :=
  match pc with PopNotify r | PopReturned (Some r) => [r] | _ => [] end.
Definition returned (p : pool) : list HandlerResult := mjoin (popped <$> clients p).

Section invariant.
Context `{RequestDispatcher} `{∀ p d, Decision (dispatches p d)}.
Context (cfg : pool_config).
Hypothesis caps : 1 ≤ task_capacity_ cfg ∧ 1 ≤ result_capacity_ cfg.

(** [r] is a result of dispatching [t]. *)
Definition answers (t : HandlerTask) (r : HandlerResult) : Prop :=
  result_id r = task_id t ∧ ∃ d, dispatches (task_payload t) d ∧ result_outcome r = caught d.

Definition worker_ok (s : shared) (pc : worker_pc) : Prop :=
  match pc with
  | WRPush t r => answers t r ∧ (stop_ s = true ∨ len (results_ s) < result_capacity_ cfg)
  | WRDrop t r =>
      answers t r ∧ result_queue_overflow (options_ cfg) = DropOldestCompletedResult
  | WRPred t r | WRBlock t r | WRAsleep t r =>
      answers t r ∧ result_queue_overflow (options_ cfg) = BlockWorkerUntilPopped
  | WRLock t r => answers t r
  | WAborted => False
  | _ => True
  end.

Record shared_ok (s : shared) : Prop := {
  ok_tasks : len (tasks_ s) ≤ task_capacity_ cfg;
  ok_results : len (results_ s) ≤ result_capacity_ cfg;
  ok_accepted : accepted s = (left_queue s).*1 ++ tasks_ s;
  ok_pushed : (pushed s).*2 = (left_results s).*1 ++ results_ s;
  ok_answers : Forall (λ x, answers x.1 x.2) (pushed s);
  ok_reject : task_queue_overflow (options_ cfg) = RejectNewTask →
    Forall (λ x, x.2 = true) (left_queue s);
  ok_block : result_queue_overflow (options_ cfg) = BlockWorkerUntilPopped →
    Forall (λ x, x.2 = true) (left_results s);
  ok_given_up : stop_ s = false → given_up s = [];
}.

(** What a step of a thread that had [h] in hand and now has [h'] does. *)
Record step_ok (holds holds_r holds' holds_r' : bool) (h h' : list HandlerTask) (s s' : shared) : Prop := {
  so_shared : shared_ok s';
  so_tasks : (Nat.b2n (task_mutex_ s') + Nat.b2n holds = Nat.b2n (task_mutex_ s) + Nat.b2n holds')%nat;
  so_results : (Nat.b2n (result_mutex_ s') + Nat.b2n holds_r
                = Nat.b2n (result_mutex_ s) + Nat.b2n holds_r')%nat;
  so_stop : stop_ s = true → stop_ s' = true;
  so_queue : holds_r = false → results_ s' = results_ s;
  so_task_queue : holds = false → tasks_ s' = tasks_ s;
  so_taken : taken s' ++ h ++ (pushed s).*1 ++ given_up s
             ≡ₚ taken s ++ h' ++ (pushed s').*1 ++ given_up s';
}.

Lemma taken_snoc s q b t :
  left_queue s = q ++ [(t, b)] →
  taken s = (filter (λ x, x.2 = true) q).*1 ++ (if b then [t] else []).
Proof.
  unfold taken. intros ->. rewrite filter_app, fmap_app. f_equal. by destruct b.
Qed.

(** Nothing is touched but the mutexes. *)
Lemma shared_ok_mutex s s' :
  tasks_ s' = tasks_ s → results_ s' = results_ s → stop_ s' = stop_ s →
  accepted s' = accepted s → left_queue s' = left_queue s → pushed s' = pushed s →
  left_results s' = left_results s → given_up s' = given_up s →
  shared_ok s → shared_ok s'.
Proof. intros E1 E2 E3 E4 E5 E6 E7 E8 []. constructor; rewrite ?E1, ?E2, ?E3, ?E4, ?E5, ?E6, ?E7, ?E8; auto. Qed.

Lemma shared_ok_pop_task b s :
  (b = true ∨ task_queue_overflow (options_ cfg) ≠ RejectNewTask) →
  shared_ok s → shared_ok (pop_task b s).
Proof.
  intros Hb Hs. pose proof Hs as []. unfold pop_task. destruct (tasks_ s) as [|t ts] eqn:E; [done|].
  constructor; simpl; auto.
  - len_lia.
  - rewrite ok_accepted0, fmap_app. by rewrite <- app_assoc.
  - intros Hr. apply Forall_app_2; [auto|]. apply Forall_singleton. simpl. tauto.
Qed.

Lemma shared_ok_push_task t s :
  len (tasks_ s) < task_capacity_ cfg → shared_ok s → shared_ok (push_task t s).
Proof.
  intros Hl []. constructor; simpl; auto.
  - len_lia.
  - by rewrite ok_accepted0, <- app_assoc.
Qed.

Lemma shared_ok_pop_result b s :
  (b = true ∨ result_queue_overflow (options_ cfg) ≠ BlockWorkerUntilPopped) →
  shared_ok s → shared_ok (pop_result b s).
Proof.
  intros Hb Hs. pose proof Hs as []. unfold pop_result. destruct (results_ s) as [|r rs] eqn:E; [done|].
  constructor; simpl; auto.
  - len_lia.
  - rewrite ok_pushed0, fmap_app. by rewrite <- app_assoc.
  - intros Hr. apply Forall_app_2; [auto|]. apply Forall_singleton. simpl. tauto.
Qed.

Lemma shared_ok_push_result t r s :
  answers t r → len (results_ s) < result_capacity_ cfg → shared_ok s →
  shared_ok (push_result t r s).
Proof.
  intros Ha Hl []. constructor; simpl; auto.
  - len_lia.
  - by rewrite fmap_app, ok_pushed0, <- app_assoc.
  - apply Forall_app_2; [done|]. by apply Forall_singleton.
Qed.

Lemma shared_ok_abandon t s : stop_ s = true → shared_ok s → shared_ok (abandon t s).
Proof. intros Hs []. constructor; simpl; auto. congruence. Qed.

Lemma shared_ok_set_stop s : shared_ok s → shared_ok (set_stop s).
Proof. intros []. by constructor. Qed.

(** [make_room] only drops results, and makes room. *)
Lemma make_room_spec fuel s :
  result_queue_overflow (options_ cfg) = DropOldestCompletedResult →
  (length (results_ s) ≤ fuel)%nat → shared_ok s →
  let s' := make_room fuel (result_capacity_ cfg) s in
  shared_ok s' ∧ len (results_ s') < result_capacity_ cfg ∧
  stop_ s' = stop_ s ∧ task_mutex_ s' = task_mutex_ s ∧ result_mutex_ s' = result_mutex_ s ∧
  left_queue s' = left_queue s ∧ pushed s' = pushed s ∧ given_up s' = given_up s ∧
  tasks_ s' = tasks_ s.
Proof.
  intros Hp. revert s. induction fuel as [|fuel IH]; intros s Hf Hs; cbn [make_room].
  - split; [done|]. split; [|done]. destruct (results_ s); simpl in *; lia.
  - destruct (Z.leb_spec (result_capacity_ cfg) (len (results_ s))) as [Hl|Hl]; simpl; [|done].
    case_bool_decide as He; simpl; [rewrite He in Hl; simpl in Hl; lia|].
    assert (shared_ok (pop_result false s)) as Hs' by (apply shared_ok_pop_result; [right; congruence|done]).
    unfold pop_result in *. destruct (results_ s) as [|r rs] eqn:E; [done|].
    apply (IH _) in Hs' as (? & ? & ? & ? & ? & ? & ? & ? & ?); [done|simpl in *; lia].
Qed.

(** A step that changes at most who holds which mutex. *)
Lemma step_ok_mutex hd hr hd' hr' (h : list HandlerTask) s s' :
  tasks_ s' = tasks_ s → results_ s' = results_ s → stop_ s' = stop_ s →
  accepted s' = accepted s → left_queue s' = left_queue s → pushed s' = pushed s →
  left_results s' = left_results s → given_up s' = given_up s →
  (Nat.b2n (task_mutex_ s') + Nat.b2n hd = Nat.b2n (task_mutex_ s) + Nat.b2n hd')%nat →
  (Nat.b2n (result_mutex_ s') + Nat.b2n hr = Nat.b2n (result_mutex_ s) + Nat.b2n hr')%nat →
  shared_ok s → step_ok hd hr hd' hr' h h s s'.
Proof.
  intros E1 E2 E3 E4 E5 E6 E7 E8 Ht Hr Hs. constructor; auto.
  - by eapply shared_ok_mutex.
  - congruence.
  - unfold taken. by rewrite E5, E6, E8.
Qed.

(** Pushing a result under the mutex. *)
Lemma step_ok_push t r s :
  answers t r → len (results_ s) < result_capacity_ cfg → result_mutex_ s = true →
  shared_ok s →
  step_ok false true false false [t] [] s (unlock_results (push_result t r s)).
Proof.
  intros Ha Hl Hm Hs. constructor; simpl; auto.
  - eapply shared_ok_mutex; [..|by eapply (shared_ok_push_result t r)]; done.
  - by rewrite Hm.
  - intros ?. done.
  - unfold taken. simpl. rewrite fmap_app. simpl. by solve_Permutation.
Qed.

Lemma step_ok_abandon t s :
  stop_ s = true → result_mutex_ s = true → shared_ok s →
  step_ok false true false false [t] [] s (unlock_results (abandon t s)).
Proof.
  intros Hst Hm Hs. constructor; simpl; auto.
  - eapply shared_ok_mutex; [..|by eapply (shared_ok_abandon t)]; done.
  - by rewrite Hm.
  - unfold taken. simpl. solve_Permutation.
Qed.

Lemma worker_step_ok c s pc s' pc' w :
  shared_ok s → worker_ok s pc →
  (holds_tasks pc = true → task_mutex_ s = true) →
  (holds_results pc = true → result_mutex_ s = true) →
  worker_step cfg c s pc = Some (s', pc', w) →
  worker_ok s' pc' ∧
  step_ok (holds_tasks pc) (holds_results pc) (holds_tasks pc') (holds_results pc')
    (in_hand pc) (in_hand pc') s s'.
Proof.
  intros Hs Hok Ht Hr E. pose proof (ok_tasks _ Hs) as Htasks.
  destruct pc as [| | | | |t|t|t r|t r|t r|t r|t r|t r| | |]; simpl in *; simplify_eq.
  - destruct (task_mutex_ s) eqn:Em; simplify_eq. split; [done|].
    apply step_ok_mutex; simpl; rewrite ?Em; auto.
  - specialize (Ht eq_refl). case_match; simplify_eq; split; try done; by apply step_ok_mutex.
  - specialize (Ht eq_refl). split; [done|]. apply step_ok_mutex; simpl; rewrite ?Ht; auto.
  - specialize (Ht eq_refl). destruct (tasks_ s) as [|t ts] eqn:Eq.
    + injection E as <- <- <-. destruct (stop_ s) eqn:Est; (split; [done|]);
        apply step_ok_mutex; simpl; rewrite ?Ht; auto.
    + assert (shared_ok (pop_task true s)) as Hp by (apply shared_ok_pop_task; auto).
      unfold pop_task in *. rewrite Eq in *. simpl in *. simplify_eq.
      unfold w_checked. rewrite (proj2 (Z.leb_le _ _)) by len_lia. split; [done|].
      constructor; simpl; auto.
      * eapply shared_ok_mutex; [..|exact Hp]; done.
      * by rewrite Ht.
      * done.
      * rewrite (taken_snoc _ (left_queue s) true t) by done. unfold taken. solve_Permutation.
  - split; [done|]. by apply step_ok_mutex.
  - destruct c as [|d|]; try done. case_decide as Hd; simplify_eq. simpl.
    split; [split; [done|by exists d]|]. by apply step_ok_mutex.
  - destruct (result_mutex_ s) eqn:Em; simplify_eq.
    destruct (result_queue_overflow (options_ cfg)) eqn:Ep; (split; [done|]);
      apply step_ok_mutex; simpl; rewrite ?Em; auto.
  - specialize (Hr eq_refl). destruct Hok as [Ha Hp].
    pose proof (make_room_spec (length (results_ s)) s Hp (le_n _) Hs)
      as (Hs1 & Hl & E1 & E2 & E3 & E4 & E5 & E6 & E7). cbn zeta in *.
    set (s1 := make_room _ _ _) in *. rewrite (proj2 (Z.ltb_lt _ _) Hl) in E. simpl in E.
    assert (∀ hd hr' h' s', step_ok hd true false hr' [t] h' s1 s' →
      (true = false → results_ s' = results_ s) → step_ok hd true false hr' [t] h' s s') as Hvia.
    { intros hd hr' h' s2 [] ?. constructor; try done.
      - by rewrite <- E2.
      - by rewrite <- E3.
      - by rewrite <- E1.
      - by rewrite <- E7.
      - unfold taken in *. by rewrite <- E4, <- E5, <- E6. }
    destruct (stop_ s1) eqn:Est; simplify_eq.
    + split; [done|]. apply Hvia; [|done]. apply step_ok_abandon; [done|by rewrite E3|done].
    + simpl in *. unfold w_checked. rewrite (proj2 (Z.leb_le _ _)) by len_lia.
      split; [done|]. apply Hvia; [|done]. apply step_ok_push; [done|done|by rewrite E3|done].
  - specialize (Hr eq_refl). destruct Hok as [Ha Hp].
    destruct (stop_ s || _) eqn:Eb; simplify_eq.
    + apply orb_true_iff in Eb as [Eb|Eb%Z.ltb_lt]; (split; [split; auto|]); by apply step_ok_mutex.
    + split; [done|]. by apply step_ok_mutex.
  - specialize (Hr eq_refl). split; [done|]. apply step_ok_mutex; simpl; rewrite ?Hr; auto.
  - specialize (Hr eq_refl). destruct Hok as [Ha Hl].
    destruct (stop_ s) eqn:Est; simplify_eq.
    + split; [done|]. by apply step_ok_abandon.
    + destruct Hl as [?|Hl]; [done|]. rewrite (proj2 (Z.ltb_lt _ _) Hl) in E. simpl in E. simplify_eq.
      unfold w_checked. rewrite (proj2 (Z.leb_le _ _)) by len_lia.
      split; [done|]. by apply step_ok_push.
  - split; [done|]. by apply step_ok_mutex.
Qed.

Lemma step_ok_push_task t s :
  len (tasks_ s) < task_capacity_ cfg → task_mutex_ s = true → shared_ok s →
  step_ok true false false false [] [] s (unlock_tasks (push_task t s)).
Proof.
  intros Hl Hm Hs. constructor; simpl; auto.
  - eapply shared_ok_mutex; [..|by eapply (shared_ok_push_task t)]; done.
  - by rewrite Hm.
  - done.
Qed.

Lemma client_step_ok joined s pc s' pc' w :
  shared_ok s → pc ≠ CAborted →
  (client_holds_tasks pc = true → task_mutex_ s = true) →
  (client_holds_results pc = true → result_mutex_ s = true) →
  client_step cfg joined s pc = Some (s', pc', w) →
  pc' ≠ CAborted ∧
  step_ok (client_holds_tasks pc) (client_holds_results pc)
    (client_holds_tasks pc') (client_holds_results pc') [] [] s s'.
Proof.
  intros Hs Hok Ht Hr E. pose proof (ok_tasks _ Hs) as Htasks. pose proof (ok_results _ Hs) as Hres.
  destruct pc as [t|t|t| |b| | |r|r| | | | | |]; simpl in *; simplify_eq.
  - destruct (task_mutex_ s) eqn:Em; simplify_eq. split; [done|].
    apply step_ok_mutex; simpl; rewrite ?Em; auto.
  - specialize (Ht eq_refl). destruct (stop_ s); simplify_eq; (split; [done|]);
      apply step_ok_mutex; simpl; rewrite ?Ht; auto.
  - specialize (Ht eq_refl). destruct (Z.leb_spec (task_capacity_ cfg) (len (tasks_ s))) as [Hl|Hl].
    + destruct (task_queue_overflow (options_ cfg)) eqn:Ep; simplify_eq.
      { split; [done|]. apply step_ok_mutex; simpl; rewrite ?Ht; auto. }
      rewrite bool_decide_false in * by (intros E0; rewrite E0 in Hl; simpl in Hl; lia).
      simpl in *. destruct (tasks_ s) as [|t0 ts] eqn:Eq; [simpl in Hl; lia|].
      assert (shared_ok (pop_task false s)) as Hp
        by (apply shared_ok_pop_task; [right; congruence|done]).
      assert (len (tasks_ (pop_task false s)) < task_capacity_ cfg) as Hlt
        by (unfold pop_task; rewrite Eq; simpl; len_lia).
      assert (task_mutex_ (pop_task false s) = true) as Hm by (unfold pop_task; by rewrite Eq).
      pose proof (step_ok_push_task t _ Hlt Hm Hp) as [].
      unfold c_checked. rewrite (proj2 (Z.leb_le _ _)) by len_lia. split; [done|].
      constructor; auto.
      * by rewrite Ht, <- Hm.
      * rewrite so_results0. unfold pop_task. by rewrite Eq.
      * intros ?. unfold pop_task. rewrite Eq. simpl. done.
      * intros ?. rewrite so_queue0 by done. unfold pop_task. by rewrite Eq.
      * done.
      * assert (taken (pop_task false s) = taken s) as Et.
        { unfold pop_task. rewrite Eq. by rewrite (taken_snoc _ (left_queue s) false t0), app_nil_r by done. }
        rewrite Et in so_taken0. unfold pop_task in *. rewrite Eq in *. done.
    + injection E as <- <- <-. unfold c_checked. rewrite (proj2 (Z.leb_le _ _)) by (simpl; len_lia).
      split; [done|]. by apply step_ok_push_task.
  - split; [done|]. by apply step_ok_mutex.
  - destruct (result_mutex_ s) eqn:Em; simplify_eq. split; [done|].
    apply step_ok_mutex; simpl; rewrite ?Em; auto.
  - specialize (Hr eq_refl). destruct (results_ s) as [|r rs] eqn:Eq; simplify_eq.
    { split; [done|]. apply step_ok_mutex; simpl; rewrite ?Hr; auto. }
    assert (shared_ok (pop_result true s)) as Hp by (apply shared_ok_pop_result; auto).
    unfold pop_result in *. rewrite Eq in *. simpl in *.
    unfold c_checked. rewrite (proj2 (Z.ltb_lt _ _)) by len_lia. split; [done|].
    constructor; simpl; auto.
    + eapply shared_ok_mutex; [..|exact Hp]; done.
    + by rewrite Hr.
    + done.
  - split; [done|]. by apply step_ok_mutex.
  - destruct (stop_ s) eqn:Est; simplify_eq; (split; [done|]); [by apply step_ok_mutex|].
    constructor; simpl; auto using shared_ok_set_stop.
  - split; [done|]. by apply step_ok_mutex.
  - split; [done|]. by apply step_ok_mutex.
  - destruct joined; simplify_eq. split; [done|]. by apply step_ok_mutex.
Qed.

(** *** Notifications change only who is blocked *)

Lemma notify_fmap {A} (f : worker_pc → A) w c ws ws' :
  (∀ pc, f (woken pc) = f pc) → notify w c ws = Some ws' → f <$> ws' = f <$> ws.
Proof.
  intros Hf. assert (∀ g, f <$> wake_all g ws = f <$> ws) as Hall.
  { intros g. unfold wake_all. rewrite <- list_fmap_compose. apply list_fmap_ext.
    intros i pc _. simpl. by destruct (g pc). }
  assert (∀ g, wake_one g c ws = Some ws' → f <$> ws' = f <$> ws) as Hone.
  { intros g. unfold wake_one. destruct (existsb g ws); [|by intros [= ->]].
    destruct c as [| |i]; try done. destruct (ws !! i) as [pc|] eqn:Ei; try done.
    destruct (g pc); try done. intros [= <-]. rewrite list_fmap_insert, Hf.
    apply list_insert_id. by rewrite list_lookup_fmap, Ei. }
  destruct w; simpl; intros E; simplify_eq; eauto.
Qed.

Lemma notify_Forall (P : worker_pc → Prop) w c ws ws' :
  (∀ pc, P pc → P (woken pc)) → Forall P ws → notify w c ws = Some ws' → Forall P ws'.
Proof.
  intros HP Hws. assert (∀ g, Forall P (wake_all g ws)) as Hall.
  { intros g. apply Forall_fmap. eapply Forall_impl; [exact Hws|]. intros pc ?. simpl.
    destruct (g pc); auto. }
  assert (∀ g, wake_one g c ws = Some ws' → Forall P ws') as Hone.
  { intros g. unfold wake_one. destruct (existsb g ws); [|by intros [= <-]].
    destruct c as [| |i]; try done. destruct (ws !! i) as [pc|] eqn:Ei; try done.
    destruct (g pc); try done. intros [= <-]. apply Forall_insert; [done|].
    apply HP. by eapply Forall_lookup_1 in Hws. }
  destruct w; simpl; intros E; simplify_eq; eauto.
Qed.

(** *** The invariant of the pool *)

Record pool_inv (p : pool) : Prop := {
  inv_shared : shared_ok (sh p);
  inv_tasks : (countb holds_tasks (workers_ p) + countb client_holds_tasks (clients p)
               = Nat.b2n (task_mutex_ (sh p)))%nat;
  inv_results : (countb holds_results (workers_ p) + countb client_holds_results (clients p)
                 = Nat.b2n (result_mutex_ (sh p)))%nat;
  inv_workers : Forall (worker_ok (sh p)) (workers_ p);
  inv_clients : Forall (λ pc, pc ≠ CAborted) (clients p);
  inv_taken : taken (sh p)
    ≡ₚ mjoin (in_hand <$> workers_ p) ++ (pushed (sh p)).*1 ++ given_up (sh p);
}.

Lemma worker_ok_woken s pc : worker_ok s pc → worker_ok s (woken pc).
Proof. destruct pc; simpl; tauto. Qed.

(** Waking threads keeps the invariant. *)
Lemma pool_inv_workers s ws ws' cs :
  holds_tasks <$> ws' = holds_tasks <$> ws → holds_results <$> ws' = holds_results <$> ws →
  in_hand <$> ws' = in_hand <$> ws → Forall (worker_ok s) ws' →
  pool_inv (mkPool s ws cs) → pool_inv (mkPool s ws' cs).
Proof.
  intros E1 E2 E3 Hw []. simpl in *. constructor; simpl; try done.
  - by rewrite (countb_fmap_eq _ _ _ E1).
  - by rewrite (countb_fmap_eq _ _ _ E2).
  - by rewrite E3.
Qed.

Lemma pool_inv_notify s w c ws ws' cs :
  notify w c ws = Some ws' → pool_inv (mkPool s ws cs) → pool_inv (mkPool s ws' cs).
Proof.
  intros E Hinv. eapply pool_inv_workers; [..|exact Hinv].
  - eapply notify_fmap; [|exact E]. by intros [].
  - eapply notify_fmap; [|exact E]. by intros [].
  - eapply notify_fmap; [|exact E]. by intros [].
  - eapply notify_Forall; [apply worker_ok_woken|apply (inv_workers _ Hinv)|exact E].
Qed.

Lemma worker_ok_stable hd hr hd' hr' h h' s s' pc :
  step_ok hd hr hd' hr' h h' s s' → (holds_results pc = true → hr = false) →
  worker_ok s pc → worker_ok s' pc.
Proof.
  intros [] Hx. destruct pc; simpl in *; try done.
  intros [? Hl]. split; [done|]. rewrite so_queue0 by auto. destruct Hl as [?|?]; auto.
Qed.

Lemma b2n_le_1 b : (Nat.b2n b ≤ 1)%nat.
Proof. destruct b; simpl; lia. Qed.

Lemma b2n_pos b n m : (n + m = Nat.b2n b)%nat → (1 ≤ n)%nat → b = true.
Proof. destruct b; simpl; [done|lia]. Qed.

(** A step of a worker of the pool is one [worker_step_ok] speaks of. *)
Lemma pool_worker_step p i pc s' pc' c w :
  pool_inv p → workers_ p !! i = Some pc →
  worker_step cfg c (sh p) pc = Some (s', pc', w) →
  worker_ok s' pc' ∧
  step_ok (holds_tasks pc) (holds_results pc) (holds_tasks pc') (holds_results pc')
    (in_hand pc) (in_hand pc') (sh p) s'.
Proof.
  intros [] Hi E.
  pose proof (countb_lookup holds_tasks _ _ _ Hi) as Ct.
  pose proof (countb_lookup holds_results _ _ _ Hi) as Cr.
  eapply worker_step_ok; [done|by eapply Forall_lookup_1 in inv_workers0|..|exact E].
  - intros Hh. rewrite Hh in Ct. by eapply b2n_pos.
  - intros Hh. rewrite Hh in Cr. by eapply b2n_pos.
Qed.

Lemma pool_client_step p j pc s' pc' joined w :
  pool_inv p → clients p !! j = Some pc →
  client_step cfg joined (sh p) pc = Some (s', pc', w) →
  pc' ≠ CAborted ∧
  step_ok (client_holds_tasks pc) (client_holds_results pc)
    (client_holds_tasks pc') (client_holds_results pc') [] [] (sh p) s'.
Proof.
  intros [] Hj E.
  pose proof (countb_lookup client_holds_tasks _ _ _ Hj) as Ct.
  pose proof (countb_lookup client_holds_results _ _ _ Hj) as Cr.
  eapply client_step_ok; [done|by eapply Forall_lookup_1 in inv_clients0|..|exact E].
  - intros Hh. rewrite Hh in Ct. rewrite Nat.add_comm in inv_tasks0. by eapply b2n_pos.
  - intros Hh. rewrite Hh in Cr. rewrite Nat.add_comm in inv_results0. by eapply b2n_pos.
Qed.

Lemma pool_inv_worker p i pc s' pc' c w :
  pool_inv p → workers_ p !! i = Some pc →
  worker_step cfg c (sh p) pc = Some (s', pc', w) →
  pool_inv (mkPool s' (<[i := pc']> (workers_ p)) (clients p)).
Proof.
  intros Hinv Hi E. destruct (pool_worker_step p i pc s' pc' c w Hinv Hi E) as [Hok' Hs].
  destruct Hinv. pose proof Hs as [].
  pose proof (countb_insert holds_tasks _ _ _ pc' Hi) as It.
  pose proof (countb_insert holds_results _ _ _ pc' Hi) as Ir.
  constructor; simpl; try done; try lia.
  - apply Forall_lookup. intros j x [(<- & <- & _)|[Hij Hj]]%list_lookup_insert_Some; [done|].
    eapply worker_ok_stable; [exact Hs| |by eapply Forall_lookup_1 in inv_workers0].
    intros Hx. apply not_true_is_false. intros Hpc.
    pose proof (countb_two holds_results _ _ _ _ _ Hi Hj Hij Hpc Hx).
    pose proof (b2n_le_1 (result_mutex_ (sh p))). lia.
  - pose proof (mjoin_insert in_hand _ _ _ pc' Hi) as Hm.
    apply (Permutation_app_inv_r (in_hand pc ++ (pushed (sh p)).*1 ++ given_up (sh p))).
    rewrite so_taken0, inv_taken0.
    transitivity ((mjoin (in_hand <$> workers_ p) ++ in_hand pc') ++ (pushed (sh p)).*1
      ++ given_up (sh p) ++ (pushed s').*1 ++ given_up s'); [solve_Permutation|].
    rewrite <- Hm. solve_Permutation.
Qed.

Lemma pool_inv_client p j pc s' pc' joined w :
  pool_inv p → clients p !! j = Some pc →
  client_step cfg joined (sh p) pc = Some (s', pc', w) →
  pool_inv (mkPool s' (workers_ p) (<[j := pc']> (clients p))).
Proof.
  intros Hinv Hj E. destruct (pool_client_step p j pc s' pc' joined w Hinv Hj E) as [Hok' Hs].
  destruct Hinv. pose proof Hs as [].
  pose proof (countb_lookup client_holds_results _ _ _ Hj) as Cr.
  pose proof (countb_insert client_holds_tasks _ _ _ pc' Hj) as It.
  pose proof (countb_insert client_holds_results _ _ _ pc' Hj) as Ir.
  constructor; simpl; try done; try lia.
  - eapply Forall_lookup. intros i x Hi.
    eapply worker_ok_stable; [exact Hs| |by eapply Forall_lookup_1 in inv_workers0].
    intros Hx. apply not_true_is_false. intros Hpc.
    pose proof (countb_lookup holds_results _ _ _ Hi) as Hc. rewrite Hx in Hc. rewrite Hpc in Cr.
    pose proof (b2n_le_1 (result_mutex_ (sh p))). simpl in *. lia.
  - by apply Forall_insert.
  - apply (Permutation_app_inv_r ((pushed (sh p)).*1 ++ given_up (sh p))).
    simpl in so_taken0. rewrite so_taken0, inv_taken0. solve_Permutation.
Qed.

Lemma pool_inv_step p p' : pool_inv p → pool_step cfg p p' → pool_inv p'.
Proof.
  intros Hinv [a E]. destruct a as [i c|j c|i|o]; simpl in E.
  - destruct (workers_ p !! i) as [pc|] eqn:Hi; simplify_eq/=.
    destruct (worker_step cfg c (sh p) pc) as [[[s' pc'] w]|] eqn:Es; simplify_eq/=.
    destruct (notify _ _ _) as [ws|] eqn:En; simplify_eq/=.
    eapply pool_inv_notify; [exact En|]. by eapply pool_inv_worker.
  - destruct (clients p !! j) as [pc|] eqn:Hj; simplify_eq/=.
    destruct (client_step cfg _ (sh p) pc) as [[[s' pc'] w]|] eqn:Es; simplify_eq/=.
    destruct (notify _ _ _) as [ws|] eqn:En; simplify_eq/=.
    eapply pool_inv_notify; [exact En|]. by eapply pool_inv_client.
  - destruct (workers_ p !! i) as [pc|] eqn:Hi; simplify_eq/=. destruct (_ || _); simplify_eq.
    destruct p as [s ws cs]. simpl in *.
    assert (∀ {A} (f : worker_pc → A), (∀ q, f (woken q) = f q) →
      f <$> <[i := woken pc]> ws = f <$> ws) as Hf.
    { intros A f Hf. rewrite list_fmap_insert, Hf. apply list_insert_id.
      by rewrite list_lookup_fmap, Hi. }
    eapply pool_inv_workers; [apply Hf; by intros []..| |exact Hinv].
    apply Forall_insert; [apply (inv_workers _ Hinv)|]. apply worker_ok_woken.
    pose proof (inv_workers _ Hinv) as Hw. by eapply Forall_lookup_1 in Hw.
  - simplify_eq. destruct Hinv. constructor; simpl; try done.
    + rewrite countb_app. destruct o; unfold countb at 3; simpl; lia.
    + rewrite countb_app. destruct o; unfold countb at 3; simpl; lia.
    + apply Forall_app_2; [done|]. apply Forall_singleton. by destruct o.
Qed.
End invariant.

(** *** What the clients get *)

Section results.
Context `{RequestDispatcher} `{∀ p d, Decision (dispatches p d)}.
Context (cfg : pool_config).

Lemma make_room_delivered n cap s : delivered (make_room n cap s) = delivered s.
Proof.
  revert s. induction n as [|n IH]; intros s; [done|]. cbn [make_room]. case_match; [|done].
  rewrite IH. unfold pop_result, delivered. destruct (results_ s); [done|]. simpl.
  by rewrite filter_app, fmap_app, app_nil_r.
Qed.

Lemma worker_step_delivered c s pc s' pc' w :
  worker_step cfg c s pc = Some (s', pc', w) → delivered s' = delivered s.
Proof.
  destruct pc; simpl; intros E; unfold w_checked in *; simplify_eq; try done;
    repeat (case_match; simplify_eq/=; try done);
    try (unfold pop_task, delivered; simpl; repeat case_match; done).
  all: exact (make_room_delivered (length (results_ s)) (result_capacity_ cfg) s).
Qed.

Lemma client_step_delivered joined s pc s' pc' w :
  client_step cfg joined s pc = Some (s', pc', w) → pc' ≠ CAborted →
  delivered s' ++ popped pc ≡ₚ delivered s ++ popped pc'.
Proof.
  assert (∀ t s, delivered (push_task t s) = delivered s) as Hpush by done.
  assert (∀ s, delivered (pop_task false s) = delivered s) as Hpop
    by (intros s0; unfold pop_task; by destruct (tasks_ s0)).
  destruct pc; simpl; intros E Hab; unfold c_checked in *; simplify_eq/=; try done;
    repeat (case_match; simplify_eq/=; try done);
    try (change (delivered (unlock_tasks ?x)) with (delivered x); by rewrite Hpush, ?Hpop).
  unfold pop_result, delivered. destruct (results_ s) as [|r' rs]; simplify_eq/=.
  by rewrite filter_app, fmap_app, app_nil_r.
Qed.

(** Every result off the queue is in the hands of a call that took it. *)
Lemma returned_step p p' :
  pool_inv cfg p' → pool_step cfg p p' →
  returned p ≡ₚ delivered (sh p) → returned p' ≡ₚ delivered (sh p').
Proof.
  intros Hinv [a E] Hr. destruct a as [i c|j c|i|o]; simpl in E.
  - destruct (workers_ p !! i) as [pc|]; simplify_eq/=.
    destruct (worker_step cfg c (sh p) pc) as [[[s' pc'] w]|] eqn:Es; simplify_eq/=.
    destruct (notify _ _ _) as [ws|]; simplify_eq/=.
    by rewrite (worker_step_delivered _ _ _ _ _ _ Es).
  - destruct (clients p !! j) as [pc|] eqn:Hj; simplify_eq/=.
    destruct (client_step cfg _ (sh p) pc) as [[[s' pc'] w]|] eqn:Es; simplify_eq/=.
    destruct (notify _ _ _) as [ws|]; simplify_eq/=.
    apply client_step_delivered in Es.
    + pose proof (mjoin_insert popped _ _ _ pc' Hj) as Hm. unfold returned in *. simpl.
      apply (Permutation_app_inv_r (popped pc)). by rewrite Hm, Es, Hr.
    + intros ->. pose proof (inv_clients _ _ Hinv) as Hc. simpl in Hc.
      eapply (Forall_lookup_1 _ _ j) in Hc; [by apply Hc|].
      apply list_lookup_insert_eq. by eapply lookup_lt_Some.
  - destruct (workers_ p !! i) as [pc|]; simplify_eq/=. destruct (_ || _); by simplify_eq.
  - simplify_eq. unfold returned in *. simpl. rewrite fmap_app, join_app, Hr.
    by destruct o; rewrite app_nil_r.
Qed.
End results.

(** ** Properties *)

Section properties.
Context `{RequestDispatcher} `{∀ p d, Decision (dispatches p d)}.
Context (num_workers queue_capacity : Z) (options : WorkerPoolOptions) (cfg : pool_config).

(** The arguments of the constructor are [size_t]s. *)
Definition sizes : Prop :=
  0 ≤ num_workers ∧ 0 ≤ queue_capacity ∧ 0 ≤ result_queue_capacity_override options.

(** The pools that can come out of a constructor call and any calls after it. *)
Definition constructed (p : pool) : Prop :=
  worker_pool num_workers queue_capacity options = Ret (cfg, p).
Definition pool_reachable (p : pool) : Prop :=
  sizes ∧ reachable constructed (pool_step cfg) p.

Lemma constructed_caps p :
  sizes → constructed p → 1 ≤ task_capacity_ cfg ∧ 1 ≤ result_capacity_ cfg.
Proof.
  unfold sizes, constructed, worker_pool. intros (? & ? & ?) E.
  destruct (Z.eqb_spec num_workers 0); [done|].
  destruct (Z.eqb_spec queue_capacity 0); [done|].
  destruct (Z.eqb_spec (result_queue_capacity_override options) 0); simpl in E;
    case_match eqn:Eq; simplify_eq; simpl; lia.
Qed.

Lemma constructed_inv p : sizes → constructed p → pool_inv cfg p.
Proof.
  intros Hs E. pose proof (constructed_caps p Hs E) as Hc. revert E Hc.
  unfold constructed, worker_pool.
  destruct (num_workers =? 0); [done|]. destruct (queue_capacity =? 0); [done|].
  case_match; [done|]. intros [= <- <-]. simpl. intros [??].
  assert (∀ f n, f WLock = false → countb f (replicate n WLock) = 0%nat) as Hc.
  { intros f n Hf. induction n as [|n IH]; [done|]. simpl. by rewrite countb_cons, Hf, IH. }
  constructor; simpl; rewrite ?Hc; try done.
  - by constructor; simpl; try lia; try constructor.
  - by apply Forall_replicate.
  - generalize (Z.to_nat num_workers) as n. intros n. induction n as [|n IH]; [done|]. simpl. exact IH.
Qed.

Lemma pool_reachable_inv p :
  pool_reachable p → (1 ≤ task_capacity_ cfg ∧ 1 ≤ result_capacity_ cfg) ∧ pool_inv cfg p.
Proof.
  intros [Hs Hr]. pose proof Hr as (p0 & Hp0 & _).
  pose proof (constructed_caps p0 Hs Hp0) as Hc. split; [done|].
  apply (reachable_invariant constructed (pool_step cfg) (pool_inv cfg)); [|..|done].
  - intros. by apply constructed_inv.
  - intros. by eapply pool_inv_step.
Qed.

Lemma pool_reachable_returned p : pool_reachable p → returned p ≡ₚ delivered (sh p).
Proof.
  intros Hr. pose proof (pool_reachable_inv p Hr) as [Hcaps _]. destruct Hr as [Hs Hr].
  apply (reachable_invariant constructed (pool_step cfg)
    (λ p, pool_inv cfg p ∧ returned p ≡ₚ delivered (sh p))); [..|exact Hr].
  - intros q Hq. split; [by apply constructed_inv|]. revert Hq. unfold constructed, worker_pool.
    destruct (num_workers =? 0); [done|]. destruct (queue_capacity =? 0); [done|].
    case_match; [done|]. by intros [= <- <-].
  - intros q q' [Hi Hq] Hstep. assert (pool_inv cfg q') by (by eapply pool_inv_step).
    split; [done|by eapply returned_step].
Qed.

(** C9. Under every interleaving of workers, clients and [shutdown], and under
    either policy, both queues stay within their capacities, no [assert] of
    the pool fails, and at most one thread is in a critical section of each
    mutex. *)
Theorem pool_safe p :
  pool_reachable p →
  len (tasks_ (sh p)) ≤ task_capacity_ cfg ∧ len (results_ (sh p)) ≤ result_capacity_ cfg ∧
  (WAborted ∉ workers_ p) ∧ (CAborted ∉ clients p) ∧
  (countb holds_tasks (workers_ p) + countb client_holds_tasks (clients p) ≤ 1)%nat ∧
  (countb holds_results (workers_ p) + countb client_holds_results (clients p) ≤ 1)%nat.
Proof.
  intros [_ [Hs Ht Hr Hw Hc _]]%pool_reachable_inv.
  split; [apply Hs|]. split; [apply Hs|]. split; [|split; [|split]].
  - intros Hin. rewrite Forall_forall in Hw. by specialize (Hw _ Hin).
  - intros Hin. rewrite Forall_forall in Hc. by specialize (Hc _ Hin).
  - rewrite Ht. apply b2n_le_1.
  - rewrite Hr. apply b2n_le_1.
Qed.


Lemma pushed_ids s :
  Forall (λ x, answers x.1 x.2) (pushed s) →
  result_id <$> (pushed s).*2 = task_id <$> (pushed s).*1.
Proof.
  induction 1 as [|[t r] l Ha _ IH]; [done|]. simpl. f_equal; [apply Ha|exact IH].
Qed.

Lemma taken_accepted s :
  shared_ok cfg s → taken s `sublist_of` accepted s.
Proof.
  intros [_ _ -> _ _ _ _ _]. unfold taken. apply sublist_inserts_r.
  apply sublist_fmap, sublist_filter.
Qed.

Lemma delivered_pushed s : shared_ok cfg s → delivered s `sublist_of` (pushed s).*2.
Proof. intros []. rewrite ok_pushed0. apply sublist_inserts_r, sublist_fmap, sublist_filter. Qed.

(** C12. Seen from the clients: when the tasks accepted have distinct
    correlation ids, no two calls of [try_pop_result] return results with the
    same id, and each result returned is the answer to a task that was
    accepted. *)
Theorem delivered_once p :
  pool_reachable p → NoDup (task_id <$> accepted (sh p)) →
  NoDup (result_id <$> returned p) ∧
  ∀ r, r ∈ returned p → ∃ t, t ∈ accepted (sh p) ∧ answers t r.
Proof.
  intros Hr Hd. pose proof (pool_reachable_returned p Hr) as Hret.
  apply pool_reachable_inv in Hr as [_ [Hs _ _ _ _ Htaken]].
  pose proof (delivered_pushed _ Hs) as Hsub. pose proof (ok_answers _ _ Hs) as Hans. split.
  - rewrite Hret. eapply sublist_NoDup; [|apply sublist_fmap, Hsub]. rewrite pushed_ids by done.
    assert (NoDup (task_id <$> taken (sh p))) as Ht
      by (eapply sublist_NoDup; [done|apply sublist_fmap, taken_accepted, Hs]).
    rewrite Htaken, !fmap_app in Ht. by apply NoDup_app in Ht as (_ & _ & [? _]%NoDup_app).
  - intros r. rewrite Hret. intros Hin. eapply elem_of_sublist in Hin; [|exact Hsub].
    apply list_elem_of_fmap in Hin as ([t r'] & -> & Hin). exists t. simpl.
    rewrite Forall_forall in Hans. split; [|by apply (Hans (t, r'))].
    eapply elem_of_sublist; [|by apply taken_accepted]. rewrite Htaken, !elem_of_app.
    right. left. apply list_elem_of_fmap. by exists (t, r').
Qed.
End properties.
