(* ===== verification/PoolWakeups.v ===== *)
(** * Blocking and waking in the worker pool

    Which notifications can be missed.  A task submitted or a result popped is
    always noticed: as long as there is one, no worker sleeps unless some thread
    is on its way to notify it or to look itself.  The notifications of
    [shutdown] are different: it sets [stop_] without the mutex, so a worker
    that has just found the predicate false can block after they were sent.
    When no worker is in that position, [shutdown] completes: its notifications
    reach every worker that is asleep, and the others see the flag. *)

From S2P Require Import Prelude Dispatcher WorkerPool.

(** A worker that will look at the task queue, or wake all who do. *)
Definition attentive (pc : worker_pc) : bool :=
  match pc with WLock | WPred | WTake | WNotify _ => true | _ => false end.

Definition attention (ws : list worker_pc) : Prop :=
  ∃ j pc, ws !! j = Some pc ∧ attentive pc = true.

(** ** What a notification does to each worker *)

Lemma notify_back w c ws ws' j pc' :
  notify w c ws = Some ws' → ws' !! j = Some pc' →
  ∃ pc, ws !! j = Some pc ∧ (pc' = pc ∨ (pc' = woken pc ∧ asleep_tasks pc || asleep_results pc = true)).
Proof.
  assert (∀ g, (∀ pc, g pc = true → asleep_tasks pc || asleep_results pc = true) →
    wake_all g ws !! j = Some pc' →
    ∃ pc, ws !! j = Some pc ∧ (pc' = pc ∨ (pc' = woken pc ∧ asleep_tasks pc || asleep_results pc = true)))
    as Hall.
  { intros g Hg. unfold wake_all. rewrite list_lookup_fmap.
    destruct (ws !! j) as [pc|]; [|done]. intros [= <-]. exists pc. split; [done|].
    destruct (g pc) eqn:E; auto. }
  assert (∀ g, (∀ pc, g pc = true → asleep_tasks pc || asleep_results pc = true) →
    wake_one g c ws = Some ws' → ws' !! j = Some pc' →
    ∃ pc, ws !! j = Some pc ∧ (pc' = pc ∨ (pc' = woken pc ∧ asleep_tasks pc || asleep_results pc = true)))
    as Hone.
  { intros g Hg. unfold wake_one. destruct (existsb g ws); [|intros [= <-]; eauto].
    destruct c as [| |i]; try done. destruct (ws !! i) as [pc|] eqn:Ei; try done.
    destruct (g pc) eqn:Eg; try done. intros [= <-].
    intros [(<- & <- & _)|[_ ?]]%list_lookup_insert_Some; [|by eauto].
    exists pc. split; [done|]. right. auto. }
  destruct w; simpl; intros E Hj.
  - simplify_eq. eauto.
  - simplify_eq. eapply Hall; [|exact Hj]. by intros [].
  - eapply Hone; [|exact E|exact Hj]. by intros [].
  - simplify_eq. eapply Hall; [|exact Hj]. by intros [].
  - eapply Hone; [|exact E|exact Hj]. by intros [].
Qed.

Lemma notify_forth w c ws ws' j pc :
  notify w c ws = Some ws' → ws !! j = Some pc → asleep_tasks pc || asleep_results pc = false →
  ws' !! j = Some pc.
Proof.
  intros E Hj Hpc. apply orb_false_iff in Hpc as [Ht Hr].
  assert (∀ g, g pc = false → wake_all g ws !! j = Some pc) as Hall.
  { intros g Hg. unfold wake_all. by rewrite list_lookup_fmap, Hj; simpl; rewrite Hg. }
  assert (∀ g, g pc = false → wake_one g c ws = Some ws' → ws' !! j = Some pc) as Hone.
  { intros g Hg. unfold wake_one. destruct (existsb g ws); [|by intros [= <-]].
    destruct c as [| |i]; try done. destruct (ws !! i) as [q|] eqn:Ei; try done.
    destruct (g q) eqn:Eg; try done. intros [= <-].
    rewrite list_lookup_insert_ne; [done|]. intros ->. congruence. }
  destruct w; simpl in E; simplify_eq; eauto.
Qed.

(** After [notify_all] nobody is blocked there. *)
Lemma wake_all_awake g ws j pc :
  (∀ q, g (woken q) = false) → wake_all g ws !! j = Some pc → g pc = false.
Proof.
  intros Hg. unfold wake_all. rewrite list_lookup_fmap.
  destruct (ws !! j) as [q|]; [|done]. intros [= <-]. by destruct (g q) eqn:E.
Qed.

(** After [notify_one] a thread has been woken, or nobody was blocked. *)
Lemma wake_one_woken g c ws ws' :
  wake_one g c ws = Some ws' →
  (∃ j pc, ws !! j = Some pc ∧ g pc = true ∧ ws' !! j = Some (woken pc)) ∨
  (ws' = ws ∧ ∀ j pc, ws !! j = Some pc → g pc = false).
Proof.
  unfold wake_one. destruct (existsb g ws) eqn:Ex.
  - destruct c as [| |i]; try done. destruct (ws !! i) as [pc|] eqn:Ei; try done.
    destruct (g pc) eqn:Eg; try done. intros [= <-]. left. exists i, pc.
    split; [done|]. split; [done|]. apply list_lookup_insert_eq. by eapply lookup_lt_Some.
  - intros [= <-]. right. split; [done|]. intros j pc Hj.
    apply not_true_is_false. intros Hg. apply not_true_iff_false in Ex. apply Ex.
    apply existsb_exists. exists pc. split; [|done].
    by apply list_elem_of_In, (list_elem_of_lookup_2 _ j).
Qed.

Section wakeups.
Context `{RequestDispatcher} `{∀ p d, Decision (dispatches p d)}.
Context (cfg : pool_config).
Hypothesis caps : 1 ≤ task_capacity_ cfg ∧ 1 ≤ result_capacity_ cfg.

(** [w] is the notification about to be sent. *)
Record wake_ok (w : wake) (p : pool) : Prop := {
  wk_block j : workers_ p !! j = Some WBlock → tasks_ (sh p) = [];
  wk_tasks j : workers_ p !! j = Some WAsleep → tasks_ (sh p) ≠ [] →
    attention (workers_ p) ∨ SubNotify ∈ clients p ∨ w = AllTasks ∨ w = OneTask;
  wk_rblock j t r : workers_ p !! j = Some (WRBlock t r) → result_capacity_ cfg ≤ len (results_ (sh p));
  wk_results j t r : workers_ p !! j = Some (WRAsleep t r) →
    len (results_ (sh p)) < result_capacity_ cfg →
    (∃ q, PopNotify q ∈ clients p) ∨ w = AllResults;
}.

Lemma attention_notify w c ws ws' : notify w c ws = Some ws' → attention ws → attention ws'.
Proof.
  intros E (j & pc & Hj & Ha). exists j, pc. split; [|done].
  eapply notify_forth; [done..|]. by destruct pc.
Qed.

Lemma wake_ok_notify s w c ws ws' cs :
  notify w c ws = Some ws' → wake_ok w (mkPool s ws cs) → wake_ok NoWake (mkPool s ws' cs).
Proof.
  intros E [H1 H2 H3 H4]. simpl in *.
  assert (∀ j, ws' !! j = Some WAsleep → ws !! j = Some WAsleep) as Bt.
  { intros j Hj. edestruct notify_back as (pc & Hpc & [<-|[Eq _]]); [exact E|exact Hj|done|].
    by destruct pc. }
  assert (∀ j t r, ws' !! j = Some (WRAsleep t r) → ws !! j = Some (WRAsleep t r)) as Br.
  { intros j t r Hj. edestruct notify_back as (pc & Hpc & [<-|[Eq _]]); [exact E|exact Hj|done|].
    by destruct pc; simplify_eq/=. }
  constructor; simpl.
  - intros j Hj. edestruct notify_back as (pc & Hpc & [<-|[Eq Ha]]); [exact E|exact Hj|by eapply H1|].
    by destruct pc.
  - intros j Hj Hne. destruct (H2 j (Bt j Hj) Hne) as [Ha|[Hc|[->| ->]]]; auto.
    + left. by eapply attention_notify.
    + simpl in E. simplify_eq. apply wake_all_awake in Hj; [done|]. by intros [].
    + left. simpl in E. apply wake_one_woken in E as [(i & pc & _ & Hg & Hi)|[-> Hno]].
      * exists i, (woken pc). split; [done|]. by destruct pc.
      * by apply Hno in Hj.
  - intros j t r Hj. edestruct notify_back as (pc & Hpc & [<-|[Eq Ha]]); [exact E|exact Hj|by eapply H3|].
    by destruct pc.
  - intros j t r Hj Hl. destruct (H4 j t r (Br j t r Hj) Hl) as [?| ->]; [by left|].
    simpl in E. simplify_eq. apply wake_all_awake in Hj; [done|]. by intros [].
Qed.

(** Two threads are not in the critical sections at the same time. *)
Lemma exclusive_workers (f : worker_pc → bool) ws n b i j pc pcj :
  (countb f ws + n = Nat.b2n b)%nat → ws !! i = Some pc → ws !! j = Some pcj → i ≠ j →
  f pcj = true → f pc = false.
Proof.
  intros Hc Hi Hj Hij Hf. apply not_true_is_false. intros Hpc.
  pose proof (countb_two f _ _ _ _ _ Hi Hj Hij Hpc Hf). destruct b; simpl in *; lia.
Qed.

Lemma exclusive_client (f : worker_pc → bool) (g : client_pc → bool) ws cs b i j pc pcj :
  (countb f ws + countb g cs = Nat.b2n b)%nat → cs !! i = Some pc → ws !! j = Some pcj →
  f pcj = true → g pc = false.
Proof.
  intros Hc Hi Hj Hf. apply not_true_is_false. intros Hpc.
  pose proof (countb_lookup f _ _ _ Hj) as C1. pose proof (countb_lookup g _ _ _ Hi) as C2.
  rewrite Hf in C1. rewrite Hpc in C2. destruct b; simpl in *; lia.
Qed.

(** A worker that is not looking at the queue leaves it alone. *)
Lemma worker_step_inattentive c s pc s' pc' w :
  worker_step cfg c s pc = Some (s', pc', w) → attentive pc = false → tasks_ s' = tasks_ s.
Proof.
  assert (∀ n cap s, tasks_ (make_room n cap s) = tasks_ s) as Hm.
  { induction n as [|n IH]; intros cap s0; [done|]. simpl. case_match; [|done].
    rewrite IH. unfold pop_result. by destruct (results_ s0). }
  destruct pc; simpl; intros E Ha; simplify_eq; try done;
    repeat (case_match; simplify_eq/=); rewrite ?Hm; done.
Qed.

(** Workers only add results, unless they may drop them. *)
Lemma worker_step_results c s pc s' pc' w :
  worker_step cfg c s pc = Some (s', pc', w) →
  (∀ t r, pc ≠ WRDrop t r) → len (results_ s) ≤ len (results_ s').
Proof.
  destruct pc; simpl; intros E Hd; simplify_eq; try done;
    repeat (case_match; simplify_eq/=); try lia; try (by destruct (Hd _ _ eq_refl));
    unfold pop_task in *; simpl in *; repeat case_match; simpl; len_lia.
Qed.

(** Attention of others is not lost by a step of worker [i]. *)
Lemma attention_insert ws i pc pc' :
  ws !! i = Some pc → attentive pc = false → attention ws → attention (<[i := pc']> ws).
Proof.
  intros Hi Hpc (j & q & Hj & Ha). exists j, q. split; [|done].
  rewrite list_lookup_insert_ne; [done|]. intros ->. congruence.
Qed.

Lemma attention_self ws i pc pc' :
  ws !! i = Some pc → attentive pc' = true → attention (<[i := pc']> ws).
Proof.
  intros Hi Ha. exists i, pc'. split; [|done]. apply list_lookup_insert_eq. by eapply lookup_lt_Some.
Qed.

(** How a worker gets to block. *)
Ltac step_cases :=
  unfold w_checked in *; simplify_eq/=; try done; repeat (case_match; simplify_eq/=; try done).

Lemma nothing_queued s :
  stop_ s || negb (bool_decide (tasks_ s = [])) = false → tasks_ s = [].
Proof. by intros [_ Hb%negb_false_iff%bool_decide_eq_true]%orb_false_iff. Qed.

Lemma step_to_block c s pc s' w :
  worker_step cfg c s pc = Some (s', WBlock, w) → tasks_ s' = [].
Proof. destruct pc; simpl; intros E; step_cases. by apply nothing_queued. Qed.

Lemma step_to_asleep c s pc s' w :
  worker_step cfg c s pc = Some (s', WAsleep, w) → pc = WBlock ∧ tasks_ s' = tasks_ s.
Proof. destruct pc; simpl; intros E; step_cases. Qed.

Lemma step_to_rblock c s pc s' t r w :
  worker_step cfg c s pc = Some (s', WRBlock t r, w) → result_capacity_ cfg ≤ len (results_ s').
Proof.
  destruct pc; simpl; intros E; step_cases.
  match goal with Hb : _ || _ = false |- _ => by apply orb_false_iff in Hb as [_ Hb%Z.ltb_ge] end.
Qed.

Lemma step_to_rasleep c s pc s' t r w :
  worker_step cfg c s pc = Some (s', WRAsleep t r, w) → pc = WRBlock t r ∧ results_ s' = results_ s.
Proof. destruct pc; simpl; intros E; step_cases. Qed.

(** Attention ends only when the queue is empty or all sleepers are woken. *)
Lemma step_attentive c s pc s' pc' w :
  worker_step cfg c s pc = Some (s', pc', w) → pc' ≠ WAborted → attentive pc = true →
  tasks_ s' ≠ [] → attentive pc' = true ∨ w = AllTasks.
Proof.
  destruct pc; simpl; intros E Hab Ha Hne; step_cases; auto.
  by destruct Hne; apply nothing_queued.
Qed.

Lemma wake_ok_worker p i pc s' pc' c w :
  pool_inv cfg p → wake_ok NoWake p → workers_ p !! i = Some pc →
  worker_step cfg c (sh p) pc = Some (s', pc', w) →
  wake_ok w (mkPool s' (<[i := pc']> (workers_ p)) (clients p)).
Proof.
  intros Hinv [H1 H2 H3 H4] Hi E.
  pose proof (pool_inv_worker cfg caps p i pc s' pc' c w Hinv Hi E) as Hinv'.
  assert (worker_ok cfg (sh p) pc) as Hok.
  { pose proof (inv_workers _ _ Hinv) as Hw. by eapply Forall_lookup_1 in Hw. }
  destruct (pool_worker_step cfg caps p i pc s' pc' c w Hinv Hi E) as [Hok' Hs].
  constructor; simpl.
  - intros j [(-> & -> & _)|[Hij Hj]]%list_lookup_insert_Some; [by eapply step_to_block|].
    rewrite (so_task_queue _ _ _ _ _ _ _ _ _ Hs); [by eapply H1|].
    by eapply (exclusive_workers holds_tasks); [apply (inv_tasks _ _ Hinv)|..].
  - intros j [(-> & -> & _)|[Hij Hj]]%list_lookup_insert_Some Hne.
    { apply step_to_asleep in E as [-> Et]. rewrite Et in Hne. by apply H1 in Hi. }
    destruct (attentive pc) eqn:Ha.
    + destruct (step_attentive _ _ _ _ _ _ E) as [?| ->]; [|done|done| |by auto].
      * intros ->. done.
      * left. by eapply attention_self.
    + rewrite (worker_step_inattentive _ _ _ _ _ _ E Ha) in Hne.
      destruct (H2 j Hj Hne) as [Hat|[?|[?|?]]]; [|by auto|done..].
      left. by eapply attention_insert.
  - intros j t r [(-> & -> & _)|[Hij Hj]]%list_lookup_insert_Some; [by eapply step_to_rblock|].
    rewrite (so_queue _ _ _ _ _ _ _ _ _ Hs); [by eapply H3|].
    by eapply (exclusive_workers holds_results); [apply (inv_results _ _ Hinv)|..].
  - intros j t r [(-> & -> & _)|[Hij Hj]]%list_lookup_insert_Some Hl.
    { apply step_to_rasleep in E as [-> Er]. rewrite Er in Hl. apply H3 in Hi. lia. }
    left. destruct (H4 j t r Hj) as [?|?]; [|done|done].
    eapply Z.le_lt_trans; [|exact Hl]. eapply worker_step_results; [exact E|].
    intros t' r' ->. pose proof (inv_workers _ _ Hinv) as Hw.
    eapply Forall_lookup_1 in Hw; [|exact Hj]. destruct Hok as [_ ?], Hw as [_ ?]. congruence.
Qed.

Lemma wake_ok_client p i pc s' pc' joined w :
  pool_inv cfg p → wake_ok NoWake p → clients p !! i = Some pc →
  client_step cfg joined (sh p) pc = Some (s', pc', w) →
  wake_ok w (mkPool s' (workers_ p) (<[i := pc']> (clients p))).
Proof.
  intros Hinv [H1 H2 H3 H4] Hi E.
  destruct (pool_client_step cfg caps p i pc s' pc' joined w Hinv Hi E) as [Hok' Hs].
  assert (pc' ∈ <[i := pc']> (clients p)) as Hself.
  { eapply list_elem_of_lookup_2. apply list_lookup_insert_eq. by eapply lookup_lt_Some. }
  assert (∀ q, q ∈ clients p → q ≠ pc → q ∈ <[i := pc']> (clients p)) as Hother.
  { intros q [j Hj]%list_elem_of_lookup Hne. eapply (list_elem_of_lookup_2 _ j).
    rewrite list_lookup_insert_ne; [done|]. intros ->. congruence. }
  constructor; simpl.
  - intros j Hj. rewrite (so_task_queue _ _ _ _ _ _ _ _ _ Hs); [by eapply H1|].
    by eapply (exclusive_client holds_tasks); [apply (inv_tasks _ _ Hinv)|..].
  - intros j Hj Hne. destruct (decide (tasks_ (sh p) = [])) as [He|He].
    + assert (pc' = SubNotify ∨ tasks_ s' = tasks_ (sh p)) as [-> |Et]; [|by auto|congruence].
      destruct pc; simpl in E; unfold c_checked in *; step_cases; auto; try (by destruct Hok').
      unfold pop_result in *. by case_match; right.
    + destruct (H2 j Hj He) as [Ha|[Hn|[?|?]]]; [by left| |done..].
      destruct (decide (pc = SubNotify)) as [->|Hp]; [|right; left; auto].
      simpl in E. simplify_eq. auto.
  - intros j t r Hj. rewrite (so_queue _ _ _ _ _ _ _ _ _ Hs); [by eapply H3|].
    by eapply (exclusive_client holds_results); [apply (inv_results _ _ Hinv)|..].
  - intros j t r Hj Hl. destruct (client_holds_results pc) eqn:Hr.
    + destruct pc; try done. simpl in E. unfold c_checked in *.
      destruct (results_ (sh p)) as [|q rs] eqn:Er; simplify_eq/=.
      { rewrite Er in Hl. destruct (H4 j t r Hj Hl) as [[q Hq]|?]; [|done]. left. exists q. by apply Hother. }
      case_match; [|done]. left. by exists q.
    + rewrite (so_queue _ _ _ _ _ _ _ _ _ Hs) in Hl by done.
      destruct (H4 j t r Hj Hl) as [[q Hq]|?]; [|done].
      destruct (decide (pc = PopNotify q)) as [->|Hp].
      * simpl in E. simplify_eq. by right.
      * left. exists q. by apply Hother.
Qed.

Lemma wake_ok_step p p' :
  pool_inv cfg p → wake_ok NoWake p → pool_step cfg p p' → wake_ok NoWake p'.
Proof.
  intros Hinv Hwk [a E]. destruct a as [i c|j c|i|o]; simpl in E.
  - destruct (workers_ p !! i) as [pc|] eqn:Hi; simplify_eq/=.
    destruct (worker_step cfg c (sh p) pc) as [[[s' pc'] w]|] eqn:Es; simplify_eq/=.
    destruct (notify _ _ _) as [ws|] eqn:En; simplify_eq/=.
    eapply wake_ok_notify; [exact En|]. by eapply wake_ok_worker.
  - destruct (clients p !! j) as [pc|] eqn:Hj; simplify_eq/=.
    destruct (client_step cfg _ (sh p) pc) as [[[s' pc'] w]|] eqn:Es; simplify_eq/=.
    destruct (notify _ _ _) as [ws|] eqn:En; simplify_eq/=.
    eapply wake_ok_notify; [exact En|]. by eapply wake_ok_client.
  - destruct (workers_ p !! i) as [pc|] eqn:Hi; simplify_eq/=.
    destruct (_ || _) eqn:Ha; simplify_eq. destruct Hwk as [H1 H2 H3 H4].
    constructor; simpl.
    + intros j [(-> & Eq & _)|[_ Hj]]%list_lookup_insert_Some; [by destruct pc|by eapply H1].
    + intros j [(-> & Eq & _)|[_ Hj]]%list_lookup_insert_Some Hne; [by destruct pc|].
      destruct (H2 j Hj Hne) as [Hat|[?|[?|?]]]; [|by auto|done..].
      left. eapply attention_insert; [exact Hi|by destruct pc|done].
    + intros j t r [(-> & Eq & _)|[_ Hj]]%list_lookup_insert_Some; [by destruct pc|by eapply H3].
    + intros j t r [(-> & Eq & _)|[_ Hj]]%list_lookup_insert_Some Hl; [by destruct pc|by eapply H4].
  - simplify_eq. destruct Hwk as [H1 H2 H3 H4]. constructor; simpl; try done.
    + intros j Hj Hne. destruct (H2 j Hj Hne) as [?|[?|?]]; [by left| |by auto].
      right. left. apply elem_of_app. by left.
    + intros j t r Hj Hl. destruct (H4 j t r Hj Hl) as [[q ?]|?]; [|by right].
      left. exists q. apply elem_of_app. by left.
Qed.
End wakeups.

(** ** After [shutdown] *)

(** Past a predicate that was false, and not blocked yet. *)
Definition blocking (pc : worker_pc) : bool :=
  match pc with WBlock | WRBlock _ _ => true | _ => false end.
Definition awake (pc : worker_pc) : bool :=
  negb (blocking pc || asleep_tasks pc || asleep_results pc).

Definition client_finished (pc : client_pc) : bool :=
  match pc with SubReturned _ | PopReturned _ | ShutReturned => true | _ => false end.

(** Accesses left to a thread when [stop_] is set, being woken included. *)
Definition worker_rank (pc : worker_pc) : nat :=
  match pc with
  | WRNotify | WAsleep => 10 | WLock => 9 | WPred => 8 | WTake => 7 | WNotify _ => 6
  | WDispatch _ | WRAsleep _ _ => 5 | WRLock _ _ => 4 | WRDrop _ _ | WRPred _ _ => 3 | WRPush _ _ => 2
  | _ => 0
  end.
Definition client_rank (pc : client_pc) : nat :=
  match pc with
  | SubLock _ => 4 | SubCheck _ => 3 | SubPush _ => 2 | SubNotify => 1
  | PopLock => 3 | PopBody => 2 | PopNotify _ => 1
  | ShutExchange => 4 | ShutNotifyTasks => 3 | ShutNotifyResults => 2 | ShutJoin => 1
  | _ => 0
  end.
Definition pool_rank (p : pool) : nat :=
  sum_list (worker_rank <$> workers_ p) + sum_list (client_rank <$> clients p).

(** [shutdown] has set the flag, no worker is past a predicate that was false,
    and the notifications for those asleep have not been sent yet. *)
Record stopping (p : pool) : Prop := {
  st_flag : stop_ (sh p) = true;
  st_blocking : Forall (λ pc, blocking pc = false) (workers_ p);
  st_tasks : WAsleep ∈ workers_ p → ShutNotifyTasks ∈ clients p;
  st_results t r : WRAsleep t r ∈ workers_ p →
    ShutNotifyTasks ∈ clients p ∨ ShutNotifyResults ∈ clients p;
}.

Section shutdown.
Context `{RequestDispatcher} `{∀ p d, Decision (dispatches p d)}.
Context (cfg : pool_config).
Hypothesis caps : 1 ≤ task_capacity_ cfg ∧ 1 ≤ result_capacity_ cfg.

Lemma make_room_stop fuel cap s : stop_ (make_room fuel cap s) = stop_ s.
Proof.
  revert s. induction fuel as [|n IH]; intros s; [done|]. cbn [make_room]. case_match; [|done].
  rewrite IH. unfold pop_result. by destruct (results_ s).
Qed.

Lemma worker_step_stopping c s pc s' pc' w :
  stop_ s = true → awake pc = true → worker_step cfg c s pc = Some (s', pc', w) →
  stop_ s' = true ∧ awake pc' = true ∧ (worker_rank pc' < worker_rank pc)%nat.
Proof.
  intros Hs Ha E.
  destruct pc; try done; simpl in E; unfold w_checked in *; simplify_eq/=;
    try (split; [done|]; split; [done|simpl; lia]);
    repeat (case_match; simplify_eq/=; try done); try rewrite make_room_stop in *;
    try congruence; try (rewrite Hs in *; done); simpl;
    try (split; [done|]; split; [done|simpl; lia]).
  all: unfold pop_task; destruct (tasks_ s); simpl; (split; [done|]); (split; [done|lia]).
Qed.

Lemma client_step_rank joined s pc s' pc' w :
  client_step cfg joined s pc = Some (s', pc', w) → (client_rank pc' < client_rank pc)%nat.
Proof.
  destruct pc; simpl; intros E; unfold c_checked in *; simplify_eq/=; try lia;
    repeat (case_match; simplify_eq/=; try done); lia.
Qed.

(** A notification wakes sleepers and does nothing else. *)
Lemma notify_each w c ws ws' :
  notify w c ws = Some ws' →
  Forall2 (λ pc pc', pc' = pc ∨ (pc' = woken pc ∧ asleep_tasks pc || asleep_results pc = true)) ws ws'.
Proof.
  intros E. apply Forall2_same_length_lookup_2.
  - apply (notify_fmap (λ _, tt)) in E; [|done]. apply (f_equal length) in E.
    by rewrite !length_fmap in E.
  - intros j pc pc' Hj Hj'. eapply notify_back in Hj' as (q & Hq & Hqp); [|exact E].
    by simplify_eq.
Qed.

Lemma notify_rank w c ws ws' :
  notify w c ws = Some ws' → (sum_list (worker_rank <$> ws') ≤ sum_list (worker_rank <$> ws))%nat.
Proof.
  intros E%notify_each. induction E as [|pc pc' ws ws' Hpc _ IH]; [done|]. simpl.
  apply Nat.add_le_mono; [|exact IH].
  destruct Hpc as [->|[-> ?]]; [done|]. destruct pc; simpl; lia.
Qed.

(** Nobody falls asleep by being notified. *)
Lemma notify_asleep w c ws ws' pc :
  notify w c ws = Some ws' → awake pc = false → pc ∈ ws' → pc ∈ ws.
Proof.
  intros E Hpc [j Hj]%list_elem_of_lookup. eapply notify_back in Hj as (q & Hq & [-> |[-> Ha]]);
    [by eapply list_elem_of_lookup_2| |exact E]. by destruct q.
Qed.

(** Whoever wants to notify can do so. *)
Lemma notify_possible w ws : ∃ i ws', notify w (Woken i) ws = Some ws'.
Proof.
  assert (∀ g, ∃ i ws', wake_one g (Woken i) ws = Some ws') as Hone.
  { intros g. unfold wake_one. destruct (existsb g ws) eqn:Ex; [|by exists O; eauto].
    apply existsb_exists in Ex as (pc & [i Hi]%list_elem_of_In%list_elem_of_lookup & Hg).
    exists i. rewrite Hi, Hg. eauto. }
  destruct w; simpl; try (by exists O; eauto); apply Hone.
Qed.

(** [pc'] replaces the program point [pc] of a thread. *)
Lemma elem_of_insert_other {A} (l : list A) i x y z :
  l !! i = Some y → z ∈ l → z ≠ y → z ∈ <[i := x]> l.
Proof.
  intros Hi [j Hj]%list_elem_of_lookup Hne. apply (list_elem_of_lookup_2 _ j).
  rewrite list_lookup_insert_ne; [done|]. intros ->. congruence.
Qed.

Lemma elem_of_insert_self {A} (l : list A) i x y : l !! i = Some y → x ∈ <[i := x]> l.
Proof.
  intros Hi. apply (list_elem_of_lookup_2 _ i), list_lookup_insert_eq. by eapply lookup_lt_Some.
Qed.

Lemma elem_of_insert_inv {A} (l : list A) i x z : z ∈ <[i := x]> l → z = x ∨ z ∈ l.
Proof.
  intros [j [(_ & -> & _)|[_ Hj]]%list_lookup_insert_Some]%list_elem_of_lookup; [by left|].
  right. by eapply list_elem_of_lookup_2.
Qed.

Lemma notify_blocking w c ws ws' :
  notify w c ws = Some ws' → Forall (λ q, blocking q = false) ws → Forall (λ q, blocking q = false) ws'.
Proof. intros E Hb. eapply notify_Forall; [|exact Hb|exact E]. by intros []. Qed.

Lemma stopping_worker p i pc s' pc' c w ws :
  stopping p → workers_ p !! i = Some pc → worker_step cfg c (sh p) pc = Some (s', pc', w) →
  notify w c (<[i := pc']> (workers_ p)) = Some ws →
  stopping (mkPool s' ws (clients p)) ∧
  (sum_list (worker_rank <$> ws) < sum_list (worker_rank <$> workers_ p))%nat.
Proof.
  intros [Hst Hb Ht Hr] Hi Es En.
  assert (awake pc = true) as Haw.
  { eapply Forall_lookup_1 in Hb; [|exact Hi]. by destruct pc. }
  destruct (worker_step_stopping c (sh p) pc s' pc' w Hst Haw Es) as (Hst' & Haw' & Hrank).
  assert (∀ q, awake q = false → q ∈ ws → q ∈ workers_ p) as Hback.
  { intros q Hq Hin. eapply notify_asleep in Hin; [|exact En|done].
    apply elem_of_insert_inv in Hin as [->|?]; [congruence|done]. }
  split; [constructor; simpl; auto|].
  - eapply notify_blocking; [exact En|]. apply Forall_insert; [done|]. by destruct pc'.
  - intros t r Hin. by eapply Hr, Hback.
  - apply notify_rank in En. pose proof (sum_list_insert worker_rank _ _ _ pc' Hi). lia.
Qed.

Lemma stopping_client p j pc s' pc' joined c w ws :
  pool_inv cfg p → stopping p → clients p !! j = Some pc →
  client_step cfg joined (sh p) pc = Some (s', pc', w) → notify w c (workers_ p) = Some ws →
  stopping (mkPool s' ws (<[j := pc']> (clients p))).
Proof.
  intros Hinv [Hst Hb Ht Hr] Hj Es En.
  destruct (pool_client_step cfg caps p j pc s' pc' _ w Hinv Hj Es) as [_ Hs].
  assert (∀ q, awake q = false → q ∈ ws → q ∈ workers_ p) as Hback
    by (intros q ??; by eapply notify_asleep).
  constructor; simpl; [by eapply so_stop|by eapply notify_blocking|..].
  - intros Hin. destruct (decide (pc = ShutNotifyTasks)) as [->|Hne].
    + simplify_eq/=. apply list_elem_of_lookup in Hin as [k Hk].
      apply wake_all_awake in Hk; [done|]. by intros [].
    + eapply elem_of_insert_other; [exact Hj| |done]. by apply Ht, Hback.
  - intros t r Hin. destruct (decide (pc = ShutNotifyTasks)) as [->|Hne].
    { simplify_eq/=. right. by eapply elem_of_insert_self. }
    destruct (decide (pc = ShutNotifyResults)) as [->|Hne'].
    { simplify_eq/=. apply list_elem_of_lookup in Hin as [k Hk].
      apply wake_all_awake in Hk; [done|]. by intros []. }
    destruct (Hr t r) as [?|?]; [by apply Hback|left|right];
      by eapply elem_of_insert_other; [exact Hj|..].
Qed.

Lemma stopping_step p p' :
  pool_inv cfg p → stopping p → running_step cfg p p' →
  stopping p' ∧ (pool_rank p' < pool_rank p)%nat.
Proof.
  intros Hinv Hst (a & Hrun & E). destruct a as [i c|j c|i|o]; try done; simpl in E.
  - destruct (workers_ p !! i) as [pc|] eqn:Hi; simplify_eq/=.
    destruct (worker_step cfg c (sh p) pc) as [[[s' pc'] w]|] eqn:Es; simplify_eq/=.
    destruct (notify _ _ _) as [ws|] eqn:En; simplify_eq/=.
    destruct (stopping_worker p i pc s' pc' c w ws Hst Hi Es En). split; [done|].
    unfold pool_rank. simpl. lia.
  - destruct (clients p !! j) as [pc|] eqn:Hj; simplify_eq/=.
    destruct (client_step cfg _ (sh p) pc) as [[[s' pc'] w]|] eqn:Es; simplify_eq/=.
    destruct (notify _ _ _) as [ws|] eqn:En; simplify_eq/=.
    split; [by eapply stopping_client|]. unfold pool_rank. simpl. apply notify_rank in En.
    pose proof (sum_list_insert client_rank _ _ _ pc' Hj). apply client_step_rank in Es. lia.
Qed.

Lemma stopping_terminates p :
  pool_inv cfg p → stopping p → Acc (flip (running_step cfg)) p.
Proof.
  remember (pool_rank p) as n eqn:Hn. revert p Hn.
  induction (Nat.lt_wf_0 n) as [n _ IH]. intros p -> Hinv Hst. constructor. intros p' Hstep.
  destruct (stopping_step p p' Hinv Hst Hstep) as [Hst' Hlt].
  eapply IH; [exact Hlt|done| |done]. eapply pool_inv_step; [done..|].
  destruct Hstep as (a & _ & E). by exists a.
Qed.

(** The state [shutdown] leaves when it sets the flag. *)
Lemma exchange_stopping p j c p' :
  stop_ (sh p) = false → Forall (λ pc, blocking pc = false) (workers_ p) →
  clients p !! j = Some ShutExchange → perform cfg p (Client j c) = Some p' → stopping p'.
Proof.
  intros Hs Hb Hj. simpl. rewrite Hj. simpl. rewrite Hs. intros [= <-].
  pose proof (elem_of_insert_self _ _ ShutNotifyTasks _ Hj). constructor; simpl; auto.
Qed.

(** *** Somebody can go on *)

Hypothesis dispatcher_returns : ∀ request, ∃ d, dispatches request d.

Lemma worker_can_step s pc :
  awake pc = true → worker_ok cfg s pc → pc ≠ WReturned →
  (pc = WLock → task_mutex_ s = false) → (∀ t r, pc = WRLock t r → result_mutex_ s = false) →
  ∃ c s' pc' w, worker_step cfg c s pc = Some (s', pc', w).
Proof.
  intros Ha Hok Hr Ht Hrm.
  destruct pc as [| | | | |t|t|t r|t r|t r|t r|t r|t r| | |]; try done; simpl.
  - rewrite Ht by done. by exists NoChoice; eauto.
  - exists NoChoice. case_match; eauto.
  - exists NoChoice. case_match; eauto.
  - exists NoChoice. eauto.
  - destruct (dispatcher_returns (task_payload t)) as [d Hd]. exists (Outcome d).
    rewrite decide_True by done. eauto.
  - exists NoChoice. rewrite (Hrm t r) by done. eauto.
  - exists NoChoice. case_match; [eauto|]. case_match; eauto.
  - exists NoChoice. case_match; eauto.
  - exists NoChoice. case_match; [eauto|]. case_match; eauto.
  - exists NoChoice. eauto.
Qed.

Lemma client_can_step joined s pc :
  pc ≠ CAborted → client_finished pc = false →
  (client_holds_tasks pc = false → client_holds_results pc = false →
   task_mutex_ s = false ∧ result_mutex_ s = false ∧ joined = true) →
  ∃ s' pc' w, client_step cfg joined s pc = Some (s', pc', w).
Proof.
  intros Hok Hf Hm. destruct pc; try done; simpl in *;
    try (destruct (Hm eq_refl eq_refl) as (E1 & E2 & E3); rewrite ?E1, ?E2, ?E3);
    repeat case_match; eauto.
Qed.

(** Who is woken is for the notification to choose. *)
Lemma worker_step_choice c i s pc s' pc' w :
  worker_step cfg c s pc = Some (s', pc', w) →
  w = NoWake ∨ worker_step cfg (Woken i) s pc = Some (s', pc', w).
Proof. destruct pc; simpl; try (by auto). destruct c; try done. case_decide; [|done]. intros; simplify_eq. by left. Qed.

Lemma worker_goes_on p i pc c s' pc' w :
  workers_ p !! i = Some pc → worker_step cfg c (sh p) pc = Some (s', pc', w) →
  ∃ p', running_step cfg p p'.
Proof.
  intros Hi Es. destruct (notify_possible w (<[i := pc']> (workers_ p))) as (k & ws & En).
  destruct (worker_step_choice c k _ _ _ _ _ Es) as [->|Es'].
  - eexists _, (Worker i c). split; [done|]. simpl. rewrite Hi. simpl. by rewrite Es.
  - eexists _, (Worker i (Woken k)). split; [done|]. simpl. rewrite Hi. simpl. rewrite Es'. simpl.
    by rewrite En.
Qed.

Lemma client_goes_on p j pc s' pc' w :
  clients p !! j = Some pc →
  client_step cfg (all_returned (workers_ p)) (sh p) pc = Some (s', pc', w) →
  ∃ p', running_step cfg p p'.
Proof.
  intros Hj Es. destruct (notify_possible w (workers_ p)) as (k & ws & En).
  eexists _, (Client j (Woken k)). split; [done|]. simpl. rewrite Hj. simpl. rewrite Es. simpl.
  by rewrite En.
Qed.

Section stuck.
Context (p : pool) (Hinv : pool_inv cfg p) (Hst : stopping p).
Hypothesis stuck : ∀ p', ¬ running_step cfg p p'.

(** Nobody sleeps when nobody is left to wake him. *)
Lemma stuck_awake i pc : workers_ p !! i = Some pc → awake pc = true.
Proof.
  intros Hi. destruct Hst as [_ Hb Ht Hr].
  assert (∀ q, q ∈ clients p → q ≠ ShutNotifyTasks ∧ q ≠ ShutNotifyResults) as Hno.
  { intros q [j Hj]%list_elem_of_lookup. split; intros ->.
    - edestruct client_goes_on as [p' Hp']; [exact Hj|reflexivity|]. by eapply stuck.
    - edestruct client_goes_on as [p' Hp']; [exact Hj|reflexivity|]. by eapply stuck. }
  pose proof (list_elem_of_lookup_2 _ _ _ Hi) as Hin.
  eapply Forall_lookup_1 in Hb; [|exact Hi]. destruct pc; try done.
  - by destruct (Hno _ (Ht Hin)).
  - destruct (Hr _ _ Hin) as [H'|H']; by destruct (Hno _ H').
Qed.

Lemma stuck_worker i pc :
  workers_ p !! i = Some pc → pc ≠ WReturned →
  (pc = WLock → task_mutex_ (sh p) = false) →
  (∀ t r, pc = WRLock t r → result_mutex_ (sh p) = false) → False.
Proof.
  intros Hi ???. pose proof (stuck_awake i pc Hi). pose proof (inv_workers _ _ Hinv) as Hw.
  eapply Forall_lookup_1 in Hw; [|exact Hi].
  destruct (worker_can_step (sh p) pc) as (c & s' & pc' & w & E); try done.
  destruct (worker_goes_on p i pc c s' pc' w) as [p' Hp']; try done. by eapply stuck.
Qed.

Lemma stuck_client j pc :
  clients p !! j = Some pc → client_finished pc = false →
  (client_holds_tasks pc = false → client_holds_results pc = false →
   task_mutex_ (sh p) = false ∧ result_mutex_ (sh p) = false ∧ all_returned (workers_ p) = true) →
  False.
Proof.
  intros Hj Hf Hm. pose proof (inv_clients _ _ Hinv) as Hc. eapply Forall_lookup_1 in Hc; [|exact Hj].
  destruct (client_can_step (all_returned (workers_ p)) (sh p) pc) as (s' & pc' & w & E); try done.
  destruct (client_goes_on p j pc s' pc' w) as [p' Hp']; try done. by eapply stuck.
Qed.

(** Whoever holds a mutex could go on. *)
Lemma stuck_mutex (f : worker_pc → bool) (g : client_pc → bool) b :
  (countb f (workers_ p) + countb g (clients p) = Nat.b2n b)%nat →
  (∀ pc, f pc = true → holds_tasks pc || holds_results pc = true) →
  (∀ pc, g pc = true → client_holds_tasks pc || client_holds_results pc = true) → b = false.
Proof.
  intros Hb Hf Hg. apply not_true_is_false. intros ->. simpl in Hb.
  destruct (decide (0 < countb f (workers_ p))%nat) as [Hp|Hp].
  - apply countb_pos_inv in Hp as (i & pc & Hi & Hh%Hf). by eapply (stuck_worker i pc Hi); destruct pc.
  - destruct (countb_pos_inv g (clients p)) as (j & pc & Hj & Hh%Hg); [lia|].
    by eapply (stuck_client j pc Hj); destruct pc.
Qed.

Lemma stopping_stuck :
  Forall (λ pc, pc = WReturned) (workers_ p) ∧ Forall (λ pc, client_finished pc = true) (clients p).
Proof.
  assert (task_mutex_ (sh p) = false) as Htm
    by (eapply stuck_mutex; [apply (inv_tasks _ _ Hinv)|..]; by intros []).
  assert (result_mutex_ (sh p) = false) as Hrm
    by (eapply stuck_mutex; [apply (inv_results _ _ Hinv)|..]; by intros []).
  assert (Forall (λ pc, pc = WReturned) (workers_ p)) as Hret.
  { apply Forall_lookup. intros i pc Hi. destruct (decide (pc = WReturned)) as [|Hne]; [done|].
    by destruct (stuck_worker i pc Hi Hne). }
  split; [done|]. apply Forall_lookup. intros j pc Hj. apply not_false_is_true. intros Hf.
  apply (stuck_client j pc Hj Hf). intros _ _. split; [done|]. split; [done|].
  apply forallb_forall. intros pc' Hin%list_elem_of_In.
  rewrite Forall_forall in Hret. apply bool_decide_eq_true. by apply Hret.
Qed.
End stuck.
End shutdown.

(** ** Properties *)

Section properties.
Context `{RequestDispatcher} `{∀ p d, Decision (dispatches p d)}.
Context (num_workers queue_capacity : Z) (options : WorkerPoolOptions) (cfg : pool_config).
Abbreviation pool_reachable := (pool_reachable num_workers queue_capacity options cfg).

Lemma pool_reachable_wake_ok p : pool_reachable p → wake_ok cfg NoWake p.
Proof.
  intros Hr. pose proof (pool_reachable_inv _ _ _ _ p Hr) as [Hcaps _]. destruct Hr as [Hs Hr].
  apply (reachable_invariant (constructed num_workers queue_capacity options cfg) (pool_step cfg)
    (λ p, pool_inv cfg p ∧ wake_ok cfg NoWake p)); [..|exact Hr].
  - intros q Hq. split; [by eapply constructed_inv|].
    revert Hq. unfold constructed, worker_pool.
    destruct (num_workers =? 0); [done|]. destruct (queue_capacity =? 0); [done|].
    case_match; [done|]. intros [= <- <-].
    constructor; simpl; intros j; intros; by match goal with
      Hl : replicate _ _ !! _ = Some _ |- _ => apply lookup_replicate in Hl as [? _] end.
  - intros q q' [Hi Hw] Hstep. split; [by eapply pool_inv_step|by eapply wake_ok_step].
Qed.

(** C10. No submission and no pop goes unnoticed, under any interleaving and
    though each notifies only after releasing its mutex: while there is a task
    in the queue and a worker sleeping for one, some thread is about to notify
    or a worker is about to look at the queue; and while there is room for a
    result and a worker sleeping for it, the client that made the room is about
    to wake it. *)
Theorem wakeups_not_lost p :
  pool_reachable p →
  (WAsleep ∈ workers_ p → tasks_ (sh p) ≠ [] →
     SubNotify ∈ clients p ∨ ∃ pc, pc ∈ workers_ p ∧ attentive pc = true) ∧
  (∀ t r, WRAsleep t r ∈ workers_ p → len (results_ (sh p)) < result_capacity_ cfg →
     ∃ q, PopNotify q ∈ clients p).
Proof.
  intros [_ Ht _ Hres]%pool_reachable_wake_ok. split.
  - intros [j Hj]%list_elem_of_lookup Hne.
    destruct (Ht j Hj Hne) as [(i & pc & Hi & Ha)|[?|[?|?]]]; [|by left|done..].
    right. exists pc. split; [by eapply list_elem_of_lookup_2|done].
  - intros t r [j Hj]%list_elem_of_lookup Hl. by destruct (Hres j t r Hj Hl) as [?|?].
Qed.

(** C11. [shutdown] completes, workers asleep included, when it does not race
    with a worker going to sleep. From a state where the flag is set, no worker
    is between a predicate that was false and its blocking, and the notification
    that wakes each sleeping worker is still to be sent, the threads can only
    take finitely many steps, and when none can go on all workers have returned
    and all calls in progress, the join in [shutdown] included, are over. Such is
    the state [shutdown] leaves when it sets the flag and no worker is in that
    position ([exchange_stopping]). *)
Theorem shutdown_completes p :
  (∀ request, ∃ d, dispatches request d) → pool_reachable p → stopping p →
  Acc (flip (running_step cfg)) p ∧
  ∀ p', rtc (running_step cfg) p p' → (∀ p'', ¬ running_step cfg p' p'') →
    Forall (λ pc, pc = WReturned) (workers_ p') ∧
    Forall (λ pc, client_finished pc = true) (clients p').
Proof.
  intros Hd Hr Hst. apply pool_reachable_inv in Hr as [Hcaps Hinv].
  split; [by eapply stopping_terminates|]. intros p' Hrun.
  assert (pool_inv cfg p' ∧ stopping p') as [Hinv' Hst'].
  { clear Hd. induction Hrun as [|p p1 p' Hstep _ IH]; [done|].
    apply IH; [|by eapply stopping_step]. eapply pool_inv_step; [done..|].
    destruct Hstep as (a & _ & E). by exists a. }
  intros Hstuck. by apply (stopping_stuck cfg Hd).
Qed.
End properties.

(** *** One worker, default options *)

Definition demo_cfg : pool_config := mkConfig default_options 1 1.
#[local] Existing Instance EchoDispatcher.

Definition demo_pool : pool :=
  mkPool (mkShared [] [] false false false [] [] [] [] []) [WLock] [].

Lemma demo_reachable l p :
  run_actions demo_cfg demo_pool l = Some p → pool_reachable 1 1 default_options demo_cfg p.
Proof.
  intros E. split; [by repeat split|]. exists demo_pool. split; [done|].
  by eapply run_actions_rtc.
Qed.

(** The worker finds the queue empty; before it blocks, [shutdown] sets the
    flag and sends both notifications. *)
Definition race : list action :=
  [Worker 0 NoChoice; Worker 0 NoChoice;
   StartCall Shutdown; Client 0 NoChoice; Client 0 NoChoice; Client 0 NoChoice;
   Worker 0 NoChoice].

Definition deadlocked : pool :=
  mkPool (mkShared [] [] true false false [] [] [] [] []) [WAsleep] [ShutJoin].

(** C32. [shutdown] can hang, even on an idle pool with one worker: it sets
    [stop_] and notifies without holding the mutex, so both can fall between
    the worker's test of the predicate and its blocking. From the state reached
    no thread can take a step: the worker sleeps, and [shutdown], and with it
    the destructor, waits for it for ever. *)
Theorem shutdown_lost_wakeup :
  ∃ p, pool_reachable 1 1 default_options demo_cfg p ∧
    clients p = [ShutJoin] ∧ workers_ p = [WAsleep] ∧
    ∀ p', ¬ running_step demo_cfg p p'.
Proof.
  exists deadlocked. split; [by apply (demo_reachable race)|].
  split; [done|]. split; [done|]. intros p' (a & Ha & E).
  destruct a as [[|i] c|[|j] c|i|o]; done.
Qed.

Definition hello : HandlerTask := mkTask 7 [x68; x69].
Definition hello_result : HandlerResult := mkHandlerResult 7 (Val [x68; x69]).

(** The worker falls asleep; a task is submitted and wakes it; it answers. *)
Definition to_sleep : list action := [Worker 0 NoChoice; Worker 0 NoChoice; Worker 0 NoChoice].
Definition submit_hello : list action :=
  [StartCall (Submit hello); Client 0 NoChoice; Client 0 NoChoice; Client 0 NoChoice].
Definition answer_hello : list action :=
  [Client 0 (Woken 0); Worker 0 NoChoice; Worker 0 NoChoice; Worker 0 NoChoice; Worker 0 NoChoice;
   Worker 0 (Outcome (Returns (Val [x68; x69]))); Worker 0 NoChoice; Worker 0 NoChoice;
   Worker 0 NoChoice; Worker 0 NoChoice].
Definition pop_hello : list action :=
  [StartCall Pop; Client 1 NoChoice; Client 1 NoChoice; Client 1 NoChoice].

Definition after (l : list action) : pool := default demo_pool (run_actions demo_cfg demo_pool l).

Lemma pool_after_reachable l : pool_reachable 1 1 default_options demo_cfg (after l).
Proof.
  unfold after. destruct (run_actions _ _ _) as [p|] eqn:E; [by eapply demo_reachable|].
  by apply (demo_reachable []).
Qed.

Lemma wakeups_not_lost_witness :
  let p := after (to_sleep ++ submit_hello) in
  WAsleep ∈ workers_ p ∧ tasks_ (sh p) = [hello] ∧
  (SubNotify ∈ clients p ∨ ∃ pc, pc ∈ workers_ p ∧ attentive pc = true).
Proof.
  assert (WAsleep ∈ workers_ (after (to_sleep ++ submit_hello))) as Hin
    by (apply elem_of_cons; by left).
  split; [exact Hin|]. split; [reflexivity|].
  apply (wakeups_not_lost 1 1 default_options demo_cfg _
    (pool_after_reachable (to_sleep ++ submit_hello))); [exact Hin|done].
Defined.

Lemma shutdown_completes_witness :
  let p := after (to_sleep ++ [StartCall Shutdown; Client 0 NoChoice]) in
  workers_ p = [WAsleep] ∧ clients p = [ShutNotifyTasks] ∧
  Acc (flip (running_step demo_cfg)) p ∧
  ∀ p', rtc (running_step demo_cfg) p p' → (∀ p'', ¬ running_step demo_cfg p' p'') →
    Forall (λ pc, pc = WReturned) (workers_ p') ∧
    Forall (λ pc, client_finished pc = true) (clients p').
Proof.
  split; [reflexivity|]. split; [reflexivity|].
  apply (shutdown_completes 1 1 default_options demo_cfg).
  - intros request. by eexists.
  - apply pool_after_reachable.
  - constructor.
    + reflexivity.
    + by repeat constructor.
    + intros _. by apply elem_of_cons; left.
    + intros t r _. left. by apply elem_of_cons; left.
Defined.

(** The whole exchange. *)
Definition served : pool := after (to_sleep ++ submit_hello ++ answer_hello ++ pop_hello).

Example served_result : clients served = [SubReturned true; PopReturned (Some hello_result)].
Proof. reflexivity. Qed.

Lemma pool_safe_witness :
  len (tasks_ (sh served)) ≤ 1 ∧ len (results_ (sh served)) ≤ 1 ∧
  (WAborted ∉ workers_ served) ∧ (CAborted ∉ clients served) ∧
  (countb holds_tasks (workers_ served) + countb client_holds_tasks (clients served) ≤ 1)%nat ∧
  (countb holds_results (workers_ served) + countb client_holds_results (clients served) ≤ 1)%nat.
Proof. apply (pool_safe 1 1 default_options demo_cfg served). apply pool_after_reachable. Defined.


Lemma delivered_once_witness :
  returned served = [hello_result] ∧ NoDup (result_id <$> returned served) ∧
  ∀ r, r ∈ returned served → ∃ t, t ∈ accepted (sh served) ∧ answers t r.
Proof.
  split; [reflexivity|]. apply (delivered_once 1 1 default_options demo_cfg served).
  - apply pool_after_reachable.
  - change (NoDup [7]). apply NoDup_singleton.
Defined.
