(* ===== verification/EchoServer.v ===== *)
(** * The echo server (benchmarks/e2e_echo_benchmark.cpp)

    The one server of the repository that puts the parts together: a listener,
    a [SelectPoller], connections with their buffers, the codec and the
    [EchoDispatcher], in an event loop.  The servers of the integration tests
    have the same functions, with [assert] in place of [std::abort] and other
    constants; so these are parameters ([ServerParams]).

    The functions that take references are written with the objects they may
    change as arguments and results.  Loops take fuel: [sig] bounds the retries
    of an interrupted call, [fuel] every other loop.  The atomics shared with
    the benchmark's own thread are outside: [stop] is read through
    [StopFlag], and what is stored in the others is part of the results. *)

From S2P Require Import Prelude Vector FrameCodec Os Socket Connection SocketIO Poller Acceptor Dispatcher.

(** The constants of a server; those of the benchmark are [benchmark_params]. *)
Class ServerParams := {
  k_max_payload : Z;
  k_accept_backlog : Z;
  k_scratch_bytes : Z;
  k_events : Z;
  k_deadline_ms : Z;
  max_payload_nonneg : 0 ≤ k_max_payload;
  scratch_positive : 0 < k_scratch_bytes;
  events_positive : 0 < k_events;
}.
Definition benchmark_max_payload : Z := Z.shiftl 1 20.
Definition benchmark_backlog : Z := 128.
Definition benchmark_scratch_bytes : Z := 16384.
Definition benchmark_events : Z := 64.
Definition benchmark_deadline_ms : Z := 5 * 60 * 1000.

#[export] Instance benchmark_params : ServerParams := {|
  k_max_payload := benchmark_max_payload;
  k_accept_backlog := benchmark_backlog;
  k_scratch_bytes := benchmark_scratch_bytes;
  k_events := benchmark_events;
  k_deadline_ms := benchmark_deadline_ms;
  max_payload_nonneg := Zle_0_pos _;
  scratch_positive := eq_refl;
  events_positive := eq_refl;
|}.
Definition k_poll_ms : Z := 50.

Definition accept_would_block (err : Z) : bool := (err =? EAGAIN) || (err =? EWOULDBLOCK).

Record ConnSlot := mkSlot { conn : Connection; awaiting_reply_flush : bool }.

Inductive ReadOutcome := ReadOk | PeerClosed.

(** [std::atomic<int>::fetch_add], which wraps around. *)
Definition fetch_add_int (n d : Z) : Z := wrap 32 (n + d + 2 ^ 31) - 2 ^ 31.

(** [stop.load()]: another thread sets it. *)
Class StopFlag (K : Type) := { stop_load : K → bool * K }.

(** [find_slot_index]; [None] is [static_cast<std::size_t>(-1)]. *)
Fixpoint find_from (i : nat) (slots : list ConnSlot) (h : Z) : option nat :=
  match slots with
  | [] => None
  | s :: slots => if conn_handle (conn s) =? h then Some i else find_from (S i) slots h
  end.
Definition find_slot_index (slots : list ConnSlot) (h : Z) : option nat := find_from 0 slots h.

(** What the event handlers share. *)
Record server := mkServer {
  slots : list ConnSlot;
  poller : SelectPoller;
  scratch : list byte;
  completions : Z;
}.

Definition with_slots (s : server) (l : list ConnSlot) : server :=
  mkServer l (poller s) (scratch s) (completions s).
Definition with_poller (s : server) (p : SelectPoller) : server :=
  mkServer (slots s) p (scratch s) (completions s).

Section echo.
Context {K : Type} `{params : !ServerParams, !Kernel K, !MapOrder Z, !StopFlag K, !Build} (t : target) (sig : nat).

Abbreviation upsert_ := (upsert (P := SelectPoller) (K := K)).
Abbreviation erase_ := (erase (P := SelectPoller) (K := K)).

Definition read_write : Z := mask_or EventMask.Read EventMask.Write.

(** [remove_slot]. *)
Definition remove_slot (s : server) (i : nat) : prog K server :=
  match slots s !! i with
  | None => halt Undefined
  | Some slot =>
      let s := with_poller s (erase_ (conn_handle (conn slot)) (poller s)).2 in
      match last (slots s) with
      | None => halt Undefined
      | Some back =>
          if bool_decide (i + 1 < length (slots s))%nat then
            (* slots[i] = std::move(slots.back()); slots.pop_back(); *)
            r ← move_assign_connection (conn slot) (conn back);
            _ ← destroy_connection r.2;
            mret (with_slots s
                    (take (length (slots s) - 1)
                       (<[i := mkSlot r.1 (awaiting_reply_flush back)]> (slots s))))
          else
            (* slots.pop_back(); *)
            _ ← destroy_connection (conn back);
            mret (with_slots s (take (length (slots s) - 1) (slots s)))
      end
  end.

(** The sending loop of [try_flush_writes]; [true]: the call would block. *)
Fixpoint flush_loop (fuel : nat) (c : Connection) : prog K (bool * Connection) :=
  match fuel with
  | O => halt Fuel
  | S fuel =>
      r ← flush_write_nonblocking sig c;
      match r.1 with
      | Unexpected e =>
          if bool_decide (send_code e = SendErrorCode.WouldBlock) then mret (true, r.2) else halt Killed
      | Val sent => if sent =? 0 then mret (false, r.2) else flush_loop fuel r.2
      end
  end.

Definition try_flush_writes (fuel : nat) (slot : ConnSlot) (p : SelectPoller) (completed : Z)
    : prog K (ConnSlot * SelectPoller * Z) :=
  r ← flush_loop fuel (conn slot);
  let '(blocked, c) := r in
  if (blocked : bool) then
    mret (mkSlot c (awaiting_reply_flush slot), (upsert_ (conn_handle c) read_write p).2, completed)
  else if Vec.is_empty (write_buf_ c) then
    mret (mkSlot c false, (upsert_ (conn_handle c) EventMask.Read p).2,
          if awaiting_reply_flush slot then fetch_add_int completed 1 else completed)
  else
    mret (mkSlot c (awaiting_reply_flush slot), (upsert_ (conn_handle c) read_write p).2, completed).

(** The decoding loop of [process_connection_read]. *)
Fixpoint decode_loop (fuel : nat) (slot : ConnSlot) (p : SelectPoller) (completed : Z)
    : prog K (ConnSlot * SelectPoller * Z) :=
  match fuel with
  | O => halt Fuel
  | S fuel =>
      dec ← pure_code (try_decode_frame t (vdata (read_buf_ (conn slot))) k_max_payload);
      match status dec with
      | Incomplete => mret (slot, p, completed)
      | OversizedLength => halt Killed
      | Complete =>
          match echo_dispatch (payload dec) with
          | Unexpected _ => halt Killed
          | Val out =>
              r ← pure_code (append_encoded_frame t (write_buf_ (conn slot)) out k_max_payload);
              match r.1 with
              | Unexpected _ => halt Killed
              | Val _ =>
                  c ← pure_code (consume_read (consumed_bytes dec) (with_write (conn slot) r.2));
                  let slot := mkSlot c true in
                  let p := (upsert_ (conn_handle c) read_write p).2 in
                  f ← try_flush_writes fuel slot p completed;
                  let '(slot, p, completed) := f in
                  decode_loop fuel slot p completed
              end
          end
      end
  end.

(** [process_connection_read] on the slot at [i]. *)
Fixpoint process_connection_read (fuel : nat) (i : nat) (s : server)
    : prog K (server * ReadOutcome) :=
  match fuel with
  | O => halt Fuel
  | S fuel =>
      match slots s !! i with
      | None => halt Undefined
      | Some slot =>
          got ← receive_nonblocking t sig (conn slot) (scratch s);
          let '(res, c, sc) := got in
          let s := mkServer (<[i := mkSlot c (awaiting_reply_flush slot)]> (slots s)) (poller s) sc
                     (completions s) in
          match res with
          | Unexpected e =>
              match recv_code e with
              | RecvErrorCode.WouldBlock => mret (s, ReadOk)
              | RecvErrorCode.Closed =>
                  let c := clear_write (with_read c (Vec.clear (read_buf_ c))) in
                  s ← remove_slot (with_slots s (<[i := mkSlot c (awaiting_reply_flush slot)]> (slots s))) i;
                  mret (s, PeerClosed)
              | _ => halt Killed
              end
          | Val _ =>
              d ← decode_loop fuel (mkSlot c (awaiting_reply_flush slot)) (poller s) (completions s);
              let '(slot, p, completed) := d in
              process_connection_read fuel i
                (mkServer (<[i := slot]> (slots s)) p (scratch s) completed)
          end
      end
  end.

(** The accepting loop. *)
Fixpoint accept_loop (fuel : nat) (a : Acceptor) (s : server) : prog K server :=
  match fuel with
  | O => halt Fuel
  | S fuel =>
      r ← accept_and_register a (poller s);
      let '(accepted, p) := r in
      let s := with_poller s p in
      match accepted with
      | Unexpected e => if accept_would_block (accept_native_error e) then mret s else halt Killed
      | Val c => accept_loop fuel a (with_slots s (slots s ++ [mkSlot (move_connection c).1 false]))
      end
  end.

(** The part of an event that is about writing. *)
Definition handle_write (fuel : nat) (ev : Event) (s : server) : prog K server :=
  if bool_decide (mask_and (ev_mask ev) EventMask.Write = EventMask.None) then mret s
  else
    match find_slot_index (slots s) (ev_socket ev) with
    | None => mret s
    | Some widx =>
        match slots s !! widx with
        | None => halt Undefined
        | Some slot =>
            f ← try_flush_writes fuel slot (poller s) (completions s);
            let '(slot, p, completed) := f in
            mret (mkServer (<[widx := slot]> (slots s)) p (scratch s) completed)
        end
    end.

(** The body of the loop over the events. *)
Definition handle_event (fuel : nat) (a : Acceptor) (ev : Event) (s : server) : prog K server :=
  if ev_socket ev =? listener_handle a then
    if bool_decide (mask_and (ev_mask ev) EventMask.Read = EventMask.None) then mret s
    else accept_loop fuel a s
  else
    match find_slot_index (slots s) (ev_socket ev) with
    | None => mret s
    | Some idx =>
        if bool_decide (mask_and (ev_mask ev) EventMask.Read = EventMask.None)
        then handle_write fuel ev s
        else
          r ← process_connection_read fuel idx s;
          match r.2 with
          | PeerClosed => mret r.1
          | ReadOk =>
              match find_slot_index (slots r.1) (ev_socket ev) with
              | None => mret r.1
              | Some _ => handle_write fuel ev r.1
              end
          end
    end.

Fixpoint handle_events (fuel : nat) (a : Acceptor) (evs : list Event) (s : server) : prog K server :=
  match evs with
  | [] => mret s
  | ev :: evs => s ← handle_event fuel a ev s; handle_events fuel a evs s
  end.

(** The body of the event loop; [None]: the loop is left. *)
Definition serve_turn (fuel : nat) (a : Acceptor) (deadline : Z) (events : list Event) (s : server)
    : prog K (option (list Event * server)) :=
  now ← call_os sys_now;
  if deadline <=? now then mret None
  else
    stop ← call_os stop_load;
    if (stop : bool) && bool_decide (slots s = []) then mret None
    else
      n ← wait events k_poll_ms (poller s);
      match n.1 with
      | Unexpected _ => halt Killed
      | Val count =>
          s ← handle_events fuel a (take (Z.to_nat count) n.2) s;
          mret (Some (n.2, s))
      end.

(** The event loop: no more than [turns] of it. *)
Fixpoint serve (turns fuel : nat) (a : Acceptor) (deadline : Z) (events : list Event) (s : server)
    : prog K server :=
  match turns with
  | O => halt Fuel
  | S turns =>
      r ← serve_turn fuel a deadline events s;
      match r with
      | None => mret s
      | Some (events, s) => serve turns fuel a deadline events s
      end
  end.

(** [while (!slots.empty()) { ...; slots.pop_back(); }] *)
Fixpoint close_all (slots_back_first : list ConnSlot) (p : SelectPoller) : prog K SelectPoller :=
  match slots_back_first with
  | [] => mret p
  | slot :: rest =>
      let p := (erase_ (conn_handle (conn slot)) p).2 in
      _ ← destroy_connection (conn slot);
      close_all rest p
  end.

(** Up to the loop: the acceptor, the poller and the port that is published. *)
Definition set_up : prog K (Acceptor * SelectPoller * Z) :=
  bound ← bind_and_listen "127.0.0.1" 0 k_accept_backlog;
  match bound with
  | Unexpected _ => halt Killed
  | Val l =>
      if negb (listener_valid l) then halt Killed
      else
        prt ← local_port_v4 t (listener_sock l);
        match prt with
        | Unexpected _ => halt Killed
        | Val port =>
            nb ← set_nonblocking true (listener_sock l);
            match nb with
            | Unexpected _ => halt Killed
            | Val _ =>
                let a := mkAcceptor (mkListener (move_socket (listener_sock l)).1) in
                let (reg, p) := register_listener (K := K) a select_poller in
                match reg with
                | Unexpected _ => halt Killed
                | Val _ => mret (a, p, port)
                end
            end
        end
  end.

(** Before the first turn. *)
Definition no_events : list Event :=
  replicate (Z.to_nat k_events) (mkEvent k_invalid_socket EventMask.None).
Definition first_state (p : SelectPoller) : server :=
  mkServer [] p (replicate (Z.to_nat k_scratch_bytes) x00) 0.

(** After the last one; the result is the port published and the completions. *)
Definition close_down (a : Acceptor) (port : Z) (s : server) : prog K (Z * Z) :=
  p ← close_all (rev (slots s)) (poller s);
  let (un, _) := unregister_listener (K := K) a p in
  match un with
  | Unexpected _ => halt Killed
  | Val _ =>
      _ ← destroy (listener_sock (listener_ a));        (* ~Acceptor() *)
      mret (port, completions s)
  end.

(** [run_server]. *)
Definition run_server (fuel : nat) : prog K (Z * Z) :=
  r ← set_up;
  let '(a, p, port) := r in
  start ← call_os sys_now;
  s ← serve fuel fuel a (start + k_deadline_ms) no_events (first_state p);
  close_down a port s.
End echo.
