(* ===== verification/Footprint.v ===== *)
(** * What the network code can change

    [Always R p]: whenever [p] returns, the kernel has changed by [R].  Where
    [R] holds of every system call ([Covers], and [CoversIO] for recv(2) and
    send(2)), it holds of the programs made of them.  Two such relations matter
    to a server: [calm], that no traffic appears, and [resets], that the streams
    of a descriptor are left alone or start anew. *)

From S2P Require Import Prelude Vector FrameCodec Os Socket Connection SocketIO Poller Acceptor Dispatcher EchoServer.

Definition Always {K A} (R : relation K) (p : prog K A) : Prop :=
  ∀ k a k', p k = Done a k' → R k k'.

Section always.
Context {K : Type} (R : relation K) `{!PreOrder R}.

Lemma Always_ret {A} (a : A) : Always R (mret a : prog K A).
Proof. by intros k b k' [= _ ->]. Qed.

Lemma Always_bind {A B} (p : prog K A) (f : A → prog K B) :
  Always R p → (∀ a, Always R (f a)) → Always R (p ≫= f).
Proof.
  intros Hp Hf k b k' (a & k1 & E1 & E2)%prog_bind_Done_inv.
  transitivity k1; [by eapply Hp|by eapply Hf].
Qed.

Lemma Always_read {A} (f : K → A) : Always R (read_os f).
Proof. by intros k b k' [= _ ->]. Qed.

Lemma Always_halt {A} s : Always R (halt s : prog K A).
Proof. done. Qed.

Lemma Always_pure {A} (o : outcome A) : Always R (pure_code o : prog K A).
Proof. intros k b k'. destruct o; try done. by intros [= _ ->]. Qed.

Lemma Always_call {A} (f : K → A * K) : (∀ k, R k (f k).2) → Always R (call_os f).
Proof. intros Hf k b k' [= _ <-]. apply Hf. Qed.
End always.

(** ** Relations that the calls keep to

    By what they are for: a program only needs those of the calls it makes. *)

Class CoversIO {K} `{!Kernel K} (R : relation K) := {
  covers_recv s n k : R k (sys_recv s n k).2;
  covers_send s data flags k : R k (sys_send s data flags k).2;
}.

Class CoversClose {K} `{!Kernel K} (R : relation K) := {
  covers_close s k : R k (sys_close s k).2;
}.

Class CoversAccept {K} `{!Kernel K} (R : relation K) := {
  covers_accept s k : R k (sys_accept s k).2;
  covers_getfl s k : R k (sys_fcntl_getfl s k).2;
  covers_setfl s flags k : R k (sys_fcntl_setfl s flags k).2;
}.

Class CoversSelect {K} `{!Kernel K} (R : relation K) := {
  covers_select n sets tv k : R k (sys_select n sets tv k).2;
}.

Class CoversNow {K} `{!Kernel K} (R : relation K) := {
  covers_now k : R k (sys_now k).2;
}.

Class CoversSetUp {K} `{!Kernel K} (R : relation K) := {
  covers_socket f t p k : R k (sys_socket f t p k).2;
  covers_getsockname s k : R k (sys_getsockname s k).2;
  covers_getaddrinfo h p hints flags k : R k (sys_getaddrinfo h p hints flags k).2;
  covers_setsockopt s k : R k (sys_setsockopt_reuseaddr s k).2;
  covers_bind s a k : R k (sys_bind s a k).2;
  covers_listen s b k : R k (sys_listen s b k).2;
}.

(** All but recv(2) and send(2). *)
Class Covers {K} `{!Kernel K} (R : relation K) := {
  covers_preorder :: PreOrder R;
  covers_the_close :: CoversClose R;
  covers_the_accept :: CoversAccept R;
  covers_the_select :: CoversSelect R;
  covers_the_clock :: CoversNow R;
  covers_the_set_up :: CoversSetUp R;
}.

(** Leaves one goal for each call. *)
Ltac cover_calls := constructor; [apply _|constructor..].

Create HintDb footprint.
#[export] Hint Resolve Always_ret Always_read Always_halt Always_pure : footprint.
#[export] Hint Extern 1 (PreOrder _) => apply _ : footprint.
#[export] Hint Extern 1 (CoversIO _) => apply _ : footprint.
#[export] Hint Extern 1 (CoversClose _) => apply _ : footprint.
#[export] Hint Extern 1 (CoversAccept _) => apply _ : footprint.
#[export] Hint Extern 1 (CoversSelect _) => apply _ : footprint.
#[export] Hint Extern 1 (CoversNow _) => apply _ : footprint.
#[export] Hint Extern 1 (CoversSetUp _) => apply _ : footprint.

(** The call is one of those covered. *)
Ltac covered :=
  first [ apply covers_socket | apply covers_accept | apply covers_close | apply covers_getfl
        | apply covers_setfl | apply covers_getsockname | apply covers_select
        | apply covers_getaddrinfo | apply covers_setsockopt | apply covers_bind
        | apply covers_listen | apply covers_now | apply covers_recv | apply covers_send ].

(** Goes through a program: binds, branches and calls. *)
Ltac footprint_steps :=
  repeat first
    [ progress intros
    | solve [eauto with footprint]
    | apply Always_bind; [apply _|..]
    | apply Always_call; intros; covered
    | case_match ].

(** What follows from two relations that are kept to. *)
Ltac covered_by R :=
  first [ apply (covers_socket (R := R)) | apply (covers_accept (R := R)) | apply (covers_close (R := R))
        | apply (covers_getfl (R := R)) | apply (covers_setfl (R := R))
        | apply (covers_getsockname (R := R)) | apply (covers_select (R := R))
        | apply (covers_getaddrinfo (R := R)) | apply (covers_setsockopt (R := R))
        | apply (covers_bind (R := R)) | apply (covers_listen (R := R)) | apply (covers_now (R := R))
        | apply (covers_recv (R := R)) | apply (covers_send (R := R)) ].

Lemma Covers_both {K} `{!Kernel K} (R1 R2 R : relation K) :
  PreOrder R → (∀ k k', R1 k k' → R2 k k' → R k k') → Covers R1 → Covers R2 → Covers R.
Proof. intros ? HR [] []. cover_calls; intros; apply HR; covered_by R1 || covered_by R2. Qed.

Lemma CoversIO_both {K} `{!Kernel K} (R1 R2 R : relation K) :
  (∀ k k', R1 k k' → R2 k k' → R k k') → CoversIO R1 → CoversIO R2 → CoversIO R.
Proof. intros HR ? ?. constructor; intros; apply HR; covered_by R1 || covered_by R2. Qed.

Section network_code.
Context {K : Type} `{!Kernel K, !Build} (R : relation K) `{!PreOrder R, !CoversIO R, !CoversClose R,
  !CoversAccept R, !CoversSelect R, !CoversSetUp R}.

Lemma Always_close sock : Always R (close sock).
Proof. unfold close. footprint_steps. Qed.
#[local] Hint Resolve Always_close : footprint.
Lemma Always_destroy sock : Always R (destroy sock).
Proof. unfold destroy. footprint_steps. Qed.
Lemma Always_set_nonblocking e sock : Always R (set_nonblocking e sock).
Proof. unfold set_nonblocking. footprint_steps. Qed.
#[local] Hint Resolve Always_destroy Always_set_nonblocking : footprint.

Lemma Always_accept_one l : Always R (accept_one l).
Proof. unfold accept_one. footprint_steps. Qed.
#[local] Hint Resolve Always_accept_one : footprint.
Lemma Always_accept_and_register {P} `{!Poller P K} a (p : P) :
  Always R (accept_and_register a p).
Proof. unfold accept_and_register, destroy_connection. footprint_steps. Qed.

Lemma Always_bind_loop ais backlog : Always R (bind_loop ais backlog).
Proof. induction ais; cbn [bind_loop]; footprint_steps. Qed.
#[local] Hint Resolve Always_bind_loop : footprint.
Lemma Always_bind_and_listen host port backlog : Always R (bind_and_listen host port backlog).
Proof. unfold bind_and_listen. footprint_steps. Qed.
Lemma Always_local_port t l : Always R (local_port_v4 t l).
Proof. unfold local_port_v4. footprint_steps. Qed.

Lemma Always_send_retry fuel s data flags : Always R (send_retry fuel s data flags).
Proof. induction fuel; cbn [send_retry]; footprint_steps. Qed.
#[local] Hint Resolve Always_send_retry : footprint.
Lemma Always_flush fuel c : Always R (flush_write_nonblocking fuel c).
Proof. unfold flush_write_nonblocking. footprint_steps. Qed.
Lemma Always_recv_retry fuel s n : Always R (recv_retry fuel s n).
Proof. induction fuel; cbn [recv_retry]; footprint_steps. Qed.
#[local] Hint Resolve Always_recv_retry : footprint.
Lemma Always_receive t fuel c scratch : Always R (receive_nonblocking t fuel c scratch).
Proof. unfold receive_nonblocking. footprint_steps. Qed.
Lemma Always_wait `{!MapOrder Z} out timeout_ms (p : SelectPoller) : Always R (select_wait out timeout_ms p).
Proof. unfold select_wait. footprint_steps. Qed.
End network_code.

#[export] Hint Resolve Always_close Always_destroy Always_set_nonblocking Always_accept_and_register
  Always_bind_and_listen Always_local_port Always_flush Always_receive Always_wait : footprint.

(** ** The server's code *)

Section server_code.
Context {K : Type} `{params : !ServerParams, !Kernel K, !Build, !MapOrder Z, !StopFlag K}.
Context (R : relation K) `{!PreOrder R, !CoversIO R, !CoversClose R, !CoversAccept R, !CoversSelect R,
  !CoversNow R, !CoversSetUp R}.
Context (t : target) (sig : nat).

Lemma Always_remove_slot s i : Always R (remove_slot s i).
Proof. unfold remove_slot, move_assign_connection, move_assign, destroy_connection. footprint_steps. Qed.

Lemma Always_flush_loop fuel c : Always R (flush_loop sig fuel c).
Proof. revert c. induction fuel; intros; cbn [flush_loop]; footprint_steps. Qed.
#[local] Hint Resolve Always_remove_slot Always_flush_loop : footprint.
Lemma Always_try_flush fuel slot p n : Always R (try_flush_writes sig fuel slot p n).
Proof. unfold try_flush_writes. footprint_steps. Qed.
#[local] Hint Resolve Always_try_flush : footprint.
Lemma Always_decode_loop fuel slot p n : Always R (decode_loop t sig fuel slot p n).
Proof. revert slot p n. induction fuel; intros; cbn [decode_loop]; footprint_steps. Qed.
#[local] Hint Resolve Always_decode_loop : footprint.
Lemma Always_read_connection fuel i s : Always R (process_connection_read t sig fuel i s).
Proof. revert s. induction fuel; intros; cbn [process_connection_read]; footprint_steps. Qed.
#[local] Hint Resolve Always_read_connection : footprint.

Lemma Always_handle_write fuel ev s : Always R (handle_write sig fuel ev s).
Proof. unfold handle_write. footprint_steps. Qed.
#[local] Hint Resolve Always_handle_write : footprint.
Lemma Always_accept_loop fuel a s : Always R (accept_loop fuel a s).
Proof. revert s. induction fuel; intros; cbn [accept_loop]; footprint_steps. Qed.
#[local] Hint Resolve Always_accept_loop : footprint.
Lemma Always_handle_event fuel a ev s : Always R (handle_event t sig fuel a ev s).
Proof. unfold handle_event. footprint_steps. Qed.
#[local] Hint Resolve Always_handle_event : footprint.
Lemma Always_handle_events fuel a evs s : Always R (handle_events t sig fuel a evs s).
Proof. revert s. induction evs; intros; cbn [handle_events]; footprint_steps. Qed.
#[local] Hint Resolve Always_handle_events : footprint.

Lemma Always_serve_turn fuel a deadline events s :
  (∀ k, R k (stop_load k).2) → Always R (serve_turn t sig fuel a deadline events s).
Proof.
  intros Hstop. unfold serve_turn. cbn [wait select_poller_ops].
  apply Always_bind; [apply _|apply Always_call; intros; covered|]. intros now. case_match; [footprint_steps|].
  apply Always_bind; [apply _|by apply Always_call|]. footprint_steps.
Qed.

Lemma Always_close_all l p : Always R (close_all l p).
Proof. revert p. induction l; intros; cbn [close_all]; unfold destroy_connection; footprint_steps. Qed.
#[local] Hint Resolve Always_close_all : footprint.
Lemma Always_close_down a port s : Always R (close_down a port s).
Proof. unfold close_down. footprint_steps. Qed.
Lemma Always_set_up : Always R (set_up t).
Proof. unfold set_up. footprint_steps. Qed.
End server_code.

#[export] Hint Resolve Always_remove_slot Always_flush_loop Always_try_flush Always_decode_loop
  Always_read_connection Always_handle_write Always_accept_loop Always_handle_event Always_handle_events
  Always_set_up Always_close_down : footprint.

(** ** What becomes of the socket of a connection

    [Yields Q p]: [Q] holds of what [p] returns. *)

Definition Yields {K A} (Q : A → Prop) (p : prog K A) : Prop := ∀ k a k', p k = Done a k' → Q a.

Section yields.
Context {K : Type}.

Lemma Yields_ret {A} (Q : A → Prop) a : Q a → Yields Q (mret a : prog K A).
Proof. by intros HQ k b k' [= <- _]. Qed.

Lemma Yields_bind {A B} (P : A → Prop) (Q : B → Prop) (p : prog K A) f :
  Yields P p → (∀ a, P a → Yields Q (f a)) → Yields Q (p ≫= f).
Proof.
  intros Hp Hf k b k' (a & k1 & E1 & E2)%prog_bind_Done_inv. eapply Hf; [by eapply Hp|exact E2].
Qed.

Lemma Yields_then {A B} (Q : B → Prop) (p : prog K A) f : (∀ a, Yields Q (f a)) → Yields Q (p ≫= f).
Proof. intros Hf. apply (Yields_bind (λ _, True)); [done|]. intros a _. apply Hf. Qed.

Lemma Yields_halt {A} (Q : A → Prop) s : Yields Q (halt s : prog K A).
Proof. done. Qed.

Lemma Yields_pure {A} (Q : A → Prop) (o : outcome A) :
  (∀ a, o = Ret a → Q a) → Yields Q (pure_code o : prog K A).
Proof. intros Ho k b k'. destruct o; try done. intros [= <- _]. by apply Ho. Qed.
End yields.

Section sockets.
Context {K : Type} `{params : !ServerParams, !Kernel K, !Build, !MapOrder Z} (t : target) (sig : nat).

(** Goes through a program up to the calls whose results matter. *)
Ltac yields_steps :=
  repeat first
    [ progress intros
    | apply Yields_halt
    | apply Yields_ret; try done
    | apply Yields_then
    | case_match ].

Lemma consume_read_socket n c c' : consume_read n c = Ret c' → conn_socket c' = conn_socket c.
Proof. unfold consume_read. destruct (consume n (read_buf_ c)); try done. by intros [= <-]. Qed.
Lemma consume_write_socket n c c' : consume_write n c = Ret c' → conn_socket c' = conn_socket c.
Proof. unfold consume_write. destruct (consume n (write_buf_ c)); try done. by intros [= <-]. Qed.

Lemma flush_socket c :
  Yields (λ r : _ * Connection, conn_socket r.2 = conn_socket c) (flush_write_nonblocking (K := K) sig c).
Proof.
  unfold flush_write_nonblocking. do 2 (case_match; [by apply Yields_ret|]).
  apply Yields_then. intros n. do 2 (case_match; [yields_steps|]).
  apply (Yields_bind (λ c', conn_socket c' = conn_socket c)); [|intros; by apply Yields_ret].
  apply Yields_pure, consume_write_socket.
Qed.

Lemma flush_loop_socket fuel c :
  Yields (λ r : bool * Connection, conn_socket r.2 = conn_socket c) (flush_loop (K := K) sig fuel c).
Proof.
  revert c. induction fuel as [|fuel IH]; intros c; cbn [flush_loop]; [done|].
  eapply Yields_bind; [apply flush_socket|]. intros r Hr. cbn beta in Hr.
  repeat case_match; try apply Yields_halt; try by apply Yields_ret.
  rewrite <- Hr. apply IH.
Qed.

Lemma try_flush_socket fuel slot p n :
  Yields (λ r : ConnSlot * SelectPoller * Z, conn_socket (conn r.1.1) = conn_socket (conn slot))
    (try_flush_writes (K := K) sig fuel slot p n).
Proof.
  unfold try_flush_writes. eapply Yields_bind; [apply flush_loop_socket|]. intros [b c] Hr. simpl in Hr.
  repeat case_match; by apply Yields_ret.
Qed.

Lemma decode_loop_socket fuel slot p n :
  Yields (λ r : ConnSlot * SelectPoller * Z, conn_socket (conn r.1.1) = conn_socket (conn slot))
    (decode_loop (K := K) t sig fuel slot p n).
Proof.
  revert slot p n. induction fuel as [|fuel IH]; intros slot p n; cbn [decode_loop]; [done|].
  apply Yields_then. intros dec. destruct (status dec); try apply Yields_halt; try by apply Yields_ret.
  case_match; [|done]. apply Yields_then. intros r. case_match; [|done].
  eapply Yields_bind; [apply Yields_pure; intros c; apply consume_read_socket|]. intros c Hc. simpl in Hc.
  eapply Yields_bind; [apply try_flush_socket|]. intros [[slot' p'] n'] Hs. simpl in Hs.
  rewrite <- Hc, <- Hs. apply IH.
Qed.

Lemma append_read_socket bs c c' : append_read t bs c = Ret c' → conn_socket c' = conn_socket c.
Proof. rewrite append_read_eq. case_match; [done|by intros [= <-]]. Qed.

Lemma receive_socket c sc :
  Yields (λ r : _ * Connection * list byte, conn_socket r.1.2 = conn_socket c)
    (receive_nonblocking (K := K) t sig c sc).
Proof.
  unfold receive_nonblocking. do 2 (case_match; [by apply Yields_ret|]).
  apply Yields_then. intros r. do 2 (case_match; [yields_steps|]).
  apply (Yields_bind (λ c', conn_socket c' = conn_socket c)); [|intros; by apply Yields_ret].
  apply Yields_pure. intros c'. apply append_read_socket.
Qed.
End sockets.

(** ** No traffic appears *)

#[export] Instance calm_covers {K} `{!Kernel K, !Observe K, !World K, !FiniteWorld K} :
  Covers (K := K) calm.
Proof.
  cover_calls; intros; first
    [ apply socket_finite | apply accept_finite | apply close_finite | apply getfl_finite
    | apply setfl_finite | apply getsockname_finite | apply select_finite
    | apply getaddrinfo_finite | apply setsockopt_finite | apply bind_finite
    | apply listen_finite | apply now_finite ].
Qed.

#[export] Instance calm_covers_io {K} `{!Kernel K, !Observe K, !World K, !FiniteWorld K} :
  CoversIO (K := K) calm.
Proof. constructor; intros; [apply recv_finite|apply send_finite]. Qed.

(** ** Streams are left alone or start anew *)

Section resets.
Context {K : Type} `{!Kernel K, !Observe K, !KernelLaws K}.

Definition resets (k k' : K) : Prop := ∀ s,
  (received k' s = received k s ∧ sent k' s = sent k s) ∨ (received k' s = [] ∧ sent k' s = []).

#[export] Instance resets_preorder : PreOrder resets.
Proof.
  split; [by left|]. intros x y z H1 H2 s.
  destruct (H2 s) as [[-> ->]|?]; [apply H1|by right].
Qed.

Lemma same_streams_resets k k' : same_streams k k' → resets k k'.
Proof. intros H s. by left. Qed.

Lemma keeps_resets k k' : keeps k k' → resets k k'.
Proof. intros [_ H]. by apply same_streams_resets. Qed.

Lemma opens_resets r k k' : opens r k k' → resets k k'.
Proof.
  intros (Hn & _ & Hp & Hs) s. destruct (decide (s = r)) as [->|]; [|by left; apply Hs].
  destruct (Z.ltb_spec r 0); [by apply keeps_resets, Hn|]. right. by apply Hp.
Qed.

#[export] Instance resets_covers : Covers resets.
Proof.
  cover_calls; intros.
  - apply same_streams_resets, close_law.
  - eapply opens_resets, accept_law.
  - apply keeps_resets, getfl_law.
  - apply keeps_resets, setfl_law.
  - apply keeps_resets, (select_law n sets tv k).
  - apply keeps_resets, now_law.
  - eapply opens_resets, socket_law.
  - apply keeps_resets, getsockname_law.
  - apply keeps_resets, getaddrinfo_law.
  - apply keeps_resets, setsockopt_law.
  - apply keeps_resets, bind_law.
  - apply keeps_resets, listen_law.
Qed.
End resets.
