(* ===== verification/EchoWorld.v ===== *)
(** * A world in which nothing fails

    The echo server ends the process when a call fails in a way it does not
    expect, and when a peer announces an oversized frame.  [GoodWorld] is the
    environment in which neither happens: calls on open descriptors only fail
    because they would block, or, for recv(2) and send(2), because a signal
    interrupts them, and what a peer sends is frames within the limit. *)

From S2P Require Import Prelude Vector FrameCodec Os Socket Connection SocketIO Poller Acceptor Dispatcher.
From S2P Require Import EchoServer Footprint.

(** A payload within the limit. *)
Definition small `{params : !ServerParams} (p : list byte) : Prop :=
  len p ≤ effective_max_payload k_max_payload.

(** The beginning of a stream of frames within the limit. *)
Definition polite `{params : !ServerParams} (bs : list byte) : Prop :=
  ∃ ps, bs `prefix_of` frames ps ∧ Forall (λ p, len p ≤ effective_max_payload k_max_payload) ps.

(** [good] holds from now on, whatever is called; and what it promises. *)
Class GoodWorld (K : Type) `{params : !ServerParams, !Kernel K, !Observe K} := {
  good : K → Prop;
  is_listener : Z → Prop;
  good_covers :: Covers (λ k k', good k → good k');
  good_covers_io :: CoversIO (λ k k', good k → good k');
  good_polite k s : good k → s ∈ open_fds k → polite (received k s);
  good_recv s n k : good k → s ∈ open_fds k → (sys_recv s n k).1.1 < 0 →
    errno (sys_recv s n k).2 = EINTR ∨ errno (sys_recv s n k).2 = EAGAIN;
  good_send s data flags k : good k → s ∈ open_fds k → data ≠ [] →
    (sys_send s data flags k).1 ≠ 0 ∧
    ((sys_send s data flags k).1 < 0 →
     errno (sys_send s data flags k).2 = EINTR ∨ errno (sys_send s data flags k).2 = EAGAIN);
  good_accept s k : good k → is_listener s → s ∈ open_fds k → (sys_accept s k).1 < 0 →
    errno (sys_accept s k).2 = EAGAIN;
  good_getfl s k : good k → s ∈ open_fds k → 0 ≤ (sys_fcntl_getfl s k).1;
  good_setfl s flags k : good k → s ∈ open_fds k → 0 ≤ flags → (sys_fcntl_setfl s flags k).1 = 0;
  good_select n sets tv k : good k →
    (∀ s, s ∈ readfds sets ∪ writefds sets ∪ exceptfds sets → s ∈ open_fds k) →
    0 ≤ (sys_select n sets tv k).1.1;
}.

(** ** Frames and their beginnings *)

Lemma small_u32 `{params : !ServerParams} (p : list byte) : len p ≤ effective_max_payload k_max_payload → in_u 32 (len p).
Proof. unfold in_u, effective_max_payload, uint32_max. lia. Qed.

(** What is left after whole frames is the beginning of a frame within the
    limit. *)
Lemma polite_rest `{params : !ServerParams} ps rb :
  polite (frames ps ++ rb) → Forall (λ p, len p ≤ effective_max_payload k_max_payload) ps →
  polite rb.
Proof.
  intros (qs & Hpre & Hqs) Hps. revert qs Hpre Hqs.
  induction Hps as [|p ps Hp Hps IH]; intros qs [rest E] Hqs.
  { exists qs. split; [by exists rest|done]. }
  change (frames (p :: ps)) with (frame p ++ frames ps) in E.
  rewrite <- !app_assoc in E. destruct Hqs as [|q qs Hq Hqs]; [done|].
  change (frames (q :: qs)) with (frame q ++ frames qs) in E.
  apply frame_app_inj in E as [_ E]; [|by apply small_u32..].
  apply (IH qs); [|done]. exists rest. by rewrite <- app_assoc.
Qed.

(** What is left of frames after whole frames is frames. *)
Lemma frames_rest `{params : !ServerParams} ps qs rb :
  frames ps = frames qs ++ rb → Forall (λ p, len p ≤ effective_max_payload k_max_payload) ps →
  Forall (λ p, len p ≤ effective_max_payload k_max_payload) qs →
  ∃ rs, rb = frames rs ∧ Forall (λ p, len p ≤ effective_max_payload k_max_payload) rs.
Proof.
  intros E Hps Hqs. revert ps E Hps. induction Hqs as [|q qs Hq Hqs IH]; intros ps E Hps; [by exists ps|].
  change (frames (q :: qs)) with (frame q ++ frames qs) in E. rewrite <- app_assoc in E.
  destruct Hps as [|p ps Hp Hps]; [done|].
  change (frames (p :: ps)) with (frame p ++ frames ps) in E.
  apply frame_app_inj in E as [_ E]; [|by apply small_u32..]. by apply (IH ps).
Qed.

Lemma polite_not_oversized `{params : !ServerParams} n rest :
  in_u 32 n → effective_max_payload k_max_payload < n → ¬ polite (be32 n ++ rest).
Proof.
  intros Hn Hlt (qs & [r E] & Hqs). destruct Hqs as [|q qs Hq _]; [done|].
  change (frames (q :: qs)) with (frame q ++ frames qs) in E. rewrite <- app_assoc in E.
  symmetry in E. apply be32_frame_head in E as [-> _]; [lia|done|by apply small_u32].
Qed.

Section good.
Context {K : Type} `{params : !ServerParams, !Kernel K, !Observe K, !KernelLaws K, !World K, !FiniteWorld K,
  !GoodWorld K, !Build, !MapOrder Z}.

(** ** Progress

    Nothing new is coming, and the world stays good. *)
Definition progress (k k' : K) : Prop :=
  (traffic k' ≤ traffic k)%nat ∧ (∀ d, looks_left d k' ≤ looks_left d k)%nat ∧
  (signals k' ≤ signals k)%nat ∧ (good k → good k').

Lemma progress_intro k k' : calm k k' → (good k → good k') → progress k k'.
Proof. intros (? & ? & ?) ?. by split; [|split]. Qed.

#[export] Instance progress_preorder : PreOrder progress.
Proof.
  split; [by split; [|split]|]. intros x y z (H1 & H2 & H3 & H4) (H1' & H2' & H3' & H4').
  split; [lia|]. split; [|split; [lia|auto]].
  intros d. specialize (H2 d). specialize (H2' d). lia.
Qed.

#[export] Instance progress_covers : Covers progress.
Proof. apply (Covers_both _ _ _ _ progress_intro); apply _. Qed.

#[export] Instance progress_covers_io : CoversIO progress.
Proof. apply (CoversIO_both _ _ _ progress_intro); apply _. Qed.

(** ** What the calls of the server answer *)

Lemma good_recv_retry fuel s n k r bs k' :
  good k → s ∈ open_fds k → recv_retry fuel s n k = Done (r, bs) k' → r < 0 → errno k' = EAGAIN.
Proof.
  revert k. induction fuel as [|fuel IH]; intros k Hg Hs; [done|]. cbn [recv_retry].
  unfold mbind, prog_bind, call_os, read_os.
  pose proof (recv_law s n k) as (_ & _ & Ho & _).
  pose proof (covers_recv (R := λ k k', good k → good k') s n k Hg) as Hg1.
  pose proof (good_recv s n k Hg Hs) as He.
  destruct (sys_recv s n k) as [[r1 b1] k1]. simpl in *.
  destruct (Z.ltb_spec r1 0) as [Hr|Hr]; simpl; [|intros [= <- <- <-]; lia].
  destruct (Z.eqb_spec (errno k1) EINTR); [apply IH; [done|by rewrite Ho]|].
  intros [= <- <- <-] _. by destruct (He Hr).
Qed.

Lemma good_send_retry fuel s data flags k r k' :
  good k → s ∈ open_fds k → data ≠ [] → send_retry fuel s data flags k = Done r k' →
  r ≠ 0 ∧ (r < 0 → errno k' = EAGAIN).
Proof.
  intros Hg Hs Hd. revert k Hg Hs. induction fuel as [|fuel IH]; intros k Hg Hs; [done|].
  cbn [send_retry]. unfold mbind, prog_bind, call_os, read_os.
  pose proof (send_law s data flags k) as (_ & Ho & _).
  pose proof (covers_send (R := λ k k', good k → good k') s data flags k Hg) as Hg1.
  pose proof (good_send s data flags k Hg Hs Hd) as [Hne He].
  destruct (sys_send s data flags k) as [r1 k1]. simpl in *.
  destruct (Z.ltb_spec r1 0) as [Hr|Hr]; simpl; [|intros [= <- <-]; split; [done|lia]].
  destruct (Z.eqb_spec (errno k1) EINTR); [apply IH; [done|by rewrite Ho]|].
  intros [= <- <-]. split; [done|]. intros _. by destruct (He Hr).
Qed.

(** A receiving call fails for want of bytes, or at the end of the stream. *)
Lemma good_receive t fuel c scratch k e r k' :
  good k → conn_handle c ∈ open_fds k → valid (conn_socket c) = true → scratch ≠ [] →
  receive_nonblocking t fuel c scratch k = Done (Unexpected e, r.1, r.2) k' →
  recv_code e = RecvErrorCode.WouldBlock ∨ recv_code e = RecvErrorCode.Closed.
Proof.
  intros Hg Hs Hv Hsc. unfold receive_nonblocking. rewrite decide_False, Hv by done. cbn [negb].
  intros ([r1 b1] & k1 & E1 & E)%prog_bind_Done_inv. cbn [fst snd] in E.
  destruct (Z.ltb_spec r1 0) as [Hr|Hr].
  - pose proof (good_recv_retry _ _ _ _ _ _ _ Hg Hs E1 Hr) as He.
    unfold mbind, prog_bind, read_os in E. rewrite He in E. injection E as <- _ _ _. by left.
  - destruct (r1 =? 0); [injection E as <- _ _ _; by right|].
    by apply prog_bind_Done_inv in E as (? & ? & _ & ?).
Qed.

(** A sending call only fails because the socket is full. *)
Lemma good_flush fuel c k e c' k' :
  good k → conn_handle c ∈ open_fds k → valid (conn_socket c) = true →
  flush_write_nonblocking fuel c k = Done (Unexpected e, c') k' →
  send_code e = SendErrorCode.WouldBlock.
Proof.
  intros Hg Hs Hv. unfold flush_write_nonblocking. destruct (Vec.is_empty (write_buf_ c)) eqn:Hemp; [done|].
  rewrite Hv. cbn [negb]. intros (r1 & k1 & E1 & E)%prog_bind_Done_inv.
  assert (vdata (write_buf_ c) ≠ []) as Hd by (unfold Vec.is_empty in Hemp; by case_bool_decide).
  destruct (good_send_retry _ _ _ _ _ _ _ Hg Hs Hd E1) as [Hne He].
  destruct (Z.ltb_spec r1 0) as [Hr|Hr].
  - unfold mbind, prog_bind, read_os in E. rewrite (He Hr) in E. by injection E as <- _ _.
  - rewrite (proj2 (Z.eqb_neq _ _)) in E by done.
    by apply prog_bind_Done_inv in E as (? & ? & _ & ?).
Qed.

(** Accepting only fails because nobody is there. *)
Lemma good_accept_and_register a (p : SelectPoller) k e p' k' :
  good k → is_listener (listener_handle a) → listener_handle a ∈ open_fds k → 0 ≤ listener_handle a →
  accept_and_register a p k = Done (Unexpected e, p') k' →
  accept_would_block (accept_native_error e) = true.
Proof.
  intros Hg Hl Ho Hpos. unfold accept_and_register, accept_one.
  assert (valid (listener_sock (listener_ a)) = true) as ->
    by (apply bool_decide_eq_true_2; unfold listener_handle, native_handle, k_invalid_socket in *; lia).
  cbn [negb]. unfold mbind, prog_bind, call_os, read_os.
  change (native_handle (listener_sock (listener_ a))) with (listener_handle a).
  pose proof (good_accept _ k Hg Hl Ho) as He. pose proof (accept_law (listener_handle a) k) as Hop.
  pose proof (covers_accept (R := λ k k', good k → good k') (listener_handle a) k Hg) as Hg1.
  destruct (sys_accept (listener_handle a) k) as [s k1]. simpl in *.
  destruct (Z.ltb_spec s 0) as [Hs|Hs].
  { rewrite (He Hs). by intros [= <- _ _]. }
  destruct Hop as (_ & _ & Hop & _). destruct (Hop Hs) as (Hopen & _).
  assert (s ∈ open_fds k1) as Hin by (rewrite Hopen, elem_of_union, elem_of_singleton; by left).
  unfold set_nonblocking, mbind, prog_bind, call_os. simpl.
  assert (valid (mkSocket s) = true) as -> by (apply bool_decide_eq_true_2; simpl; unfold k_invalid_socket; lia).
  cbn [negb]. unfold native_handle. simpl.
  pose proof (good_getfl s k1 Hg1 Hin) as Hf. pose proof (getfl_law s k1) as ([Hopen2 _] & _).
  pose proof (covers_getfl (R := λ k k', good k → good k') s k1 Hg1) as Hg2.
  destruct (sys_fcntl_getfl s k1) as [flags k2]. simpl in *.
  rewrite (proj2 (Z.ltb_ge _ _)) by done.
  set (new_flags := Z.lor _ _).
  assert (0 ≤ new_flags) by (apply Z.lor_nonneg; by split).
  pose proof (good_setfl s new_flags k2 Hg2 ltac:(by rewrite Hopen2) ltac:(done)) as Hz.
  destruct (sys_fcntl_setfl s new_flags k2) as [rc k3]. simpl in *. subst rc. simpl.
  unfold conn_handle, native_handle. simpl. unfold select_upsert.
  rewrite decide_False by (unfold k_invalid_socket; lia). done.
Qed.

(** Waiting does not fail when everything registered is open. *)
Lemma good_wait out timeout_ms (p : SelectPoller) k e evs k' :
  good k → pollable p → out ≠ [] → (∀ s, is_Some (interest_ p !! s) → s ∈ open_fds k) →
  wait out timeout_ms p k ≠ Done (Unexpected e, evs) k'.
Proof.
  intros Hg Hp Hout Hreg.
  destruct (select_wait_run p out timeout_ms k Hp Hout) as (nfds & sets & Hr & Hw & Hx & _ & E).
  simpl. rewrite E. clear E. cbv zeta.
  assert (0 ≤ (sys_select nfds sets (select_timeout timeout_ms) k).1.1) as Hz.
  { apply good_select; [done|]. intros s.
    intros [[(m & Hm & _)%Hr|(m & Hm & _)%Hw]%elem_of_union|(m & Hm & _)%Hx]%elem_of_union;
      apply Hreg; by exists m. }
  rewrite (proj2 (Z.ltb_ge _ _)) by done. by destruct (_ =? 0).
Qed.
End good.

(** ** A good [Sim]

    Every answer left is a success, what peers send is zeros (each four of them
    an empty frame), and there are enough descriptors for who may connect. *)
Module GoodSim.

Definition zeros (bs : list byte) : Prop := Forall (λ b, b = x00) bs.

Definition benign (a : answer) : Prop :=
  match a with
  | Give z => 1 ≤ z
  | Data bs => zeros bs
  | Fail _ => False
  | Ready _ _ _ | Addrs _ | Block => True
  end.

Record good (k : sim) : Prop := {
  gs_script : Forall benign (script k);
  gs_received s : zeros (Sim.at_ (sim_received k) s);
  gs_flags s : 0 ≤ default 0 (sim_flags k !! s);
  gs_room : script k = [] ∨ 3 * len (script k) + Sim.fresh_fd k ≤ Sim.RLIMIT_NOFILE;
}.

Lemma zeros_polite `{params : !ServerParams} bs : zeros bs → polite bs.
Proof.
  intros Hz. assert (bs = replicate (length bs) x00) as ->.
  { induction Hz as [|b bs -> _ IH]; simpl; [done|by f_equal]. }
  generalize (length bs). intros n. exists (replicate n []). split.
  - assert (frames (replicate n []) = replicate (4 * n) x00) as ->.
    { induction n as [|n IH]; [done|].
      change (frames (replicate (S n) [])) with (frame [] ++ frames (replicate n [])).
      rewrite IH, Nat.mul_succ_r, Nat.add_comm, replicate_add. done. }
    exists (replicate (3 * n) x00). by rewrite <- replicate_add.
  - apply Forall_replicate. unfold effective_max_payload, uint32_max. simpl.
    pose proof max_payload_nonneg. lia.
Qed.

Lemma fresh_fd_le k b : Sim.fresh_fd k ≤ b ↔ 3 ≤ b ∧ ∀ x, x ∈ sim_open k → 3 + x ≤ b.
Proof.
  unfold Sim.fresh_fd. setoid_rewrite <- elem_of_elements.
  induction (elements (sim_open k)) as [|x l IH]; simpl.
  - split; [|lia]. intros. split; [lia|]. by intros ? ?%elem_of_nil.
  - setoid_rewrite elem_of_cons. split.
    + intros Hb. destruct (proj1 IH) as [? Hl]; [lia|]. split; [done|].
      intros y [->|Hy]; [lia|by apply Hl].
    + intros [H3 Hl]. pose proof (Hl x (or_introl eq_refl)).
      pose proof (proj2 IH (conj H3 (λ y Hy, Hl y (or_intror Hy)))). lia.
Qed.

(** What [good] depends on. *)
Lemma good_same k k' :
  script k' = script k → sim_received k' = sim_received k → sim_open k' ⊆ sim_open k →
  (∀ s, 0 ≤ default 0 (sim_flags k' !! s)) → good k → good k'.
Proof.
  intros Es Er Eo Hf [H1 H2 _ H3]. constructor; rewrite ?Es, ?Er; try done.
  destruct H3 as [H3|H3]; [by left|]. right.
  assert (Sim.fresh_fd k' ≤ Sim.fresh_fd k); [|lia].
  apply fresh_fd_le. destruct (proj1 (fresh_fd_le k (Sim.fresh_fd k))) as [? Hx]; [lia|].
  split; [done|]. intros x ?%Eo. by apply Hx.
Qed.

Lemma good_next k :
  good k → good (Sim.next k).2 ∧
  match (Sim.next k).1 with
  | Some a => benign a ∧ 3 * len (script (Sim.next k).2) + Sim.fresh_fd (Sim.next k).2 + 3 ≤ Sim.RLIMIT_NOFILE
  | None => script (Sim.next k).2 = []
  end.
Proof.
  intros [H1 H2 Hf H3]. unfold Sim.next. destruct (script k) as [|a l] eqn:E; simpl.
  { split; [|done]. constructor; rewrite ?E; auto. }
  apply Forall_cons in H1 as [Ha Hl]. destruct H3 as [?|H3]; [done|].
  change (Sim.fresh_fd (Sim.set_script l k)) with (Sim.fresh_fd k).
  split; [constructor; simpl; [done|done|done|right]|split; [done|]]; simpl in *;
    change (Sim.fresh_fd (Sim.set_script l k)) with (Sim.fresh_fd k); lia.
Qed.

Lemma good_open_fd k :
  good k → script k = [] ∨ 3 * len (script k) + Sim.fresh_fd k + 3 ≤ Sim.RLIMIT_NOFILE →
  good (Sim.open_fd k).2.
Proof.
  intros [H1 H2 Hfl _] Hroom. unfold Sim.open_fd.
  destruct (Z.leb_spec Sim.RLIMIT_NOFILE (Sim.fresh_fd k)); simpl.
  { constructor; [done|done|done|]. destruct Hroom as [?|?]; [by left|]. simpl. lia. }
  constructor; simpl; [done| | |].
  - intros s. rewrite at_delete. case_decide; [constructor|done].
  - intros s. rewrite lookup_insert. by case_decide.
  - destruct Hroom as [?|Hroom]; [by left|]. right.
    assert (Sim.fresh_fd (Sim.set_open ({[Sim.fresh_fd k]} ∪ sim_open k) k) ≤ Sim.fresh_fd k + 3) as Hf.
    { pose proof (proj1 (fresh_fd_le k (Sim.fresh_fd k)) ltac:(lia)) as [? Hx].
      apply fresh_fd_le. split; [lia|]. simpl. intros x.
      rewrite elem_of_union, elem_of_singleton. intros [->|Hin]; [lia|]. specialize (Hx x Hin). lia. }
    unfold Sim.fresh_fd in *. simpl in *. lia.
Qed.

(** What [good] does not depend on. *)
Lemma good_but k k' :
  good k → script k' = script k → sim_received k' = sim_received k → sim_open k' = sim_open k →
  sim_flags k' = sim_flags k → good k'.
Proof.
  intros Hg Es Er Eo Ef. apply (good_same k); [done|done|by rewrite Eo| |done].
  rewrite Ef. apply Hg.
Qed.

(** A call that takes an answer and changes nothing [good] depends on. *)
Ltac takes_one k Hg :=
  pose proof (good_next k Hg) as [Hn _]; destruct (Sim.next k) as [a k1]; simpl in *;
  repeat (case_match; simplify_eq/=); try done; by apply (good_but k1).

Lemma good_status_call k : good k → good (Sim.status_call k).2.
Proof. intros Hg. unfold Sim.status_call. takes_one k Hg. Qed.

(** Opening a descriptor for the answer just taken. *)
Lemma good_after_next k a k1 :
  good k → Sim.next k = (a, k1) → good k1 ∧ good (Sim.open_fd k1).2.
Proof.
  intros Hg E. pose proof (good_next k Hg) as [Hn Ha]. rewrite E in *. simpl in *.
  split; [done|]. apply good_open_fd; [done|]. destruct a; [right; apply Ha|by left].
Qed.

#[export] Instance sim_covers : Covers (K := sim) (λ k k', good k → good k').
Proof.
  constructor; [split; [by intros ? ?|by intros ? ? ? ? ? ?; auto]|constructor..];
    intros; simpl in *; rename select (good k) into Hg.
  - unfold Sim.close. pose proof (good_status_call k Hg) as Hn.
    destruct (Sim.status_call k) as [r k1]. simpl in *.
    apply (good_same k1); [done|done| |apply Hn|done].
    simpl. intros x. rewrite elem_of_difference. tauto.
  - unfold Sim.accept. destruct (Sim.next k) as [a k1] eqn:E.
    destruct (good_after_next k a k1) as [H1 H2]; [done..|].
    destruct a as [[]|]; try done; by apply (good_but k1).
  - unfold Sim.getfl. pose proof (good_status_call k Hg). by destruct (Sim.status_call k).
  - unfold Sim.setfl. pose proof (good_status_call k Hg) as Hn.
    destruct (Sim.status_call k) as [r k1]. simpl in *.
    destruct (Z.ltb_spec flags 0); [by apply (good_but k1)|]. destruct (r <? 0); [done|].
    apply (good_same k1); [done|done|done| |done].
    intros x. simpl. rewrite lookup_insert. case_decide; [done|apply Hn].
  - unfold Sim.select. takes_one k Hg.
  - by apply (good_but k).
  - unfold Sim.socket. destruct (Sim.next k) as [a k1] eqn:E.
    destruct (good_after_next k a k1) as [H1 H2]; [done..|].
    destruct a as [[]|]; try done. by apply (good_but k1).
  - unfold Sim.getsockname. takes_one k Hg.
  - unfold Sim.getaddrinfo. takes_one k Hg.
  - by apply good_status_call.
  - by apply good_status_call.
  - by apply good_status_call.
Qed.

Lemma zeros_app bs bs' : zeros (bs ++ bs') ↔ zeros bs ∧ zeros bs'.
Proof. apply Forall_app. Qed.

#[export] Instance sim_covers_io : CoversIO (K := sim) (λ k k', good k → good k').
Proof.
  constructor; intros; simpl in *; rename select (good k) into Hg;
    pose proof (good_next k Hg) as [Hn Ha].
  - unfold Sim.recv. destruct (Sim.next k) as [a k1]. simpl in *.
    destruct a as [[|bs| | | | ]|]; simpl; try by apply (good_but k1).
    destruct Hn as [H1 H2 H3 H4]. constructor; simpl; try done.
    intros x. rewrite at_insert. case_decide; [|done].
    apply zeros_app. split; [done|]. by apply Forall_take, Ha.
  - unfold Sim.send. destruct (Sim.next k) as [a k1]. simpl in *.
    destruct a as [[]|]; simpl; by apply (good_but k1).
Qed.

(** Calls that only succeed or fail do not fail. *)
Lemma status_call_good k : good k → (Sim.status_call k).1 = 0.
Proof.
  intros Hg. unfold Sim.status_call. pose proof (good_next k Hg) as [_ Ha].
  destruct (Sim.next k) as [[[]|] k1]; simpl in *; try done. by destruct Ha.
Qed.

Lemma recv_good s n k :
  good k → (Sim.recv s n k).1.1 < 0 → sim_errno (Sim.recv s n k).2 = EAGAIN.
Proof.
  intros Hg. unfold Sim.recv. pose proof (good_next k Hg) as [_ Ha].
  destruct (Sim.next k) as [[[]|] k1]; simpl in *; try done; [lia|]. by destruct Ha.
Qed.

Lemma send_good s data k :
  good k → data ≠ [] →
  (Sim.send s data k).1 ≠ 0 ∧
  ((Sim.send s data k).1 < 0 → sim_errno (Sim.send s data k).2 = EAGAIN).
Proof.
  intros Hg Hd. unfold Sim.send. pose proof (good_next k Hg) as [_ Ha].
  assert (0 < len data) by (destruct data; [done|len_lia]).
  destruct (Sim.next k) as [[[]|] k1]; simpl in *; try done; try (split; [len_lia|intros; len_lia]).
Qed.

Lemma accept_good k :
  good k → (Sim.accept k).1 < 0 → sim_errno (Sim.accept k).2 = EAGAIN.
Proof.
  intros Hg. unfold Sim.accept. pose proof (good_next k Hg) as [_ Ha].
  destruct (Sim.next k) as [a k1] eqn:E. simpl in *.
  assert (∀ b, a = Some b → 0 ≤ (Sim.open_fd k1).1) as Hopen.
  { intros b ->. destruct Ha as [_ Ha]. unfold Sim.open_fd. pose proof (fresh_fd_nonneg k1).
    rewrite (proj2 (Z.leb_gt _ _)) by len_lia. done. }
  destruct a as [b|]; [|done]. specialize (Hopen b eq_refl).
  destruct b; first [done | simpl; lia | by destruct Ha].
Qed.

End GoodSim.

#[export, refine] Instance sim_good `{params : !ServerParams} : GoodWorld sim := {|
  good := GoodSim.good;
  is_listener _ := True;
  good_covers := GoodSim.sim_covers;
  good_covers_io := GoodSim.sim_covers_io;
|}.
Proof.
  - intros k s Hg _. apply GoodSim.zeros_polite, Hg.
  - intros s n k Hg _ Hr. right. by apply GoodSim.recv_good.
  - intros s data flags k Hg _ Hd. destruct (GoodSim.send_good s data k Hg Hd). simpl. auto.
  - intros s k Hg _ _. by apply GoodSim.accept_good.
  - intros s k Hg _. simpl. unfold Sim.getfl. pose proof (GoodSim.status_call_good k Hg) as Hz.
    pose proof (GoodSim.good_status_call k Hg) as [_ _ Hf _].
    destruct (Sim.status_call k) as [r k1]. simpl in *. subst r. apply Hf.
  - intros s flags k Hg _ Hp. simpl. unfold Sim.setfl. pose proof (GoodSim.status_call_good k Hg).
    destruct (Sim.status_call k) as [r k1]. simpl in *. subst r.
    by rewrite (proj2 (Z.ltb_ge flags 0)).
  - intros n sets tv k Hg _. simpl. unfold Sim.select. pose proof (GoodSim.good_next k Hg) as [_ Ha].
    destruct (Sim.next k) as [[[]|] k1]; simpl in *; try done; [by destruct Ha|lia].
Defined.
