(* ===== verification/EchoInvariant.v ===== *)
(** * What the echo server does to its connections

    The invariant of the event loop of EchoServer.v and that every handler
    keeps it; that the loop, and the server, come to an end in a finite world;
    and that nothing is left open. *)

From S2P Require Import Prelude Vector FrameCodec Os Socket Connection SocketIO Poller Acceptor Dispatcher.
From S2P Require Import EchoServer Footprint EchoWorld.

(** ** What a connection echoes *)

(** [wb] and [rb] are what a connection with descriptor [h] holds to send and
    to decode: the bytes received are whole frames, then [rb]; the bytes sent,
    then [wb], are the same frames. *)
Definition echoes {K} `{params : !ServerParams, !Observe K} (k : K) (h : Z) (rb wb : list byte) : Prop :=
  ∃ ps, received k h = frames ps ++ rb ∧ sent k h ++ wb = frames ps ∧
    Forall (λ p, len p ≤ effective_max_payload k_max_payload) ps.

Section with_kernel.
Context {K : Type} `{params : !ServerParams, !Kernel K, !Observe K, !KernelLaws K, !World K, !FiniteWorld K,
  !GoodWorld K, !MapOrder Z, !StopFlag K, !Build}.
Context (t : target) (sig : nat).
Hypothesis codec_fits : fits t k_max_payload.

(** [fine]: the world is a good one. Then the server does not give up; if it is
    not, the server may end with [std::abort], and in no other way. *)
Context (fine : Prop).
Definition aborts : stop → Prop := λ s, s = Killed ∧ ¬ fine.

(** What the poller is to watch the listener for; nothing, once it has been
    unregistered. *)
Context (reg : option Z).

(** Before a handler runs. *)
Definition ready (k : K) : Prop := (signals k < sig)%nat ∧ (fine → good k).

Lemma ready_progress k k' : ready k → progress k k' → ready k'.
Proof. intros [? ?] (_ & _ & ? & ?). split; [lia|auto]. Qed.

Lemma abort_unless (k : K) (Q : Prop) : ready k → (fine → good k → Q) → ¬ Q → aborts Killed.
Proof. intros [_ Hg] Hgq Hn. split; [done|]. intros Hf. by apply Hn, Hgq, Hg. Qed.

(** Only the streams of [h] have changed, and nothing new is coming. *)
Record touches (h : Z) (k k' : K) : Prop := {
  to_open : open_fds k' = open_fds k;
  to_others s : s ≠ h → received k' s = received k s ∧ sent k' s = sent k s;
  to_progress : progress k k';
}.

#[local] Instance touches_preorder h : PreOrder (touches h).
Proof.
  split; [by constructor|]. intros x y z [E1 S1 C1] [E2 S2 C2]. constructor.
  - by rewrite E2.
  - intros s Hs. destruct (S1 s Hs) as [<- <-]. by apply S2.
  - by transitivity y.
Qed.

Lemma sent_on_touches h bs k k' : sent_on h bs k k' → progress k k' → touches h k k'.
Proof. intros [] ?. constructor; [done| |done]. intros s Hs. by split; [apply so_received|apply so_other]. Qed.

Lemma received_on_touches h bs k k' : received_on h bs k k' → progress k k' → touches h k k'.
Proof. intros [] ?. constructor; [done| |done]. intros s Hs. by split; [apply ro_other|apply ro_sent]. Qed.

Lemma echoes_same k k' h rb wb :
  received k' h = received k h → sent k' h = sent k h → echoes k h rb wb → echoes k' h rb wb.
Proof. intros E1 E2 (ps & ?). exists ps. by rewrite E1, E2. Qed.

Lemma echoes_prefix k h rb wb : echoes k h rb wb → sent k h `prefix_of` received k h.
Proof. intros (ps & -> & E & _). exists (wb ++ rb). by rewrite app_assoc, E. Qed.

(** ** Sending *)

Lemma valid_handle sock : 0 ≤ socket_ sock → valid sock = true.
Proof. intros. unfold valid. rewrite bool_decide_true; [done|]. unfold k_invalid_socket. lia. Qed.

(** The loop ends with the buffer empty or the socket full; bytes go from the
    buffer to the stream, and nowhere else. *)
Lemma flush_loop_spec fuel c k :
  ready k → (length (vdata (write_buf_ c)) < fuel)%nat →
  0 ≤ conn_handle c → conn_handle c ∈ open_fds k →
  wp aborts (flush_loop sig fuel c) k (λ r k',
    conn_socket r.2 = conn_socket c ∧ read_buf_ r.2 = read_buf_ c ∧
    sent k' (conn_handle c) ++ vdata (write_buf_ r.2) = sent k (conn_handle c) ++ vdata (write_buf_ c) ∧
    received k' (conn_handle c) = received k (conn_handle c) ∧
    (length (vdata (write_buf_ r.2)) ≤ length (vdata (write_buf_ c)))%nat ∧
    r.1 = negb (Vec.is_empty (write_buf_ r.2)) ∧ touches (conn_handle c) k k').
Proof.
  revert c k. induction fuel as [|fuel IH]; intros c k Hrd Hf Hh Hopen; [lia|].
  cbn [flush_loop]. apply wp_bind.
  destruct (flush_run sig c k (proj1 Hrd)) as (res & k1 & E & Hon & Ha).
  pose proof (Always_flush progress sig c k _ _ E) as Hcalm. unfold wp at 1. rewrite E. simpl.
  pose proof (sent_on_touches _ _ _ _ Hon Hcalm) as Ht.
  destruct Hon as [Ho1 Hsent _ Hrec Hsg].
  destruct res as [n|e]; simpl in *.
  - destruct Ha as [Hn Ha]. unfold Vec.size in Hn.
    destruct (Z.eqb_spec n 0) as [->|Hne].
    + destruct (Vec.is_empty (write_buf_ c)) eqn:Hemp; [|lia]. destruct Ha as [_ ->].
      apply wp_ret. unfold Vec.is_empty in *. simpl. rewrite drop_0, Hemp. done.
    + destruct (Vec.is_empty (write_buf_ c)) eqn:Hemp; [lia|]. destruct Ha as [Hpos Hv].
      eapply wp_mono; [apply IH|].
      * by eapply ready_progress.
      * simpl. rewrite length_drop. lia.
      * done.
      * by rewrite Ho1.
      * intros r k' (H1 & H2 & H3 & H4 & H5 & H6 & H7). simpl in *.
        unfold conn_handle in *. simpl in *.
        split; [done|]. split; [done|]. split.
        { rewrite H3, Hsent, <- app_assoc. f_equal. apply take_drop. }
        split; [by rewrite H4, Hrec|]. split; [rewrite length_drop in H5; lia|].
        split; [done|]. by transitivity k1.
  - destruct Ha as [Hemp Ha]. case_bool_decide as Hcode.
    2: { eapply (abort_unless k); [done| |exact Hcode]. intros _ Hg.
         by eapply good_flush; [..|exact E]; [done|done|apply valid_handle]. }
    apply wp_ret. unfold Vec.is_empty in *. simpl. rewrite drop_0, Hemp.
    rewrite take_0, app_nil_r in Hsent. by rewrite Hsent.
Qed.

(** What a slot is registered for. *)
Definition interest_of (slot : ConnSlot) : Z :=
  if Vec.is_empty (write_buf_ (conn slot)) then EventMask.Read else read_write.

Abbreviation handle slot := (conn_handle (conn slot)).
Abbreviation rbuf slot := (vdata (read_buf_ (conn slot))).
Abbreviation wbuf slot := (vdata (write_buf_ (conn slot))).

(** The slot as the handlers leave it. *)
Record slot_ok (k : K) (slot : ConnSlot) : Prop := {
  sl_handle : 0 ≤ handle slot;
  sl_open : handle slot ∈ open_fds k;
  sl_echoes : echoes k (handle slot) (rbuf slot) (wbuf slot);
  sl_waiting : awaiting_reply_flush slot = negb (Vec.is_empty (write_buf_ (conn slot)));
}.

Definition no_frame_left (slot : ConnSlot) : Prop :=
  status (decode_ref (rbuf slot) k_max_payload) = Incomplete.

(** What a handler does to a slot and its registration. *)
Record slot_step (slot slot' : ConnSlot) (p p' : SelectPoller) (k k' : K) : Prop := {
  st_socket : conn_socket (conn slot') = conn_socket (conn slot);
  st_ok : slot_ok k' slot';
  st_interest : interest_ p' = <[handle slot := interest_of slot']> (interest_ p);
  st_size : (length (wbuf slot') + length (rbuf slot') ≤ length (wbuf slot) + length (rbuf slot))%nat;
  st_left : (length (rbuf slot') ≤ length (rbuf slot))%nat;
  st_touches : touches (handle slot) k k';
}.

Lemma select_upsert_ok (h m : Z) (p : SelectPoller) :
  0 ≤ h → interest_ (upsert (K := K) h m p).2 = <[h := m]> (interest_ p).
Proof. intros Hh. simpl. unfold select_upsert. rewrite decide_False; [done|]. unfold k_invalid_socket. lia. Qed.

Lemma try_flush_spec fuel slot p completed k :
  ready k → (length (wbuf slot) < fuel)%nat → 0 ≤ handle slot → handle slot ∈ open_fds k →
  echoes k (handle slot) (rbuf slot) (wbuf slot) →
  (Vec.is_empty (write_buf_ (conn slot)) = false → awaiting_reply_flush slot = true) →
  wp aborts (try_flush_writes sig fuel slot p completed) k (λ r k',
    slot_step slot r.1.1 p r.1.2 k k' ∧ read_buf_ (conn r.1.1) = read_buf_ (conn slot)).
Proof.
  intros Hsig Hf Hh Hopen Hecho Hwait. unfold try_flush_writes. apply wp_bind.
  eapply wp_mono; [by apply flush_loop_spec|].
  intros [blocked c] k' (Hs & Hr & Hsent & Hrec & Hle & Hb & Ht). simpl in *.
  assert (conn_handle c = handle slot) as Ehc by (unfold conn_handle; by rewrite Hs).
  assert (echoes k' (handle slot) (vdata (read_buf_ c)) (vdata (write_buf_ c))) as Hecho'.
  { destruct Hecho as (ps & E1 & E2 & E3). exists ps. rewrite Hrec, Hr, Hsent. done. }
  assert (∀ slot' m, conn slot' = c → m = interest_of slot' →
    awaiting_reply_flush slot' = negb (Vec.is_empty (write_buf_ c)) →
    slot_step slot slot' p (upsert (K := K) (conn_handle c) m p).2 k k') as Hstep.
  { intros slot' m Hc Hm Hw. constructor; rewrite ?Hc; try done.
    - constructor; rewrite ?Hc, ?Ehc; [done| |done|done]. by destruct Ht as [-> _ _].
    - rewrite Ehc, select_upsert_ok, Hm by done. done.
    - rewrite Hr. lia.
    - by rewrite Hr. }
  destruct (Vec.is_empty (write_buf_ c)) eqn:Hemp; rewrite Hb; simpl; apply wp_ret; simpl;
    (split; [|done]); apply Hstep; simpl; unfold interest_of; simpl; rewrite ?Hemp; try done.
  apply Hwait. apply not_true_is_false. intros He.
  assert (vdata (write_buf_ c) = []) as Hwb0.
  { apply length_zero_iff_nil. unfold Vec.is_empty in He. apply bool_decide_eq_true in He.
    rewrite He in Hle. simpl in Hle. lia. }
  unfold Vec.is_empty in Hemp. by rewrite Hwb0 in Hemp.
Qed.

Lemma slot_step_trans s1 s2 s3 p1 p2 p3 k1 k2 k3 :
  slot_step s1 s2 p1 p2 k1 k2 → slot_step s2 s3 p2 p3 k2 k3 → slot_step s1 s3 p1 p3 k1 k3.
Proof.
  intros [Hs1 Ho1 Hi1 Hz1 Hl1 Ht1] [Hs2 Ho2 Hi2 Hz2 Hl2 Ht2].
  assert (handle s2 = handle s1) as Eh by (unfold conn_handle; by rewrite Hs1).
  rewrite Eh in *. constructor; try done.
  - by rewrite Hs2.
  - by rewrite Hi2, Hi1, insert_insert_eq.
  - lia.
  - lia.
  - by transitivity k2.
Qed.

Lemma slot_step_refl slot p k :
  slot_ok k slot → interest_ p !! handle slot = Some (interest_of slot) → slot_step slot slot p p k k.
Proof. intros Hok Hi. constructor; try done. by rewrite insert_id. Qed.

(** Taking one frame from the read buffer and putting its echo in the write
    buffer. *)
Lemma echoes_frame k h q rest wb :
  len q ≤ effective_max_payload k_max_payload →
  echoes k h (frame q ++ rest) wb → echoes k h rest (wb ++ frame q).
Proof.
  intros Hq (ps & E1 & E2 & E3). exists (ps ++ [q]). rewrite frames_snoc.
  split; [by rewrite E1, app_assoc|]. split; [by rewrite app_assoc, E2|].
  apply Forall_app_2; [done|]. by apply Forall_singleton.
Qed.

(** One turn of the decoding loop, when a whole frame is there. *)
Lemma decode_one fuel slot p completed k q rest :
  rbuf slot = frame q ++ rest → len q ≤ effective_max_payload k_max_payload →
  Z.of_nat (length (wbuf slot) + length (rbuf slot)) ≤ max_size t →
  decode_loop t sig (S fuel) slot p completed k =
    (let slot1 := mkSlot (mkConn (conn_socket (conn slot)) (state_ (conn slot))
        (mkVec rest (vcap (read_buf_ (conn slot))))
        (mkVec (wbuf slot ++ frame q)
           (Z.max (vcap (write_buf_ (conn slot))) (Vec.size (write_buf_ (conn slot)) + 4 + len q)))) true in
     let p1 := (upsert (K := K) (handle slot) read_write p).2 in
     try_flush_writes sig fuel slot1 p1 completed ≫= λ f,
       let '(slot, p, completed) := f in decode_loop t sig fuel slot p completed) k.
Proof.
  intros Hrb Hq Hsz. cbn [decode_loop].
  rewrite Hrb, length_app, frame_length in Hsz.
  rewrite (prog_bind_Done _ _ _ (mkResult Complete (4 + len q) q) k)
    by (by rewrite try_decode_frame_is_ref, Hrb, decode_ref_frame).
  cbn [status payload consumed_bytes echo_dispatch].
  rewrite (prog_bind_Done _ _ _ (Val (), mkVec (wbuf slot ++ frame q)
    (Z.max (vcap (write_buf_ (conn slot))) (Vec.size (write_buf_ (conn slot)) + 4 + len q))) k).
  2: { rewrite append_encoded_frame_eq by (unfold Vec.size; lia).
       by rewrite (proj2 (Z.ltb_ge _ _)) by done. }
  cbn [fst snd].
  rewrite (prog_bind_Done _ _ _ (mkConn (conn_socket (conn slot)) (state_ (conn slot))
        (mkVec rest (vcap (read_buf_ (conn slot))))
        (mkVec (wbuf slot ++ frame q)
           (Z.max (vcap (write_buf_ (conn slot))) (Vec.size (write_buf_ (conn slot)) + 4 + len q)))) k).
  2: { unfold consume_read. cbn [with_write read_buf_].
       rewrite consume_drop; [|lia|right; unfold Vec.size; rewrite Hrb, length_app, frame_length; lia].
       assert (drop (Z.to_nat (4 + len q)) (rbuf slot) = rest) as ->; [|done].
       rewrite Hrb. apply drop_app_length'. rewrite frame_length. lia. }
  reflexivity.
Qed.

Lemma decode_loop_spec fuel slot p completed k :
  ready k → (length (wbuf slot) + 2 * length (rbuf slot) < fuel)%nat →
  Z.of_nat (length (wbuf slot) + length (rbuf slot)) ≤ max_size t →
  slot_ok k slot → interest_ p !! handle slot = Some (interest_of slot) →
  wp aborts (decode_loop t sig fuel slot p completed) k (λ r k',
    slot_step slot r.1.1 p r.1.2 k k' ∧ no_frame_left r.1.1).
Proof.
  revert slot p completed k. induction fuel as [|fuel IH]; intros slot p completed k Hsig Hf Hsz Hok Hi; [lia|].
  destruct (decode_ref_cases (rbuf slot) k_max_payload)
    as [(q & rest & Hrb & Hq & E)|[(n&rest&Hrb&Hn&Hlt&E)|[[? E]|(?&?&?&?&?&E)]]].
  - unfold wp. rewrite (decode_one fuel slot p completed k q rest) by done.
    cbn zeta. set (slot1 := mkSlot _ true). set (p1 := (upsert _ _ _).2).
    change (wp aborts (try_flush_writes sig fuel slot1 p1 completed ≫= λ f,
      let '(slot, p, completed) := f in decode_loop t sig fuel slot p completed) k (λ r k',
      slot_step slot r.1.1 p r.1.2 k k' ∧ no_frame_left r.1.1)).
    destruct Hok as [Hh Hop Hecho Hw].
    assert (length (rbuf slot) = (4 + length q + length rest)%nat) as Hlen
      by (rewrite Hrb, length_app, frame_length; lia).
    assert (interest_ p1 = <[handle slot := read_write]> (interest_ p)) as Hp1
      by (by apply select_upsert_ok).
    apply wp_bind. eapply wp_mono; [apply try_flush_spec|]; try done.
    + unfold slot1. simpl. rewrite length_app, frame_length. lia.
    + unfold slot1. simpl. apply echoes_frame; [done|]. by rewrite <- Hrb.
    + intros [[slot2 p2] c2] k2 [Hst Hrd]. simpl in *.
      assert (slot_step slot slot2 p p2 k k2 ∧ rbuf slot2 = rest ∧
        (length (wbuf slot2) ≤ length (wbuf slot) + 4 + length q)%nat) as (Hst' & Hrest & Hwl).
      { destruct Hst as [Hs1 Ho1 Hi1 Hz1 Hl1 Ht1]. simpl in *.
        rewrite length_app, frame_length in Hz1. rewrite Hrd in *. simpl in *.
        split; [|split; [done|lia]]. constructor; try done.
        - change (conn_handle {| conn_socket := _ |}) with (handle slot) in Hi1.
          by rewrite Hi1, Hp1, insert_insert_eq.
        - rewrite Hrd. simpl. lia.
        - rewrite Hrd. simpl. lia. }
      pose proof Hst' as [Hs1 Ho1 Hi1 Hz1 Hl1 Ht1].
      eapply wp_mono; [apply IH|].
      * eapply ready_progress; [done|apply Ht1].
      * rewrite Hrest. lia.
      * lia.
      * done.
      * rewrite Hi1. unfold conn_handle. rewrite Hs1. by rewrite lookup_insert_eq.
      * intros r k' [Hst2 Hno]. split; [|done]. by eapply slot_step_trans.
  - unfold wp, decode_loop. rewrite try_decode_frame_is_ref, E by done. simpl.
    destruct (sl_echoes _ _ Hok) as (ps & Hrec & _ & Hps).
    pose proof (polite_not_oversized n rest Hn Hlt) as Hov. rewrite <- Hrb in Hov.
    eapply (abort_unless k); [done| |exact Hov]. intros _ Hg. apply (polite_rest ps); [|done].
    rewrite <- Hrec. by apply good_polite, Hok.
  - unfold wp, decode_loop. rewrite try_decode_frame_is_ref, E by done. simpl.
    split; [by apply slot_step_refl|]. unfold no_frame_left. simpl. by rewrite E.
  - unfold wp, decode_loop. rewrite try_decode_frame_is_ref, E by done. simpl.
    split; [by apply slot_step_refl|]. unfold no_frame_left. simpl. by rewrite E.
Qed.

(** ** The invariant of the event loop

    [O] are the descriptors open when the server started, [L] the listener. *)
Definition handles (s : server) : list Z := (λ sl, handle sl) <$> slots s.

Record server_ok (O : gset Z) (L : Z) (s : server) (k : K) : Prop := {
  sv_slots : Forall (λ sl, slot_ok k sl ∧ no_frame_left sl) (slots s);
  sv_distinct : NoDup (handles s);
  sv_open x : x ∈ open_fds k ↔ x ∈ O ∨ x = L ∨ x ∈ handles s;
  sv_fresh h : h ∈ handles s → (h ∉ O) ∧ h ≠ L ∧ h < FD_SETSIZE;
  sv_listener : (L ∉ O) ∧ 0 ≤ L < FD_SETSIZE;
  sv_listening : interest_ (poller s) !! L = reg;
  sv_registered : Forall (λ sl, interest_ (poller s) !! handle sl = Some (interest_of sl)) (slots s);
  sv_only h : is_Some (interest_ (poller s) !! h) → h = L ∨ h ∈ handles s;
  sv_scratch : scratch s ≠ [];
  sv_echo h : h ∉ O → sent k h `prefix_of` received k h;
}.

(** Bytes a connection buffers, what its processing can still cost, and the
    same for the whole server with what is still to come. *)
Definition slot_volume (sl : ConnSlot) : nat := length (wbuf sl) + length (rbuf sl).
Definition slot_work (sl : ConnSlot) : nat := 1 + length (wbuf sl) + 2 * length (rbuf sl).
Definition volume (s : server) (k : K) : nat := sum_list (slot_volume <$> slots s) + traffic k.
Definition work (s : server) (k : K) : nat := sum_list (slot_work <$> slots s) + 3 * traffic k.

(** Nothing grows. *)
Record shrinks (s s' : server) (k k' : K) : Prop := {
  shr_progress : progress k k';
  shr_volume : (volume s' k' ≤ volume s k)%nat;
  shr_work : (work s' k' ≤ work s k)%nat;
}.

Lemma shrinks_trans s1 s2 s3 k1 k2 k3 :
  shrinks s1 s2 k1 k2 → shrinks s2 s3 k2 k3 → shrinks s1 s3 k1 k3.
Proof. intros [] []. constructor; [by transitivity k2|lia|lia]. Qed.

Lemma slot_ok_other h k k' sl : touches h k k' → handle sl ≠ h → slot_ok k sl → slot_ok k' sl.
Proof.
  intros [Hop Ho _] Hne [H1 H2 H3 H4]. constructor; [done|by rewrite Hop| |done].
  destruct (Ho _ Hne). by eapply echoes_same.
Qed.

(** A handler that works on one slot keeps the invariant. *)
Lemma server_ok_update O L s k i slot slot' p' sc' c' k' :
  server_ok O L s k → slots s !! i = Some slot →
  conn_socket (conn slot') = conn_socket (conn slot) → slot_ok k' slot' →
  interest_ p' = <[handle slot := interest_of slot']> (interest_ (poller s)) →
  touches (handle slot) k k' → no_frame_left slot' → length sc' = length (scratch s) →
  server_ok O L (mkServer (<[i := slot']> (slots s)) p' sc' c') k'.
Proof.
  intros [] Hi Hs Hok Hint Ht Hno Hsc.
  assert (handle slot' = handle slot) as Eh by (unfold conn_handle; by rewrite Hs).
  assert ((λ sl, handle sl) <$> <[i := slot']> (slots s) = handles s) as Ehs.
  { unfold handles. rewrite list_fmap_insert, Eh. apply list_insert_id.
    by rewrite list_lookup_fmap, Hi. }
  assert (handle slot ∈ handles s) as Hin.
  { apply list_elem_of_fmap. exists slot. split; [done|]. by eapply list_elem_of_lookup_2. }
  assert (∀ j sl, <[i := slot']> (slots s) !! j = Some sl →
    (sl = slot') ∨ (handle sl ≠ handle slot ∧ slots s !! j = Some sl)) as Hcases.
  { intros j sl [(-> & <- & _)|[Hne Hj]]%list_lookup_insert_Some; [by left|]. right.
    split; [|done]. intros E. apply Hne.
    eapply (NoDup_lookup (handles s)); [done|..]; unfold handles; rewrite list_lookup_fmap;
      [by rewrite Hi|rewrite Hj; simpl; by rewrite E]. }
  constructor; simpl; unfold handles; simpl; rewrite ?Ehs; try done.
  - apply Forall_lookup. intros j sl Hj. destruct (Hcases j sl Hj) as [->|[Hne Hj']]; [done|].
    eapply Forall_lookup_1 in sv_slots0 as [Hok1 Hn1]; [|exact Hj'].
    split; [|done]. by eapply slot_ok_other.
  - intros x. destruct Ht as [-> _ _]. apply sv_open0.
  - rewrite Hint. destruct (sv_fresh0 _ Hin) as (_ & Hne & _). by rewrite lookup_insert_ne.
  - apply Forall_lookup. intros j sl Hj. destruct (Hcases j sl Hj) as [->|[Hne Hj']].
    + by rewrite Hint, Eh, lookup_insert_eq.
    + rewrite Hint, lookup_insert_ne by done. by eapply Forall_lookup_1 in sv_registered0.
  - intros h. rewrite Hint. destruct (decide (h = handle slot)) as [->|Hne]; [by right|].
    rewrite lookup_insert_ne by done. apply sv_only0.
  - intros E. rewrite E in Hsc. by destruct (scratch s).
  - intros h Hh. destruct (decide (h = handle slot)) as [->|Hne].
    + rewrite <- Eh. by eapply echoes_prefix, Hok.
    + destruct Ht as [_ Hoth _]. destruct (Hoth h Hne) as [-> ->]. by apply sv_echo0.
Qed.

(** ** Removing a slot *)

Lemma insert_swap {A} (l : list A) i x y : l !! i = Some x → x :: <[i := y]> l ≡ₚ y :: l.
Proof.
  revert i. induction l as [|z l IH]; intros [|i] Hi; simplify_eq/=.
  - apply Permutation_swap.
  - rewrite Permutation_swap, (IH i Hi). apply Permutation_swap.
Qed.

Lemma close_run sock k :
  ∃ r k', close sock k = Done (r, no_socket) k' ∧ progress k k' ∧ same_streams k k' ∧
    open_fds k' = (if valid sock then open_fds k ∖ {[socket_ sock]} else open_fds k).
Proof.
  destruct (close_spec sock k) as (r & k' & E & Ho & Hs). exists r, k'.
  split; [done|]. split; [by eapply (Always_close progress)|]. done.
Qed.

Lemma destroy_run sock k :
  ∃ k', destroy sock k = Done () k' ∧ progress k k' ∧ same_streams k k' ∧
    open_fds k' = (if valid sock then open_fds k ∖ {[socket_ sock]} else open_fds k).
Proof.
  destruct (close_run sock k) as (r & k' & E & ?). exists k'. split; [|done].
  unfold destroy. by rewrite (prog_bind_Done _ _ _ _ _ E).
Qed.

(** The slot's socket is closed, its registration erased, and the others are
    all still there. *)
Lemma remove_slot_run s i slot k :
  slots s !! i = Some slot → 0 ≤ handle slot →
  ∃ rest k', remove_slot s i k =
      Done (mkServer rest (mkPoller (delete (handle slot) (interest_ (poller s)))) (scratch s) (completions s)) k' ∧
    slots s ≡ₚ slot :: rest ∧ progress k k' ∧ same_streams k k' ∧
    open_fds k' = open_fds k ∖ {[handle slot]}.
Proof.
  destruct s as [all p sc c]. simpl. intros Hi Hh. unfold remove_slot.
  cbn [slots poller with_poller with_slots scratch completions]. rewrite Hi.
  destruct all as [|back l _] using rev_ind; [done|].
  rewrite last_snoc, length_app. change (length [back]) with 1%nat.
  replace (length l + 1 - 1)%nat with (length l) by lia.
  pose proof (lookup_lt_Some _ _ _ Hi) as Hlt. rewrite length_app in Hlt. simpl in Hlt.
  case_bool_decide as Hcase.
  - rewrite lookup_app_l in Hi by lia.
    destruct (close_run (conn_socket (conn slot)) k) as (r & k1 & E1 & C1 & S1 & O1).
    destruct (destroy_run no_socket k1) as (k2 & E2 & C2 & S2 & O2).
    assert (move_assign_connection (conn slot) (conn back) k =
      Done (conn back, mkConn no_socket (state_ (conn back)) Vec.empty Vec.empty) k1) as Em.
    { unfold move_assign_connection, move_assign, mbind, prog_bind. rewrite E1.
      by destruct (conn back) as [[h] st rb wb]. }
    rewrite (prog_bind_Done _ _ _ _ _ Em). cbn [fst snd].
    rewrite (prog_bind_Done _ _ _ _ _ E2).
    exists (<[i := back]> l), k2. split.
    + rewrite insert_app_l by lia. rewrite take_app_length' by (by rewrite length_insert).
      by destruct back.
    + split; [rewrite (insert_swap _ _ _ back Hi); apply Permutation_app_comm|].
      split; [by transitivity k1|]. split; [by transitivity k1|].
      rewrite O2. change (valid no_socket) with false. cbn iota. by rewrite O1, valid_handle.
  - destruct (destroy_run (conn_socket (conn back)) k) as (k1 & E1 & C1 & S1 & O1).
    assert (i = length l) as -> by lia.
    rewrite lookup_app_r, Nat.sub_diag in Hi by lia. simpl in Hi. simplify_eq.
    rewrite (prog_bind_Done _ _ _ _ _ E1).
    exists l, k1. split; [by rewrite take_app_length|].
    split; [apply Permutation_app_comm|]. split; [done|]. split; [done|].
    by rewrite O1, valid_handle by done.
Qed.

(** The one call it makes. *)
Lemma close_calls sock r k k' :
  close sock k = Done r k' → k' = if valid sock then (sys_close (socket_ sock) k).2 else k.
Proof.
  unfold close, valid. destruct sock as [h]. simpl. case_decide as Hh.
  - intros [= _ <-]. by rewrite bool_decide_false by auto.
  - rewrite bool_decide_true by done. unfold mbind, prog_bind, call_os, read_os.
    destruct (sys_close h k) as [rc k1]. simpl. by destruct (negb _); intros [= _ <-].
Qed.

Lemma remove_slot_calls s i slot k s' k' :
  slots s !! i = Some slot → 0 ≤ handle slot →
  remove_slot s i k = Done s' k' → k' = (sys_close (handle slot) k).2.
Proof.
  destruct s as [all p sc c]. simpl. intros Hi Hh. unfold remove_slot.
  cbn [slots poller with_poller with_slots scratch completions]. rewrite Hi.
  destruct all as [|back l _] using rev_ind; [done|].
  rewrite last_snoc, length_app. change (length [back]) with 1%nat.
  pose proof (lookup_lt_Some _ _ _ Hi) as Hlt. rewrite length_app in Hlt. simpl in Hlt.
  pose proof (valid_handle _ Hh) as Hv.
  case_bool_decide as Hcase.
  - intros (r & k1 & E1 & E)%prog_bind_Done_inv. apply prog_bind_Done_inv in E as (u & k2 & E2 & E).
    injection E as _ <-. unfold move_assign_connection, move_assign in E1.
    apply prog_bind_Done_inv in E1 as (m & k0 & E1 & E). injection E as <- <-.
    apply prog_bind_Done_inv in E1 as (cl & k3 & E1 & E). injection E as <- <-.
    apply close_calls in E1. rewrite Hv in E1.
    unfold destroy_connection, destroy in E2. apply prog_bind_Done_inv in E2 as (cl' & k4 & E2 & E).
    injection E as _ <-. apply close_calls in E2. by rewrite E2.
  - intros (u & k1 & E1 & E)%prog_bind_Done_inv. injection E as _ <-.
    unfold destroy_connection, destroy in E1. apply prog_bind_Done_inv in E1 as (cl & k2 & E1 & E).
    injection E as _ <-. apply close_calls in E1.
    assert (i = length l) as -> by lia.
    rewrite lookup_app_r, Nat.sub_diag in Hi by lia. simpl in Hi. injection Hi as ->. by rewrite Hv in E1.
Qed.

(** What is left after a slot is gone, whatever became of its buffers. *)
Lemma server_ok_removed O L s k slot rest sc' c' k' :
  server_ok O L s k → slots s ≡ₚ slot :: rest →
  open_fds k' = open_fds k ∖ {[handle slot]} → progress k k' →
  (∀ x, x ≠ handle slot → received k' x = received k x ∧ sent k' x = sent k x) →
  sent k' (handle slot) `prefix_of` received k' (handle slot) →
  length sc' = length (scratch s) →
  server_ok O L (mkServer rest (mkPoller (delete (handle slot) (interest_ (poller s)))) sc' c') k'.
Proof.
  intros [] Hperm Ho Hc Hs Hpre Hsc.
  assert (handles s ≡ₚ handle slot :: ((λ sl, handle sl) <$> rest)) as Hph
    by (unfold handles; by rewrite Hperm).
  rewrite Hph in sv_distinct0. apply NoDup_cons in sv_distinct0 as [Hnot Hnd].
  rewrite Hperm in sv_slots0, sv_registered0.
  apply Forall_cons in sv_slots0 as [_ Hslots]. apply Forall_cons in sv_registered0 as [_ Hreg].
  assert (∀ h, h ∈ handles s ↔ h = handle slot ∨ h ∈ (λ sl, handle sl) <$> rest) as Hin
    by (intros h; by rewrite Hph, elem_of_cons).
  destruct (sv_fresh0 (handle slot)) as (HO & HL & Hlt); [by apply Hin; left|].
  constructor; simpl; unfold handles; simpl; try done.
  - rewrite Forall_forall in Hslots |- *. intros sl Hsl. destruct (Hslots sl Hsl) as [Hok ?].
    split; [|done]. destruct Hok as [H1 H2 H3 H4].
    assert (handle sl ≠ handle slot) as Hne
      by (intros E; apply Hnot; rewrite <- E; apply list_elem_of_fmap; by exists sl).
    constructor; [done| | |done].
    + rewrite Ho, elem_of_difference, elem_of_singleton. done.
    + destruct (Hs (handle sl) Hne). by eapply echoes_same.
  - intros x. rewrite Ho, elem_of_difference, elem_of_singleton, sv_open0, Hin.
    split; [tauto|]. intros Hx. split; [tauto|]. intros ->. tauto.
  - intros h Hh. apply sv_fresh0, Hin. by right.
  - by rewrite lookup_delete_ne.
  - rewrite Forall_forall in Hreg |- *. intros sl Hsl.
    rewrite lookup_delete_ne; [by apply Hreg|]. intros E. apply Hnot. rewrite E.
    apply list_elem_of_fmap. by exists sl.
  - intros h. rewrite lookup_delete_is_Some. intros [Hne Hh].
    apply sv_only0 in Hh as [?|Hh]; [by left|]. apply Hin in Hh as [?|?]; [done|by right].
  - intros E. rewrite E in Hsc. by destruct (scratch s).
  - intros h Hh. destruct (decide (h = handle slot)) as [->|Hne]; [done|].
    destruct (Hs h Hne) as [-> ->]. by apply sv_echo0.
Qed.

Lemma shrinks_removed s slot rest p' sc' c' k k' :
  slots s ≡ₚ slot :: rest → progress k k' → shrinks s (mkServer rest p' sc' c') k k'.
Proof.
  intros Hperm Hc. pose proof Hc as (? & _ & _).
  constructor; [done|..]; unfold volume, work; simpl; rewrite Hperm, sum_list_cons; lia.
Qed.

(** ** Reading *)

Lemma recv_retry_traffic fuel s n k r bs k' :
  recv_retry fuel s n k = Done (r, bs) k' → (traffic k' + length bs ≤ traffic k)%nat.
Proof.
  revert k. induction fuel as [|fuel IH]; intros k; [done|]. cbn [recv_retry].
  unfold mbind, prog_bind, call_os, read_os.
  pose proof (recv_finite s n k) as [_ Ht].
  destruct (sys_recv s n k) as [[r1 b1] k1]. simpl in *.
  destruct (_ && _); [intros E%IH; lia|by intros [= <- <- <-]].
Qed.

Lemma recv_answer_traffic s n k r bs k' :
  recv_answer s n k r bs k' → (traffic k' + length bs ≤ traffic k)%nat.
Proof.
  induction 1 as [k r bs k' E _|k r0 b0 k1 r bs k' E _ _ _ IH];
    pose proof (recv_finite s n k) as [_ Ht]; rewrite E in Ht; simpl in Ht; lia.
Qed.

(** A receiving call on a connection whose buffer has room for the traffic to
    come: it returns. *)
Lemma receive_fits c sc k :
  ready k → Vec.size (read_buf_ c) + Z.of_nat (traffic k) ≤ max_size t →
  ∃ res bs sc' k',
    receive_nonblocking t sig c sc k =
      Done (res, (match res with Val _ => grown_read bs c | Unexpected _ => c end), sc') k' ∧
    length sc' = length sc ∧ received_on (conn_handle c) bs k k' ∧
    receive_answer c sc k res bs k' ∧ (traffic k' + length bs ≤ traffic k)%nat.
Proof.
  intros Hrd Hfit. destruct (receive_run t sig c sc k (proj1 Hrd)) as (res & bs & sc' & k' & E & Hsc & Hon & Ha).
  assert (traffic k' + length bs ≤ traffic k)%nat as Htr.
  { pose proof Ha as Ha'. unfold receive_answer in Ha'.
    case_match; [destruct Ha' as (-> & -> & _); simpl; lia|].
    case_match; [destruct Ha' as (-> & -> & _); simpl; lia|].
    destruct Ha' as (r & Hans & _). by eapply recv_answer_traffic. }
  exists res, bs, sc', k'. rewrite E. unfold overflows. split; [|done].
  destruct res; [|done]. by rewrite (proj2 (Z.ltb_ge _ _)) by lia.
Qed.

Lemma in_handles s i slot : slots s !! i = Some slot → handle slot ∈ handles s.
Proof.
  intros Hi. apply list_elem_of_fmap. exists slot. split; [done|]. by eapply list_elem_of_lookup_2.
Qed.

Lemma volume_slot s k i slot : slots s !! i = Some slot → (slot_volume slot + traffic k ≤ volume s k)%nat.
Proof. intros Hi. pose proof (sum_list_lookup slot_volume _ _ _ Hi). unfold volume. lia. Qed.

Lemma shrinks_update s s' k k' i slot slot' p' sc' c' :
  slots s !! i = Some slot → s' = mkServer (<[i := slot']> (slots s)) p' sc' c' → progress k k' →
  (slot_volume slot' + traffic k' ≤ slot_volume slot + traffic k)%nat →
  (slot_work slot' + 3 * traffic k' ≤ slot_work slot + 3 * traffic k)%nat →
  shrinks s s' k k'.
Proof.
  intros Hi -> Hc Hv Hw. constructor; [done|..]; unfold volume, work; simpl.
  - pose proof (sum_list_insert slot_volume _ _ _ slot' Hi). lia.
  - pose proof (sum_list_insert slot_work _ _ _ slot' Hi). lia.
Qed.

Lemma slot_facts O L s k i slot :
  server_ok O L s k → slots s !! i = Some slot →
  slot_ok k slot ∧ no_frame_left slot ∧ interest_ (poller s) !! handle slot = Some (interest_of slot).
Proof.
  intros [] Hi.
  eapply Forall_lookup_1 in sv_slots0 as [? ?]; [|exact Hi].
  eapply Forall_lookup_1 in sv_registered0; [|exact Hi]. done.
Qed.

(** What the handler of a readable connection leaves, and what ended it: [recv]
    had no more, or answered 0 and the descriptor was closed. *)
Definition read_done O L (s : server) (k : K) i slot (r : server * ReadOutcome) (k' : K) : Prop :=
  server_ok O L r.1 k' ∧ shrinks s r.1 k k' ∧
  match r.2 with
  | ReadOk =>
      (∃ slot', conn_socket (conn slot') = conn_socket (conn slot) ∧
                slots r.1 = <[i := slot']> (slots s)) ∧
      ∃ k1, recv_drained (handle slot) (len (scratch s)) k1 k'
  | PeerClosed =>
      open_fds k' = open_fds k ∖ {[handle slot]} ∧
      ∃ k1 k2, recv_answer (handle slot) (len (scratch s)) k1 0 [] k2 ∧
        k' = (sys_close (handle slot) k2).2
  end.

(** The outcomes of one receiving call on the slot, which turned [k] into
    [k1] and the scratch buffer into [sc]. *)
Section received.
Context (O : gset Z) (L : Z) (s : server) (k k1 : K) (i : nat) (slot : ConnSlot).
Context (bs sc : list byte).
Hypothesis Hok : server_ok O L s k.
Hypothesis Hi : slots s !! i = Some slot.
Hypothesis Hsc : length sc = length (scratch s).
Hypothesis Hon : received_on (handle slot) bs k k1.
Hypothesis Hcalm : progress k k1.

(** The slot with the bytes that arrived. *)
Lemma chunk_slot_ok : slot_ok k1 (mkSlot (grown_read bs (conn slot)) (awaiting_reply_flush slot)).
Proof.
  destruct (slot_facts _ _ _ _ _ _ Hok Hi) as ([H1 H2 (ps & E1 & E2 & E3) H3] & _). destruct Hon as [Ho Hh _ Hs _].
  constructor; [done|by rewrite Ho| |done]. exists ps. simpl.
  change (conn_handle (grown_read bs (conn slot))) with (handle slot).
  rewrite Hh, Hs, E1, app_assoc. done.
Qed.

(** Bytes arrived: they are decoded and answered. *)
Lemma read_chunk fuel :
  ready k → (traffic k1 + length bs ≤ traffic k)%nat → (0 < length bs)%nat →
  (slot_work slot + 3 * traffic k ≤ fuel)%nat → Z.of_nat (volume s k) ≤ max_size t →
  wp aborts (decode_loop t sig fuel (mkSlot (grown_read bs (conn slot)) (awaiting_reply_flush slot))
      (poller s) (completions s)) k1 (λ d k2,
    let s2 := mkServer (<[i := d.1.1]> (slots s)) d.1.2 sc d.2 in
    server_ok O L s2 k2 ∧ shrinks s s2 k k2 ∧
    conn_socket (conn d.1.1) = conn_socket (conn slot) ∧ open_fds k2 = open_fds k ∧
    (slot_work d.1.1 + 3 * traffic k2 < slot_work slot + 3 * traffic k)%nat).
Proof.
  intros Hsig Htr Hbs Hf Hv. destruct (slot_facts _ _ _ _ _ _ Hok Hi) as (Hslot & _ & Hint).
  pose proof (volume_slot s k i slot Hi) as Hvs.
  set (slot1 := mkSlot (grown_read bs (conn slot)) (awaiting_reply_flush slot)).
  assert (rbuf slot1 = rbuf slot ++ bs) as Hrb by done.
  pose proof chunk_slot_ok as Hok1. fold slot1 in Hok1.
  pose proof (received_on_touches _ _ _ _ Hon Hcalm) as Ht.
  assert (length (rbuf slot1) = (length (rbuf slot) + length bs)%nat) as Hlen
    by (by rewrite Hrb, length_app).
  unfold slot_volume, slot_work in *.
  eapply wp_mono; [apply decode_loop_spec|].
  - by eapply ready_progress.
  - rewrite Hlen. change (wbuf slot1) with (wbuf slot). lia.
  - rewrite Hlen. change (wbuf slot1) with (wbuf slot). lia.
  - done.
  - done.
  - intros [[slot2 p2] c2] k2 [[Hs2 Ho2 Hi2 Hz2 Hl2 Ht2] Hno2]. cbn [fst snd] in *.
    change (wbuf slot1) with (wbuf slot) in Hz2. change (handle slot1) with (handle slot) in *.
    pose proof Ht2 as [_ _ (Htr2 & _ & _)].
    assert (progress k k2) as Hcalm2 by (transitivity k1; [done|by apply Ht2]). split; [|split].
    + eapply server_ok_update; [exact Hok|exact Hi|done|done|done| |done|done]. by transitivity k1.
    + eapply shrinks_update; [exact Hi|done|done|unfold slot_volume; lia|unfold slot_work; lia].
    + split; [done|]. split; [|lia]. destruct Ht2 as [-> _ _]. apply Ht.
Qed.

(** Nothing there. *)
Lemma read_blocked c :
  bs = [] → recv_drained (handle slot) (len (scratch s)) k k1 → read_done O L s k i slot (mkServer (slots s) (poller s) sc c, ReadOk) k1.
Proof.
  intros -> Hend. destruct (slot_facts _ _ _ _ _ _ Hok Hi) as (Hslot & Hno & Hint).
  pose proof (received_on_touches _ _ _ _ Hon Hcalm) as Ht. pose proof Hcalm as (? & _ & _).
  assert (slot_ok k1 slot) as Hok1.
  { destruct Hslot as [H1 H2 H3 H4]. destruct Hon as [Ho Hh _ Hs _].
    constructor; [done|by rewrite Ho| |done]. rewrite app_nil_r in Hh. by eapply echoes_same. }
  split; [|split]; cbn [fst snd].
  - rewrite <- (list_insert_id _ _ _ Hi) at 1.
    eapply server_ok_update; [exact Hok|exact Hi|done|done| |done|done|done]. by rewrite insert_id.
  - eapply (shrinks_update _ _ _ _ _ _ slot); [exact Hi| |done|lia|lia].
    by rewrite (list_insert_id _ _ _ Hi).
  - split; [|by exists k]. exists slot. split; [done|]. by rewrite (list_insert_id _ _ _ Hi).
Qed.

(** The peer has closed: so is the slot, whatever its buffers have become. *)
Lemma read_closed slot0 c :
  bs = [] → recv_answer (handle slot) (len (scratch s)) k 0 [] k1 →
  conn_socket (conn slot0) = conn_socket (conn slot) →
  wp aborts (remove_slot (mkServer (<[i := slot0]> (slots s)) (poller s) sc c) i ≫= λ s',
    mret (s', PeerClosed)) k1 (read_done O L s k i slot).
Proof.
  intros -> Hend Hs0. destruct (slot_facts _ _ _ _ _ _ Hok Hi) as ([Hh _ Hecho _] & _ & _).
  pose proof (received_on_touches _ _ _ _ Hon Hcalm) as Ht.
  assert (handle slot0 = handle slot) as Eh by (unfold conn_handle; by rewrite Hs0).
  destruct (remove_slot_run (mkServer (<[i := slot0]> (slots s)) (poller s) sc c) i slot0 k1)
    as (rest & k2 & E & Hperm & Hc2 & Hst2 & Hop2).
  { apply list_lookup_insert_eq. by eapply lookup_lt_Some. }
  { by rewrite Eh. }
  apply wp_bind. unfold wp at 1. rewrite E. apply wp_ret.
  apply remove_slot_calls with (slot := slot0) in E;
    [|apply list_lookup_insert_eq; by eapply lookup_lt_Some|by rewrite Eh].
  rewrite Eh in *. cbn [slots poller scratch completions] in *.
  assert (slots s ≡ₚ slot :: rest) as Hps.
  { apply (Permutation_cons_inv (a := slot0)). rewrite Permutation_swap, <- Hperm.
    symmetry. by apply insert_swap. }
  assert (open_fds k2 = open_fds k ∖ {[handle slot]}) as Ho2
    by (rewrite Hop2; by destruct Ht as [-> _ _]).
  assert (progress k k2) as Hc by (by transitivity k1).
  split; [|split; [by eapply shrinks_removed|split; [done|by exists k, k1]]].
  eapply server_ok_removed; [exact Hok|done|done|done|..|done].
  - intros x Hx. destruct (Hst2 x) as [-> ->]. destruct Ht as [_ Ho _]. by apply Ho.
  - destruct (Hst2 (handle slot)) as [-> ->]. destruct Hon as [_ -> _ -> _].
    rewrite app_nil_r. by eapply echoes_prefix.
Qed.
End received.

(** The handler of a readable connection keeps the invariant, and returns: the
    loop is left when the socket has no more, or the peer has closed. *)
Lemma process_connection_read_spec O L fuel i s k slot :
  server_ok O L s k → slots s !! i = Some slot → ready k →
  (slot_work slot + 3 * traffic k < fuel)%nat → Z.of_nat (volume s k) ≤ max_size t →
  wp aborts (process_connection_read t sig fuel i s) k (read_done O L s k i slot).
Proof.
  revert s k slot. induction fuel as [|fuel IH]; intros s k slot Hok Hi Hsig Hf Hv; [lia|].
  cbn [process_connection_read]. rewrite Hi.
  pose proof (volume_slot s k i slot Hi) as Hvs. unfold slot_volume in Hvs.
  destruct (receive_fits (conn slot) (scratch s) k Hsig) as
    (res & bs & sc & k1 & E & Hsc & Hon & Ha & Htr); [unfold Vec.size; lia|].
  pose proof (Always_receive progress t sig _ _ _ _ _ E) as Hcalm.
  apply wp_bind. unfold wp at 1. rewrite E. cbn [slots poller scratch completions].
  destruct res as [n|e].
  - apply receive_count in Ha as (Hn & ->).
    apply wp_bind. eapply wp_mono; [eapply (read_chunk O L s k); try done; lia|].
    intros [[slot2 p2] c2] k2 (Hok2 & Hshr & Hs2 & Ho2 & Hw2). cbn [fst snd] in *.
    cbn [slots poller scratch completions]. rewrite list_insert_insert_eq.
    set (s2 := mkServer (<[i := slot2]> (slots s)) p2 sc c2) in *.
    assert (slots s2 !! i = Some slot2) as Hi2
      by (apply list_lookup_insert_eq; by eapply lookup_lt_Some).
    pose proof Hshr as [Hpr ? ?].
    eapply wp_mono; [apply (IH s2 k2 slot2 Hok2 Hi2); [by eapply ready_progress|lia|lia]|].
    intros r k' (Hr1 & Hr2 & Hr). split; [done|].
    split; [by eapply shrinks_trans|]. destruct r.2.
    + assert (handle slot2 = handle slot) as Eh by (unfold conn_handle; by rewrite Hs2).
      destruct Hr as [(slot' & Hs' & Hsl) Hend]. split.
      * exists slot'. split; [by rewrite Hs', Hs2|]. rewrite Hsl. unfold s2. simpl.
        by rewrite list_insert_insert_eq.
      * unfold s2 in Hend. simpl in Hend. by rewrite Eh, Hsc in Hend.
    + assert (handle slot2 = handle slot) as Eh by (unfold conn_handle; by rewrite Hs2).
      destruct Hr as [Hr Hend]. unfold s2 in Hend. simpl in Hend. rewrite Eh, Hsc in Hend.
      split; [by rewrite Hr, Ho2, Eh|done].
  - pose proof (receive_error_nothing _ _ _ _ _ _ Ha) as ->.
    assert (mkSlot (conn slot) (awaiting_reply_flush slot) = slot) as -> by (by destruct slot).
    destruct (slot_facts _ _ _ _ _ _ Hok Hi) as ([Hh Hop _ _] & _ & _).
    assert (∀ c, recv_code e = c → c ≠ RecvErrorCode.WouldBlock → c ≠ RecvErrorCode.Closed →
      aborts Killed) as Hab.
    { intros c Ec H1 H2. apply (abort_unless k (c = RecvErrorCode.WouldBlock ∨ c = RecvErrorCode.Closed));
        [done| |tauto]. intros _ Hg. rewrite <- Ec. apply (good_receive t sig (conn slot) (scratch s) k e (conn slot, sc) k1);
        [exact Hg|done|by apply valid_handle|apply Hok|exact E]. }
    destruct (recv_code e) eqn:Ec; [| |apply wp_halt; by eapply (Hab _ eq_refl)..].
    + apply wp_ret. rewrite (list_insert_id _ _ _ Hi). eapply read_blocked; try done.
      by eapply receive_would_block.
    + unfold with_slots. cbn [slots poller scratch completions]. rewrite list_insert_insert_eq.
      eapply read_closed; try done. by eapply receive_closed.
Qed.
End with_kernel.
