(* ===== verification/EchoLoop.v ===== *)
(** * The event loop of the echo server

    Every event handler of EchoServer.v keeps [server_ok]; the loop and the
    whole server come to an end in a finite world, with every connection and
    the listener closed. *)

From S2P Require Import Prelude Vector FrameCodec Os Socket Connection SocketIO Poller Acceptor Dispatcher.
From S2P Require Import EchoServer Footprint EchoWorld EchoInvariant.

#[local] Existing Instance touches_preorder.

(** The flag another thread sets is no system call. *)
Class StopFlagLaws (K : Type) `{params : !ServerParams, !Kernel K, !StopFlag K, !Observe K, !World K, !GoodWorld K} := {
  stop_keeps k : keeps k (stop_load k).2;
  stop_progress k : progress k (stop_load k).2;
}.

Section with_kernel.
Context {K : Type} `{params : !ServerParams, !Kernel K, !Observe K, !KernelLaws K, !World K, !FiniteWorld K,
  !GoodWorld K, !MapOrder Z, !StopFlag K, !StopFlagLaws K, !Build}.
Context (t : target) (sig : nat) (fine : Prop) (reg : option Z).
Hypothesis codec_fits : fits t k_max_payload.

Abbreviation server_ok := (server_ok reg).
Abbreviation handle slot := (conn_handle (conn slot)).
Abbreviation aborts := (aborts fine).
Abbreviation ready := (ready sig fine).

(** ** Looking up a slot *)

Lemma find_from_spec i all h :
  match find_from i all h with
  | Some j => ∃ n slot, j = (i + n)%nat ∧ all !! n = Some slot ∧ handle slot = h
  | None => Forall (λ sl, handle sl ≠ h) all
  end.
Proof.
  revert i. induction all as [|sl all IH]; intros i; simpl; [done|].
  destruct (Z.eqb_spec (handle sl) h) as [E|E].
  - exists 0%nat, sl. by rewrite Nat.add_0_r.
  - specialize (IH (S i)). destruct (find_from (S i) all h).
    + destruct IH as (n' & slot & -> & ? & ?). exists (S n'), slot. by rewrite Nat.add_succ_comm.
    + by constructor.
Qed.

Lemma find_slot_index_Some all h i :
  find_slot_index all h = Some i → ∃ slot, all !! i = Some slot ∧ handle slot = h.
Proof.
  unfold find_slot_index. intros E. pose proof (find_from_spec 0 all h) as Hs.
  rewrite E in Hs. destruct Hs as (n & slot & -> & ?). by exists slot.
Qed.

(** ** Nothing happened to the connections *)

Lemma server_ok_quiet O L s k k' p' c' :
  server_ok O L s k → open_fds k' = open_fds k → streams_kept k k' → resets k k' →
  interest_ p' = interest_ (poller s) →
  server_ok O L (mkServer (slots s) p' (scratch s) c') k'.
Proof.
  intros [] Ho Hs Hr Hp. constructor; simpl; rewrite ?Hp; try done.
  - rewrite Forall_forall in sv_slots |- *. intros sl Hsl. destruct (sv_slots sl Hsl) as [[] ?].
    split; [|done]. destruct (Hs (handle sl)) as [? ?]; [done|].
    constructor; [done|by rewrite Ho| |done]. by eapply echoes_same.
  - intros x. rewrite Ho. apply sv_open.
  - intros h Hh. destruct (Hr h) as [[-> ->]|[-> ->]]; [by apply sv_echo|done].
Qed.

Lemma keeps_quiet k k' : keeps k k' → open_fds k' = open_fds k ∧ streams_kept k k' ∧ resets k k'.
Proof. intros [? Hs]. split; [done|]. split; [by intros ? _|]. by apply same_streams_resets. Qed.

Lemma shrinks_progress s s' k k' : slots s' = slots s → progress k k' → shrinks s s' k k'.
Proof.
  intros E Hc. pose proof Hc as (? & _ & _).
  constructor; [done|..]; unfold volume, work; rewrite E; lia.
Qed.

(** ** Accepting *)

(** A new slot has seen nothing. *)
Lemma server_ok_added O L s k k' c p' :
  server_ok O L s k → c = (connection (mkSocket (conn_handle c))).1 →
  opened_one (conn_handle c) k k' → conn_handle c < FD_SETSIZE → resets k k' →
  interest_ p' = <[conn_handle c := EventMask.Read]> (interest_ (poller s)) →
  server_ok O L (mkServer (slots s ++ [mkSlot c false]) p' (scratch s) (completions s)) k'.
Proof.
  intros Hok Hc (Hpos & Hnew & Hopen & Hrec & Hsent & Hkept) Hlt Hr Hp.
  set (fd := conn_handle c) in *. destruct Hok.
  assert (∀ x, x ∈ open_fds k → x ≠ fd) as Hne by (intros x Hx ->; done).
  assert (∀ sl, sl ∈ slots s → handle sl ∈ handles s) as Hmem
    by (intros sl Hsl; apply list_elem_of_fmap; by exists sl).
  constructor; simpl; unfold handles; simpl; rewrite ?fmap_app; simpl; try done.
  - apply Forall_app_2.
    + rewrite Forall_forall in sv_slots |- *. intros sl Hsl. destruct (sv_slots sl Hsl) as [[] ?].
      split; [|done]. destruct (Hkept (handle sl)) as [? ?]; [done|].
      constructor; [done|rewrite Hopen, elem_of_union; by right| |done]. by eapply echoes_same.
    + apply Forall_singleton. split; [constructor; simpl; [done| | |by rewrite Hc]|].
      * rewrite Hopen, elem_of_union, elem_of_singleton. by left.
      * exists []. unfold frames. simpl. fold fd. rewrite Hrec, Hsent, Hc. by split.
      * unfold no_frame_left. simpl. by rewrite Hc.
  - apply NoDup_app. split; [done|]. split; [|apply NoDup_singleton].
    intros x Hx ->%list_elem_of_singleton. apply Hnew, sv_open. auto.
  - intros x. rewrite Hopen, elem_of_union, elem_of_singleton, sv_open, elem_of_app,
      list_elem_of_singleton. fold fd. unfold handles. tauto.
  - intros h [Hh| ->%list_elem_of_singleton]%elem_of_app; [by apply sv_fresh|]. fold fd.
    split; [|split; [|done]]; intros Hh; apply Hnew, sv_open; auto.
  - rewrite Hp, lookup_insert_ne; [done|]. apply not_eq_sym, Hne, sv_open. auto.
  - rewrite Hp. apply Forall_app_2.
    + rewrite Forall_forall in sv_registered |- *. intros sl Hsl.
      rewrite lookup_insert_ne; [by apply sv_registered|]. apply not_eq_sym, Hne, sv_open. auto.
    + apply Forall_singleton. simpl. fold fd. rewrite lookup_insert_eq. unfold interest_of.
      simpl. by rewrite Hc.
  - intros h. rewrite Hp, elem_of_app, list_elem_of_singleton. fold fd.
    destruct (decide (h = fd)) as [->|?]; [auto|]. rewrite lookup_insert_ne by done.
    intros [?|?]%sv_only; auto.
  - intros h Hh. destruct (Hr h) as [[-> ->]|[-> ->]]; [by apply sv_echo|done].
Qed.

Lemma accept_one_new l k s k' :
  accept_one l k = Done (Val s) k' → socket_ s < FD_SETSIZE ∧ (traffic k' < traffic k)%nat.
Proof.
  unfold accept_one, mbind, prog_bind, call_os, read_os. destruct (negb (valid l)); [done|].
  pose proof (accept_finite (native_handle l) k) as (_ & Ht & Hlt).
  destruct (sys_accept (native_handle l) k) as [r k1]. simpl in *.
  destruct (Z.ltb_spec r 0); [done|]. intros [= <- <-]. by split; [|apply Ht].
Qed.

Lemma accept_and_register_new a (p : SelectPoller) k c p' k' :
  accept_and_register a p k = Done (Val c, p') k' →
  conn_handle c < FD_SETSIZE ∧ (traffic k' < traffic k)%nat.
Proof.
  unfold accept_and_register.
  intros (r & k1 & E1 & E)%prog_bind_Done_inv. destruct r as [s|e]; [|done].
  apply accept_one_new in E1 as [Hlt Htr].
  apply prog_bind_Done_inv in E as (nb & k2 & E2 & E).
  pose proof (Always_set_nonblocking progress _ _ _ _ _ E2) as (? & _ & _).
  destruct nb as [[]|e].
  - destruct (upsert _ _ p) as [[[]|e] p1].
    + injection E as <- <- <-. split; [done|lia].
    + by apply prog_bind_Done_inv in E as (? & ? & _ & ?).
  - by apply prog_bind_Done_inv in E as (? & ? & _ & ?).
Qed.

(** The acceptor the loop runs with. *)
Definition listens (L : Z) (a : Acceptor) : Prop :=
  listener_handle a = L ∧ (fine → is_listener L).

Lemma accept_loop_spec O L fuel a s k :
  server_ok O L s k → listens L a → ready k → (traffic k < fuel)%nat →
  wp aborts (accept_loop fuel a s) k (λ s' k', server_ok O L s' k' ∧ shrinks s s' k k').
Proof.
  revert s k. induction fuel as [|fuel IH]; intros s k Hok Hl Hrd Hf; [lia|].
  cbn [accept_loop].
  destruct (accept_and_register_run a (poller s) k) as (res & p' & k1 & E & Hr).
  pose proof (Always_accept_and_register progress a _ _ _ _ E) as Hcalm.
  pose proof (Always_accept_and_register resets a _ _ _ _ E) as Hres.
  apply wp_bind. unfold wp at 1. rewrite E. destruct res as [c|e]; simpl in Hr.
  - apply accept_and_register_new in E as [Hlt Htr]. destruct Hr as (Hc & Hone & _ & Hp).
    set (s1 := with_slots (with_poller s p') (slots (with_poller s p') ++ [mkSlot c false])).
    assert (server_ok O L s1 k1) as Hok1 
      by (eapply (server_ok_added O L s k); [exact Hok|exact Hc|exact Hone|exact Hlt|exact Hres|exact Hp]).
    assert (shrinks s s1 k k1) as Hshr.
    { constructor; [done|..]; unfold volume, work; simpl; rewrite fmap_app, sum_list_with_app;
        simpl; unfold slot_volume, slot_work; rewrite Hc; simpl; lia. }
    replace (mkSlot (move_connection c).1 false) with (mkSlot c false) by (by destruct c as [[] ? ? ?]).
    eapply wp_mono; [apply IH; [exact Hok1|done|by eapply ready_progress|lia]|].
    intros s' k' [? ?]. split; [done|]. by eapply shrinks_trans.
  - destruct Hr as [[Ho Hs] Hp]. destruct (accept_would_block _) eqn:Hwb.
    2: { apply wp_halt, (abort_unless sig fine k (accept_would_block (accept_native_error e) = true));
           [done| |congruence]. destruct Hl as [<- Hl]. intros Hf' Hg.
         destruct Hok. eapply good_accept_and_register; [exact Hg|by apply Hl| | |exact E];
           [apply sv_open; auto|apply sv_listener]. }
    apply wp_ret. split; [by eapply server_ok_quiet|by apply shrinks_progress].
Qed.

(** ** One event *)

Lemma work_slot s k i slot : slots s !! i = Some slot → (slot_work slot + 3 * traffic k ≤ work s k)%nat.
Proof. intros Hi. pose proof (sum_list_lookup slot_work _ _ _ Hi). unfold work. lia. Qed.

Lemma shrinks_ready s s' k k' : shrinks s s' k k' → ready k → ready k'.
Proof. intros [? _ _] ?. by eapply ready_progress. Qed.

(** What a handler owes: the invariant, and that nothing grew. *)
Definition handled O L (s : server) (k : K) (s' : server) (k' : K) : Prop :=
  server_ok O L s' k' ∧ shrinks s s' k k'.

Lemma handled_refl O L s k : server_ok O L s k → handled O L s k s k.
Proof. intros. split; [done|by apply shrinks_progress]. Qed.

Lemma handled_trans O L s1 s2 s3 k1 k2 k3 :
  handled O L s1 k1 s2 k2 → handled O L s2 k2 s3 k3 → handled O L s1 k1 s3 k3.
Proof. intros [_ ?] [? ?]. split; [done|by eapply shrinks_trans]. Qed.

(** The slots hold the same descriptors, and so the process does. *)
Lemma read_done_open O L s k i slot r k' :
  server_ok O L s k → slots s !! i = Some slot → read_done reg O L s k i slot r k' →
  open_fds k' ⊆ open_fds k.
Proof.
  intros Hok Hi (Hok' & _ & Hr). destruct r.2.
  - destruct Hr as [(slot' & Hs & E) _]. intros x.
    rewrite (sv_open _ _ _ _ _ Hok' x), (sv_open _ _ _ _ _ Hok x).
    unfold handles. rewrite E, list_fmap_insert.
    rewrite list_insert_id; [done|]. rewrite list_lookup_fmap, Hi. simpl.
    unfold conn_handle. by rewrite Hs.
  - destruct Hr as [-> _]. intros x. rewrite elem_of_difference. tauto.
Qed.

(** And that nothing was opened. *)
Definition handled_open O L (s : server) (k : K) (s' : server) (k' : K) : Prop :=
  handled O L s k s' k' ∧ open_fds k' ⊆ open_fds k.

Lemma handled_open_refl O L s k : server_ok O L s k → handled_open O L s k s k.
Proof. intros. split; [by apply handled_refl|done]. Qed.

Lemma handled_open_trans O L s1 s2 s3 k1 k2 k3 :
  handled_open O L s1 k1 s2 k2 → handled_open O L s2 k2 s3 k3 → handled_open O L s1 k1 s3 k3.
Proof. intros [? ?] [? ?]. split; [by eapply handled_trans|by etrans]. Qed.

Lemma handle_write_spec O L fuel ev s k :
  server_ok O L s k → ready k → (work s k < fuel)%nat →
  wp aborts (handle_write sig fuel ev s) k (handled_open O L s k).
Proof.
  intros Hok Hsig Hf. unfold handle_write.
  case_bool_decide; [by apply wp_ret, handled_open_refl|].
  destruct (find_slot_index _ _) as [i|] eqn:E; [|by apply wp_ret, handled_open_refl].
  apply find_slot_index_Some in E as (slot & Hi & _). rewrite Hi.
  destruct (slot_facts _ _ _ _ _ _ _ Hok Hi) as ([Hh Hop Hecho Hw] & Hno & Hint).
  pose proof (work_slot s k i slot Hi) as Hws. unfold slot_work in Hws.
  apply wp_bind. eapply wp_mono; [apply try_flush_spec|]; try done; [lia| |].
  { intros He. by rewrite Hw, He. }
  intros [[slot' p'] c'] k' [[Hs Hok' Hi' Hz Hl Ht] Hr]. simpl in *. apply wp_ret.
  pose proof Ht as [Ho _ Hc]. pose proof Hc as (? & _ & _). split; [split|by rewrite Ho].
  - eapply server_ok_update; [exact Hok|exact Hi|done|done|done|done| |done].
    unfold no_frame_left. by rewrite Hr.
  - eapply (shrinks_update _ _ _ _ _ slot slot'); [exact Hi|done|done|unfold slot_volume; lia|].
    rewrite Hr in Hz. unfold slot_work. rewrite Hr. lia.
Qed.

(** An event that is not the listener's. *)
Lemma handle_connection_run O L fuel a ev s k :
  server_ok O L s k → ev_socket ev ≠ listener_handle a → ready k → (work s k < fuel)%nat →
  Z.of_nat (volume s k) ≤ max_size t →
  wp aborts (handle_event t sig fuel a ev s) k (handled_open O L s k).
Proof.
  intros Hok Hne Hsig Hf Hv. unfold handle_event. rewrite (proj2 (Z.eqb_neq _ _)) by done.
  destruct (find_slot_index _ _) as [i|] eqn:E; [|by apply wp_ret, handled_open_refl].
  apply find_slot_index_Some in E as (slot & Hi & _).
  case_bool_decide; [by apply handle_write_spec|].
  apply wp_bind. eapply wp_mono.
  { eapply process_connection_read_spec; [done|exact Hok|exact Hi|done| |done].
    pose proof (work_slot s k i slot Hi). lia. }
  intros [s1 outcome] k1 Hr. pose proof (read_done_open _ _ _ _ _ _ _ _ Hok Hi Hr) as Ho.
  destruct Hr as (Hok1 & Hshr & _). simpl in *.
  destruct outcome; [|by apply wp_ret].
  destruct (find_slot_index _ _); [|by apply wp_ret].
  eapply wp_mono; [apply handle_write_spec; [done|by eapply shrinks_ready|]|].
  - destruct Hshr. lia.
  - intros s2 k2 H2. eapply handled_open_trans; [|exact H2]. by split.
Qed.

Lemma handle_event_run O L fuel a ev s k :
  server_ok O L s k → listens L a → ready k → (work s k < fuel)%nat →
  Z.of_nat (volume s k) ≤ max_size t →
  wp aborts (handle_event t sig fuel a ev s) k (handled O L s k).
Proof.
  intros Hok Hl Hsig Hf Hv. destruct (decide (ev_socket ev = listener_handle a)) as [E|E].
  - unfold handle_event. rewrite (proj2 (Z.eqb_eq _ _)) by done.
    case_bool_decide; [by apply wp_ret, handled_refl|].
    apply accept_loop_spec; [done..|]. unfold work in Hf. lia.
  - eapply wp_mono; [by apply handle_connection_run|]. by intros s' k' [? _].
Qed.

Lemma handle_events_run O L fuel a evs s k :
  server_ok O L s k → listens L a → ready k → (work s k < fuel)%nat →
  Z.of_nat (volume s k) ≤ max_size t →
  wp aborts (handle_events t sig fuel a evs s) k (handled O L s k).
Proof.
  revert s k. induction evs as [|ev evs IH]; intros s k Hok Hl Hsig Hf Hv; simpl.
  { by apply wp_ret, handled_refl. }
  apply wp_bind. eapply wp_mono; [by apply handle_event_run|].
  intros s1 k1 [Hok1 Hshr]. pose proof Hshr as [_ ? ?].
  eapply wp_mono; [apply IH; [done|done|by eapply shrinks_ready|lia|lia]|].
  intros s2 k2 H2. by eapply handled_trans.
Qed.

(** ** The loop *)

Lemma server_ok_pollable O L s k : server_ok O L s k → pollable (poller s).
Proof.
  intros [] h Hh. unfold in_fd_range. destruct (sv_only _ Hh) as [->|Hin]; [lia|].
  destruct (sv_fresh _ Hin) as (_ & _ & ?). split; [|done].
  apply list_elem_of_fmap in Hin as (sl & -> & Hsl).
  rewrite Forall_forall in sv_slots. destruct (sv_slots sl Hsl) as [[] _]. done.
Qed.

Lemma server_ok_registered_open O L s k h :
  server_ok O L s k → is_Some (interest_ (poller s) !! h) → h ∈ open_fds k.
Proof. intros [] Hh. apply sv_open. destruct (sv_only _ Hh) as [->|?]; auto. Qed.

Lemma wait_run O L s k events :
  server_ok O L s k → events ≠ [] →
  ∃ res k', wait events k_poll_ms (poller s) k = Done res k' ∧ keeps k k' ∧ progress k k' ∧ res.2 ≠ [].
Proof.
  intros Hok Hev.
  destruct (select_wait_run (poller s) events k_poll_ms k (server_ok_pollable _ _ _ _ Hok) Hev)
    as (nfds & sets & _ & _ & _ & _ & E).
  eexists _, _. split; [exact E|].
  split; [apply (select_law nfds sets)|]. split; [apply (covers_select (R := progress))|].
  destruct (_ <? 0); [done|]. destruct (_ =? 0); [done|]. simpl.
  intros [H1 H2]%app_eq_nil. rewrite H1 in H2. done.
Qed.

Lemma handled_quiet O L s k k' :
  server_ok O L s k → keeps k k' → progress k k' → handled O L s k s k'.
Proof.
  intros Hok (Ho & Hs & Hr)%keeps_quiet Hc. destruct s as [sl p sc c].
  split; [by eapply (server_ok_quiet O L (mkServer sl p sc c))|by apply shrinks_progress].
Qed.

(** One turn: the loop goes on with the invariant, and no more looks at the
    clock ahead; it is left when the deadline has passed, or when it is told to
    stop and has no connection. *)
Lemma serve_turn_run O L fuel a deadline events s k :
  server_ok O L s k → listens L a → ready k → events ≠ [] → (work s k < fuel)%nat →
  Z.of_nat (volume s k) ≤ max_size t →
  wp aborts (serve_turn t sig fuel a deadline events s) k (λ r k',
    match r with
    | None => handled O L s k s k'
    | Some (evs, s') => handled O L s k s' k' ∧ evs ≠ [] ∧ (looks_left deadline k' < looks_left deadline k)%nat
    end).
Proof.
  intros Hok Hl Hsig Hev Hf Hv. unfold serve_turn. apply wp_bind, wp_call.
  pose proof (now_law k) as Hnk. pose proof (now_finite k) as [_ Hlook].
  pose proof (covers_now (R := progress) k) as Hnc.
  destruct (sys_now k) as [now k1]. simpl in *.
  destruct (handled_quiet _ _ _ _ _ Hok Hnk Hnc) as [Hok1 Hshr1].
  destruct (Z.leb_spec deadline now) as [|Hd]; [by apply wp_ret|]. specialize (Hlook _ Hd).
  apply wp_bind, wp_call.
  pose proof (stop_keeps k1) as Hsk. pose proof (stop_progress k1) as Hsc.
  destruct (stop_load k1) as [stop k2]. simpl in *.
  destruct (handled_quiet _ _ _ _ _ Hok1 Hsk Hsc) as [Hok2 Hshr2].
  pose proof (shrinks_trans _ _ _ _ _ _ Hshr1 Hshr2) as Hshr.
  destruct (_ && _); [by apply wp_ret|].
  destruct (wait_run _ _ _ _ events Hok2 Hev) as ([res evs] & k3 & E & Hwk & Hwc & Hevs).
  apply wp_bind. unfold wp at 1. simpl in *. rewrite E. simpl.
  destruct res as [count|].
  2: { apply (abort_unless sig fine k2 False); [by eapply shrinks_ready| |tauto]. intros _ Hg.
       eapply (good_wait events k_poll_ms (poller s) k2); [done|by eapply server_ok_pollable|done| |exact E].
       intros h. by eapply server_ok_registered_open. }
  destruct (handled_quiet _ _ _ _ _ Hok2 Hwk Hwc) as [Hok3 Hshr3].
  pose proof (shrinks_trans _ _ _ _ _ _ Hshr Hshr3) as Hshr'.
  pose proof Hshr' as [_ ? ?]. destruct Hsc as (_ & Hl2 & _). destruct Hwc as (_ & Hl3 & _).
  specialize (Hl2 deadline). specialize (Hl3 deadline).
  apply wp_bind. eapply wp_mono; [apply handle_events_run; [exact Hok3|done|by eapply shrinks_ready|lia|lia]|].
  intros s4 k4 [Hok4 Hshr4]. apply wp_ret. split; [|split; [done|]].
  - split; [done|]. by eapply shrinks_trans.
  - destruct Hshr4 as [(_ & Hl4 & _) _ _]. specialize (Hl4 deadline). lia.
Qed.

Lemma serve_run O L turns fuel a deadline events s k :
  server_ok O L s k → listens L a → ready k → events ≠ [] →
  (looks_left deadline k < turns)%nat → (work s k < fuel)%nat →
  Z.of_nat (volume s k) ≤ max_size t →
  wp aborts (serve t sig turns fuel a deadline events s) k (handled O L s k).
Proof.
  revert events s k. induction turns as [|turns IH]; intros events s k Hok Hl Hsig Hev Ht Hf Hv; [lia|].
  cbn [serve]. apply wp_bind. eapply wp_mono; [apply serve_turn_run; done|].
  intros [[evs s1]|] k1 H1; [|by apply wp_ret]. destruct H1 as ([Hok1 Hshr] & Hevs & Hlk).
  pose proof Hshr as [_ ? ?].
  eapply wp_mono; [apply IH; [exact Hok1|done|by eapply shrinks_ready|done|lia|lia|lia]|].
  intros s2 k2 H2. eapply handled_trans; [|exact H2]. by split.
Qed.

(** ** Closing what is left *)

Lemma close_all_run l p k :
  Forall (λ sl, 0 ≤ handle sl) l →
  ∃ p' k', close_all l p k = Done p' k' ∧ same_streams k k' ∧
    ∀ x, x ∈ open_fds k' ↔ x ∈ open_fds k ∧ (x ∉ (λ sl, handle sl) <$> l).
Proof.
  intros Hl. revert p k. induction Hl as [|sl l Hsl Hl IH]; intros p k.
  { exists p, k. split; [done|]. split; [done|]. intros x. split; [|tauto]. intros. split; [done|apply not_elem_of_nil]. }
  destruct (destroy_run (conn_socket (conn sl)) k) as (k1 & E1 & _ & Hs1 & Ho).
  cbn [close_all]. unfold destroy_connection. rewrite (prog_bind_Done _ _ _ _ _ E1).
  destruct (IH (erase (K := K) (handle sl) p).2 k1) as (p' & k' & E & Hs & Hin).
  exists p', k'. split; [exact E|]. split; [by transitivity k1|]. intros x.
  rewrite Hin, Ho, valid_handle by done. rewrite elem_of_difference, elem_of_singleton, fmap_cons,
    not_elem_of_cons. unfold conn_handle at 2, native_handle. tauto.
Qed.

Lemma elem_of_rev {A} (x : A) l : x ∈ rev l ↔ x ∈ l.
Proof. by rewrite !list_elem_of_In, <- in_rev. Qed.

Lemma handles_rev s x : x ∈ (λ sl, handle sl) <$> rev (slots s) ↔ x ∈ handles s.
Proof. unfold handles. rewrite !list_elem_of_fmap. by setoid_rewrite elem_of_rev. Qed.

(** What the end of a server does: its connections, then the acceptor's
    destructor. *)
Lemma close_parts_run O L s a k :
  server_ok O L s k → listener_handle a = L →
  ∃ p k1, close_all (rev (slots s)) (poller s) k = Done p k1 ∧
  ∃ r k2, destroy (listener_sock (listener_ a)) k1 = Done r k2 ∧
    open_fds k2 = O ∧ ∀ h, h ∉ O → sent k2 h `prefix_of` received k2 h.
Proof.
  intros [Hslots _ Hopen Hfresh [HL HL0] _ _ _ _ Hecho] <-.
  assert (Forall (λ sl, 0 ≤ handle sl) (rev (slots s))) as Hall.
  { apply Forall_forall. intros sl Hsl. rewrite elem_of_rev in Hsl. rewrite Forall_forall in Hslots.
    by destruct (Hslots _ Hsl) as [[] _]. }
  destruct (close_all_run _ (poller s) k Hall) as (p & k1 & E & Hs1 & Ho1).
  exists p, k1. split; [exact E|].
  destruct (destroy_run (listener_sock (listener_ a)) k1) as (k2 & E2 & _ & Hs2 & Ho2).
  eexists _, k2. split; [exact E2|]. split.
  - rewrite Ho2, valid_handle by apply HL0. apply set_eq. intros x.
    rewrite elem_of_difference, elem_of_singleton, Ho1, Hopen, handles_rev.
    change (socket_ (listener_sock (listener_ a))) with (listener_handle a). split; [tauto|].
    intros Hx. split; [split; [tauto|]|by intros ->]. intros Hin. by destruct (Hfresh x Hin).
  - intros h Hh. destruct (Hs2 h) as [-> ->]. destruct (Hs1 h) as [-> ->]. by apply Hecho.
Qed.

Lemma close_down_run O L s a port k :
  server_ok O L s k → listener_handle a = L →
  ∃ k', close_down a port s k = Done (port, completions s) k' ∧
    open_fds k' = O ∧ ∀ h, h ∉ O → sent k' h `prefix_of` received k' h.
Proof.
  intros Hok HL. destruct (close_parts_run _ _ _ _ _ Hok HL) as (p & k1 & E1 & r & k2 & E2 & Hend).
  exists k2. split; [|done]. unfold close_down. rewrite (prog_bind_Done _ _ _ _ _ E1). cbn.
  by rewrite (prog_bind_Done _ _ _ _ _ E2).
Qed.

(** ** Starting up *)

Lemma bind_loop_small ais backlog k l k' :
  bind_loop ais backlog k = Done (Val l) k' → socket_ (listener_sock l) < FD_SETSIZE.
Proof.
  revert k. induction ais as [|ai ais IH]; intros k; cbn [bind_loop].
  { by intros (? & ? & _ & ?)%prog_bind_Done_inv. }
  intros (s & k1 & E1 & E)%prog_bind_Done_inv.
  assert (s < 1024) as Hs.
  { injection E1 as <- _. apply (socket_finite (ai_family ai)). }
  destruct (_ <? 0); [by eapply IH|].
  apply prog_bind_Done_inv in E as (r1 & k2 & _ & E). destruct (negb _).
  { apply prog_bind_Done_inv in E as (? & ? & _ & E).
    by apply prog_bind_Done_inv in E as (? & ? & _ & ?). }
  apply prog_bind_Done_inv in E as (r2 & k3 & _ & E). destruct (negb _).
  { apply prog_bind_Done_inv in E as (? & ? & _ & E).
    apply prog_bind_Done_inv in E as (? & ? & _ & E). by eapply IH. }
  apply prog_bind_Done_inv in E as (r3 & k4 & _ & E). destruct (negb _).
  { apply prog_bind_Done_inv in E as (? & ? & _ & E).
    by apply prog_bind_Done_inv in E as (? & ? & _ & ?). }
  by injection E as <- _.
Qed.

Lemma bind_and_listen_run host port backlog k :
  ∃ res k', bind_and_listen host port backlog k = Done res k' ∧
    match res with
    | Val l => opened_one (socket_ (listener_sock l)) k k' ∧ socket_ (listener_sock l) < FD_SETSIZE
    | Unexpected _ => no_change k k'
    end.
Proof.
  unfold bind_and_listen. destruct (backlog <=? 0).
  { eexists _, _. by split. }
  unfold mbind, prog_bind, call_os.
  set (h := if decide (host = "") then None else Some host).
  pose proof (getaddrinfo_law h (to_string port) hints AI_PASSIVE k) as Hk.
  destruct (sys_getaddrinfo h (to_string port) hints AI_PASSIVE k) as [[rc ais] k1]. simpl in *.
  apply keeps_no_change in Hk.
  destruct (negb (rc =? 0)); [eexists _, _; by split|].
  destruct (bind_loop_spec ais backlog k1) as (res & k' & E & Hr).
  exists res, k'. split; [done|]. eapply bound_after in Hr; [|exact Hk].
  destruct res as [l|e]; simpl in *; [|apply Hr]. split; [done|]. by eapply bind_loop_small.
Qed.

Lemma local_port_run l k : ∃ res k', local_port_v4 t l k = Done res k' ∧ keeps k k'.
Proof.
  unfold local_port_v4, mbind, prog_bind, call_os, read_os.
  destruct (negb (valid l)); [eexists _, _; by split|].
  pose proof (getsockname_law (native_handle l) k) as Hk.
  destruct (sys_getsockname (native_handle l) k) as [r k1]. simpl in *.
  destruct (negb _); eexists _, _; by split.
Qed.

Lemma buffer_positive {A} (x : A) n : 0 < n → replicate (Z.to_nat n) x ≠ [].
Proof. intros Hn E%(f_equal length). rewrite length_replicate in E. simpl in E. lia. Qed.

(** What [set_up] leaves: the listener open, registered and alone. *)
Lemma set_up_run scr k :
  scr ≠ [] → (∀ h, h ∉ open_fds k → sent k h `prefix_of` received k h) →
  wp may_abort (set_up t) k (λ r k',
    EchoInvariant.server_ok (Some EventMask.Read) (open_fds k) (listener_handle r.1.1) (mkServer [] r.1.2 scr 0) k' ∧ progress k k').
Proof.
  intros Hscr Hpre. unfold set_up. apply wp_bind.
  destruct (bind_and_listen_run "127.0.0.1" 0 k_accept_backlog k) as (res & k1 & E1 & H1).
  pose proof (Always_bind_and_listen progress _ _ _ _ _ _ E1) as C1.
  pose proof (Always_bind_and_listen resets _ _ _ _ _ _ E1) as R1.
  unfold wp at 1. rewrite E1. destruct res as [[[L]]|]; [|done]. simpl in *.
  destruct H1 as [Hone Hlt]. destruct (negb _); [done|]. apply wp_bind.
  destruct (local_port_run (mkSocket L) k1) as (res & k2 & E2 & H2).
  pose proof (Always_local_port progress _ _ _ _ _ E2) as C2.
  unfold wp at 1. rewrite E2. destruct res as [port|]; [|done]. apply wp_bind.
  destruct (set_nonblocking_run true (mkSocket L) k2) as (res & k3 & E3 & H3 & _).
  pose proof (Always_set_nonblocking progress _ _ _ _ _ E3) as C3.
  unfold wp at 1. rewrite E3. destruct res as [|]; [|done].
  assert (keeps k1 k3) as Hk by (by transitivity k2).
  assert (resets k k3) as Hres by (transitivity k1; [done|by apply keeps_resets]).
  pose proof (opened_one_then _ _ _ _ Hone Hk) as (Hpos & Hnew & Hopen & _).
  unfold register_listener, listener_handle. simpl. unfold select_upsert.
  rewrite decide_False by (unfold k_invalid_socket; lia). apply wp_ret. simpl.
  split; [|by transitivity k2; [transitivity k1|]].
  constructor; simpl; unfold handles; simpl; try done.
  - apply NoDup_nil_2.
  - intros x. rewrite Hopen, elem_of_union, elem_of_singleton, elem_of_nil. tauto.
  - by intros h ?%elem_of_nil.
  - by rewrite lookup_insert_eq.
  - intros h. destruct (decide (h = L)) as [->|?]; [auto|].
    rewrite lookup_insert_ne by done. rewrite lookup_empty. by intros [? ?].
  - intros h Hh. destruct (Hres h) as [[-> ->]|[-> ->]]; [by apply Hpre|done].
Qed.

End with_kernel.

(** ** Properties *)

Section properties.
Context {K : Type} `{params : !ServerParams, !Kernel K, !Observe K, !KernelLaws K, !World K, !FiniteWorld K,
  !GoodWorld K, !MapOrder Z, !StopFlag K, !StopFlagLaws K, !Build}.
Context (t : target) (sig : nat).
Hypothesis codec_fits : fits t k_max_payload.
Abbreviation server_ok := (server_ok (Some EventMask.Read)).
Abbreviation handle slot := (conn_handle (conn slot)).

(** C4. [process_connection_read], on a slot as the event loop keeps them,
    returns with the loop's invariant restored; the process aborts only where
    the world is not good. What it reports is what the last [recv] answered.
    [ReadOk]: it failed because the socket has no more to give; all the socket
    has received is whole frames followed by an incomplete one, which the read
    buffer holds; what it has been sent, followed by the write buffer, is the
    same frames; the poller waits for the socket to become writable exactly
    when the write buffer is not empty; and the descriptor is still open.
    [PeerClosed]: it answered 0, and the one thing done to the kernel
    afterwards was to close the descriptor. *)
Theorem process_connection_read_echoes O L fuel i s k slot :
  server_ok O L s k → slots s !! i = Some slot → (signals k < sig)%nat →
  (slot_work slot + 3 * traffic k < fuel)%nat → Z.of_nat (volume s k) ≤ max_size t →
  wp (λ e, e = Killed ∧ ¬ good k) (process_connection_read t sig fuel i s) k (λ r k',
    server_ok O L r.1 k' ∧
    match r.2 with
    | ReadOk => (∃ slot' ps, slots r.1 = <[i := slot']> (slots s) ∧ handle slot' = handle slot ∧
        received k' (handle slot) = frames ps ++ vdata (read_buf_ (conn slot')) ∧
        sent k' (handle slot) ++ vdata (write_buf_ (conn slot')) = frames ps ∧
        status (decode_ref (vdata (read_buf_ (conn slot'))) k_max_payload) = Incomplete ∧
        (interest_ (poller r.1) !! handle slot = Some read_write ↔ vdata (write_buf_ (conn slot')) ≠ [])) ∧
        handle slot ∈ open_fds k' ∧
        ∃ k1 e, recv_answer (handle slot) (len (scratch s)) k1 e [] k' ∧ e < 0 ∧
          (errno k' = EAGAIN ∨ errno k' = EWOULDBLOCK)
    | PeerClosed => (handle slot ∉ open_fds k') ∧ open_fds k' = (open_fds k ∖ {[handle slot]}) ∧
        ∃ k1 k2, recv_answer (handle slot) (len (scratch s)) k1 0 [] k2 ∧
          k' = (sys_close (handle slot) k2).2
    end).
Proof.
  intros Hok Hi Hsig Hf Hv. eapply wp_mono.
  { by eapply (process_connection_read_spec t sig codec_fits (good k) _). }
  intros [s' outcome] k' (Hok' & _ & Hr). simpl in *. split; [done|]. destruct outcome.
  - destruct Hr as [(slot' & Hs & E) Hend].
    assert (handle slot' = handle slot) as Eh by (unfold conn_handle; by rewrite Hs).
    destruct (slot_facts _ O L s' k' i slot' Hok') as ([_ Hop (ps & Hrec & Hsent & _) _] & Hno & Hint).
    { rewrite E. apply list_lookup_insert_eq. by eapply lookup_lt_Some. }
    rewrite Eh in *. split; [|done]. exists slot', ps. do 4 (split; [done|]). split; [exact Hno|].
    rewrite Hint. unfold interest_of, Vec.is_empty. case_bool_decide as Hb.
    + split; [done|]. by rewrite Hb.
    + done.
  - destruct Hr as [Ho Hend]. split; [|done]. rewrite Ho, elem_of_difference, elem_of_singleton. tauto.
Qed.

(** C5. Whatever event the poller reports, handling it keeps the invariant of
    the event loop: each connection echoes and is registered for what it waits
    for, the open descriptors are exactly those of the listener and of the
    slots besides the ones that were there before, and no descriptor is in two
    slots. It comes to an end, on fuel for the bytes buffered and still to
    come, which never grow; and in a good world it does not abort. *)
Theorem handle_event_keeps_invariant O L fuel a ev s k :
  server_ok O L s k → listener_handle a = L → (signals k < sig)%nat → (work s k < fuel)%nat →
  Z.of_nat (volume s k) ≤ max_size t →
  wp (λ e, e = Killed ∧ ¬ (good k ∧ is_listener L)) (handle_event t sig fuel a ev s) k (λ s' k',
    server_ok O L s' k' ∧ (work s' k' ≤ work s k)%nat ∧ (volume s' k' ≤ volume s k)%nat).
Proof.
  intros Hok Hl Hsig Hf Hv. eapply wp_mono.
  { apply (handle_event_run t sig (good k ∧ is_listener L) (Some EventMask.Read) codec_fits O L fuel a ev s k); try done;
      by split; [|intros []]. }
  intros s' k' [? []]. done.
Qed.

(** C3. The server comes to an end: where peers connect and send finitely much,
    [run_server], once it has set itself up, returns for any fuel that is large
    enough, unless a call fails as it does not in a good world; then it aborts,
    and it never does anything undefined. When it returns every descriptor it
    opened is closed again, and on each one what was sent back is a prefix of
    what was received. *)
Theorem run_server_ends k :
  (signals k < sig)%nat → Z.of_nat (traffic k) ≤ max_size t →
  (∀ h, h ∉ open_fds k → sent k h `prefix_of` received k h) →
  match set_up t k with
  | Stop e => e = Killed ∧ ∀ fuel, run_server t sig fuel k = Stop Killed
  | Done (a, _, _) k1 => ∃ fuel0, ∀ fuel, (fuel0 ≤ fuel)%nat →
      wp (λ e, e = Killed ∧ ¬ (good k1 ∧ is_listener (listener_handle a))) (run_server t sig fuel) k
        (λ _ k', open_fds k' = open_fds k ∧
           ∀ h, h ∉ open_fds k → sent k' h `prefix_of` received k' h)
  end.
Proof.
  intros Hsig Hv Hpre. unfold run_server, first_state.
  assert (replicate (Z.to_nat k_scratch_bytes) x00 ≠ []) as Hscr by apply buffer_positive, scratch_positive.
  generalize dependent (replicate (Z.to_nat k_scratch_bytes) x00). intros scr Hscr.
  pose proof (set_up_run t scr k Hscr Hpre) as Hup.
  destruct (set_up t k) as [[[a p] port] k1|st] eqn:Eup; unfold wp in Hup; rewrite Eup in Hup.
  2: { split; [done|]. intros fuel. unfold mbind, prog_bind. by rewrite Eup, Hup. }
  destruct Hup as [Hok Hc]. simpl in Hok.
  pose proof (now_law k1) as Hnk. pose proof (covers_now (R := progress) k1) as Hnc.
  destruct (handled_quiet _ _ _ _ _ _ Hok Hnk Hnc) as [Hok2 _].
  set (s0 := mkServer [] p scr 0) in *. set (dl := (sys_now k1).1 + k_deadline_ms).
  pose proof Hc as (? & _ & ? & _). pose proof Hnc as (? & _ & ? & Hgood).
  exists (S (looks_left dl (sys_now k1).2 + work s0 (sys_now k1).2)). intros fuel Hfuel.
  apply wp_bind. unfold wp at 1. rewrite Eup. apply wp_bind, wp_call, wp_bind.
  assert (Z.of_nat (volume s0 (sys_now k1).2) ≤ max_size t) as Hvol
    by (unfold volume, s0; simpl; lia).
  eapply wp_mono.
  { apply (serve_run t sig (good k1 ∧ is_listener (listener_handle a)) _ codec_fits _ _ fuel fuel a dl no_events s0
      _ Hok2); [split; [done|by intros []]|split; [lia|intros []; auto]|apply buffer_positive, events_positive| | |exact Hvol];
      clear -Hfuel; lia. }
  intros s k3 [Hok3 _].
  destruct (close_down_run _ _ _ _ a port _ Hok3 eq_refl) as (k4 & E & Hend). unfold wp. by rewrite E.
Qed.
End properties.

(** ** A run *)

(** The benchmark's thread sets [stop] once its clients have all been heard. *)
#[export] Instance sim_stop : StopFlag sim :=
  {| stop_load k := (bool_decide (length (script k) = 0%nat), k) |}.

#[export] Instance sim_stop_laws `{params : !ServerParams} : StopFlagLaws sim.
Proof. constructor; intros; simpl; reflexivity. Qed.

Definition demo_world : sim := Sim.boot
  ([Addrs [demo_addr]; Give 0; Give 0; Give 0; Give 0; Give 8080; Give 0; Give 0;
    (* a client connects *)
    Ready [3] [] []; Give 0; Give 0; Give 0; Fail EAGAIN;
    (* it sends a frame in two parts; a signal arrives; the reply is cut *)
    Ready [6] [] []; Data [x00; x00; x00]; Fail EINTR; Data [x02; x41; x42];
    Give 4; Fail EAGAIN; Fail EAGAIN;
    (* the rest of the reply *)
    Ready [] [6] []; Give 2;
    (* it closes *)
    Ready [6] [] []; Data []; Give 0]).

Definition demo_server : run sim (Z * Z) :=
  @run_server sim _ _ (listing_order Z) _ Debug lp64 10 1000 demo_world.

Example demo_server_returns :
  match demo_server with
  | Done (_, completed) k =>
      completed = 1 ∧ elements (open_fds k) = [] ∧
      received k 6 = [x00; x00; x00; x02; x41; x42] ∧ sent k 6 = [x00; x00; x00; x02; x41; x42]
  | Stop _ => False
  end.
Proof. vm_compute. done. Qed.

(** A good world: a client connects, sends two empty frames in three parts,
    and closes. *)
Definition good_script : list answer :=
  [Ready [3] [] []; Give 1; Give 1; Give 1; Block;
   Ready [6] [] []; Data [x00; x00; x00]; Data [x00; x00]; Give 1; Give 9; Block; Block;
   Ready [6] [] []; Data [x00; x00; x00]; Block; Block;
   Ready [] [6] []; Give 9;
   Ready [6] [] []; Data []; Give 1].
Definition good_world : sim :=
  Sim.boot ([Addrs [demo_addr]; Give 1; Give 1; Give 1; Give 1; Give 8080; Give 1; Give 1] ++ good_script).

Example good_world_served :
  match @run_server sim _ _ (listing_order Z) _ Debug lp64 10 1000 good_world with
  | Done (_, completed) k => completed = 2 ∧ sent k 6 = replicate 8 x00
  | Stop _ => False
  end.
Proof. vm_compute. done. Qed.

Lemma good_world_set_up :
  let order := listing_order Z in let build := Debug in
  match set_up lp64 good_world with
  | Done _ k => good k
  | Stop _ => False
  end.
Proof.
  intros order build.
  assert (∃ r, set_up lp64 good_world =
    Done r (mkSim good_script 0 0 {[3]} {[3 := 2050]} ∅ ∅)) as [r ->].
  { eexists. vm_compute. reflexivity. }
  constructor; simpl.
  - unfold good_script. repeat constructor; simpl; lia.
  - intros s. constructor.
  - intros s. simpl. rewrite lookup_singleton. by case_decide.
  - right. by vm_compute.
Qed.

(** There, it returns. *)
Lemma run_server_ends_witness :
  let order := listing_order Z in let build := Debug in
  ∃ fuel0, ∀ fuel, (fuel0 ≤ fuel)%nat →
    wp total (run_server lp64 10 fuel) good_world (λ _ k',
      open_fds k' = open_fds good_world ∧
      ∀ h, (h ∉ open_fds good_world) → sent k' h `prefix_of` received k' h).
Proof.
  intros order build.
  pose proof (run_server_ends lp64 10 (wide_fits lp64 k_max_payload ltac:(done)) good_world
    ltac:(vm_compute; lia) ltac:(done) ltac:(intros h _; exists []; done)) as H.
  pose proof good_world_set_up as Hgood. cbv zeta in Hgood. fold order in Hgood.
  destruct (set_up lp64 good_world) as [[[a p] port] k1|]; [|done].
  destruct H as [fuel0 H]. exists fuel0. intros fuel Hfuel.
  apply (wp_weaken _ _ _ _ _ (H fuel Hfuel)). intros e [_ He]. apply He. done.
Defined.

(** One connection, readable. *)
Definition demo_slot : ConnSlot := mkSlot (connection (mkSocket 6)).1 false.
Definition demo_state : server :=
  mkServer [demo_slot] (mkPoller (<[6 := EventMask.Read]> {[3 := EventMask.Read]})) [x00; x00; x00; x00] 0.
Definition demo_os : sim :=
  mkSim [Data (replicate 4 x00); Give 3; Block; Data [x00; x00]; Block] 0 0 {[3; 6]} ∅ ∅ ∅.

Lemma demo_os_good : good demo_os.
Proof.
  constructor; simpl.
  - repeat constructor; simpl; lia.
  - intros s. constructor.
  - done.
  - right. by vm_compute.
Qed.

Lemma demo_state_ok `{params : !ServerParams} l :
  server_ok (Some EventMask.Read) ∅ 3 demo_state (mkSim l 0 0 {[3; 6]} ∅ ∅ ∅).
Proof.
  constructor; simpl; unfold handles; simpl; try done.
  - apply Forall_singleton. split; [|done]. constructor; try done. by exists [].
  - apply NoDup_singleton.
  - intros x. rewrite elem_of_union, !elem_of_singleton, elem_of_empty, list_elem_of_singleton.
    change (conn_handle (conn demo_slot)) with 6. tauto.
  - intros h ->%list_elem_of_singleton. split; [apply not_elem_of_empty|]. done.
  - by apply Forall_singleton.
  - intros h. rewrite list_elem_of_singleton. change (conn_handle (conn demo_slot)) with 6.
    destruct (decide (h = 6)) as [->|H6]; [auto|]. destruct (decide (h = 3)) as [->|H3]; [auto|].
    rewrite lookup_insert_ne, lookup_singleton_ne by done. by intros [? ?].
Qed.

Lemma process_connection_read_echoes_witness :
  let order := listing_order Z in let build := Debug in
  wp total (process_connection_read lp64 1 100 0 demo_state) demo_os (λ r k',
    server_ok (Some EventMask.Read) ∅ 3 r.1 k' ∧
    match r.2 with
    | ReadOk => (∃ slot' ps, slots r.1 = [slot'] ∧ conn_handle (conn slot') = 6 ∧
        received k' 6 = frames ps ++ vdata (read_buf_ (conn slot')) ∧
        sent k' 6 ++ vdata (write_buf_ (conn slot')) = frames ps ∧
        status (decode_ref (vdata (read_buf_ (conn slot'))) k_max_payload) = Incomplete ∧
        (interest_ (poller r.1) !! 6 = Some read_write ↔ vdata (write_buf_ (conn slot')) ≠ [])) ∧
        6 ∈ open_fds k' ∧
        ∃ k1 e, recv_answer 6 (len (scratch demo_state)) k1 e [] k' ∧ e < 0 ∧
          (errno k' = EAGAIN ∨ errno k' = EWOULDBLOCK)
    | PeerClosed => (6 ∉ open_fds k') ∧ open_fds k' = (open_fds demo_os ∖ {[6]}) ∧
        ∃ k1 k2, recv_answer 6 (len (scratch demo_state)) k1 0 [] k2 ∧ k' = (sys_close 6 k2).2
    end).
Proof.
  intros order build.
  eapply wp_weaken.
  - apply (process_connection_read_echoes lp64 1 (wide_fits lp64 k_max_payload ltac:(done)) ∅ 3 100 0
      demo_state demo_os demo_slot (demo_state_ok _)); [done|vm_compute; lia..|vm_compute; done].
  - intros e [_ He]. by apply He, demo_os_good.
Defined.

(** What came back and what is left to send. *)
Example demo_reply :
  match @process_connection_read sim _ _ (listing_order Z) Debug lp64 1 100 0 demo_state demo_os with
  | Done (s, outcome) k =>
      outcome = ReadOk ∧ sent k 6 = [x00; x00; x00] ∧
      ((λ sl, vdata (write_buf_ (conn sl))) <$> slots s) = [[x00]] ∧
      ((λ sl, vdata (read_buf_ (conn sl))) <$> slots s) = [[x00; x00]] ∧
      interest_ (poller s) !! 6 = Some read_write
  | Stop _ => False
  end.
Proof. vm_compute. done. Qed.

Lemma handle_event_keeps_invariant_witness :
  let order := listing_order Z in let build := Debug in
  wp total (handle_event lp64 1 100 (mkAcceptor (mkListener (mkSocket 3)))
      (mkEvent 6 EventMask.Read) demo_state) demo_os (λ s' k',
    server_ok (Some EventMask.Read) ∅ 3 s' k' ∧ (work s' k' ≤ work demo_state demo_os)%nat ∧
    (volume s' k' ≤ volume demo_state demo_os)%nat).
Proof.
  intros order build.
  eapply wp_weaken.
  - apply (handle_event_keeps_invariant lp64 1 (wide_fits lp64 k_max_payload ltac:(done)) ∅ 3 100);
      [exact (demo_state_ok _)|done|vm_compute; lia..|vm_compute; done].
  - intros e [_ He]. apply He. split; [exact demo_os_good|done].
Defined.
