(* ===== verification/GracefulServer.v ===== *)
(** * The server that drains (tests/integration/graceful_shutdown_tests.cpp)

    The event loop of EchoServer.v joined with the [ShutdownCoordinator] of
    Lifecycle.v: another thread requests the shutdown, the loop stops accepting,
    serves the connections it has and advances the lifecycle once it is drained.
    The functions that handle connections are the same, character by character
    but for [assert] in place of [std::abort], and for the constants
    ([graceful_params]).

    The asserts of the test carry the calls they check, so the program modelled
    is the one with asserts, the Debug build.

    The coordinator is shared with other threads. [to_come] is what they are
    going to do to it: one list of deeds before each access this thread makes, so
    that every interleaving of the accesses is some [to_come].  System calls do
    not touch the coordinator, nor do the other threads the kernel state: what
    other threads do between two accesses of this thread is placed before the
    second of them, also where system calls lie between.  So a connection can be
    accepted after a shutdown was requested, when the phase had been loaded
    before. *)

From S2P Require Import Prelude Lifecycle.
From S2P Require Import Vector FrameCodec Os Socket Connection SocketIO Poller Acceptor Dispatcher.
From S2P Require Import EchoServer Footprint EchoWorld EchoInvariant EchoLoop.

Definition graceful_max_payload : Z := 4096.
Definition graceful_backlog : Z := 32.
Definition graceful_scratch_bytes : Z := 4096.
Definition graceful_events : Z := 32.
Definition graceful_deadline_ms : Z := 30 * 1000.

Definition graceful_params : ServerParams := {|
  k_max_payload := graceful_max_payload;
  k_accept_backlog := graceful_backlog;
  k_scratch_bytes := graceful_scratch_bytes;
  k_events := graceful_events;
  k_deadline_ms := graceful_deadline_ms;
  max_payload_nonneg := Zle_0_pos _;
  scratch_positive := eq_refl;
  events_positive := eq_refl;
|}.

(** ** The coordinator and the other threads *)

(** A thread calls [request_shutdown]; the [j]th call of it makes its next
    access. *)
Inductive deed := RequestsShutdown | GoesOn (j : nat) (spurious : bool).

Record coordinator := mkCoordinator { life : sys; to_come : list (list deed) }.

(** Where the [j]th call of [request_shutdown] is among all calls. *)
Fixpoint request_at (j : nat) (l : list call) : option nat :=
  match l with
  | [] => None
  | c :: l =>
      if is_advance (Lifecycle.prog c) then S <$> request_at j l
      else match j with O => Some O | S j => S <$> request_at j l end
  end.

(** The access, if the call has one left. *)
Definition access (spurious : bool) (i : nat) (s : sys) : option sys :=
  c ← calls s !! i;
  r ← call_step false spurious (phase_ s) c;
  Some (Sys r.1 (<[i := r.2]> (calls s))).

Definition do_deed (s : sys) (d : deed) : sys :=
  match d with
  | RequestsShutdown => Sys (phase_ s) (calls s ++ [start Request])
  | GoesOn j spurious =>
      match request_at j (calls s) with
      | None => s
      | Some i => default s (access spurious i s)
      end
  end.

(** A failed assert in any thread ends the process. *)
Definition anyone_aborted (s : sys) : bool :=
  existsb (λ c, bool_decide (at_pc c = Aborted)) (calls s).

Definition others_go (c : coordinator) : coordinator :=
  match to_come c with
  | [] => c
  | deeds :: rest => mkCoordinator (foldl do_deed (life c) deeds) rest
  end.

Section graceful.
Context {K : Type} `{params : !ServerParams, !Kernel K, !MapOrder Z} (t : target) (sig : nat).
#[local] Instance debug_build : Build := Debug.

(** Code that does not touch the coordinator. *)
Definition on_os {A} (p : prog K A) : prog (K * coordinator) A := λ kc,
  match p kc.1 with
  | Done a k => Done a (k, kc.2)
  | Stop e => Stop e
  end.

(** The other threads go on. *)
Definition interfere : prog (K * coordinator) () := λ kc,
  let c := others_go kc.2 in
  if anyone_aborted (life c) then Stop Killed else Done () (kc.1, c).

(** [phase_.load()]. *)
Definition load_phase : prog (K * coordinator) ShutdownPhase :=
  _ ← interfere; read_os (λ kc, phase_ (life kc.2)).

(** The accesses of this thread's call, which is the [i]th. *)
Fixpoint run_call (fuel : nat) (i : nat) : prog (K * coordinator) () :=
  match fuel with
  | O => halt Fuel
  | S fuel =>
      _ ← interfere;
      s ← read_os (λ kc, life kc.2);
      match access false i s with
      | None => mret ()
      | Some s' =>
          _ ← call_os (λ kc, ((), (kc.1, mkCoordinator s' (to_come kc.2))));
          if anyone_aborted s' then halt Killed else run_call fuel i
      end
  end.

(** [lifecycle.try_advance_to_stopped_if_drained(...)]: four accesses at most. *)
Definition try_advance (args : drain_args) : prog (K * coordinator) () :=
  i ← read_os (λ kc, length (calls (life kc.2)));
  _ ← call_os (λ kc, ((), (kc.1, mkCoordinator
        (Sys (phase_ (life kc.2)) (calls (life kc.2) ++ [start (Advance args)])) (to_come kc.2))));
  run_call 5 i.

(** ** The event loop *)

Definition any_pending_writes (slots : list ConnSlot) : bool :=
  existsb (λ sl, negb (Vec.is_empty (write_buf_ (conn sl)))) slots.

(** The body of the loop over the events. *)
Definition drain_event (fuel : nat) (a : Acceptor) (ev : Event) (s : server)
    : prog (K * coordinator) server :=
  if ev_socket ev =? listener_handle a then
    ph ← load_phase;
    if negb (should_accept_new_connections ph) then mret s
    else on_os (handle_event t sig fuel a ev s)
  else on_os (handle_event t sig fuel a ev s).

Fixpoint drain_events (fuel : nat) (a : Acceptor) (evs : list Event) (s : server)
    : prog (K * coordinator) server :=
  match evs with
  | [] => mret s
  | ev :: evs => s ← drain_event fuel a ev s; drain_events fuel a evs s
  end.

(** [if (!should_accept_new_connections() && !listener_unregistered) ...] *)
Definition stop_listening (a : Acceptor) (s : server) (unregistered : bool)
    : prog (K * coordinator) (server * bool) :=
  ph ← load_phase;
  if negb (should_accept_new_connections ph) && negb unregistered then
    let (un, p) := unregister_listener (K := K) a (poller s) in
    match un with
    | Unexpected _ => halt Killed
    | Val _ => mret (with_poller s p, true)
    end
  else mret (s, unregistered).

(** The body of the loop. *)
Definition drain_turn (fuel : nat) (a : Acceptor) (events : list Event) (s : server)
    (unregistered : bool) : prog (K * coordinator) (server * bool * list Event) :=
  r ← stop_listening a s unregistered;
  let '(s, unregistered) := r in
  n ← on_os (wait events k_poll_ms (poller s));
  match n.1 with
  | Unexpected _ => halt Killed
  | Val count =>
      s ← drain_events fuel a (take (Z.to_nat count) n.2) s;
      _ ← try_advance (DrainArgs unregistered (Z.of_nat (length (slots s)))
                         (any_pending_writes (slots s)));
      mret (s, unregistered, n.2)
  end.

(** [while (should_poll_network() && clock::now() < deadline) { ... }] *)
Fixpoint drain_serve (fuel : nat) (a : Acceptor) (deadline : Z) (events : list Event)
    (s : server) (unregistered : bool) : prog (K * coordinator) (server * bool) :=
  match fuel with
  | O => halt Fuel
  | S fuel =>
      ph ← load_phase;
      if negb (should_poll_network ph) then mret (s, unregistered)
      else
        now ← on_os (call_os sys_now);
        if deadline <=? now then mret (s, unregistered)
        else
          r ← drain_turn fuel a events s unregistered;
          let '(s, unregistered, events) := r in
          drain_serve fuel a deadline events s unregistered
  end.

(** [run_server]; the result is the port published and the completions. *)
Definition run_draining_server (fuel : nat) : prog (K * coordinator) (Z * Z) :=
  r ← on_os (set_up t);
  let '(a, p, port) := r in
  start ← on_os (call_os sys_now);
  r ← drain_serve fuel a (start + k_deadline_ms)
        (replicate (Z.to_nat k_events) (mkEvent k_invalid_socket EventMask.None))
        (mkServer [] p (replicate (Z.to_nat k_scratch_bytes) x00) 0) false;
  let '(s, unregistered) := r in
  ph ← load_phase;
  if negb (bool_decide (ph = Stopped)) then halt Killed
  else
    p ← on_os (close_all (rev (slots s)) (poller s));
    un ← (if (unregistered : bool) then mret (Val ())
          else mret (unregister_listener (K := K) a p).1);
    match un with
    | Unexpected _ => halt Killed
    | Val _ =>
        _ ← on_os (destroy (listener_sock (listener_ a)));     (* ~Acceptor() *)
        mret (port, completions s)
    end.
End graceful.

(** ** What the other threads can do *)

Lemma request_at_spec j l i :
  request_at j l = Some i → ∃ c, l !! i = Some c ∧ Lifecycle.prog c = Request.
Proof.
  revert j i. induction l as [|c l IH]; intros j i; simpl; [done|].
  destruct (Lifecycle.prog c) eqn:Ep; simpl.
  - destruct j; [intros [= <-]; by exists c|]. intros (i' & E & ->)%fmap_Some. by apply (IH j i').
  - intros (i' & E & ->)%fmap_Some. by apply (IH j i').
Qed.

Lemma access_inv sp i s s' :
  access sp i s = Some s' →
  ∃ c ph c', calls s !! i = Some c ∧ call_step false sp (phase_ s) c = Some (ph, c') ∧
    s' = Sys ph (<[i := c']> (calls s)).
Proof.
  unfold access. destruct (calls s !! i) as [c|]; [|done]. simpl.
  destruct (call_step _ _ _ _) as [[ph c']|] eqn:E; [|done]. intros [= <-]. by exists c, ph, c'.
Qed.

(** They request shutdowns, and leave the calls of this thread alone. *)
Record moved (s s' : sys) : Prop := {
  mv_inv : io_inv s → io_inv s';
  mv_phase : phase_ s' = phase_ s ∨ (phase_ s = Running ∧ phase_ s' = Draining);
  mv_advances i c : is_advance (Lifecycle.prog c) = true →
    calls s' !! i = Some c ↔ calls s !! i = Some c;
}.

#[export] Instance moved_preorder : PreOrder moved.
Proof.
  split; [by constructor; auto|]. intros x y z [H1 H2 H3] [H1' H2' H3']. constructor.
  - auto.
  - destruct H2 as [E|[E1 E2]], H2' as [E'|[E1' E2']]; rewrite ?E', ?E, ?E2 in *; auto; congruence.
  - intros. by rewrite H3', H3.
Qed.

Lemma request_step_phase sp ph c ph' c' :
  Lifecycle.prog c = Request → call_step false sp ph c = Some (ph', c') →
  Lifecycle.prog c' = Request ∧ (ph' = ph ∨ (ph = Running ∧ ph' = Draining)).
Proof.
  destruct c as [o p w]. simpl. intros ->. unfold call_step, request_step. simpl.
  destruct p, sp, ph; intros E; simplify_eq/=; auto.
Qed.

Lemma do_deed_moved s d : moved s (do_deed s d).
Proof.
  destruct d as [|j sp]; simpl.
  - constructor; simpl; [|by left|].
    + intros Hs. by apply (io_inv_call false).
    + intros i c Hc. split; [|by apply lookup_app_l_Some].
      intros [?|[? E]]%lookup_app_Some; [done|].
      by apply list_lookup_singleton_Some in E as [_ <-].
  - destruct (request_at j (calls s)) as [i|] eqn:E; [|done].
    destruct (access sp i s) as [s'|] eqn:Ea; [|done]. simpl.
    apply request_at_spec in E as (c & Hi & Hp).
    apply access_inv in Ea as (c0 & ph & c' & Hi' & Hs & ->). rewrite Hi in Hi'. injection Hi' as <-.
    destruct (request_step_phase _ _ _ _ _ Hp Hs) as [Hp' Hph]. constructor; simpl; [|done|].
    + intros Hinv. by eapply io_inv_access.
    + intros j' u Hu. destruct (decide (i = j')) as [<-|?].
      * rewrite list_lookup_insert_eq by by eapply lookup_lt_Some. rewrite Hi.
        split; intros [= <-]; by rewrite ?Hp, ?Hp' in Hu.
      * by rewrite list_lookup_insert_ne.
Qed.

Lemma deeds_moved s ds : moved s (foldl do_deed s ds).
Proof.
  revert s. induction ds as [|d ds IH]; intros s; [done|]. simpl. etrans; [apply do_deed_moved|apply IH].
Qed.

Lemma others_go_moved c : moved (life c) (life (others_go c)).
Proof. unfold others_go. destruct (to_come c); [done|]. apply deeds_moved. Qed.

(** ** Shutdown requests that are not interleaved with the loop

    The assert that ends [request_shutdown] fails when the loop advances to
    [Stopped] just before it (Lifecycle.v).  That cannot happen when no access
    of the loop falls into a call: each list of deeds is empty or a whole call. *)
Definition is_request (c : call) : bool := negb (is_advance (Lifecycle.prog c)).

Definition whole_request (n : nat) : list deed := RequestsShutdown :: replicate 3 (GoesOn n false).

(** [n] calls have been made. *)
Fixpoint apart (n : nat) (l : list (list deed)) : Prop :=
  match l with
  | [] => True
  | [] :: l => apart n l
  | deeds :: l => deeds = whole_request n ∧ apart (S n) l
  end.

Record settled (n : nat) (s : sys) : Prop := {
  se_returned : Forall (λ c, is_request c = true → at_pc c = Returned) (calls s);
  se_count : countb is_request (calls s) = n;
}.

Lemma request_at_last l c :
  is_request c = true → request_at (countb is_request l) (l ++ [c]) = Some (length l).
Proof.
  intros Hc. induction l as [|u l IH]; simpl.
  - unfold is_request in Hc. by destruct (is_advance _).
  - rewrite countb_cons. assert (is_request u = negb (is_advance (Lifecycle.prog u))) as -> by done.
    destruct (is_advance (Lifecycle.prog u)); simpl; by rewrite IH.
Qed.

Lemma access_last sp ph l c :
  access sp (length l) (Sys ph (l ++ [c])) =
  (λ r, Sys r.1 (l ++ [r.2])) <$> call_step false sp ph c.
Proof.
  unfold access. simpl. rewrite lookup_app_r, Nat.sub_diag by done. simpl.
  destruct (call_step _ _ _ _); [|done]. simpl.
  by rewrite insert_app_r_alt, Nat.sub_diag by done.
Qed.

(** One deed of the last call. *)
Lemma goes_on_last ph l p w :
  do_deed (Sys ph (l ++ [Call Request p w])) (GoesOn (countb is_request l) false) =
  match call_step false false ph (Call Request p w) with
  | Some r => Sys r.1 (l ++ [r.2])
  | None => Sys ph (l ++ [Call Request p w])
  end.
Proof.
  unfold do_deed. cbn [calls]. rewrite request_at_last by done. rewrite access_last.
  by destruct (call_step _ _ _ _).
Qed.

Ltac evaluate_access :=
  match goal with
  | |- context [call_step false false ?ph ?c] =>
      let r := eval vm_compute in (call_step false false ph c) in
      change (call_step false false ph c) with r
  end; cbv iota; cbn [fst snd].

Lemma whole_request_settled n s : settled n s → settled (S n) (foldl do_deed s (whole_request n)).
Proof.
  intros [Hr <-]. destruct s as [ph l]. cbn [calls] in *.
  assert (∃ ph' w, foldl do_deed (Sys ph l) (whole_request (countb is_request l)) =
    Sys ph' (l ++ [Call Request Returned w])) as (ph' & w & ->).
  { unfold whole_request. cbn [foldl replicate]. unfold do_deed at 4. cbn [phase_ calls].
    unfold start.
    revert Hr. destruct ph; intros _; do 3 (try rewrite goes_on_last; evaluate_access); eauto. }
  constructor; simpl.
  - apply Forall_app_2; [done|]. by apply Forall_singleton.
  - rewrite countb_app. unfold countb at 2. simpl. lia.
Qed.

(** ** The accesses of this thread *)

(** The calls of [try_advance_to_stopped_if_drained] are over, but for the
    [i]th call. *)
Definition others_idle (i : nat) (s : sys) : Prop :=
  ∀ j c, calls s !! j = Some c → is_advance (Lifecycle.prog c) = true → j = i ∨ finished c.

Definition idle (s : sys) : Prop :=
  ∀ j c, calls s !! j = Some c → is_advance (Lifecycle.prog c) = true → finished c.

Lemma moved_idle s s' : moved s s' → idle s → idle s'.
Proof. intros Hm Hi j c Hj Hc. apply (Hi j); [|done]. by apply (mv_advances _ _ Hm). Qed.

Lemma moved_others_idle i s s' : moved s s' → others_idle i s → others_idle i s'.
Proof. intros Hm Hi j c Hj Hc. apply (Hi j); [|done]. by apply (mv_advances _ _ Hm). Qed.

(** Backwards never, and to [Stopped] only by a call that was told so. *)
Record advanced (args : drain_args) (s s' : sys) : Prop := {
  ad_rank : phase_rank (phase_ s) ≤ phase_rank (phase_ s');
  ad_drained : phase_ s ≠ Stopped → phase_ s' = Stopped → drained args = true;
}.

#[export] Instance advanced_preorder args : PreOrder (advanced args).
Proof.
  split; [by constructor|]. intros x y z [H1 H2] [H1' H2']. constructor; [lia|].
  intros Hx Hz. destruct (decide (phase_ y = Stopped)); auto.
Qed.

Lemma moved_rank s s' : moved s s' → phase_rank (phase_ s) ≤ phase_rank (phase_ s').
Proof. intros [_ [->|[-> ->]] _]; simpl; lia. Qed.

Lemma moved_stopped s s' : moved s s' → phase_ s' = Stopped ↔ phase_ s = Stopped.
Proof. intros [_ [->|[-> ->]] _]; done. Qed.

Lemma moved_advanced args s s' : moved s s' → advanced args s s'.
Proof.
  intros Hm. constructor; [by apply moved_rank|]. intros H1 H2. by apply (moved_stopped _ _ Hm) in H2.
Qed.

Section calls.
Context {K : Type} (fine : Prop).
Implicit Types (k : K) (c : coordinator).
Abbreviation aborts := (aborts fine).

(** The coordinator between two accesses of this thread. [fine]: the requests
    are not interleaved with them. *)
Record shared_ok (c : coordinator) : Prop := {
  sh_inv : io_inv (life c);
  sh_fine : fine → ∃ n, settled n (life c) ∧ apart n (to_come c);
}.

Lemma others_go_settled c :
  (∃ n, settled n (life c) ∧ apart n (to_come c)) →
  ∃ n, settled n (life (others_go c)) ∧ apart n (to_come (others_go c)).
Proof.
  intros (n & Hs & Ha). unfold others_go. destruct (to_come c) as [|[|d ds] rest] eqn:E; simpl in *.
  - exists n. by rewrite E.
  - by exists n.
  - destruct Ha as [Ed Ha]. exists (S n). split; [|done].
    pose proof (whole_request_settled n _ Hs) as Hw. rewrite <- Ed in Hw. exact Hw.
Qed.

(** No assert has failed where requests are settled. *)
Lemma settled_nobody_aborted n s : io_inv s → settled n s → anyone_aborted s = false.
Proof.
  intros Hi [Hr _]. apply not_true_is_false. unfold anyone_aborted.
  rewrite existsb_exists. intros (c & Hc & Ha%bool_decide_eq_true).
  apply list_elem_of_In in Hc. destruct (is_advance (Lifecycle.prog c)) eqn:E.
  - by eapply io_no_abort.
  - rewrite Forall_forall in Hr. specialize (Hr c Hc). unfold is_request in Hr.
    rewrite E in Hr. by rewrite Hr in Ha.
Qed.

Lemma interfere_spec k c :
  shared_ok c →
  wp aborts interfere (k, c) (λ _ kc,
    kc.1 = k ∧ shared_ok kc.2 ∧ moved (life c) (life kc.2) ∧ anyone_aborted (life kc.2) = false).
Proof.
  intros [Hi Hf]. pose proof (others_go_moved c) as Hm.
  assert (shared_ok (others_go c)) as Hok.
  { constructor; [by apply (mv_inv _ _ Hm)|]. intros H. by apply others_go_settled, Hf. }
  unfold interfere, wp. cbn [fst snd]. destruct (anyone_aborted _) eqn:E; simpl; [|done].
  split; [done|]. intros Hfine. destruct (Hf Hfine) as (n & Hs).
  destruct (others_go_settled c) as (n' & Hs' & _); [by exists n|].
  rewrite (settled_nobody_aborted n') in E; [done|apply Hok|done].
Qed.

(** A load sees the phase the other threads have brought about. *)
Lemma load_phase_spec k c :
  shared_ok c →
  wp aborts load_phase (k, c) (λ ph kc,
    kc.1 = k ∧ shared_ok kc.2 ∧ moved (life c) (life kc.2) ∧ ph = phase_ (life kc.2)).
Proof.
  intros Hok. apply wp_bind. eapply wp_mono; [by apply interfere_spec|].
  intros [] kc (? & ? & ? & _). by apply wp_read.
Qed.

(** An access of a call of [try_advance_to_stopped_if_drained]. *)
Lemma advance_access i args s u ph u' :
  io_inv s → calls s !! i = Some u → Lifecycle.prog u = Advance args →
  call_step false false (phase_ s) u = Some (ph, u') →
  Lifecycle.prog u' = Advance args ∧ at_pc u' ≠ Aborted ∧
  io_inv (Sys ph (<[i := u']> (calls s))) ∧ advanced args s (Sys ph (<[i := u']> (calls s))).
Proof.
  intros Hi Hu Hp Hs.
  assert (io_inv (Sys ph (<[i := u']> (calls s)))) as Hi' by by eapply io_inv_access.
  destruct (sys_inv_access false _ _ _ _ _ _ (io_sys _ Hi) Hu Hs) as (He & Hp' & Hok).
  rewrite Hp in Hp'. split; [done|]. split.
  { eapply io_no_abort; [exact Hi'| |by rewrite Hp']. simpl.
    eapply list_elem_of_lookup_2, list_lookup_insert_eq. by eapply lookup_lt_Some. }
  split; [done|]. constructor; simpl.
  - destruct He as [->|? ? ? -> ->|? ? ? ? -> ->]; simpl; lia.
  - destruct He as [->|? ? ? -> ->|a Ha Hw Hw' -> ->]; [done..|]. intros _ _.
    rewrite Hp in Ha. injection Ha as <-. unfold call_ok in Hok. rewrite Hp' in Hok.
    destruct (at_pc u'); intuition congruence.
Qed.

Lemma settled_insert n i args s ph u u' :
  calls s !! i = Some u → Lifecycle.prog u = Advance args → Lifecycle.prog u' = Advance args →
  settled n s → settled n (Sys ph (<[i := u']> (calls s))).
Proof.
  intros Hu Hp Hp' [Hr Hn]. constructor; simpl.
  - apply Forall_insert_lookup; [done|]. unfold is_request. by rewrite Hp'.
  - pose proof (countb_insert is_request _ _ _ u' Hu) as Hc. unfold is_request in *.
    rewrite Hp, Hp' in Hc. simpl in Hc. lia.
Qed.

Lemma nobody_aborted_insert i s ph u' :
  anyone_aborted s = false → at_pc u' ≠ Aborted →
  anyone_aborted (Sys ph (<[i := u']> (calls s))) = false.
Proof.
  intros Ha Hu. apply not_true_is_false. unfold anyone_aborted in *. simpl.
  rewrite existsb_exists. intros (c & [j Hj]%list_elem_of_In%list_elem_of_lookup & Hb%bool_decide_eq_true).
  apply list_lookup_insert_Some in Hj as [(_ & <- & _)|[_ Hj]]; [done|].
  apply not_true_iff_false in Ha. apply Ha, existsb_exists. exists c.
  split; [|by apply bool_decide_eq_true]. apply list_elem_of_In. by eapply list_elem_of_lookup_2.
Qed.

(** A call that was told so, on its way while the phase is [Draining]. *)
Definition will_stop (args : drain_args) (s : sys) (u : call) : Prop :=
  drained args = true ∧ (phase_ s = Stopped ∨ (phase_ s = Draining ∧ ¬ finished u)).

Lemma will_stop_access args s u ph u' :
  Lifecycle.prog u = Advance args → op_wf (Advance args) → call_ok (phase_ s) u → will_stop args s u →
  call_step false false (phase_ s) u = Some (ph, u') →
  ph = Stopped ∨ (ph = Draining ∧ ¬ finished u').
Proof.
  destruct u as [o p w], s as [ph0 l]. unfold will_stop, call_step. simpl.
  intros -> Hwf%drained_asserts Hok [Hd Hph] E. rewrite Hd in Hwf. unfold call_ok in Hok.
  unfold advance_step, checked in E. simpl in E. rewrite Hd, <- Hwf in E. unfold finished in *.
  destruct p, ph0; simpl in *; simplify_eq/=; intuition congruence.
Qed.

Lemma will_stop_moved args s s' u : moved s s' → will_stop args s u → will_stop args s' u.
Proof.
  intros [_ Hph _] [Hd Hw]. split; [done|].
  destruct Hph as [->|[E _]]; [done|]. rewrite E in Hw. by destruct Hw as [?|[? _]].
Qed.

(** The call comes to its end, without a failed assert of its own. *)
Lemma run_call_spec fuel i args u k c :
  shared_ok c → calls (life c) !! i = Some u → Lifecycle.prog u = Advance args →
  others_idle i (life c) → (call_measure (phase_ (life c)) u < fuel)%nat →
  wp aborts (run_call fuel i) (k, c) (λ _ kc,
    kc.1 = k ∧ shared_ok kc.2 ∧ idle (life kc.2) ∧ advanced args (life c) (life kc.2) ∧
    (will_stop args (life c) u → phase_ (life kc.2) = Stopped)).
Proof.
  revert u c. induction fuel as [|fuel IH]; intros u c Hok Hu Hp Hidle Hfuel; [lia|].
  cbn [run_call]. apply wp_bind. eapply wp_mono; [by apply interfere_spec|].
  intros [] [k1 c1] (Ek & Hok1 & Hm & Hna). cbn [fst snd] in *. subst k1.
  apply wp_bind, wp_read. cbn [snd]. pose proof Hok1 as [Hi1 Hf1].
  assert (is_advance (Lifecycle.prog u) = true) as Hadv by by rewrite Hp.
  pose proof (proj2 (mv_advances _ _ Hm i u Hadv) Hu) as Hu1.
  pose proof (moved_others_idle _ _ _ Hm Hidle) as Hidle1.
  assert (phase_step (phase_ (life c)) (phase_ (life c1))) as Hph
    by (destruct (mv_phase _ _ Hm); [by left|by right; left]).
  assert (call_ok (phase_ (life c1)) u) as Hcok
    by (eapply Forall_lookup_1; [apply (inv_calls _ (io_sys _ Hi1))|exact Hu1]).
  destruct (access false i (life c1)) as [s'|] eqn:Ea.
  - apply access_inv in Ea as (u0 & ph & u' & Hu0 & Hs & ->). rewrite Hu1 in Hu0. injection Hu0 as <-.
    destruct (advance_access _ _ _ _ _ _ Hi1 Hu1 Hp Hs) as (Hp' & Hnab & Hi' & Had).
    apply wp_bind, wp_call. cbn [fst snd].
    rewrite (nobody_aborted_insert _ _ _ _ Hna Hnab). eapply wp_mono.
    { apply (IH u').
      - constructor; [done|]. intros Hfine. destruct (Hf1 Hfine) as (n & Hs' & Hap).
        exists n. split; [|done]. by eapply settled_insert.
      - simpl. apply list_lookup_insert_eq. by eapply lookup_lt_Some.
      - done.
      - intros j v Hj Hv. simpl in Hj.
        apply list_lookup_insert_Some in Hj as [(<- & _)|[_ Hj]]; [by left|]. by eapply Hidle1.
      - simpl. apply call_step_measure in Hs as [_ Hmeas]. unfold fails_spuriously in Hmeas. cbn [andb] in Hmeas.
        pose proof (call_measure_mono _ _ u Hph). lia. }
    intros [] kc (-> & Hok' & Hid & Had' & Hstop). cbn [life] in *. split; [done|]. split; [done|].
    split; [done|]. split; [etrans; [by apply moved_advanced|]; by etrans|].
    intros Hw. apply Hstop. split; [apply Hw|]. simpl.
    eapply (will_stop_access args (life c1) u); [done| |exact Hcok|by apply (will_stop_moved _ _ _ _ Hm)|done].
    rewrite <- Hp. exact (Forall_lookup_1 _ _ _ _ (inv_ops _ (io_sys _ Hi1)) Hu1).
  - apply wp_ret. cbn [fst snd]. split; [done|]. split; [done|].
    assert (finished u) as Hfin.
    { destruct (decide (finished u)) as [|Hnf]; [done|].
      destruct (call_step_progress false false (phase_ (life c1)) u) as [r E]; [done|done|].
      unfold access in Ea. rewrite Hu1 in Ea. simpl in Ea. by rewrite E in Ea. }
    split; [|split; [by apply moved_advanced|]].
    2: { intros [_ [?|[_ ?]]]; [by apply (moved_stopped _ _ Hm)|done]. }
    intros j v Hj Hv. destruct (Hidle1 j v Hj Hv) as [->|?]; [|done].
    rewrite Hu1 in Hj. by injection Hj as <-.
Qed.

Lemma try_advance_spec args k c :
  shared_ok c → idle (life c) → op_wf (Advance args) →
  wp aborts (try_advance args) (k, c) (λ _ kc,
    kc.1 = k ∧ shared_ok kc.2 ∧ idle (life kc.2) ∧ advanced args (life c) (life kc.2) ∧
    (phase_ (life c) = Draining → drained args = true → phase_ (life kc.2) = Stopped)).
Proof.
  intros [Hi Hf] Hidle Hwf. unfold try_advance. apply wp_bind, wp_read, wp_bind, wp_call. cbn [fst snd].
  assert (one_io_thread (life c) (Advance args)) as Hone.
  { intros _. apply Forall_lookup. intros j v Hj Hv. by eapply Hidle. }
  eapply wp_mono; [eapply (run_call_spec 5 _ args (start (Advance args)))|]; cbn [life calls phase_].
  - constructor; cbn [life to_come].
    + by apply (io_inv_call false).
    + intros Hfine. destruct (Hf Hfine) as (n & [Hr Hn] & Ha). exists n. split; [|done].
      constructor; cbn [calls]; [|by rewrite countb_app, Hn, Nat.add_0_r].
      apply Forall_app_2; [done|]. by apply Forall_singleton.
  - by rewrite lookup_app_r, Nat.sub_diag by done.
  - done.
  - intros j v Hj Hv. cbn [life calls] in Hj. apply lookup_app_Some in Hj as [Hj|[Hge E]].
    + right. by eapply Hidle.
    + apply list_lookup_singleton_Some in E as [E _]. left. lia.
  - unfold call_measure. simpl. lia.
  - intros [] kc (-> & ? & ? & [? ?] & Hstop). do 4 (split; [done|]). intros Hph Hd. apply Hstop.
    split; [done|]. right. split; [done|]. by intros [].
Qed.
End calls.

(** ** The event loop *)

Lemma wp_on_os {K A} ok (p : prog K A) k (c : coordinator) Q :
  wp ok p k (λ a k', Q a (k', c)) → wp ok (on_os p) (k, c) Q.
Proof. unfold wp, on_os. cbn [fst snd]. by destruct (p k). Qed.

(** What the poller watches the listener for. *)
Definition listening (unregistered : bool) : option Z :=
  if unregistered then None else Some EventMask.Read.

Section loop.
Context {K : Type} `{params : !ServerParams, !Kernel K, !Observe K, !KernelLaws K, !World K,
  !FiniteWorld K, !GoodWorld K, !MapOrder Z}.
Context (t : target) (sig : nat) (fine : Prop).
Hypothesis codec_fits : fits t k_max_payload.
#[local] Existing Instance debug_build.
Abbreviation aborts := (aborts fine).
Abbreviation ready := (ready sig fine).
Abbreviation listens := (listens fine).
Abbreviation shared_ok := (shared_ok fine).

(** Nothing is opened once this thread cannot see [Running] any more. *)
Definition accepts_while_running (k k' : K) (s : sys) : Prop :=
  phase_ s ≠ Running → open_fds k' ⊆ open_fds k.

Lemma moved_not_running s s' : moved s s' → phase_ s ≠ Running → phase_ s' ≠ Running.
Proof. intros [_ [->|[-> ->]] _]; done. Qed.

Lemma drain_event_spec u O L fuel a ev s k c :
  server_ok (listening u) O L s k → listens L a → ready k → (work s k < fuel)%nat →
  Z.of_nat (volume s k) ≤ max_size t → shared_ok c →
  wp aborts (drain_event t sig fuel a ev s) (k, c) (λ s' kc,
    handled (listening u) O L s k s' kc.1 ∧ shared_ok kc.2 ∧ moved (life c) (life kc.2) ∧
    accepts_while_running k kc.1 (life c)).
Proof.
  intros Hok Hl Hrd Hf Hv Hc. unfold drain_event. case (Z.eqb_spec (ev_socket ev) (listener_handle a)).
  - intros E. apply wp_bind. eapply wp_mono; [by apply (load_phase_spec fine)|].
    intros ph [k1 c1] (Ek & Hc1 & Hm & ->). cbn [fst snd] in *. subst k1.
    unfold should_accept_new_connections. case_bool_decide as Hrun; cbn [negb].
    + apply wp_on_os. eapply wp_mono; [by eapply handle_event_run|].
      intros s' k' H. split; [done|]. split; [done|]. split; [done|].
      intros Hne%(moved_not_running _ _ Hm). done.
    + apply wp_ret. split; [by apply handled_refl|]. by split; [|split; [|intros _]].
  - intros E. apply wp_on_os. eapply wp_mono; [by eapply handle_connection_run|].
    intros s' k' [H Ho]. split; [done|]. split; [done|]. split; [done|]. by intros _.
Qed.

Lemma drain_events_spec u O L fuel a evs s k c :
  server_ok (listening u) O L s k → listens L a → ready k → (work s k < fuel)%nat →
  Z.of_nat (volume s k) ≤ max_size t → shared_ok c →
  wp aborts (drain_events t sig fuel a evs s) (k, c) (λ s' kc,
    handled (listening u) O L s k s' kc.1 ∧ shared_ok kc.2 ∧ moved (life c) (life kc.2) ∧
    accepts_while_running k kc.1 (life c)).
Proof.
  revert s k c. induction evs as [|ev evs IH]; intros s k c Hok Hl Hrd Hf Hv Hc; simpl.
  { apply wp_ret. split; [by apply handled_refl|]. by split; [|split; [|intros _]]. }
  apply wp_bind. eapply wp_mono; [by eapply drain_event_spec|].
  intros s1 [k1 c1] ([Hok1 Hshr] & Hc1 & Hm & Ho). cbn [fst snd] in *. pose proof Hshr as [_ ? ?].
  eapply wp_mono; [apply IH; [done|done|by eapply shrinks_ready|lia|lia|done]|].
  intros s2 [k2 c2] (H2 & Hc2 & Hm2 & Ho2). cbn [fst snd] in *.
  split; [by eapply handled_trans|]. split; [done|]. split; [by etrans|].
  intros Hne. etrans; [apply Ho2; by eapply moved_not_running|by apply Ho].
Qed.

Lemma server_ok_unregistered O L s k a :
  server_ok (listening false) O L s k → listener_handle a = L →
  ∃ p, unregister_listener (K := K) a (poller s) = (Val (), p) ∧
    server_ok (listening true) O L (with_poller s p) k.
Proof.
  intros [] <-. unfold unregister_listener. simpl. eexists. split; [done|].
  set (L := listener_handle a) in *. constructor; simpl; try done.
  - by rewrite lookup_delete_eq.
  - rewrite Forall_forall in sv_registered |- *. intros sl Hsl. rewrite lookup_delete_ne.
    + by apply sv_registered.
    + intros E. destruct (sv_fresh (conn_handle (conn sl))) as (_ & Hne & _); [|done].
      unfold handles. apply list_elem_of_fmap. by exists sl.
  - intros h. rewrite lookup_delete_is_Some. intros [? ?]. by apply sv_only.
Qed.

Lemma stop_listening_spec u O L a s k c :
  server_ok (listening u) O L s k → listener_handle a = L → shared_ok c →
  wp aborts (stop_listening a s u) (k, c) (λ r kc,
    kc.1 = k ∧ server_ok (listening r.2) O L r.1 k ∧ slots r.1 = slots s ∧
    shared_ok kc.2 ∧ moved (life c) (life kc.2) ∧ (phase_ (life c) ≠ Running → r.2 = true)).
Proof.
  intros Hok Ha Hc. unfold stop_listening. apply wp_bind.
  eapply wp_mono; [by apply (load_phase_spec fine)|].
  intros ph [k1 c1] (Ek & Hc1 & Hm & ->). cbn [fst snd] in *. subst k1.
  unfold should_accept_new_connections. case_bool_decide as Hrun; simpl.
  { apply wp_ret. do 5 (split; [done|]). by intros Hne%(moved_not_running _ _ Hm). }
  destruct u; simpl; [by apply wp_ret|].
  destruct (server_ok_unregistered O L s k a) as (p & E & Hok'); [done..|].
  injection E as <-. by apply wp_ret.
Qed.

(** How the loop is left. *)
Definition loop_left (deadline : Z) (r : server * bool) (kc : K * coordinator) : Prop :=
  (phase_ (life kc.2) = Stopped ∧ slots r.1 = [] ∧ r.2 = true) ∨
  ∃ k, kc.1 = (sys_now k).2 ∧ deadline ≤ (sys_now k).1.

Lemma drained_args_inv u n (w : bool) : drained (DrainArgs u n w) = true → u = true ∧ n ≤ 0.
Proof.
  unfold drained. simpl. rewrite negb_true_iff, !orb_false_iff, negb_false_iff. intros [[? ?] _].
  split; [done|lia].
Qed.

Lemma advanced_not_running args s s' :
  advanced args s s' → phase_ s ≠ Running → phase_ s' ≠ Running.
Proof. intros [H _] Hne. destruct (phase_ s), (phase_ s'); simpl in *; try done; lia. Qed.

(** One turn of the loop, after the clock. *)
Lemma drain_turn_spec u O L fuel a events s k c :
  server_ok (listening u) O L s k → listens L a → ready k → events ≠ [] → (work s k < fuel)%nat →
  Z.of_nat (volume s k) ≤ max_size t → shared_ok c → idle (life c) → phase_ (life c) ≠ Stopped →
  wp aborts (drain_turn t sig fuel a events s u) (k, c) (λ r kc,
    handled (listening r.1.2) O L s k r.1.1 kc.1 ∧ r.2 ≠ [] ∧ shared_ok kc.2 ∧ idle (life kc.2) ∧
    (phase_ (life kc.2) = Stopped → slots r.1.1 = [] ∧ r.1.2 = true) ∧
    accepts_while_running k kc.1 (life c) ∧
    (phase_ (life c) ≠ Running →
     phase_ (life kc.2) ≠ Running ∧ (slots r.1.1 = [] → phase_ (life kc.2) = Stopped)) ∧
    (phase_ (life c) ≠ Running → r.1.2 = true)).
Proof.
  intros Hok Hl Hrd Hev Hf Hv Hc Hidle Hns. unfold drain_turn.
  apply wp_bind. eapply wp_mono; [by eapply stop_listening_spec; [|apply Hl|]|].
  intros [s1 u1] [k1 c1] (Ek & Hok1 & Es & Hc1 & Hm1 & Hu). cbn [fst snd] in *. subst k1.
  assert (shrinks s s1 k k) as Hshr1 by by apply shrinks_progress.
  destruct (wait_run _ _ _ _ _ events Hok1 Hev) as ([res evs] & k2 & E & Hwk & Hwc & Hevs).
  apply wp_bind, wp_on_os. unfold wp at 1. rewrite E. cbn [fst snd].
  destruct res as [count|].
  2: { apply (abort_unless sig fine k False); [done| |tauto]. intros _ Hg.
       eapply (good_wait events k_poll_ms (poller s1) k); [done|by eapply server_ok_pollable|done| |exact E].
       intros h. by eapply server_ok_registered_open. }
  destruct (handled_quiet _ _ _ _ _ _ Hok1 Hwk Hwc) as [Hok2 Hshr2].
  pose proof (shrinks_trans _ _ _ _ _ _ Hshr1 Hshr2) as Hshr. pose proof Hshr as [_ ? ?].
  apply wp_bind. eapply wp_mono;
    [eapply drain_events_spec; [exact Hok2|done|by eapply shrinks_ready|lia|lia|exact Hc1]|].
  intros s3 [k3 c3] ([Hok3 Hshr3] & Hc3 & Hm3 & Ho3). cbn [fst snd] in *.
  assert (moved (life c) (life c3)) as Hm by by etrans.
  apply wp_bind. eapply wp_mono; [apply (try_advance_spec fine)|].
  - done.
  - by eapply moved_idle.
  - simpl. lia.
  - intros [] [k4 c4] (Ek & Hc4 & Hid4 & Had & Hstop). cbn [fst snd] in *. subst k4. apply wp_ret. cbn [fst snd].
    split; [split; [done|by eapply shrinks_trans]|]. split; [done|]. split; [done|]. split; [done|].
    split; [|split; [|split]].
    + intros Hst. destruct (drained_args_inv u1 (len (slots s3)) (any_pending_writes (slots s3))) as [-> Hlen].
      { apply (ad_drained _ _ _ Had); [|done]. by rewrite (moved_stopped _ _ Hm). }
      split; [|done]. apply length_zero_iff_nil. lia.
    + intros Hne. destruct Hwk as [<- _]. apply Ho3. by eapply moved_not_running.
    + intros Hne. split; [eapply advanced_not_running; [exact Had|]; by eapply moved_not_running|].
      intros Hemp. apply Hstop; [|by rewrite (Hu Hne), Hemp].
      pose proof (moved_not_running _ _ Hm Hne). pose proof (moved_stopped _ _ Hm).
      destruct (phase_ (life c3)); tauto || naive_solver.
    + done.
Qed.

(** The states in which the loop comes back to its condition. *)
Inductive turn_begins (a : Acceptor) (deadline : Z) :
    nat → list Event → server → bool → K * coordinator → K * coordinator → Prop :=
| turn_first fuel events s u kc : turn_begins a deadline fuel events s u kc kc
| turn_next fuel events s u kc ph k1 c1 s2 u2 events2 kc2 kc' :
    load_phase kc = Done ph (k1, c1) → should_poll_network ph = true → (sys_now k1).1 < deadline →
    drain_turn t sig fuel a events s u ((sys_now k1).2, c1) = Done (s2, u2, events2) kc2 →
    turn_begins a deadline fuel events2 s2 u2 kc2 kc' →
    turn_begins a deadline (S fuel) events s u kc kc'.

(** Nothing is opened in the turns that begin when the phase is not [Running]. *)
Definition accepts_nothing_after (a : Acceptor) (deadline : Z) (fuel : nat) (events : list Event)
    (s : server) (u : bool) (kc kc1 : K * coordinator) : Prop :=
  ∀ kc', turn_begins a deadline fuel events s u kc kc' →
    accepts_while_running kc'.1 kc1.1 (life kc'.2).

(** The loop comes to an end, and is left drained or at the deadline. *)
Lemma drain_serve_run u O L fuel a deadline events s k c :
  server_ok (listening u) O L s k → listens L a → ready k → events ≠ [] →
  (looks_left deadline k + work s k < fuel)%nat → Z.of_nat (volume s k) ≤ max_size t →
  shared_ok c → idle (life c) → (phase_ (life c) = Stopped → slots s = [] ∧ u = true) →
  wp aborts (drain_serve t sig fuel a deadline events s u) (k, c) (λ r kc,
    handled (listening r.2) O L s k r.1 kc.1 ∧ shared_ok kc.2 ∧
    loop_left deadline r kc ∧ accepts_nothing_after a deadline fuel events s u (k, c) kc).
Proof.
  revert u events s k c.
  induction fuel as [|fuel IH]; intros u events s k c Hok Hl Hrd Hev Hf Hv Hc Hidle Hst; [lia|].
  cbn [drain_serve]. apply wp_bind. eapply wp_run; [by apply (load_phase_spec fine)|].
  intros ph [k1 c1] Eload (Ek & Hc1 & Hm & ->). cbn [fst snd] in *. subst k1.
  pose proof (moved_idle _ _ Hm Hidle) as Hidle1.
  destruct (should_poll_network (phase_ (life c1))) eqn:Hpoll; cbn [negb].
  2: { apply wp_ret. cbn [fst snd]. split; [by apply handled_refl|].
       split; [done|]. apply bool_decide_eq_false, dec_stable in Hpoll. split.
       - left. split; [done|]. apply Hst. by apply (moved_stopped _ _ Hm).
       - intros kc' Hturn. inversion Hturn; subst; [by intros _|].
         rewrite Eload in *. simplify_eq. by match goal with
           Hp : should_poll_network _ = true |- _ => apply bool_decide_eq_true in Hp end. }
  apply wp_bind, wp_on_os, wp_call.
  pose proof (now_law k) as Hnk. pose proof (now_finite k) as [_ Hlook].
  pose proof (covers_now (R := progress) k) as Hnc.
  destruct (handled_quiet _ _ _ _ _ _ Hok Hnk Hnc) as [Hok1 Hshr1].
  destruct (Z.leb_spec deadline (sys_now k).1) as [Hd|Hd].
  { apply wp_ret. cbn [fst snd]. split; [by split|]. split; [done|]. split; [right; by exists k|].
    intros kc' Hturn. inversion Hturn; subst; [by intros _; cbn [fst]; destruct Hnk as [-> _]|].
    rewrite Eload in *. simplify_eq. lia. }
  pose proof (proj1 (bool_decide_eq_true _) Hpoll) as Hns.
  specialize (Hlook _ Hd). pose proof Hshr1 as [_ ? ?]. pose proof Hnc as (_ & Hl1 & _).
  apply wp_bind. eapply wp_run;
    [eapply drain_turn_spec; [exact Hok1|done|by eapply shrinks_ready|done|lia|lia|done..]|].
  intros [[s2 u2] evs] [k2 c2] Eturn ([Hok2 Hshr2] & Hevs & Hc2 & Hid2 & Hst2 & Ho2 & Hr2 & _). cbn [fst snd] in *.
  pose proof (shrinks_trans _ _ _ _ _ _ Hshr1 Hshr2) as Hshr.
  pose proof Hshr as [_ ? ?]. destruct Hshr2 as [(_ & Hl2 & _) _ _]. specialize (Hl2 deadline).
  eapply wp_mono; [apply IH; [exact Hok2|done|by eapply shrinks_ready|done|lia|lia|done..]|].
  intros [s3 u3] [k3 c3] (H3 & Hc3 & Hleft & Ho3). cbn [fst snd] in *.
  split; [split; [apply H3|eapply shrinks_trans; [exact Hshr|apply H3]]|]. split; [done|]. split; [done|].
  intros kc' Hturn. inversion Hturn; subst.
  - intros Hne%(moved_not_running _ _ Hm). etrans; [apply (Ho3 (k2, c2)); [constructor|by apply Hr2]|].
    etrans; [by apply Ho2|]. by destruct Hnk as [-> _].
  - rewrite Eload in *. simplify_eq. rewrite Eturn in *. simplify_eq. by apply Ho3.
Qed.

End loop.

(** ** Properties *)

(** The shutdown requests made and still to come are not interleaved with the
    accesses of the loop. *)
Definition requests_apart (c : coordinator) : Prop := ∃ n, settled n (life c) ∧ apart n (to_come c).

Section properties.
Context {K : Type} `{params : !ServerParams, !Kernel K, !Observe K, !KernelLaws K, !World K,
  !FiniteWorld K, !GoodWorld K, !MapOrder Z}.
Context (t : target) (sig : nat).
Hypothesis codec_fits : fits t k_max_payload.
#[local] Existing Instance debug_build.

(** C6. The event loop of the draining server, whatever the other threads do to
    the lifecycle, comes to an end, and is left in one of two ways: the lifecycle
    is [Stopped], no connection is left and the listener is unregistered; or the
    clock shows the deadline. It keeps the invariant of the event loop. Whenever
    it comes back to its condition and the phase is no longer [Running], no
    descriptor is opened from there to its end. It aborts only where the world is
    not good, or where a call of [request_shutdown] made by another thread has
    accesses of the loop between its own; in a good world, with such calls made
    between the accesses of the loop, it does not abort. *)
Theorem drain_serve_drains u O L fuel a deadline events s k c :
  server_ok (listening u) O L s k → listener_handle a = L → (signals k < sig)%nat → events ≠ [] →
  (looks_left deadline k + work s k < fuel)%nat → Z.of_nat (volume s k) ≤ max_size t →
  io_reachable false (life c) → idle (life c) → phase_ (life c) ≠ Stopped →
  wp (λ e, e = Killed ∧ ¬ (good k ∧ is_listener L ∧ requests_apart c))
    (drain_serve t sig fuel a deadline events s u) (k, c) (λ r kc,
      server_ok (listening r.2) O L r.1 kc.1 ∧
      ((phase_ (life kc.2) = Stopped ∧ slots r.1 = [] ∧ r.2 = true) ∨
       ∃ k0, kc.1 = (sys_now k0).2 ∧ deadline ≤ (sys_now k0).1) ∧
      (∀ kc', turn_begins t sig a deadline fuel events s u (k, c) kc' →
         phase_ (life kc'.2) ≠ Running → open_fds kc.1 ⊆ open_fds kc'.1)).
Proof.
  intros Hok Hl Hsig Hev Hf Hv Hc Hidle Hns. eapply wp_mono.
  { apply (drain_serve_run t sig (good k ∧ is_listener L ∧ requests_apart c) codec_fits u O L fuel a
      deadline events s k c); try done; [by split; [|intros (_ & ? & _)]|by split; [|intros (? & _)]|].
    constructor; [by apply (io_inv_reachable false)|by intros (_ & _ & ?)]. }
  intros r kc ([? _] & _ & ? & ?). done.
Qed.

(** C7. A shutdown that has been requested is carried out: a turn of the loop
    begun while [Draining] that leaves no connection advances the lifecycle to
    [Stopped], and the loop ends at its next test; and one that leaves
    connections does not advance it. *)
Theorem drain_turn_stops u O L fuel a events s k c :
  server_ok (listening u) O L s k → listener_handle a = L → (signals k < sig)%nat → events ≠ [] →
  (work s k < fuel)%nat → Z.of_nat (volume s k) ≤ max_size t →
  io_reachable false (life c) → idle (life c) → phase_ (life c) = Draining →
  wp (λ e, e = Killed ∧ ¬ (good k ∧ is_listener L ∧ requests_apart c))
    (drain_turn t sig fuel a events s u) (k, c) (λ r kc,
      open_fds kc.1 ⊆ open_fds k ∧ r.1.2 = true ∧
      phase_ (life kc.2) = (if bool_decide (slots r.1.1 = []) then Stopped else Draining)).
Proof.
  intros Hok Hl Hsig Hev Hf Hv Hc Hidle Hph. assert (phase_ (life c) ≠ Running) as Hnr by by rewrite Hph.
  eapply wp_mono.
  { apply (drain_turn_spec t sig (good k ∧ is_listener L ∧ requests_apart c) codec_fits u O L fuel a
      events s k c); try done; [by split; [|intros (_ & ? & _)]|by split; [|intros (? & _)]| |by rewrite Hph].
    constructor; [by apply (io_inv_reachable false)|by intros (_ & _ & ?)]. }
  intros r kc (_ & _ & _ & _ & Hst & Ho & Hr & Hu). destruct (Hr Hnr) as [Hne Hs].
  split; [by apply Ho|]. split; [by apply Hu|]. case_bool_decide as Hemp; [by apply Hs|].
  destruct (phase_ (life kc.2)) eqn:E; [done|done|]. by destruct Hst.
Qed.

(** C8. The draining server comes to an end, whatever the other threads do to
    the lifecycle: it aborts, or it returns, and then the lifecycle is
    [Stopped], every descriptor it opened is closed again, and on each what was
    sent back is a prefix of what was received. *)
Theorem run_draining_server_ends k others :
  (signals k < sig)%nat → Z.of_nat (traffic k) ≤ max_size t →
  (∀ h, h ∉ open_fds k → sent k h `prefix_of` received k h) →
  ∃ fuel0, ∀ fuel, (fuel0 ≤ fuel)%nat →
    wp may_abort (run_draining_server t sig fuel) (k, mkCoordinator (Sys Running []) others) (λ _ kc,
      phase_ (life kc.2) = Stopped ∧ open_fds kc.1 = open_fds k ∧
      ∀ h, h ∉ open_fds k → sent kc.1 h `prefix_of` received kc.1 h).
Proof.
  intros Hsig Hv Hpre. set (c := mkCoordinator _ others).
  assert (replicate (Z.to_nat k_scratch_bytes) x00 ≠ []) as Hscr by apply buffer_positive, scratch_positive.
  unfold run_draining_server.
  generalize dependent (replicate (Z.to_nat k_scratch_bytes) x00). intros scr Hscr.
  pose proof (set_up_run t scr k Hscr Hpre) as Hup.
  destruct (set_up t k) as [[[a p] port] k1|st] eqn:Eup; unfold wp in Hup; rewrite Eup in Hup.
  2: { exists O. intros fuel _. apply wp_bind, wp_on_os. unfold wp. by rewrite Eup. }
  destruct Hup as [Hok Hpr]. simpl in Hok.
  pose proof (now_law k1) as Hnk. pose proof (covers_now (R := progress) k1) as Hnc.
  destruct (handled_quiet _ _ _ _ _ _ Hok Hnk Hnc) as [Hok2 _].
  set (s0 := mkServer [] p scr 0) in *. set (dl := (sys_now k1).1 + k_deadline_ms).
  pose proof Hpr as (? & _ & ? & _). pose proof Hnc as (? & _ & ? & _).
  exists (S (looks_left dl (sys_now k1).2 + work s0 (sys_now k1).2)). intros fuel Hfuel.
  eapply (wp_weaken (aborts False)); [|by intros e [-> _]].
  apply wp_bind, wp_on_os. unfold wp at 1. rewrite Eup. apply wp_bind, wp_on_os, wp_call, wp_bind.
  assert (Z.of_nat (volume s0 (sys_now k1).2) ≤ max_size t) as Hvol
    by (unfold volume, s0; simpl; lia).
  eapply wp_mono.
  - eapply (drain_serve_run t sig False codec_fits false _ _ fuel a dl); try done;
      [split; [lia|done]|apply buffer_positive, events_positive|].
    constructor; [|done]. apply (io_inv_reachable false), reachable_init. done.
  - intros [s u] [k3 c3] ([Hok3 _] & Hc3 & _). cbn [fst snd] in *.
    apply wp_bind. eapply wp_mono; [by apply (load_phase_spec False)|].
    intros ph [k4 c4] (Ek & _ & _ & ->). cbn [fst snd] in *. subst k4.
    case_bool_decide as Hst; cbn [negb]; [|by apply wp_halt; split; [|intros []]].
    destruct (close_parts_run _ _ _ _ a _ Hok3 eq_refl) as (p' & k4 & E & r & k5 & E5 & Hend).
    apply wp_bind, wp_on_os. unfold wp at 1. rewrite E.
    apply wp_bind. destruct u; (apply wp_ret; simpl; apply wp_bind, wp_on_os; unfold wp at 1;
      rewrite E5; by apply wp_ret).
Qed.
End properties.

(** ** A run *)

Section demo.
#[local] Existing Instance graceful_params.
#[local] Instance order : MapOrder Z := listing_order Z.

(** A client is served; a shutdown is requested; the client closes. *)
Definition graceful_world : sim :=
  Sim.boot [Addrs [demo_addr]; Give 1; Give 1; Give 1; Give 1; Give 8080; Give 1; Give 1;
    Ready [3] [] []; Give 1; Give 1; Give 1; Block;
    Ready [6] [] []; Data [x00; x00; x00; x01; x41]; Give 9; Block;
    Ready [3; 6] [] []; Data []; Give 1].

(** The loop makes three accesses in its first turn, and four in the second
    until the request. *)
Definition graceful_others : list (list deed) := replicate 8 [] ++ [whole_request 0].

Example graceful_server_returns :
  match run_draining_server lp64 10 1000 (graceful_world, mkCoordinator (Sys Running []) graceful_others) with
  | Done (_, completed) (k, c) =>
      completed = 1 ∧ elements (open_fds k) = [] ∧ sent k 6 = [x00; x00; x00; x01; x41] ∧
      phase_ (life c) = Stopped ∧ script k = []
  | Stop _ => False
  end.
Proof. vm_compute. done. Qed.

Lemma run_draining_server_ends_witness :
  ∃ fuel0, ∀ fuel, (fuel0 ≤ fuel)%nat →
    wp may_abort (run_draining_server lp64 10 fuel)
        (graceful_world, mkCoordinator (Sys Running []) graceful_others) (λ _ kc,
      phase_ (life kc.2) = Stopped ∧ open_fds kc.1 = open_fds graceful_world ∧
      ∀ h, (h ∉ open_fds graceful_world) → sent kc.1 h `prefix_of` received kc.1 h).
Proof.
  apply (run_draining_server_ends lp64 10 (wide_fits lp64 k_max_payload ltac:(done)) graceful_world).
  - vm_compute. lia.
  - by vm_compute.
  - intros h _. by exists [].
Defined.

(** One connection, whose client closes; the shutdown is requested before the
    loop's first access. *)
Definition closing_os : sim := mkSim [Ready [3; 6] [] []; Data []; Give 1] 0 0 {[3; 6]} ∅ ∅ ∅.
Definition requested : coordinator := mkCoordinator (Sys Running []) [whole_request 0].
Definition in_draining : coordinator := mkCoordinator (Sys Draining [Call Request Returned true]) [].
Definition demo_acceptor : Acceptor := mkAcceptor (mkListener (mkSocket 3)).
Definition demo_events : list Event := replicate 2 (mkEvent k_invalid_socket EventMask.None).

Lemma closing_state_ok : server_ok (listening false) ∅ 3 demo_state closing_os.
Proof. exact (demo_state_ok _). Qed.

Lemma closing_os_good : good closing_os.
Proof.
  constructor; simpl.
  - repeat constructor; simpl; lia.
  - intros s. constructor.
  - done.
  - right. by vm_compute.
Qed.

Lemma requested_apart : requests_apart requested.
Proof. by exists O. Qed.

Lemma in_draining_apart : requests_apart in_draining.
Proof. exists 1%nat. split; [|done]. constructor; [by apply Forall_singleton|done]. Qed.

Lemma in_draining_reachable : io_reachable false (life in_draining).
Proof.
  by apply (after_eq_reachable false one_io_thread
    [StartCall Request; Access 0 false; Access 0 false; Access 0 false]).
Qed.

Lemma drain_serve_drains_witness :
  wp total (drain_serve lp64 1 2000 demo_acceptor 1000 demo_events demo_state false)
      (closing_os, requested) (λ r kc,
    server_ok (listening r.2) ∅ 3 r.1 kc.1 ∧
    ((phase_ (life kc.2) = Stopped ∧ slots r.1 = [] ∧ r.2 = true) ∨
     ∃ k0, kc.1 = (sys_now k0).2 ∧ 1000 ≤ (sys_now k0).1) ∧
    (∀ kc', turn_begins lp64 1 demo_acceptor 1000 2000 demo_events demo_state false (closing_os, requested) kc' →
       phase_ (life kc'.2) ≠ Running → open_fds kc.1 ⊆ open_fds kc'.1)).
Proof.
  eapply wp_weaken.
  - apply (drain_serve_drains lp64 1 (wide_fits lp64 k_max_payload ltac:(done)) false ∅ 3);
      [exact closing_state_ok|done|vm_compute; lia|done|vm_compute; lia|by vm_compute| | |done].
    + by apply reachable_init.
    + by intros [|j] u.
  - intros e [_ He]. apply He. split; [exact closing_os_good|]. split; [done|exact requested_apart].
Defined.

Lemma drain_turn_stops_witness :
  wp total (drain_turn lp64 1 2000 demo_acceptor demo_events demo_state false)
      (closing_os, in_draining) (λ r kc,
    open_fds kc.1 ⊆ open_fds closing_os ∧ r.1.2 = true ∧
    phase_ (life kc.2) = (if bool_decide (slots r.1.1 = []) then Stopped else Draining)).
Proof.
  eapply wp_weaken.
  - apply (drain_turn_stops lp64 1 (wide_fits lp64 k_max_payload ltac:(done)) false ∅ 3);
      [exact closing_state_ok|done|vm_compute; lia|done|vm_compute; lia|by vm_compute| | |done].
    + exact in_draining_reachable.
    + intros [|j] u Hj Hu; simpl in Hj; [by injection Hj as <-|done].
  - intros e [_ He]. apply He. split; [exact closing_os_good|]. split; [done|exact in_draining_apart].
Defined.

(** What that turn comes to. *)
Example drain_turn_result :
  match drain_turn lp64 1 2000 demo_acceptor demo_events demo_state false (closing_os, in_draining) with
  | Done (s, u, _) (k, c) => slots s = [] ∧ u = true ∧ phase_ (life c) = Stopped ∧ elements (open_fds k) = [3]
  | Stop _ => False
  end.
Proof. vm_compute. done. Qed.
End demo.
