(* ===== verification/EchoPeer.v ===== *)
(** * The server, as its clients see it

    [EchoPeer] is what a client relies on: calls go well and what comes back is a
    prefix of what was sent, which EchoLoop.v shows of the server.  [loop] is a
    small kernel of which this is true, to run clients on. *)

From S2P Require Import Prelude Vector FrameCodec Os EchoServer Footprint EchoWorld.

(** [data] is the rest of a frame, or all of it, and all before it is back. *)
Definition next_frame {K} `{params : !ServerParams, !Observe K} (k : K) (s : Z) (data : list byte) : Prop :=
  ∃ ps p, Forall (λ p, len p ≤ effective_max_payload k_max_payload) (ps ++ [p]) ∧
    received k s = frames ps ∧ sent k s ++ data = frames (ps ++ [p]).

Lemma next_frame_polite {K} `{params : !ServerParams, !Observe K} (k : K) s data :
  next_frame k s data → polite (sent k s ++ data).
Proof. intros (ps & p & Hps & _ & ->). by exists (ps ++ [p]). Qed.

(** [echoing port conns bytes k]: every call goes well, and at [port] an echo
    server listens that will still take [conns] connections and [bytes] bytes.
    [linked k s]: descriptor [s] is connected to it.  What comes back is a prefix
    of what was sent, as [run_server_ends] and the order of bytes on a connection
    promise; and a call that waits for bytes gets some, as long as whole frames
    have been sent and not all of them are back. A client sends a frame when all
    the ones before it are back. *)
Class EchoPeer (K : Type) `{params : !ServerParams, !Kernel K, !Observe K} := {
  echoing : Z → nat → nat → K → Prop;
  linked : K → Z → Prop;
  echoing_enter port c b f t p k : echoing port (S c) b k →
    let r := sys_socket f t p k in
    0 ≤ r.1 ∧
    let q := sys_connect r.1 port r.2 in
    q.1 = 0 ∧ echoing port c b q.2 ∧ linked q.2 r.1;
  echoing_send port c b s data flags k : echoing port c (length data + b) k → linked k s →
    next_frame k s data →
    let r := sys_send s data flags k in
    echoing port c (length data - Z.to_nat r.1 + b) r.2 ∧ linked r.2 s ∧ (data ≠ [] → 0 < r.1);
  echoing_recv port c b s n k ps : echoing port c b k → linked k s →
    Forall (λ p, len p ≤ effective_max_payload k_max_payload) ps → sent k s = frames ps →
    received k s ≠ sent k s → 0 < n →
    let r := sys_recv s n k in
    echoing port c b r.2 ∧ linked r.2 s ∧ 0 < r.1.1;
  echoing_close port c b s k : echoing port c b k → linked k s → received k s = sent k s →
    echoing port c b (sys_close s k).2;
  echoing_prefix port c b s k : echoing port c b k → linked k s → received k s `prefix_of` sent k s;
}.

(** ** A kernel that echoes *)

Record loop := mkLoop {
  lp_open : gset Z;
  lp_sent : gmap Z (list byte);
  lp_received : gmap Z (list byte);
}.

Module Loopback.

Definition boot : loop := mkLoop ∅ ∅ ∅.

Definition fresh_fd (k : loop) : Z := 3 + foldr Z.max 0 (elements (lp_open k)).

Definition socket (k : loop) : Z * loop :=
  let r := fresh_fd k in
  (r, mkLoop ({[r]} ∪ lp_open k) (delete r (lp_sent k)) (delete r (lp_received k))).

Definition close (s : Z) (k : loop) : Z * loop :=
  (0, mkLoop (lp_open k ∖ {[s]}) (lp_sent k) (lp_received k)).

(** The next bytes of what has been sent. *)
Definition recv (s n : Z) (k : loop) : Z * list byte * loop :=
  let back := Sim.at_ (lp_received k) s in
  let bs := take (Z.to_nat n) (drop (length back) (Sim.at_ (lp_sent k) s)) in
  (len bs, bs, mkLoop (lp_open k) (lp_sent k) (<[s := back ++ bs]> (lp_received k))).

Definition send (s : Z) (data : list byte) (k : loop) : Z * loop :=
  (len data, mkLoop (lp_open k) (<[s := Sim.at_ (lp_sent k) s ++ data]> (lp_sent k)) (lp_received k)).

(** What comes back is what was sent. *)
Definition echoing (k : loop) : Prop :=
  ∀ s, Sim.at_ (lp_received k) s `prefix_of` Sim.at_ (lp_sent k) s.

End Loopback.

#[export] Instance loop_kernel : Kernel loop := {|
  errno _ := 0;
  sys_socket _ _ _ := Loopback.socket;
  sys_close := Loopback.close;
  sys_fcntl_getfl _ k := (0, k);
  sys_fcntl_setfl _ _ k := (-1, k);
  sys_accept _ k := (-1, k);
  sys_getsockname _ k := ((0, 0), k);
  sys_recv := Loopback.recv;
  sys_send s data _ := Loopback.send s data;
  sys_select _ _ _ k := ((0, mkSets ∅ ∅ ∅), k);
  sys_getaddrinfo _ _ _ _ k := ((0, []), k);
  gai_strerror _ := "name or service not known";
  sys_setsockopt_reuseaddr _ k := (0, k);
  sys_bind _ _ k := (0, k);
  sys_listen _ _ k := (0, k);
  sys_connect _ _ k := (0, k);
  sys_now k := (0, k);
|}.

#[export] Instance loop_observe : Observe loop := {|
  open_fds := lp_open;
  fd_flags _ _ := 0;
  received k := Sim.at_ (lp_received k);
  sent k := Sim.at_ (lp_sent k);
  signals _ := O;
|}.

Lemma loop_fresh k s : s ∈ lp_open k → s < Loopback.fresh_fd k.
Proof.
  unfold Loopback.fresh_fd. rewrite <- elem_of_elements.
  induction (elements (lp_open k)) as [|x l IH]; simpl; [by intros ?%not_elem_of_nil|].
  intros [->|Hs]%elem_of_cons; [lia|]. apply IH in Hs. lia.
Qed.

Lemma loop_fresh_nonneg k : 0 ≤ Loopback.fresh_fd k.
Proof. unfold Loopback.fresh_fd. induction (elements (lp_open k)); simpl; lia. Qed.

Lemma loop_socket_opens k : opens (Loopback.socket k).1 k (Loopback.socket k).2.
Proof.
  pose proof (loop_fresh_nonneg k). unfold opens, Loopback.socket. simpl.
  split; [lia|]. split; [by intros _ ?%loop_fresh; lia|].
  split; intros; rewrite ?at_delete, ?decide_True, ?decide_False by done; done.
Qed.

#[export] Instance loop_laws : KernelLaws loop.
Proof.
  constructor; intros; simpl; try done.
  - apply loop_socket_opens.
  - split; [|split; [|split; [|split; [|split]]]]; try done.
    + len_lia.
    + lia.
    + by rewrite at_insert, decide_True.
    + intros s' Hs. by rewrite at_insert, decide_False.
  - split; [lia|]. split; [done|]. rewrite Nat2Z.id, firstn_all, at_insert, decide_True by done.
    split; [done|]. split; [|done]. intros s' Hs. by rewrite at_insert, decide_False.
Qed.

(** It takes any number of connections and bytes. *)
#[export] Instance loop_peer `{params : !ServerParams} : EchoPeer loop.
Proof.
  refine {| echoing _ _ _ := Loopback.echoing; linked k s := s ∈ lp_open k |}; simpl.
  - intros _ _ _ _ _ _ k Hg. split; [apply loop_fresh_nonneg|]. split; [done|]. split.
    + intros s. simpl. rewrite !at_delete. by case_decide.
    + rewrite elem_of_union, elem_of_singleton. by left.
  - intros _ _ _ s data _ k Hg Hs _. split; [|split; [done|destruct data; [done|simpl; lia]]].
    intros s'. simpl. rewrite at_insert. case_decide as E; [|done]. subst s'.
    etrans; [apply Hg|]. by apply prefix_app_r.
  - intros _ _ _ s n k _ Hg Hs _ _ Hne Hn. destruct (Hg s) as [more Hmore]. split; [|split; [done|]].
    + intros s'. simpl. rewrite at_insert. case_decide as E; [|done]. subst s'.
      rewrite Hmore, drop_app_length. apply prefix_app. apply prefix_take.
    + rewrite Hmore, drop_app_length, length_take.
      destruct more as [|b more]; [by rewrite app_nil_r in Hmore|]. simpl. lia.
  - done.
  - intros _ _ _ s k Hg _. apply Hg.
Defined.

Lemma loop_boot_echoing `{params : !ServerParams} port c b : echoing port c b Loopback.boot.
Proof. by intros s. Qed.
