(* ===== verification/EchoClient.v ===== *)
(** * The clients of the echo benchmark (benchmarks/e2e_echo_benchmark.cpp)

    Each client thread connects, sends its payload as a frame and waits for the
    same frame to come back, a number of times, with blocking calls.  A call
    that fails, an interrupted one too, ends the process; so does a reply that
    is not the frame.  Against an echo server ([EchoPeer]) neither happens. *)

From S2P Require Import Prelude Vector FrameCodec Os Socket SocketIO EchoServer EchoWorld EchoInvariant EchoPeer.

Definition k_acc_slack : Z := 65536.

(** [static_cast<int>] of a [std::size_t]. *)
Definition to_int (z : Z) : Z := wrap 32 (z + 2 ^ 31) - 2 ^ 31.

(** Byte [i] of the payload. *)
Definition payload_byte (client_id i : Z) : byte :=
  byte_of_Z (Z.land (Z.lxor (to_int i) client_id) 255).

Definition client_payload (payload_bytes client_id : Z) : list byte :=
  (λ i, payload_byte client_id (Z.of_nat i)) <$> seq 0 (Z.to_nat payload_bytes).

Definition make_payload (t : target) (payload_bytes client_id : Z) : outcome (list byte) :=
  _ ← checked_zeros t payload_bytes; Ret (client_payload payload_bytes client_id).

(** The loop that compares the payloads, whose sizes are equal. *)
Fixpoint same_bytes (xs ys : list byte) : bool :=
  match xs, ys with
  | x :: xs, y :: ys => bool_decide (x = y) && same_bytes xs ys
  | _, _ => true
  end.

Section client.
Context {K : Type} `{params : !ServerParams, !Kernel K}.

(** The loop of [send_all], at offset [off]. *)
Fixpoint send_all (fuel : nat) (s : Z) (data : list byte) (off : Z) : prog K unit :=
  match fuel with
  | O => halt Fuel
  | S fuel =>
      if off <? len data then
        n ← call_os (sys_send s (drop (Z.to_nat off) data) 0);
        if n <=? 0 then halt Killed else send_all fuel s data (off + n)
      else mret ()
  end.

Definition connect_loopback (port : Z) : prog K Z :=
  sock ← call_os (sys_socket AF_INET SOCK_STREAM 0);
  if sock <? 0 then halt Killed
  else
    rc ← call_os (sys_connect sock port);
    if negb (rc =? 0) then halt Killed else mret sock.

(** The loop of [recv_one_echo_frame]: [acc], and [total] bytes of it filled. *)
Fixpoint recv_loop (fuel : nat) (t : target) (s : Z) (expected_payload acc : list byte) (total : Z)
    : prog K unit :=
  match fuel with
  | O => halt Fuel
  | S fuel =>
      r ← call_os (sys_recv s (len acc - total));
      let n := r.1 in
      if n <=? 0 then halt Killed
      else
        let acc := take (Z.to_nat total) acc ++ r.2 ++ drop (Z.to_nat total + length r.2) acc in
        let total := total + n in
        dec ← pure_code (try_decode_frame t (take (Z.to_nat total) acc) k_max_payload);
        if decide (status dec = Complete) then
          if negb (len (payload dec) =? len expected_payload) then halt Killed
          else if negb (same_bytes (payload dec) expected_payload) then halt Killed
          else mret ()
        else if decide (status dec ≠ Incomplete) then halt Killed
        else if len acc <=? total then halt Killed
        else recv_loop fuel t s expected_payload acc total
  end.

Definition recv_one_echo_frame (fuel : nat) (t : target) (s : Z) (expected_payload : list byte)
    : prog K unit :=
  acc ← pure_code (checked_zeros t (to_size t (k_acc_slack + len expected_payload)));
  recv_loop fuel t s expected_payload acc 0.

(** [for (int r = 0; r < round_trips; ++r)] *)
Fixpoint round_trips_loop (n fuel : nat) (t : target) (s : Z) (payload : list byte) : prog K unit :=
  match n with
  | O => mret ()
  | S n =>
      r ← pure_code (append_encoded_frame t Vec.empty payload k_max_payload);
      match r.1 with
      | Unexpected _ => halt Killed
      | Val _ =>
          _ ← send_all fuel s (vdata r.2) 0;
          _ ← recv_one_echo_frame fuel t s payload;
          round_trips_loop n fuel t s payload
      end
  end.

Definition client_worker (fuel : nat) (t : target) (port client_id round_trips payload_bytes : Z)
    : prog K unit :=
  payload ← pure_code (make_payload t payload_bytes client_id);
  s ← connect_loopback port;
  _ ← round_trips_loop (Z.to_nat round_trips) fuel t s payload;
  _ ← call_os (sys_close s);
  mret ().

Context `{!Observe K, !KernelLaws K, !EchoPeer K}.

(** [fine]: the world is an echoing one. *)
Context (fine : Prop).
Abbreviation aborts := (aborts fine).

(** Before an exchange on [s]; the server will still take [b] bytes. *)
Definition peer_ready (port : Z) (c b : nat) (s : Z) (k : K) : Prop :=
  fine → echoing port c b k ∧ linked k s.

Lemma peer_aborts port c b s (k : K) (Q : Prop) :
  peer_ready port c b s k → (fine → echoing port c b k → linked k s → Q) → ¬ Q → aborts Killed.
Proof. intros Hr Hq Hn. split; [done|]. intros Hf. destruct (Hr Hf). auto. Qed.

(** The bytes of one exchange and nothing else, on descriptor [s]. *)
Record exchanged (s : Z) (out in_ : list byte) (k k' : K) : Prop := {
  ex_open : open_fds k' = open_fds k;
  ex_sent : sent k' s = sent k s ++ out;
  ex_received : received k' s = received k s ++ in_;
  ex_others s' : s' ≠ s → received k' s' = received k s' ∧ sent k' s' = sent k s';
}.

Lemma exchanged_nothing s k : exchanged s [] [] k k.
Proof. constructor; intros; rewrite ?app_nil_r; done. Qed.

Lemma exchanged_trans s o1 o2 i1 i2 k1 k2 k3 :
  exchanged s o1 i1 k1 k2 → exchanged s o2 i2 k2 k3 → exchanged s (o1 ++ o2) (i1 ++ i2) k1 k3.
Proof.
  intros [H1 H2 H3 H4] [H1' H2' H3' H4']. constructor; intros.
  - by rewrite H1'.
  - by rewrite H2', H2, app_assoc.
  - by rewrite H3', H3, app_assoc.
  - destruct (H4' s') as [-> ->]; [done|]. by apply H4.
Qed.

Lemma sent_exchanged s bs k k' : sent_on s bs k k' → exchanged s bs [] k k'.
Proof.
  intros []. constructor; rewrite ?app_nil_r; try done. intros s' Hs.
  by rewrite so_received, so_other.
Qed.

Lemma received_exchanged s bs k k' : received_on s bs k k' → exchanged s [] bs k k'.
Proof.
  intros []. constructor; rewrite ?app_nil_r; try done. intros s' Hs.
  by rewrite ro_sent, ro_other.
Qed.

Lemma send_all_spec port c b fuel s data off k :
  peer_ready port c (length data - Z.to_nat off + b) s k → 0 ≤ off →
  (fine → next_frame k s (drop (Z.to_nat off) data)) → (Z.to_nat (len data - off) < fuel)%nat →
  wp aborts (send_all fuel s data off) k
    (λ _ k', exchanged s (drop (Z.to_nat off) data) [] k k' ∧ peer_ready port c b s k').
Proof.
  revert off k. induction fuel as [|fuel IH]; intros off k Hr Hoff Hpol Hf; [lia|].
  cbn [send_all]. destruct (Z.ltb_spec off (len data)) as [Hlt|Hge].
  2: { apply wp_ret. rewrite drop_ge by lia. split; [apply exchanged_nothing|].
       replace (length data - Z.to_nat off + b)%nat with b in Hr by lia. done. }
  rewrite <- length_drop in Hr. apply wp_bind, wp_call.
  set (left := drop (Z.to_nat off) data) in *.
  pose proof (send_once s left 0 k) as Hon%sent_exchanged.
  pose proof (send_law s left 0 k) as (Hle & _ & Hsent & _ & Hrecv).
  pose proof (λ H1 H2 H3, echoing_send port c b s left 0 k H1 H2 H3) as He. cbv zeta in *.
  assert (length left = (length data - Z.to_nat off)%nat) as Hll by apply length_drop.
  destruct (sys_send _ _ _ k) as [n k1]. simpl in *.
  destruct (Z.leb_spec n 0).
  { eapply (peer_aborts _ _ _ s k (0 < n)); [exact Hr| |lia]. intros Hfine Hg Hs.
    apply He; [done..|by apply Hpol|]. intros E. rewrite E in Hll. simpl in Hll. lia. }
  assert (drop (Z.to_nat (off + n)) data = drop (Z.to_nat n) left) as Hdrop.
  { unfold left. rewrite drop_drop. f_equal. lia. }
  eapply wp_mono; [apply IH; [|lia| |lia]|].
  - intros Hfine. destruct (Hr Hfine) as [Hg Hs]. destruct (He Hg Hs (Hpol Hfine)) as (Hg' & Hs' & _).
    split; [|done]. replace (length data - Z.to_nat (off + n))%nat with (length left - Z.to_nat n)%nat by lia. done.
  - intros Hfine. destruct (Hpol Hfine) as (ps & q & Hps & Er & Es). exists ps, q. split; [done|].
    rewrite Hrecv, Hdrop, Hsent, <- app_assoc, take_drop. by split.
  - intros [] k' [H' Hr']. split; [|done]. rewrite Hdrop in H'.
    rewrite <- (take_drop (Z.to_nat n) left).
    exact (exchanged_trans _ _ _ [] [] _ _ _ Hon H').
Qed.

Lemma same_bytes_refl xs : same_bytes xs xs = true.
Proof. induction xs; simpl; [done|]. by rewrite bool_decide_true. Qed.

Lemma same_bytes_eq xs ys : length xs = length ys → same_bytes xs ys = true → xs = ys.
Proof.
  revert ys. induction xs as [|x xs IH]; intros [|y ys]; simpl; try done.
  intros [= E] [->%bool_decide_eq_true H]%andb_true_iff. f_equal. by apply IH.
Qed.

(** One frame is on its way back, and nothing else. *)
Definition awaits (s : Z) (p : list byte) (k : K) : Prop :=
  fine → sent k s = received k s ++ frame p ∧
    ∃ ps, Forall (λ p, len p ≤ effective_max_payload k_max_payload) ps ∧ sent k s = frames ps.

(** What has arrived of it. *)
Lemma awaits_arrived port c b s p k0 k bs :
  awaits s p k0 → peer_ready port c b s k → exchanged s [] bs k0 k → fine → ∃ more, frame p = bs ++ more.
Proof.
  intros Ha Hr [_ Hs Hrec _] Hf. destruct (Hr Hf) as [Hg Hin]. destruct (Ha Hf) as [E _].
  destruct (echoing_prefix port c b s k Hg Hin) as [more Hm]. exists more.
  rewrite Hs, Hrec, app_nil_r, E, <- app_assoc in Hm. by apply app_inv_head in Hm.
Qed.

Lemma recv_loop_spec port c b fuel t s p acc total k k0 :
  fits t k_max_payload → len p ≤ effective_max_payload k_max_payload → 0 ≤ total ≤ len acc →
  (Z.to_nat (len acc - total) < fuel)%nat → 4 + len p < len acc →
  exchanged s [] (take (Z.to_nat total) acc) k0 k →
  peer_ready port c b s k → awaits s p k0 → (fine → total < 4 + len p) →
  wp aborts (recv_loop fuel t s p acc total) k (λ _ k', ∃ rest,
    exchanged s [] (frame p ++ rest) k0 k' ∧ peer_ready port c b s k' ∧ (fine → rest = [])).
Proof.
  intros Hfits Hp. revert acc total k.
  induction fuel as [|fuel IH]; intros acc total k Ht Hf Hacc Hex Hr Ha Hlt; [lia|].
  cbn [recv_loop]. apply wp_bind, wp_call.
  pose proof (recv_once s (len acc - total) k) as Hon%received_exchanged.
  pose proof (recv_law s (len acc - total) k) as (Hle & Hlen & Ho & _).
  assert (fine → let r := sys_recv s (len acc - total) k in
    echoing port c b r.2 ∧ linked r.2 s ∧ 0 < r.1.1) as He.
  { intros Hfine. specialize (Hlt Hfine). destruct (Hr Hfine) as [Hg Hs]. destruct (Ha Hfine) as (E & ps & Hps & Ef).
    pose proof Hex as [_ Hs' Hr' _]. rewrite app_nil_r in Hs'.
    apply (echoing_recv port c b s (len acc - total) k ps Hg Hs Hps); [by rewrite Hs'| |lia].
    rewrite Hs', Hr', E. intros Eq%app_inv_head%(f_equal length). rewrite length_take in Eq.
    pose proof (frame_length p). lia. }
  cbv zeta in He. destruct (sys_recv s _ k) as [[n bs] k1]. simpl in *.
  destruct (Z.leb_spec n 0); [split; [done|]; intros Hfine; destruct (He Hfine) as (_ & _ & ?); lia|].
  assert (peer_ready port c b s k1) as Hr1 by (intros Hfine; by split; apply He).
  set (acc' := take _ acc ++ bs ++ _).
  assert (length acc' = length acc) as Hacc'.
  { unfold acc'. rewrite !length_app, length_take, length_drop. lia. }
  assert (take (Z.to_nat (total + n)) acc' = take (Z.to_nat total) acc ++ bs) as Htake.
  { unfold acc'. rewrite app_assoc. apply take_app_length'. rewrite length_app, length_take. lia. }
  pose proof (exchanged_trans _ _ _ _ _ _ _ _ Hex Hon) as Hex'. simpl in Hex'.
  rewrite <- Htake in Hex'. pose proof (awaits_arrived _ _ _ _ _ _ _ _ Ha Hr1 Hex') as Harr.
  assert (length (take (Z.to_nat (total + n)) acc') = Z.to_nat (total + n)) as Hgot
    by (rewrite length_take; lia).
  rewrite try_decode_frame_is_ref by done. apply wp_bind. unfold wp at 1. simpl.
  clearbody acc'. remember (take (Z.to_nat (total + n)) acc') as got eqn:Egot.
  assert (∀ st, st ≠ Complete → status (decode_ref got k_max_payload) = st →
    wp aborts (if len acc' <=? total + n then halt Killed else recv_loop fuel t s p acc' (total + n)) k1
      (λ _ k', ∃ rest, exchanged s [] (frame p ++ rest) k0 k' ∧ peer_ready port c b s k' ∧ (fine → rest = []))) as Hmore.
  { intros st Hst Hdec. assert (fine → total + n < 4 + len p) as Hlt'.
    { intros Hfine. destruct (Harr Hfine) as (more & E). pose proof (frame_length p) as Hfl.
      rewrite E, length_app in Hfl. destruct more as [|x more]; [|simpl in Hfl; lia].
      rewrite app_nil_r in E. rewrite <- E, <- (app_nil_r (frame p)), decode_ref_frame in Hdec by done.
      by destruct Hst. }
    destruct (Z.leb_spec (len acc') (total + n)).
    - split; [done|]. intros Hfine. specialize (Hlt' Hfine). lia.
    - apply IH; try done; rewrite <- ?Egot; (done || lia). }
  destruct (decode_ref_cases got k_max_payload)
    as [(q & rest & Hq & Hql & E)|[(m&rest&Hm&Hu&Hbig&E)|[[? E]|(?&?&?&?&?&E)]]]; rewrite E in *; simpl.
  - assert (fine → q = p ∧ rest = []) as Hqp.
    { intros Hfine. destruct (Harr Hfine) as (more & Em). rewrite Hq, <- app_assoc in Em.
      rewrite <- (app_nil_r (frame p)) in Em. symmetry in Em.
      apply frame_app_inj in Em as [-> [-> _]%app_eq_nil]; [done|by apply small_u32..]. }
    destruct (Z.eqb_spec (len q) (len p)) as [El|]; simpl.
    2: { split; [done|]. intros Hfine. by destruct (Hqp Hfine) as [-> _]. }
    destruct (same_bytes q p) eqn:Es; simpl.
    2: { split; [done|]. intros Hfine. destruct (Hqp Hfine) as [-> _]. by rewrite same_bytes_refl in Es. }
    apply wp_ret. apply same_bytes_eq in Es as ->; [|lia]. exists rest. rewrite Hq in Hex'.
    split; [done|]. split; [done|]. intros Hfine. apply (Hqp Hfine).
  - split; [done|]. intros Hfine. destruct (Harr Hfine) as (more & Em).
    rewrite Hm, <- app_assoc, <- (app_nil_r (frame p)) in Em. symmetry in Em.
    apply be32_frame_head in Em as [-> _]; [lia|done|by apply small_u32].
  - by eapply Hmore; [|done].
  - by eapply Hmore; [|done].
Qed.

(** What comes back on one connection: the frame each time, and whatever else
    arrived with it. *)
Definition replies (p : list byte) (rests : list (list byte)) : list byte :=
  mjoin ((λ rest, frame p ++ rest) <$> rests).

Lemma replies_alone p n : replies p (replicate n []) = mjoin (replicate n (frame p)).
Proof.
  unfold replies. rewrite fmap_replicate, app_nil_r. done.
Qed.

(** All that was sent is back, and was frames. *)
Definition all_back (s : Z) (k : K) : Prop :=
  fine → received k s = sent k s ∧
    ∃ ps, Forall (λ p, len p ≤ effective_max_payload k_max_payload) ps ∧ sent k s = frames ps.

Lemma all_back_awaits s p k k' :
  len p ≤ effective_max_payload k_max_payload →
  all_back s k → exchanged s (frame p) [] k k' → awaits s p k'.
Proof.
  intros Hp Ha [_ Hs Hr _] Hf. destruct (Ha Hf) as (E & ps & Hps & Ef).
  rewrite app_nil_r in Hr. rewrite Hs, Hr, E. split; [done|]. exists (ps ++ [p]). split.
  - apply Forall_app_2; [done|]. by apply Forall_singleton.
  - by rewrite frames_snoc, Ef.
Qed.

Lemma awaits_all_back s p rest k k' :
  awaits s p k → (fine → rest = []) → exchanged s [] (frame p ++ rest) k k' → all_back s k'.
Proof.
  intros Ha Hrest [_ Hs Hr _] Hf. destruct (Ha Hf) as (E & ps & Hps & Ef). rewrite (Hrest Hf), app_nil_r in Hr.
  rewrite app_nil_r in Hs. rewrite Hs, Hr, <- E. split; [done|]. by exists ps.
Qed.

Lemma frame_is_next s p k :
  len p ≤ effective_max_payload k_max_payload → all_back s k → fine → next_frame k s (frame p).
Proof.
  intros Hp Ha Hf. destruct (Ha Hf) as (E & ps & Hps & Es). exists ps, p. rewrite E, Es, frames_snoc.
  split; [|done]. apply Forall_app_2; [done|]. by apply Forall_singleton.
Qed.

(** The bytes of [n] frames of payload [p]. *)
Definition frames_cost (n : nat) (p : list byte) : nat := n * (4 + length p).

(** The buffer of a reply, when it fits a vector. *)
Lemma acc_fits t n : 0 ≤ n → k_acc_slack + n ≤ max_size t →
  checked_zeros t (to_size t (k_acc_slack + n)) = Ret (replicate (Z.to_nat (k_acc_slack + n)) x00).
Proof.
  unfold k_acc_slack. intros Hn Hm. unfold to_size, checked_zeros.
  rewrite wrap_small by (split; [lia|apply max_size_lt; lia]).
  by rewrite (proj2 (Z.ltb_ge _ _)).
Qed.

Lemma round_trips_spec port c b n fuel t s p k :
  fits t k_max_payload → (Z.to_nat (k_acc_slack + len p) < fuel)%nat →
  len p ≤ effective_max_payload k_max_payload → k_acc_slack + len p ≤ max_size t →
  peer_ready port c (frames_cost n p + b) s k → all_back s k →
  wp aborts (round_trips_loop n fuel t s p) k (λ _ k', ∃ rests, length rests = n ∧
    exchanged s (mjoin (replicate n (frame p))) (replies p rests) k k' ∧
    (fine → rests = replicate n []) ∧ peer_ready port c b s k' ∧ all_back s k').
Proof.
  intros Hfits Hf Hp Hm. pose proof (acc_fits t (len p) ltac:(lia) Hm) as Hacc.
  revert k. unfold k_acc_slack, frames_cost in *.
  induction n as [|n IH]; intros k Hr Hb; cbn [round_trips_loop].
  { apply wp_ret. exists []. split; [done|]. split; [apply exchanged_nothing|done]. }
  rewrite append_encoded_frame_eq by (unfold Vec.size; simpl; lia).
  rewrite (proj2 (Z.ltb_ge _ _)) by done. apply wp_bind. unfold wp at 1. simpl.
  apply wp_bind.
  replace (S n * (4 + length p) + b)%nat with (length (frame p) + (n * (4 + length p) + b))%nat in Hr
    by (rewrite frame_length; lia).
  eapply wp_mono.
  { apply (send_all_spec port c (n * (4 + length p) + b)); [by replace (length (frame p) - Z.to_nat 0)%nat with (length (frame p)) by lia|done| |].
    - change (drop (Z.to_nat 0) (frame p)) with (frame p). by apply frame_is_next.
    - rewrite frame_length. lia. }
  intros [] k1 [H1 Hr1]. rewrite drop_0 in H1. apply wp_bind.
  pose proof (all_back_awaits _ _ _ _ Hp Hb H1) as Ha.
  unfold recv_one_echo_frame, k_acc_slack. rewrite Hacc. cbn [pure_code].
  apply wp_bind, wp_ret. eapply wp_mono.
  { apply (recv_loop_spec port c (n * (4 + length p) + b) _ _ _ _ _ _ _ k1 Hfits Hp);
      rewrite ?length_replicate; unfold k_acc_slack; try done; try lia. apply exchanged_nothing. }
  intros [] k2 (rest & H2 & Hr2 & Hrest). eapply wp_mono; [apply IH; [done|by eapply awaits_all_back]|].
  intros [] k3 (rests & Hlen & H3 & Hrests & Hr3). exists (rest :: rests). split; [by rewrite <- Hlen|].
  pose proof (exchanged_trans _ _ _ _ _ _ _ _ H1 H2) as H12. rewrite app_nil_r in H12.
  split; [exact (exchanged_trans _ _ _ _ _ _ _ _ H12 H3)|]. split; [|done].
  intros Hfine. by rewrite (Hrest Hfine), (Hrests Hfine).
Qed.

Lemma connect_run port c b k :
  (fine → echoing port (S c) b k) →
  wp aborts (connect_loopback port) k (λ s k', opens s k k' ∧ 0 ≤ s ∧ peer_ready port c b s k').
Proof.
  intros Hg. unfold connect_loopback. apply wp_bind, wp_call.
  pose proof (socket_law AF_INET SOCK_STREAM 0 k) as Ho.
  pose proof (echoing_enter port c b AF_INET SOCK_STREAM 0 k) as He. cbv zeta in He.
  destruct (sys_socket _ _ _ k) as [s k1]. simpl in *.
  destruct (Z.ltb_spec s 0) as [Hs|Hs].
  { split; [done|]. intros Hf. destruct (He (Hg Hf)). lia. }
  apply wp_bind, wp_call. destruct Ho as (H1 & H2 & H3 & H4). destruct (H3 Hs) as (Hopen & Hrec & Hsent).
  pose proof (connect_law s port k1) as [E Hk].
  destruct (sys_connect s port k1) as [rc k2]. simpl in *.
  destruct (Z.eqb_spec rc 0) as [Hrc|Hrc]; simpl.
  2: { split; [done|]. intros Hf. apply Hrc, (He (Hg Hf)). }
  apply wp_ret. split; [|split; [done|]].
  2: { intros Hf. apply (He (Hg Hf)). }
  split; [lia|]. split; [done|]. split.
  - intros _. destruct (Hk s) as [-> ->]. by rewrite E.
  - intros s' Hs'. destruct (Hk s') as [-> ->]. by apply H4.
Qed.

Lemma client_payload_length n id : len (client_payload n id) = Z.max 0 n.
Proof. unfold client_payload. rewrite length_fmap, length_seq. lia. Qed.

(** The whole of it. *)
Lemma client_worker_run fuel t port client_id round_trips payload_bytes c b k :
  fits t k_max_payload → 0 ≤ payload_bytes ≤ effective_max_payload k_max_payload →
  k_acc_slack + payload_bytes ≤ max_size t → (Z.to_nat (k_acc_slack + payload_bytes) < fuel)%nat →
  let p := client_payload payload_bytes client_id in
  (fine → echoing port (S c) (frames_cost (Z.to_nat round_trips) p + b) k) →
  wp aborts (client_worker fuel t port client_id round_trips payload_bytes) k (λ _ k',
    ∃ s rests, (s ∉ open_fds k) ∧ open_fds k' = open_fds k ∧
      length rests = Z.to_nat round_trips ∧
      sent k' s = mjoin (replicate (Z.to_nat round_trips) (frame p)) ∧
      received k' s = replies p rests ∧
      (fine → received k' s = sent k' s ∧ echoing port c b k') ∧
      ∀ s', s' ≠ s → received k' s' = received k s' ∧ sent k' s' = sent k s').
Proof.
  intros Hfits Hp Hm Hf p Hfine0. pose proof (client_payload_length payload_bytes client_id) as Hlen.
  fold p in Hlen. unfold client_worker, make_payload, checked_zeros.
  rewrite (proj2 (Z.ltb_ge _ _)), outcome_ret_bind by (unfold k_acc_slack in *; lia). fold p. cbn [pure_code].
  apply wp_bind, wp_ret.
  apply wp_bind. eapply wp_mono; [by apply (connect_run port c (frames_cost (Z.to_nat round_trips) p + b))|].
  intros s k1 ((_ & Hnew & Hone & Hkept) & Hs & Hr).
  specialize (Hnew Hs). destruct (Hone Hs) as (Ho1 & Hr1 & Hs1).
  apply wp_bind. eapply wp_mono; [apply (round_trips_spec port c b); [done|rewrite Hlen; lia|lia|rewrite Hlen; lia|done|]|].
  { intros _. rewrite Hr1, Hs1. split; [done|]. by exists []. }
  intros [] k2 (rests & Hn & [Ho2 Hs2 Hr2 Hk2] & Hrests & Hpeer & Hback). apply wp_bind, wp_call, wp_ret.
  pose proof (λ H1 H2 H3, echoing_close port c b s k2 H1 H2 H3) as Hcl.
  destruct (close_law s k2) as [Ho3 Hk3]. exists s, rests. split; [done|]. split.
  - rewrite Ho3, Ho2, Ho1. apply set_eq. intros x.
    rewrite elem_of_difference, elem_of_union, elem_of_singleton. split; [tauto|].
    intros Hx. split; [by right|]. by intros ->.
  - split; [done|]. destruct (Hk3 s) as [-> ->]. split; [by rewrite Hs2, Hs1|].
    split; [by rewrite Hr2, Hr1|]. split.
    + intros Hfine. destruct (Hback Hfine) as [E _]. split; [done|]. by apply Hcl; [apply Hpeer..|].
    + intros s' Hs'. destruct (Hk3 s') as [-> ->]. destruct (Hk2 s' Hs') as [-> ->]. by apply Hkept.
Qed.

End client.

(** ** Properties *)

Section properties.
Context {K : Type} `{params : !ServerParams, !Kernel K, !Observe K, !KernelLaws K, !EchoPeer K}.

(** C22. A client comes to an end. It returns, or it aborts, and this only where
    the world is not an echoing one. When it returns it has sent its frame
    [round_trips] times on a connection of its own, each time read a reply that
    starts with exactly that frame, and closed the connection; and in an echoing
    world it has received exactly what it has sent, and leaves the world echoing
    for whoever comes next. *)
Theorem client_worker_spec fuel t port client_id round_trips payload_bytes c b k :
  fits t k_max_payload → 0 ≤ payload_bytes ≤ effective_max_payload k_max_payload →
  k_acc_slack + payload_bytes ≤ max_size t → (Z.to_nat (k_acc_slack + payload_bytes) < fuel)%nat →
  let p := client_payload payload_bytes client_id in
  let serves := echoing port (S c) (frames_cost (Z.to_nat round_trips) p + b) in
  wp (λ e, e = Killed ∧ ¬ serves k)
    (client_worker fuel t port client_id round_trips payload_bytes) k (λ _ k',
    ∃ s rests, (s ∉ open_fds k) ∧ open_fds k' = open_fds k ∧
      length rests = Z.to_nat round_trips ∧
      sent k' s = mjoin (replicate (Z.to_nat round_trips) (frame p)) ∧
      received k' s = replies p rests ∧
      (serves k → received k' s = sent k' s ∧ echoing port c b k') ∧
      ∀ s', s' ≠ s → received k' s' = received k s' ∧ sent k' s' = sent k s').
Proof.
  intros Hfits Hp Hm Hf p serves. by apply (client_worker_run (serves k) fuel t port client_id round_trips payload_bytes c b).
Qed.
End properties.

(** ** A run *)

Definition demo_client_world : sim :=
  Sim.boot [Give 0; Give 0; Give 3; Give 3; Data [x00; x00; x00; x02]; Data [x05; x04; x00]; Give 0].

Example demo_client_returns :
  match client_worker 100 lp64 8080 5 1 2 demo_client_world with
  | Done _ k => sent k 3 = [x00; x00; x00; x02; x05; x04] ∧ elements (open_fds k) = []
  | Stop _ => False
  end.
Proof. vm_compute. done. Qed.

(** Against the echo server of [loop]. *)
Lemma client_worker_spec_witness :
  wp total (client_worker (Z.to_nat 70000) lp64 8080 5 3 2) Loopback.boot (λ _ k',
    let p := client_payload 2 5 in
    ∃ s, received k' s = sent k' s ∧ sent k' s = mjoin (replicate 3 (frame p)) ∧
      open_fds k' = open_fds Loopback.boot).
Proof.
  eapply wp_weaken; [eapply wp_mono|].
  - apply (client_worker_spec (Z.to_nat 70000) lp64 8080 5 3 2 0 0 Loopback.boot).
    + by apply wide_fits.
    + by vm_compute.
    + by vm_compute.
    + unfold k_acc_slack. lia.
  - intros [] k' (s & rests & _ & Ho & _ & Hs & _ & Hr & _). exists s.
    split; [apply Hr, loop_boot_echoing|]. split; [exact Hs|exact Ho].
  - intros e [_ He]. apply He, loop_boot_echoing.
Defined.
