(* ===== verification/Net.v ===== *)
(** * A network between one server and its clients

    A kernel on which the echo server and its clients run together.  The server
    makes its calls through [Kernel net]; the clients' calls are the operations
    of the module [Client].  What a client has sent and the server has not yet
    received is on the way, and the other way round.

    What is not determined is a parameter of the state: the readings of the clock
    ([Clock]) and the [hiccups], which decide call by call whether the bytes on
    the way have arrived yet, whether a call is cut short or interrupted, and
    whether a readiness is seen.  When there are no more of them, every call does
    what it can. *)

From S2P Require Import Prelude Vector FrameCodec Os Acceptor EchoServer Footprint EchoWorld EchoLoop.

(** The readings of the steady clock, one for each look of the server; they pass
    every time in the end. *)
Class Clock := {
  tick : nat → Z;
  looks_before : Z → nat;
  tick_reaches d n : (looks_before d ≤ n)%nat → d ≤ tick n;
}.

Inductive hiccup :=
| Late             (* nothing has arrived, or the socket is full *)
| Cut (n : nat)    (* no more than [S n] bytes *)
| Signal.          (* recv(2) and send(2) are interrupted *)

Record net := mkNet {
  looks : nat;
  hiccups : list hiccup;
  net_errno : Z;
  next_fd : Z;                          (* descriptors are not used again *)
  server_fds : gset Z;
  server_flags : gmap Z Z;
  listening : gset Z;
  net_port : Z;                         (* in network byte order *)
  stop_flag : bool;
  backlog : list Z;                     (* who is connected and not accepted *)
  peers : gmap Z Z;                     (* server's descriptor to client's *)
  routes : gmap Z Z;                    (* and back *)
  s_got : gmap Z (list byte);           (* by descriptor of the server *)
  s_gave : gmap Z (list byte);
  c_sent : gmap Z (list byte);          (* by descriptor of the client *)
  c_got : gmap Z (list byte);
  client_fds : gset Z;                  (* of the client that is looked at *)
  other_fds : gset Z;                   (* of others *)
}.

Module Net.

Definition at_ := Sim.at_.

Definition set_hiccups l k := mkNet (looks k) l (net_errno k) (next_fd k) (server_fds k)
  (server_flags k) (listening k) (net_port k) (stop_flag k) (backlog k) (peers k) (routes k)
  (s_got k) (s_gave k) (c_sent k) (c_got k) (client_fds k) (other_fds k).
Definition set_errno e k := mkNet (looks k) (hiccups k) e (next_fd k) (server_fds k)
  (server_flags k) (listening k) (net_port k) (stop_flag k) (backlog k) (peers k) (routes k)
  (s_got k) (s_gave k) (c_sent k) (c_got k) (client_fds k) (other_fds k).
Definition set_looks n k := mkNet n (hiccups k) (net_errno k) (next_fd k) (server_fds k)
  (server_flags k) (listening k) (net_port k) (stop_flag k) (backlog k) (peers k) (routes k)
  (s_got k) (s_gave k) (c_sent k) (c_got k) (client_fds k) (other_fds k).
Definition set_server_fds o k := mkNet (looks k) (hiccups k) (net_errno k) (next_fd k) o
  (server_flags k) (listening k) (net_port k) (stop_flag k) (backlog k) (peers k) (routes k)
  (s_got k) (s_gave k) (c_sent k) (c_got k) (client_fds k) (other_fds k).
Definition set_flags f k := mkNet (looks k) (hiccups k) (net_errno k) (next_fd k) (server_fds k)
  f (listening k) (net_port k) (stop_flag k) (backlog k) (peers k) (routes k)
  (s_got k) (s_gave k) (c_sent k) (c_got k) (client_fds k) (other_fds k).
Definition set_listening l k := mkNet (looks k) (hiccups k) (net_errno k) (next_fd k)
  (server_fds k) (server_flags k) l (net_port k) (stop_flag k) (backlog k) (peers k) (routes k)
  (s_got k) (s_gave k) (c_sent k) (c_got k) (client_fds k) (other_fds k).
Definition set_stop b k := mkNet (looks k) (hiccups k) (net_errno k) (next_fd k)
  (server_fds k) (server_flags k) (listening k) (net_port k) b (backlog k) (peers k) (routes k)
  (s_got k) (s_gave k) (c_sent k) (c_got k) (client_fds k) (other_fds k).
Definition set_got m k := mkNet (looks k) (hiccups k) (net_errno k) (next_fd k)
  (server_fds k) (server_flags k) (listening k) (net_port k) (stop_flag k) (backlog k) (peers k)
  (routes k) m (s_gave k) (c_sent k) (c_got k) (client_fds k) (other_fds k).
Definition set_gave m k := mkNet (looks k) (hiccups k) (net_errno k) (next_fd k)
  (server_fds k) (server_flags k) (listening k) (net_port k) (stop_flag k) (backlog k) (peers k)
  (routes k) (s_got k) m (c_sent k) (c_got k) (client_fds k) (other_fds k).
Definition set_backlog l k := mkNet (looks k) (hiccups k) (net_errno k) (next_fd k)
  (server_fds k) (server_flags k) (listening k) (net_port k) (stop_flag k) l (peers k)
  (routes k) (s_got k) (s_gave k) (c_sent k) (c_got k) (client_fds k) (other_fds k).
Definition set_links p r k := mkNet (looks k) (hiccups k) (net_errno k) (next_fd k)
  (server_fds k) (server_flags k) (listening k) (net_port k) (stop_flag k) (backlog k) p r
  (s_got k) (s_gave k) (c_sent k) (c_got k) (client_fds k) (other_fds k).
Definition set_sent m k := mkNet (looks k) (hiccups k) (net_errno k) (next_fd k)
  (server_fds k) (server_flags k) (listening k) (net_port k) (stop_flag k) (backlog k) (peers k)
  (routes k) (s_got k) (s_gave k) m (c_got k) (client_fds k) (other_fds k).
Definition set_fetched m k := mkNet (looks k) (hiccups k) (net_errno k) (next_fd k)
  (server_fds k) (server_flags k) (listening k) (net_port k) (stop_flag k) (backlog k) (peers k)
  (routes k) (s_got k) (s_gave k) (c_sent k) m (client_fds k) (other_fds k).
Definition set_clients o o' k := mkNet (looks k) (hiccups k) (net_errno k) (next_fd k)
  (server_fds k) (server_flags k) (listening k) (net_port k) (stop_flag k) (backlog k) (peers k)
  (routes k) (s_got k) (s_gave k) (c_sent k) (c_got k) o o'.
Definition set_next_fd n k := mkNet (looks k) (hiccups k) (net_errno k) n
  (server_fds k) (server_flags k) (listening k) (net_port k) (stop_flag k) (backlog k) (peers k)
  (routes k) (s_got k) (s_gave k) (c_sent k) (c_got k) (client_fds k) (other_fds k).

(** ** Shared parts *)

Definition EPIPE : Z := 32.
Definition ECONNREFUSED : Z := 111.

(** The hiccup that meets the call, if any, and the rest of them. *)
Definition hiccup_of (k : net) : option hiccup := head (hiccups k).
Definition pop (k : net) : net := set_hiccups (tail (hiccups k)) k.

Definition open_of (k : net) : gset Z := server_fds k ∪ client_fds k ∪ other_fds k.
(** The descriptor handed out next. *)
Definition fresh_fd (k : net) : Z :=
  foldr Z.max (Z.max 3 (next_fd k)) (Z.succ <$> elements (open_of k)).
(** A descriptor is kept for each connection that waits to be accepted. *)
Definition room (k : net) : Z := Sim.RLIMIT_NOFILE - fresh_fd k - len (backlog k).

Definition gone (c : Z) (k : net) : bool := bool_decide (c ∉ client_fds k ∪ other_fds k).

(** What is on its way to the server's descriptor [h], from client [c]; and to
    client [c], from [h]. *)
Definition upward (h c : Z) (k : net) : list byte := drop (length (at_ (s_got k) h)) (at_ (c_sent k) c).
Definition downward (c h : Z) (k : net) : list byte := drop (length (at_ (c_got k) c)) (at_ (s_gave k) h).

(** A client that has been accepted, or will be. *)
Definition joined (c : Z) (k : net) : Prop := c ∈ backlog k ∨ is_Some (routes k !! c).

(** ** The calls of the server *)

Definition fail {A} (e : Z) (r : A) (k : net) : A * net := (r, set_errno e k).

Definition new_server_fd (r : Z) (k : net) : net :=
  set_next_fd (Z.succ r) (set_server_fds ({[r]} ∪ server_fds k) (set_flags (<[r := 2]> (server_flags k))
    (set_got (delete r (s_got k)) (set_gave (delete r (s_gave k))
      (set_links (delete r (peers k)) (routes k) k))))).

Definition socket (k : net) : Z * net :=
  if room k <=? 0 then fail Sim.EMFILE (-1) k else (fresh_fd k, new_server_fd (fresh_fd k) k).

Definition accept (k : net) : Z * net :=
  let h := hiccup_of k in
  let k := pop k in
  match h, backlog k with
  | Some Late, _ | _, [] => fail EAGAIN (-1) k
  | _, c :: waiting =>
      let r := fresh_fd k in
      if Sim.RLIMIT_NOFILE <=? r then fail Sim.EMFILE (-1) k
      else
        let k := set_backlog waiting (new_server_fd r k) in
        (r, set_links (<[r := c]> (peers k)) (<[c := r]> (routes k)) k)
  end.

Definition close (s : Z) (k : net) : Z * net := (0, set_server_fds (server_fds k ∖ {[s]}) k).

Definition getfl (s : Z) (k : net) : Z * net := (default 2 (server_flags k !! s), k).
Definition setfl (s flags : Z) (k : net) : Z * net :=
  if flags <? 0 then fail Sim.EINVAL (-1) k else (0, set_flags (<[s := flags]> (server_flags k)) k).

Definition listen (s : Z) (k : net) : Z * net :=
  if decide (s ∈ server_fds k ∧ peers k !! s = None) then (0, set_listening ({[s]} ∪ listening k) k)
  else fail Sim.EINVAL (-1) k.

(** How many bytes of [n] the call may take. *)
Definition cut (h : option hiccup) (n : Z) : Z :=
  match h with Some (Cut m) => Z.min n (Z.of_nat (S m)) | _ => n end.

Definition recv (s n : Z) (k : net) : Z * list byte * net :=
  let h := hiccup_of k in
  let k := pop k in
  match h, peers k !! s with
  | Some Signal, _ => fail EINTR (-1, []) k
  | Some Late, _ | _, None => fail EAGAIN (-1, []) k
  | _, Some c =>
      let arrived := upward s c k in
      if decide (arrived = []) then
        if gone c k then ((0, []), k) else fail EAGAIN (-1, []) k
      else
        let bs := take (Z.to_nat (cut h n)) arrived in
        ((len bs, bs), set_got (<[s := at_ (s_got k) s ++ bs]> (s_got k)) k)
  end.

Definition send (s : Z) (data : list byte) (k : net) : Z * net :=
  let h := hiccup_of k in
  let k := pop k in
  match h with
  | Some Signal => fail EINTR (-1) k
  | Some Late => fail EAGAIN (-1) k
  | _ =>
      let bs := take (Z.to_nat (cut h (len data))) data in
      (len bs, set_gave (<[s := at_ (s_gave k) s ++ bs]> (s_gave k)) k)
  end.

Definition readable (k : net) (s : Z) : bool :=
  if decide (s ∈ listening k) then negb (bool_decide (backlog k = []))
  else
    match peers k !! s with
    | Some c => negb (bool_decide (upward s c k = [])) || gone c k
    | None => false
    end.

Definition select (sets : fd_sets) (k : net) : Z * fd_sets * net :=
  let h := hiccup_of k in
  let k := pop k in
  match h with
  | Some Late => ((0, mkSets ∅ ∅ ∅), k)
  | _ =>
      let r := filter (λ s, readable k s = true) (readfds sets) in
      let w := writefds sets in
      ((Z.of_nat (size r + size w), mkSets r w ∅), k)
  end.

Definition now `{!Clock} (k : net) : Z * net := (tick (looks k), set_looks (S (looks k)) k).

End Net.

#[export] Instance net_kernel `{!Clock} : Kernel net := {|
  errno := net_errno;
  sys_socket _ _ _ := Net.socket;
  sys_close := Net.close;
  sys_fcntl_getfl := Net.getfl;
  sys_fcntl_setfl := Net.setfl;
  sys_accept _ := Net.accept;
  sys_getsockname _ k := ((0, net_port k), k);
  sys_recv := Net.recv;
  sys_send s data _ := Net.send s data;
  sys_select _ sets _ := Net.select sets;
  sys_getaddrinfo _ _ _ _ k := ((0, [mkAddrinfo AF_INET SOCK_STREAM IPPROTO_TCP []]), k);
  gai_strerror _ := "name or service not known";
  sys_setsockopt_reuseaddr _ k := (0, k);
  sys_bind _ _ k := (0, k);
  sys_listen s _ := Net.listen s;
  sys_connect _ _ := Net.fail Net.ECONNREFUSED (-1);
  sys_now := Net.now;
|}.

#[export] Instance net_stop : StopFlag net := {| stop_load k := (stop_flag k, k) |}.

Definition is_signal (h : hiccup) : bool := match h with Signal => true | _ => false end.

#[export] Instance net_observe : Observe net := {|
  open_fds := server_fds;
  fd_flags k s := default 2 (server_flags k !! s);
  received k := Net.at_ (s_got k);
  sent k := Net.at_ (s_gave k);
  signals k := countb is_signal (hiccups k);
|}.

(** ** The laws of a kernel *)

Section laws.
Context `{!Clock}.
Implicit Types k : net.

Lemma foldr_max_ge b l : b ≤ foldr Z.max b l ∧ ∀ x, x ∈ l → x ≤ foldr Z.max b l.
Proof.
  induction l as [|y l [IH1 IH2]]; simpl; [split; [lia|by intros ? ?%elem_of_nil]|].
  split; [lia|]. intros x [->|Hx]%elem_of_cons; [lia|]. specialize (IH2 x Hx). lia.
Qed.

Lemma fresh_fd_above_net k : 3 ≤ Net.fresh_fd k ∧ next_fd k ≤ Net.fresh_fd k ∧
  ∀ x, x ∈ Net.open_of k → x < Net.fresh_fd k.
Proof.
  destruct (foldr_max_ge (Z.max 3 (next_fd k)) (Z.succ <$> elements (Net.open_of k))) as [H1 H2].
  fold (Net.fresh_fd k) in *. split; [lia|]. split; [lia|]. intros x Hx.
  specialize (H2 (Z.succ x) ltac:(apply list_elem_of_fmap; exists x; by rewrite elem_of_elements)). lia.
Qed.

Lemma fresh_not_server k : Net.fresh_fd k ∉ server_fds k.
Proof.
  intros Hin. destruct (fresh_fd_above_net k) as (_ & _ & Ha).
  specialize (Ha (Net.fresh_fd k)). unfold Net.open_of in Ha. rewrite !elem_of_union in Ha.
  specialize (Ha (or_introl (or_introl Hin))). lia.
Qed.

Lemma new_server_fd_opens k : opens (Net.fresh_fd k) k (Net.new_server_fd (Net.fresh_fd k) k).
Proof.
  destruct (fresh_fd_above_net k) as (? & _). pose proof (fresh_not_server k).
  unfold opens. simpl. split; [lia|]. split; [done|]. unfold Net.at_.
  split; intros; rewrite ?at_delete, ?decide_True, ?decide_False by done; done.
Qed.

Lemma pop_signals k :
  (signals (Net.pop k) ≤ signals k)%nat ∧
  (Net.hiccup_of k = Some Signal → (signals (Net.pop k) < signals k)%nat).
Proof.
  destruct k as [n [|h l]]; simpl; [by split|]. rewrite countb_cons.
  split; [lia|]. intros [= ->]. simpl. lia.
Qed.

Lemma fail_opens e k k' : keeps k k' → opens (Net.fail e (-1) k').1 k (Net.fail e (-1) k').2.
Proof. intros Hk. change (opens (-1) k (Net.set_errno e k')). by apply keeps_opens. Qed.

Lemma net_accept_law s k : opens (sys_accept s k).1 k (sys_accept s k).2.
Proof.
  simpl. unfold Net.accept. assert (keeps k (Net.pop k)) as Hk by done.
  destruct (Net.hiccup_of k) as [[| |]|], (backlog (Net.pop k)) as [|c w]; try by apply fail_opens.
  all: destruct (Z.leb_spec Sim.RLIMIT_NOFILE (Net.fresh_fd (Net.pop k))); [by apply fail_opens|].
  all: exact (new_server_fd_opens (Net.pop k)).
Qed.

Lemma net_recv_law s n k :
  let r := sys_recv s n k in
  r.1.1 ≤ Z.max 0 n ∧ len r.1.2 = Z.max 0 r.1.1 ∧
  open_fds r.2 = open_fds k ∧
  received r.2 s = received k s ++ r.1.2 ∧
  (∀ s', s' ≠ s → received r.2 s' = received k s') ∧
  (∀ s', sent r.2 s' = sent k s').
Proof.
  assert (∀ e r, r ≤ 0 → len (@nil byte) = Z.max 0 r → let q : Z * list byte * net := Net.fail e (r, []) (Net.pop k) in
    q.1.1 ≤ Z.max 0 n ∧ len q.1.2 = Z.max 0 q.1.1 ∧ open_fds q.2 = open_fds k ∧
    received q.2 s = received k s ++ q.1.2 ∧ (∀ s', s' ≠ s → received q.2 s' = received k s') ∧
    (∀ s', sent q.2 s' = sent k s')) as Hfail.
  { intros e r Hr Hl. simpl. rewrite app_nil_r. by split; [lia|]. }
  simpl. unfold Net.recv.
  destruct (Net.hiccup_of k) as [[|m|]|], (peers (Net.pop k) !! s) as [c|]; try by apply Hfail.
  all: destruct (decide _) as [|Hne]; [destruct (Net.gone _ _); [|by apply Hfail]|].
  all: simpl; rewrite ?app_nil_r; try by (split; [lia|]).
  all: unfold Net.at_; rewrite at_insert, decide_True by done.
  all: split; [rewrite length_take; unfold Net.cut; lia|]; split; [lia|]; split; [done|]; split; [done|].
  all: split; [|done]; intros s' Hs'; by rewrite at_insert, decide_False.
Qed.

Lemma take_taken {A} n (l : list A) : take (Z.to_nat (len (take n l))) l = take n l.
Proof.
  rewrite Nat2Z.id, length_take. destruct (Nat.min_spec n (length l)) as [[? ->]|[? ->]]; [done|].
  by rewrite firstn_all, take_ge.
Qed.

Lemma net_send_law s data flags k :
  let r := sys_send s data flags k in
  r.1 ≤ len data ∧ open_fds r.2 = open_fds k ∧
  sent r.2 s = sent k s ++ take (Z.to_nat r.1) data ∧
  (∀ s', s' ≠ s → sent r.2 s' = sent k s') ∧
  (∀ s', received r.2 s' = received k s').
Proof.
  simpl. unfold Net.send.
  destruct (Net.hiccup_of k) as [[|m|]|]; simpl;
    try by (rewrite app_nil_r; split; [lia|]).
  all: unfold Net.at_; rewrite at_insert, decide_True by done.
  all: split; [rewrite length_take; lia|]; split; [done|]; split; [by rewrite take_taken|].
  all: split; [|done]; intros s' Hs'; by rewrite at_insert, decide_False.
Qed.

Lemma net_recv_interrupted s n k :
  let r := sys_recv s n k in
  (signals r.2 ≤ signals k)%nat ∧ (r.1.1 < 0 → errno r.2 = EINTR → (signals r.2 < signals k)%nat).
Proof.
  destruct (pop_signals k) as [Hle Hlt]. simpl. unfold Net.recv.
  destruct (Net.hiccup_of k) as [[|m|]|], (peers (Net.pop k) !! s) as [c|]; try (by split; [|intros _ ?]);
    try (by split; [done|intros; apply Hlt]).
  all: destruct (decide _); [destruct (Net.gone _ _)|]; (split; [done|]); simpl; intros; lia || done.
Qed.

Lemma net_send_interrupted s data flags k :
  let r := sys_send s data flags k in
  (signals r.2 ≤ signals k)%nat ∧ (r.1 < 0 → errno r.2 = EINTR → (signals r.2 < signals k)%nat).
Proof.
  destruct (pop_signals k) as [Hle Hlt]. simpl. unfold Net.send.
  destruct (Net.hiccup_of k) as [[|m|]|]; (split; [done|]); simpl; intros; try (lia || done).
  by apply Hlt.
Qed.

#[export] Instance net_laws : KernelLaws net.
Proof.
  constructor.
  - intros f t p k. simpl. unfold Net.socket. destruct (_ <=? 0); [by apply fail_opens|].
    apply new_server_fd_opens.
  - apply net_accept_law.
  - done.
  - done.
  - intros s flags k. simpl. unfold Net.setfl. destruct (Z.ltb_spec flags 0); [done|].
    split; [done|]. intros _ _. simpl. by rewrite lookup_insert_eq.
  - done.
  - intros n sets tv k. simpl. unfold Net.select.
    destruct (Net.hiccup_of k) as [[|m|]|]; simpl; (split; [done|]); intros _;
      (split; [|split]); intros x; rewrite ?elem_of_filter, ?elem_of_empty; tauto.
  - done.
  - done.
  - done.
  - intros s b k. simpl. unfold Net.listen. by destruct (decide _).
  - done.
  - done.
  - apply net_recv_law.
  - apply net_send_law.
  - apply net_recv_interrupted.
  - apply net_send_interrupted.
Qed.
End laws.

(** ** A finite world

    What is still to come is what is on its way. *)

(** The sum of [f] over the entries of a map. *)
Definition map_sum (f : Z → Z → nat) (m : gmap Z Z) : nat :=
  sum_list ((λ e, f e.1 e.2) <$> map_to_list m).

Lemma map_sum_insert f m i x : m !! i = None → map_sum f (<[i := x]> m) = (f i x + map_sum f m)%nat.
Proof. intros Hi. unfold map_sum. by rewrite map_to_list_insert. Qed.

Lemma map_sum_delete f m i x : m !! i = Some x → map_sum f m = (f i x + map_sum f (delete i m))%nat.
Proof.
  intros Hi. rewrite <- (map_sum_insert f (delete i m) i x) by apply lookup_delete_eq.
  by rewrite insert_delete_id.
Qed.

Lemma map_sum_mono f g m : (∀ i x, m !! i = Some x → (f i x ≤ g i x)%nat) → (map_sum f m ≤ map_sum g m)%nat.
Proof.
  induction m as [|i x m Hi IH] using map_ind; intros Hfg; [done|].
  rewrite !map_sum_insert by done. specialize (Hfg i x ltac:(apply lookup_insert_eq)) as H1.
  assert (map_sum f m ≤ map_sum g m)%nat; [|lia]. apply IH. intros j y Hj. apply Hfg.
  rewrite lookup_insert_ne; [done|congruence].
Qed.

Lemma map_sum_delete_le f m i : (map_sum f (delete i m) ≤ map_sum f m)%nat.
Proof.
  destruct (m !! i) as [x|] eqn:E; [rewrite (map_sum_delete f m i x E); lia|].
  by rewrite delete_id.
Qed.

Definition in_flight (k : net) : nat := map_sum (λ h c, length (Net.upward h c k)) (peers k).
Definition waiting (k : net) : nat := sum_list ((λ c, S (length (Net.at_ (c_sent k) c))) <$> backlog k).

(** What the server still has to do, one way and the other. *)
Definition unserved (h c : Z) (k : net) : nat :=
  (length (Net.upward h c k) + (length (Net.at_ (c_sent k) c) - length (Net.at_ (s_gave k) h)))%nat.
Definition undone (k : net) : nat :=
  (length (hiccups k) + map_sum (λ h c, unserved h c k) (peers k) +
  sum_list ((λ c, 2 + 2 * length (Net.at_ (c_sent k) c)) <$> backlog k))%nat.

#[export] Instance net_world `{!Clock} : World net := {|
  traffic k := (in_flight k + waiting k)%nat;
  looks_left d k := (looks_before d - looks k)%nat;
|}.

Section finite.
Context `{!Clock}.
Implicit Types k : net.

(** What a call leaves as it was. *)
Lemma calm_same k k' :
  peers k' = peers k → backlog k' = backlog k → s_got k' = s_got k → c_sent k' = c_sent k →
  (looks k ≤ looks k')%nat → (signals k' ≤ signals k)%nat → calm k k'.
Proof.
  intros E1 E2 E3 E4 Hl Hs. split; [|split; [|done]].
  - simpl. unfold in_flight, waiting, Net.upward. by rewrite E1, E2, E3, E4.
  - intros d. simpl. lia.
Qed.

Lemma new_server_fd_in_flight r k : (in_flight (Net.new_server_fd r k) ≤ in_flight k)%nat.
Proof.
  unfold in_flight. simpl. etrans; [|apply (map_sum_delete_le _ _ r)]. apply map_sum_mono.
  intros h c Hh. unfold Net.upward, Net.at_. simpl. rewrite at_delete.
  case_decide as E; [|done]. subst h. by rewrite lookup_delete_eq in Hh.
Qed.

Lemma new_server_fd_calm r k : calm k (Net.new_server_fd r k).
Proof.
  pose proof (new_server_fd_in_flight r k). split; [|split; [|done]]; [|intros d; simpl; lia].
  simpl. unfold waiting in *. simpl. lia.
Qed.

(** The connection that is accepted, as [accept] leaves it. *)
Definition accepted (r c : Z) (w : list Z) (k : net) : net :=
  let k := Net.set_backlog w (Net.new_server_fd r k) in
  Net.set_links (<[r := c]> (peers k)) (<[c := r]> (routes k)) k.

Lemma accepted_traffic r c w k : backlog k = c :: w → (traffic (accepted r c w k) < traffic k)%nat.
Proof.
  intros Eb. pose proof (new_server_fd_in_flight r k) as Hin. simpl. unfold waiting. rewrite Eb. simpl.
  assert (in_flight (accepted r c w k) = length (Net.at_ (c_sent k) c) + in_flight (Net.new_server_fd r k))%nat as ->; [|unfold fmap in *; lia].
  unfold in_flight at 1. simpl. rewrite map_sum_insert by apply lookup_delete_eq. f_equal.
  unfold Net.upward, Net.at_. simpl. by rewrite at_delete, decide_True.
Qed.

Lemma net_accept_finite s k :
  calm k (sys_accept s k).2 ∧
  (0 ≤ (sys_accept s k).1 → (traffic (sys_accept s k).2 < traffic k)%nat) ∧ (sys_accept s k).1 < 1024.
Proof.
  pose proof (pop_signals k) as [Hs _].
  assert (∀ e, let r := Net.fail e (-1) (Net.pop k) in
    calm k r.2 ∧ (0 ≤ r.1 → (traffic r.2 < traffic k)%nat) ∧ r.1 < 1024) as Hfail.
  { intros e. simpl. split; [by apply calm_same|]. split; [lia|done]. }
  simpl. unfold Net.accept.
  destruct (Net.hiccup_of k) as [[| |]|], (backlog (Net.pop k)) as [|c w] eqn:Eb;
    match goal with |- calm _ (Net.fail ?e _ _).2 ∧ _ => exact (Hfail e) | _ => idtac end.
  all: destruct (Z.leb_spec Sim.RLIMIT_NOFILE (Net.fresh_fd (Net.pop k))) as [|Hr]; [exact (Hfail Sim.EMFILE)|].
  all: pose proof (accepted_traffic (Net.fresh_fd (Net.pop k)) c w (Net.pop k) Eb) as Ht.
  all: change (traffic (Net.pop k)) with (traffic k) in Ht.
  all: (split; [|split; [intros _; exact Ht|exact Hr]]); (split; [apply Nat.lt_le_incl, Ht|]).
  all: (split; [intros d; simpl; lia|exact Hs]).
Qed.

Lemma net_recv_finite s n k :
  calm k (sys_recv s n k).2 ∧
  (traffic (sys_recv s n k).2 + length (sys_recv s n k).1.2 ≤ traffic k)%nat.
Proof.
  pose proof (pop_signals k) as [Hs _].
  assert (∀ e r, let q : Z * list byte * net := Net.fail e (r, []) (Net.pop k) in
    calm k q.2 ∧ (traffic q.2 + length q.1.2 ≤ traffic k)%nat) as Hfail.
  { intros e r q. assert (calm k q.2) as Hc by by apply calm_same. split; [exact Hc|].
    rewrite Nat.add_0_r. apply Hc. }
  assert (calm k (Net.pop k) ∧ (traffic (Net.pop k) + 0 ≤ traffic k)%nat) as Hpop.
  { rewrite Nat.add_0_r. split; [by apply calm_same|apply Nat.le_refl]. }
  simpl. unfold Net.recv.
  destruct (Net.hiccup_of k) as [[|m|]|], (peers (Net.pop k) !! s) as [c|] eqn:Ep;
    match goal with |- calm _ (Net.fail ?e (?r, _) _).2 ∧ _ => exact (Hfail e r) | _ => idtac end.
  all: destruct (decide _) as [|Hne]; [destruct (Net.gone _ _); [exact Hpop|exact (Hfail EAGAIN (-1))]|].
  all: set (bs := take _ _); set (k' := Net.set_got _ _).
  all: assert (in_flight k' + length bs ≤ in_flight k)%nat as Hf.
  all: try (unfold calm; simpl; change (waiting k') with (waiting k);
    split; [split; [lia|split; [intros d; simpl; lia|exact Hs]]|lia]).
  all: simpl in Ep; unfold in_flight; change (peers k') with (peers k);
    rewrite !(map_sum_delete _ _ s c Ep), Nat.add_shuffle0; apply Nat.add_le_mono.
  all: try (apply map_sum_mono; intros h c' [Hh _]%lookup_delete_Some;
    unfold Net.upward, k', Net.at_; simpl; by rewrite at_insert, decide_False).
  all: unfold Net.upward, k', Net.at_; simpl; rewrite at_insert, decide_True by done;
    unfold bs, Net.upward, Net.at_; simpl; rewrite !length_drop, length_app, length_take, length_drop; lia.
Qed.

#[export] Instance net_finite : FiniteWorld net.
Proof.
  constructor; intros; try (simpl; by apply calm_same).
  - apply net_recv_finite.
  - apply net_accept_finite.
  - simpl. split; [apply calm_same; simpl; auto|]. intros d Hd.
    destruct (decide (looks_before d ≤ looks k)%nat) as [Hl|Hl]; [apply tick_reaches in Hl|]; lia.
  - simpl. unfold Net.socket. destruct (Z.leb_spec (Net.room k) 0) as [|Hr]; simpl.
    + by split; [apply calm_same|].
    + split; [apply new_server_fd_calm|]. unfold Net.room, Sim.RLIMIT_NOFILE in Hr. lia.
  - pose proof (pop_signals k) as [Hs _]. simpl. unfold Net.send.
    destruct (Net.hiccup_of k) as [[|m|]|]; by apply calm_same.
  - simpl. unfold Net.setfl. destruct (_ <? 0); by apply calm_same.
  - pose proof (pop_signals k) as [Hs _]. simpl. unfold Net.select.
    destruct (Net.hiccup_of k) as [[|m|]|]; by apply calm_same.
  - simpl. unfold Net.listen. destruct (decide _); by apply calm_same.
Qed.
End finite.

(** ** A sound network

    Links go both ways and between descriptors that have been handed out; what
    has been received is what was sent, from the start; there is a descriptor for
    everyone who waits; and what the clients send is frames. *)
Record sound `{params : !ServerParams} (k : net) : Prop := {
  nt_fds x : x ∈ Net.open_of k → x < next_fd k;
  nt_links h c : peers k !! h = Some c ↔ routes k !! c = Some h;
  nt_old h c : peers k !! h = Some c → h < next_fd k ∧ c < next_fd k;
  nt_distinct : NoDup (backlog k);
  nt_waiting c : c ∈ backlog k → c < next_fd k ∧ routes k !! c = None;
  nt_idle c : routes k !! c = None →
    Net.at_ (c_got k) c = [] ∧ (c ∉ backlog k → Net.at_ (c_sent k) c = []);
  nt_up h c : peers k !! h = Some c → Net.at_ (s_got k) h `prefix_of` Net.at_ (c_sent k) c;
  nt_down h c : peers k !! h = Some c → Net.at_ (c_got k) c `prefix_of` Net.at_ (s_gave k) h;
  nt_listening h : h ∈ listening k → h < next_fd k ∧ peers k !! h = None;
  nt_room : 3 ≤ next_fd k ∧ next_fd k + len (backlog k) ≤ Sim.RLIMIT_NOFILE;
  nt_polite c : polite (Net.at_ (c_sent k) c);
  nt_quiet h : peers k !! h = None → Net.at_ (s_got k) h = [];
  nt_flags s f : server_flags k !! s = Some f → 0 ≤ f;
}.

Section sound.
Context `{params : !ServerParams, !Clock}.
Implicit Types k : net.

Lemma sound_fresh k : sound k → Net.fresh_fd k = next_fd k.
Proof.
  intros Hs. destruct (fresh_fd_above_net k) as (_ & H1 & _). unfold Net.fresh_fd in *.
  apply Z.le_antisymm; [|done]. pose proof (nt_room _ Hs) as [H3 _].
  assert (∀ l, (∀ x, x ∈ l → x < next_fd k) → foldr Z.max (Z.max 3 (next_fd k)) (Z.succ <$> l) ≤ next_fd k) as Hl.
  { induction l as [|x l IH]; intros Hx; simpl; [lia|].
    specialize (Hx x ltac:(by apply elem_of_cons; left)) as H2.
    assert (foldr Z.max (Z.max 3 (next_fd k)) (Z.succ <$> l) ≤ next_fd k); [|unfold fmap in *; lia].
    apply IH. intros y Hy. apply Hx, elem_of_cons. by right. }
  apply Hl. intros x. rewrite elem_of_elements. apply (nt_fds _ Hs).
Qed.

(** Nothing of it depends on what is left of the hiccups and the clock, on
    [errno], the flags and the stop flag. *)
Lemma sound_pop k : sound k → sound (Net.pop k).
Proof. intros []. by constructor. Qed.
Lemma sound_errno e k : sound k → sound (Net.set_errno e k).
Proof. intros []. by constructor. Qed.
Lemma sound_flags s f k : 0 ≤ f → sound k → sound (Net.set_flags (<[s := f]> (server_flags k)) k).
Proof.
  intros Hf []. constructor; try done. simpl. intros s' f' [[_ <-]|[_ ?]]%lookup_insert_Some; [done|by eapply nt_flags0].
Qed.
Lemma sound_looks n k : sound k → sound (Net.set_looks n k).
Proof. intros []. by constructor. Qed.
Lemma sound_stop b k : sound k → sound (Net.set_stop b k).
Proof. intros []. by constructor. Qed.

(** Descriptors are only closed. *)
Lemma sound_close o k : o ⊆ server_fds k → sound k → sound (Net.set_server_fds o k).
Proof.
  intros Ho []. constructor; try done. intros x Hx. apply nt_fds0. revert Hx.
  unfold Net.open_of. simpl. rewrite !elem_of_union. intros [[?|?]|?]; auto.
Qed.

Lemma sound_new_server_fd k : sound k → 0 < Net.room k → sound (Net.new_server_fd (next_fd k) k).
Proof.
  intros Hs Hr. pose proof (sound_fresh k Hs) as Ef. unfold Net.room in Hr. rewrite Ef in Hr.
  destruct Hs. set (r := next_fd k) in *.
  assert (peers k !! r = None) as Hr0.
  { destruct (peers k !! r) as [c|] eqn:E; [|done]. destruct (nt_old0 r c E). lia. }
  assert (delete r (peers k) = peers k) as Ep by (by apply delete_id).
  assert (∀ m h, peers k !! h = None ∨ h ≠ r → Net.at_ (delete r m) h = if decide (r = h) then [] else Net.at_ m h) as Hat
    by (intros; apply at_delete).
  constructor; simpl; rewrite ?Ep; try done.
  - intros x. unfold Net.open_of. simpl. rewrite !elem_of_union, elem_of_singleton.
    intros Hx. assert (x = r ∨ x ∈ Net.open_of k) as [->|Hx']; [unfold Net.open_of; rewrite !elem_of_union; tauto|lia|].
    apply nt_fds0 in Hx'. lia.
  - intros h c Hh. destruct (nt_old0 h c Hh). lia.
  - intros c Hc. destruct (nt_waiting0 c Hc). split; [lia|done].
  - intros h c Hh. unfold Net.at_. rewrite at_delete, decide_False by congruence. by apply nt_up0.
  - intros h c Hh. unfold Net.at_. rewrite (at_delete (s_gave k)), decide_False by congruence. by apply nt_down0.
  - intros h Hh. destruct (nt_listening0 h Hh). split; [lia|done].
  - split; [lia|]. lia.
  - intros h Hh. unfold Net.at_. rewrite at_delete. case_decide; [done|]. by apply nt_quiet0.
  - intros s f [[_ <-]|[_ ?]]%lookup_insert_Some; [done|by eapply nt_flags0].
Qed.

Lemma sound_accepted k c w :
  sound k → backlog k = c :: w → sound (accepted (next_fd k) c w k).
Proof.
  intros Hs Eb. set (r := next_fd k). 
  assert (peers k !! r = None) as Hr0.
  { destruct (peers k !! r) as [c'|] eqn:E; [|done]. destruct (nt_old _ Hs r c' E). lia. }
  pose proof (nt_room _ Hs) as [Hr3 Hrm]. rewrite Eb in Hrm. simpl in Hrm.
  destruct Hs. rewrite Eb in *. apply NoDup_cons in nt_distinct0 as [Hc Hw].
  destruct (nt_waiting0 c) as [Hcr Hcn]; [by apply elem_of_cons; left|].
  destruct (nt_idle0 c Hcn) as [Hcg _].
  assert (delete r (peers k) = peers k) as Ep by (by apply delete_id).
  constructor; simpl; rewrite ?Ep; try done.
  - intros x. unfold Net.open_of. simpl. rewrite !elem_of_union, elem_of_singleton.
    intros Hx. assert (x = r ∨ x ∈ Net.open_of k) as [->|Hx']; [unfold Net.open_of; rewrite !elem_of_union; tauto|lia|].
    apply nt_fds0 in Hx'. lia.
  - intros h c'. destruct (decide (h = r)) as [->|Hh].
    + rewrite lookup_insert_eq. destruct (decide (c' = c)) as [->|Hc'].
      * rewrite lookup_insert_eq. done.
      * rewrite lookup_insert_ne by done. rewrite <- nt_links0, Hr0. split; [by intros [= ->]|done].
    + rewrite lookup_insert_ne by done. destruct (decide (c' = c)) as [->|Hc'].
      * rewrite lookup_insert_eq, nt_links0, Hcn. split; [done|by intros [= ->]].
      * by rewrite lookup_insert_ne, nt_links0.
  - intros h c'. destruct (decide (h = r)) as [->|Hh].
    + rewrite lookup_insert_eq. intros [= <-]. lia.
    + rewrite lookup_insert_ne by done. intros Hp. destruct (nt_old0 h c' Hp). lia.
  - intros c' Hc'. destruct (nt_waiting0 c') as [? ?]; [by apply elem_of_cons; right|].
    rewrite lookup_insert_ne by (intros ->; done). split; [lia|done].
  - intros c'. destruct (decide (c' = c)) as [->|Hne]; [by rewrite lookup_insert_eq|].
    rewrite lookup_insert_ne by done. intros Hn. destruct (nt_idle0 c' Hn) as [? Hs']. split; [done|].
    intros Hnw. apply Hs'. by intros [->|?]%elem_of_cons.
  - intros h c' Hp. unfold Net.at_. rewrite at_delete. case_decide as E; [by exists (Net.at_ (c_sent k) c')|].
    rewrite lookup_insert_ne in Hp by done. by apply nt_up0.
  - intros h c' Hp. unfold Net.at_. rewrite (at_delete (s_gave k)). case_decide as E.
    + subst h. rewrite lookup_insert_eq in Hp. injection Hp as <-. unfold Net.at_ in Hcg. by rewrite Hcg.
    + rewrite lookup_insert_ne in Hp by done. by apply nt_down0.
  - intros h Hh. destruct (nt_listening0 h Hh). rewrite lookup_insert_ne by lia. split; [lia|done].
  - lia.
  - intros h Hh. unfold Net.at_. rewrite at_delete. case_decide as E; [done|].
    rewrite lookup_insert_ne in Hh by done. by apply nt_quiet0.
  - intros s f [[_ <-]|[_ ?]]%lookup_insert_Some; [done|by eapply nt_flags0].
Qed.

Lemma sound_listen s k : sound k → s ∈ server_fds k → peers k !! s = None →
  sound (Net.set_listening ({[s]} ∪ listening k) k).
Proof.
  intros [] Hs Hp. constructor; try done. intros h. simpl.
  rewrite elem_of_union, elem_of_singleton. intros [->|Hh]; [|by apply nt_listening0].
  split; [|done]. apply nt_fds0. unfold Net.open_of. rewrite !elem_of_union. auto.
Qed.

Lemma upward_take k h c n bs :
  sound k → peers k !! h = Some c → bs = take n (Net.upward h c k) →
  (Net.at_ (s_got k) h ++ bs) `prefix_of` Net.at_ (c_sent k) c.
Proof.
  intros Hs Hp ->. destruct (nt_up _ Hs h c Hp) as [more E]. unfold Net.upward. rewrite E, drop_app_length.
  apply prefix_app, prefix_take.
Qed.

Lemma sound_got k h c bs :
  sound k → peers k !! h = Some c → (Net.at_ (s_got k) h ++ bs) `prefix_of` Net.at_ (c_sent k) c →
  sound (Net.set_got (<[h := Net.at_ (s_got k) h ++ bs]> (s_got k)) k).
Proof.
  intros [] Hp Hpre. constructor; try done; simpl.
  - intros h' c' Hp'. unfold Net.at_ in *. rewrite at_insert. case_decide as E; [|by apply nt_up0].
    subst h'. rewrite Hp in Hp'. by injection Hp' as <-.
  - intros h' Hp'. unfold Net.at_ in *. rewrite at_insert, decide_False by congruence. by apply nt_quiet0.
Qed.

Lemma sound_gave k h bs :
  sound k → sound (Net.set_gave (<[h := Net.at_ (s_gave k) h ++ bs]> (s_gave k)) k).
Proof.
  intros []. constructor; try done; simpl.
  intros h' c' Hp'. unfold Net.at_ in *. rewrite at_insert. case_decide as E; [|by apply nt_down0].
  subst h'. etrans; [by apply nt_down0|]. by apply prefix_app_r.
Qed.

Lemma sound_accept k : sound k → sound (Net.accept k).2.
Proof.
  intros Hs%sound_pop. unfold Net.accept.
  destruct (Net.hiccup_of k) as [[| |]|], (backlog (Net.pop k)) as [|c w] eqn:E; try by apply sound_errno.
  all: rewrite (sound_fresh _ Hs).
  all: destruct (_ <=? _); [by apply sound_errno|by apply sound_accepted].
Qed.

Lemma sound_recv s n k : sound k → sound (Net.recv s n k).2.
Proof.
  intros Hs%sound_pop. unfold Net.recv.
  destruct (Net.hiccup_of k) as [[| |]|], (peers (Net.pop k) !! s) as [c|] eqn:Ep; try by apply sound_errno.
  all: destruct (decide _); [destruct (Net.gone _ _); [done|by apply sound_errno]|].
  all: eapply sound_got; [done|exact Ep|by eapply upward_take].
Qed.

Lemma sound_send s data k : sound k → sound (Net.send s data k).2.
Proof.
  intros Hs%sound_pop. unfold Net.send.
  destruct (Net.hiccup_of k) as [[| |]|]; (by apply sound_errno) || by apply sound_gave.
Qed.

#[export] Instance sound_covers : Covers (λ k k', sound k → sound k').
Proof.
  constructor; [split; [by intros ? ?|by intros ? ? ? ? ? ?; auto]|constructor..]; try (intros; simpl; done).
  - intros s k. simpl. apply sound_close. intros x. rewrite elem_of_difference. tauto.
  - intros s k. apply sound_accept.
  - intros s flags k Hs. simpl. unfold Net.setfl.
    destruct (Z.ltb_spec flags 0); [by apply sound_errno|by apply sound_flags].
  - intros n sets tv k Hs%sound_pop. simpl. unfold Net.select. by destruct (Net.hiccup_of k) as [[| |]|].
  - intros k. apply sound_looks.
  - intros f t p k Hs. simpl. unfold Net.socket. destruct (Z.leb_spec (Net.room k) 0); [by apply sound_errno|].
    rewrite sound_fresh by done. by apply sound_new_server_fd.
  - intros s b k Hs. simpl. unfold Net.listen.
    destruct (decide _) as [[? ?]|]; [by apply sound_listen|by apply sound_errno].
Qed.

#[export] Instance sound_covers_io : CoversIO (λ k k', sound k → sound k').
Proof. constructor; intros; [by apply sound_recv|by apply sound_send]. Qed.

Lemma polite_prefix bs bs' : bs `prefix_of` bs' → polite bs' → polite bs.
Proof. intros Hp (ps & Hps & Hall). exists ps. split; [by etrans|done]. Qed.

Lemma polite_nil : polite [].
Proof. exists []. split; [apply prefix_nil|done]. Qed.

Lemma sound_polite k s : sound k → polite (Net.at_ (s_got k) s).
Proof.
  intros Hs. destruct (peers k !! s) as [c|] eqn:E.
  - eapply polite_prefix; [by eapply nt_up|by apply nt_polite].
  - rewrite nt_quiet by done. apply polite_nil.
Qed.

#[export, refine] Instance net_good : GoodWorld net := {|
  good := sound;
  is_listener _ := True;
|}.
Proof.
  - intros k s Hs _. by apply sound_polite.
  - intros s n k _ _. simpl. unfold Net.recv.
    destruct (Net.hiccup_of k) as [[|m|]|], (peers (Net.pop k) !! s) as [c|]; simpl; auto.
    all: destruct (decide _); [destruct (Net.gone _ _)|]; simpl; intros; auto; lia.
  - intros s data flags k _ _ Hd. simpl. unfold Net.send.
    destruct (Net.hiccup_of k) as [[|m|]|]; simpl; auto.
    all: assert (0 < length data)%nat by (destruct data; [done|simpl; lia]).
    all: rewrite length_take; split; lia.
  - intros s k Hs%sound_pop _ _. simpl. unfold Net.accept.
    pose proof (nt_room _ Hs) as [_ Hr]. pose proof (nt_room _ Hs) as [H3 _].
    destruct (Net.hiccup_of k) as [[|m|]|], (backlog (Net.pop k)) as [|c w]; simpl; auto.
    all: cbn [length] in Hr; rewrite (sound_fresh _ Hs).
    all: rewrite (proj2 (Z.leb_gt _ _)) by lia; simpl in *; lia.
  - intros s k Hs _. simpl. destruct (server_flags k !! s) as [f|] eqn:E; [|done]. by eapply nt_flags.
  - intros s flags k _ _ Hf. simpl. unfold Net.setfl. by rewrite (proj2 (Z.ltb_ge _ _)).
  - intros n sets tv k _ _. simpl. unfold Net.select. destruct (Net.hiccup_of k) as [[|m|]|]; simpl; lia.
Defined.

#[export] Instance net_stop_laws : StopFlagLaws net.
Proof. constructor; intros; reflexivity. Qed.
End sound.
