(* ===== verification/NetTurn.v ===== *)
(** * A turn of the server on the network

    What the server's event loop does on Net.v, beyond EchoLoop.v: it leaves the
    clients' side alone ([aside]), keeps connections that have not been closed by
    their clients ([attached]), and has less to do after every turn in which the
    network has something for it ([serve_turn_net]). *)

From S2P Require Import Prelude Vector FrameCodec Os Socket Connection SocketIO Poller Acceptor Dispatcher.
From S2P Require Import EchoServer Footprint EchoWorld EchoInvariant EchoLoop Net.

(** ** What the server's calls never change *)

Record aside (k k' : net) : Prop := {
  as_sent : c_sent k' = c_sent k;
  as_got : c_got k' = c_got k;
  as_clients : client_fds k' = client_fds k;
  as_others : other_fds k' = other_fds k;
  as_stop : stop_flag k' = stop_flag k;
  as_port : net_port k' = net_port k;
}.

#[export] Instance aside_preorder : PreOrder aside.
Proof. split; [by constructor|]. intros x y z [] []. constructor; congruence. Qed.

#[export] Instance aside_covers `{!Clock} : Covers aside.
Proof.
  cover_calls; intros; simpl; try by constructor.
  - unfold Net.accept. repeat case_match; by constructor.
  - unfold Net.setfl. case_match; by constructor.
  - unfold Net.select. repeat case_match; by constructor.
  - unfold Net.socket. case_match; by constructor.
  - unfold Net.listen. case_match; by constructor.
Qed.

#[export] Instance aside_covers_io `{!Clock} : CoversIO aside.
Proof.
  constructor; intros; simpl.
  - unfold Net.recv. repeat case_match; by constructor.
  - unfold Net.send. repeat case_match; by constructor.
Qed.

(** Nor do those of a connection's handler touch the links. *)
Record unlinked (k k' : net) : Prop := {
  ul_peers : peers k' = peers k;
  ul_routes : routes k' = routes k;
  ul_backlog : backlog k' = backlog k;
}.

#[export] Instance unlinked_preorder : PreOrder unlinked.
Proof. split; [by constructor|]. intros x y z [] []. constructor; congruence. Qed.

#[export] Instance unlinked_close `{!Clock} : CoversClose unlinked.
Proof. by constructor. Qed.
#[export] Instance unlinked_io `{!Clock} : CoversIO unlinked.
Proof.
  constructor; intros; simpl.
  - unfold Net.recv. repeat case_match; by constructor.
  - unfold Net.send. repeat case_match; by constructor.
Qed.

Lemma gone_aside c k k' : aside k k' → Net.gone c k' = Net.gone c k.
Proof. intros []. unfold Net.gone. by rewrite as_clients0, as_others0. Qed.

(** ** What is left to do shrinks *)

Lemma subset_less (X Y : gset Z) : X ∖ Y ⊆ X.
Proof. intros x. rewrite elem_of_difference. tauto. Qed.

Section turning.
Context `{params : !ServerParams, !Clock}.
Implicit Types k : net.

Definition todo (k : net) : nat := undone k + size (server_fds k).

Record turning (k k' : net) : Prop := {
  tn_sound : sound k';
  tn_looks : looks k' = looks k;
  tn_listening : listening k' = listening k;
  tn_undone : (undone k' ≤ undone k)%nat;
  tn_todo : (todo k' ≤ todo k)%nat;
  tn_room : next_fd k' + len (backlog k') = next_fd k + len (backlog k);
  tn_routes c h : routes k !! c = Some h → routes k' !! c = Some h;
  tn_joined c : Net.joined c k' ↔ Net.joined c k;
}.

Definition turns (k k' : net) : Prop := sound k → turning k k'.

#[export] Instance turns_preorder : PreOrder turns.
Proof.
  split.
  - intros k Hs. by constructor.
  - intros x y z H1 H2 Hs. destruct (H1 Hs) as [S1 L1 I1 U1 T1 M1 R1 B1].
    destruct (H2 S1) as [S2 L2 I2 U2 T2 M2 R2 B2]. constructor; try congruence; try lia; auto.
    intros c. by rewrite B2, B1.
Qed.

(** A call that leaves the links as they are. *)
Lemma turns_linked k k' :
  (sound k → sound k') → unlinked k k' → looks k' = looks k → listening k' = listening k →
  next_fd k' = next_fd k → server_fds k' ⊆ server_fds k →
  (undone k' ≤ undone k)%nat → turns k k'.
Proof.
  intros Hs [E1 E2 E3] E4 E5 E6 Hf Hu Hk. pose proof (subseteq_size _ _ Hf).
  constructor; unfold Net.joined; rewrite ?E2, ?E3, ?E6; auto. unfold todo. lia.
Qed.

Lemma pop_undone k : (undone (Net.pop k) ≤ undone k)%nat ∧
  (hiccups k ≠ [] → (undone (Net.pop k) < undone k)%nat).
Proof.
  unfold undone. rewrite <- !Nat.add_assoc.
  change (length (hiccups (Net.pop k))) with (length (tail (hiccups k))).
  match goal with |- (_ + ?n ≤ _ + ?m)%nat ∧ _ => change m with n end.
  destruct (hiccups k); simpl; (split; [lia|intros; done || lia]).
Qed.

Lemma turns_pop k : turns k (Net.pop k).
Proof. apply turns_linked; try done; [apply sound_pop|apply pop_undone]. Qed.

Lemma turns_errno e k : turns k (Net.set_errno e k).
Proof. apply turns_linked; try done. apply sound_errno. Qed.

(** Bytes that are received are less on the way. *)
Lemma undone_got k h c n bs :
  sound k → peers k !! h = Some c → bs = take n (Net.upward h c k) →
  (undone (Net.set_got (<[h := Net.at_ (s_got k) h ++ bs]> (s_got k)) k) + length bs ≤ undone k)%nat.
Proof.
  intros Hs Hp Hb. pose proof (upward_take k h c n bs Hs Hp Hb) as [more Em].
  unfold undone. simpl. rewrite !(map_sum_delete _ _ h c Hp).
  set (k' := Net.set_got _ k).
  assert (map_sum (λ h c, unserved h c k') (delete h (peers k)) ≤ map_sum (λ h c, unserved h c k) (delete h (peers k)))%nat as Hr.
  { apply map_sum_mono. intros h' c' [Hne _]%lookup_delete_Some. unfold unserved, Net.upward, k', Net.at_.
    simpl. by rewrite at_insert, decide_False. }
  assert (unserved h c k' + length bs ≤ unserved h c k)%nat; [|lia].
  unfold unserved, Net.upward, k', Net.at_ in *. simpl. rewrite at_insert, decide_True by done.
  rewrite Em, !length_drop, !length_app. lia.
Qed.

Lemma undone_gave k h bs :
  (undone (Net.set_gave (<[h := Net.at_ (s_gave k) h ++ bs]> (s_gave k)) k) ≤ undone k)%nat.
Proof.
  unfold undone. simpl. apply Nat.add_le_mono_r, Nat.add_le_mono_l, map_sum_mono. intros h' c _.
  unfold unserved, Net.upward, Net.at_. simpl. rewrite at_insert. case_decide; [|done].
  subst h'. rewrite length_app. lia.
Qed.

(** A reply is less to send back, if it is of what has been sent. *)
Lemma undone_gave_lt k h c bs :
  peers k !! h = Some c → bs ≠ [] →
  (length (Net.at_ (s_gave k) h) < length (Net.at_ (c_sent k) c))%nat →
  (undone (Net.set_gave (<[h := Net.at_ (s_gave k) h ++ bs]> (s_gave k)) k) < undone k)%nat.
Proof.
  intros Hp Hb Hlt. unfold undone. simpl. rewrite !(map_sum_delete _ _ h c Hp).
  set (k' := Net.set_gave _ k).
  assert (map_sum (λ h c, unserved h c k') (delete h (peers k)) ≤ map_sum (λ h c, unserved h c k) (delete h (peers k)))%nat as Hr.
  { apply map_sum_mono. intros h' c' [Hne _]%lookup_delete_Some. unfold unserved, Net.upward, k', Net.at_.
    simpl. by rewrite at_insert, decide_False. }
  assert (unserved h c k' < unserved h c k)%nat; [|lia].
  unfold unserved, Net.upward, k', Net.at_ in *. simpl. rewrite at_insert, decide_True by done.
  rewrite length_app. destruct bs; [done|]. simpl. lia.
Qed.

(** Whoever is accepted is no longer waiting. *)
Lemma undone_flags f k : undone (Net.set_flags f k) = undone k.
Proof. done. Qed.

Lemma undone_accepted k c w :
  sound k → backlog k = c :: w → (2 + undone (accepted (next_fd k) c w k) ≤ undone k)%nat.
Proof.
  intros Hs Eb. set (r := next_fd k). unfold undone at 2. rewrite Eb. cbn [fmap list_fmap sum_list].
  unfold undone. simpl. rewrite map_sum_insert by apply lookup_delete_eq.
  set (k' := accepted r c w k).
  assert (map_sum (λ h c, unserved h c k') (delete r (peers k)) ≤ map_sum (λ h c, unserved h c k) (peers k))%nat as Hr.
  { etrans; [|apply (map_sum_delete_le _ _ r)]. apply map_sum_mono.
    intros h' c' [Hne _]%lookup_delete_Some. unfold unserved, Net.upward, k', Net.at_. simpl.
    by rewrite !at_delete, !decide_False. }
  assert (unserved r c k' = 2 * length (Net.at_ (c_sent k) c))%nat as ->; [|unfold fmap in *; simpl; lia].
  unfold unserved, Net.upward, k', Net.at_. simpl. rewrite !at_delete, !decide_True by done. simpl. rewrite drop_0. lia.
Qed.

Lemma turns_accepted k c w : backlog k = c :: w → turns k (accepted (next_fd k) c w k).
Proof.
  intros Eb Hs. pose proof (undone_accepted k c w Hs Eb) as Hu.
  assert (routes k !! c = None) as Hc.
  { apply (nt_waiting _ Hs). rewrite Eb. by apply elem_of_cons; left. }
  constructor; try done.
  - by apply sound_accepted.
  - lia.
  - unfold todo. simpl. pose proof (size_union_alt {[next_fd k]} (server_fds k)) as Hz. rewrite size_singleton in Hz.
    pose proof (subseteq_size _ _ (subset_less (server_fds k) {[next_fd k]})). lia.
  - rewrite Eb. simpl. lia.
  - intros c' h Hr. simpl. rewrite lookup_insert_ne; [done|congruence].
  - intros c'. unfold Net.joined. simpl. rewrite Eb, elem_of_cons. destruct (decide (c' = c)) as [->|Hne].
    + rewrite lookup_insert_eq. split; [by left; left|]. intros _. right. by eexists.
    + rewrite lookup_insert_ne by done.
      split; [intros [?|?]; [by left; right|by right]|intros [[?|?]|?]; [done|by left|by right]].
Qed.

#[export] Instance turns_close : CoversClose turns.
Proof.
  constructor. intros s k. apply turns_linked; try done; simpl; [|apply subset_less].
  apply sound_close, subset_less.
Qed.

#[export] Instance turns_select : CoversSelect turns.
Proof.
  constructor. intros n sets tv k. simpl. unfold Net.select.
  destruct (Net.hiccup_of k) as [[| |]|]; apply turns_pop.
Qed.

#[export] Instance turns_accept : CoversAccept turns.
Proof.
  constructor; intros; simpl; [|done|].
  - transitivity (Net.pop k); [apply turns_pop|]. unfold Net.accept. intros Hs.
    destruct (Net.hiccup_of k) as [[| |]|], (backlog (Net.pop k)) as [|c w] eqn:E; try by apply turns_errno.
    all: rewrite (sound_fresh _ Hs).
    all: destruct (_ <=? _); [by apply turns_errno|by apply turns_accepted].
  - unfold Net.setfl. destruct (Z.ltb_spec flags 0); [apply turns_errno|].
    apply turns_linked; try done. by apply sound_flags.
Qed.

#[export] Instance turns_io : CoversIO turns.
Proof.
  constructor; intros; simpl; (transitivity (Net.pop k); [apply turns_pop|]); intros Hs.
  - unfold Net.recv.
    destruct (Net.hiccup_of k) as [[| |]|], (peers (Net.pop k) !! s) as [c|] eqn:Ep; try by apply turns_errno.
    all: case_decide; [destruct (Net.gone _ _); [by apply turns_preorder|by apply turns_errno]|].
    all: set (bs := take _ _); pose proof (undone_got _ s c _ bs Hs Ep eq_refl).
    all: cbn [snd]; apply turns_linked; try done; [|lia]; intros _; eapply sound_got; [done|exact Ep|by eapply upward_take].
  - unfold Net.send. destruct (Net.hiccup_of k) as [[| |]|]; try by apply turns_errno.
    all: apply turns_linked; try done; [apply sound_gave|apply undone_gave].
Qed.
End turning.

(** ** Receiving *)

Section server.
Context `{params : !ServerParams, !Clock, !MapOrder Z, !Build} (t : target) (sig : nat).
Implicit Types k : net.
Abbreviation handle slot := (conn_handle (conn slot)).

(** The stream only ends when the client has closed. *)
Lemma recv_end s n k :
  0 < n → (Net.recv s n k).1.1 = 0 → ∃ c, peers k !! s = Some c ∧ Net.gone c k = true.
Proof.
  intros Hn. unfold Net.recv.
  destruct (Net.hiccup_of k) as [[|m|]|], (peers (Net.pop k) !! s) as [c|] eqn:Ep; try done.
  all: case_decide as Hup; [destruct (Net.gone c (Net.pop k)) eqn:Eg; [|done]; intros _; by exists c|].
  all: simpl; rewrite length_take; destruct (Net.upward _ _ _); [done|simpl; lia].
Qed.

Definition ended (h : Z) (k : net) : Prop := ∃ c, peers k !! h = Some c ∧ Net.gone c k = true.

Lemma ended_mono h k k' : aside k k' → unlinked k k' → ended h k → ended h k'.
Proof. intros Ha [] (c & Hp & Hg). exists c. rewrite (gone_aside _ _ _ Ha). split; congruence. Qed.

Lemma recv_retry_end fuel s n k r bs k' :
  0 < n → recv_retry fuel s n k = Done (r, bs) k' → r = 0 → ended s k'.
Proof.
  intros Hn. revert k. induction fuel as [|fuel IH]; intros k; [done|]. cbn [recv_retry].
  unfold mbind, prog_bind, call_os, read_os.
  pose proof (recv_end s n k Hn) as He. 
  pose proof (covers_recv (R := aside) s n k) as Ha. pose proof (covers_recv (R := unlinked) s n k) as Hu.
  simpl in *. destruct (Net.recv s n k) as [[r1 b1] k1]. simpl in *.
  destruct (_ && _); [apply IH|]. intros [= -> -> ->] ->. eapply ended_mono; [done..|by apply He].
Qed.

Lemma receive_end c sc k e c' sc' k' :
  receive_nonblocking t sig c sc k = Done (Unexpected e, c', sc') k' → recv_code e = RecvErrorCode.Closed →
  ended (conn_handle c) k'.
Proof.
  unfold receive_nonblocking. case_decide as Hsc; [by intros [= <- _ _ _]|].
  destruct (negb _); [by intros [= <- _ _ _]|].
  intros ([r bs] & k1 & E1 & E)%prog_bind_Done_inv. cbn [fst snd] in E.
  destruct (Z.ltb_spec r 0).
  { unfold mbind, prog_bind, read_os in E. destruct (_ || _); by injection E as <- _ _ _. }
  destruct (Z.eqb_spec r 0) as [->|]; [|by apply prog_bind_Done_inv in E as (? & ? & _ & ?)].
  injection E as _ _ _ <-. intros _.
  eapply recv_retry_end; [|exact E1|done]. destruct sc; [done|simpl; lia].
Qed.

(** The descriptors of the server are as they were. *)
Definition same_fds (k k' : net) : Prop := server_fds k' = server_fds k.
#[local] Instance same_fds_preorder : PreOrder same_fds.
Proof. unfold same_fds. split; [done|]. intros x y z. congruence. Qed.
#[local] Instance same_fds_io : CoversIO same_fds.
Proof.
  constructor.
  - intros s n k. exact (proj1 (proj2 (proj2 (recv_law s n k)))).
  - intros s data flags k. exact (proj1 (proj2 (send_law s data flags k))).
Qed.

(** A connection is closed when its client has closed, and then only. *)
Lemma read_connection_end fuel i s k s' o k' slot :
  process_connection_read t sig fuel i s k = Done (s', o) k' → slots s !! i = Some slot →
  match o with ReadOk => same_fds k k' | PeerClosed => ended (handle slot) k' end.
Proof.
  revert s k slot. induction fuel as [|fuel IH]; intros s k slot; [done|].
  cbn [process_connection_read]. intros E Hi. rewrite Hi in E.
  apply prog_bind_Done_inv in E as ([[res c] sc] & k1 & E1 & E).
  pose proof (receive_socket t sig _ _ _ _ _ E1) as Hc. simpl in Hc.
  pose proof (Always_receive same_fds t sig _ _ _ _ _ E1) as Hf1.
  destruct res as [n|e].
  - apply prog_bind_Done_inv in E as ([[slot2 p2] c2] & k2 & E2 & E).
    pose proof (decode_loop_socket _ _ _ _ _ _ _ _ _ E2) as Hs2. simpl in Hs2.
    pose proof (Always_decode_loop same_fds _ _ _ _ _ _ _ _ _ E2) as Hf2.
    apply IH with (slot := slot2) in E.
    + destruct o; [by transitivity k1; [|transitivity k2]|]. unfold conn_handle in *. by rewrite Hs2, Hc in E.
    + simpl. rewrite list_insert_insert_eq. apply list_lookup_insert_eq. by eapply lookup_lt_Some.
  - destruct (recv_code e) eqn:Ec; try done.
    + by injection E as _ <- <-.
    + apply prog_bind_Done_inv in E as (s2 & k2 & E2 & E). injection E as _ <- <-.
      eapply ended_mono; [| |by eapply receive_end].
      * by eapply (Always_remove_slot aside).
      * by eapply (Always_remove_slot unlinked).
Qed.
(** ** Accepting *)

(** A connection whose client is there is open; and what the server has open,
    besides its listener, is connections. *)
Record attached (L : Z) (k : net) : Prop := {
  at_open h c : peers k !! h = Some c → Net.gone c k = false → h ∈ server_fds k;
  at_linked h : h ∈ server_fds k → h = L ∨ is_Some (peers k !! h);
}.

Lemma attached_same L k k' :
  peers k' = peers k → server_fds k' = server_fds k → aside k k' → attached L k → attached L k'.
Proof.
  intros Ep Es Ha []. constructor; [intros h c|intros h]; rewrite ?Ep, ?Es, ?(gone_aside _ _ _ Ha); auto.
  by apply at_open0.
Qed.

(** What accept(2) comes back with. *)
Lemma accept_cases k r k1 :
  sound k → Net.accept k = (r, k1) →
  (∃ e, r = -1 ∧ k1 = Net.set_errno e (Net.pop k) ∧ (hiccups k = [] → backlog k = [])) ∨
  ∃ c w, backlog k = c :: w ∧ r = next_fd k ∧ k1 = accepted r c w (Net.pop k).
Proof.
  intros Hs%sound_pop. unfold Net.accept. rewrite (sound_fresh _ Hs). pose proof (nt_room _ Hs) as [_ Hr].
  change (next_fd (Net.pop k)) with (next_fd k) in *. change (backlog (Net.pop k)) with (backlog k) in *.
  assert (∀ (o : option hiccup), Net.hiccup_of k = o → o ≠ None → hiccups k ≠ []) as Hhic
    by (intros o E Ho E'; unfold Net.hiccup_of in E; rewrite E' in E; by subst o).
  destruct (Net.hiccup_of k) as [[| |]|] eqn:Eh; specialize (Hhic _ eq_refl); destruct (backlog k) as [|c w] eqn:Eb.
  all: try (rewrite (proj2 (Z.leb_gt _ _)) by (simpl in Hr; lia); intros E; right; exists c, w; split; [done|];
    assert (r = next_fd k) as -> by exact (eq_sym (f_equal fst E)); (split; [done|]);
    exact (eq_sym (f_equal snd E))).
  all: intros [= <- <-]; left; eexists; split; [done|]; split; [done|]; done || (intros E; by destruct Hhic).
Qed.

Lemma accepted_flags r c w k : server_flags (accepted r c w k) !! r = Some 2.
Proof. apply lookup_insert_eq. Qed.

(** On the network a connection that was accepted is registered. *)
Lemma accept_and_register_eq a (p : SelectPoller) k r k1 :
  0 ≤ listener_handle a → Net.accept k = (r, k1) →
  (r < 0 ∨ server_flags k1 !! r = Some 2) →
  ∃ res p', accept_and_register a p k = Done (res, p') (if r <? 0 then k1
      else Net.set_flags (<[r := Z.lor 2 O_NONBLOCK]> (server_flags k1)) k1) ∧
    if r <? 0 then ∃ e, res = Unexpected e else ∃ c, res = Val c.
Proof.
  intros Hl E Hf. unfold accept_and_register, accept_one.
  assert (valid (listener_sock (listener_ a)) = true) as ->.
  { apply bool_decide_eq_true_2. unfold listener_handle, native_handle, k_invalid_socket in *. lia. }
  cbn [negb]. unfold mbind, prog_bind, call_os, read_os.
  change (sys_accept (native_handle (listener_sock (listener_ a))) k) with (Net.accept k).
  rewrite E. cbn [fst snd]. destruct (Z.ltb_spec r 0) as [Hr|Hr]; [eexists _, _; split; [reflexivity|by eexists]|].
  destruct Hf as [?|Hf]; [lia|]. simpl. unfold set_nonblocking, mbind, prog_bind, call_os.
  assert (valid (mkSocket r) = true) as -> by (apply bool_decide_eq_true_2; simpl; unfold k_invalid_socket; lia).
  simpl. rewrite Hf. simpl.
  unfold conn_handle, native_handle, select_upsert. simpl. rewrite decide_False by (unfold k_invalid_socket; lia).
  eexists _, _. split; [reflexivity|by eexists].
Qed.

Lemma accept_and_register_net a (p : SelectPoller) k res p' k' :
  sound k → 0 ≤ listener_handle a → accept_and_register a p k = Done (res, p') k' →
  match res with
  | Val _ => ∃ c, server_fds k' = {[next_fd k]} ∪ server_fds k ∧
      peers k' = <[next_fd k := c]> (peers k) ∧ (2 + undone k' ≤ undone k)%nat
  | Unexpected _ => server_fds k' = server_fds k ∧ peers k' = peers k ∧ (hiccups k = [] → backlog k = [])
  end.
Proof.
  intros Hs Hl Hrun. pose proof (nt_room _ Hs) as [H3 _].
  destruct (Net.accept k) as [r k1] eqn:Ea.
  destruct (accept_cases _ _ _ Hs Ea) as [(e & -> & -> & Hb)|(c & w & Eb & -> & ->)].
  - destruct (accept_and_register_eq a p k _ _ Hl Ea (or_introl eq_refl)) as (res' & p2 & E & e' & ->).
    rewrite E in Hrun. by injection Hrun as <- _ <-.
  - destruct (accept_and_register_eq a p k _ _ Hl Ea (or_intror (accepted_flags _ _ _ _))) as (res' & p2 & E & Hres).
    rewrite (proj2 (Z.ltb_ge _ _)) in E, Hres by lia. destruct Hres as [conn ->].
    rewrite E in Hrun. injection Hrun as <- _ <-. exists c. split; [done|]. split.
    + change (<[next_fd k := c]> (delete (next_fd k) (peers k)) = <[next_fd k := c]> (peers k)).
      rewrite delete_id; [done|]. destruct (peers k !! next_fd k) as [x|] eqn:Ex; [|done].
      destruct (nt_old _ Hs _ _ Ex). lia.
    + rewrite undone_flags. pose proof (undone_accepted _ _ _ (sound_pop _ Hs) Eb) as Hu.
      pose proof (pop_undone k) as [? _]. etrans; [exact Hu|done].
Qed.

Lemma attached_accepted L k c k' :
  server_fds k' = {[next_fd k]} ∪ server_fds k → peers k' = <[next_fd k := c]> (peers k) → aside k k' →
  attached L k → attached L k'.
Proof.
  intros Es Ep Ha [Hop Hli]. constructor.
  - intros h c'. rewrite Es, Ep, (gone_aside _ _ _ Ha), elem_of_union, elem_of_singleton.
    intros [[<- _]|[_ Hp]]%lookup_insert_Some Hg; [by left|]. right. by eapply Hop.
  - intros h. rewrite Es, Ep, elem_of_union, elem_of_singleton.
    destruct (decide (h = next_fd k)) as [->|Hne]; [rewrite lookup_insert_eq; by right|].
    rewrite lookup_insert_ne by done. intros [?|?]; [done|auto].
Qed.

(** What was less stays less. *)
Lemma then_turns {A B} (p : prog net A) (f : A → prog net B) k b k' :
  sound k → Always turns p → (∀ a, Always turns (f a)) → (p ≫= f) k = Done b k' →
  ∃ a k1, p k = Done a k1 ∧ f a k1 = Done b k' ∧ turning k k1 ∧ turning k1 k'.
Proof.
  intros Hs Hp Hf (a & k1 & E1 & E2)%prog_bind_Done_inv. exists a, k1.
  pose proof (Hp _ _ _ E1 Hs) as H1. pose proof (Hf _ _ _ _ E2 (tn_sound _ _ H1)). done.
Qed.

Lemma accept_loop_net fuel a s k s' k' :
  sound k → 0 ≤ listener_handle a → accept_loop fuel a s k = Done s' k' →
  (∀ L, attached L k → attached L k') ∧ (hiccups k = [] → backlog k ≠ [] → (todo k' < todo k)%nat).
Proof.
  intros Hs Hl. revert s k Hs. induction fuel as [|fuel IH]; intros s k Hs; [done|]. cbn [accept_loop].
  intros E. apply prog_bind_Done_inv in E as ([res p] & k1 & E1 & E).
  pose proof (Always_accept_and_register aside _ _ _ _ _ E1) as Ha.
  pose proof (Always_accept_and_register turns _ _ _ _ _ E1 Hs) as Ht.
  apply accept_and_register_net in E1; [|done..]. destruct res as [c|e].
  - destruct E1 as (cl & Ef & Ep & Hu).
    pose proof (Always_accept_loop turns _ _ _ _ _ _ E (tn_sound _ _ Ht)) as Ht2.
    apply IH in E as [Hat _]; [|apply Ht]. split; [by intros L HL; eapply Hat, attached_accepted|].
    intros _ _. pose proof (tn_todo _ _ Ht2) as Htodo. unfold todo in *. rewrite Ef in Htodo.
    pose proof (size_union_alt {[next_fd k]} (server_fds k)) as Hz. rewrite size_singleton in Hz.
    pose proof (subseteq_size _ _ (subset_less (server_fds k) {[next_fd k]})). lia.
  - destruct E1 as (Ef & Ep & Hb). destruct (accept_would_block _); [|done]. injection E as _ <-.
    split; [intros L; by apply attached_same|]. intros Hh Hn. by destruct (Hn (Hb Hh)).
Qed.

(** ** First steps

    With no hiccup ahead, a readable connection is read from, and a buffer that is
    not empty is sent from. *)

Lemma receive_net c sc k res c' sc' k' cl :
  sound k → hiccups k = [] → (0 < sig)%nat → sc ≠ [] → 0 ≤ conn_handle c →
  peers k !! conn_handle c = Some cl → Net.upward (conn_handle c) cl k ≠ [] ∨ Net.gone cl k = true →
  receive_nonblocking t sig c sc k = Done (res, c', sc') k' →
  match res with
  | Val _ => (undone k' < undone k)%nat
  | Unexpected e => recv_code e = RecvErrorCode.Closed
  end.
Proof.
  intros Hs Hh Hsig Hsc Hc Hp Hready. unfold receive_nonblocking. rewrite decide_False by done.
  rewrite valid_handle by done. cbn [negb]. destruct sig as [|sig']; [lia|].
  intros ([r bs] & k1 & E1 & E)%prog_bind_Done_inv. cbn [recv_retry fst snd] in E1, E.
  unfold mbind, prog_bind, call_os, read_os in E1. simpl in E1. unfold Net.recv, Net.hiccup_of in E1.
  rewrite Hh in E1. cbn [head] in E1. change (peers (Net.pop k)) with (peers k) in E1. rewrite Hp in E1.
  change (Net.upward (conn_handle c) cl (Net.pop k)) with (Net.upward (conn_handle c) cl k) in E1.
  change (Net.gone cl (Net.pop k)) with (Net.gone cl k) in E1.
  set (up := Net.upward _ _ _) in *. assert (0 < length sc)%nat as Hl by (destruct sc; [done|simpl; lia]).
  case_decide as Hup.
  - destruct (Net.gone cl k); [|by destruct Hready]. cbn in E1. injection E1 as <- <- <-. cbn in E.
    by injection E as <- _ _ _.
  - cbn [fst snd] in E1. rewrite (proj2 (Z.ltb_ge _ _)) in E1 by lia. cbn in E1. injection E1 as <- <- <-.
    assert (0 < len (take (Z.to_nat (len sc)) up)) as Hpos.
    { rewrite length_take. destruct up; [done|]. simpl. lia. }
    rewrite (proj2 (Z.ltb_ge _ _)), (proj2 (Z.eqb_neq _ _)) in E by lia.
    rewrite append_read_eq in E. case_match; [done|]. injection E as <- _ _ <-.
    pose proof (undone_got (Net.pop k) (conn_handle c) cl (Z.to_nat (len sc)) _ (sound_pop _ Hs) Hp eq_refl) as Hu.
    pose proof (pop_undone k) as [Hpop _].
    change (Net.upward (conn_handle c) cl (Net.pop k)) with up in Hu.
    eapply Nat.lt_le_trans; [|exact Hpop]. eapply Nat.lt_le_trans; [|exact Hu].
    apply Nat.lt_add_pos_r. lia.
Qed.

Lemma flush_net c k r k' cl :
  hiccups k = [] → (0 < sig)%nat → 0 ≤ conn_handle c → vdata (write_buf_ c) ≠ [] →
  peers k !! conn_handle c = Some cl →
  (length (Net.at_ (s_gave k) (conn_handle c)) < length (Net.at_ (c_sent k) cl))%nat →
  flush_write_nonblocking sig c k = Done r k' → (undone k' < undone k)%nat.
Proof.
  intros Hh Hsig Hc Hw Hp Hlt. unfold flush_write_nonblocking.
  assert (Vec.is_empty (write_buf_ c) = false) as -> by (unfold Vec.is_empty; by case_bool_decide).
  rewrite valid_handle by done. cbn [negb]. destruct sig as [|sig']; [lia|].
  intros (n & k1 & E1 & E)%prog_bind_Done_inv. cbn [send_retry] in E1.
  unfold mbind, prog_bind, call_os, read_os in E1. simpl in E1. unfold Net.send, Net.hiccup_of in E1.
  rewrite Hh in E1. cbn [head fst snd] in E1. rewrite (proj2 (Z.ltb_ge _ _)) in E1 by lia. cbn in E1.
  injection E1 as <- <-. unfold Net.cut in *. rewrite Nat2Z.id, firstn_all in *.
  assert (0 < len (vdata (write_buf_ c))) by (destruct (vdata (write_buf_ c)); [done|simpl; lia]).
  rewrite (proj2 (Z.ltb_ge _ _)), (proj2 (Z.eqb_neq _ _)) in E by lia.
  apply prog_bind_Done_inv in E as (c' & k2 & E2 & E). injection E as _ <-.
  pose proof (Always_pure (K := net) eq _ _ _ _ E2) as <-.
  pose proof (undone_gave_lt (Net.pop k) (conn_handle c) cl _ Hp Hw Hlt).
  pose proof (pop_undone k) as [? _]. simpl in *. lia.
Qed.

Abbreviation wbuf slot := (vdata (write_buf_ (conn slot))).

(** There are bytes to send back on [slot], and its client has sent them. *)
Definition owes (k : net) (slot : ConnSlot) (cl : Z) : Prop :=
  wbuf slot ≠ [] ∧ (length (Net.at_ (s_gave k) (handle slot)) < length (Net.at_ (c_sent k) cl))%nat.

Lemma try_flush_net fuel slot p n k r k' cl :
  sound k → hiccups k = [] → (0 < sig)%nat → 0 ≤ handle slot → peers k !! handle slot = Some cl →
  owes k slot cl → try_flush_writes sig fuel slot p n k = Done r k' → (undone k' < undone k)%nat.
Proof.
  intros Hs Hh Hsig Hc Hp [Hw Hlt]. unfold try_flush_writes. intros E.
  apply then_turns in E as (b & k1 & E1 & _ & _ & H2); [|done| |].
  2: { apply (Always_flush_loop turns). }
  2: { intros [b c]. cbn beta iota. footprint_steps. }
  destruct fuel as [|fuel]; [done|]. cbn [flush_loop] in E1.
  apply then_turns in E1 as (f & k2 & E1 & _ & _ & H3); [|done| |].
  2: { apply (Always_flush turns). }
  2: { intros f. pose proof (Always_flush_loop turns sig fuel). footprint_steps. }
  eapply flush_net in E1; [|done..]. destruct H2, H3. lia.
Qed.

(** What the poller may report that makes the server act. *)
Definition reads (ev : Event) : bool := negb (mask_and (ev_mask ev) EventMask.Read =? EventMask.None).
Definition writes (ev : Event) : bool := negb (mask_and (ev_mask ev) EventMask.Write =? EventMask.None).

Definition eventful_conn (ev : Event) (slot : ConnSlot) (k : net) : Prop :=
  ∃ cl, peers k !! handle slot = Some cl ∧
    if reads ev then Net.upward (handle slot) cl k ≠ [] ∨ Net.gone cl k = true
    else writes ev = true ∧ owes k slot cl.

(** On the listener, or on a slot. *)
Definition eventful (L : Z) (ev : Event) (s : server) (k : net) : Prop :=
  if ev_socket ev =? L then reads ev = true ∧ backlog k ≠ []
  else ∃ slot, slot ∈ slots s ∧ handle slot = ev_socket ev ∧ eventful_conn ev slot k.

Lemma read_connection_net fuel i s k s' k' slot cl :
  sound k → hiccups k = [] → (0 < sig)%nat → scratch s ≠ [] → slots s !! i = Some slot → 0 ≤ handle slot →
  peers k !! handle slot = Some cl → Net.upward (handle slot) cl k ≠ [] ∨ Net.gone cl k = true →
  process_connection_read t sig fuel i s k = Done (s', ReadOk) k' → (undone k' < undone k)%nat.
Proof.
  intros Hs Hh Hsig Hsc Hi Hc Hp Hr. destruct fuel as [|fuel]; [done|]. cbn [process_connection_read].
  rewrite Hi. intros E. apply prog_bind_Done_inv in E as ([[res c] sc] & k1 & E1 & E).
  pose proof (Always_receive turns t sig _ _ _ _ _ E1 Hs) as Ht.
  eapply receive_net in E1; [|done..]. destruct res as [n|e].
  - apply then_turns in E as (d & k2 & _ & _ & H2 & H3); [destruct H2, H3; lia|apply Ht| |].
    + apply (Always_decode_loop turns).
    + intros [[slot2 p2] c2]. apply (Always_read_connection turns).
  - rewrite E1 in E. by apply prog_bind_Done_inv in E as (? & ? & _ & ?).
Qed.

(** ** One event *)

Hypothesis codec_fits : fits t k_max_payload.
Abbreviation server_ok := (server_ok (Some EventMask.Read)).
Abbreviation ready := (ready sig True).

Lemma find_slot_of O L s k slot :
  server_ok O L s k → slot ∈ slots s →
  ∃ i, find_slot_index (slots s) (handle slot) = Some i ∧ slots s !! i = Some slot ∧ 0 ≤ handle slot.
Proof.
  intros Hok [j Hj]%list_elem_of_lookup. pose proof (find_from_spec 0 (slots s) (handle slot)) as Hf.
  destruct (slot_facts _ _ _ _ _ _ _ Hok Hj) as ([Hh _ _ _] & _).
  unfold find_slot_index. destruct (find_from 0 (slots s) (handle slot)) as [i|].
  - destruct Hf as (n & slot' & -> & Hn & E). exists n. split; [done|]. split; [|done].
    pose proof (sv_distinct _ _ _ _ _ Hok) as Hd. rewrite NoDup_alt in Hd.
    assert (n = j) as ->; [|done]. apply (Hd n j (handle slot)); unfold handles; rewrite list_lookup_fmap.
    + by rewrite Hn, <- E.
    + by rewrite Hj.
  - rewrite Forall_forall in Hf. by destruct (Hf slot ltac:(by eapply list_elem_of_lookup_2)).
Qed.

Lemma handle_write_net O L fuel ev s k s' k' slot cl :
  server_ok O L s k → ready k → hiccups k = [] → writes ev = true → slot ∈ slots s →
  handle slot = ev_socket ev → peers k !! handle slot = Some cl → owes k slot cl →
  handle_write sig fuel ev s k = Done s' k' → (undone k' < undone k)%nat.
Proof.
  intros Hok [Hsig Hs] Hh Hw Hin Eh Hp Ho. specialize (Hs I). unfold handle_write, writes in *.
  rewrite bool_decide_false by (intros E; by rewrite E in Hw).
  destruct (find_slot_of _ _ _ _ _ Hok Hin) as (i & Ei & Hi & Hc). rewrite <- Eh, Ei, Hi.
  intros E. apply then_turns in E as ([[slot' p'] c'] & k1 & E1 & E & _); [|done| |].
  2: { apply (Always_try_flush turns). }
  2: { intros [[slot2 p2] c2]. footprint_steps. }
  injection E as _ <-. eapply try_flush_net; [exact Hs|exact Hh| |exact Hc|exact Hp|exact Ho|exact E1]. lia.
Qed.

(** What has become of a connection that was read from. *)
Lemma read_attached O L fuel i s k slot s' o k' :
  server_ok O L s k → slots s !! i = Some slot → ready k → (slot_work slot + 3 * traffic k < fuel)%nat →
  Z.of_nat (volume s k) ≤ max_size t → attached L k →
  process_connection_read t sig fuel i s k = Done (s', o) k' →
  attached L k' ∧ (o = PeerClosed → (todo k' < todo k)%nat).
Proof.
  intros Hok Hi Hrd Hf Hv Hat E. pose proof (Always_read_connection aside _ _ _ _ _ _ _ _ E) as Ha.
  pose proof (Always_read_connection unlinked _ _ _ _ _ _ _ _ E) as [Ep _ _].
  pose proof (Always_read_connection turns _ _ _ _ _ _ _ _ E (proj2 Hrd I)) as Ht.
  pose proof (read_connection_end _ _ _ _ _ _ _ _ E Hi) as He.
  pose proof (process_connection_read_spec t sig codec_fits True _ O L fuel i s k slot Hok Hi Hrd Hf Hv) as Hwp.
  destruct (wp_Done _ _ _ _ _ _ Hwp E) as (_ & _ & Hr). cbn [fst snd] in Hr. destruct o; [|destruct Hr as [Hr _]].
  - split; [by apply (attached_same L k)|done].
  - destruct He as (cl & Hp & Hg). change (server_fds k' = server_fds k ∖ {[handle slot]}) in Hr. split.
    + destruct Hat as [Hop Hli]. constructor.
      * intros h c Hp' Hg'. rewrite Hr, elem_of_difference, elem_of_singleton. split; [|intros ->; congruence].
        rewrite Ep in Hp'. rewrite (gone_aside _ _ _ Ha) in Hg'. by eapply Hop.
      * intros h. rewrite Hr, Ep, elem_of_difference. intros [Hh _]. by apply Hli.
    + intros _. destruct Ht as [_ _ _ Hu _ _ _ _]. unfold todo. rewrite Hr.
      destruct (slot_facts _ O L s k i slot Hok Hi) as ([_ Ho _ _] & _).
      change (handle slot ∈ server_fds k) in Ho.
      pose proof (size_union_alt {[handle slot]} (server_fds k)) as Hz. rewrite size_singleton in Hz.
      assert ({[handle slot]} ∪ server_fds k = server_fds k) as Eu
        by (apply set_eq; intros x; rewrite elem_of_union, elem_of_singleton; split; [by intros [->|?]|auto]).
      rewrite Eu in Hz. lia.
Qed.

(** [bool_decide] of the code's conditions. *)
Lemma reads_true ev : reads ev = true → bool_decide (mask_and (ev_mask ev) EventMask.Read = EventMask.None) = false.
Proof. unfold reads. intros Hr. apply bool_decide_false. intros E. by rewrite E in Hr. Qed.

Lemma reads_false ev : reads ev = false → bool_decide (mask_and (ev_mask ev) EventMask.Read = EventMask.None) = true.
Proof. unfold reads. intros Hr. apply bool_decide_true. apply Z.eqb_eq. by destruct (_ =? _). Qed.

Lemma handle_write_attached L fuel ev s k s' k' :
  handle_write sig fuel ev s k = Done s' k' → attached L k → attached L k'.
Proof.
  intros E. apply attached_same.
  - by eapply (Always_handle_write unlinked).
  - by eapply (Always_handle_write same_fds).
  - by eapply (Always_handle_write aside).
Qed.

Lemma handle_event_net O L fuel a ev s k s' k' :
  server_ok O L s k → listener_handle a = L → ready k → (work s k < fuel)%nat →
  Z.of_nat (volume s k) ≤ max_size t → attached L k →
  handle_event t sig fuel a ev s k = Done s' k' →
  attached L k' ∧ (hiccups k = [] → eventful L ev s k → (todo k' < todo k)%nat).
Proof.
  intros Hok Hl Hrd Hf Hv Hat. pose proof (proj2 Hrd I) as Hs. unfold handle_event, eventful. rewrite Hl.
  destruct (Z.eqb_spec (ev_socket ev) L) as [Ev|Ev].
  { destruct (reads ev) eqn:Er.
    - rewrite reads_true by done. intros E. apply accept_loop_net in E as [Ha Hb]; [|done|].
      + split; [auto|]. intros ? [_ ?]. auto.
      + rewrite Hl. apply Hok.
    - rewrite reads_false by done. intros [= <- <-]. by split; [|intros _ []]. }
  destruct (find_slot_index (slots s) (ev_socket ev)) as [i|] eqn:Ei.
  2: { intros [= <- <-]. split; [done|]. intros _ (slot & Hin & Eh & _).
       destruct (find_slot_of _ _ _ _ _ Hok Hin) as (i & Hi & _). congruence. }
  destruct (find_slot_index_Some _ _ _ Ei) as (slot & Hi & Eh).
  assert (∀ slot', slot' ∈ slots s → handle slot' = ev_socket ev → slot' = slot) as Huniq.
  { intros slot' Hin Eh'. destruct (find_slot_of _ _ _ _ _ Hok Hin) as (i' & Hi' & Hi2 & _). congruence. }
  destruct (reads ev) eqn:Er.
  2: { rewrite reads_false by done. intros E. split; [by eapply handle_write_attached|].
       intros Hh (slot' & Hin & Eh' & cl & Hp & He). rewrite Er in He. destruct He as [Hw Ho].
       pose proof (handle_write_net _ _ _ _ _ _ _ _ _ _ Hok Hrd Hh Hw Hin Eh' Hp Ho E).
       pose proof (Always_handle_write same_fds _ _ _ _ _ _ _ E) as Ef. unfold todo. rewrite Ef. lia. }
  rewrite reads_true by done. intros E.
  apply prog_bind_Done_inv in E as ([s1 o] & k1 & E1 & E). cbn [fst snd] in E.
  assert (slot_work slot + 3 * traffic k < fuel)%nat as Hf1 by (pose proof (work_slot s k i slot Hi); lia).
  destruct (read_attached _ _ _ _ _ _ _ _ _ _ Hok Hi Hrd Hf1 Hv Hat E1) as [Hat1 Hless].
  pose proof (Always_read_connection turns _ _ _ _ _ _ _ _ E1 Hs) as Ht1.
  assert (turning k1 k' ∧ (attached L k1 → attached L k')) as [Ht2 Hat2].
  { destruct o; [|injection E as _ <-; split; [by apply (reflexivity (R := turns)), Ht1|done]].
    destruct (find_slot_index (slots s1) (ev_socket ev)).
    - split; [eapply (Always_handle_write turns); [exact E|apply Ht1]|by eapply handle_write_attached].
    - injection E as _ <-. split; [by apply (reflexivity (R := turns)), Ht1|done]. }
  split; [auto|]. intros Hh (slot' & Hin & Eh' & cl & Hp & He). rewrite Er in He.
  apply Huniq in Hin as ->; [|done]. pose proof (tn_todo _ _ Ht2). destruct o; [|specialize (Hless eq_refl); lia].
  destruct (slot_facts _ _ _ _ _ _ _ Hok Hi) as ([Hc _ _ _] & _).
  assert (undone k1 < undone k)%nat.
  { eapply read_connection_net; [exact Hs|exact Hh| |apply Hok|exact Hi|exact Hc|exact Hp|exact He|exact E1].
    destruct Hrd. lia. }
  assert (same_fds k k1) as Ef by exact (read_connection_end _ _ _ _ _ _ _ _ E1 Hi).
  assert (size (server_fds k1) = size (server_fds k)) as Hz by by f_equal.
  unfold todo in *. lia.
Qed.

Lemma handle_events_net O L fuel a evs s k s' k' :
  server_ok O L s k → listener_handle a = L → ready k → (work s k < fuel)%nat →
  Z.of_nat (volume s k) ≤ max_size t → attached L k →
  handle_events t sig fuel a evs s k = Done s' k' →
  attached L k' ∧
  (hiccups k = [] → match head evs with Some ev => eventful L ev s k | None => False end → (todo k' < todo k)%nat).
Proof.
  revert s k. induction evs as [|ev evs IH]; intros s k Hok Hl Hrd Hf Hv Hat; cbn [handle_events].
  { intros [= <- <-]. done. }
  intros E. apply prog_bind_Done_inv in E as (s1 & k1 & E1 & E).
  assert (listens True L a) as Hls by by split.
  pose proof (wp_Done _ _ _ _ _ _ (handle_event_run t sig True _ codec_fits O L fuel a ev s k Hok Hls Hrd Hf Hv) E1)
    as [Hok1 Hshr].
  pose proof (handle_event_net _ _ _ _ _ _ _ _ _ Hok Hl Hrd Hf Hv Hat E1) as [Hat1 Hless].
  pose proof (Always_handle_event turns _ _ _ _ _ _ _ _ _ E1 (proj2 Hrd I)) as Ht1.
  pose proof (Always_handle_events turns _ _ _ _ _ _ _ _ _ E (tn_sound _ _ Ht1)) as Ht2.
  pose proof (shrinks_ready _ _ _ _ _ _ Hshr Hrd) as Hrd1. destruct Hshr as [_ ? ?].
  apply (IH s1 k1) in E as [Hat2 _]; [|done|done|done|lia|lia|done].
  split; [done|]. intros Hh He. specialize (Hless Hh He). pose proof (tn_todo _ _ Ht2). lia.
Qed.

(** ** Waiting *)

Lemma fired_reads sets h : reads (mkEvent h (fired sets h)) = bool_decide (h ∈ readfds sets).
Proof. unfold reads, fired, bool_decide. simpl. by repeat case_decide. Qed.
Lemma fired_writes sets h : writes (mkEvent h (fired sets h)) = bool_decide (h ∈ writefds sets).
Proof. unfold writes, fired, bool_decide. simpl. by repeat case_decide. Qed.

(** Nothing is there for the server. *)
Definition idle (s : server) (k : net) : Prop :=
  backlog k = [] ∧
  ∀ slot, slot ∈ slots s → wbuf slot = [] ∧
    ∀ cl, peers k !! handle slot = Some cl → Net.upward (handle slot) cl k = [] ∧ Net.gone cl k = false.

Section waiting.
Context (O : gset Z) (L : Z) (s : server) (k : net) (sets : fd_sets).
Hypothesis Hok : server_ok O L s k.
Hypothesis Hs : sound k.
Hypothesis HL : listening k = {[L]}.
Hypothesis Hr : asks (poller s) EventMask.Read (readfds sets).
Hypothesis Hw : asks (poller s) EventMask.Write (writefds sets).
Definition answer : fd_sets := mkSets (filter (λ h, Net.readable k h = true) (readfds sets)) (writefds sets) ∅.

Lemma slot_not_listening slot : slot ∈ slots s → handle slot ∉ listening k.
Proof.
  intros Hin. rewrite HL, elem_of_singleton. intros E.
  destruct (sv_fresh _ _ _ _ _ Hok (handle slot)) as (_ & ? & _); [|done].
  apply list_elem_of_fmap. by exists slot.
Qed.

Lemma interest_slot slot : slot ∈ slots s → interest_ (poller s) !! handle slot = Some (interest_of slot).
Proof. intros Hin. pose proof (sv_registered _ _ _ _ _ Hok) as Hf. rewrite Forall_forall in Hf. by apply Hf. Qed.

(** What a slot has to send back, it owes. *)
Lemma slot_owes slot : slot ∈ slots s → wbuf slot ≠ [] →
  ∃ cl, peers k !! handle slot = Some cl ∧ owes k slot cl.
Proof.
  intros Hin Hb. pose proof (sv_slots _ _ _ _ _ Hok) as Hf. rewrite Forall_forall in Hf.
  destruct (Hf slot Hin) as [[_ _ (ps & E1 & E2 & _) _] _]. simpl in E1, E2.
  assert (0 < length (wbuf slot))%nat by (destruct (wbuf slot); [done|simpl; lia]).
  apply (f_equal length) in E2. rewrite length_app in E2.
  destruct (peers k !! handle slot) as [cl|] eqn:Ep.
  - exists cl. split; [done|]. split; [done|]. destruct (nt_up _ Hs _ _ Ep) as [more Em].
    rewrite Em, E1, !length_app. unfold Net.at_ in *. lia.
  - apply (nt_quiet _ Hs) in Ep. rewrite Ep in E1. apply (f_equal length) in E1. rewrite length_app in E1.
    simpl in E1. lia.
Qed.

Lemma reported_eventful ev :
  ev_mask ev = fired answer (ev_socket ev) → ev_mask ev ≠ EventMask.None → eventful L ev s k.
Proof.
  intros Em Hne. assert (ev = mkEvent (ev_socket ev) (fired answer (ev_socket ev))) as Ee
    by (destruct ev; simpl in *; congruence).
  assert (reads ev = bool_decide (ev_socket ev ∈ readfds answer)) as Er by (rewrite Ee at 1; apply fired_reads).
  assert (writes ev = bool_decide (ev_socket ev ∈ writefds answer)) as Ew by (rewrite Ee at 1; apply fired_writes).
  assert (ev_socket ev ∈ readfds answer ∨ ev_socket ev ∈ writefds answer) as Hset.
  { destruct (decide (ev_socket ev ∈ readfds answer)) as [|Hn1]; [by left|].
    destruct (decide (ev_socket ev ∈ writefds answer)) as [|Hn2]; [by right|]. exfalso. apply Hne.
    rewrite Em. unfold fired. rewrite !decide_False; [done|apply not_elem_of_empty|done|done]. }
  simpl in Er, Ew, Hset. rewrite elem_of_filter in Hset.
  unfold eventful. destruct (Z.eqb_spec (ev_socket ev) L) as [El|El].
  - rewrite El in *. destruct Hset as [[Hrd Hin]|Hin].
    + rewrite Er, bool_decide_true by (by apply elem_of_filter). split; [done|].
      unfold Net.readable in Hrd. rewrite decide_True in Hrd by (rewrite HL; by apply elem_of_singleton).
      by case_bool_decide.
    + apply Hw in Hin as (m & Hm & Hb). rewrite (sv_listening _ _ _ _ _ Hok) in Hm. by injection Hm as <-.
  - assert (is_Some (interest_ (poller s) !! ev_socket ev)) as Hi
      by (destruct Hset as [[_ (m & Hm & _)%Hr]|(m & Hm & _)%Hw]; by exists m).
    apply (sv_only _ _ _ _ _ Hok) in Hi as [?|Hin]; [done|].
    apply list_elem_of_fmap in Hin as (slot & Eh & Hin). exists slot. split; [done|]. split; [done|].
    unfold eventful_conn. rewrite Er. rewrite Eh in *.
    destruct (bool_decide (handle slot ∈ filter _ _)) eqn:Hb;
      [apply bool_decide_eq_true in Hb|apply bool_decide_eq_false in Hb].
    + apply elem_of_filter in Hb as [Hb _]. unfold Net.readable in Hb.
      rewrite decide_False in Hb by by apply slot_not_listening.
      destruct (peers k !! handle slot) as [cl|] eqn:Ep; [|done]. exists cl. split; [done|].
      apply orb_prop in Hb as [Hb|Hb]; [left|by right]. intros En. by rewrite bool_decide_true in Hb.
    + destruct Hset as [Hin'|Hin']; [by destruct Hb; apply elem_of_filter|].
      pose proof Hin' as (m & Hm & Hbit)%Hw. rewrite interest_slot in Hm by done. injection Hm as <-.
      destruct (slot_owes slot Hin) as (cl & Hp & Ho).
      { intros Hn. unfold interest_of, Vec.is_empty in Hbit. by rewrite Hn in Hbit. }
      exists cl. split; [done|]. split; [|done]. rewrite Ew. by apply bool_decide_true.
Qed.

(** With nothing to report, the server has nothing to do. *)
Lemma unreported_idle :
  (∀ h, is_Some (interest_ (poller s) !! h) → fired answer h = EventMask.None) → idle s k.
Proof.
  intros Hn.
  assert (∀ h, h ∈ readfds sets → Net.readable k h = false) as Hnr.
  { intros h Hin. apply not_true_is_false. intros Hrd. pose proof Hin as (m & Hm & _)%Hr.
    specialize (Hn h (ex_intro _ m Hm)). pose proof (fired_reads answer h) as Hf. rewrite Hn in Hf.
    rewrite bool_decide_true in Hf; [done|]. simpl. by apply elem_of_filter. }
  split.
  - assert (Net.readable k L = false) as Hl.
    { apply Hnr, Hr. exists EventMask.Read. split; [apply Hok|done]. }
    unfold Net.readable in Hl. rewrite decide_True in Hl by (rewrite HL; by apply elem_of_singleton).
    by case_bool_decide.
  - intros slot Hin. pose proof (interest_slot slot Hin) as Hi. split.
    + destruct (decide (wbuf slot = [])) as [|Hb]; [done|]. exfalso.
      assert (interest_of slot = read_write) as Ei.
      { unfold interest_of, Vec.is_empty. by case_bool_decide. }
      rewrite Ei in Hi. specialize (Hn _ (ex_intro _ _ Hi)).
      pose proof (fired_writes answer (handle slot)) as Hf. rewrite Hn in Hf.
      rewrite bool_decide_true in Hf; [done|]. simpl. apply Hw. by exists read_write.
    + intros cl Hp. assert (Net.readable k (handle slot) = false) as Hl.
      { apply Hnr, Hr. exists (interest_of slot). split; [done|]. unfold interest_of. by case_match. }
      unfold Net.readable in Hl. rewrite decide_False, Hp in Hl by by apply slot_not_listening.
      apply orb_false_elim in Hl as [Hl ->]. by case_bool_decide.
Qed.
End waiting.

Lemma wait_net O L s k out res evs k' :
  server_ok O L s k → sound k → listening k = {[L]} → hiccups k = [] → out ≠ [] →
  wait out k_poll_ms (poller s) k = Done (res, evs) k' →
  k' = Net.pop k ∧
  match res with
  | Unexpected _ => False
  | Val n => match head (take (Z.to_nat n) evs) with
             | Some ev => eventful L ev s k
             | None => idle s k
             end
  end.
Proof.
  intros Hok Hs HL Hh Hout.
  destruct (select_wait_run (poller s) out k_poll_ms k (server_ok_pollable _ _ _ _ _ Hok) Hout)
    as (nfds & sets & Hr & Hw & _ & _ & E).
  assert (sys_select nfds sets (select_timeout k_poll_ms) k =
    ((Z.of_nat (size (readfds (answer k sets)) + size (writefds (answer k sets))), answer k sets), Net.pop k)) as Es
    by (simpl; unfold Net.select, Net.hiccup_of; by rewrite Hh).
  change (wait out k_poll_ms (poller s) k) with (select_wait out k_poll_ms (poller s) k).
  rewrite E, Es. cbn [fst snd]. rewrite (proj2 (Z.ltb_ge _ _)) by lia.
  pose proof (reported_eventful O L s k sets Hok Hs HL Hr Hw) as Hev.
  pose proof (unreported_idle O L s k sets Hok HL Hr Hw) as Hid.
  destruct (Z.eqb_spec (Z.of_nat (size (readfds (answer k sets)) + size (writefds (answer k sets)))) 0) as [Hz|Hz].
  - intros [= <- <- <-]. split; [done|]. simpl. apply Hid. intros h _.
    assert (size (readfds (answer k sets)) = 0%nat ∧ size (writefds (answer k sets)) = 0%nat) as [Z1 Z2] by lia.
    apply size_empty_iff in Z1, Z2. unfold fired.
    rewrite !decide_False; [done|apply not_elem_of_empty|by rewrite Z2; apply not_elem_of_empty|
      by rewrite Z1; apply not_elem_of_empty].
  - set (ready := ready_events _ _). intros [= <- <- <-]. split; [done|]. rewrite Nat2Z.id, take_app_length.
    destruct (take (length out) ready) as [|ev l] eqn:Et; simpl.
    + apply Hid. intros h Hi. destruct (decide (fired (answer k sets) h = EventMask.None)) as [|Hne]; [done|].
      assert (mkEvent h (fired (answer k sets) h) ∈ ready) as Hin.
      { apply elem_of_ready. split; [by apply elem_of_registered|done]. }
      destruct out; [done|]. destruct ready; [by apply not_elem_of_nil in Hin|done].
    + assert (ev ∈ ready) as Hin.
      { apply (elem_of_take_1 _ (length out)). rewrite Et. by left. }
      apply elem_of_ready in Hin as (_ & Em & Hne). by apply Hev.
Qed.

Lemma wait_pop O L s k out r k' :
  server_ok O L s k → out ≠ [] → wait out k_poll_ms (poller s) k = Done r k' → k' = Net.pop k.
Proof.
  intros Hok Hout.
  destruct (select_wait_run (poller s) out k_poll_ms k (server_ok_pollable _ _ _ _ _ Hok) Hout)
    as (nfds & sets & _ & _ & _ & _ & E).
  change (wait out k_poll_ms (poller s) k) with (select_wait out k_poll_ms (poller s) k). rewrite E.
  intros [= _ <-]. simpl. unfold Net.select. by destruct (Net.hiccup_of k) as [[]|].
Qed.

(** ** The turn *)

(** What the loop keeps, on the network. *)
Record serving (O : gset Z) (L : Z) (s : server) (k : net) : Prop := {
  sg_ok : server_ok O L s k;
  sg_sound : sound k;
  sg_attached : attached L k;
  sg_listening : listening k = {[L]};
}.

(** How much the loop may have to do, and with what. *)
Record means (fuel : nat) (s : server) (k : net) : Prop := {
  mn_signals : (signals k < sig)%nat;
  mn_work : (work s k < fuel)%nat;
  mn_volume : Z.of_nat (volume s k) ≤ max_size t;
}.

Lemma serve_turn_net O L fuel a deadline events s k :
  serving O L s k → means fuel s k → listener_handle a = L → events ≠ [] →
  tick (looks k) < deadline → stop_flag k && bool_decide (slots s = []) = false →
  ∃ evs' s' k',
    serve_turn t sig fuel a deadline events s k = Done (Some (evs', s')) k' ∧ evs' ≠ [] ∧
    serving O L s' k' ∧ means fuel s' k' ∧ aside k k' ∧ turning (Net.set_looks (S (looks k)) k) k' ∧
    shrinks s s' k k' ∧ (hiccups k ≠ [] ∨ ¬ idle s k → (todo k' < todo k)%nat).
Proof.
  intros [Hok Hs Hat HL] [Hsig Hf Hv] Ha Hev Htick Hstop.
  assert (listens True L a) as Hls by by split.
  assert (ready k) as Hrd by by split.
  pose proof (serve_turn_run t sig True _ codec_fits O L fuel a deadline events s k Hok Hls Hrd Hev Hf Hv) as Hwp.
  unfold wp in Hwp.
  destruct (serve_turn t sig fuel a deadline events s k) as [r k'|e] eqn:E; [|by destruct Hwp as [_ []]].
  pose proof (Always_serve_turn aside t sig fuel a deadline events s (λ k0, reflexivity (R := aside) k0) _ _ _ E) as Haside.
  unfold serve_turn in E. unfold mbind at 1, prog_bind at 1, call_os in E. cbn [sys_now net_kernel] in E.
  unfold Net.now in E. cbn [fst snd] in E. rewrite (proj2 (Z.leb_gt _ _)) in E by done.
  unfold mbind at 1, prog_bind at 1 in E. cbn [stop_load net_stop fst snd] in E.
  change (stop_flag (Net.set_looks (S (looks k)) k)) with (stop_flag k) in E. rewrite Hstop in E. cbn [andb] in E.
  set (k1 := Net.set_looks (S (looks k)) k) in *.
  destruct (handled_quiet _ O L s k k1 Hok) as [Hok1 Hshr1]; [exact (now_law k)|exact (covers_now (R := progress) k)|].
  apply prog_bind_Done_inv in E as ([res evs] & k2 & E1 & E).
  pose proof (wait_pop _ _ _ _ _ _ _ Hok1 Hev E1) as Ek2.
  destruct (wait_run (Some EventMask.Read) O L s k1 events Hok1 Hev) as (res' & k2' & E1' & Hk2 & Hp2 & _).
  rewrite E1 in E1'. injection E1' as <- <-.
  destruct (handled_quiet _ O L s k1 k2 Hok1 Hk2 Hp2) as [Hok2 Hshr2].
  pose proof (shrinks_trans _ _ _ _ _ _ Hshr1 Hshr2) as [_ Hv2 Hw2].
  pose proof (Always_wait turns _ _ _ _ _ _ E1 (sound_looks _ _ Hs)) as Ht2.
  cbn [fst snd] in E. destruct res as [count|]; [|done].
  apply prog_bind_Done_inv in E as (s' & k3 & E2 & E). injection E as <- <-.
  assert (attached L k2) as Hat2 by (rewrite Ek2; destruct Hat; by constructor).
  assert (ready k2) as Hrd2.
  { split; [|intros _; apply Ht2]. rewrite Ek2. pose proof (pop_signals k1) as [? _]. simpl in *. lia. }
  pose proof (handle_events_net O L fuel a _ s k2 s' k3 Hok2 Ha Hrd2 ltac:(lia) ltac:(lia) Hat2 E2) as [Hat3 Hless].
  pose proof (Always_handle_events turns _ _ _ _ _ _ _ _ _ E2 (tn_sound _ _ Ht2)) as Ht3.
  pose proof (transitivity (R := turns) (λ _, Ht2) (λ _, Ht3) (sound_looks _ _ Hs)) as Ht.
  cbn beta iota in Hwp. destruct Hwp as ([Hok3 Hshr] & Hevs & _).
  exists evs, s', k3. split; [done|]. split; [done|]. split.
  { constructor; [done|apply Ht|done|]. rewrite (tn_listening _ _ Ht). done. }
  split.
  { pose proof Hshr as [(_ & _ & ? & _) ? ?]. constructor; lia. }
  split; [done|]. split; [done|]. split; [done|].
  assert (todo (Net.pop k1) ≤ todo k)%nat as Hle by (apply Nat.add_le_mono_r; exact (proj1 (pop_undone k1))).
  assert (hiccups k ≠ [] → (todo (Net.pop k1) < todo k)%nat) as Hpop
    by (intros Hh; apply Nat.add_lt_mono_r; exact (proj2 (pop_undone k1) Hh)).
  pose proof (tn_todo _ _ Ht3) as Hle3. rewrite Ek2 in *. intros Hbusy.
  destruct (decide (hiccups k = [])) as [Hh|Hh]; [|specialize (Hpop Hh); lia].
  destruct Hbusy as [?|Hbusy]; [done|].
  pose proof (wait_net O L s k1 _ _ _ _ Hok1 (sound_looks _ _ Hs) HL Hh Hev E1) as [_ Hw].
  assert (hiccups (Net.pop k1) = []) as Hh2 by (simpl; by rewrite Hh).
  specialize (Hless Hh2). destruct (head _); [|by destruct Hbusy]. specialize (Hless Hw). lia.
Qed.
End server.
