(* ===== verification/EchoCount.v ===== *)
(** * The counter of completed replies

    The server counts the replies it has sent whole; the benchmark compares the
    count with the round trips of its clients.  As long as a client waits for one
    reply before it asks for the next, on the network of Net.v, the count is exact
    ([counted]): at every turn it is the number of whole frames that have been sent
    to that client. *)

From S2P Require Import Prelude Vector FrameCodec Os Socket Connection SocketIO Poller Acceptor Dispatcher.
From S2P Require Import EchoServer Footprint EchoWorld EchoInvariant EchoLoop EchoClient Net NetTurn.

(** ** Whole frames in a stream *)

Section whole.
Context `{params : !ServerParams}.

Fixpoint count_frames (fuel : nat) (bs : list byte) : nat :=
  match fuel with
  | O => O
  | S fuel =>
      let r := decode_ref bs k_max_payload in
      if decide (status r = Complete) then S (count_frames fuel (drop (Z.to_nat (consumed_bytes r)) bs)) else O
  end.

(** How many frames a stream starts with. *)
Definition whole (bs : list byte) : nat := count_frames (S (length bs)) bs.

(** What is left holds none. *)
Definition frameless (bs : list byte) : Prop := status (decode_ref bs k_max_payload) ≠ Complete.

Lemma count_frames_app fuel ps rest :
  Forall small ps → frameless rest → (length ps < fuel)%nat → count_frames fuel (frames ps ++ rest) = length ps.
Proof.
  intros Hps Hr. revert fuel. induction Hps as [|p ps Hp Hps IH]; intros [|fuel] Hf; try (simpl in Hf; lia).
  - cbn [count_frames]. by rewrite decide_False.
  - change (frames (p :: ps)) with (frame p ++ frames ps). rewrite <- app_assoc. cbn [count_frames].
    rewrite decode_ref_frame by done. cbn [status consumed_bytes]. rewrite decide_True by done.
    replace (Z.to_nat (4 + len p)) with (length (frame p)) by (rewrite frame_length; lia).
    rewrite drop_app_length, IH by (simpl in Hf; lia). done.
Qed.

Lemma frames_length ps : (length ps ≤ length (frames ps))%nat.
Proof.
  induction ps as [|p ps IH]; [done|]. change (frames (p :: ps)) with (frame p ++ frames ps).
  rewrite length_app, frame_length. simpl. lia.
Qed.

Lemma whole_app ps rest : Forall small ps → frameless rest → whole (frames ps ++ rest) = length ps.
Proof.
  intros Hps Hr. apply count_frames_app; [done..|]. rewrite length_app. pose proof (frames_length ps). lia.
Qed.

Lemma whole_frames ps : Forall small ps → whole (frames ps) = length ps.
Proof. intros Hps. rewrite <- (app_nil_r (frames ps)). by apply whole_app. Qed.

(** Every stream is whole frames and the rest. *)
Lemma stream_split bs : ∃ ps rest, bs = frames ps ++ rest ∧ Forall small ps ∧ frameless rest ∧ whole bs = length ps.
Proof.
  enough (∃ ps rest, bs = frames ps ++ rest ∧ Forall small ps ∧ frameless rest) as (ps & rest & -> & Hps & Hr)
    by (exists ps, rest; eauto using whole_app).
  induction bs as [bs IHm] using (well_founded_induction (well_founded_ltof _ (@length byte))). unfold ltof in IHm.
  destruct (decode_ref_frame_cases bs k_max_payload) as [(p & rest & -> & Hp)|Hs].
  - destruct (IHm rest) as (ps & r & -> & Hps & Hr); [rewrite length_app, frame_length; lia|].
    exists (p :: ps), r. split; [|by split; [constructor|]].
    change (frames (p :: ps)) with (frame p ++ frames ps). by rewrite app_assoc.
  - by exists [], bs.
Qed.

Lemma frames_app ps qs : frames (ps ++ qs) = frames ps ++ frames qs.
Proof. unfold frames. by rewrite fmap_app, join_app. Qed.

Lemma whole_more ps rest : Forall small ps → whole (frames ps ++ rest) = (length ps + whole rest)%nat.
Proof.
  intros Hps. destruct (stream_split rest) as (qs & r & -> & Hqs & Hr & ->).
  rewrite app_assoc, <- frames_app, whole_app, length_app by (done || by apply Forall_app_2). done.
Qed.

Lemma whole_mono bs bs' : bs `prefix_of` bs' → (whole bs ≤ whole bs')%nat.
Proof.
  intros [more ->]. destruct (stream_split bs) as (ps & rest & -> & Hps & _ & ->).
  rewrite <- app_assoc, whole_more by done. lia.
Qed.

(** As long as something is missing, so is a frame. *)
Lemma whole_short bs more ps : bs ++ more = frames ps → more ≠ [] → Forall small ps → (whole bs < length ps)%nat.
Proof.
  intros E Hm Hps. destruct (stream_split bs) as (qs & rest & -> & Hqs & _ & ->).
  rewrite <- app_assoc in E. destruct (frames_rest ps qs (rest ++ more) (eq_sym E) Hps Hqs) as (rs & Ers & Hrs).
  rewrite Ers, <- frames_app in E. rewrite <- (whole_frames ps), <- E, whole_frames, length_app
    by (done || by apply Forall_app_2).
  destruct rs; [|simpl; lia]. apply app_eq_nil in Ers as [_ ?]. done.
Qed.
End whole.

(** ** The count *)

(** The frames client [c] has asked with, and those it has been answered with. *)
Definition asked `{params : !ServerParams} (c : Z) (k : net) : nat := whole (Net.at_ (c_sent k) c).
Definition answered `{params : !ServerParams} (c : Z) (k : net) : nat :=
  match routes k !! c with Some h => whole (Net.at_ (s_gave k) h) | None => O end.

(** Nobody has a reply to wait for but [cur], and that one. *)
Definition one_at_a_time `{params : !ServerParams} (cur : Z) (k : net) : Prop :=
  ∀ c, (asked c k ≤ answered c k + if decide (c = cur) then 1 else 0)%nat.

(** An [int] that counts. *)
Definition int_of (n : nat) : Z := to_int (Z.of_nat n).

Lemma int_of_succ n : fetch_add_int (int_of n) 1 = int_of (S n).
Proof.
  unfold fetch_add_int, int_of, to_int.
  replace (wrap 32 (Z.of_nat n + 2 ^ 31) - 2 ^ 31 + 1 + 2 ^ 31) with (wrap 32 (Z.of_nat n + 2 ^ 31) + 1) by lia.
  rewrite wrap_add_wrap_l. do 2 f_equal. lia.
Qed.

Lemma int_of_small n : Z.of_nat n < 2 ^ 31 → int_of n = Z.of_nat n.
Proof.
  intros Hn. unfold int_of, to_int. rewrite wrap_small; [lia|]. unfold in_u.
  change (2 ^ 32) with (2 ^ 31 + 2 ^ 31). lia.
Qed.

(** ** What the server's calls do to it

    Nothing is asked, and the answers only become more. *)

Section advancing.
Context `{params : !ServerParams, !Clock}.
Implicit Types k : net.

Record advancing k k' : Prop := {
  ad_turning : turning k k';
  ad_sent : c_sent k' = c_sent k;
  ad_answered c : (answered c k ≤ answered c k')%nat;
}.

Definition advances k k' : Prop := sound k → advancing k k'.

#[export] Instance advances_preorder : PreOrder advances.
Proof.
  split.
  - intros k Hs. constructor; [by apply turns_preorder|done..].
  - intros x y z H1 H2 Hs. destruct (H1 Hs) as [T1 S1 A1]. destruct (H2 (tn_sound _ _ T1)) as [T2 S2 A2].
    constructor; [exact (transitivity (R := turns) (λ _, T1) (λ _, T2) Hs)|congruence|].
    intros c. etrans; [apply A1|apply A2].
Qed.

Lemma one_at_a_time_advancing cur k k' : advancing k k' → one_at_a_time cur k → one_at_a_time cur k'.
Proof. intros [_ Es Ha] H1 c. specialize (H1 c). specialize (Ha c). unfold asked in *. rewrite Es. lia. Qed.

Lemma answered_same c k k' :
  routes k' = routes k → (∀ h, routes k !! c = Some h → Net.at_ (s_gave k') h = Net.at_ (s_gave k) h) →
  answered c k' = answered c k.
Proof. intros Er Eg. unfold answered. rewrite Er. destruct (routes k !! c) as [h|] eqn:E; [by rewrite Eg|done]. Qed.

Lemma advances_quiet k k' :
  turns k k' → c_sent k' = c_sent k → routes k' = routes k → s_gave k' = s_gave k → advances k k'.
Proof.
  intros Ht Es Er Eg Hs. constructor; [by apply Ht|done|]. intros c.
  rewrite (answered_same c k k'); [done|done|]. by rewrite Eg.
Qed.

Lemma answered_accepted k c w c' :
  sound k → backlog k = c :: w → answered c' (accepted (next_fd k) c w k) = answered c' k.
Proof.
  intros Hs Eb. unfold answered. simpl. unfold Net.at_. destruct (decide (c' = c)) as [->|Hne].
  - rewrite lookup_insert_eq, at_delete, decide_True by done.
    by rewrite (proj2 (nt_waiting _ Hs c ltac:(rewrite Eb; by left))).
  - rewrite lookup_insert_ne by done. destruct (routes k !! c') as [h|] eqn:Er; [|done].
    rewrite at_delete, decide_False; [done|]. intros E.
    apply (nt_links _ Hs), (nt_old _ Hs) in Er. lia.
Qed.

Lemma advances_accepted k c w : backlog k = c :: w → advances k (accepted (next_fd k) c w k).
Proof.
  intros Eb Hs. constructor; [by apply turns_accepted|done|]. intros c'. by rewrite answered_accepted.
Qed.

#[export] Instance advances_close : CoversClose advances.
Proof. constructor. intros s k. apply advances_quiet; try done. exact (covers_close (R := turns) s k). Qed.

#[export] Instance advances_select : CoversSelect advances.
Proof.
  constructor. intros n sets tv k. simpl. unfold Net.select.
  destruct (Net.hiccup_of k) as [[| |]|]; (apply advances_quiet; [apply turns_pop|done..]).
Qed.

#[export] Instance advances_accept : CoversAccept advances.
Proof.
  constructor; intros; simpl; [|done|].
  - intros Hs. destruct (Net.accept k) as [r k1] eqn:E.
    destruct (accept_cases _ _ _ Hs E) as [(e & _ & -> & _)|(c & w & Eb & -> & ->)]; cbn [snd].
    + apply (advances_quiet k); try done. etrans; [apply turns_pop|apply turns_errno].
    + apply (transitivity (R := advances) (y := Net.pop k)); [by apply advances_quiet; [apply turns_pop|..]| |done].
      exact (advances_accepted (Net.pop k) c w Eb).
  - apply advances_quiet; [exact (covers_setfl (R := turns) s flags k)|..]; unfold Net.setfl; by case_match.
Qed.

#[export] Instance advances_io : CoversIO advances.
Proof.
  constructor; intros.
  - apply advances_quiet; [exact (covers_recv (R := turns) s n k)|..]; simpl; unfold Net.recv; by repeat case_match.
  - intros Hs. constructor; [exact (covers_send (R := turns) s data flags k Hs)|by simpl; unfold Net.send; repeat case_match|].
    intros c. unfold answered. simpl. unfold Net.send.
    assert (routes (Net.send s data k).2 = routes k) as Er by (unfold Net.send; by repeat case_match).
    unfold Net.send in Er. rewrite Er. destruct (routes k !! c) as [h|]; [|done].
    repeat case_match; simpl; try done; apply whole_mono; unfold Net.at_; rewrite at_insert;
      (case_decide; [subst; by apply prefix_app_r|done]).
Qed.
End advancing.

Section server.
Context `{params : !ServerParams, !Clock, !MapOrder Z, !Build} (t : target) (sig : nat).
Hypothesis codec_fits : fits t k_max_payload.
Implicit Types k : net.
Context (cur : Z).

Abbreviation handle slot := (conn_handle (conn slot)).
Abbreviation rbuf slot := (vdata (read_buf_ (conn slot))).
Abbreviation wbuf slot := (vdata (write_buf_ (conn slot))).
Abbreviation server_ok := (server_ok (Some EventMask.Read)).
Abbreviation ready := (ready sig True).

(** Nothing but streams to the client on [h] has changed. *)
Record answers (h : Z) (k k' : net) : Prop := {
  an_aside : aside k k';
  an_unlinked : unlinked k k';
  an_others x : x ≠ h → Net.at_ (s_gave k') x = Net.at_ (s_gave k) x;
}.

(** The reply on the connection of [c] is sent whole, or not. *)
Lemma flush_counts h c k k' wb wb' ps :
  sound k → peers k !! h = Some c → answers h k k' → Forall small ps →
  Net.at_ (s_gave k) h ++ wb = frames ps → Net.at_ (s_gave k') h ++ wb' = frames ps →
  (length wb' ≤ length wb)%nat → (wb ≠ [] → c = cur ∧ (length ps ≤ S (answered c k))%nat) →
  int_of (answered cur k') =
    if decide (wb = []) then int_of (answered cur k)
    else if decide (wb' = []) then fetch_add_int (int_of (answered cur k)) 1 else int_of (answered cur k).
Proof.
  intros Hs Hp [Ha [_ Er _] Ho] Hps E E' Hnil Hcur. apply (nt_links _ Hs) in Hp as Hr.
  destruct (decide (wb = [])) as [->|Hne].
  - assert (wb' = []) as -> by (destruct wb'; [done|simpl in Hnil; lia]). rewrite app_nil_r in *. f_equal. apply answered_same; [done|]. intros x Hx.
    destruct (decide (x = h)) as [->|]; [congruence|by apply Ho].
  - destruct (Hcur Hne) as [-> Hle]. unfold answered in *. rewrite Er, Hr in *.
    pose proof (whole_short _ _ _ E Hne Hps).
    destruct (decide (wb' = [])) as [->|Hne'].
    + rewrite app_nil_r in E'. rewrite E', whole_frames, int_of_succ by done. f_equal. lia.
    + pose proof (whole_short _ _ _ E' Hne' Hps). f_equal.
      assert (whole (Net.at_ (s_gave k) h) ≤ whole (Net.at_ (s_gave k') h))%nat; [|lia]. apply whole_mono.
      destruct (prefix_weak_total (Net.at_ (s_gave k) h) (Net.at_ (s_gave k') h) (frames ps)) as [?|Hpre];
        [by eexists|by eexists|done|].
      apply (f_equal length) in E, E'. rewrite length_app in E, E'.
      pose proof (prefix_length _ _ Hpre). apply (reflexive_eq (R := prefix)). symmetry.
      apply prefix_length_eq; [done|lia].
Qed.

Lemma flush_loop_answers fuel c k r k' :
  ready k → (length (vdata (write_buf_ c)) < fuel)%nat → 0 ≤ conn_handle c → conn_handle c ∈ server_fds k →
  flush_loop sig fuel c k = Done r k' →
  answers (conn_handle c) k k' ∧ r.1 = negb (Vec.is_empty (write_buf_ r.2)) ∧
  Net.at_ (s_gave k') (conn_handle c) ++ vdata (write_buf_ r.2) =
    Net.at_ (s_gave k) (conn_handle c) ++ vdata (write_buf_ c) ∧
  (length (vdata (write_buf_ r.2)) ≤ length (vdata (write_buf_ c)))%nat.
Proof.
  intros Hrd Hf Hh Ho E. pose proof (flush_loop_spec sig True fuel c k Hrd Hf Hh Ho) as Hwp.
  destruct (wp_Done _ _ _ _ _ _ Hwp E) as (_ & _ & Hs & _ & Hl & Hb & [_ Hoth _]). split; [|done].
  constructor.
  - by eapply (Always_flush_loop aside).
  - by eapply (Always_flush_loop unlinked).
  - intros x Hx. by destruct (Hoth x Hx).
Qed.

Lemma is_empty_nil v : Vec.is_empty v = bool_decide (vdata v = []).
Proof. done. Qed.

Lemma try_flush_counts fuel slot p k r k' c ps :
  sound k → ready k → (length (wbuf slot) < fuel)%nat → 0 ≤ handle slot → handle slot ∈ server_fds k →
  awaiting_reply_flush slot = negb (Vec.is_empty (write_buf_ (conn slot))) →
  peers k !! handle slot = Some c → Forall small ps → Net.at_ (s_gave k) (handle slot) ++ wbuf slot = frames ps →
  (wbuf slot ≠ [] → c = cur ∧ (length ps ≤ S (answered c k))%nat) →
  try_flush_writes sig fuel slot p (int_of (answered cur k)) k = Done r k' →
  r.2 = int_of (answered cur k').
Proof.
  intros Hs Hrd Hf Hh Ho Hw Hp Hps Hsent Hcur. unfold try_flush_writes.
  intros ([blocked c'] & k1 & E1 & E)%prog_bind_Done_inv.
  destruct (flush_loop_answers _ _ _ _ _ Hrd Hf Hh Ho E1) as (Hans & Hb & Hsent' & Hl). cbn [fst snd] in *.
  rewrite Hsent in Hsent'. rewrite is_empty_nil in *.
  pose proof (flush_counts _ _ _ _ _ _ _ Hs Hp Hans Hps Hsent Hsent' Hl Hcur) as Hc.
  assert (wbuf slot = [] → vdata (write_buf_ c') = []) as Hnil.
  { intros Hn. rewrite Hn in Hl. destruct (vdata (write_buf_ c')); [done|simpl in Hl; lia]. }
  case_bool_decide as Hwb'; simpl in Hb; subst blocked; injection E as <- <-; cbn [snd]; rewrite Hc.
  - rewrite Hw. case_bool_decide as Hwb; simpl.
    + by rewrite decide_True.
    + by rewrite decide_False, decide_True.
  - assert (wbuf slot ≠ []) as Hwb by tauto. by rewrite !decide_False.
Qed.
(** What has arrived and is not answered is one frame, and the one of [cur]. *)
Lemma pending_frame c k h ps wb :
  sound k → one_at_a_time cur k → peers k !! h = Some c → Forall small ps →
  frames ps `prefix_of` Net.at_ (s_got k) h → Net.at_ (s_gave k) h ++ wb = frames ps → wb ≠ [] →
  c = cur ∧ (length ps ≤ S (answered c k))%nat.
Proof.
  intros Hs Hone Hp Hps Hgot Hgave Hwb. specialize (Hone c).
  assert (length ps ≤ asked c k)%nat as Hask.
  { rewrite <- (whole_frames ps) by done. apply whole_mono. etrans; [exact Hgot|apply (nt_up _ Hs _ _ Hp)]. }
  assert (answered c k < length ps)%nat as Hans.
  { unfold answered. apply (nt_links _ Hs) in Hp as ->. by eapply whole_short. }
  case_decide; [split; [done|lia]|lia].
Qed.

Lemma decode_loop_counts fuel slot p k r k' c :
  sound k → one_at_a_time cur k → ready k → (length (wbuf slot) + 2 * length (rbuf slot) < fuel)%nat →
  Z.of_nat (length (wbuf slot) + length (rbuf slot)) ≤ max_size t →
  slot_ok k slot → peers k !! handle slot = Some c →
  decode_loop t sig fuel slot p (int_of (answered cur k)) k = Done r k' → r.2 = int_of (answered cur k').
Proof.
  revert slot p k. induction fuel as [|fuel IH]; intros slot p k Hs Hone Hrd Hf Hsz Hok Hp; [lia|].
  destruct (decode_ref_frame_cases (rbuf slot) k_max_payload) as [(q & rest & Hrb & Hq)|Hst].
  2: { cbn [decode_loop]. rewrite try_decode_frame_is_ref by done. unfold mbind, prog_bind. simpl.
       destruct (status _); [by intros [= <- <-]|done|done]. }
  rewrite (decode_one t sig codec_fits fuel slot p _ k q rest) by done. cbv zeta.
  intros ([[slot2 p2] n2] & k2 & E1 & E)%prog_bind_Done_inv. cbv beta iota in E.
  assert (length (rbuf slot) = (4 + length q + length rest)%nat) as Hlen
    by (rewrite Hrb, length_app, frame_length; lia).
  destruct Hok as [Hh Ho (ps & Hgot & Hgave & Hps) Hw]. rewrite Hrb in Hgot.
  assert (Forall small (ps ++ [q])) as Hps' by (apply Forall_app_2; [done|by apply Forall_singleton]).
  assert (Net.at_ (s_gave k) (handle slot) ++ (wbuf slot ++ frame q) = frames (ps ++ [q])) as Hgave'
    by (rewrite app_assoc, frames_snoc; by f_equal).
  assert (frames (ps ++ [q]) `prefix_of` Net.at_ (s_got k) (handle slot)) as Hgot'
    by (exists rest; by rewrite frames_snoc, <- app_assoc).
  pose proof (Always_try_flush progress _ _ _ _ _ _ _ _ E1) as Hpr.
  pose proof (Always_try_flush advances _ _ _ _ _ _ _ _ E1 Hs) as Had.
  pose proof (Always_try_flush unlinked _ _ _ _ _ _ _ _ E1) as [Ep _ _].
  match type of E1 with try_flush_writes _ _ ?s ?q ?n _ = _ => set (slot1 := s) in *; set (p1 := q) in *;
    pose proof (try_flush_spec sig True fuel slot1 p1 n k Hrd) as Hwp end.
  change (conn_handle (conn slot1)) with (handle slot) in Hwp.
  assert (length (wbuf slot1) < fuel)%nat as Hf1 by (simpl; rewrite length_app, frame_length; lia).
  assert (echoes k (handle slot) (rbuf slot1) (wbuf slot1)) as He1
    by (apply echoes_frame; [done|]; exists ps; done).
  destruct (wp_Done _ _ _ _ _ _ (Hwp Hf1 Hh Ho He1 (λ _, eq_refl)) E1) as [[Hs2 Hok2 _ Hz2 _ _] Hrd2]. clear Hwp.
  eapply try_flush_counts in E1; [|done|done|done|done|done| |exact Hp|exact Hps'|exact Hgave'|by eapply pending_frame].
  2: { unfold Vec.is_empty. simpl. by destruct (wbuf slot). }
  cbn [fst snd] in *. rewrite E1 in E. clear E1. rewrite Hrd2 in *. simpl in Hz2.
  rewrite length_app, frame_length in Hz2.
  eapply IH in E; [exact E|apply Had|by eapply one_at_a_time_advancing|by eapply ready_progress|..|done|].
  - rewrite Hrd2. simpl. lia.
  - rewrite Hrd2. simpl. lia.
  - rewrite Ep. unfold conn_handle. by rewrite Hs2.
Qed.
(** ** The handlers *)

(** The count is right. *)
Definition counted (s : server) (k : net) : Prop := completions s = int_of (answered cur k).

Lemma streams_answered c k k' : unlinked k k' → same_streams k k' → answered c k' = answered c k.
Proof. intros [_ Er _] Hs. apply answered_same; [done|]. intros h _. apply (Hs h). Qed.

Lemma read_counts O L fuel i s k slot s' o k' :
  server_ok O L s k → slots s !! i = Some slot → ready k →
  (slot_work slot + 3 * traffic k < fuel)%nat → Z.of_nat (volume s k) ≤ max_size t →
  one_at_a_time cur k → is_Some (peers k !! handle slot) → counted s k →
  process_connection_read t sig fuel i s k = Done (s', o) k' → counted s' k'.
Proof.
  revert s k slot. induction fuel as [|fuel IH]; intros s k slot Hok Hi Hrd Hf Hv Hone Hp Hc; [lia|].
  pose proof (proj2 Hrd I) as Hs. cbn [process_connection_read]. rewrite Hi.
  pose proof (volume_slot s k i slot Hi) as Hvs. unfold slot_volume in Hvs.
  destruct (receive_fits t sig True (conn slot) (scratch s) k Hrd) as
    (res & bs & sc & k1 & E1 & Hsc & Hon & Ha & Htr); [unfold Vec.size; lia|].
  rewrite (prog_bind_Done _ _ _ _ _ E1). cbn [fst snd slots poller scratch completions].
  pose proof (Always_receive progress t sig _ _ _ _ _ E1) as Hpr.
  pose proof (Always_receive advances t sig _ _ _ _ _ E1 Hs) as Had.
  pose proof (Always_receive unlinked t sig _ _ _ _ _ E1) as Hul.
  assert (answered cur k1 = answered cur k) as Hans.
  { apply answered_same; [apply Hul|]. intros h _. exact (ro_sent _ _ _ _ Hon h). }
  assert (ready k1) as Hrd1 by by eapply ready_progress.
  assert (one_at_a_time cur k1) as Hone1 by by eapply one_at_a_time_advancing.
  rewrite <- (ul_peers _ _ Hul) in Hp. unfold counted in Hc. rewrite <- Hans in Hc.
  destruct res as [n|e].
  - apply receive_count in Ha as (Hn & ->). unfold slot_work, slot_volume in *.
    intros ([[slot2 p2] n2] & k2 & E2 & E)%prog_bind_Done_inv. cbn [fst snd slots poller scratch completions] in E.
    pose proof (read_chunk t sig codec_fits True _ O L s k k1 i slot bs sc Hok Hi Hsc Hon Hpr fuel Hrd) as Hwp.
    destruct (wp_Done _ _ _ _ _ _ (Hwp ltac:(lia) ltac:(lia) ltac:(unfold slot_work; lia) Hv) E2)
      as (Hok2 & Hshr & Hs2 & Ho2 & Hw2). cbn [fst snd] in *.
    pose proof (Always_decode_loop progress _ _ _ _ _ _ _ _ _ E2) as Hpr2.
    pose proof (Always_decode_loop advances _ _ _ _ _ _ _ _ _ E2 (tn_sound _ _ (ad_turning _ _ Had))) as Had2.
    pose proof (Always_decode_loop unlinked _ _ _ _ _ _ _ _ _ E2) as Hul2.
    destruct Hp as [c Hp]. rewrite Hc in E2.
    eapply decode_loop_counts in E2; [|apply Had|done|done| | |exact (chunk_slot_ok _ O L s k k1 i slot bs Hok Hi Hon)|exact Hp].
    2: { simpl. rewrite length_app. lia. }
    2: { simpl. rewrite length_app. lia. }
    cbn [snd] in E2. rewrite list_insert_insert_eq in E. pose proof Hshr as [Hprog Hv2 _].
    eapply IH in E; [exact E|exact Hok2|apply list_lookup_insert_eq; by eapply lookup_lt_Some|
      by eapply ready_progress|unfold slot_work in *; cbn [fst snd] in *; lia|lia|by eapply one_at_a_time_advancing| |done].
    rewrite (ul_peers _ _ Hul2). unfold conn_handle. rewrite Hs2. by exists c.
  - destruct (recv_code e); try done; [by intros [= <- <- <-]|].
    intros (s2 & k2 & E2 & E)%prog_bind_Done_inv. injection E as <- <- <-.
    pose proof (Always_remove_slot unlinked _ _ _ _ _ E2) as Hul2.
    pose proof (receive_error_nothing _ _ _ _ _ _ Ha) as ->.
    destruct (slot_facts _ _ _ _ _ _ _ Hok Hi) as ([Hh _ _ _] & _).
    match type of E2 with remove_slot ?s1 _ _ = _ =>
      destruct (remove_slot_run s1 i (mkSlot (clear_write (with_read (conn slot) (Vec.clear (read_buf_ (conn slot)))))
        (awaiting_reply_flush slot)) k1) as (rest & k3 & E3 & _ & _ & Hst & _); [|exact Hh|] end.
    { simpl. apply list_lookup_insert_eq. rewrite length_insert. by eapply lookup_lt_Some. }
    rewrite E3 in E2. injection E2 as <- <-. unfold counted. cbn [completions with_slots].
    by rewrite (streams_answered _ _ _ Hul2 Hst).
Qed.
Lemma attached_peer O L s k slot :
  server_ok O L s k → attached L k → slot ∈ slots s → is_Some (peers k !! handle slot).
Proof.
  intros Hok [_ Hli] Hin. assert (handle slot ∈ handles s) as Hh by (apply list_elem_of_fmap; by exists slot).
  destruct (sv_fresh _ _ _ _ _ Hok _ Hh) as (_ & HL & _).
  destruct (Hli (handle slot)) as [?|?]; [|done|done].
  change (handle slot ∈ open_fds k). apply (sv_open _ _ _ _ _ Hok). auto.
Qed.

Lemma handle_write_counts O L fuel ev s k s' k' :
  server_ok O L s k → ready k → (work s k < fuel)%nat → attached L k → one_at_a_time cur k → counted s k →
  handle_write sig fuel ev s k = Done s' k' → counted s' k'.
Proof.
  intros Hok Hrd Hf Hat Hone Hc. pose proof (proj2 Hrd I) as Hs. unfold handle_write.
  case_bool_decide; [by intros [= <- <-]|].
  destruct (find_slot_index _ _) as [i|] eqn:Ei; [|by intros [= <- <-]].
  apply find_slot_index_Some in Ei as (slot & Hi & _). rewrite Hi.
  destruct (slot_facts _ _ _ _ _ _ _ Hok Hi) as ([Hh Ho (ps & Hgot & Hgave & Hps) Hw] & _).
  destruct (attached_peer _ _ _ _ slot Hok Hat) as [c Hp]; [by eapply list_elem_of_lookup_2|].
  pose proof (work_slot s k i slot Hi) as Hws. unfold slot_work in Hws.
  intros ([[slot' p'] n'] & k1 & E1 & E)%prog_bind_Done_inv. injection E as <- <-.
  unfold counted in *. rewrite Hc in E1.
  eapply try_flush_counts in E1; [exact E1|done|done|lia|done|done|done|exact Hp|exact Hps|exact Hgave|].
  eapply pending_frame; try done. by exists (rbuf slot).
Qed.

Lemma accept_and_register_answered a (p : SelectPoller) k r k' c :
  sound k → 0 ≤ listener_handle a → accept_and_register a p k = Done r k' → answered c k' = answered c k.
Proof.
  intros Hs Hl Hrun. pose proof (nt_room _ Hs) as [H3 _].
  destruct (Net.accept k) as [h k1] eqn:Ea.
  destruct (accept_cases _ _ _ Hs Ea) as [(e & -> & -> & _)|(c' & w & Eb & -> & ->)].
  - destruct (accept_and_register_eq a p k _ _ Hl Ea (or_introl eq_refl)) as (res & p2 & E & _).
    rewrite E in Hrun. by injection Hrun as _ <-.
  - destruct (accept_and_register_eq a p k _ _ Hl Ea (or_intror (accepted_flags _ _ _ _))) as (res & p2 & E & _).
    rewrite (proj2 (Z.ltb_ge _ _)) in E by lia. rewrite E in Hrun. injection Hrun as _ <-.
    exact (answered_accepted (Net.pop k) c' w c (sound_pop _ Hs) Eb).
Qed.

Lemma accept_loop_counts fuel a s k s' k' :
  sound k → 0 ≤ listener_handle a → counted s k → accept_loop fuel a s k = Done s' k' → counted s' k'.
Proof.
  intros Hs Hl. revert s k Hs. induction fuel as [|fuel IH]; intros s k Hs Hc; [done|]. cbn [accept_loop].
  intros ([res p] & k1 & E1 & E)%prog_bind_Done_inv.
  pose proof (Always_accept_and_register turns _ _ _ _ _ E1 Hs) as Ht.
  apply (accept_and_register_answered a _ k _ _ cur) in E1; [|done..].
  assert (∀ l, counted (with_slots (with_poller s p) l) k1) as Hc1 by (intros l; unfold counted; by rewrite E1).
  destruct res as [c|e]; [by apply IH in E; [|apply Ht|]|].
  destruct (accept_would_block _); [|done]. injection E as <- <-. exact (Hc1 (slots s)).
Qed.

(** ** A turn *)

Lemma handle_event_counts O L fuel a ev s k s' k' :
  server_ok O L s k → listener_handle a = L → ready k → (work s k < fuel)%nat →
  Z.of_nat (volume s k) ≤ max_size t → attached L k → one_at_a_time cur k → counted s k →
  handle_event t sig fuel a ev s k = Done s' k' → counted s' k'.
Proof.
  intros Hok Hl Hrd Hf Hv Hat Hone Hc. pose proof (proj2 Hrd I) as Hs. unfold handle_event.
  destruct (_ =? _).
  { case_bool_decide; [by intros [= <- <-]|]. apply accept_loop_counts; [done| |done]. rewrite Hl. apply Hok. }
  destruct (find_slot_index _ _) as [i|] eqn:Ei; [|by intros [= <- <-]].
  apply find_slot_index_Some in Ei as (slot & Hi & _).
  case_bool_decide; [by eapply handle_write_counts|].
  intros ([s1 o] & k1 & E1 & E)%prog_bind_Done_inv. cbn [fst snd] in E.
  pose proof (work_slot s k i slot Hi) as Hws.
  assert (slot_work slot + 3 * traffic k < fuel)%nat as Hf1 by lia.
  destruct (wp_Done _ _ _ _ _ _ (process_connection_read_spec t sig codec_fits True _ O L fuel i s k slot
    Hok Hi Hrd Hf1 Hv) E1) as (Hok1 & Hshr & _). cbn [fst snd] in *.
  destruct (read_attached t sig codec_fits O L _ _ _ _ slot _ _ _ Hok Hi Hrd Hf1 Hv Hat E1) as [Hat1 _].
  pose proof (Always_read_connection advances _ _ _ _ _ _ _ _ E1 Hs) as Had.
  assert (counted s1 k1) as Hc1.
  { eapply read_counts; [..|exact E1]; try done. eapply attached_peer; [done..|]. by eapply list_elem_of_lookup_2. }
  destruct o; [|by injection E as <- <-].
  destruct (find_slot_index _ _); [|by injection E as <- <-].
  pose proof Hshr as [_ _ ?].
  refine (handle_write_counts O L fuel ev s1 k1 _ _ Hok1 _ _ Hat1 _ Hc1 E);
    [by eapply shrinks_ready|lia|by eapply one_at_a_time_advancing].
Qed.

Lemma handle_events_counts O L fuel a evs s k s' k' :
  server_ok O L s k → listener_handle a = L → ready k → (work s k < fuel)%nat →
  Z.of_nat (volume s k) ≤ max_size t → attached L k → one_at_a_time cur k → counted s k →
  handle_events t sig fuel a evs s k = Done s' k' → counted s' k'.
Proof.
  revert s k. induction evs as [|ev evs IH]; intros s k Hok Hl Hrd Hf Hv Hat Hone Hc; [by intros [= <- <-]|].
  cbn [handle_events]. intros (s1 & k1 & E1 & E)%prog_bind_Done_inv.
  assert (listens (K := net) True L a) as Hls by by split.
  destruct (wp_Done _ _ _ _ _ _ (handle_event_run t sig True _ codec_fits O L fuel a ev s k Hok Hls Hrd Hf Hv) E1)
    as [Hok1 Hshr].
  destruct (handle_event_net t sig codec_fits _ _ _ _ _ _ _ _ _ Hok Hl Hrd Hf Hv Hat E1) as [Hat1 _].
  pose proof (Always_handle_event advances _ _ _ _ _ _ _ _ _ E1 (proj2 Hrd I)) as Had.
  pose proof Hshr as [_ ? ?].
  refine (IH s1 k1 Hok1 Hl _ _ _ Hat1 _ _ E); [by eapply shrinks_ready|lia|lia|by eapply one_at_a_time_advancing|].
  exact (handle_event_counts O L fuel a ev s k s1 k1 Hok Hl Hrd Hf Hv Hat Hone Hc E1).
Qed.

(** At the end of a turn the count is right, and there is still one reply at a
    time to wait for. *)
Lemma serve_turn_counts O L fuel a deadline events s k evs' s' k' :
  serving O L s k → means t sig fuel s k → listener_handle a = L → events ≠ [] →
  one_at_a_time cur k → counted s k →
  serve_turn t sig fuel a deadline events s k = Done (Some (evs', s')) k' →
  counted s' k' ∧ one_at_a_time cur k' ∧ ∀ c, (answered c k ≤ answered c k')%nat.
Proof.
  intros [Hok Hs Hat HL] [Hsig Hf Hv] Ha Hev Hone Hc. unfold serve_turn.
  intros (now & k1 & E1 & E)%prog_bind_Done_inv. destruct (_ <=? _); [done|].
  apply prog_bind_Done_inv in E as (stop & k1' & E2 & E).
  assert (k1 = Net.set_looks (S (looks k)) k) as Ek1 by by injection E1 as _ <-.
  assert (k1' = k1) as -> by by injection E2 as _ <-. clear E1 E2. destruct (_ && _); [done|].
  destruct (handled_quiet _ O L s k k1 Hok) as [Hok1 Hshr1];
    [rewrite Ek1; exact (now_law k)|rewrite Ek1; exact (covers_now (R := progress) k)|].
  apply prog_bind_Done_inv in E as ([res evs] & k2 & E1 & E).
  pose proof (wait_pop _ _ _ _ _ _ _ Hok1 Hev E1) as Ek2.
  destruct (wait_run (Some EventMask.Read) O L s k1 events Hok1 Hev) as (res' & k2' & E1' & Hk2 & Hp2 & _).
  rewrite E1 in E1'. injection E1' as <- <-.
  destruct (handled_quiet _ O L s k1 k2 Hok1 Hk2 Hp2) as [Hok2 Hshr2].
  pose proof (shrinks_trans _ _ _ _ _ _ Hshr1 Hshr2) as [(_ & _ & Hsg & _) Hv2 Hw2].
  cbn [fst snd] in E. destruct res as [count|]; [|done].
  apply prog_bind_Done_inv in E as (s3 & k3 & E2 & E). injection E as _ <- <-.
  assert (sound k2) as Hs2 by (rewrite Ek2, Ek1; by apply sound_pop, sound_looks).
  assert (attached L k2) as Hat2 by (rewrite Ek2, Ek1; destruct Hat; by constructor).
  assert (one_at_a_time cur k2) as Hone2 by by rewrite Ek2, Ek1.
  assert (counted s k2) as Hc2 by by rewrite Ek2, Ek1.
  assert (ready k2) as Hrd2 by (split; [lia|done]).
  pose proof (Always_handle_events advances _ _ _ _ _ _ _ _ _ E2 Hs2) as Had.
  split; [|split].
  - refine (handle_events_counts O L fuel a _ s k2 _ _ Hok2 Ha Hrd2 _ _ Hat2 Hone2 Hc2 E2); lia.
  - by eapply one_at_a_time_advancing.
  - intros c. etrans; [|apply Had]. by rewrite Ek2, Ek1.
Qed.
End server.
