(* ===== verification/NetClient.v ===== *)
(** * The clients' side of the network

    The calls of a client on Net.v, and what each does to the server's side: the
    server's descriptors and streams are left alone, the network stays sound, and
    what is on its way to the server grows by what is sent. *)

From S2P Require Import Prelude Vector FrameCodec Os Acceptor EchoServer Footprint EchoWorld EchoLoop Net.

Module Client.

Definition EBADF : Z := 9.
Definition EISCONN : Z := 106.
Definition ENOTCONN : Z := 107.

(** [mine]: the client that is looked at, or another one. *)
Definition own (mine : bool) (f : gset Z → gset Z) (k : net) : net :=
  if mine then Net.set_clients (f (client_fds k)) (other_fds k) k
  else Net.set_clients (client_fds k) (f (other_fds k)) k.

Definition socket (mine : bool) (k : net) : Z * net :=
  if Net.room k <=? 0 then Net.fail Sim.EMFILE (-1) k
  else
    let r := Net.fresh_fd k in
    (r, own mine (λ o, {[r]} ∪ o) (Net.set_next_fd (Z.succ r)
          (Net.set_sent (delete r (c_sent k)) (Net.set_fetched (delete r (c_got k)) k)))).

(** Somebody listens at the port of the network. *)
Definition served (t : target) (port : Z) (k : net) : Prop :=
  listening k ∩ server_fds k ≠ ∅ ∧ ntohs t (net_port k) = port.

Definition connect (t : target) (c port : Z) (k : net) : Z * net :=
  if Net.gone c k then Net.fail EBADF (-1) k
  else if decide (Net.joined c k) then Net.fail EISCONN (-1) k
  else if decide (served t port k ∧ 0 < Net.room k) then (0, Net.set_backlog (backlog k ++ [c]) k)
  else Net.fail Net.ECONNREFUSED (-1) k.

Definition send (c : Z) (data : list byte) (k : net) : Z * net :=
  if Net.gone c k then Net.fail EBADF (-1) k
  else
    match routes k !! c with
    | Some h =>
        if decide (h ∈ server_fds k)
        then (len data, Net.set_sent (<[c := Net.at_ (c_sent k) c ++ data]> (c_sent k)) k)
        else Net.fail Net.EPIPE (-1) k
    | None =>
        if decide (c ∈ backlog k)
        then (len data, Net.set_sent (<[c := Net.at_ (c_sent k) c ++ data]> (c_sent k)) k)
        else Net.fail ENOTCONN (-1) k
    end.

(** Somebody may accept [c] some time. *)
Definition hopeful (c : Z) (k : net) : bool :=
  bool_decide (c ∈ backlog k) && bool_decide (listening k ∩ server_fds k ≠ ∅).

(** recv(2), as far as it goes without waiting. *)
Definition recv (c n : Z) (k : net) : Z * list byte * net :=
  if Net.gone c k then Net.fail EBADF (-1, []) k
  else
    match routes k !! c with
    | Some h =>
        let arrived := Net.downward c h k in
        if decide (arrived = []) then
          if decide (h ∈ server_fds k) then Net.fail EAGAIN (-1, []) k else ((0, []), k)
        else
          let bs := take (Z.to_nat n) arrived in
          ((len bs, bs), Net.set_fetched (<[c := Net.at_ (c_got k) c ++ bs]> (c_got k)) k)
    | None => Net.fail (if hopeful c k then EAGAIN else ENOTCONN) (-1, []) k
    end.

(** A client that calls it now would have to wait. *)
Definition would_wait (c : Z) (k : net) : bool :=
  negb (Net.gone c k) &&
  match routes k !! c with
  | Some h => bool_decide (Net.downward c h k = []) && bool_decide (h ∈ server_fds k)
  | None => hopeful c k
  end.

Definition close (mine : bool) (c : Z) (k : net) : Z * net :=
  (0, own mine (λ o, o ∖ {[c]}) k).

End Client.

(** ** What they leave to the server *)

(** The server's side is as it was, but for what is on its way. *)
Record unseen (k k' : net) : Prop := {
  us_looks : looks k' = looks k;
  us_hiccups : hiccups k' = hiccups k;
  us_server : server_fds k' = server_fds k;
  us_got : s_got k' = s_got k;
  us_gave : s_gave k' = s_gave k;
  us_listening : listening k' = listening k;
  us_port : net_port k' = net_port k;
  us_stop : stop_flag k' = stop_flag k;
  us_peers : peers k' = peers k;
}.

#[export] Instance unseen_preorder : PreOrder unseen.
Proof. split; [by constructor|]. intros x y z [] []. constructor; congruence. Qed.

Lemma unseen_keeps `{!Clock} k k' : unseen k k' → keeps k k'.
Proof. intros []. split; [done|]. intros s. simpl. by rewrite us_got0, us_gave0. Qed.

Lemma client_unseen mine t c port n data k :
  unseen k (Client.socket mine k).2 ∧ unseen k (Client.connect t c port k).2 ∧
  unseen k (Client.send c data k).2 ∧ unseen k (Client.recv c n k).2 ∧
  unseen k (Client.close mine c k).2.
Proof.
  split; [|split; [|split; [|split]]].
  - unfold Client.socket, Client.own. destruct (_ <=? 0), mine; by constructor.
  - unfold Client.connect. repeat case_match; by constructor.
  - unfold Client.send. repeat case_match; by constructor.
  - unfold Client.recv. repeat case_match; by constructor.
  - unfold Client.close, Client.own. destruct mine; by constructor.
Qed.

(** ** The network stays sound *)

Section sound.
Context `{params : !ServerParams, !Clock}.
Implicit Types k : net.

Lemma own_open mine f k x :
  (∀ o, f o ⊆ o) → x ∈ Net.open_of (Client.own mine f k) → x ∈ Net.open_of k.
Proof.
  intros Hf. unfold Net.open_of, Client.own. destruct mine; simpl; rewrite !elem_of_union.
  - specialize (Hf (client_fds k) x). tauto.
  - specialize (Hf (other_fds k) x). tauto.
Qed.

Lemma sound_own mine f k :
  (∀ x, x ∈ Net.open_of (Client.own mine f k) → x < next_fd k) → sound k → sound (Client.own mine f k).
Proof. intros Hf []. unfold Client.own in *. by destruct mine; constructor. Qed.

Lemma sound_client_close mine c k : sound k → sound (Client.close mine c k).2.
Proof.
  intros Hs. apply sound_own; [|done]. intros x Hx. apply (nt_fds _ Hs). revert Hx.
  apply own_open. intros o y. rewrite elem_of_difference. tauto.
Qed.

(** A descriptor that nobody has had. *)
Lemma sound_new_fd k :
  sound k → 0 < Net.room k →
  sound (Net.set_next_fd (Z.succ (next_fd k)) (Net.set_sent (delete (next_fd k) (c_sent k))
    (Net.set_fetched (delete (next_fd k) (c_got k)) k))).
Proof.
  intros Hs Hr. unfold Net.room in Hr. rewrite (sound_fresh _ Hs) in Hr. destruct Hs.
  assert (∀ h, peers k !! h ≠ Some (next_fd k)) as Hn by (intros h Hp; destruct (nt_old h _ Hp); lia).
  constructor; simpl; try done.
  - intros x Hx. specialize (nt_fds x Hx). lia.
  - intros h c Hp. destruct (nt_old h c Hp). lia.
  - intros c Hc. destruct (nt_waiting c Hc). split; [lia|done].
  - intros c Hc. unfold Net.at_ in *. rewrite !at_delete. case_decide; [done|]. by apply nt_idle.
  - intros h c Hp. unfold Net.at_ in *. rewrite at_delete, decide_False by (intros <-; by destruct (Hn h)).
    by apply nt_up.
  - intros h c Hp. unfold Net.at_ in *. rewrite at_delete, decide_False by (intros <-; by destruct (Hn h)).
    by apply nt_down.
  - intros h Hh. destruct (nt_listening h Hh). split; [lia|done].
  - destruct nt_room. split; lia.
  - intros c. unfold Net.at_ in *. rewrite at_delete. case_decide; [apply polite_nil|apply nt_polite].
Qed.

Lemma sound_client_socket mine k : sound k → sound (Client.socket mine k).2.
Proof.
  intros Hs. unfold Client.socket. destruct (Z.leb_spec (Net.room k) 0); [by apply sound_errno|].
  rewrite sound_fresh by done. cbn [snd]. apply sound_own; [|by apply sound_new_fd].
  intros x Hx. simpl. assert (x = next_fd k ∨ x ∈ Net.open_of k) as [->|Ho]; [|lia|].
  - revert Hx. unfold Client.own, Net.open_of. destruct mine; simpl; rewrite !elem_of_union, elem_of_singleton; tauto.
  - pose proof (nt_fds _ Hs x Ho). lia.
Qed.

Lemma sound_connect t c port k : sound k → sound (Client.connect t c port k).2.
Proof.
  intros Hs. unfold Client.connect. destruct (Net.gone c k) eqn:Hg; [by apply sound_errno|].
  case_decide as Hc; [by apply sound_errno|]. unfold Net.joined in Hc.
  case_decide as Hr; [|by apply sound_errno]. destruct Hr as [_ Hr].
  unfold Net.room in Hr. rewrite (sound_fresh _ Hs) in Hr. simpl.
  assert (c < next_fd k) as Hlt.
  { apply (nt_fds _ Hs). unfold Net.gone in Hg. apply bool_decide_eq_false in Hg.
    apply dec_stable in Hg. unfold Net.open_of. rewrite !elem_of_union in *. tauto. }
  assert (c ∉ backlog k) as Hnb by tauto. assert (routes k !! c = None) as Hnr by (apply eq_None_not_Some; tauto).
  destruct Hs. constructor; simpl; try done.
  - apply NoDup_app. split; [done|]. split; [|apply NoDup_singleton]. by intros x Hx ->%list_elem_of_singleton.
  - intros x [Hx|Hx]%elem_of_app; [by apply nt_waiting|]. apply list_elem_of_singleton in Hx as ->. done.
  - intros x Hx. destruct (nt_idle x Hx) as [? Hi]. split; [done|]. intros Hn. apply Hi.
    intros Hb. apply Hn, elem_of_app. by left.
  - destruct nt_room as [? Hn]. rewrite length_app. simpl. split; lia.
Qed.

Lemma sound_client_send c data k :
  sound k → polite (Net.at_ (c_sent k) c ++ data) → sound (Client.send c data k).2.
Proof.
  intros Hs Hp. unfold Client.send. destruct (Net.gone c k); [by apply sound_errno|].
  assert ((c ∈ backlog k ∨ is_Some (routes k !! c)) →
    sound (Net.set_sent (<[c := Net.at_ (c_sent k) c ++ data]> (c_sent k)) k)) as Hsent.
  { intros Hc. destruct Hs. constructor; simpl; try done; intros x.
    - intros Hx. destruct (nt_idle x Hx) as [? Hi]. split; [done|]. unfold Net.at_. rewrite at_insert.
      case_decide; [|done]. subst x. intros Hn. destruct Hc as [Hc|[h Hc]]; [done|]. by rewrite Hx in Hc.
    - intros c' Hp'. unfold Net.at_. rewrite at_insert. case_decide; [|by apply nt_up].
      subst c'. etrans; [by apply nt_up|]. by apply prefix_app_r.
    - unfold Net.at_. rewrite at_insert. case_decide; [done|apply nt_polite]. }
  destruct (routes k !! c) as [h|] eqn:E; case_decide; try (by apply sound_errno); apply Hsent; eauto.
Qed.

Lemma sound_client_recv c n k : sound k → sound (Client.recv c n k).2.
Proof.
  intros Hs. unfold Client.recv. destruct (Net.gone c k); [by apply sound_errno|].
  destruct (routes k !! c) as [h|] eqn:E; [|by apply sound_errno].
  case_decide; [by case_decide; [apply sound_errno|]|]. simpl.
  apply (nt_links _ Hs) in E. destruct (nt_down _ Hs h c E) as [more Em].
  destruct Hs. constructor; simpl; try done.
  - intros x Hx. unfold Net.at_. rewrite at_insert. destruct (nt_idle x Hx) as [Hg Hi].
    split; [|done]. case_decide; [|done]. subst x. apply nt_links in E. by rewrite E in Hx.
  - intros h' c' Hp. unfold Net.at_ in *. rewrite at_insert. case_decide; [|by apply nt_down].
    subst c'. apply nt_links in E, Hp. rewrite E in Hp. injection Hp as <-.
    unfold Net.downward, Net.at_. rewrite Em, drop_app_length. apply prefix_app, prefix_take.
Qed.
End sound.

(** ** What the server will have to do *)

Lemma map_sum_bump f f' m c o n :
  (∀ h, m !! h = Some c ↔ o = Some h) → (∀ h c', c' ≠ c → f' h c' = f h c') →
  (∀ h, o = Some h → f' h c ≤ f h c + n)%nat →
  (map_sum f' m ≤ map_sum f m + if o is Some _ then n else 0)%nat.
Proof.
  intros Ho Hf Hc. destruct o as [h|].
  - assert (m !! h = Some c) as Hh by by apply Ho. rewrite !(map_sum_delete _ m h c Hh).
    specialize (Hc h eq_refl). assert (map_sum f' (delete h m) ≤ map_sum f (delete h m))%nat; [|lia].
    apply map_sum_mono. intros h' c' [Hne Hp]%lookup_delete_Some. rewrite Hf; [done|].
    intros ->. apply Ho in Hp. congruence.
  - rewrite Nat.add_0_r. apply map_sum_mono. intros h c' Hp. rewrite Hf; [done|]. intros ->. by apply Ho in Hp.
Qed.

Lemma sum_list_bump (f f' : Z → nat) l c n :
  NoDup l → (∀ c', c' ≠ c → f' c' = f c') → (f' c ≤ f c + n)%nat →
  (sum_list (f' <$> l) ≤ sum_list (f <$> l) + if bool_decide (c ∈ l) then n else 0)%nat.
Proof.
  intros Hd Hf Hc. induction Hd as [|x l Hx Hl IH]; simpl; [lia|].
  destruct (decide (x = c)) as [->|Hne].
  - rewrite (bool_decide_false (c ∈ l)) in IH by done. rewrite bool_decide_true by by left.
    unfold fmap in *. lia.
  - rewrite (bool_decide_ext (c ∈ x :: l) (c ∈ l)) by (rewrite elem_of_cons; split; [intros [E|?]; [by destruct Hne|done]|by right]).
    rewrite Hf by done. unfold fmap in *. lia.
Qed.

(** [n] bytes and connections more. *)
Definition costs (n : nat) (k k' : net) : Prop :=
  (in_flight k' + waiting k' ≤ in_flight k + waiting k + n)%nat ∧ (undone k' ≤ undone k + 2 * n)%nat.

Lemma costs_same k k' :
  hiccups k' = hiccups k → peers k' = peers k → backlog k' = backlog k → s_got k' = s_got k →
  s_gave k' = s_gave k → (∀ c, (length (Net.at_ (c_sent k') c) ≤ length (Net.at_ (c_sent k) c))%nat) →
  costs 0 k k'.
Proof.
  intros E0 E1 E2 E3 E4 Hs.
  assert (∀ f f' : Z → nat, (∀ c, f' c ≤ f c)%nat →
    ∀ l : list Z, (sum_list (f' <$> l) ≤ sum_list (f <$> l))%nat) as Hl.
  { intros f f' Hf l. induction l as [|c l IH]; simpl; [done|]. specialize (Hf c). unfold fmap in *. lia. }
  unfold costs, undone, in_flight, waiting, unserved, Net.upward. rewrite E0, E1, E2, E3, E4.
  split; rewrite ?Nat.add_0_r; repeat apply Nat.add_le_mono; try done; try (apply Hl; intros c);
    try (apply map_sum_mono; intros h c _); specialize (Hs c); rewrite ?length_drop; lia.
Qed.

Section costs.
Context `{params : !ServerParams, !Clock}.
Implicit Types k : net.

Lemma socket_costs mine k : sound k → costs 0 k (Client.socket mine k).2.
Proof.
  intros Hs. unfold Client.socket, Client.own.
  destruct (_ <=? 0); [by apply costs_same|].
  destruct mine; apply costs_same; try done; intros c; simpl; unfold Net.at_; rewrite at_delete;
    case_decide; simpl; lia.
Qed.

Lemma connect_costs t c port k : sound k → costs 1 k (Client.connect t c port k).2.
Proof.
  intros Hs. unfold Client.connect.
  assert (∀ e, costs 1 k (Net.set_errno e k)) as He.
  { intros e. destruct (costs_same k (Net.set_errno e k)) as [? ?]; try done. split; lia. }
  destruct (Net.gone c k); [by apply He|]. case_decide as Hc; [by apply He|]. unfold Net.joined in Hc. case_decide; [|by apply He].
  destruct (nt_idle _ Hs c) as [_ Hi]; [apply eq_None_not_Some; tauto|]. specialize (Hi ltac:(tauto)).
  unfold costs, undone, in_flight, waiting, unserved, Net.upward. simpl.
  rewrite !fmap_app, !sum_list_with_app. simpl. rewrite Hi. simpl. unfold fmap. lia.
Qed.

Lemma client_send_costs c data k :
  sound k → costs (length data) k (Client.send c data k).2.
Proof.
  intros Hs. unfold Client.send.
  assert (∀ e, costs (length data) k (Net.set_errno e k)) as He.
  { intros e. destruct (costs_same k (Net.set_errno e k)) as [? ?]; try done. split; lia. }
  destruct (Net.gone c k); [by apply He|].
  assert (∀ o, routes k !! c = o → (if o is Some _ then True else c ∈ backlog k) →
    costs (length data) k (Net.set_sent (<[c := Net.at_ (c_sent k) c ++ data]> (c_sent k)) k)) as Hsent.
  { intros o Ho Hor.
    assert (∀ h, peers k !! h = Some c ↔ o = Some h) as Hp by (intros h; by rewrite (nt_links _ Hs), Ho).
    set (k' := Net.set_sent _ _).
    assert (Net.at_ (c_sent k') c = Net.at_ (c_sent k) c ++ data) as Ec
      by (unfold k', Net.at_; simpl; by rewrite at_insert, decide_True).
    assert (∀ c', c' ≠ c → Net.at_ (c_sent k') c' = Net.at_ (c_sent k) c') as En
      by (intros c' Hc'; unfold k', Net.at_; simpl; by rewrite at_insert, decide_False).
    pose proof (map_sum_bump (λ h c, length (Net.upward h c k)) (λ h c, length (Net.upward h c k')) (peers k) c o (length data) Hp) as H1.
    pose proof (map_sum_bump (λ h c, unserved h c k) (λ h c, unserved h c k') (peers k) c o (2 * length data) Hp) as H2.
    pose proof (sum_list_bump (λ c, S (length (Net.at_ (c_sent k) c))) (λ c, S (length (Net.at_ (c_sent k') c))) (backlog k) c (length data) (nt_distinct _ Hs)) as H3.
    pose proof (sum_list_bump (λ c, 2 + 2 * length (Net.at_ (c_sent k) c))%nat (λ c, 2 + 2 * length (Net.at_ (c_sent k') c))%nat (backlog k) c (2 * length data) (nt_distinct _ Hs)) as H4.
    unfold costs, undone, in_flight, waiting.
    change (peers k') with (peers k). change (backlog k') with (backlog k). change (hiccups k') with (hiccups k).
    unfold unserved, Net.upward in *. change (s_got k') with (s_got k) in *. change (s_gave k') with (s_gave k) in *.
    specialize (H1 ltac:(intros h c' Hc'; by rewrite En) ltac:(intros h _; rewrite Ec, !length_drop, length_app; lia)).
    specialize (H2 ltac:(intros h c' Hc'; by rewrite En) ltac:(intros h _; rewrite Ec, !length_drop, length_app; lia)).
    specialize (H3 ltac:(intros c' Hc'; by rewrite En) ltac:(rewrite Ec, length_app; lia)).
    specialize (H4 ltac:(intros c' Hc'; by rewrite En) ltac:(rewrite Ec, length_app; lia)).
    assert (is_Some o → c ∉ backlog k) as Hx.
    { intros [h ->] Hb. destruct (nt_waiting _ Hs c Hb) as [_ ?]. congruence. }
    destruct o as [h|]; case_bool_decide as Hb; try (by destruct (Hx (ex_intro _ h eq_refl))); lia. }
  destruct (routes k !! c) as [h|] eqn:E; case_decide; try apply He; by apply (Hsent _ eq_refl).
Qed.

Lemma client_recv_costs c n k : costs 0 k (Client.recv c n k).2.
Proof.
  unfold Client.recv. repeat case_match; by apply costs_same.
Qed.

Lemma client_close_costs mine c k : costs 0 k (Client.close mine c k).2.
Proof. unfold Client.close, Client.own. destruct mine; by apply costs_same. Qed.
End costs.

(** ** What they leave to each other *)

(** Only descriptor [c] is concerned. *)
Record concerns (c : Z) (k k' : net) : Prop := {
  cn_sent c' : c' ≠ c → Net.at_ (c_sent k') c' = Net.at_ (c_sent k) c';
  cn_got c' : c' ≠ c → Net.at_ (c_got k') c' = Net.at_ (c_got k) c';
  cn_joined c' : c' ≠ c → Net.joined c' k' ↔ Net.joined c' k;
}.

Lemma socket_concerns mine k : concerns (Client.socket mine k).1 k (Client.socket mine k).2.
Proof.
  unfold Client.socket, Client.own. destruct (_ <=? 0); [by constructor|].
  destruct mine; (constructor; simpl; [intros c Hc; unfold Net.at_; by rewrite at_delete, decide_False..|done]).
Qed.

Lemma connect_concerns t c port k : concerns c k (Client.connect t c port k).2.
Proof.
  unfold Client.connect. destruct (Net.gone c k); [done|]. case_decide; [done|]. case_decide; [|done].
  constructor; try done. intros c' Hc'. unfold Net.joined. simpl. rewrite elem_of_app, list_elem_of_singleton.
  split; [intros [[?|?]|?]; [by left|done|by right]|intros [?|?]; [by left; left|by right]].
Qed.

Lemma send_concerns c data k : concerns c k (Client.send c data k).2.
Proof.
  unfold Client.send. destruct (Net.gone c k); [done|].
  destruct (routes k !! c) as [h|]; case_decide; try done.
  all: constructor; try done; intros c' Hc'; simpl; unfold Net.at_; by rewrite at_insert, decide_False.
Qed.

Lemma recv_concerns c n k : concerns c k (Client.recv c n k).2.
Proof.
  unfold Client.recv. destruct (Net.gone c k); [done|]. destruct (routes k !! c) as [h|]; [|done].
  case_decide; [by case_decide|].
  constructor; try done; intros c' Hc'; simpl; unfold Net.at_; by rewrite at_insert, decide_False.
Qed.

Lemma close_concerns mine c k : concerns c k (Client.close mine c k).2.
Proof. unfold Client.close, Client.own. by destruct mine. Qed.

(** ** What they answer *)

Section answers.
Context `{params : !ServerParams, !Clock}.
Implicit Types k : net.

Lemma fresh_not_joined k : sound k → ¬ Net.joined (next_fd k) k.
Proof.
  intros Hs [Hw|[h Hh]].
  - destruct (nt_waiting _ Hs _ Hw). lia.
  - apply (nt_links _ Hs), (nt_old _ Hs) in Hh. lia.
Qed.

Lemma client_socket_run mine k :
  sound k → 0 < Net.room k →
  ∃ k', Client.socket mine k = (next_fd k, k') ∧ next_fd k' = Z.succ (next_fd k) ∧ backlog k' = backlog k ∧
    client_fds k' = (if mine then {[next_fd k]} ∪ client_fds k else client_fds k) ∧
    other_fds k' = (if mine then other_fds k else {[next_fd k]} ∪ other_fds k) ∧
    Net.at_ (c_sent k') (next_fd k) = [] ∧ Net.at_ (c_got k') (next_fd k) = [] ∧ ¬ Net.joined (next_fd k) k'.
Proof.
  intros Hs Hr. unfold Client.socket. rewrite (proj2 (Z.leb_gt _ _)), (sound_fresh _ Hs) by done.
  eexists. split; [done|].
  pose proof (fresh_not_joined k Hs) as Hj.
  unfold Client.own, Net.at_. destruct mine; simpl; rewrite !at_delete, !decide_True by done; repeat split; exact Hj.
Qed.

Lemma client_connect_run t c port k :
  Net.gone c k = false → ¬ Net.joined c k → Client.served t port k → 0 < Net.room k →
  Client.connect t c port k = (0, Net.set_backlog (backlog k ++ [c]) k).
Proof.
  intros Hg Hj Hv Hr. unfold Client.connect. by rewrite Hg, decide_False, decide_True.
Qed.

(** A connection that its server keeps open takes all it is given. *)
Lemma client_send_run c data k :
  Net.gone c k = false → Net.joined c k → (∀ h, routes k !! c = Some h → h ∈ server_fds k) →
  Client.send c data k = (len data, Net.set_sent (<[c := Net.at_ (c_sent k) c ++ data]> (c_sent k)) k).
Proof.
  intros Hg Hj Hr. unfold Client.send. rewrite Hg. destruct (routes k !! c) as [h|] eqn:E.
  - rewrite decide_True; [done|by apply Hr].
  - rewrite decide_True; [done|]. destruct Hj as [?|[? ?]]; [done|congruence].
Qed.

Lemma client_recv_run c n k :
  Net.gone c k = false → Net.joined c k → (∀ h, routes k !! c = Some h → h ∈ server_fds k) →
  Client.would_wait c k = false → listening k ∩ server_fds k ≠ ∅ → 0 < n →
  ∃ bs, bs ≠ [] ∧ Client.recv c n k = ((len bs, bs), Net.set_fetched (<[c := Net.at_ (c_got k) c ++ bs]> (c_got k)) k).
Proof.
  intros Hg Hj Hr. unfold Client.would_wait, Client.recv, Client.hopeful. rewrite Hg. simpl.
  destruct (routes k !! c) as [h|] eqn:E.
  - rewrite (bool_decide_true (h ∈ _)), andb_true_r by by apply Hr. intros Hd%bool_decide_eq_false _ Hn.
    rewrite decide_False by done. eexists. split; [|done].
    destruct (Net.downward c h k); [done|]. destruct (Z.to_nat n) eqn:En; [lia|done].
  - intros Hw Hl _. rewrite bool_decide_true, bool_decide_true in Hw; [done|done|].
    destruct Hj as [?|[? ?]]; [done|congruence].
Qed.
End answers.
