(* ===== verification/EchoSystem.v ===== *)
(** * The server and its clients together

    [run_server] in a thread of its own, and clients that call it, on the network
    of Net.v.  The server goes on a turn of its loop at a time ([server_turn]);
    what else happens before each call of the client that is looked at is a plan
    that is given: turns of the server, and other clients that come, send frames,
    read and leave.  A client whose recv(2) has to wait lets the server take turns
    until there is something.

    Here are the system, its kernel for the client, and that the thread is
    [run_server]; EchoAlive.v shows that it is an echo server to the client. *)

From S2P Require Import Prelude Vector FrameCodec Os Socket Connection SocketIO Poller Acceptor Dispatcher.
From S2P Require Import EchoServer Footprint EchoWorld EchoInvariant EchoLoop EchoPeer EchoClient Net NetTurn NetClient.

(** What the server's thread is run with. *)
Class ServerRun `{params : !ServerParams} := {
  run_target : target;
  run_sig : nat;
  run_fuel : nat;
  run_fits : fits run_target k_max_payload;
}.

(** ** The thread *)

Inductive thread :=
| Starting
| Serving (a : Acceptor) (port deadline : Z) (events : list Event) (s : server)
| Ended (port completions : Z)
| Crashed (e : stop).

(** What happens besides the calls of the client that is looked at. *)
Inductive happening :=
| ServerTurn
| OtherJoins
| OtherSends (c : Z) (p : list byte)
| OtherReads (c n : Z)
| OtherLeaves (c : Z).

Record system := mkSystem {
  sys_net : net;
  server_thread : thread;
  plan : list (list happening);          (* before each of the coming calls *)
  own_sent : gmap Z (list byte);         (* what the client has seen of its streams *)
  own_got : gmap Z (list byte);
}.

Section system.
Context `{params : !ServerParams, !Clock, !MapOrder Z, !Build, !ServerRun}.

(** Up to the event loop; the time is that of the first look at the clock. *)
Definition start_up : prog net (Acceptor * SelectPoller * Z * Z) :=
  r ← set_up run_target; now ← call_os sys_now; mret (r, now).

(** Up to the event loop, one turn of the loop, or the end. *)
Definition server_turn (th : thread) (k : net) : thread * net :=
  match th with
  | Starting =>
      match start_up k with
      | Done (a, p, port, start) k =>
          (Serving a port (start + k_deadline_ms) no_events (first_state p), k)
      | Stop e => (Crashed e, k)
      end
  | Serving a port deadline events s =>
      match serve_turn run_target run_sig run_fuel a deadline events s k with
      | Done (Some (events, s)) k => (Serving a port deadline events s, k)
      | Done None k =>
          match close_down a port s k with
          | Done (port, completions) k => (Ended port completions, k)
          | Stop e => (Crashed e, k)
          end
      | Stop e => (Crashed e, k)
      end
  | Ended _ _ | Crashed _ => (th, k)
  end.

Definition server_step (x : thread * net) : thread * net := server_turn x.1 x.2.

(** Others connect to the server's port and send whole frames. *)
Definition other_joins (k : net) : net :=
  let (c, k) := Client.socket false k in
  if c <? 0 then k else (Client.connect run_target c (ntohs run_target (net_port k)) k).2.

Definition happen (x : thread * net) (h : happening) : thread * net :=
  let (th, k) := x in
  match h with
  | ServerTurn => server_turn th k
  | OtherJoins => (th, other_joins k)
  | OtherSends c p =>
      if decide (c ∈ other_fds k ∧ len p ≤ effective_max_payload k_max_payload)
      then (th, (Client.send c (frame p) k).2) else x
  | OtherReads c n => if decide (c ∈ other_fds k) then (th, (Client.recv c n k).2) else x
  | OtherLeaves c => (th, (Client.close false c k).2)
  end.

Definition attend (st : system) : system :=
  match plan st with
  | [] => st
  | hs :: rest =>
      let (th, k) := foldl happen (server_thread st, sys_net st) hs in
      mkSystem k th rest (own_sent st) (own_got st)
  end.

(** The server takes turns while [c] has to wait; no more than there are looks
    at the clock left before its deadline, and the one to close down. *)
Definition turns_left (th : thread) (k : net) : nat :=
  match th with Serving _ _ deadline _ _ => S (looks_before deadline - looks k) | _ => O end.

Fixpoint wait_for (fuel : nat) (c : Z) (x : thread * net) : thread * net :=
  match fuel with
  | O => x
  | S fuel => if Client.would_wait c x.2 then wait_for fuel c (server_step x) else x
  end.

Definition with_net (k : net) (st : system) : system :=
  mkSystem k (server_thread st) (plan st) (own_sent st) (own_got st).

(** ** The client's calls *)

Definition client_socket (st : system) : Z * system :=
  let st := attend st in
  let (r, k) := Client.socket true (sys_net st) in
  (r, mkSystem k (server_thread st) (plan st)
        (if r <? 0 then own_sent st else delete r (own_sent st))
        (if r <? 0 then own_got st else delete r (own_got st))).

Definition client_connect (c port : Z) (st : system) : Z * system :=
  let st := attend st in
  let (r, k) := Client.connect run_target c port (sys_net st) in (r, with_net k st).

Definition client_send (c : Z) (data : list byte) (st : system) : Z * system :=
  let st := attend st in
  let (r, k) := Client.send c data (sys_net st) in
  (r, mkSystem k (server_thread st) (plan st)
        (<[c := Sim.at_ (own_sent st) c ++ take (Z.to_nat r) data]> (own_sent st)) (own_got st)).

Definition client_recv (c n : Z) (st : system) : Z * list byte * system :=
  let st := attend st in
  let x := (server_thread st, sys_net st) in
  let (th, k) := wait_for (turns_left x.1 x.2) c x in
  let (r, k) := Client.recv c n k in
  (r, mkSystem k th (plan st) (own_sent st) (<[c := Sim.at_ (own_got st) c ++ r.2]> (own_got st))).

Definition client_close (c : Z) (st : system) : Z * system :=
  let st := attend st in
  let (r, k) := Client.close true c (sys_net st) in (r, with_net k st).

(** The calls that the clients do not make do nothing. *)
#[export] Instance system_kernel : Kernel system := {|
  errno st := net_errno (sys_net st);
  sys_socket _ _ _ := client_socket;
  sys_close := client_close;
  sys_fcntl_getfl _ st := (0, st);
  sys_fcntl_setfl _ _ st := (-1, st);
  sys_accept _ st := (-1, st);
  sys_getsockname _ st := ((0, 0), st);
  sys_recv := client_recv;
  sys_send c data _ := client_send c data;
  sys_select _ _ _ st := ((0, mkSets ∅ ∅ ∅), st);
  sys_getaddrinfo _ _ _ _ st := ((0, []), st);
  gai_strerror _ := "name or service not known";
  sys_setsockopt_reuseaddr _ st := (0, st);
  sys_bind _ _ st := (0, st);
  sys_listen _ _ st := (0, st);
  sys_connect := client_connect;
  sys_now st := (0, st);
|}.

#[export] Instance system_observe : Observe system := {|
  open_fds st := client_fds (sys_net st);
  fd_flags _ _ := 0;
  received st := Sim.at_ (own_got st);
  sent st := Sim.at_ (own_sent st);
  signals _ := O;
|}.

(** ** The thread is [run_server] *)

(** Turn by turn. *)
Lemma serve_turns turns a port deadline events s k s' k' :
  serve run_target run_sig turns run_fuel a deadline events s k = Done s' k' →
  ∃ n events1 k1,
    Nat.iter n server_step (Serving a port deadline events s, k) = (Serving a port deadline events1 s', k1) ∧
    serve_turn run_target run_sig run_fuel a deadline events1 s' k1 = Done None k'.
Proof.
  revert events s k. induction turns as [|turns IH]; intros events s k; [done|]. cbn [serve]. intros E.
  apply prog_bind_Done_inv in E as ([[evs s1]|] & k1 & E1 & E).
  - apply IH in E as (n & events1 & k2 & En & E2). exists (S n), events1, k2. split; [|done].
    rewrite Nat.iter_succ_r. unfold server_step at 2. simpl. by rewrite E1.
  - injection E as <- <-. by exists O, events, k.
Qed.

Lemma thread_runs_server k port completed k' :
  run_server run_target run_sig run_fuel k = Done (port, completed) k' →
  ∃ n, Nat.iter n server_step (Starting, k) = (Ended port completed, k').
Proof.
  unfold run_server. intros ([[a p] prt] & k1 & E1 & E)%prog_bind_Done_inv.
  apply prog_bind_Done_inv in E as (start & k2 & E2 & E).
  apply prog_bind_Done_inv in E as (s & k3 & E3 & E4).
  apply (serve_turns _ _ prt) in E3 as (n & events & k4 & En & Et).
  exists (S n + 1)%nat. rewrite Nat.iter_add, Nat.iter_succ. simpl Nat.iter at 2.
  unfold server_step at 3. cbn [fst snd server_turn]. unfold start_up.
  rewrite (prog_bind_Done _ _ _ _ _ E1), (prog_bind_Done _ _ _ _ _ E2). cbn [mret].
  unfold mret, prog_ret. rewrite En. unfold server_step. cbn [fst snd server_turn]. by rewrite Et, E4.
Qed.
End system.

(** ** The laws of a kernel *)

Section laws.
Context `{params : !ServerParams, !Clock, !MapOrder Z, !Build, !ServerRun}.

Lemma Always_Done {A} (R : relation net) (p : prog net A) k a k' : Always R p → p k = Done a k' → R k k'.
Proof. intros Hp. apply Hp. Qed.

(** Whatever the server does, the clients' side is left alone. *)
Lemma server_turn_aside th k : aside k (server_turn th k).2.
Proof.
  destruct th as [|a port deadline events s| |]; simpl; try reflexivity.
  - destruct (start_up k) as [[[[a p] port] start] k1|e] eqn:E; simpl; [|reflexivity].
    eapply Always_Done; [|exact E]. apply Always_bind; [apply _|apply (Always_set_up aside)|]. intros r.
    apply Always_bind; [apply _|apply Always_call; intros; covered|]. intros now. apply Always_ret, _.
  - destruct (serve_turn _ _ _ _ _ _ _ _) as [[[evs s1]|] k1|e] eqn:E; simpl; [| |reflexivity].
    all: eapply (Always_serve_turn aside) in E; [|reflexivity].
    + exact E.
    + destruct (close_down _ _ _ _) as [[prt n] k2|e] eqn:E2; simpl; [|exact E].
      transitivity k1; [exact E|]. by eapply (Always_close_down aside).
Qed.

(** The descriptors of the client that is looked at are left alone by its calls
    on them, and by other clients. *)
Lemma own_other_socket k : client_fds (Client.socket false k).2 = client_fds k.
Proof. unfold Client.socket. by destruct (_ <=? 0). Qed.
Lemma own_connect t c port k : client_fds (Client.connect t c port k).2 = client_fds k.
Proof. unfold Client.connect. by repeat case_match. Qed.
Lemma own_send c data k : client_fds (Client.send c data k).2 = client_fds k.
Proof. unfold Client.send. by repeat case_match. Qed.
Lemma own_recv c n k : client_fds (Client.recv c n k).2 = client_fds k.
Proof. unfold Client.recv. by repeat case_match. Qed.

Lemma happen_own x h : client_fds (happen x h).2 = client_fds x.2.
Proof.
  destruct x as [th k], h as [| |c p|c n|c]; simpl; try case_match;
    try apply own_send; try apply own_recv; try done.
  - apply as_clients, server_turn_aside.
  - unfold other_joins. pose proof (own_other_socket k) as Hs.
    destruct (Client.socket false k) as [c k1]. destruct (c <? 0); [done|]. by rewrite own_connect.
Qed.

Lemma attend_own st :
  client_fds (sys_net (attend st)) = client_fds (sys_net st) ∧
  own_sent (attend st) = own_sent st ∧ own_got (attend st) = own_got st.
Proof.
  unfold attend. destruct (plan st) as [|hs rest]; [done|].
  assert (∀ x, client_fds (foldl happen x hs).2 = client_fds x.2) as Hf.
  { induction hs as [|h hs IH]; intros x; [done|]. simpl. by rewrite IH, happen_own. }
  specialize (Hf (server_thread st, sys_net st)). by destruct (foldl _ _ _).
Qed.

Lemma wait_for_own fuel c x : client_fds (wait_for fuel c x).2 = client_fds x.2.
Proof.
  revert x. induction fuel as [|fuel IH]; intros x; simpl; [done|].
  destruct (Client.would_wait c x.2); [|done]. rewrite IH. apply as_clients, server_turn_aside.
Qed.

Lemma system_socket_law st : opens (client_socket st).1 st (client_socket st).2.
Proof.
  unfold client_socket. destruct (attend_own st) as (Ec & Es & Eg). unfold Client.socket.
  set (st' := attend st) in *. set (r := Net.fresh_fd (sys_net st')).
  destruct (Net.room (sys_net st') <=? 0); simpl.
  { assert (same_streams st (mkSystem (Net.set_errno Sim.EMFILE (sys_net st')) (server_thread st') (plan st')
      (own_sent st') (own_got st'))) as Hst by (intros x; simpl; by rewrite Es, Eg).
    split; [by intros _|]. split; [lia|]. split; [lia|]. intros x _. apply Hst. }
  destruct (fresh_fd_above_net (sys_net st')) as (H3 & _ & Hab). fold r in H3, Hab.
  rewrite (proj2 (Z.ltb_ge _ _)) by lia. unfold opens. simpl. rewrite Ec, Es, Eg.
  split; [lia|]. split; [|split].
  - intros _ Hin. specialize (Hab r). unfold Net.open_of in Hab. rewrite !elem_of_union, Ec in Hab.
    specialize (Hab (or_introl (or_intror Hin))). lia.
  - intros _. split; [done|]. rewrite !at_delete, !decide_True by done. done.
  - intros s Hs. rewrite !at_delete, !decide_False by done. done.
Qed.

Lemma client_recv_result c n k :
  let r := (Client.recv c n k).1 in
  r.1 ≤ Z.max 0 n ∧ len r.2 = Z.max 0 r.1 ∧ (r.1 < 0 → net_errno (Client.recv c n k).2 ≠ EINTR).
Proof.
  unfold Client.recv. destruct (Net.gone c k); [simpl; done || (split; [lia|]; split; [done|by intros])|].
  destruct (routes k !! c) as [h|].
  - case_decide; [case_decide; simpl; (split; [lia|]); (split; [done|]); intros; done|].
    simpl. rewrite length_take. split; [lia|]. split; [lia|]. lia.
  - simpl. split; [lia|]. split; [done|]. by destruct (Client.hopeful c k).
Qed.

Lemma client_send_result c data k :
  let r := Client.send c data k in r.1 ≤ len data ∧ (r.1 < 0 → net_errno r.2 ≠ EINTR).
Proof.
  unfold Client.send. destruct (Net.gone c k); [simpl; split; [lia|done]|].
  destruct (routes k !! c); case_decide; simpl; (split; [lia|]); done || lia.
Qed.

#[export] Instance system_laws : KernelLaws system.
Proof.
  constructor; cbv zeta; intros; simpl; try done.
  - apply system_socket_law.
  - unfold client_close. destruct (attend_own k) as (Ec & Es & Eg). simpl. rewrite Ec. split; [done|].
    intros x. simpl. by rewrite Es, Eg.
  - unfold client_connect. destruct (attend_own k) as (Ec & Es & Eg).
    pose proof (own_connect run_target s p (sys_net (attend k))) as Hc.
    destruct (Client.connect _ _ _ _) as [r k1]. simpl in *. split; simpl; [congruence|].
    intros x. simpl. by rewrite Es, Eg.
  - unfold client_recv. destruct (attend_own k) as (Ec & Es & Eg).
    pose proof (wait_for_own (turns_left (server_thread (attend k)) (sys_net (attend k))) s
      (server_thread (attend k), sys_net (attend k))) as Hw.
    cbn [fst snd]. destruct (wait_for _ _ _) as [th k1]. simpl in Hw.
    pose proof (own_recv s n k1) as Ho. pose proof (client_recv_result s n k1) as Hres.
    destruct (Client.recv s n k1) as [q k2]. simpl in *. destruct Hres as (Hr1 & Hr2 & _). split; [done|]. split; [done|].
    split; [congruence|]. rewrite Eg, at_insert, decide_True by done. split; [done|].
    split; intros s'; [|by rewrite Es]. intros Hs'. by rewrite at_insert, decide_False.
  - unfold client_send. destruct (attend_own k) as (Ec & Es & Eg).
    pose proof (own_send s data (sys_net (attend k))) as Ho.
    pose proof (client_send_result s data (sys_net (attend k))) as Hres.
    destruct (Client.send _ _ _) as [q k2]. simpl in *. destruct Hres as (Hr1 & _). split; [done|].
    split; [congruence|]. rewrite Es, at_insert, decide_True by done. split; [done|].
    split; intros s'; [|by rewrite Eg]. intros Hs'. by rewrite at_insert, decide_False.
  - unfold client_recv. cbn [fst snd]. destruct (wait_for _ _ _) as [th k1].
    pose proof (client_recv_result s n k1) as Hres.
    destruct (Client.recv s n k1) as [q k2]. simpl in *. split; [done|]. intros Hneg E. by apply Hres in Hneg.
  - unfold client_send. pose proof (client_send_result s data (sys_net (attend k))) as Hres.
    destruct (Client.send _ _ _) as [q k2]. simpl in *. split; [done|]. intros Hneg E. by apply Hres in Hneg.
Qed.
End laws.
