(* ===== verification/EchoAlive.v ===== *)
(** * The system is an echo server

    What keeps the server of EchoSystem.v alive and the client served ([alive],
    [peer]), that every call of the client and everything else that happens keeps
    it, and that a client's wait comes to an end; so the system is an [EchoPeer]. *)

From S2P Require Import Prelude Vector FrameCodec Os Socket Connection SocketIO Poller Acceptor Dispatcher.
From S2P Require Import EchoServer Footprint EchoWorld EchoInvariant EchoLoop EchoPeer EchoClient Net NetTurn NetClient EchoSystem.

(** ** An alive server

    On the network of [x], [d] more descriptors, [B] more bytes and connections
    and [T] more turns than necessary will not bring it to an end. *)

Section alive.
Context `{params : !ServerParams, !Clock, !MapOrder Z, !Build, !ServerRun}.
Implicit Types k : net.

Record alive_at (port : Z) (d B T : nat) (a : Acceptor) (deadline : Z) (events : list Event) (s : server)
    (k : net) : Prop := {
  al_serving : serving ∅ (listener_handle a) s k;
  al_signals : (signals k < run_sig)%nat;
  al_work : (work s k + 3 * B < run_fuel)%nat;
  al_volume : Z.of_nat (volume s k + B) ≤ max_size run_target;
  al_events : events ≠ [];
  al_port : ntohs run_target (net_port k) = port;
  al_stop : stop_flag k = false;
  al_time i : (i < looks k + T + todo k + 2 * B)%nat → tick i < deadline;
  al_room : next_fd k + len (backlog k) + Z.of_nat d ≤ Sim.RLIMIT_NOFILE;
  al_apart : client_fds k ## other_fds k;
  al_others c : c ∈ other_fds k → ∃ ps, Forall small ps ∧ Net.at_ (c_sent k) c = frames ps;
}.

Definition alive (port : Z) (d B T : nat) (x : thread * net) : Prop :=
  ∃ a port' deadline events s, x.1 = Serving a port' deadline events s ∧
    alive_at port d B T a deadline events s x.2.

Lemma alive_mono port d B T d' B' T' x :
  (d' ≤ d)%nat → (B' ≤ B)%nat → (T' ≤ T)%nat → alive port d B T x → alive port d' B' T' x.
Proof.
  intros Hd HB HT (a & port' & dl & evs & s & E & []). exists a, port', dl, evs, s. split; [done|].
  constructor; try done; try lia. intros i Hi. apply al_time0. lia.
Qed.

(** A turn of the server. *)
Lemma alive_at_turn port d B T T' a port' dl evs s k :
  alive_at port d B T a dl evs s k → tick (looks k) < dl →
  ∃ evs' s' k', server_turn (Serving a port' dl evs s) k = (Serving a port' dl evs' s', k') ∧
    aside k k' ∧ (∀ c, Net.joined c k' ↔ Net.joined c k) ∧ looks k' = S (looks k) ∧
    (todo k' ≤ todo k)%nat ∧ (¬ idle s k → (todo k' < todo k)%nat) ∧
    ((S (looks k) + T' + todo k' ≤ looks k + T + todo k)%nat → alive_at port d B T' a dl evs' s' k').
Proof.
  intros [Hsv Hsig Hw Hv He Hp Hst Ht Hr Hap Ho] Htick.
  assert (stop_flag k && bool_decide (slots s = []) = false) as Hgo by by rewrite Hst.
  destruct (serve_turn_net run_target run_sig run_fits ∅ (listener_handle a) run_fuel a dl evs s k Hsv)
    as (evs' & s' & k' & E & Hevs & Hsv' & [Hsig' _ _] & Has & Htn & Hsh & Hless); [constructor; lia|done..|].
  exists evs', s', k'. destruct Hsh as [_ Hv' Hw']. pose proof (tn_looks _ _ Htn) as Hl. simpl in Hl.
  split; [simpl; by rewrite E|]. split; [done|]. split; [apply (tn_joined _ _ Htn)|]. split; [done|].
  split; [apply (tn_todo _ _ Htn)|]. split; [intros Hid; apply Hless; by right|]. intros Hb.
  pose proof (tn_room _ _ Htn) as Hrm. simpl in Hrm. destruct Has as [Es Eg Ec Eo Est Epo].
  constructor; try done; rewrite ?Es, ?Eg, ?Ec, ?Eo, ?Est, ?Epo; try done; try lia.
  intros i Hi. apply Ht. lia.
Qed.

(** Bytes or connections of a client, for one that is looked at or for another. *)
Lemma alive_at_client port d B T a dl evs s k k' n e :
  alive_at port (d + e) (B + n) T a dl evs s k →
  unseen k k' → sound k' → costs n k k' → (∀ c, Net.gone c k' = false → Net.gone c k = false ∨ next_fd k ≤ c) →
  next_fd k' + len (backlog k') ≤ next_fd k + len (backlog k) + Z.of_nat e →
  client_fds k' ## other_fds k' →
  (∀ c, c ∈ other_fds k' → ∃ ps, Forall small ps ∧ Net.at_ (c_sent k') c = frames ps) →
  alive_at port d B T a dl evs s k'.
Proof.
  intros [[Hok Hs Hat HL] Hsig Hw Hv He Hp Hst Ht Hr _ _] Hun Hs' [Htr Hu] Hg Hrm Hap Ho.
  pose proof (unseen_keeps _ _ Hun) as Hk.
  destruct Hun as [El Eh Ef Egt Egv Eli Epo Est Epe].
  assert (traffic k' ≤ traffic k + n)%nat as Htr' by exact Htr.
  assert (todo k' ≤ todo k + 2 * n)%nat by (unfold todo; rewrite Ef; lia).
  constructor; rewrite ?Est, ?Epo; try done.
  - constructor; try done.
    + destruct (keeps_quiet _ _ Hk) as (? & ? & ?). destruct s as [sl p sc c].
      by eapply (server_ok_quiet _ _ _ (mkServer sl p sc c)).
    + destruct Hat as [Hop Hli]. constructor; [intros h c|intros h]; rewrite Epe, Ef; [|apply Hli].
      intros Hpe [Hgn|Hn]%Hg; [by eapply Hop|]. destruct (nt_old _ Hs _ _ Hpe). lia.
    + by rewrite Eli.
  - simpl in *. by rewrite Eh.
  - unfold work in *. lia.
  - unfold volume in *. lia.
  - intros i Hi. apply Ht. rewrite El in Hi. lia.
  - lia.
Qed.

Lemma gone_false c k : Net.gone c k = false ↔ c ∈ client_fds k ∪ other_fds k.
Proof. unfold Net.gone. rewrite bool_decide_eq_false. split; [apply dec_stable|auto]. Qed.

(** ** The calls of a client, while the server is alive *)

Section calls.
Context (port : Z) (d B T : nat) (a : Acceptor) (dl : Z) (evs : list Event) (s : server) (k : net).
Abbreviation alive_at d B := (alive_at port d B T a dl evs s).

Lemma alive_socket mine :
  alive_at (d + 1) B k →
  alive_at d B (Client.socket mine k).2 ∧ 0 < Net.room k ∧ sound k.
Proof.
  intros Hk. pose proof Hk as [[_ Hs _ _] _ _ _ _ _ _ _ Hr Hap Ho].
  assert (0 < Net.room k) as Hroom by (unfold Net.room; rewrite (sound_fresh _ Hs); lia).
  split; [|done].
  destruct (client_socket_run mine k Hs Hroom) as (k' & E & En & Eb & Ec & Eo & Es & _).
  assert (∀ x, x ∈ client_fds k ∪ other_fds k → x < next_fd k) as Hlt.
  { intros x Hx. apply (nt_fds _ Hs). unfold Net.open_of. rewrite !elem_of_union in *. tauto. }
  pose proof (socket_concerns mine k) as Hcn. pose proof (sound_client_socket mine k Hs) as Hs'.
  pose proof (socket_costs mine k Hs) as Hco. destruct (client_unseen mine run_target 0 0 0 [] k) as [Hun _].
  rewrite E in *. cbn [fst snd] in *.
  eapply (alive_at_client _ _ _ _ _ _ _ _ k k' 0 1); rewrite ?Nat.add_0_r; try done.
  - intros c Hg%gone_false. rewrite gone_false. rewrite Ec, Eo in Hg.
    destruct mine; rewrite !elem_of_union, ?elem_of_singleton in *; destruct Hg as [[?|?]|?] || destruct Hg as [?|[?|?]]; auto; right; lia.
  - rewrite En, Eb. lia.
  - rewrite Ec, Eo. assert (next_fd k ∉ client_fds k ∪ other_fds k) as Hn by (intros Hx%Hlt; lia).
    rewrite elem_of_union in Hn. destruct mine; intros x; specialize (Hap x); rewrite ?elem_of_union, ?elem_of_singleton;
      intros Hx Hy; destruct (decide (x = next_fd k)) as [->|]; tauto.
  - intros c Hc. destruct (decide (c = next_fd k)) as [->|Hne]; [exists []; by rewrite Es|].
    rewrite (cn_sent _ _ _ Hcn) by done. apply Ho. rewrite Eo in Hc. destruct mine; [done|].
    apply elem_of_union in Hc as [?%elem_of_singleton|?]; done.
Qed.

(** Calls that hand out no descriptor. *)
Lemma alive_same_fds k' n e :
  alive_at (d + e) (B + n) k → unseen k k' → sound k' → costs n k k' →
  next_fd k' = next_fd k → len (backlog k') ≤ len (backlog k) + Z.of_nat e →
  client_fds k' ⊆ client_fds k → other_fds k' ⊆ other_fds k →
  (∀ c, c ∈ other_fds k' → ∃ ps, Forall small ps ∧ Net.at_ (c_sent k') c = frames ps) → alive_at d B k'.
Proof.
  intros Hk Hun Hs Hc En Eb Ec Eo Ho. pose proof (al_apart _ _ _ _ _ _ _ _ _ Hk) as Hap.
  eapply (alive_at_client _ _ _ _ _ _ _ _ k k' n e); try done; [|lia|].
  - intros c Hg. left. rewrite gone_false in *. rewrite elem_of_union in *. destruct Hg; auto.
  - intros x Hx Hy. by apply (Hap x); [apply Ec|apply Eo].
Qed.

Lemma alive_connect c q :
  alive_at (d + 1) (B + 1) k → alive_at d B (Client.connect run_target c q k).2.
Proof.
  intros Hk. pose proof Hk as [[_ Hs _ _] _ _ _ _ _ _ _ _ _ Ho].
  destruct (client_unseen true run_target c q 0 [] k) as (_ & Hun & _).
  pose proof (sound_connect run_target c q k Hs) as Hs'. pose proof (connect_costs run_target c q k Hs) as Hc.
  eapply (alive_same_fds _ 1 1 Hk Hun Hs' Hc); unfold Client.connect; repeat case_match; try done; simpl;
    rewrite ?length_app; simpl; lia.
Qed.

Lemma alive_send c data :
  alive_at d (B + length data) k → polite (Net.at_ (c_sent k) c ++ data) →
  (c ∈ other_fds k → ∃ ps, Forall small ps ∧ Net.at_ (c_sent k) c ++ data = frames ps) →
  alive_at d B (Client.send c data k).2.
Proof.
  intros Hk Hp Hf. pose proof Hk as [[_ Hs _ _] _ _ _ _ _ _ _ _ _ Ho].
  destruct (client_unseen true run_target c 0 0 data k) as (_ & _ & Hun & _).
  pose proof (sound_client_send c data k Hs Hp) as Hs'. pose proof (client_send_costs c data k Hs) as Hc.
  pose proof (send_concerns c data k) as Hcn.
  assert (∀ x, x ∈ other_fds k → ∃ ps, Forall small ps ∧
    Net.at_ (c_sent (Client.send c data k).2) x = frames ps) as Ho'.
  { intros x Hx. destruct (decide (x = c)) as [->|Hne]; [|rewrite (cn_sent _ _ _ Hcn) by done; auto].
    clear Hun Hs' Hc Hcn. unfold Client.send. repeat case_match; simpl; auto;
      unfold Net.at_ in *; rewrite at_insert, decide_True by done; auto. }
  rewrite <- (Nat.add_0_r d) in Hk.
  eapply (alive_same_fds _ (length data) 0 Hk Hun Hs' Hc); try (unfold Client.send; repeat case_match; simpl; done || lia).
  intros x Hx. apply Ho'. revert Hx. unfold Client.send. by repeat case_match.
Qed.

Lemma alive_recv c n : alive_at d B k → alive_at d B (Client.recv c n k).2.
Proof.
  intros Hk. pose proof Hk as [[_ Hs _ _] _ _ _ _ _ _ _ _ _ Ho].
  destruct (client_unseen true run_target c 0 n [] k) as (_ & _ & _ & Hun & _).
  pose proof (sound_client_recv c n k Hs) as Hs'. pose proof (client_recv_costs c n k) as Hc.
  rewrite <- (Nat.add_0_r d), <- (Nat.add_0_r B) in Hk.
  eapply (alive_same_fds _ 0 0 Hk Hun Hs' Hc); unfold Client.recv; repeat case_match; simpl; done || lia.
Qed.

Lemma alive_close mine c : alive_at d B k → alive_at d B (Client.close mine c k).2.
Proof.
  intros Hk. pose proof Hk as [[_ Hs _ _] _ _ _ _ _ _ _ _ _ Ho].
  destruct (client_unseen mine run_target c 0 0 [] k) as (_ & _ & _ & _ & Hun).
  pose proof (sound_client_close mine c k Hs) as Hs'. pose proof (client_close_costs mine c k) as Hc.
  rewrite <- (Nat.add_0_r d), <- (Nat.add_0_r B) in Hk.
  eapply (alive_same_fds _ 0 0 Hk Hun Hs' Hc); unfold Client.close, Client.own; destruct mine; simpl;
    try done; try lia; try apply subset_less.
  intros x Hx. apply Ho. by apply subset_less in Hx.
Qed.
End calls.

(** ** What happens between the calls *)

(** The streams of the client that is looked at are spared. *)
Definition spares (k k' : net) : Prop :=
  client_fds k' = client_fds k ∧
  ∀ c, c ∈ client_fds k → Net.at_ (c_sent k') c = Net.at_ (c_sent k) c ∧
    Net.at_ (c_got k') c = Net.at_ (c_got k) c ∧ (Net.joined c k' ↔ Net.joined c k).

#[export] Instance spares_preorder : PreOrder spares.
Proof.
  split; [by split|]. intros x y z [E1 S1] [E2 S2]. split; [congruence|]. intros c Hc.
  destruct (S1 c Hc) as (<- & <- & J1). rewrite <- E1 in Hc. destruct (S2 c Hc) as (-> & -> & J2).
  by rewrite J2, J1.
Qed.

Lemma aside_spares k k' : aside k k' → (∀ c, Net.joined c k' ↔ Net.joined c k) → spares k k'.
Proof. intros [Es Eg Ec _ _ _] Hj. split; [done|]. intros c _. rewrite Es, Eg. auto. Qed.

Lemma concerns_spares c k k' :
  concerns c k k' → c ∉ client_fds k → client_fds k' = client_fds k → spares k k'.
Proof.
  intros [] Hc E. split; [done|]. intros c' Hc'. assert (c' ≠ c) by congruence. auto.
Qed.

Definition cost_fds (h : happening) : nat := match h with OtherJoins => 2 | _ => 0 end.
Definition cost_bytes (h : happening) : nat :=
  match h with OtherJoins => 1 | OtherSends _ p => 4 + length p | _ => 0 end.
Definition cost_turns (h : happening) : nat := match h with ServerTurn => 1 | _ => 0 end.

Lemma alive_other_joins port d B T a dl evs s k :
  alive_at port (d + 2) (B + 1) T a dl evs s k →
  alive_at port d B T a dl evs s (other_joins k) ∧ spares k (other_joins k).
Proof.
  intros Hk. unfold other_joins. replace (d + 2)%nat with (d + 1 + 1)%nat in Hk by lia.
  destruct (alive_socket _ _ _ _ _ _ _ _ _ false Hk) as (Hk1 & Hr & Hs).
  destruct (client_socket_run false k Hs Hr) as (k1 & E & _ & _ & Ec & _).
  pose proof (socket_concerns false k) as Hcn. rewrite E in *. cbn [fst snd] in *.
  pose proof (nt_room _ Hs) as [? _]. rewrite (proj2 (Z.ltb_ge _ _)) by lia.
  split; [by apply alive_connect|].
  assert (next_fd k ∉ client_fds k) as Hn.
  { intros Hx. assert (next_fd k < next_fd k); [|lia]. apply (nt_fds _ Hs). unfold Net.open_of. rewrite !elem_of_union. auto. }
  transitivity k1; [by eapply concerns_spares|].
  eapply concerns_spares; [apply connect_concerns|by rewrite Ec|apply own_connect].
Qed.

Lemma alive_happen port d B T x h :
  alive port (d + cost_fds h) (B + cost_bytes h) (T + cost_turns h) x →
  alive port d B T (happen x h) ∧ spares x.2 (happen x h).2.
Proof.
  destruct x as [th k]. intros (a & port' & dl & evs & s & Eth & Hk). simpl in Eth, Hk. subst th.
  assert (∀ c, c ∈ other_fds k → c ∉ client_fds k) as Hap
    by (intros c Hc Hc'; exact (al_apart _ _ _ _ _ _ _ _ _ Hk c Hc' Hc)).
  assert (∀ k', alive_at port d B T a dl evs s k' → spares k k' →
    alive port d B T (Serving a port' dl evs s, k') ∧ spares k k') as Hdone
    by (intros k' ? ?; split; [by exists a, port', dl, evs, s|done]).
  destruct h as [| |c p|c n|c]; cbn [cost_fds cost_bytes cost_turns] in Hk; rewrite ?Nat.add_0_r in Hk;
    cbn [happen].
  - destruct (alive_at_turn _ _ _ _ T _ port' _ _ _ _ Hk) as (evs' & s' & k' & E & Has & Hj & _ & Hle & _ & Hal).
    { apply (al_time _ _ _ _ _ _ _ _ _ Hk). lia. }
    rewrite E. split; [|by apply aside_spares]. exists a, port', dl, evs', s'. split; [done|]. apply Hal. lia.
  - apply alive_other_joins in Hk as [? ?]. by apply Hdone.
  - pose proof Hk as Hk0. assert (alive_at port d B T a dl evs s k) as Hk1.
    { destruct Hk. constructor; try done; try lia. intros i Hi. apply al_time0. lia. }
    case_decide as Hc; [|by apply Hdone]. destruct Hc as [Hc Hp].
    destruct (al_others _ _ _ _ _ _ _ _ _ Hk c Hc) as (ps & Hps & Eps).
    assert (Net.at_ (c_sent k) c ++ frame p = frames (ps ++ [p])) as Ef by (by rewrite Eps, frames_snoc).
    assert (Forall small (ps ++ [p])) as Hall by (apply Forall_app_2; [done|by apply Forall_singleton]).
    apply Hdone.
    + apply alive_send; [by rewrite frame_length| |].
      * rewrite Ef. exists (ps ++ [p]). by split.
      * intros _. rewrite Ef. by exists (ps ++ [p]).
    + eapply concerns_spares; [apply send_concerns|by apply Hap|apply own_send].
  - case_decide as Hc; [|by apply Hdone]. apply Hdone; [by apply alive_recv|].
    eapply concerns_spares; [apply recv_concerns|by apply Hap|apply own_recv].
  - apply Hdone; [by apply alive_close|]. split; [done|]. done.
Qed.

(** The costs of all that is planned. *)
Definition total_cost (f : happening → nat) (hs : list happening) : nat := sum_list (f <$> hs).

Lemma alive_happens port d B T x hs :
  alive port (d + total_cost cost_fds hs) (B + total_cost cost_bytes hs) (T + total_cost cost_turns hs) x →
  alive port d B T (foldl happen x hs) ∧ spares x.2 (foldl happen x hs).2.
Proof.
  revert x. induction hs as [|h hs IH]; intros x; unfold total_cost in *; simpl.
  { rewrite !Nat.add_0_r. by split. }
  intros Hx. destruct (alive_happen port (d + total_cost cost_fds hs) (B + total_cost cost_bytes hs)
    (T + total_cost cost_turns hs) x h) as [Hx1 Hs1].
  { unfold total_cost. eapply alive_mono; [..|exact Hx]; unfold fmap; lia. }
  apply IH in Hx1 as [? ?]. split; [done|]. by etrans.
Qed.

(** ** Waiting for a reply *)

(** An open client's connection is kept. *)
Lemma route_open L s k c h :
  serving ∅ L s k → c ∈ client_fds k → routes k !! c = Some h → h ∈ server_fds k.
Proof.
  intros Hsv Hc Hr. apply (at_open _ _ (sg_attached _ _ _ _ Hsv) h c); [by apply (nt_links _ (sg_sound _ _ _ _ Hsv))|].
  apply gone_false, elem_of_union. by left.
Qed.

Lemma listener_open L s k : serving ∅ L s k → listening k ∩ server_fds k ≠ ∅.
Proof.
  intros Hsv E. assert (L ∈ listening k ∩ server_fds k) as Hin; [|rewrite E in Hin; by apply not_elem_of_empty in Hin].
  rewrite (sg_listening _ _ _ _ Hsv). apply elem_of_intersection. split; [by apply elem_of_singleton|].
  change (L ∈ open_fds k). apply (sv_open _ _ _ _ _ (sg_ok _ _ _ _ Hsv)). auto.
Qed.

(** As long as whole frames are not all back, and a client has to wait, there is
    something for the server to do. *)
Lemma wanted_busy L s k c ps :
  serving ∅ L s k → c ∈ client_fds k → Net.at_ (c_sent k) c = frames ps → Forall small ps →
  Net.at_ (c_got k) c ≠ Net.at_ (c_sent k) c → Client.would_wait c k = true → ¬ idle s k.
Proof.
  intros Hsv Hc Es Hps Hne Hw [Hb Hslots]. pose proof Hsv as [Hok Hs Hat HL].
  unfold Client.would_wait in Hw. apply andb_prop in Hw as [_ Hw].
  destruct (routes k !! c) as [h|] eqn:Er.
  2: { unfold Client.hopeful in Hw. rewrite Hb in Hw. apply andb_prop in Hw as [Hw _].
       apply bool_decide_eq_true in Hw. by apply not_elem_of_nil in Hw. }
  apply andb_prop in Hw as [Hd Ho]. apply bool_decide_eq_true in Hd, Ho.
  pose proof (proj2 (nt_links _ Hs h c) Er) as Hp.
  assert (h ∈ handles s) as Hin.
  { apply (sv_open _ _ _ _ _ Hok) in Ho as [He|[->|?]]; [by apply not_elem_of_empty in He| |done].
    destruct (nt_listening _ Hs L) as [_ Hl]; [rewrite HL; by apply elem_of_singleton|]. congruence. }
  apply list_elem_of_fmap in Hin as (slot & -> & Hin).
  destruct (Hslots slot Hin) as [Hwb Hup]. destruct (Hup c Hp) as [Hup' _].
  pose proof (sv_slots _ _ _ _ _ Hok) as Hf. rewrite Forall_forall in Hf.
  destruct (Hf slot Hin) as [[_ _ (qs & E1 & E2 & Hqs) _] Hno]. simpl in E1, E2. rewrite Hwb, app_nil_r in E2.
  destruct (nt_up _ Hs _ _ Hp) as [more Em]. unfold Net.upward in Hup'.
  rewrite Em, drop_app_length in Hup'. rewrite Hup', app_nil_r in Em.
  unfold Net.at_ in *. rewrite E1, Es in Em.
  destruct (frames_rest _ _ _ Em Hps Hqs) as (rs & Erb & Hrs).
  destruct (nt_down _ Hs _ _ Hp) as [more2 Em2]. unfold Net.downward, Net.at_ in *.
  rewrite Em2, drop_app_length in Hd. rewrite Hd, app_nil_r in Em2.
  destruct rs as [|r rs].
  - apply Hne. rewrite Es, <- Em2, E2. rewrite Em, Erb. unfold frames at 2. simpl. by rewrite app_nil_r.
  - unfold no_frame_left in Hno. rewrite Erb in Hno. change (frames (r :: rs)) with (frame r ++ frames rs) in Hno.
    apply Forall_cons in Hrs as [Hr _]. by rewrite decode_ref_frame in Hno.
Qed.

(** The wait comes to an end, with the server alive and something there; and what
    every turn keeps is kept. *)
Lemma alive_wait (P : thread * net → Prop) port d B T fuel c ps x :
  (∀ a port' dl evs s k, alive_at port d B T a dl evs s k → tick (looks k) < dl →
    P (Serving a port' dl evs s, k) → P (server_turn (Serving a port' dl evs s) k)) → P x →
  alive port d B T x → c ∈ client_fds x.2 → Net.at_ (c_sent x.2) c = frames ps → Forall small ps →
  Net.at_ (c_got x.2) c ≠ Net.at_ (c_sent x.2) c → (todo x.2 < fuel)%nat →
  let y := wait_for fuel c x in
  alive port d B T y ∧ spares x.2 y.2 ∧ Client.would_wait c y.2 = false ∧ P y.
Proof.
  intros HP. revert x. induction fuel as [|fuel IH]; intros x HPx Hx Hc Es Hps Hne Hf; [lia|]. cbn [wait_for].
  destruct (Client.would_wait c x.2) eqn:Hw; [|done].
  destruct Hx as (a & port' & dl & evs & s & Eth & Hk). destruct x as [th k]. cbn [fst snd] in *. subst th.
  pose proof (wanted_busy _ _ _ _ _ (al_serving _ _ _ _ _ _ _ _ _ Hk) Hc Es Hps Hne Hw) as Hbusy.
  assert (0 < todo k)%nat as Hpos.
  { unfold todo. pose proof (listener_open _ _ _ (al_serving _ _ _ _ _ _ _ _ _ Hk)) as Hl.
    destruct (decide (size (server_fds k) = 0%nat)) as [Hz|]; [|lia]. destruct Hl.
    apply size_empty_iff in Hz. apply set_eq. intros y. rewrite elem_of_intersection, Hz. split; [tauto|].
    intros Hy. by apply not_elem_of_empty in Hy. }
  destruct (alive_at_turn _ _ _ _ T _ port' _ _ _ _ Hk) as (evs' & s' & k' & E & Has & Hj & _ & _ & Hless & Hal).
  { apply (al_time _ _ _ _ _ _ _ _ _ Hk). lia. }
  assert (P (Serving a port' dl evs' s', k')) as HPx'.
  { rewrite <- E. apply HP; [done| |done]. apply (al_time _ _ _ _ _ _ _ _ _ Hk). lia. }
  specialize (Hless Hbusy). unfold server_step. cbn [fst snd]. rewrite E.
  pose proof (aside_spares _ _ Has Hj) as Hsp. destruct Has as [Es' Eg' Ec' _ _ _].
  destruct (IH (Serving a port' dl evs' s', k')) as (Hy & Hsy & Hwy & HPy); cbn [snd].
  - done.
  - exists a, port', dl, evs', s'. split; [done|]. apply Hal. lia.
  - by rewrite Ec'.
  - by rewrite Es'.
  - done.
  - by rewrite Es', Eg'.
  - lia.
  - split; [done|]. split; [by etrans|done].
Qed.

Lemma alive_turns_left port d B T x : alive port d B T x → (todo x.2 < turns_left x.1 x.2)%nat.
Proof.
  intros (a & port' & dl & evs & s & -> & Hk). simpl. destruct (decide (todo x.2 = 0%nat)) as [|Hz]; [lia|].
  assert (¬ looks_before dl ≤ looks x.2 + (todo x.2 - 1))%nat as Hn; [|lia].
  intros Hle%tick_reaches. pose proof (al_time _ _ _ _ _ _ _ _ _ Hk (looks x.2 + (todo x.2 - 1))%nat). lia.
Qed.

(** ** The system is an echo server *)

(** What is still planned. *)
Definition coming (f : happening → nat) (st : system) : nat := total_cost f (mjoin (plan st)).

(** The server is alive for all that is planned and [d] descriptors and [B] bytes
    and connections besides; and the client knows its streams. *)
Record peer (port : Z) (d B : nat) (st : system) : Prop := {
  pe_alive : alive port (d + coming cost_fds st) (B + coming cost_bytes st) (coming cost_turns st)
    (server_thread st, sys_net st);
  pe_own c : c ∈ client_fds (sys_net st) →
    Sim.at_ (own_sent st) c = Net.at_ (c_sent (sys_net st)) c ∧
    Sim.at_ (own_got st) c = Net.at_ (c_got (sys_net st)) c;
}.

Lemma total_cost_app f hs hs' : total_cost f (hs ++ hs') = (total_cost f hs + total_cost f hs')%nat.
Proof. unfold total_cost. by rewrite fmap_app, sum_list_with_app. Qed.

Lemma peer_attend port d B st :
  peer port d B st → peer port d B (attend st) ∧ spares (sys_net st) (sys_net (attend st)).
Proof.
  intros [Hal Hown]. unfold attend. unfold coming in Hal. destruct (plan st) as [|hs rest] eqn:Ep.
  { split; [|done]. constructor; [|done]. unfold coming. by rewrite Ep. }
  simpl in Hal. rewrite !total_cost_app in Hal.
  destruct (alive_happens port (d + total_cost cost_fds (mjoin rest)) (B + total_cost cost_bytes (mjoin rest))
    (total_cost cost_turns (mjoin rest)) _ hs ltac:(eapply alive_mono; [..|exact Hal]; lia)) as [Hal' Hsp].
  simpl in Hsp. destruct (foldl happen _ hs) as [th k] eqn:E. simpl in *. split; [|done]. destruct Hsp as [Ec Hsp].
  constructor; simpl; [done|]. intros c. rewrite Ec. intros Hc. destruct (Hsp c Hc) as (-> & -> & _). by apply Hown.
Qed.

Definition linked_to (st : system) (c : Z) : Prop :=
  c ∈ client_fds (sys_net st) ∧ Net.joined c (sys_net st).

Lemma linked_attend port d B st c :
  peer port d B st → linked_to st c → linked_to (attend st) c.
Proof.
  intros Hp [Hc Hj]. destruct (peer_attend _ _ _ _ Hp) as [_ [Ec Hsp]]. split; [by rewrite Ec|]. by apply Hsp.
Qed.

(** What is planned is not changed by what the client does. *)
Lemma peer_step port d B d' B' st k th os og :
  peer port d B st →
  (∀ d0 B0 T, alive port (d + d0) (B + B0) T (server_thread st, sys_net st) → alive port (d' + d0) (B' + B0) T (th, k)) →
  (∀ c, c ∈ client_fds k → Sim.at_ os c = Net.at_ (c_sent k) c ∧ Sim.at_ og c = Net.at_ (c_got k) c) →
  peer port d' B' (mkSystem k th (plan st) os og).
Proof. intros [Hal _] Hstep Hown. constructor; [by apply Hstep|done]. Qed.

Lemma alive_call port d B d' B' th k k' T :
  (∀ a dl evs s, alive_at port d B T a dl evs s k → alive_at port d' B' T a dl evs s k') →
  alive port d B T (th, k) → alive port d' B' T (th, k').
Proof. intros Hk (a & port' & dl & evs & s & E & Hal). exists a, port', dl, evs, s. split; [done|]. by apply Hk. Qed.

Lemma peer_socket port d B st :
  peer port (S d) B st → let r := client_socket st in
  0 ≤ r.1 ∧ peer port d B r.2 ∧ r.1 ∈ client_fds (sys_net r.2) ∧ ¬ Net.joined r.1 (sys_net r.2).
Proof.
  intros Hp. unfold client_socket. destruct (peer_attend _ _ _ _ Hp) as [Hp' _].
  generalize dependent (attend st). clear st Hp. intros st Hp. destruct Hp as [Hal Hown].
  assert (0 < Net.room (sys_net st) ∧ sound (sys_net st)) as [Hr Hs].
  { destruct Hal as (a & port' & dl & evs & s & _ & Hal). simpl in Hal.
    replace (S (d + coming cost_fds st)) with (d + coming cost_fds st + 1)%nat in Hal by lia.
    by apply (alive_socket _ _ _ _ _ _ _ _ _ true) in Hal as (_ & ? & ?). }
  pose proof (socket_concerns true (sys_net st)) as Hcn.
  destruct (client_socket_run true _ Hs Hr) as (k' & E & _ & _ & Ec & _ & Es & Eg & Hj). rewrite E in *.
  cbn [fst snd] in *. pose proof (nt_room _ Hs) as [? _]. rewrite (proj2 (Z.ltb_ge _ _)) by lia.
  split; [lia|]. split; [|split; [simpl; rewrite Ec, elem_of_union, elem_of_singleton; by left|done]].
  eapply (peer_step port (S d) B); [by constructor|..].
  - intros d0 B0 T. apply alive_call. intros a dl evs s Hal'.
    replace (S d + d0)%nat with (d + d0 + 1)%nat in Hal' by lia.
    apply (alive_socket _ _ _ _ _ _ _ _ _ true) in Hal' as [Hal' _]. by rewrite E in Hal'.
  - intros c. rewrite Ec, elem_of_union, elem_of_singleton. rewrite !at_delete.
    destruct (decide (next_fd (sys_net st) = c)) as [<-|Hne]; [by rewrite Es, Eg|].
    intros [?|Hc]; [congruence|]. rewrite (cn_sent _ _ _ Hcn), (cn_got _ _ _ Hcn) by congruence. by apply Hown.
Qed.

(** What [alive] says of the network, whatever the thread's state is. *)
Lemma alive_facts port d B T th k :
  alive port d B T (th, k) →
  ∃ L s, serving ∅ L s k ∧ ntohs run_target (net_port k) = port ∧
    next_fd k + len (backlog k) + Z.of_nat d ≤ Sim.RLIMIT_NOFILE ∧ client_fds k ## other_fds k.
Proof. intros (a & port' & dl & evs & s & _ & []). by exists (listener_handle a), s. Qed.

Lemma peer_connect port d B c st :
  peer port (S d) (S B) st → c ∈ client_fds (sys_net st) → ¬ Net.joined c (sys_net st) →
  let r := client_connect c port st in r.1 = 0 ∧ peer port d B r.2 ∧ linked_to r.2 c.
Proof.
  intros Hp Hc Hj. unfold client_connect. destruct (peer_attend _ _ _ _ Hp) as [Hp' [Ec Hsp]].
  rewrite <- (proj2 (proj2 (Hsp c Hc))) in Hj. rewrite <- Ec in Hc. clear Ec Hsp Hp.
  revert Hp' Hj Hc. generalize (attend st). clear st. intros st [Hal Hown] Hj Hc.
  destruct (alive_facts _ _ _ _ _ _ Hal) as (L & s & Hsv & Hport & Hroom & _).
  pose proof (connect_concerns run_target c port (sys_net st)) as Hcn.
  assert (Net.gone c (sys_net st) = false) as Hg by (apply gone_false, elem_of_union; by left).
  assert (Client.served run_target port (sys_net st)) as Hv by (split; [by eapply listener_open|done]).
  assert (0 < Net.room (sys_net st)) as Hr by (unfold Net.room; rewrite (sound_fresh _ (sg_sound _ _ _ _ Hsv)); lia).
  pose proof (client_connect_run run_target c port _ Hg Hj Hv Hr) as E. rewrite E in *. cbn [fst snd] in *.
  split; [done|]. split.
  2: { split; [done|]. left. simpl. apply elem_of_app. right. by apply list_elem_of_singleton. }
  eapply (peer_step port (S d) (S B)); [by constructor|..].
  - intros d0 B0 T. apply alive_call. intros a dl evs s' Hal'.
    replace (S d + d0)%nat with (d + d0 + 1)%nat in Hal' by lia.
    replace (S B + B0)%nat with (B + B0 + 1)%nat in Hal' by lia.
    apply (alive_connect _ _ _ _ _ _ _ _ _ c port) in Hal'. by rewrite E in Hal'.
  - done.
Qed.

Lemma peer_send port d B c data st :
  peer port d (length data + B) st → linked_to st c → polite (Sim.at_ (own_sent st) c ++ data) →
  let r := client_send c data st in
  r.1 = len data ∧ peer port d B r.2 ∧ linked_to r.2 c.
Proof.
  intros Hp Hl Hpol. unfold client_send. pose proof (linked_attend _ _ _ _ _ Hp Hl) as Hl'.
  destruct (attend_own st) as (_ & Eo & _). rewrite <- Eo in Hpol.
  apply peer_attend in Hp as [Hp _]. clear Hl Eo. revert Hp Hl' Hpol. generalize (attend st). clear st.
  intros st [Hal Hown] [Hc Hj] Hpol. destruct (Hown c Hc) as [Es Eg]. rewrite Es in Hpol.
  destruct (alive_facts _ _ _ _ _ _ Hal) as (L & s & Hsv & _ & _ & Hap).
  assert (Net.gone c (sys_net st) = false) as Hg by (apply gone_false, elem_of_union; by left).
  pose proof (client_send_run c data _ Hg Hj (λ h, route_open _ _ _ _ _ Hsv Hc)) as E. rewrite E in *.
  cbn [fst snd] in *. rewrite Nat2Z.id, firstn_all. split; [done|]. split; [|done].
  eapply (peer_step port d (length data + B)); [by constructor|..].
  - intros d0 B0 T. apply alive_call. intros a dl evs s' Hal'.
    replace (length data + B + B0)%nat with (B + B0 + length data)%nat in Hal' by lia.
    apply (alive_send _ _ _ _ _ _ _ _ _ c) in Hal'; [by rewrite E in Hal'|done|].
    intros Hc'. by destruct (Hap c Hc).
  - intros c' Hc'. simpl. unfold Net.at_. rewrite !at_insert. case_decide as Ec; [subst c'; by rewrite Es|].
    by apply Hown.
Qed.

Lemma peer_recv port d B c n ps st :
  peer port d B st → linked_to st c → Forall small ps → Sim.at_ (own_sent st) c = frames ps →
  Sim.at_ (own_got st) c ≠ Sim.at_ (own_sent st) c → 0 < n →
  let r := client_recv c n st in 0 < r.1.1 ∧ peer port d B r.2 ∧ linked_to r.2 c.
Proof.
  intros Hp Hl Hps Ef Hne Hn. unfold client_recv. pose proof (linked_attend _ _ _ _ _ Hp Hl) as Hl'.
  destruct (attend_own st) as (_ & Eo & Eg). rewrite <- Eo in Ef, Hne. rewrite <- Eg in Hne.
  apply peer_attend in Hp as [Hp _]. clear Hl Eo Eg. revert Hp Hl' Ef Hne. generalize (attend st). clear st.
  intros st [Hal Hown] [Hc Hj] Ef Hne.
  destruct (Hown c Hc) as [Es Eg]. rewrite Es in Ef, Hne. rewrite Eg in Hne. cbn [fst snd].
  destruct (alive_wait (λ _, True) _ _ _ _ (turns_left (server_thread st) (sys_net st)) c ps _ ltac:(done) I Hal Hc Ef
    Hps Hne (alive_turns_left _ _ _ _ _ Hal)) as (Hal' & [Ec Hsp] & Hw & _). cbn [snd] in Ec, Hsp.
  destruct (wait_for _ _ _) as [th k]. cbn [snd] in *.
  assert (∀ c', c' ∈ client_fds k → Sim.at_ (own_sent st) c' = Net.at_ (c_sent k) c' ∧ Sim.at_ (own_got st) c' = Net.at_ (c_got k) c') as Hown'.
  { intros c'. rewrite Ec. intros Hc'. destruct (Hsp c' Hc') as (-> & -> & _). by apply Hown. }
  rewrite <- (proj2 (proj2 (Hsp c Hc))) in Hj. rewrite <- Ec in Hc.
  destruct (alive_facts _ _ _ _ _ _ Hal') as (L & s & Hsv & _).
  assert (Net.gone c k = false) as Hg by (apply gone_false, elem_of_union; by left).
  destruct (client_recv_run c n k Hg Hj (λ h, route_open _ _ _ _ _ Hsv Hc) Hw (listener_open _ _ _ Hsv) Hn) as (bs & Hbs & E).
  rewrite E. cbn [fst snd]. split; [destruct bs; [done|simpl; lia]|]. split; [|done].
  constructor; simpl.
  - eapply alive_call; [|exact Hal']. intros a dl evs s' Hk. apply (alive_recv _ _ _ _ _ _ _ _ _ c n) in Hk. by rewrite E in Hk.
  - intros c' Hc'. unfold Net.at_ in *. rewrite !at_insert. destruct (Hown' c' Hc') as [-> Eg'].
    split; [done|]. case_decide; [subst c'; by rewrite Eg'|done].
Qed.

Lemma peer_close port d B c st : peer port d B st → peer port d B (client_close c st).2.
Proof.
  intros Hp. unfold client_close. apply peer_attend in Hp as [Hp _]. revert Hp. generalize (attend st). clear st.
  intros st Hp. cbn [Client.close snd]. unfold with_net. pose proof Hp as [_ Hown].
  eapply peer_step; [exact Hp|..].
  - intros d0 B0 T. apply alive_call. intros a dl evs s'. apply (alive_close _ _ _ _ _ _ _ _ _ true c).
  - intros c' Hc'. apply Hown. simpl in Hc'. by apply subset_less in Hc'.
Qed.

Lemma peer_prefix port d B c st :
  peer port d B st → linked_to st c → Sim.at_ (own_got st) c `prefix_of` Sim.at_ (own_sent st) c.
Proof.
  intros [Hal Hown] [Hc _]. destruct (Hown c Hc) as [-> ->].
  destruct (alive_facts _ _ _ _ _ _ Hal) as (L & s & [Hok Hs _ _] & _).
  destruct (routes (sys_net st) !! c) as [h|] eqn:Er.
  - pose proof (proj2 (nt_links _ Hs h c) Er) as Hp. etrans; [by apply (nt_down _ Hs)|].
    etrans; [|by apply (nt_up _ Hs)]. apply (sv_echo _ _ _ _ _ Hok), not_elem_of_empty.
  - destruct (nt_idle _ Hs c Er) as [-> _]. apply prefix_nil.
Qed.

#[export, refine] Instance system_peer : EchoPeer system := {|
  echoing port c b := peer port (2 * c) (c + b);
  linked := linked_to;
|}.
Proof.
  - intros port c b f t p st Hp. replace (2 * S c)%nat with (S (S (2 * c))) in Hp by lia.
    destruct (peer_socket _ _ _ _ Hp) as (Hr & Hp' & Hc & Hj). split; [done|].
    destruct (peer_connect _ _ _ _ _ Hp' Hc Hj) as (Hq & Hp2 & Hl). done.
  - intros port c b s data flags st Hp Hl Hpol%next_frame_polite. replace (c + (length data + b))%nat with (length data + (c + b))%nat in Hp by lia.
    destruct (peer_send _ _ _ _ _ _ Hp Hl Hpol) as (Hr & Hp' & Hl'). cbv zeta. change (sys_send s data flags st) with (client_send s data st).
    rewrite Hr. replace (length data - Z.to_nat (len data) + b)%nat with b by lia.
    split; [done|]. split; [done|]. destruct data; [done|simpl; lia].
  - intros port c b s n st ps Hp Hl Hps Ef Hne Hn.
    destruct (peer_recv _ _ _ _ _ _ _ Hp Hl Hps Ef Hne Hn) as (? & ? & ?). done.
  - intros port c b s st Hp _ _. by apply peer_close.
  - intros port c b s st Hp Hl. by eapply peer_prefix.
Defined.
End alive.
