(* ===== verification/EchoServed.v ===== *)
(** * The clients are served

    The whole system from its start: a client of the benchmark that runs while the
    server does, with whatever else is planned, is served and returns; and once it
    is told to stop and everybody has left, the server closes down. *)

From S2P Require Import Prelude Vector FrameCodec Os Socket Connection SocketIO Poller Acceptor Dispatcher.
From S2P Require Import EchoServer Footprint EchoWorld EchoInvariant EchoLoop EchoPeer EchoClient Net NetTurn NetClient.
From S2P Require Import EchoSystem EchoAlive.

(** Nothing is open; the kernel will hand out [port]. *)
Definition boot (port : Z) (hs : list hiccup) : net :=
  mkNet 0 hs 0 3 ∅ ∅ ∅ port false [] ∅ ∅ ∅ ∅ ∅ ∅ ∅ ∅.

Section served.
Context `{params : !ServerParams, !Clock, !MapOrder Z, !Build, !ServerRun}.
Hypothesis backlog_positive : 0 < k_accept_backlog.

(** After the server's thread has started. *)
Definition launched (port : Z) (hs : list hiccup) (later : list (list happening)) : system :=
  let (th, k) := server_turn Starting (boot port hs) in mkSystem k th later ∅ ∅.

Definition listener3 : Acceptor := mkAcceptor (mkListener (mkSocket 3)).

(** What it has done by then. *)
Definition started (port : Z) (hs : list hiccup) : net :=
  mkNet 1 hs 0 4 {[3]} {[3 := 2050]} {[3]} port false [] ∅ ∅ ∅ ∅ ∅ ∅ ∅ ∅.

Lemma set_up_booted port hs :
  set_up run_target (boot port hs) =
    Done (listener3, mkPoller {[3 := EventMask.Read]}, ntohs run_target port) (Net.set_looks 0 (started port hs)).
Proof.
  unfold set_up, bind_and_listen.
  rewrite (proj2 (Z.leb_gt _ _)) by done. reflexivity.
Qed.

Lemma launched_eq port hs later :
  launched port hs later =
    mkSystem (started port hs) (Serving listener3 (ntohs run_target port) (tick 0 + k_deadline_ms) no_events
      (first_state (mkPoller {[3 := EventMask.Read]}))) later ∅ ∅.
Proof.
  unfold launched. cbn [server_turn]. unfold start_up.
  by rewrite (prog_bind_Done _ _ _ _ _ (set_up_booted port hs)).
Qed.

Lemma at_empty c : Net.at_ ∅ c = [].
Proof. unfold Net.at_, Sim.at_. by rewrite lookup_empty. Qed.

Lemma started_sound port hs : sound (started port hs).
Proof.
  constructor; simpl; try done.
  - intros x. unfold Net.open_of. simpl. rewrite !elem_of_union, elem_of_singleton.
    intros [[->|Hx]|Hx]; [done|by apply not_elem_of_empty in Hx..].
  - apply NoDup_nil_2.
  - by intros c Hc%not_elem_of_nil.
  - intros h ->%elem_of_singleton. by rewrite lookup_empty.
  - intros c. rewrite at_empty. apply polite_nil.
  - by intros x f [_ <-]%lookup_singleton_Some.
Qed.

Lemma started_serving port hs :
  serving ∅ 3 (first_state (mkPoller {[3 := EventMask.Read]})) (started port hs).
Proof.
  constructor; [|apply started_sound| |done].
  2: { constructor; [by intros h c|]. intros h Hh. change (h ∈ ({[3]} : gset Z)) in Hh. apply elem_of_singleton in Hh. by left. }
  assert (replicate (Z.to_nat k_scratch_bytes) x00 ≠ []) as Hscr by apply buffer_positive, scratch_positive.
  pose proof (set_up_run run_target _ (boot port hs) Hscr) as Hwp. unfold wp in Hwp.
  rewrite set_up_booted in Hwp. destruct Hwp as [Hok _]; [intros h _; by exists []|].
  set (k0 := Net.set_looks 0 (started port hs)) in *.
  destruct (handled_quiet _ _ _ _ _ (sys_now k0).2 Hok (now_law k0) (covers_now (R := progress) k0)) as [Hok' _].
  exact Hok'.
Qed.

(** What the run must be given: room, time, and fuel for the server's loops. *)
Record provided (hs : list hiccup) (d B T : nat) : Prop := {
  pv_signals : (countb is_signal hs < run_sig)%nat;
  pv_fuel : (3 * B < run_fuel)%nat;
  pv_memory : Z.of_nat B ≤ max_size run_target;
  pv_room : 4 + Z.of_nat d ≤ Sim.RLIMIT_NOFILE;
  pv_time i : (i < 2 + length hs + T + 2 * B)%nat → tick i < tick 0 + k_deadline_ms;
}.

Lemma started_todo port hs : todo (started port hs) = S (length hs).
Proof.
  unfold todo, undone. change (map_sum _ (peers (started port hs))) with O.
  change (size (server_fds (started port hs))) with 1%nat. simpl. lia.
Qed.

Lemma launched_peer port hs later d B :
  provided hs (d + total_cost cost_fds (mjoin later)) (B + total_cost cost_bytes (mjoin later))
    (total_cost cost_turns (mjoin later)) →
  peer (ntohs run_target port) d B (launched port hs later).
Proof.
  intros []. rewrite launched_eq. constructor; simpl; [|by intros c ?%not_elem_of_empty].
  eexists _, _, _, _, _. split; [done|]. unfold coming. simpl.
  constructor; simpl; try done.
  - exact (started_serving port hs).
  - apply buffer_positive, events_positive.
  - intros i Hi. apply pv_time0. rewrite started_todo in Hi. lia.
Qed.
End served.

(** ** The end

    The benchmark sets the flag when its clients are done. *)

Section stopping.
Context `{params : !ServerParams, !Clock, !MapOrder Z, !Build, !ServerRun}.
Implicit Types k : net.

(** Nobody is left. *)
Definition deserted (k : net) : Prop := client_fds k = ∅ ∧ other_fds k = ∅.

Lemma deserted_gone k c : deserted k → Net.gone c k = true.
Proof.
  intros [E1 E2]. unfold Net.gone. rewrite E1, E2. apply bool_decide_true. rewrite elem_of_union.
  by intros [Hc|Hc]; apply not_elem_of_empty in Hc.
Qed.

(** A connection whose client has left is something to do. *)
Lemma deserted_busy L s k : serving ∅ L s k → deserted k → slots s ≠ [] → ¬ idle s k.
Proof.
  intros [Hok _ [_ Hli] _] Hd Hne [_ Hslots]. destruct (slots s) as [|slot l] eqn:Es; [done|].
  destruct (Hslots slot) as [_ Hup]; [by left|].
  assert (conn_handle (conn slot) ∈ handles s) as Hin by (unfold handles; rewrite Es; by left).
  destruct (sv_fresh _ _ _ _ _ Hok _ Hin) as (_ & HL & _).
  destruct (Hli (conn_handle (conn slot))) as [?|[c Hc]]; [|done|].
  - change (conn_handle (conn slot) ∈ open_fds k). apply (sv_open _ _ _ _ _ Hok). auto.
  - destruct (Hup c Hc) as [_ Hg]. by rewrite deserted_gone in Hg.
Qed.

(** The loop is left when the deadline has passed, or on the flag. *)
Lemma serve_turn_leaves sig fuel a deadline events s k :
  deadline ≤ tick (looks k) ∨ stop_flag k && bool_decide (slots s = []) = true →
  serve_turn run_target sig fuel a deadline events s k = Done None (Net.set_looks (S (looks k)) k).
Proof.
  intros Hl. unfold serve_turn, mbind, prog_bind, call_os. simpl.
  destruct (Z.leb_spec deadline (tick (looks k))); [done|]. destruct Hl as [?|Hl]; [lia|].
  unfold mbind, prog_bind. simpl. by rewrite Hl.
Qed.

Lemma deserted_ends m a port dl evs s k :
  serving ∅ (listener_handle a) s k → means run_target run_sig run_fuel s k → evs ≠ [] →
  stop_flag k = true → deserted k → (todo k < m)%nat →
  ∃ n completed k', (n ≤ m)%nat ∧
    Nat.iter n server_step (Serving a port dl evs s, k) = (Ended port completed, k') ∧ server_fds k' = ∅.
Proof.
  revert evs s k. induction m as [|m IH]; intros evs s k Hsv Hmn He Hst Hd Hm; [lia|].
  destruct (decide (dl ≤ tick (looks k) ∨ stop_flag k && bool_decide (slots s = []) = true)) as [Hl|Hl].
  - pose proof Hsv as [Hok _ _ _].
    destruct (handled_quiet _ _ _ _ _ (sys_now k).2 Hok (now_law k) (covers_now (R := progress) k)) as [Hok' _].
    destruct (close_down_run _ _ _ _ a port _ Hok' eq_refl) as (k' & E & Hopen & _).
    exists 1%nat, (completions s), k'. split; [lia|]. split; [|exact Hopen].
    simpl. unfold server_step. cbn [fst snd server_turn]. rewrite serve_turn_leaves by done.
    change (Net.set_looks (S (looks k)) k) with (sys_now k).2. by rewrite E.
  - assert (tick (looks k) < dl) as Ht by lia.
    assert (stop_flag k && bool_decide (slots s = []) = false) as Hgo by (apply not_true_is_false; tauto).
    destruct (serve_turn_net run_target run_sig run_fits ∅ (listener_handle a) run_fuel a dl evs s k Hsv Hmn
      eq_refl He Ht Hgo) as (evs' & s' & k' & E & He' & Hsv' & Hmn' & Has & _ & _ & Hless).
    assert (slots s ≠ []) as Hne.
    { intros Es. rewrite Hst, Es in Hgo. done. }
    specialize (Hless (or_intror (deserted_busy _ _ _ Hsv Hd Hne))). destruct Has as [_ _ Ec Eo Est _].
    destruct (IH evs' s' k') as (n & completed & k2 & Hn & En & Hf); [done|done|done|congruence| |lia|].
    { split; [rewrite Ec|rewrite Eo]; apply Hd. }
    exists (S n), completed, k2. split; [lia|]. split; [|done].
    rewrite Nat.iter_succ_r. unfold server_step at 2. cbn [fst snd server_turn]. by rewrite E.
Qed.

Lemma turns_aside n x : aside x.2 (Nat.iter n server_step x).2.
Proof. induction n as [|n IH]; [done|]. etrans; [exact IH|apply server_turn_aside]. Qed.

Lemma server_halts port d B st :
  peer port d B st → deserted (sys_net st) →
  ∃ n port' completed k, (n ≤ S (todo (sys_net st)))%nat ∧
    Nat.iter n server_step (server_thread st, Net.set_stop true (sys_net st)) = (Ended port' completed, k) ∧
    open_fds k = ∅ ∧ client_fds k = ∅.
Proof.
  intros [Hal _] Hd. destruct Hal as (a & port' & dl & evs & s & Eth & [[Hok Hs [Hop Hli] HL] Hsig Hw Hv He _ _ _ _ _ _]).
  cbn [fst snd] in *. rewrite Eth. set (k := Net.set_stop true (sys_net st)).
  destruct (deserted_ends (S (todo k)) a port' dl evs s k) as (n & completed & k' & Hn & E & Hf); try done; try lia.
  - constructor; [|by apply sound_stop|by constructor|done].
    destruct s as [sl p sc c]. apply (server_ok_quiet _ _ _ (mkServer sl p sc c) (sys_net st)); [exact Hok|done| | |done]; by intros h; auto.
  - constructor; [done|change (work s k) with (work s (sys_net st))|change (volume s k) with (volume s (sys_net st))]; lia.
  - exists n, port', completed, k'. split; [done|]. split; [exact E|]. split; [exact Hf|].
    pose proof (turns_aside n (Serving a port' dl evs s, k)) as Has. rewrite E in Has. cbn [snd] in Has. rewrite (as_clients _ _ Has). apply Hd.
Qed.
End stopping.

(** ** Properties *)

Section properties.
Context `{params : !ServerParams, !Clock, !MapOrder Z, !Build, !ServerRun}.

(** C2. The echo server serves its clients. A client that runs beside it from its
    start returns, with every frame it has sent read back, leaves nothing open,
    and leaves the server as ready for the next. Meanwhile other clients may
    connect, send frames within the limit, whole ones, read as much as they like
    and leave; what is sent may be late and calls of recv(2) and send(2) cut
    short, and those of the server interrupted by signals; select(2) and
    accept(2) may not see what is there, but do not fail, and there are
    descriptors, memory and time ([provided]). *)
Theorem client_is_served port hs later c b fuel client_id round_trips payload_bytes :
  0 < k_accept_backlog → 0 ≤ payload_bytes ≤ effective_max_payload k_max_payload →
  k_acc_slack + payload_bytes ≤ max_size run_target → (Z.to_nat (k_acc_slack + payload_bytes) < fuel)%nat →
  let p := client_payload payload_bytes client_id in
  let n := Z.to_nat round_trips in
  provided hs (2 * S c + total_cost cost_fds (mjoin later))
    (S c + (frames_cost n p + b) + total_cost cost_bytes (mjoin later)) (total_cost cost_turns (mjoin later)) →
  wp total
    (client_worker fuel run_target (ntohs run_target port) client_id round_trips payload_bytes)
    (launched port hs later) (λ _ st,
      ∃ s, sent st s = mjoin (replicate n (frame p)) ∧ received st s = sent st s ∧ open_fds st = ∅ ∧
        echoing (ntohs run_target port) c b st).
Proof.
  intros Hb Hp Hm Hf p n Hpv. set (q := ntohs run_target port).
  assert (echoing q (S c) (frames_cost n p + b) (launched port hs later)) as Hecho
    by exact (launched_peer Hb port hs later _ _ Hpv).
  eapply wp_weaken; [eapply wp_mono|].
  - by apply (client_worker_run True fuel run_target q client_id round_trips payload_bytes c b _ run_fits Hp Hm Hf).
  - intros [] st (s & rests & _ & Ho & _ & Hs & _ & Hr & _). destruct (Hr I) as [Hrec Hnext]. exists s.
    split; [done|]. split; [done|]. split; [|done]. rewrite Ho, launched_eq by done. done.
  - intros e [_ He]. by apply He.
Qed.
End properties.

(** ** A run *)

(** The server looks at the clock every ten milliseconds. *)
Definition ten_ms_tick (n : nat) : Z := 10 * Z.of_nat n.
#[export, refine] Instance ten_ms_clock : Clock := {| tick := ten_ms_tick; looks_before d := Z.to_nat d |}.
Proof. intros d n Hn. unfold ten_ms_tick. lia. Defined.

#[export] Instance demo_run : ServerRun := {|
  run_target := lp64;
  run_sig := 10;
  run_fuel := 1000;
  run_fits := wide_fits lp64 k_max_payload ltac:(done);
|}.

(** Another client comes, sends half of what it wants to and leaves, while calls
    are cut short and interrupted. *)
Definition demo_hiccups : list hiccup := [Late; Cut 2; Signal; Late; Cut 0; Signal; Cut 1].
Definition demo_later : list (list happening) :=
  [[OtherJoins]; [ServerTurn; OtherSends 4 [x07]]; [ServerTurn; OtherReads 4 100]; [OtherSends 4 []; OtherLeaves 4]].

Lemma demo_provided c b n p :
  (2 * S c + 2 ≤ 100)%nat → (S c + (frames_cost n p + b) + 10 ≤ 300)%nat →
  provided demo_hiccups (2 * S c + total_cost cost_fds (mjoin demo_later))
    (S c + (frames_cost n p + b) + total_cost cost_bytes (mjoin demo_later))
    (total_cost cost_turns (mjoin demo_later)).
Proof.
  change (total_cost cost_fds (mjoin demo_later)) with 2%nat.
  change (total_cost cost_bytes (mjoin demo_later)) with 10%nat.
  change (total_cost cost_turns (mjoin demo_later)) with 2%nat.
  intros Hc Hb. constructor.
  - vm_compute. lia.
  - change run_fuel with 1000%nat. lia.
  - change (max_size run_target) with (2 ^ 63 - 1). lia.
  - unfold Sim.RLIMIT_NOFILE. lia.
  - intros i Hi. simpl in Hi. change (ten_ms_tick i < 0 + 300000). unfold ten_ms_tick. lia.
Qed.

Lemma client_is_served_witness :
  let order := listing_order Z in let build := Debug in
  wp total (client_worker (Z.to_nat 70000) run_target (ntohs run_target 8080) 5 3 2)
    (launched 8080 demo_hiccups demo_later) (λ _ st, ∃ s,
      sent st s = mjoin (replicate (Z.to_nat 3) (frame (client_payload 2 5))) ∧ received st s = sent st s ∧
      open_fds st = ∅ ∧ echoing (ntohs run_target 8080) 1 20 st).
Proof.
  intros order build.
  apply (λ fuel, client_is_served 8080 demo_hiccups demo_later 1 20 fuel 5 3 2).
  - done.
  - by vm_compute.
  - by vm_compute.
  - unfold k_acc_slack. lia.
  - apply demo_provided; [lia|]. unfold frames_cost. simpl. lia.
Defined.

(** A run, computed: the client hears its frame three times over, while the other
    one comes, sends and goes. *)
Definition demo_served : run system unit :=
  @client_worker system _ (@system_kernel _ _ (listing_order Z) Debug _) 70 lp64 (ntohs lp64 8080) 5 3 2
    (@launched _ _ (listing_order Z) Debug _ 8080 demo_hiccups demo_later).

Example demo_served_run :
  match demo_served with
  | Done _ st =>
      let k := sys_net st in
      map_to_list (c_sent k) = [(5, mjoin (replicate 3 (frame (client_payload 2 5)))); (4, frame [x07] ++ frame [])] ∧
      map_to_list (c_got k) = [(5, mjoin (replicate 3 (frame (client_payload 2 5))))] ∧
      elements (client_fds k ∪ other_fds k) = [] ∧ looks k = 7%nat
  | Stop _ => False
  end.
Proof. vm_compute. auto. Qed.
