(* ===== verification/EchoTally.v ===== *)
(** * One client after the other

    In [system], when there is no other client and the one that is looked at waits
    for one reply before it sends the next frame, the counter of the server is the
    number of its frames that have been answered ([tallied]).  [lone_peer] is the
    system as an [EchoPeer] that promises this besides. *)

From S2P Require Import Prelude Vector FrameCodec Os Socket Connection SocketIO Poller Acceptor Dispatcher.
From S2P Require Import EchoServer Footprint EchoWorld EchoInvariant EchoLoop EchoPeer EchoClient Net NetTurn EchoCount NetClient.
From S2P Require Import EchoSystem EchoAlive.

Section tally.
Context `{params : !ServerParams, !Clock, !MapOrder Z, !Build, !ServerRun}.
Implicit Types k : net.

Definition tallied (cur : Z) (x : thread * net) : Prop :=
  (∃ a port dl evs s, x.1 = Serving a port dl evs s ∧ counted cur s x.2) ∧ one_at_a_time cur x.2.

(** ** The server's turns *)

Lemma tallied_turn cur port d B T a port' dl evs s k :
  alive_at port d B T a dl evs s k → tick (looks k) < dl → tallied cur (Serving a port' dl evs s, k) →
  tallied cur (server_turn (Serving a port' dl evs s) k).
Proof.
  intros Hal Ht [(a0 & p0 & dl0 & evs0 & s0 & E0 & Hc) Hone]. simpl in E0, Hc, Hone. injection E0 as <- <- <- <- <-.
  destruct (alive_at_turn _ _ _ _ T _ port' _ _ _ _ Hal Ht) as (evs' & s' & k' & E & _).
  pose proof Hal as [Hsv Hsig Hw Hv He _ _ _ _ _ _].
  assert (means run_target run_sig run_fuel s k) as Hmn by (constructor; lia).
  cbn [server_turn] in *. destruct (serve_turn _ _ _ _ _ _ _ _) as [[[evs1 s1]|] k1|e] eqn:Et.
  - destruct (serve_turn_counts run_target run_sig run_fits cur ∅ _ _ _ _ _ _ _ _ _ _ Hsv Hmn eq_refl He Hone Hc Et)
      as (Hc' & Hone' & _). split; [|exact Hone']. by exists a, port', dl, evs1, s1.
  - by destruct (close_down _ _ _ _) as [[]|].
  - done.
Qed.

Definition only_turns : list happening → Prop := Forall (λ h, h = ServerTurn).

(** What turns leave alone. *)
Definition kept k k' : Prop := aside k k' ∧ ∀ c, Net.joined c k' ↔ Net.joined c k.

#[export] Instance kept_preorder : PreOrder kept.
Proof. split; [by split|]. intros x y z [A1 J1] [A2 J2]. split; [by etrans|]. intros c. by rewrite J2, J1. Qed.

Lemma kept_turn port d B T a port' dl evs s k :
  alive_at port d B T a dl evs s k → tick (looks k) < dl → kept k (server_turn (Serving a port' dl evs s) k).2.
Proof.
  intros Hal Ht. destruct (alive_at_turn _ _ _ _ T _ port' _ _ _ _ Hal Ht) as (evs' & s' & k' & -> & Has & Hj & _). by split.
Qed.

(** Turns, one after the other. *)
Lemma turns_keep (P : thread * net → Prop) port d B x hs :
  (∀ T a port' dl evs s k, alive_at port d B T a dl evs s k → tick (looks k) < dl →
    P (Serving a port' dl evs s, k) → P (server_turn (Serving a port' dl evs s) k)) →
  only_turns hs → alive port d B (total_cost cost_turns hs) x → P x → P (foldl happen x hs).
Proof.
  intros HP Hhs. revert x. induction Hhs as [|h hs -> Hhs IH]; intros x Hx Hpx; [done|].
  change (total_cost cost_turns (ServerTurn :: hs)) with (S (total_cost cost_turns hs)) in Hx.
  simpl. apply IH.
  - apply (alive_happen port d B (total_cost cost_turns hs) x ServerTurn). simpl. by rewrite !Nat.add_0_r, Nat.add_1_r.
  - destruct x as [th k]. destruct Hx as (a & port' & dl & evs & s & Eth & Hk). simpl in Eth, Hk. subst th.
    apply (HP _ _ _ _ _ _ _ Hk); [|done]. apply (al_time _ _ _ _ _ _ _ _ _ Hk). lia.
Qed.

Lemma tallied_happens cur port d B x hs :
  only_turns hs → alive port d B (total_cost cost_turns hs) x → tallied cur x → tallied cur (foldl happen x hs).
Proof. intros Hhs. apply turns_keep; [|done]. intros. by eapply tallied_turn. Qed.

Lemma turns_kept port d B x hs :
  only_turns hs → alive port d B (total_cost cost_turns hs) x → kept x.2 (foldl happen x hs).2.
Proof.
  intros Hhs Hx. apply (turns_keep (λ y, kept x.2 y.2) port d B); try done.
  intros T a port' dl evs s k Hk Ht Hkept. etrans; [exact Hkept|by eapply kept_turn].
Qed.

Lemma total_cost_turns f hs : f ServerTurn = O → only_turns hs → total_cost f hs = O.
Proof. intros Hf. induction 1 as [|h hs -> Hhs IH]; [done|]. unfold total_cost in *. simpl. rewrite Hf. exact IH. Qed.

(** ** The client's calls *)

Lemma unseen_answered c k k' : sound k → sound k' → unseen k k' → answered c k' = answered c k.
Proof.
  intros Hs Hs' Hun. destruct Hun as [_ _ _ _ Egv _ _ _ Epe]. apply answered_same.
  - apply map_eq. intros x. apply option_eq. intros h. by rewrite <- !nt_links, Epe.
  - intros h _. by rewrite Egv.
Qed.

Lemma tallied_client cur th k k' :
  sound k → sound k' → unseen k k' → one_at_a_time cur k' → tallied cur (th, k) → tallied cur (th, k').
Proof.
  intros Hs Hs' Hun Hone [(a & port & dl & evs & s & E & Hc) _]. split; [|done]. exists a, port, dl, evs, s.
  split; [done|]. simpl in *. unfold counted in *. by rewrite (unseen_answered cur k k').
Qed.

(** Nothing new is asked. *)
Lemma one_unseen cur k k' :
  sound k → sound k' → unseen k k' → (∀ c, Net.at_ (c_sent k') c = Net.at_ (c_sent k) c ∨ Net.at_ (c_sent k') c = []) →
  one_at_a_time cur k → one_at_a_time cur k'.
Proof.
  intros Hs Hs' Hun Hc Hone c. rewrite (unseen_answered c k k') by done. specialize (Hone c). unfold asked in *.
  destruct (Hc c) as [-> | ->]; [done|]. change (whole []) with O. lia.
Qed.

(** All that was answered is back: one frame more may be asked. *)
Lemma one_sent c k k' ps p :
  sound k → sound k' → unseen k k' → concerns c k k' → Forall small (ps ++ [p]) →
  Net.at_ (c_got k) c = frames ps → Net.at_ (c_sent k') c = frames (ps ++ [p]) →
  one_at_a_time c k → one_at_a_time c k'.
Proof.
  intros Hs Hs' Hun Hcn Hps Hgot Hsent Hone x. rewrite (unseen_answered x k k') by done.
  destruct (decide (x = c)) as [->|Hne].
  - unfold asked, answered. rewrite Hsent, whole_frames, length_app by done. simpl.
    apply Forall_app in Hps as [Hps _]. destruct (routes k !! c) as [h|] eqn:Er.
    + apply (nt_links _ Hs) in Er. pose proof (whole_mono _ _ (nt_down _ Hs _ _ Er)) as Hm.
      rewrite Hgot, whole_frames in Hm by done. lia.
    + destruct (nt_idle _ Hs c Er) as [E _]. rewrite E in Hgot.
      rewrite <- (whole_frames ps), <- Hgot by done. done.
  - specialize (Hone x). rewrite decide_False in Hone by done. unfold asked in *.
    by rewrite (cn_sent _ _ _ Hcn) by done.
Qed.

(** Another client may be the next, when neither has a connection. *)
Lemma tallied_next cur r x :
  sound x.2 → ¬ Net.joined cur x.2 → ¬ Net.joined r x.2 → tallied cur x → tallied r x.
Proof.
  intros Hs Hcur Hr [(a & port & dl & evs & s & E & Hc) Hone].
  assert (∀ c, ¬ Net.joined c x.2 → routes x.2 !! c = None ∧ c ∉ backlog x.2) as Hno.
  { intros c Hj. unfold Net.joined in Hj. destruct (routes x.2 !! c); [destruct Hj; eauto|]. split; [done|]. auto. }
  destruct (Hno _ Hcur) as [Ec Hcb], (Hno _ Hr) as [Er _].
  split.
  - exists a, port, dl, evs, s. split; [done|]. unfold counted, answered in *. by rewrite Er, Ec in *.
  - intros c. specialize (Hone c). destruct (decide (c = cur)) as [->|]; [|lia].
    unfold asked. destruct (nt_idle _ Hs cur Ec) as [_ ->]; [|done]. change (whole []) with O. lia.
Qed.
(** ** The system between the client's calls *)

Definition thread_and_net (st : system) : thread * net := (server_thread st, sys_net st).

(** Nothing happens but turns, and there is no other client. *)
Record alone (st : system) : Prop := {
  aln_others : other_fds (sys_net st) = ∅;
  aln_turns : Forall only_turns (plan st);
}.

(** Client [cur] is the one that is looked at. *)
Record tallies (cur : Z) (st : system) : Prop := {
  tls_alone : alone st;
  tls_tallied : tallied cur (thread_and_net st);
  tls_client : client_fds (sys_net st) ⊆ {[cur]};
  tls_sent : Sim.at_ (own_sent st) cur = Net.at_ (c_sent (sys_net st)) cur;
  tls_got : Sim.at_ (own_got st) cur = Net.at_ (c_got (sys_net st)) cur;
  tls_only x : x ≠ cur → Sim.at_ (own_sent st) x = [];
}.

(** No client is there, but one may come. *)
Record vacant (st : system) : Prop := {
  vc_alone : alone st;
  vc_tallied : ∃ cur, ¬ Net.joined cur (sys_net st) ∧ tallied cur (thread_and_net st);
  vc_client : client_fds (sys_net st) = ∅;
  vc_sent x : Sim.at_ (own_sent st) x = [];
}.

Lemma attend_turns port d B st :
  peer port d B st → alone st →
  alone (attend st) ∧ kept (sys_net st) (sys_net (attend st)) ∧
  ∀ cur, tallied cur (thread_and_net st) → tallied cur (thread_and_net (attend st)).
Proof.
  intros [Hal _] [Ho Hp]. unfold attend, coming in *. destruct (plan st) as [|hs rest] eqn:Epl.
  { split; [constructor; [done|by rewrite Epl]|done]. }
  apply Forall_cons in Hp as [Hhs Hrest]. simpl in Hal. rewrite !total_cost_app in Hal.
  assert (∀ cur, tallied cur (thread_and_net st) → tallied cur (foldl happen (thread_and_net st) hs)) as Ht.
  { intros cur Ht. eapply (tallied_happens cur port 0 0); [done| |done]. eapply alive_mono; [..|exact Hal]; lia. }
  assert (kept (sys_net st) (foldl happen (thread_and_net st) hs).2) as Hk.
  { apply (turns_kept port 0 0 (thread_and_net st)); [done|]. eapply alive_mono; [..|exact Hal]; lia. }
  fold (thread_and_net st). destruct (foldl happen _ hs) as [th k]. cbn [snd] in Hk. split; [|done].
  constructor; [|done]. simpl. by rewrite (as_others _ _ (proj1 Hk)).
Qed.

Lemma tallies_attend port d B cur st : peer port d B st → tallies cur st → tallies cur (attend st).
Proof.
  intros Hp [Ha Ht Hc Hs Hg Ho]. destruct (attend_turns _ _ _ _ Hp Ha) as (Ha' & [[E1 E2 _ _ _ _] _] & Ht').
  destruct (attend_own st) as (Ec & Es & Eg).
  constructor; rewrite ?Es, ?Eg, ?Ec, ?E1, ?E2; try done. by apply Ht'.
Qed.

Lemma vacant_attend port d B st : peer port d B st → vacant st → vacant (attend st).
Proof.
  intros Hp [Ha (cur & Hj & Ht) Hc Ho]. destruct (attend_turns _ _ _ _ Hp Ha) as (Ha' & [Has Hjn] & Ht').
  destruct (attend_own st) as (Ec & Es & _).
  constructor; rewrite ?Es, ?Ec; try done. exists cur. by rewrite Hjn; auto.
Qed.
(** ** The calls *)

Lemma peer_sound port d B st : peer port d B st → sound (sys_net st).
Proof. intros [Hal _]. by destruct (alive_facts _ _ _ _ _ _ Hal) as (L & s & [_ ? _ _] & _). Qed.

Lemma peer_room port d B st : peer port (S d) B st → 0 < Net.room (sys_net st).
Proof.
  intros Hp. pose proof (peer_sound _ _ _ _ Hp) as Hs. destruct Hp as [Hal _].
  destruct (alive_facts _ _ _ _ _ _ Hal) as (_ & _ & _ & _ & Hr & _). unfold Net.room. rewrite (sound_fresh _ Hs). lia.
Qed.

Lemma tallies_socket port d B st :
  peer port (S d) B st → vacant st → tallies (client_socket st).1 (client_socket st).2.
Proof.
  intros Hp Hv. pose proof (vacant_attend _ _ _ _ Hp Hv) as Hv'. apply peer_attend in Hp as [Hp _].
  unfold client_socket. revert Hp Hv'. generalize (attend st). clear st Hv.
  intros st Hp [[Ho Hpl] (cur & Hj & Ht) Hc Hs0]. pose proof (peer_sound _ _ _ _ Hp) as Hs.
  pose proof (socket_concerns true (sys_net st)) as Hcn. pose proof (sound_client_socket true _ Hs) as Hs'.
  destruct (client_unseen true run_target 0 0 0 [] (sys_net st)) as [Hun _].
  destruct (client_socket_run true _ Hs (peer_room _ _ _ _ Hp)) as (k' & E & _ & _ & Ec & Eo & Es & Eg & _).
  rewrite E in *. cbn [fst snd] in *. pose proof (nt_room _ Hs) as [? _]. rewrite (proj2 (Z.ltb_ge _ _)) by lia.
  constructor; simpl; [by constructor; simpl; [by rewrite Eo|]|..].
  - eapply (tallied_client _ _ (sys_net st)); try done.
    2: { apply (tallied_next cur); [done|done|by apply fresh_not_joined|done]. }
    apply (one_unseen _ (sys_net st)); try done.
    + intros c. destruct (decide (c = next_fd (sys_net st))) as [->|Hne]; [by right|left; by apply (cn_sent _ _ _ Hcn)].
    + apply (tallied_next cur (next_fd (sys_net st)) (thread_and_net st)); [done|done|by apply fresh_not_joined|done].
  - by rewrite Ec, Hc, (right_id_L ∅ (∪)).
  - by rewrite at_delete, decide_True.
  - by rewrite at_delete, decide_True.
  - intros x Hx. rewrite at_delete. by case_decide.
Qed.

(** A call that hands out no descriptor and asks for nothing. *)
Lemma tallies_quiet cur st k :
  tallies cur st → sound (sys_net st) → sound k → unseen (sys_net st) k →
  (∀ c, Net.at_ (c_sent k) c = Net.at_ (c_sent (sys_net st)) c) →
  (∀ c, Net.at_ (c_got k) c = Net.at_ (c_got (sys_net st)) c) →
  client_fds k ⊆ client_fds (sys_net st) → other_fds k = other_fds (sys_net st) → tallies cur (with_net k st).
Proof.
  intros [[Ho Hpl] Ht Hc Hsent Hgot Honly] Hs Hs' Hun Es Eg Hf Eo. constructor; simpl; rewrite ?Es, ?Eg; try done.
  - constructor; simpl; [by rewrite Eo|done].
  - eapply (tallied_client _ _ (sys_net st)); try done. apply (one_unseen cur (sys_net st)); try done; [auto|exact (proj2 Ht)].
  - by etrans.
Qed.

Lemma tallies_connect port d B cur c q st :
  peer port d B st → tallies cur st → tallies cur (client_connect c q st).2.
Proof.
  intros Hp Ht. pose proof (tallies_attend _ _ _ _ _ Hp Ht) as Ht'. apply peer_attend in Hp as [Hp _].
  unfold client_connect. revert Hp Ht'. generalize (attend st). clear st Ht. intros st Hp Ht.
  pose proof (peer_sound _ _ _ _ Hp) as Hs. pose proof (sound_connect run_target c q _ Hs) as Hs'.
  destruct (client_unseen true run_target c q 0 [] (sys_net st)) as (_ & Hun & _).
  assert (∀ r k, Client.connect run_target c q (sys_net st) = (r, k) → c_sent k = c_sent (sys_net st) ∧
    c_got k = c_got (sys_net st) ∧ client_fds k = client_fds (sys_net st) ∧ other_fds k = other_fds (sys_net st)) as Hsame.
  { intros r k. unfold Client.connect. repeat case_match; by intros [= <- <-]. }
  destruct (Client.connect _ _ _ _) as [r k]. destruct (Hsame _ _ eq_refl) as (E1 & E2 & E3 & E4).
  apply tallies_quiet; try done; intros; by rewrite ?E1, ?E2, ?E3.
Qed.

Lemma tallies_close port d B cur c st :
  peer port d B st → tallies cur st → tallies cur (client_close c st).2.
Proof.
  intros Hp Ht. pose proof (tallies_attend _ _ _ _ _ Hp Ht) as Ht'. apply peer_attend in Hp as [Hp _].
  unfold client_close. revert Hp Ht'. generalize (attend st). clear st Ht. intros st Hp Ht.
  pose proof (peer_sound _ _ _ _ Hp) as Hs. pose proof (sound_client_close true c _ Hs) as Hs'.
  destruct (client_unseen true run_target c 0 0 [] (sys_net st)) as (_ & _ & _ & _ & Hun).
  apply tallies_quiet; try done. apply subset_less.
Qed.

Lemma tallies_send port d B cur c data ps p st :
  peer port d B st → tallies cur st → linked_to st c → Forall small (ps ++ [p]) →
  Sim.at_ (own_got st) c = frames ps → Sim.at_ (own_sent st) c ++ data = frames (ps ++ [p]) →
  tallies cur (client_send c data st).2.
Proof.
  intros Hp Ht Hl Hps Hgot Hsent. pose proof (tallies_attend _ _ _ _ _ Hp Ht) as Ht'.
  pose proof (linked_attend _ _ _ _ _ Hp Hl) as Hl'. destruct (attend_own st) as (_ & Eo & Eg).
  rewrite <- Eo in Hsent. rewrite <- Eg in Hgot. apply peer_attend in Hp as [Hp _].
  unfold client_send. revert Hp Ht' Hl' Hsent Hgot. generalize (attend st). clear st Ht Hl Eo Eg.
  intros st Hp [[Ho Hpl] Ht Hc Esent Egot Honly] [Hin Hj] Hsent Hgot.
  assert (c = cur) as -> by (apply Hc, elem_of_singleton in Hin; done).
  pose proof (peer_sound _ _ _ _ Hp) as Hs. destruct Hp as [Hal _].
  destruct (alive_facts _ _ _ _ _ _ Hal) as (L & s & Hsv & _ & _ & _).
  assert (Net.gone cur (sys_net st) = false) as Hg by (apply gone_false, elem_of_union; by left).
  pose proof (send_concerns cur data (sys_net st)) as Hcn.
  assert (sound (Client.send cur data (sys_net st)).2) as Hs'.
  { apply sound_client_send; [done|]. rewrite <- Esent, Hsent. by exists (ps ++ [p]). }
  destruct (client_unseen true run_target cur 0 0 data (sys_net st)) as (_ & _ & Hun & _).
  pose proof (client_send_run cur data _ Hg Hj (λ h, route_open _ _ _ _ _ Hsv Hin)) as E. rewrite E in *. clear E.
  cbn [fst snd] in *. rewrite Nat2Z.id, firstn_all.
  set (k' := Net.set_sent _ _) in *. assert (Net.at_ (c_sent k') cur = frames (ps ++ [p])) as Es'.
  { unfold k', Net.at_. simpl. rewrite at_insert, decide_True by done. unfold Net.at_ in Esent. by rewrite <- Esent. }
  constructor; simpl; try done.
  - eapply (tallied_client _ _ (sys_net st)); try done. apply (one_sent cur (sys_net st) _ ps p); try done; [by rewrite <- Egot|exact (proj2 Ht)].
  - rewrite at_insert, decide_True by done. change (Sim.at_ (own_sent st) cur ++ data = Net.at_ (c_sent k') cur). congruence.
  - intros x Hx. rewrite at_insert. case_decide; [congruence|]. by apply Honly.
Qed.
Lemma client_recv_got c n k x :
  let r := Client.recv c n k in
  Net.at_ (c_got r.2) x = (if decide (x = c) then Net.at_ (c_got k) c ++ r.1.2 else Net.at_ (c_got k) x) ∧
  c_sent r.2 = c_sent k ∧ client_fds r.2 = client_fds k ∧ other_fds r.2 = other_fds k.
Proof.
  assert (∀ m, Sim.at_ m x = (if decide (x = c) then Sim.at_ m c ++ [] else Sim.at_ m x)) as Hnone
    by (intros m; case_decide; [subst; by rewrite app_nil_r|done]).
  unfold Client.recv, Net.at_. destruct (Net.gone c k); [by split; [apply Hnone|]|].
  destruct (routes k !! c) as [h|]; [|by split; [apply Hnone|]].
  destruct (decide (Net.downward c h k = [])); [|simpl; rewrite at_insert; by repeat case_decide; subst].
  by destruct (decide (h ∈ server_fds k)); (split; [apply Hnone|]).
Qed.

Lemma tallies_recv port d B cur c n ps st :
  peer port d B st → tallies cur st → linked_to st c → Forall small ps → Sim.at_ (own_sent st) c = frames ps →
  Sim.at_ (own_got st) c ≠ Sim.at_ (own_sent st) c → tallies cur (client_recv c n st).2.
Proof.
  intros Hp Ht Hl Hps Ef Hne. pose proof (tallies_attend _ _ _ _ _ Hp Ht) as Ht'.
  pose proof (linked_attend _ _ _ _ _ Hp Hl) as Hl'. destruct (attend_own st) as (_ & Eo & Eg).
  rewrite <- Eo in Ef, Hne. rewrite <- Eg in Hne. apply peer_attend in Hp as [Hp _].
  unfold client_recv. revert Hp Ht' Hl' Ef Hne. generalize (attend st). clear st Ht Hl Eo Eg.
  intros st Hp [[Ho Hpl] Ht Hc Esent Egot Honly] [Hin _] Ef Hne.
  assert (c = cur) as -> by (apply Hc, elem_of_singleton in Hin; done). rewrite Esent in Ef, Hne. rewrite Egot in Hne.
  destruct Hp as [Hal _]. cbn [fst snd].
  destruct (alive_wait (λ y, tallied cur y ∧ kept (sys_net st) y.2) port (d + coming cost_fds st) (B + coming cost_bytes st)
    (coming cost_turns st) (turns_left (server_thread st) (sys_net st))
    cur ps (thread_and_net st)) as (Hal' & _ & _ & Ht' & [[E1 E2 E3 E4 _ _] _]); try done.
  { intros a port' dl evs s k Hk Hlt [Hy Hkept]. split; [by eapply tallied_turn|].
    etrans; [exact Hkept|by eapply kept_turn]. }
  { exact (alive_turns_left _ _ _ _ _ Hal). }
  fold (thread_and_net st). destruct (wait_for _ _ _) as [th k]. cbn [snd] in *.
  destruct (alive_facts _ _ _ _ _ _ Hal') as (L & s & [_ Hs _ _] & _).
  pose proof (sound_client_recv cur n k Hs) as Hs'.
  destruct (client_unseen true run_target cur 0 n [] k) as (_ & _ & _ & Hun & _).
  pose proof (λ x, client_recv_got cur n k x) as Hgot. cbv zeta in Hgot.
  destruct (Client.recv cur n k) as [r k2]. cbn [fst snd] in *. destruct (Hgot cur) as (Ek & F1 & F2 & F3).
  constructor; simpl; rewrite ?F1, ?F2, ?F3, ?E1, ?E3, ?E4; try done.
  - constructor; simpl; [by rewrite F3, E4|done].
  - apply (tallied_client cur th k k2); try done. apply (one_unseen cur k k2); try done; [|exact (proj2 Ht')].
    intros x. left. by rewrite F1.
  - rewrite Ek, decide_True, E2, at_insert, decide_True by done. by rewrite Egot.
Qed.

(** ** The system, for one client at a time *)

(** [D] more descriptors and [B0] more bytes and connections are left for later. *)
Definition lone (D B0 : nat) (port : Z) (c b : nat) (st : system) : Prop :=
  peer port (2 * c + D) (c + b + B0) st ∧
  match c with
  | O => ∃ cur, tallies cur st
  | S O => vacant st
  | _ => False
  end.

#[refine] Definition lone_peer (D B0 : nat) : EchoPeer system := {|
  echoing := lone D B0;
  linked := linked_to;
|}.
Proof.
  - intros port [|c] b f t p st [Hp Hv]; [|done].
    replace (2 * 1 + D)%nat with (S (S D)) in Hp by lia. replace (1 + b + B0)%nat with (S (b + B0)) in Hp by lia.
    pose proof (tallies_socket _ _ _ _ Hp Hv) as Ht. destruct (peer_socket _ _ _ _ Hp) as (Hr & Hp' & Hc & Hj).
    split; [done|]. pose proof (tallies_connect _ _ _ _ (client_socket st).1 port _ Hp' Ht) as Ht'.
    destruct (peer_connect _ _ _ _ _ Hp' Hc Hj) as (Hq & Hp2 & Hl). split; [done|]. split; [|done].
    split; [done|]. by eexists.
  - intros port [|[|c]] b s data flags st [Hp Hv] Hl Hn; [|by destruct Hl as [Hin _]; destruct Hv as [_ _ E _]; rewrite E in Hin|done].
    destruct Hv as [cur Ht]. pose proof (next_frame_polite _ _ _ Hn) as Hpol. destruct Hn as (ps & p & Hps & Eg & Es).
    replace (2 * 0 + D)%nat with D in Hp by lia.
    replace (0 + (length data + b) + B0)%nat with (length data + (b + B0))%nat in Hp by lia.
    pose proof (tallies_send _ _ _ _ _ _ _ _ _ Hp Ht Hl Hps Eg Es) as Ht'.
    destruct (peer_send _ _ _ _ _ _ Hp Hl Hpol) as (Hr & Hp' & Hl'). cbv zeta.
    change (sys_send s data flags st) with (client_send s data st).
    rewrite Hr. replace (length data - Z.to_nat (len data) + b)%nat with b by lia.
    split; [split; [done|by eexists]|]. split; [done|]. destruct data; [done|simpl; lia].
  - intros port [|[|c]] b s n st ps [Hp Hv] Hl Hps Ef Hne Hn; [|by destruct Hl as [Hin _]; destruct Hv as [_ _ E _]; rewrite E in Hin|done].
    destruct Hv as [cur Ht]. pose proof (tallies_recv _ _ _ _ _ n _ _ Hp Ht Hl Hps Ef Hne) as Ht'.
    destruct (peer_recv _ _ _ _ _ _ _ Hp Hl Hps Ef Hne Hn) as (? & ? & ?). cbv zeta.
    split; [split; [done|by eexists]|done].
  - intros port [|[|c]] b s st [Hp Hv] Hl _; [|by destruct Hl as [Hin _]; destruct Hv as [_ _ E _]; rewrite E in Hin|done].
    destruct Hv as [cur Ht]. split; [by apply peer_close|]. exists cur. by eapply tallies_close.
  - intros port c b s st [Hp _] Hl. by eapply peer_prefix.
Defined.
End tally.
