(* ===== verification/EchoBenchmark.v ===== *)
(** * The benchmark, from its start to its end (benchmarks/e2e_echo_benchmark.cpp)

    The fixture starts the server in a thread of its own, a client makes its round
    trips, as often as the benchmark library asks for, and the fixture stops the
    server and joins the thread.  The run ends with the right count each time, and
    with nothing open.

    The server counts a reply after it has sent it, so the client can have its
    last reply, and be done, before the count is right; that is what the loop
    that waits for the count is for.  The server's turns are otherwise taken in
    one piece here, so a run is given the points where it is stopped in between:
    after the client of each iteration, for how many yields of the main thread the
    server stays stopped between the last send(2) and its [fetch_add].  There is
    at most one such reply: a client asks again only when it has been answered,
    and the server takes the next request only after it has counted. *)

From S2P Require Import Prelude Vector FrameCodec Os Socket Connection SocketIO Poller Acceptor Dispatcher.
From S2P Require Import EchoServer Footprint EchoWorld EchoInvariant EchoLoop EchoPeer EchoClient Net NetTurn EchoCount NetClient.
From S2P Require Import EchoSystem EchoAlive EchoServed EchoTally.

(** What the run reports. *)
Inductive verdict :=
| SkipWithError (why : string)
| ItemsProcessed (n : Z).

Section benchmark.
Context `{params : !ServerParams, !Clock, !MapOrder Z, !Build, !ServerRun}.

(** ** What the threads share *)

(** The system; for how many more yields the server stays stopped before it
    counts its last reply, 0 when it is not; and where it will be stopped next. *)
Record bench := mkBench {
  bn_system : system;
  bn_stopped : nat;
  bn_stops : list nat;
}.

Definition with_system (st : system) (b : bench) : bench := mkBench st (bn_stopped b) (bn_stops b).

(** The replies that are not counted yet. *)
Definition uncounted (b : bench) : Z := if decide (bn_stopped b = O) then 0 else 1.

Definition set_thread (th : thread) (st : system) : system :=
  mkSystem (sys_net st) th (plan st) (own_sent st) (own_got st).

Definition set_completions (n : Z) (st : system) : system :=
  set_thread
    match server_thread st with
    | Serving a port deadline events s => Serving a port deadline events (mkServer (slots s) (poller s) (scratch s) n)
    | Ended port _ => Ended port n
    | th => th
    end st.

(** [completions_.store(n)]; what is not counted yet will be on top. *)
Definition store_completions (n : Z) : prog bench unit := λ b,
  Done () (with_system (set_completions (n + uncounted b) (bn_system b)) b).

(** [completions_.load()]; a server that has aborted has ended the process. *)
Definition load_completions : prog bench Z := λ b,
  match server_thread (bn_system b) with
  | Starting => Done 0 b
  | Serving _ _ _ _ s => Done (completions s - uncounted b) b
  | Ended _ n => Done (n - uncounted b) b
  | Crashed e => Stop e
  end.

(** [std::this_thread::yield()]: the server goes on, unless it stays stopped. *)
Definition yield : prog bench unit := λ b,
  match bn_stopped b with
  | S d => Done () (mkBench (bn_system b) d (bn_stops b))
  | O =>
      let st := bn_system b in
      match server_step (server_thread st, sys_net st) with
      | (Crashed e, _) => Stop e
      | (th, k) => Done () (with_system (mkSystem k th (plan st) (own_sent st) (own_got st)) b)
      end
  end.

(** The client is served, after which the server may be stopped before it counts
    the reply it sent last. *)
Definition has_counted (st : system) : bool :=
  match server_thread st with Serving _ _ _ _ s => 0 <? completions s | _ => false end.

Definition serve_client (p : prog system unit) : prog bench unit := λ b,
  match p (bn_system b) with
  | Done _ st =>
      Done () (mkBench st (if has_counted st then default O (head (bn_stops b)) else O) (tail (bn_stops b)))
  | Stop e => Stop e
  end.

(** ** The fixture *)

(** [SetUp]: the server listens before its first turn; the result is the port it
    has published. *)
Definition SetUp : prog bench Z := λ b,
  let st := bn_system b in
  match server_step (Starting, Net.set_stop false (sys_net st)) with
  | (Serving _ port _ _ _ as th, k) =>
      if port =? 0 then Stop Killed
      else Done port (with_system (mkSystem k th (plan st) (own_sent st) (own_got st)) b)
  | (Crashed e, _) => Stop e
  | _ => Stop Fuel
  end.

(** [server_.join()]. *)
Fixpoint join (fuel : nat) : prog bench unit := λ b,
  match server_thread (bn_system b), bn_stopped b with
  | Ended _ _, O => Done () b
  | _, _ =>
      match fuel with
      | O => Stop Fuel
      | S fuel => (_ ← yield; join fuel) b
      end
  end.

Definition TearDown : prog bench unit := λ b,
  let st := bn_system b in
  join (bn_stopped b + turns_left (server_thread st) (sys_net st))
    (with_system (with_net (Net.set_stop true (sys_net st)) st) b).

(** ** The benchmark *)

(** [yields] is how often the thread looks at the count before half a second has
    passed. *)
Fixpoint await_completions (yields : nat) (expected : Z) : prog bench unit :=
  match yields with
  | O => mret ()
  | S yields =>
      n ← load_completions;
      if n =? expected then mret () else _ ← yield; await_completions yields expected
  end.

(** The streams of the client before are forgotten. *)
Definition forget_streams (st : system) : system :=
  mkSystem (sys_net st) (server_thread st) (plan st) ∅ ∅.

(** [for (auto _ : state)]; [false]: the count is not what it should be. *)
Fixpoint measure (iterations yields fuel : nat) (port rtts payload_bytes : Z) : prog bench bool :=
  match iterations with
  | O => mret true
  | S iterations =>
      _ ← store_completions 0;
      _ ← serve_client (λ st,
            client_worker fuel run_target port 0 rtts payload_bytes (forget_streams st));
      _ ← await_completions yields rtts;
      n ← load_completions;
      if n =? rtts then measure iterations yields fuel port rtts payload_bytes else mret false
  end.

Definition EchoSinglePipelined (iterations yields fuel : nat) (port rtts payload_bytes : Z) : prog bench verdict :=
  if rtts <=? 0 then mret (SkipWithError "invalid args")
  else
    ok ← measure iterations yields fuel port rtts payload_bytes;
    if (ok : bool) then
      let items := Z.of_nat iterations * rtts in
      if items <? 2 ^ 63 then mret (ItemsProcessed items) else halt Undefined
    else mret (SkipWithError "completion count mismatch").

Definition run_benchmark (iterations yields fuel : nat) (rtts payload_bytes : Z) : prog bench verdict :=
  port ← SetUp;
  r ← EchoSinglePipelined iterations yields fuel port rtts payload_bytes;
  _ ← TearDown;
  mret r.

(** ** The thread is joined *)

Lemma server_step_Ended port n k m : Nat.iter m server_step (Ended port n, k) = (Ended port n, k).
Proof. induction m as [|m IH]; [done|]. rewrite Nat.iter_succ_r. exact IH. Qed.

Lemma server_step_Crashed e k m : Nat.iter m server_step (Crashed e, k) = (Crashed e, k).
Proof. induction m as [|m IH]; [done|]. rewrite Nat.iter_succ_r. exact IH. Qed.

Lemma join_run n fuel b port c k :
  let st := bn_system b in
  Nat.iter n server_step (server_thread st, sys_net st) = (Ended port c, k) → (bn_stopped b + n ≤ fuel)%nat →
  join fuel b = Done () (mkBench (mkSystem k (Ended port c) (plan st) (own_sent st) (own_got st)) O (bn_stops b)).
Proof.
  cbv zeta. revert n b. induction fuel as [|fuel IH]; intros n [st [|d] ds] E Hn; cbn [bn_system bn_stopped bn_stops] in *.
  - destruct n; [|lia]. injection E as Et Ek. destruct st as [k0 th p s g]. simpl in *. by subst.
  - lia.
  - destruct n as [|n]; [injection E as Et Ek; destruct st as [k0 th p s g]; simpl in *; by subst|].
    rewrite Nat.iter_succ_r in E. cbn [join bn_system bn_stopped]. unfold mbind, prog_bind, yield.
    cbn [bn_system bn_stopped].
    destruct (server_step (server_thread st, sys_net st)) as [th1 k1] eqn:E1.
    assert (∀ e, th1 ≠ Crashed e) as Hcr by (intros e ->; rewrite server_step_Crashed in E; done).
    destruct st as [k0 th p s g]. cbn [server_thread sys_net plan own_sent own_got] in *.
    specialize (IH n (mkBench (mkSystem k1 th1 p s g) O ds) E ltac:(simpl; lia)).
    cbn [bn_system bn_stopped bn_stops plan own_sent own_got] in IH. unfold with_system. cbn [bn_stopped bn_stops].
    destruct th as [| |port0 n0|e].
    + destruct th1; try (by destruct (Hcr e)); exact IH.
    + destruct th1; try (by destruct (Hcr e)); exact IH.
    + injection E1 as <- <-. rewrite server_step_Ended in E. by injection E as -> -> ->.
    + injection E1 as <- <-. by destruct (Hcr e).
  - specialize (IH n (mkBench st d ds) E ltac:(simpl; lia)). cbn [bn_system bn_stopped bn_stops] in IH.
    cbn [join bn_system bn_stopped]. destruct (server_thread st); exact IH.
Qed.

(** ** Between two measurements *)

(** The server is alive, there is no client, and everything asked is answered. *)
Record rested (port : Z) (d B : nat) (st : system) : Prop := {
  rs_peer : peer port d B st;
  rs_alone : alone st;
  rs_client : client_fds (sys_net st) = ∅;
  rs_answered c : (asked c (sys_net st) ≤ answered c (sys_net st))%nat;
}.

(** The count and the streams seen play no part in it. *)
Lemma peer_forget port d B st n :
  peer port d B st → client_fds (sys_net st) = ∅ →
  let st' := forget_streams (set_completions n st) in
  peer port d B st' ∧ sys_net st' = sys_net st ∧ plan st' = plan st ∧ own_sent st' = ∅ ∧
    ∃ a p dl evs s, server_thread st' = Serving a p dl evs s ∧ completions s = n.
Proof.
  intros [(a & p & dl & evs & s & Eth & Hal) _] Hc. simpl in Eth, Hal.
  unfold forget_streams, set_completions, set_thread. rewrite Eth.
  cbn [sys_net server_thread plan own_sent own_got]. split; [|by repeat split; eexists _, _, _, _, _].
  constructor; cbn [sys_net]; [|by rewrite Hc]. eexists _, _, _, _, _. split; [done|].
  unfold coming in *. simpl in *. destruct Hal as [[Hok Hs Hat HL] ? ? ? ? ? ? ? ? ? ?].
  constructor; try done. constructor; try done. by apply (server_ok_quiet _ _ _ s (sys_net st)).
Qed.

Lemma vacant_next port d B st st' a p dl evs s :
  rested port d B st → sys_net st' = sys_net st → plan st' = plan st → own_sent st' = ∅ →
  server_thread st' = Serving a p dl evs s → completions s = 0 → vacant st'.
Proof.
  intros [Hp [Ho Hpl] Hc Ha] En Epl Es Eth Hz. pose proof (peer_sound _ _ _ _ Hp) as Hs.
  pose proof (fresh_not_joined _ Hs) as Hj.
  constructor; rewrite ?En; try done; [constructor; by rewrite ?En, ?Epl| |intros x; rewrite Es; unfold Sim.at_; by rewrite lookup_empty].
  exists (next_fd (sys_net st)). split; [done|]. unfold thread_and_net. rewrite En, Eth. split.
  - exists a, p, dl, evs, s. split; [done|]. unfold counted, answered. cbn [snd].
    destruct (routes (sys_net st) !! _) eqn:E; [|exact Hz]. destruct Hj. right. by eexists.
  - intros c. specialize (Ha c). cbn [snd]. lia.
Qed.

(** All frames of the client are back: all is answered, and as often. *)
Lemma tallies_all_back port d B cur st ps :
  peer port d B st → tallies cur st → Forall small ps → ps ≠ [] →
  Sim.at_ (own_sent st) cur = frames ps → Sim.at_ (own_got st) cur = frames ps →
  (∀ c, (asked c (sys_net st) ≤ answered c (sys_net st))%nat) ∧ answered cur (sys_net st) = length ps.
Proof.
  intros [Hal _] [_ [_ Hone] _ Es Eg _] Hps Hne Esent Egot.
  destruct (alive_facts _ _ _ _ _ _ Hal) as (L & s & [Hok Hs _ _] & _). rewrite Es in Esent. rewrite Eg in Egot.
  cbn [snd thread_and_net] in Hone. set (k := sys_net st) in *.
  assert (asked cur k = length ps) as Hask by (unfold asked; by rewrite Esent, whole_frames).
  assert (length ps ≤ answered cur k)%nat as Hge.
  { unfold answered. destruct (routes k !! cur) as [h|] eqn:Er.
    - apply (nt_links _ Hs) in Er. pose proof (whole_mono _ _ (nt_down _ Hs _ _ Er)) as Hm.
      by rewrite Egot, whole_frames in Hm.
    - destruct (nt_idle _ Hs cur Er) as [E _]. rewrite E in Egot. destruct Hne.
      apply nil_length_inv. rewrite <- (whole_frames ps), <- Egot by done. done. }
  assert (answered cur k ≤ length ps)%nat as Hle.
  { unfold answered in *. destruct (routes k !! cur) as [h|] eqn:Er; [|lia]. apply (nt_links _ Hs) in Er.
    rewrite <- Hask. apply whole_mono. etrans; [|by apply (nt_up _ Hs)].
    apply (sv_echo _ _ _ _ _ Hok), not_elem_of_empty. }
  split; [|lia]. intros c. specialize (Hone c). destruct (decide (c = cur)) as [->|]; lia.
Qed.

Lemma frames_replicate n p : mjoin (replicate n (frame p)) = frames (replicate n p).
Proof. unfold frames. by rewrite fmap_replicate. Qed.

(** One measurement. *)
Lemma measure_one port d B fuel rtts payload_bytes st :
  0 < rtts < 2 ^ 31 → 0 ≤ payload_bytes ≤ effective_max_payload k_max_payload →
  k_acc_slack + payload_bytes ≤ max_size run_target → (Z.to_nat (k_acc_slack + payload_bytes) < fuel)%nat →
  rested port (2 + d) (1 + frames_cost (Z.to_nat rtts) (client_payload payload_bytes 0) + B) st →
  ∃ st2 a p dl evs s,
    client_worker fuel run_target port 0 rtts payload_bytes (forget_streams (set_completions 0 st)) = Done () st2 ∧
    rested port d B st2 ∧ server_thread st2 = Serving a p dl evs s ∧ completions s = rtts.
Proof.
  intros Hr Hpb Hm Hf Hrest. pose proof Hrest as [Hp Ha Hc Hans]. set (p := client_payload payload_bytes 0) in *.
  destruct (peer_forget _ _ _ _ 0 Hp Hc) as (Hp1 & En & Epl & Es & a & prt & dl & evs & s & Eth & Hz).
  set (st1 := forget_streams _) in *.
  pose proof (vacant_next _ _ _ _ _ _ _ _ _ _ Hrest En Epl Es Eth Hz) as Hv.
  assert (small p) as Hsm by (unfold small, p; rewrite client_payload_length; lia).
  assert (lone d B port 1 (frames_cost (Z.to_nat rtts) p + 0) st1) as Hl.
  { split; [|done]. replace (2 * 1 + d)%nat with (2 + d)%nat by lia.
    replace (1 + (frames_cost (Z.to_nat rtts) p + 0) + B)%nat with (1 + frames_cost (Z.to_nat rtts) p + B)%nat by lia. done. }
  pose proof (client_worker_run (EchoPeer0 := lone_peer d B) True fuel run_target port 0 rtts payload_bytes 0 0 st1
    run_fits Hpb Hm Hf (λ _, Hl)) as Hwp.
  unfold wp in Hwp.
  destruct (client_worker fuel run_target port 0 rtts payload_bytes st1) as [[] st2|e]; [|by destruct Hwp as [_ []]].
  destruct Hwp as (c & rests & _ & Ho & _ & Hsent & _ & Hback & _). destruct (Hback I) as (Hrec & Hp2 & cur & Htl).
  replace (2 * 0 + d)%nat with d in Hp2 by lia. replace (0 + 0 + B)%nat with B in Hp2 by lia.
  rewrite frames_replicate in Hsent. fold p in Hsent. set (ps := replicate (Z.to_nat rtts) p) in *.
  assert (Forall small ps) as Hps by by apply Forall_replicate.
  assert (length ps = Z.to_nat rtts) as Hlen by apply length_replicate.
  assert (ps ≠ []) as Hne by (intros E; rewrite E in Hlen; simpl in Hlen; lia).
  assert (c = cur) as ->.
  { destruct (decide (c = cur)) as [|Hcur]; [done|]. destruct Hne. apply nil_length_inv.
    rewrite <- (whole_frames ps), <- Hsent by done. simpl. by rewrite (tls_only _ _ Htl _ Hcur). }
  destruct (tallies_all_back _ _ _ _ _ ps Hp2 Htl Hps Hne Hsent ltac:(rewrite <- Hsent; exact Hrec)) as [Hall Hcount].
  pose proof Htl as [Hal2 [(a2 & p2 & dl2 & evs2 & s2 & Eth2 & Hct) _] _ _ _ _]. simpl in Eth2, Hct.
  exists st2, a2, p2, dl2, evs2, s2. split; [done|]. split; [|split; [done|]].
  - constructor; [exact Hp2|done| |exact Hall].
    change (client_fds (sys_net st2) = client_fds (sys_net st1)) in Ho. by rewrite Ho, En.
  - unfold counted in Hct. rewrite Hct, Hcount, Hlen, int_of_small; lia.
Qed.

(** The loop waits for the server to go on, as long as it lasts. *)
Lemma await_run yields n st d ds a p dl evs s :
  server_thread st = Serving a p dl evs s → completions s = n →
  await_completions yields n (mkBench st d ds) = Done () (mkBench st (d - yields) ds).
Proof.
  intros Eth Hn. revert d. induction yields as [|yields IH]; intros d; [by rewrite Nat.sub_0_r|].
  cbn [await_completions]. unfold mbind, prog_bind, load_completions. cbn [bn_system]. rewrite Eth.
  unfold uncounted. cbn [bn_stopped]. destruct d as [|d].
  - rewrite decide_True, Z.sub_0_r, Hn, Z.eqb_refl by done. done.
  - rewrite decide_False, (proj2 (Z.eqb_neq _ _)) by (done || lia).
    unfold yield. cbn [bn_stopped bn_system bn_stops]. exact (IH d).
Qed.

(** Where the server is stopped, and for how long, decides. *)
Definition in_time (yields iterations : nat) (stops : list nat) : bool :=
  forallb (λ d, bool_decide (d ≤ yields)%nat) (take iterations stops).

Lemma measure_run port d B iterations yields fuel rtts payload_bytes st ds :
  0 < rtts < 2 ^ 31 → 0 ≤ payload_bytes ≤ effective_max_payload k_max_payload →
  k_acc_slack + payload_bytes ≤ max_size run_target → (Z.to_nat (k_acc_slack + payload_bytes) < fuel)%nat →
  rested port (iterations * 2 + d)
    (iterations * (1 + frames_cost (Z.to_nat rtts) (client_payload payload_bytes 0)) + B) st →
  ∃ b' d' B', measure iterations yields fuel port rtts payload_bytes (mkBench st O ds)
      = Done (in_time yields iterations ds) b' ∧ rested port d' B' (bn_system b').
Proof.
  intros Hr Hpb Hm Hf. set (cost := (1 + _)%nat). revert st ds.
  induction iterations as [|n IH]; intros st ds Hrest; [by eexists _, _, _|].
  replace (S n * 2 + d)%nat with (2 + (n * 2 + d))%nat in Hrest by lia.
  replace (S n * cost + B)%nat with (cost + (n * cost + B))%nat in Hrest by lia.
  destruct (measure_one _ _ _ fuel rtts payload_bytes _ Hr Hpb Hm Hf Hrest)
    as (st2 & a & p & dl & evs & s & E2 & Hrest2 & Eth & Hn).
  cbn [measure]. unfold mbind, prog_bind at 1. unfold store_completions, with_system, uncounted.
  cbn [bn_system bn_stopped bn_stops]. rewrite decide_True by done. change (0 + 0) with 0.
  unfold prog_bind at 1. unfold serve_client. cbn [bn_system bn_stops]. rewrite E2.
  assert (has_counted st2 = true) as -> by (unfold has_counted; rewrite Eth; apply Z.ltb_lt; lia).
  set (stop := default O (head ds)). unfold prog_bind at 1. rewrite (await_run _ _ _ _ _ _ _ _ _ _ Eth Hn).
  unfold prog_bind, load_completions, uncounted. cbn [bn_system bn_stopped bn_stops]. rewrite Eth, Hn.
  assert (in_time yields (S n) ds = bool_decide (stop ≤ yields)%nat && in_time yields n (tail ds)) as ->.
  { unfold in_time, stop. destruct ds; [|done]. cbn [head tail default].
    by rewrite !take_nil, bool_decide_true by apply Nat.le_0_l. }
  case_bool_decide as Hd.
  - rewrite decide_True, Z.sub_0_r, Z.eqb_refl by lia. replace (stop - yields)%nat with O by lia.
    by apply IH.
  - rewrite decide_False, (proj2 (Z.eqb_neq _ _)) by lia. by eexists _, _, _.
Qed.

(** The server is told to stop, and joined. *)
Lemma tear_down_run port d B b :
  rested port d B (bn_system b) →
  ∃ b', TearDown b = Done () b' ∧ open_fds (bn_system b') = ∅ ∧ open_fds (sys_net (bn_system b')) = ∅.
Proof.
  destruct b as [st stopped ds]. cbn [bn_system].
  intros [Hp [Ho _] Hc _]. pose proof (alive_turns_left _ _ _ _ _ (pe_alive _ _ _ _ Hp)) as Ht.
  destruct (server_halts _ _ _ _ Hp (conj Hc Ho)) as (n & port' & c & k & Hn & E & Hk & Hck). cbn [fst snd] in Ht.
  eexists. split; [|split].
  - unfold TearDown. apply (join_run n _ (mkBench (with_net (Net.set_stop true (sys_net st)) st) stopped ds)); [exact E|].
    cbn [bn_stopped bn_system]. lia.
  - exact Hck.
  - exact Hk.
Qed.

(** ** From the start *)

Lemma SetUp_run (Hb : 0 < k_accept_backlog) port hs later ds :
  ntohs run_target port ≠ 0 →
  SetUp (mkBench (mkSystem (boot port hs) Starting later ∅ ∅) O ds)
    = Done (ntohs run_target port) (mkBench (launched port hs later) O ds).
Proof.
  intros Hport. pose proof (launched_eq Hb port hs later) as E. unfold launched in E. unfold SetUp, server_step.
  cbn [bn_system sys_net plan own_sent own_got fst snd]. change (Net.set_stop false (boot port hs)) with (boot port hs).
  unfold launched. destruct (server_turn Starting (boot port hs)) as [th k]. injection E as -> ->.
  by rewrite (proj2 (Z.eqb_neq _ _)).
Qed.

Lemma launched_rested (Hb : 0 < k_accept_backlog) port hs later d B :
  Forall only_turns later →
  provided hs (d + total_cost cost_fds (mjoin later)) (B + total_cost cost_bytes (mjoin later))
    (total_cost cost_turns (mjoin later)) →
  rested (ntohs run_target port) d B (launched port hs later).
Proof.
  intros Hpl Hpv. pose proof (launched_peer Hb port hs later d B Hpv) as Hp.
  constructor; [done|..]; by rewrite launched_eq.
Qed.

End benchmark.

(** ** Properties *)

Section properties.
Context `{params : !ServerParams, !Clock, !MapOrder Z, !Build, !ServerRun}.

(** C1. The end-to-end benchmark runs to its end. On a network where calls may be
    cut short and delayed, the server's recv(2) and send(2) interrupted, and with
    the server's turns coming whenever they like, as long as there are descriptors,
    memory and time: [SetUp] starts a server, each iteration a client makes its
    round trips against it, and [TearDown] ends the server and joins it. Each
    iteration finds the counter of completed replies equal to the number of round
    trips, and all of them are reported, exactly when the server, stopped after its
    last reply was sent and before it was counted, goes on while the main thread
    waits for the count; otherwise the run says that the count does not match.
    Nothing stays open on either side. *)
Theorem benchmark_completes port hs later stops iterations yields fuel rtts payload_bytes :
  0 < k_accept_backlog → ntohs run_target port ≠ 0 →
  0 < rtts < 2 ^ 31 → Z.of_nat iterations * rtts < 2 ^ 63 →
  0 ≤ payload_bytes ≤ effective_max_payload k_max_payload →
  k_acc_slack + payload_bytes ≤ max_size run_target →
  (Z.to_nat (k_acc_slack + payload_bytes) < fuel)%nat → Forall only_turns later →
  provided hs (iterations * 2)
    (iterations * (1 + frames_cost (Z.to_nat rtts) (client_payload payload_bytes 0)))
    (total_cost cost_turns (mjoin later)) →
  ∃ b, run_benchmark iterations yields fuel rtts payload_bytes
        (mkBench (mkSystem (boot port hs) Starting later ∅ ∅) O stops)
      = Done (if forallb (λ d, bool_decide (d ≤ yields)%nat) (take iterations stops)
              then ItemsProcessed (Z.of_nat iterations * rtts)
              else SkipWithError "completion count mismatch") b ∧
    open_fds (bn_system b) = ∅ ∧ open_fds (sys_net (bn_system b)) = ∅.
Proof.
  intros Hb Hport Hr Hitems Hpb Hm Hf Hpl Hpv.
  assert (rested (ntohs run_target port) (iterations * 2 + 0)
    (iterations * (1 + frames_cost (Z.to_nat rtts) (client_payload payload_bytes 0)) + 0) (launched port hs later)) as Hrest.
  { apply launched_rested; [done..|]. rewrite !total_cost_turns, !Nat.add_0_r by (done || by apply Forall_join). exact Hpv. }
  destruct (measure_run _ _ _ iterations yields fuel rtts payload_bytes _ stops Hr Hpb Hm Hf Hrest)
    as (b1 & d' & B' & E1 & Hrest1).
  destruct (tear_down_run _ _ _ _ Hrest1) as (b2 & E2 & Ho). exists b2. split; [|exact Ho].
  unfold run_benchmark. rewrite (prog_bind_Done _ _ _ _ _ (SetUp_run Hb port hs later stops Hport)).
  unfold EchoSinglePipelined. rewrite (proj2 (Z.leb_gt _ _)) by lia.
  fold (in_time yields iterations stops). unfold mbind, prog_bind. rewrite E1. cbv zeta.
  rewrite (proj2 (Z.ltb_lt _ _)) by done.
  destruct (in_time yields iterations stops); unfold mret, prog_ret; by rewrite E2.
Qed.
End properties.

(** ** A run *)

Definition demo_turns : list (list happening) := [[ServerTurn]; []; [ServerTurn; ServerTurn]].

(** The server is stopped for two yields in the first iteration. *)
Lemma benchmark_completes_witness :
  let order := listing_order Z in let build := Debug in
  ∃ b, run_benchmark 2 5 (Z.to_nat 70000) 3 2
        (mkBench (mkSystem (boot 8080 demo_hiccups) Starting demo_turns ∅ ∅) O [2%nat; O])
      = Done (ItemsProcessed (Z.of_nat 2 * 3)) b ∧
    open_fds (bn_system b) = ∅ ∧ open_fds (sys_net (bn_system b)) = ∅.
Proof.
  intros order build. apply (λ fuel, benchmark_completes 8080 demo_hiccups demo_turns [2%nat; O] 2 5 fuel 3 2).
  - done.
  - by vm_compute.
  - lia.
  - lia.
  - by vm_compute.
  - by vm_compute.
  - unfold k_acc_slack. lia.
  - by repeat constructor.
  - change (total_cost cost_turns (mjoin demo_turns)) with 3%nat.
    change (2 * (1 + frames_cost (Z.to_nat 3) (client_payload 2 0)))%nat with 38%nat. constructor.
    + vm_compute. lia.
    + change run_fuel with 1000%nat. lia.
    + change (max_size run_target) with (2 ^ 63 - 1). lia.
    + unfold Sim.RLIMIT_NOFILE. lia.
    + intros i Hi. simpl in Hi. change (ten_ms_tick i < 0 + 300000). unfold ten_ms_tick. lia.
Defined.

(** The same, computed; and with the server stopped for longer than the main
    thread waits. *)
Example demo_benchmark :
  let order := listing_order Z in let build := Debug in
  (λ stops, match run_benchmark 2 5 70 3 2
                   (mkBench (mkSystem (boot 8080 demo_hiccups) Starting demo_turns ∅ ∅) O stops) with
            | Done v b => Some (v, elements (open_fds (bn_system b) ∪ open_fds (sys_net (bn_system b))))
            | Stop _ => None
            end) <$> [[]; [5%nat; 3%nat]; [O; 6%nat]]
  = [Some (ItemsProcessed 6, []); Some (ItemsProcessed 6, []);
     Some (SkipWithError "completion count mismatch", [])].
Proof. vm_compute. done. Qed.
