(* ===== verification/UnitTests.v ===== *)
(** * The unit tests of the repository, on the model (tests/unit/)

    The cases of the Catch2 suites for the codec, the dispatcher, the
    configuration, idle timeouts, logging, metrics, the shutdown lifecycle and
    connection buffers, written against the definitions of this development as
    the C++ writes them against the code.  [REQUIRE] ends a case that fails it.
    That each suite passes is a check of the definitions by evaluation, next to
    the theorems about them.

    A case that needs sockets runs on [Sim], whose script says what the system
    calls return; time points start at an arbitrary reading of the clock. *)

From S2P Require Import Prelude Vector FrameCodec.
From S2P Require Import Config ConfigLoader ConfigValidator IdleTimeout Metrics Logging.
From S2P Require Import Lifecycle Os Socket Connection SocketIO Poller Acceptor Dispatcher.

(** A test case, by its name. *)
Definition test_case : Type := string * outcome unit.
Definition passes (t : test_case) : bool := bool_decide (t.2 = Ret ()).
Definition failures (suite : list test_case) : list string := (filter (λ t, ¬ passes t) suite).*1.

Notation "'REQUIRE' b ; k" := (assert_ b ≫= λ _, k)
  (at level 100, b at level 99, k at level 200, right associativity, only parsing).

(** The bytes of a character string. *)
Definition text (s : string) : list byte := String.list_byte_of_string s.

(** [r.status == s], [consumed_bytes == n] and the payload. *)
Definition decoded (r : FrameDecodeResult) (s : Status) (n : Z) (p : list byte) : bool :=
  bool_decide (r = mkResult s n p).

(** ** frame_decoder_tests.cpp *)
Module DecoderTests.

Definition append_be32 (out : list byte) (v : Z) : list byte :=
  out ++ [byte_of_Z (Z.land (Z.shiftr v 24) 255); byte_of_Z (Z.land (Z.shiftr v 16) 255);
          byte_of_Z (Z.land (Z.shiftr v 8) 255); byte_of_Z (Z.land v 255)].
Definition append_payload (out : list byte) (n : nat) (fill : byte) : list byte :=
  out ++ replicate n fill.
Definition consume_front (buf : list byte) (n : Z) : list byte := drop (Z.to_nat n) buf.

Section cases.
Context (t : target).

Definition empty_input : outcome unit :=
  r ← try_decode_frame t [] 1024;
  REQUIRE decoded r Incomplete 0 [];
  Ret ().

Definition more_than_prefix : outcome unit :=
  let buf := [x00; x00; x00] in
  r ← try_decode_frame t buf 1024;
  REQUIRE bool_decide (status r = Incomplete);
  let buf := buf ++ [x00] in
  r ← try_decode_frame t buf 1024;
  REQUIRE decoded r Complete 4 [];
  Ret ().

Definition complete_with_payload : outcome unit :=
  let buf := append_be32 [] 3 ++ text "abc" in
  r ← try_decode_frame t buf 1024;
  REQUIRE decoded r Complete 7 (text "abc");
  Ret ().

Definition payload_not_buffered : outcome unit :=
  let buf := append_be32 [] 4 ++ [x01; x02] in
  r ← try_decode_frame t buf 1024;
  REQUIRE bool_decide (status r = Incomplete);
  REQUIRE consumed_bytes r =? 0;
  Ret ().

Definition oversized_rejected : outcome unit :=
  r ← try_decode_frame t (append_be32 [] 9999) 100;
  REQUIRE decoded r OversizedLength 0 [];
  Ret ().

Definition max_boundary : outcome unit :=
  let buf := append_be32 [] 2 ++ [x10; x20] in
  r ← try_decode_frame t buf 2;
  REQUIRE bool_decide (status r = Complete);
  REQUIRE consumed_bytes r =? 6;
  REQUIRE len (payload r) =? 2;
  Ret ().

Definition large_payload : outcome unit :=
  let k_len := 400 in
  let buf := append_payload (append_be32 [] k_len) (Z.to_nat k_len) x7e in
  r ← try_decode_frame t buf 512;
  REQUIRE bool_decide (status r = Complete);
  REQUIRE consumed_bytes r =? k_frame_length_field_bytes + k_len;
  REQUIRE len (payload r) =? k_len;
  REQUIRE bool_decide (head (payload r) = Some x7e);
  REQUIRE bool_decide (last (payload r) = Some x7e);
  Ret ().

Definition big_endian_length : outcome unit :=
  r ← try_decode_frame t [x00; x00; x00; x05; x01; x02; x03; x04; x05] 64;
  REQUIRE bool_decide (status r = Complete);
  REQUIRE consumed_bytes r =? 9;
  REQUIRE len (payload r) =? 5;
  REQUIRE bool_decide (payload r !! 0%nat = Some x01);
  REQUIRE bool_decide (payload r !! 4%nat = Some x05);
  Ret ().

Definition two_frames : outcome unit :=
  let buf := append_be32 (append_be32 [] 1 ++ text "x") 2 ++ text "yz" in
  first ← try_decode_frame t buf 64;
  REQUIRE decoded first Complete 5 (text "x");
  let buf := consume_front buf (consumed_bytes first) in
  second ← try_decode_frame t buf 64;
  REQUIRE decoded second Complete 6 (text "yz");
  Ret ().

(** The loop over [full_frame]: [stream] grows by one byte per turn. *)
Fixpoint byte_at_a_time (stream rest : list byte) (last : FrameDecodeResult)
    : outcome FrameDecodeResult :=
  match rest with
  | [] => Ret last
  | b :: rest =>
      let stream := stream ++ [b] in
      last ← try_decode_frame t stream 64;
      REQUIRE bool_decide (rest = []) || bool_decide (status last = Incomplete);
      REQUIRE bool_decide (rest = []) || (consumed_bytes last =? 0);
      byte_at_a_time stream rest last
  end.

Definition byte_by_byte : outcome unit :=
  let full_frame := append_be32 [] 2 ++ text "mn" in
  last ← byte_at_a_time [] full_frame (mkResult Incomplete 0 []);
  REQUIRE decoded last Complete (len full_frame) (text "mn");
  Ret ().

Definition length_before_payload : outcome unit :=
  let buf := append_be32 [] 3 ++ text "a" in
  r ← try_decode_frame t buf 64;
  REQUIRE bool_decide (status r = Incomplete);
  let buf := buf ++ text "b" in
  r ← try_decode_frame t buf 64;
  REQUIRE bool_decide (status r = Incomplete);
  let buf := buf ++ text "c" in
  r ← try_decode_frame t buf 64;
  REQUIRE bool_decide (status r = Complete);
  REQUIRE consumed_bytes r =? 7;
  REQUIRE len (payload r) =? 3;
  Ret ().

Definition extra_bytes_stay : outcome unit :=
  let buf := append_be32 (append_be32 [] 1 ++ text "p") 1 ++ text "q" in
  r ← try_decode_frame t buf 64;
  REQUIRE bool_decide (status r = Complete);
  REQUIRE consumed_bytes r =? 5;
  let buf := consume_front buf (consumed_bytes r) in
  REQUIRE len buf =? 5;
  r2 ← try_decode_frame t buf 64;
  REQUIRE bool_decide (status r2 = Complete);
  REQUIRE bool_decide (payload r2 = text "q");
  Ret ().

Definition one_over_limit : outcome unit :=
  r ← try_decode_frame t (append_be32 [] 50) 49;
  REQUIRE bool_decide (status r = OversizedLength);
  REQUIRE consumed_bytes r =? 0;
  Ret ().

Definition excess_with_partial_payload : outcome unit :=
  r ← try_decode_frame t (append_payload (append_be32 [] 1000) 50 x00) 64;
  REQUIRE bool_decide (status r = OversizedLength);
  REQUIRE consumed_bytes r =? 0;
  Ret ().

Definition max_zero : outcome unit :=
  ok ← try_decode_frame t (append_be32 [] 0) 0;
  REQUIRE decoded ok Complete 4 [];
  bad ← try_decode_frame t (append_be32 [] 1 ++ [x00]) 0;
  REQUIRE bool_decide (status bad = OversizedLength);
  Ret ().

Definition huge_length : outcome unit :=
  r ← try_decode_frame t (append_be32 [] uint32_max) 1024;
  REQUIRE bool_decide (status r = OversizedLength);
  REQUIRE consumed_bytes r =? 0;
  Ret ().

Definition wire_limit : outcome unit :=
  r ← try_decode_frame t (append_payload (append_be32 [] 10) 10 x55) 10;
  REQUIRE bool_decide (status r = Complete);
  REQUIRE len (payload r) =? 10;
  Ret ().

Definition decoder_suite : list test_case := [
  ("empty input is incomplete", empty_input);
  ("need more than length prefix", more_than_prefix);
  ("complete frame with payload", complete_with_payload);
  ("incomplete when payload not fully buffered", payload_not_buffered);
  ("oversized length rejected without large allocation", oversized_rejected);
  ("length at max boundary accepted when bytes present", max_boundary);
  ("normal: large payload within limit", large_payload);
  ("normal: explicit big-endian length field", big_endian_length);
  ("normal: two frames back-to-back", two_frames);
  ("fragmented: byte-at-a-time until one frame complete", byte_by_byte);
  ("fragmented: length complete before payload arrives", length_before_payload);
  ("fragmented: extra bytes after first frame stay in buffer", extra_bytes_stay);
  ("oversized: one over limit with only length prefix present", one_over_limit);
  ("oversized: excess declared length despite partial payload", excess_with_partial_payload);
  ("oversized: max zero allows only empty payload", max_zero);
  ("oversized: huge u32 length rejected when cap is small", huge_length);
  ("oversized: at wire limit vs policy cap", wire_limit)]%string.
End cases.
End DecoderTests.

(** ** frame_encoder_tests.cpp *)
Module EncoderTests.
Section cases.
Context (t : target).

Definition empty_frame : outcome unit :=
  '(ok, out) ← append_encoded_frame t Vec.empty [] 1024;
  REQUIRE has_value ok;
  REQUIRE bool_decide (vdata out = [x00; x00; x00; x00]);
  Ret ().

Definition over_max : outcome unit :=
  '(err, out) ← append_encoded_frame t Vec.empty (replicate 10 x01) 9;
  REQUIRE match err with
          | Unexpected e => match encode_code e with PayloadTooLarge => true end
          | Val _ => false
          end;
  REQUIRE Vec.is_empty out;
  Ret ().

Definition preserves_existing : outcome unit :=
  out ← checked_insert t [xaa; xbb] Vec.empty;
  '(ok, out) ← append_encoded_frame t out (text "hi") 64;
  REQUIRE has_value ok;
  REQUIRE Vec.size out =? 2 + 4 + 2;
  REQUIRE bool_decide (vdata out = [xaa; xbb; x00; x00; x00; x02] ++ text "hi");
  Ret ().

Definition roundtrip : outcome unit :=
  '(ok, wire) ← append_encoded_frame t Vec.empty (text "roundtrip") 1024;
  REQUIRE has_value ok;
  dec ← try_decode_frame t (vdata wire) 1024;
  REQUIRE decoded dec Complete (Vec.size wire) (text "roundtrip");
  Ret ().

Definition frames_in_sequence : outcome unit :=
  '(ok1, wire) ← append_encoded_frame t Vec.empty (text "a") 64;
  REQUIRE has_value ok1;
  '(ok2, wire) ← append_encoded_frame t wire (text "bc") 64;
  REQUIRE has_value ok2;
  first ← try_decode_frame t (vdata wire) 64;
  REQUIRE bool_decide (status first = Complete);
  REQUIRE bool_decide (payload first = text "a");
  let wire := Vec.erase_prefix (consumed_bytes first) wire in
  second ← try_decode_frame t (vdata wire) 64;
  REQUIRE bool_decide (status second = Complete);
  REQUIRE bool_decide (payload second = text "bc");
  Ret ().

(** The socket of the connection plays no part: [s] stands for it. *)
Definition to_connection (s : Socket) : outcome unit :=
  '(ok, conn) ← append_encoded_frame_conn t (connection s).1 [xde; xad] 64;
  REQUIRE has_value ok;
  let wb := write_buf_ conn in
  REQUIRE Vec.size wb =? 6;
  dec ← try_decode_frame t (vdata wb) 64;
  REQUIRE bool_decide (status dec = Complete);
  REQUIRE bool_decide (payload dec = [xde; xad]);
  Ret ().

Definition encoder_suite : list test_case := [
  ("empty payload", empty_frame);
  ("rejects payload over max", over_max);
  ("append preserves existing outbound bytes", preserves_existing);
  ("roundtrip with decoder", roundtrip);
  ("two frames back-to-back decode sequentially", frames_in_sequence);
  ("append to connection write buffer", to_connection (mkSocket 3))]%string.
End cases.
End EncoderTests.

(** ** dispatcher_tests.cpp *)
Module DispatcherTests.
Section cases.
Context (t : target).

Definition empty_payload : outcome unit :=
  REQUIRE bool_decide (echo_dispatch [] = Val []);
  Ret ().

(** That the copy is another vector is how values are. *)
Definition copies_bytes : outcome unit :=
  REQUIRE bool_decide (echo_dispatch [x01; x02; x03] = Val [x01; x02; x03]);
  Ret ().

(** Through the interface, here the relation [dispatches]. *)
Definition via_interface : outcome unit :=
  REQUIRE bool_decide (dispatches (RequestDispatcher := EchoDispatcher) (text "x")
                         (Returns (Val (text "x"))));
  Ret ().

Definition framed_and_decoded : outcome unit :=
  let k_max := 1024 in
  match echo_dispatch (text "pq") with
  | Unexpected _ => AssertFails
  | Val response =>
      '(ok, wire) ← append_encoded_frame t Vec.empty response k_max;
      REQUIRE has_value ok;
      dec ← try_decode_frame t (vdata wire) k_max;
      REQUIRE bool_decide (status dec = Complete);
      REQUIRE bool_decide (payload dec = text "pq");
      Ret ()
  end.

Definition dispatcher_suite : list test_case := [
  ("EchoDispatcher: empty payload", empty_payload);
  ("EchoDispatcher: copies bytes", copies_bytes);
  ("RequestDispatcher: echo via interface", via_interface);
  ("EchoDispatcher: response can be framed and decoded", framed_and_decoded)]%string.
End cases.
End DispatcherTests.

(** ** idle_timeout_manager_tests.cpp *)
Module IdleTests.
Definition k_sock_a : Z := 101.
Definition k_sock_b : Z := 102.

(** Durations, in the nanoseconds of the clock. *)
Definition milliseconds (n : Z) : Z := n * 1000000.
Definition hours (n : Z) : Z := milliseconds (n * 3600000).

Section cases.
Context `{!MapOrder Z} (t0 : Z).

Definition disabled : outcome unit :=
  let mgr := register_connection k_sock_a t0 (idle_manager 0) in
  '(expired, _) ← poll_expired (t0 + hours 24) mgr;
  REQUIRE bool_decide (expired = []);
  Ret ().

Definition before_threshold : outcome unit :=
  let mgr := register_connection k_sock_a t0 (idle_manager 100) in
  let mgr := touch_activity k_sock_a (t0 + milliseconds 40) mgr in
  '(expired, _) ← poll_expired (t0 + milliseconds 120) mgr;
  REQUIRE bool_decide (expired = []);
  Ret ().

Definition after_idle_window : outcome unit :=
  let mgr := register_connection k_sock_a t0 (idle_manager 100) in
  let mgr := touch_activity k_sock_a (t0 + milliseconds 50) mgr in
  '(expired, mgr) ← poll_expired (t0 + milliseconds 160) mgr;
  REQUIRE bool_decide (expired = [k_sock_a]);
  '(expired, _) ← poll_expired (t0 + hours 1) mgr;
  REQUIRE bool_decide (expired = []);
  Ret ().

Definition unregistered : outcome unit :=
  let mgr := register_connection k_sock_a t0 (idle_manager 10) in
  let mgr := unregister_connection k_sock_a mgr in
  '(expired, _) ← poll_expired (t0 + milliseconds 1000) mgr;
  REQUIRE bool_decide (expired = []);
  Ret ().

Definition unknown_socket : outcome unit :=
  let mgr := touch_activity k_sock_b t0 (idle_manager 10) in
  let mgr := register_connection k_sock_a t0 mgr in
  '(expired, _) ← poll_expired (t0 + milliseconds 1000) mgr;
  REQUIRE bool_decide (length expired = 1%nat);
  Ret ().

Definition independent : outcome unit :=
  let mgr := register_connection k_sock_a t0 (idle_manager 100) in
  let mgr := register_connection k_sock_b (t0 + milliseconds 80) mgr in
  '(first, mgr) ← poll_expired (t0 + milliseconds 110) mgr;
  REQUIRE bool_decide (first = [k_sock_a]);
  '(second, _) ← poll_expired (t0 + milliseconds 200) mgr;
  REQUIRE bool_decide (second = [k_sock_b]);
  Ret ().

Definition idle_suite : list test_case := [
  ("disabled when idle_after is zero", disabled);
  ("not expired before threshold", before_threshold);
  ("expires after idle window from last activity", after_idle_window);
  ("unregister prevents expiry", unregistered);
  ("touch on unknown socket is no-op", unknown_socket);
  ("multiple sockets expire independently", independent)]%string.
End cases.
End IdleTests.

(** ** lifecycle_tests.cpp *)
Module LifecycleTests.

(** A call made while no other is: the phase it leaves, when it returns. *)
Definition invoke (o : op) (c : ShutdownPhase) : outcome ShutdownPhase :=
  let d := run_alone false 4 c (start o) in
  match at_pc d.2 with Returned => Ret d.1 | _ => AssertFails end.
Definition request_shutdown : ShutdownPhase → outcome ShutdownPhase := invoke Request.
Definition advance_if_drained (closed : bool) (count : Z) (pending : bool)
    : ShutdownPhase → outcome ShutdownPhase := invoke (Advance (DrainArgs closed count pending)).

Definition starts_running : outcome unit :=
  let c := Running in
  REQUIRE bool_decide (c = Running);
  REQUIRE should_accept_new_connections c;
  REQUIRE should_poll_network c;
  Ret ().

Definition moves_to_draining : outcome unit :=
  c ← request_shutdown Running;
  REQUIRE bool_decide (c = Draining);
  REQUIRE negb (should_accept_new_connections c);
  REQUIRE should_poll_network c;
  Ret ().

Definition is_monotonic : outcome unit :=
  c ← request_shutdown Running;
  c ← request_shutdown c;
  REQUIRE bool_decide (c = Draining);
  c ← advance_if_drained true 0 false c;
  REQUIRE bool_decide (c = Stopped);
  c ← request_shutdown c;
  REQUIRE bool_decide (c = Stopped);
  Ret ().

Definition cannot_stop_from_running : outcome unit :=
  c ← advance_if_drained true 0 false Running;
  REQUIRE bool_decide (c = Running);
  Ret ().

Definition waits : outcome unit :=
  c ← request_shutdown Running;
  c ← advance_if_drained false 0 false c;
  REQUIRE bool_decide (c = Draining);
  c ← advance_if_drained true 1 false c;
  REQUIRE bool_decide (c = Draining);
  c ← advance_if_drained true 0 true c;
  REQUIRE bool_decide (c = Draining);
  c ← advance_if_drained true 0 false c;
  REQUIRE bool_decide (c = Stopped);
  REQUIRE negb (should_poll_network c);
  Ret ().

(** Eight threads in lockstep, the schedule in which most of them race; the
    others are a matter of the theorems of Lifecycle.v. *)
Definition lockstep : list action :=
  replicate 8 (StartCall Request) ++
  mjoin (replicate 3 ((λ i, Access i false) <$> seq 0 8)).

Definition concurrent_requests : outcome unit :=
  match run_schedule false any_caller (Sys Running []) lockstep with
  | Some s =>
      REQUIRE forallb (λ c, bool_decide (at_pc c = Returned)) (calls s);
      REQUIRE bool_decide (phase_ s = Draining);
      Ret ()
  | None => AssertFails
  end.

Definition lifecycle_suite : list test_case := [
  ("starts running and accepts", starts_running);
  ("request_shutdown moves to draining", moves_to_draining);
  ("shutdown is monotonic", is_monotonic);
  ("cannot stop from running without draining", cannot_stop_from_running);
  ("draining waits for listener and connections", waits);
  ("concurrent request_shutdown is safe", concurrent_requests)]%string.
End LifecycleTests.

(** ** config_tests.cpp: configuration, logging, metrics *)
Module ConfigTests.

(** A file system with one file, and environments. *)
Definition only (path contents : string) (p : string) : option string :=
  if decide (p = path) then Some contents else None.
Definition no_env (name : string) : option string := None.
Definition env_set (key value name : string) : option string :=
  if decide (name = key) then Some value else None.
Definition file_of (lines : list string) : string :=
  of_chars (lines ≫= λ l, to_chars l ++ [ch_newline]).

(** [loaded.error()] has this code and this line. *)
Definition fails_with (loaded : expected ServerConfig ConfigLoadError) (c : ConfigErrorCode)
    (l : Z) : bool :=
  match loaded with
  | Unexpected e => bool_decide (load_code e = c) && (load_line e =? l)
  | Val _ => false
  end.

Definition parses_file : outcome unit :=
  let path := "tcp_server_test_config.cfg"%string in
  let open_file := only path (file_of ["# comment"; "listen.host=0.0.0.0";
    "listen.port=12345"; "limits.max_connections=42"; "limits.max_message_bytes=4096";
    "timeouts.idle_ms=1000"; "runtime.worker_threads=7"; "logging.level=warn";
    "metrics.enabled=true"]%string) in
  match load_config_from_file open_file no_env path with
  | Unexpected _ => AssertFails
  | Val loaded =>
      REQUIRE bool_decide (host (listen loaded) = "0.0.0.0"%string);
      REQUIRE port (listen loaded) =? 12345;
      REQUIRE max_connections (limits loaded) =? 42;
      REQUIRE max_message_bytes (limits loaded) =? 4096;
      REQUIRE idle_ms (timeouts loaded) =? 1000;
      REQUIRE worker_threads (runtime loaded) =? 7;
      REQUIRE bool_decide (level (logging loaded) = Warn);
      REQUIRE metrics_enabled (metrics loaded);
      REQUIRE bool_decide (validate_config loaded = None);
      Ret ()
  end.

(** [err->code == c]. *)
Definition rejected (err : option ConfigValidateError) (c : ValidateErrorCode) : bool :=
  match err with Some e => bool_decide (validate_code e = c) | None => false end.

Definition missing_required : outcome unit :=
  let cfg := set_host "127.0.0.1" default_config in
  let cfg := set_port 0 cfg in
  let cfg := set_max_connections 1 cfg in
  let cfg := set_max_message_bytes 1 cfg in
  let cfg := set_idle_ms 1 cfg in
  let cfg := set_worker_threads 1 cfg in
  REQUIRE rejected (validate_config cfg) MissingRequiredValue;
  Ret ().

Definition invalid_line : outcome unit :=
  let path := "tcp_server_test_config_invalid_line.cfg"%string in
  let open_file := only path (file_of ["listen.host 0.0.0.0"]%string) in
  REQUIRE fails_with (load_config_from_file open_file no_env path) InvalidLine 1;
  Ret ().

Definition unknown_key : outcome unit :=
  let path := "tcp_server_test_config_unknown_key.cfg"%string in
  let open_file := only path (file_of ["listen.host=0.0.0.0"; "bogus.key=123"]%string) in
  REQUIRE fails_with (load_config_from_file open_file no_env path) UnknownKey 2;
  Ret ().

Definition invalid_value_fails : outcome unit :=
  let path := "tcp_server_test_config_invalid_value.cfg"%string in
  let open_file := only path (file_of ["listen.port=not_a_number"]%string) in
  REQUIRE fails_with (load_config_from_file open_file no_env path) InvalidValue 1;
  Ret ().

Definition env_overrides : outcome unit :=
  let path := "tcp_server_test_config_env_override.cfg"%string in
  let open_file := only path (file_of ["listen.port=1000"]%string) in
  match load_config_from_file open_file (env_set "TCP_SERVER__listen__port" "2000") path with
  | Unexpected _ => AssertFails
  | Val loaded => REQUIRE port (listen loaded) =? 2000; Ret ()
  end.

Definition env_invalid : outcome unit :=
  let path := "tcp_server_test_config_env_override_invalid.cfg"%string in
  let open_file := only path (file_of ["listen.port=1000"]%string) in
  let getenv := env_set "TCP_SERVER__listen__port" "99999" in
  REQUIRE fails_with (load_config_from_file open_file getenv path) InvalidValue 0;
  Ret ().

Definition guardrail : outcome unit :=
  let cfg := set_port 1 default_config in
  let cfg := set_max_connections 1 cfg in
  let cfg := set_max_message_bytes (1024 * 1024 * 1024 + 1) cfg in
  let cfg := set_idle_ms 1 cfg in
  let cfg := set_worker_threads 1 cfg in
  REQUIRE rejected (validate_config cfg) OutOfRange;
  Ret ().

(** [threshold] is the static level that earlier cases left. *)
Definition level_filtering (threshold : LogLevel) : outcome unit :=
  let threshold := Logging.configure (mkLogging Warn) threshold in
  REQUIRE negb (Logging.enabled threshold Info);
  REQUIRE Logging.enabled threshold Warn;
  REQUIRE Logging.enabled threshold Error;
  Ret ().

(** [m] is what earlier cases left in the static state. *)
Definition metrics_disabled (m : Metrics) : outcome unit :=
  let m := Metrics.configure (mkMetrics false) m in
  let m := counter_add "accepts" 5 m in
  let m := gauge_set "connections" 10 m in
  REQUIRE negb (Metrics.enabled m);
  REQUIRE counter_get "accepts" m =? 0;
  REQUIRE gauge_get "connections" m =? 0;
  Ret ().

Definition metrics_records (m : Metrics) : outcome unit :=
  let m := Metrics.configure (mkMetrics true) m in
  let m := counter_add "bytes_in" 3 m in
  let m := counter_add "bytes_in" 7 m in
  let m := gauge_set "connections" 12 m in
  REQUIRE Metrics.enabled m;
  REQUIRE counter_get "bytes_in" m =? 10;
  REQUIRE gauge_get "connections" m =? 12;
  Ret ().

Definition config_suite : list test_case := [
  ("config loader: parses key=value file", parses_file);
  ("config validator: missing required values fails", missing_required);
  ("config loader: invalid line fails with line number", invalid_line);
  ("config loader: unknown key fails", unknown_key);
  ("config loader: invalid value fails", invalid_value_fails);
  ("config loader: environment overrides apply", env_overrides);
  ("config loader: invalid environment override fails", env_invalid);
  ("config validator: max_message_bytes guardrail triggers", guardrail);
  ("logging: level filtering works", level_filtering initial_level);
  ("metrics: disabled is no-op", metrics_disabled initial_metrics);
  ("metrics: enabled records counters and gauges", metrics_records initial_metrics)]%string.
End ConfigTests.

(** ** config_tests.cpp: sockets, the poller, connections *)
Module NetTests.
Section cases.
Context {K : Type} `{!Kernel K, !MapOrder Z, !Build} (t : target).

(** A [REQUIRE] in code that makes system calls. *)
Definition require (b : bool) : prog K unit := pure_code (assert_ b).
(** [REQUIRE(x.has_value())], and its value. *)
Definition required {T E} (x : expected T E) : prog K T :=
  match x with Val v => mret v | Unexpected _ => halt Killed end.

Definition create_and_close : prog K unit :=
  s ← create_tcp_v4;
  s ← required s;
  _ ← require (valid s);
  closed ← close s;
  _ ← require (has_value closed.1);
  _ ← require (negb (valid closed.2));
  destroy closed.2.

Definition bind_and_listen_works : prog K unit :=
  listener ← bind_and_listen "127.0.0.1" 0 16;
  listener ← required listener;
  _ ← require (listener_valid listener);
  destroy (listener_sock listener).

(** The array [events] of eight. *)
Definition no_events : list Event := replicate 8 (mkEvent k_invalid_socket EventMask.None).

Definition upsert_erase_wait : prog K unit :=
  let poller := select_poller in
  s ← create_tcp_v4;
  s ← required s;
  _ ← require (valid s);
  let (up, poller) := upsert (K := K) (native_handle s) EventMask.Read poller in
  _ ← require (has_value up);
  n ← wait no_events 0 poller;
  count ← required n.1;
  _ ← require (count <=? 8);
  let (er, poller) := erase (K := K) (native_handle s) poller in
  _ ← require (has_value er);
  destroy s.

Definition buffers_and_state : prog K unit :=
  sock ← create_tcp_v4;
  sock ← required sock;
  let conn := (connection sock).1 in
  _ ← require (state_ conn =? ConnectionState.Reading);
  _ ← require (Vec.is_empty (read_buf_ conn));
  _ ← require (Vec.is_empty (write_buf_ conn));
  let chunk := [x01; x02; x03] in
  conn ← pure_code (append_read t chunk conn);
  _ ← require (Vec.size (read_buf_ conn) =? 3);
  conn ← pure_code (consume_read 1 conn);
  _ ← require (Vec.size (read_buf_ conn) =? 2);
  conn ← pure_code (append_write t chunk conn);
  _ ← require (Vec.size (write_buf_ conn) =? 3);
  conn ← pure_code (consume_write 1 conn);
  _ ← require (Vec.size (write_buf_ conn) =? 2);
  let conn := clear_write conn in
  _ ← require (Vec.is_empty (write_buf_ conn));
  conn ← pure_code (set_state ConnectionState.Writing conn);
  _ ← require (state_ conn =? ConnectionState.Writing);
  destroy_connection conn.

(** The loop [for (attempt ...; attempt < 100 && !saw; ...)] around [wait]:
    whether [handle] was reported readable. *)
Fixpoint saw_read (attempts : nat) (handle : Z) (events : list Event) (poller : SelectPoller)
    : prog K (bool * list Event) :=
  match attempts with
  | O => mret (false, events)
  | S attempts =>
      n ← wait events 50 poller;
      count ← required n.1;
      if existsb (λ ev, (ev_socket ev =? handle)
                        && negb (mask_and (ev_mask ev) EventMask.Read =? EventMask.None))
           (take (Z.to_nat count) n.2)
      then mret (true, n.2)
      else saw_read attempts handle n.2 poller
  end.

(** What the last four cases share: a listener, an acceptor registered with a
    poller, and a connection accepted once the listener is readable. *)
Definition accepted_connection (checks_port : bool)
    : prog K (Acceptor * Connection * SelectPoller * list Event) :=
  listener ← bind_and_listen "127.0.0.1" 0 16;
  listener ← required listener;
  port ← local_port_v4 t (listener_sock listener);
  port ← required port;
  _ ← require (negb checks_port || negb (port =? 0));
  let acceptor := mkAcceptor listener in
  let (reg, poller) := register_listener (K := K) acceptor select_poller in
  _ ← require (has_value reg);
  saw ← saw_read 100 (listener_handle acceptor) no_events poller;
  _ ← require saw.1;
  accepted ← accept_and_register acceptor poller;
  conn ← required accepted.1;
  mret (acceptor, conn, accepted.2, saw.2).

(** The ends of those cases: [erase] for all but the first, then the
    destructors. *)
Definition finish (erases : bool) (acceptor : Acceptor) (conn : Connection) (poller : SelectPoller)
    : prog K unit :=
  let (un, poller) := unregister_listener (K := K) acceptor poller in
  _ ← require (has_value un);
  let (er, poller) := if erases then erase (K := K) (conn_handle conn) poller
                      else (Val (), poller) in
  _ ← require (has_value er);
  _ ← destroy_connection conn;
  destroy (listener_sock (listener_ acceptor)).

Definition accepts_into_poller : prog K unit :=
  '(acceptor, conn, poller, _) ← accepted_connection true;
  _ ← require (valid (conn_socket conn));
  finish false acceptor conn poller.

Definition receives : prog K unit :=
  '(acceptor, conn, poller, events) ← accepted_connection false;
  saw ← saw_read 100 (conn_handle conn) events poller;
  _ ← require saw.1;
  got ← receive_nonblocking t 10 conn (replicate 64 x00);
  let conn := got.1.2 in
  count ← required got.1.1;
  _ ← require (count =? 3);
  _ ← require (bool_decide (vdata (read_buf_ conn) = text "hi!"));
  finish true acceptor conn poller.

(** The loops that flush, waiting when the call would block: the one ends with
    the first bytes sent ([once]), the other with an empty buffer, and it does
    not look at what [wait] returns.  The total sent, and the connection. *)
Fixpoint flush_until (attempts : nat) (once : bool) (total : Z) (conn : Connection)
    (events : list Event) (poller : SelectPoller) : prog K (Z * Connection) :=
  match attempts with
  | O => mret (total, conn)
  | S attempts =>
      if negb once && Vec.is_empty (write_buf_ conn) then mret (total, conn)
      else
        '(sent, conn) ← flush_write_nonblocking 10 conn;
        match sent with
        | Val n =>
            if once && (0 <? n) then mret (total + n, conn)
            else flush_until attempts once (total + n) conn events poller
        | Unexpected e =>
            _ ← require (bool_decide (send_code e = SendErrorCode.WouldBlock));
            n ← wait events 50 poller;
            _ ← require (negb once || has_value n.1);
            flush_until attempts once total conn n.2 poller
        end
  end.

Definition flush_delivers : prog K unit :=
  '(acceptor, conn, poller, events) ← accepted_connection false;
  conn ← pure_code (append_write t (text "ok") conn);
  let (up, poller) := upsert (K := K) (conn_handle conn)
                        (mask_or EventMask.Read EventMask.Write) poller in
  _ ← require (has_value up);
  '(total, conn) ← flush_until 100 true 0 conn events poller;
  _ ← require (0 <? total);
  _ ← require (Vec.is_empty (write_buf_ conn));
  finish true acceptor conn poller.

Definition partial_flush : prog K unit :=
  let k_expect := 512 in
  '(acceptor, conn, poller, events) ← accepted_connection false;
  wb ← pure_code (checked_reserve t k_expect (write_buf_ conn));
  wb ← pure_code (checked_pushes t ((λ i, byte_of_Z (Z.land i 255)) <$> seqZ 0 k_expect) wb);
  let conn := with_write conn wb in
  let (up, poller) := upsert (K := K) (conn_handle conn)
                        (mask_or EventMask.Read EventMask.Write) poller in
  _ ← require (has_value up);
  '(total, conn) ← flush_until 500 false 0 conn events poller;
  _ ← require (Vec.is_empty (write_buf_ conn));
  _ ← require (total =? k_expect);
  finish true acceptor conn poller.
End cases.

(** A case, run with this script of answers; [client] is what the case requires
    of the peer of descriptor 6, of what that has been sent.  In the end every
    descriptor is closed. *)
Definition on_sim (answers : list answer) (client : list byte → bool) (p : prog sim unit)
    : outcome unit :=
  match p (Sim.boot answers) with
  | Done _ k =>
      REQUIRE client (Sim.at_ (sim_sent k) 6);
      REQUIRE bool_decide (sim_open k = ∅);
      Ret ()
  | Stop Killed => AssertFails
  | Stop _ => UB
  end.

(** Resolve, create, set up, bind, listen, ask for the port; the listener is
    readable; accept and make non-blocking. *)
Definition accepting : list answer :=
  [Addrs [demo_addr]; Give 0; Give 0; Give 0; Give 0; Give 8080; Block; Ready [3] [] [];
   Give 0; Give 0; Give 0].

(** A client that requires nothing. *)
Definition nobody (got : list byte) : bool := true.
Definition got_ok (got : list byte) : bool := bool_decide (got = text "ok").
Definition got_512 (got : list byte) : bool := len got =? 512.

Definition net_suite `{!MapOrder Z, !Build} (t : target) : list test_case := [
  ("net socket: RAII create and close works", on_sim [] nobody create_and_close);
  ("net listener: bind and listen works", on_sim [Addrs [demo_addr]] nobody bind_and_listen_works);
  ("select poller: upsert/erase and timeout wait", on_sim [] nobody upsert_erase_wait);
  ("connection: buffers and state", on_sim [] nobody (buffers_and_state t));
  ("acceptor: register listener and accept new connection into poller",
    on_sim accepting nobody (accepts_into_poller t));
  ("net recv: non-blocking receive after readable event",
    on_sim (accepting ++ [Ready [6] [] []; Data (text "hi!")]) nobody (receives t));
  ("net send: flush_write_nonblocking delivers payload",
    on_sim (accepting ++ [Block; Ready [] [6] []])
      got_ok (flush_delivers t));
  ("net send: partial flush with small send buffer",
    on_sim (accepting ++ [Give 128; Fail EINTR; Give 128; Block; Ready [] [6] []; Give 200])
      got_512 (partial_flush t))]%string.
End NetTests.

(** ** The suites pass *)

Theorem decoder_tests_pass : failures (DecoderTests.decoder_suite lp64) = [] ∧ failures (DecoderTests.decoder_suite ilp32) = [].
Proof. by vm_compute. Qed.

Theorem encoder_tests_pass : failures (EncoderTests.encoder_suite lp64) = [] ∧ failures (EncoderTests.encoder_suite ilp32) = [].
Proof. by vm_compute. Qed.

Theorem dispatcher_tests_pass : failures (DispatcherTests.dispatcher_suite lp64) = [].
Proof. by vm_compute. Qed.

Theorem idle_tests_pass : failures (IdleTests.idle_suite (MapOrder0 := listing_order Z) 1234567890) = [].
Proof. by vm_compute. Qed.

Theorem lifecycle_tests_pass : failures LifecycleTests.lifecycle_suite = [].
Proof. by vm_compute. Qed.

Theorem config_tests_pass : failures ConfigTests.config_suite = [].
Proof. by vm_compute. Qed.

Theorem net_tests_pass :
  failures (NetTests.net_suite (MapOrder0 := listing_order Z) (H := Connection.Debug) lp64) = [].
Proof. by vm_compute. Qed.

(** ** The case with eight threads, in general

    Any number of threads, any interleaving: once calls of [request_shutdown]
    alone have all ended, none aborted and the phase is [Draining]. *)
Definition requests_only (s : sys) (o : op) : Prop := o = Request.

Lemma requests_only_reachable ndebug s :
  reachable init_sys (sys_step ndebug requests_only) s →
  Forall (λ c, Lifecycle.prog c = Request) (calls s).
Proof.
  revert s. apply reachable_invariant; [by intros ? ->|].
  intros s1 s2 Hall Hstep. destruct Hstep as [s1 o _ ->|s1 i c sp ph c' Hi Hs]; simpl.
  - by apply Forall_app_2, Forall_singleton.
  - apply Forall_insert_lookup; [done|].
    eapply Forall_lookup_1 in Hall as Hc; [|exact Hi]. simpl in Hc.
    unfold call_step, request_step in Hs. rewrite Hc in Hs.
    repeat (case_match; simplify_eq/=); done.
Qed.

Theorem concurrent_requests_drain ndebug s :
  reachable init_sys (sys_step ndebug requests_only) s →
  calls s ≠ [] → Forall finished (calls s) →
  phase_ s = Draining ∧ Forall (λ c, at_pc c = Returned) (calls s).
Proof.
  intros Hr Hne Hfin. pose proof (requests_only_reachable _ _ Hr) as Hreq.
  apply sys_inv_reachable in Hr as [Hok _ _ Hadv].
  assert (phase_ s ≠ Stopped) as Hns.
  { intros E. rewrite bool_decide_eq_true_2 in Hadv by done.
    destruct (countb_pos_inv won_advance (calls s)) as (i & c & Hi & Hw); [lia|].
    eapply Forall_lookup_1 in Hreq as Hc; [|exact Hi]. unfold won_advance in Hw.
    simpl in Hc. by rewrite Hc in Hw. }
  assert (Forall (λ c, at_pc c = Returned ∧ phase_ s ≠ Running) (calls s)) as Hret.
  { rewrite !Forall_forall in *. intros c Hc. specialize (Hok c Hc). unfold call_ok in Hok.
    rewrite (Hreq c Hc) in Hok. destruct (Hfin c Hc) as [E|E]; rewrite E in Hok; tauto. }
  split; [|eapply Forall_impl; [exact Hret|]; by intros ? []].
  destruct (calls s) as [|c l]; [done|]. apply Forall_cons_1 in Hret as [[_ Hp] _].
  by destruct (phase_ s).
Qed.
